(* ===== verification/_CoqProject ===== *)
-Q . S2P
Prelude.v
Common.v
FrequencySketch.v
Deque.v
Time.v
Housekeeper.v
EntryInfo.v
Concurrent.v
Deques.v
TimerWheel.v
Policy.v
Clock.v
Invalidator.v
Inner.v
BaseCache.v
InnerInv.v
InnerRemove.v
Admission.v
Eviction.v
LruOrder.v
Scan.v
Maintenance.v
Operations.v
System.v
Guarantees.v
Findings.v
Probing.v
Bucket.v
BucketTable.v
HashTable.v
HashTableMap.v
HashTableRefines.v
TableRace.v
TableRaceInv.v
TableRaceSys.v
TableRaceLin.v
TableRaceShrink.v
TableRaceEnds.v
CacheIter.v
ChtIter.v
ValueInitializer.v
KeyLock.v
PredicateRace.v
MiniArc.v
DebugCounters.v
SegmentedCache.v
CacheApi.v
EntrySelector.v
Client.v
SegmentedClient.v
Builder.v
FutureOps.v
FutureInv.v
FutureCache.v
FutureAlone.v
FutureApi.v
FutureClient.v
FutureBuilder.v
FutureRun.v
FutureRunInv.v
FutureRunSys.v
FutureRunEnds.v
