(* ===== verification/Prelude.v ===== *)
(** * A verification of the caches of moka

    moka is an in-process cache for many threads.  A cache holds entries in a
    concurrent hash table; every read and write is also recorded in a bounded log,
    and a maintenance task, run by whichever thread finds it due, applies the logs
    to the policy data: LRU queues, a write-order queue, a timer wheel for
    per-entry expiration, and a frequency sketch for TinyLFU admission.  The task
    evicts what is expired, invalidated or over capacity and tells the eviction
    listener.  On top, calls on one key that initialise or compute a value are
    coalesced, keys are locked to order notifications, and a segmented cache
    spreads its keys over several caches.  The asynchronous cache is the same engine
    behind futures that their callers may drop at any await point: what a dropped
    operation leaves undone goes to a channel, and the next operation takes it up.

    The development follows the code bottom up.  Each part of the program is a
    file (or two: definitions, then proofs) with the same names; [res] below is the
    error monad that all definitions share, and its faults are the ways in which a
    thread of the source can stop.

    ** The parts

    - Prelude: faults, the error monad, machine integers, loops, shared lemmas.
    - Common: constants and configuration (common.rs, common/builder_utils.rs,
      common/concurrent/constants.rs).
    - FrequencySketch: the count-min sketch (common/frequency_sketch.rs), at the
      width of its words.
    - Deque: the intrusive doubly linked list (common/deque.rs), on a heap of nodes,
      cursor included.
    - Time, Clock, EntryInfo, Concurrent: instants and the clocks they come from, the
      packed metadata of entries, entries and log records (common/time,
      common/concurrent/entry_info.rs, common/concurrent.rs).  Entries share metadata
      and nodes through a store keyed by entry, as they do through reference counts
      in the source.
    - Deques, TimerWheel: the cache's queues and the hierarchical wheel
      (common/concurrent/deques.rs, common/timer_wheel.rs).
    - Policy, Invalidator, Housekeeper: expiration checks and notifications
      (policy.rs, notification.rs), registered predicates (sync/invalidator.rs), and
      the scheduling of the maintenance task against the interface [InnerSync]
      (common/concurrent/housekeeper.rs).
    - Inner: the engine and the whole maintenance task (struct [Inner] of
      sync/base_cache.rs): log application, admission, the four evictions.
    - BaseCache: lookups, insertions, removals, invalidations and the scheduling of
      writes (the rest of sync/base_cache.rs, and sync/cache.rs).
    - InnerInv, InnerRemove, Admission, Eviction, LruOrder, Scan, Maintenance,
      Operations: the invariant of the engine and its preservation by each handler,
      each loop and each operation.
    - System: the cache as a state machine.  A write updates the hash table in one
      event and sends its record in another; reads, invalidations, registrations
      of predicates and maintenance runs come in any order between them.
    - Guarantees, Findings: what users can rely on in every reachable state, and
      executions where the documentation promises more than the code does.
    - Probing, Bucket, BucketTable, HashTable, HashTableMap, HashTableRefines: the
      hash table itself (cht/map/bucket.rs, cht/map/bucket_array_ref.rs,
      cht/segment.rs): open addressing over tagged pointers, tombstones, rehashing,
      segments; Probing is the reference table on plain lists.
    - TableRace: the hash table shared by threads, a machine that interleaves calls at
      every load, compare-and-exchange, lock and counter, while buckets move between
      arrays.  TableRaceInv, TableRaceSys: its invariant and every step; TableRaceLin:
      histories and linearizations; TableRaceShrink: what smaller arrays lose, and
      an array that [swing] skips; TableRaceEnds: calls return, and the contract.
    - CacheIter: the iterator (common/iter.rs) against the interface [ScanningGet],
      and the instance for the cache; ChtIter: the iterator of one hash table
      (cht/iter.rs).
    - ValueInitializer: [try_init_or_read], [try_compute] and
      [try_compute_if_nobody_else] (sync/value_initializer.rs and
      future/value_initializer.rs) as a machine of interleaved calls; the
      asynchronous flavour has futures that are dropped.
    - MiniArc: the reference counter (common/concurrent/arc.rs) as a machine of
      interleaved clones, reads and drops.
    - DebugCounters: the global counters of the debug statistics
      (common/concurrent/debug_counters.rs), interleaved additions and loads.
    - KeyLock: the lock map (sync/key_lock.rs) as a machine of interleaved users.
    - SegmentedCache: creation, routing and the operations of the segments
      (sync/segment.rs).
    - CacheApi, EntrySelector: the public calls of [Cache] (sync/cache.rs) and of the
      entry selectors (sync/entry_selector.rs), each run from its first access of
      the cache to its return; closures that fail or panic included.
    - Client, SegmentedClient: the abstract cache that a thread using a [Cache] or a
      [SegmentedCache] alone may reason with, and that the calls refine it.
    - Builder: the settings of a cache and its creation (sync/builder.rs,
      future/builder.rs), and the policy it reports; FutureBuilder: the asynchronous
      builder, and from the settings to what the client of a built cache gets.
    - FutureOps: the asynchronous operations (future.rs, future/base_cache.rs,
      future/cache.rs, future/housekeeper.rs, future/notifier.rs) as tasks that are
      polled and dropped: guards, interrupted operations, notifications as shared
      futures, the suspended maintenance run, the event writers wait for (the type
      [event_listener::Event] is the class [ReadyEvent], with its laws).  FutureInv:
      their invariant, over that of System; FutureCache: what holds whatever is
      dropped; FutureAlone: an operation polled alone is the synchronous one.
    - FutureApi: the public asynchronous calls (future/cache.rs,
      future/entry_selector.rs) as programs that await those operations, hold
      waiters and await the futures of the user; FutureClient: such a program,
      driven to its end on the machine of FutureOps, is its synchronous twin.
    - FutureRun: the maintenance run of the asynchronous cache (the [async] functions
      of [Inner] in future/base_cache.rs, future/invalidator.rs) as a resumption, a
      program that is suspended between any two accesses of what it shares.
      FutureRunInv: a rely-guarantee logic for such programs and the safety of each
      of them; FutureRunSys: the machine of a suspended run and of the operations
      that come meanwhile; FutureRunEnds: a run that is resumed ends.
    - PredicateRace: the registry of predicates and its flag, shared by registrations
      and a removal.

    ** What the theorems show

    - Safety: from a new cache, no sequence of up to [2^32] writes and any number of
      other events makes an operation or a maintenance run panic, overflow,
      dereference a freed node or loop for ever.  The one exception is the frequency
      sketch, whose aging can underflow: the theorems about the engine hold for every
      configuration in a build without overflow checks, where the sketch wraps, and
      in a build with them for the configurations of [sketch_safe] (next section).
    - Refinement: the cache refines a map of the last values written (it may forget,
      it never returns anything else, nor anything expired, invalidated or rejected
      by a predicate), the segmented cache refines one such map over all its
      segments, the hash table implements a finite map, the deque implements a
      list, the queues implement two lists.  To a thread that uses it alone, every
      public call of a cache, segmented or not, synchronous or asynchronous,
      returns with a reply that one abstract cache allows.
    - Function: what insertions, invalidations and maintenance runs do and leave
      alone; which entries size eviction and admission choose; what the listener is
      told; what iterators return; what the sketch estimates.
    - Concurrency of the hash table: every history of its calls is linearizable, with
      rehashes and failing exchanges at any moment, unless a shrink finds no room for
      an entry; without shrinks that never happens.  A call that runs alone returns,
      over all rehashes and retries.  So the events of System, which take an operation
      of the table as one step, are what its users see.
    - Concurrency of calls on a key: one flight at a time per key and type, equal
      results for coalesced calls, no lost update between computations, no deadlock
      and no livelock.
    - Cancellation: whatever tasks are polled and dropped in whatever order, no poll
      of an asynchronous operation faults and no lookup is stale; no write and no
      notification is lost or made twice; one maintenance run goes on at a time, and
      a cancelled one is resumed; the next operation completes what was interrupted.
    - Interference: a maintenance run suspended at any of its await points stays safe
      whatever other tasks do to the cache meanwhile, and so do they; its counters
      are exact at every step; resumed often enough, it ends.
    - Memory: dropping a deque or a hash table frees exactly what it holds, and a
      reference count frees its allocation once, after the last pointer.
    - Flaws: theorems named in Findings, FrequencySketch, EntryInfo,
      HashTableRefines, TableRaceShrink, ValueInitializer, KeyLock, PredicateRace,
      Client and FutureCache exhibit executions in which the code fails its purpose.

    ** Bounds, fuel and time

    Machine integers are [Z] at their width: plain operators are [checked_add] and
    [checked_sub] and fault on overflow, the wrapping and saturating ones are what
    their names say.  Where the theorems show that no overflow happens it does not
    matter whether the program is built with overflow checks.  The frequency sketch is
    the one place where an overflow can happen; there the operators are [plain_add] and
    [plain_sub], which fault or wrap as the build does ([overflow_checks] of [Config]).

    [sketch_safe] (in Maintenance) is what the theorems about the engine and the caches
    ask of a configuration for the sketch: nothing in a build without overflow checks;
    with them, that the eviction policy is LRU, or the capacity unbounded, or that there
    is no weigher and the capacity (128 at least) is at most [2^27] and at least four
    fifths of the next power of two.  Other TinyLFU configurations can reach the
    underflow ([reset_underflow_reachable] has a cache of 129 entries).

    A loop that is not structural takes fuel and faults with
    [Diverged] without; the fuel is computed from the state (the length of a queue
    plus one, the number of log records, the buckets of a wheel level) or is a small
    constant, and the theorems that an operation returns [Ok] show it is enough.
    [REHASH_FUEL] is 3, since a rehash leaves no tombstone and at most one more is
    due; [RETRY_FUEL] is 2, since an array in use is never found relocated.  Clock
    readings are arguments of the operations, in the order the code takes them, and
    need not be monotonic.  The user's functions (weigher, expiry, listener,
    predicates, hasher, closures) are parameters; hypotheses say what the types of
    the source say of them (a [u32] weight, a [u64] hash, a non-negative duration).
    [user_ok] collects them, and asks that the clock was created 584 years or more
    before the last instant that [std::time] can represent, since the sum of its origin
    and an instant of the cache panics after that.

    ** What is not modelled, and why

    - The epoch-based reclamation of crossbeam: in TableRace no address is used again,
      as the collector guarantees to threads that are pinned.  [keys] and the first
      allocation of a segment are modelled in HashTable only, one at a time.  In
      System an operation of the table is atomic, and its closures run once.
    - The memory orderings of atomics, the freeing of entries by their reference
      counts (entries are never freed in the engine; MiniArc treats the counter
      itself).
    - Random UUIDs, logging, the accessors that only return a field ([name]), and the
      cloning of an [Arc].
    - Closures of the user that themselves call the cache: they are given by what
      they return.
    - In the asynchronous cache: the locks on keys, which only forbid interleavings;
      the notification of some of the waiting writers in the middle of a run.  In
      FutureApi a call that finds the waiter of another is blocked: how calls wait
      for each other, and what they do when another is dropped, is the matter of
      ValueInitializer.  FutureOps takes a maintenance run that has its locks as one
      step; FutureRunSys takes it apart, with the operations of System around it in
      place of the tasks. *)
From stdpp Require Export base gmap list strings.
From Stdlib Require Export ZArith Lia.

#[export] Set Default Goal Selector "!".

(** ** Faults and the error monad

    A fault is what stops a thread of the source: a panic (an [unreachable!],
    a failed assertion, an [unwrap] or [expect] on the wrong variant, an
    out-of-range index, an integer overflow of a plain operator in a build with
    overflow checks) or the dereference of a pointer whose node was freed.
    [Diverged] is not of the source: a loop modelled with fuel ends in it when the
    fuel runs out, and the theorems show that it does not. *)
Inductive fault :=
| Unreachable
| AssertFailed
| UnwrapNone
| OutOfBounds
| Overflow
| Dangling
| Diverged.

Inductive res (A : Type) :=
| Ok (a : A)
| Fail (e : fault).
Arguments Ok {A} _.
Arguments Fail {A} _.

#[export] Instance res_ret : MRet res := fun A a => Ok a.
#[export] Instance res_bind : MBind res :=
  fun A B f m => match m with Ok a => f a | Fail e => Fail e end.
#[export] Instance res_fmap : FMap res :=
  fun A B f m => match m with Ok a => Ok (f a) | Fail e => Fail e end.

#[export] Instance fault_eq_dec : EqDecision fault.
Proof. solve_decision. Defined.

(** [expect_some e o] is [o.unwrap()], [o.expect(..)] or an index operation. *)
Definition expect_some {A} (e : fault) (o : option A) : res A :=
  match o with Some a => Ok a | None => Fail e end.

(** [assert_that b] is [assert!(b)] or [debug_assert!(b)]. *)
Definition assert_that (b : bool) : res unit :=
  if b then Ok tt else Fail AssertFailed.

(** A [for] loop whose body may fault: it threads the accumulator. *)
Fixpoint foldM {A B} (f : A -> B -> res A) (a : A) (l : list B) : res A :=
  match l with
  | [] => Ok a
  | x :: l' => a' ← f a x; foldM f a' l'
  end.

(** A [for] loop with [break]: the body returns [(true, a)] to leave it. *)
Fixpoint for_break {A} (n : nat) (f : A -> res (bool * A)) (a : A) : res A :=
  match n with
  | O => Ok a
  | S n' => '(stop, a') ← f a; if (stop : bool) then Ok a' else for_break n' f a'
  end.

Open Scope Z_scope.

(** ** Machine integers *)
Definition U8_MAX : Z := 2 ^ 8 - 1.
Definition U16_MAX : Z := 2 ^ 16 - 1.
Definition U32_MAX : Z := 2 ^ 32 - 1.
Definition U64_MAX : Z := 2 ^ 64 - 1.
Definition I32_MAX : Z := 2 ^ 31 - 1.

Definition wrap (w x : Z) : Z := x mod 2 ^ w.
Definition wrapping_add (w x y : Z) : Z := wrap w (x + y).
Definition wrapping_sub (w x y : Z) : Z := wrap w (x - y).
Definition wrapping_mul (w x y : Z) : Z := wrap w (x * y).
Definition saturating_sub (x y : Z) : Z := Z.max 0 (x - y).
Definition saturating_add (w x y : Z) : Z := Z.min (2 ^ w - 1) (x + y).
Definition saturating_mul (w x y : Z) : Z := Z.min (2 ^ w - 1) (x * y).
(** The plain [+] and [-] of the source on a [w]-bit unsigned type. *)
Definition checked_add (w x y : Z) : res Z :=
  if x + y <=? 2 ^ w - 1 then Ok (x + y) else Fail Overflow.
Definition checked_sub (x y : Z) : res Z :=
  if y <=? x then Ok (x - y) else Fail Overflow.
(** The same where the sum or the difference need not fit: a build with overflow
    checks faults there, and one without them wraps around. *)
Definition plain_add (checks : bool) (w x y : Z) : res Z :=
  if checks then checked_add w x y else Ok (wrapping_add w x y).
Definition plain_sub (checks : bool) (w x y : Z) : res Z :=
  if checks then checked_sub x y else Ok (wrapping_sub w x y).
Definition next_power_of_two (x : Z) : Z := 2 ^ Z.log2_up x.
(** The standard library's [next_power_of_two] of a [w]-bit unsigned type, and the plain
    product; out of range they fault like [checked_add]. *)
Definition checked_next_power_of_two (w x : Z) : res Z :=
  if next_power_of_two x <=? 2 ^ w - 1 then Ok (next_power_of_two x) else Fail Overflow.
Definition checked_mul (w x y : Z) : res Z :=
  if x * y <=? 2 ^ w - 1 then Ok (x * y) else Fail Overflow.
Definition count_ones (w : Z) : Z :=
  foldr Z.add 0 (map (fun i => Z.b2z (Z.testbit w (Z.of_nat i))) (seq 0 64)).

(** ** Tactics *)
Ltac destruct_match :=
  match goal with
  | |- context [match ?x with _ => _ end] => destruct x eqn:?
  | H : context [match ?x with _ => _ end] |- _ => destruct x eqn:?
  end.

(** Peels the binds of the error monad off a hypothesis [_ = Ok _]. *)
Ltac res_inv :=
  repeat match goal with
  | H : Ok _ = Ok _ |- _ => injection H as H; subst
  | H : Fail _ = Ok _ |- _ => discriminate H
  | H : mbind ?f ?m = Ok _ |- _ =>
      let E := fresh "E" in destruct m eqn:E; cbn in H; [|discriminate H]
  | H : (_ ≫= _) = Ok _ |- _ => progress cbn in H
  end.

(** Linear arithmetic with divisions by constants. *)
Ltac div_lia := zify; Z.to_euclidean_division_equations; lia.

(** ** Laws of the error monad *)
Lemma bind_Ok {A B} (f : A -> res B) (m : res A) (b : B) :
  (m ≫= f) = Ok b <-> exists a, m = Ok a /\ f a = Ok b.
Proof.
  destruct m as [a|e]; cbn; split.
  - eauto.
  - by intros (a' & [= <-] & H).
  - done.
  - by intros (a' & ? & _).
Qed.

(** Total correctness: the computation returns, and its result satisfies [Q]. *)
Definition returns {A} (m : res A) (Q : A -> Prop) : Prop := exists a, m = Ok a /\ Q a.
Lemma returns_ok {A} (a : A) (Q : A -> Prop) : Q a -> returns (Ok a) Q.
Proof. by exists a. Qed.
Lemma returns_bind {A B} (m : res A) (f : A -> res B) (P : A -> Prop) (Q : B -> Prop) :
  returns m P -> (forall a, P a -> returns (f a) Q) -> returns (m ≫= f) Q.
Proof. intros (a & -> & Ha) Hf. exact (Hf a Ha). Qed.
Lemma returns_mono {A} (m : res A) (P Q : A -> Prop) : returns m P -> (forall a, P a -> Q a) -> returns m Q.
Proof. intros (a & -> & Ha) HQ. exists a. auto. Qed.

Lemma foldM_app {A B} (f : A -> B -> res A) a l1 l2 :
  foldM f a (l1 ++ l2) = (a' ← foldM f a l1; foldM f a' l2).
Proof.
  revert a; induction l1 as [|x l1 IH]; intros a; cbn; [done|].
  destruct (f a x); cbn; auto.
Qed.

(** A loop whose body preserves [P] and does not fault does not fault. *)
Lemma foldM_inv {A B} (P : A -> Prop) (f : A -> B -> res A) l a :
  P a ->
  (forall a x, x ∈ l -> P a -> exists a', f a x = Ok a' /\ P a') ->
  exists a', foldM f a l = Ok a' /\ P a'.
Proof.
  revert a; induction l as [|x l IH]; intros a Ha Hf; cbn; [eauto|].
  destruct (Hf a x) as (a1 & -> & H1); [left|done|]; cbn.
  apply IH; [done|]. intros a2 y Hy; apply Hf; by right.
Qed.

Lemma for_break_inv {A} (P : A -> Prop) (f : A -> res (bool * A)) n a :
  P a ->
  (forall a, P a -> exists b a', f a = Ok (b, a') /\ P a') ->
  exists a', for_break n f a = Ok a' /\ P a'.
Proof.
  revert a; induction n as [|n IH]; intros a Ha Hf; cbn; [eauto|].
  destruct (Hf a Ha) as (b & a1 & -> & H1); cbn.
  destruct b; eauto.
Qed.

(** ** Integers *)
Lemma wrap_range w x : 0 <= w -> 0 <= wrap w x < 2 ^ w.
Proof. intros Hw. apply Z.mod_pos_bound, Z.pow_pos_nonneg; lia. Qed.

Lemma checked_add_ok w x y : x + y <= 2 ^ w - 1 -> checked_add w x y = Ok (x + y).
Proof. intros H. unfold checked_add. by rewrite (proj2 (Z.leb_le _ _) H). Qed.

Lemma checked_sub_ok x y : y <= x -> checked_sub x y = Ok (x - y).
Proof. intros H. unfold checked_sub. by rewrite (proj2 (Z.leb_le _ _) H). Qed.

Lemma wrap_small w x : 0 <= x < 2 ^ w -> wrap w x = x.
Proof. apply Z.mod_small. Qed.

Lemma plain_add_ok checks w x y : 0 <= x + y <= 2 ^ w - 1 -> plain_add checks w x y = Ok (x + y).
Proof.
  intros Hxy. destruct checks; cbn; [apply checked_add_ok; lia|]. unfold wrapping_add. by rewrite wrap_small by lia.
Qed.

Lemma plain_sub_ok checks w x y : y <= x -> 0 <= x - y < 2 ^ w -> plain_sub checks w x y = Ok (x - y).
Proof.
  intros Hxy Hr. destruct checks; cbn; [by apply checked_sub_ok|]. unfold wrapping_sub. by rewrite wrap_small.
Qed.

(** What a plain addition that does not fault returns. *)
Lemma plain_add_inv checks w x y z : 0 <= x + y -> plain_add checks w x y = Ok z -> z = wrapping_add w x y.
Proof.
  intros Hxy. destruct checks; cbn; [|by intros [= <-]]. unfold checked_add. case_match eqn:E; [|done].
  apply Z.leb_le in E. intros [= <-]. unfold wrapping_add. by rewrite wrap_small by lia.
Qed.

Lemma next_power_of_two_ge x : x <= next_power_of_two x.
Proof.
  unfold next_power_of_two. destruct (Z.le_gt_cases x 1).
  - pose proof (Z.pow_pos_nonneg 2 (Z.log2_up x)). pose proof (Z.log2_up_nonneg x). lia.
  - apply Z.log2_up_spec; lia.
Qed.

Lemma next_power_of_two_le x k : 0 <= k -> x <= 2 ^ k -> next_power_of_two x <= 2 ^ k.
Proof.
  intros Hk Hx. apply Z.pow_le_mono_r; [lia|]. rewrite <- (Z.log2_up_pow2 k) by done. by apply Z.log2_up_le_mono.
Qed.

Lemma checked_next_power_of_two_ok w x :
  1 <= w -> x <= 2 ^ (w - 1) -> checked_next_power_of_two w x = Ok (next_power_of_two x).
Proof.
  intros Hw Hx. unfold checked_next_power_of_two. rewrite (proj2 (Z.leb_le _ _)); [done|].
  pose proof (next_power_of_two_le x (w - 1) ltac:(lia) Hx).
  assert (E : 2 ^ w = 2 * 2 ^ (w - 1)) by (rewrite <- Z.pow_succ_r by lia; f_equal; lia).
  pose proof (Z.pow_pos_nonneg 2 (w - 1)). lia.
Qed.

Lemma checked_mul_ok w x y : x * y <= 2 ^ w - 1 -> checked_mul w x y = Ok (x * y).
Proof. intros H. unfold checked_mul. by rewrite (proj2 (Z.leb_le _ _) H). Qed.

Lemma land_ones_range a k : 0 <= k -> 0 <= Z.land a (2 ^ k - 1) < 2 ^ k.
Proof.
  intros Hk. replace (2 ^ k - 1) with (Z.ones k) by (rewrite Z.ones_equiv; lia).
  rewrite Z.land_ones by done. apply Z.mod_pos_bound, Z.pow_pos_nonneg; lia.
Qed.

Lemma land_below_pow2 a b k : 0 <= k -> 0 <= b < 2 ^ k -> 0 <= Z.land a b < 2 ^ k.
Proof.
  intros Hk Hb.
  assert (E : Z.land a b = Z.land a b mod 2 ^ k).
  { rewrite <- Z.land_ones, <- Z.land_assoc by done. f_equal.
    rewrite Z.land_ones by done. symmetry. by apply Z.mod_small. }
  rewrite E. apply Z.mod_pos_bound, Z.pow_pos_nonneg; lia.
Qed.

(** ** Lists *)
Lemma filter_keeps {A} (P : A -> Prop) `{forall x, Decision (P x)} (l : list A) :
  (forall x, x ∈ l -> P x) -> filter P l = l.
Proof.
  induction l as [|x l IH]; intros Hl; [done|].
  rewrite filter_cons, decide_True by (apply Hl; left). f_equal. apply IH.
  intros y Hy. apply Hl. by right.
Qed.

(** Reading a list after an update. *)
Lemma insert_cases {A} (l : list A) i j x y : <[i := x]> l !! j = Some y -> j = i /\ y = x \/ j <> i /\ l !! j = Some y.
Proof.
  destruct (decide (i = j)) as [<-|Hne].
  - intros Hj. left. pose proof (lookup_lt_Some _ _ _ Hj) as Hlt. rewrite length_insert in Hlt.
    rewrite list_lookup_insert_eq in Hj by done. by injection Hj.
  - rewrite list_lookup_insert_ne by done. auto.
Qed.

Lemma omap_nodup {A B} (f : A -> option B) (l : list A) :
  (forall i j x y b, l !! i = Some x -> l !! j = Some y -> f x = Some b -> f y = Some b -> i = j) -> NoDup (omap f l).
Proof.
  induction l as [|x l IH]; intros Hu; [constructor|]. cbn.
  assert (IH' : NoDup (omap f l)).
  { apply IH. intros i j y z b Hi Hj Hy Hz. by injection (Hu (S i) (S j) y z b Hi Hj Hy Hz). }
  destruct (f x) as [b|] eqn:Hx; [|done]. constructor; [|done].
  intros (y & [j Hj]%list_elem_of_lookup & Hy)%list_elem_of_omap. by specialize (Hu O (S j) x y b eq_refl Hj Hx Hy).
Qed.

Lemma sum_insert {A} (f : A -> nat) (l : list A) i x y : l !! i = Some x ->
  (sum_list_with f (<[i := y]> l) + f x = sum_list_with f l + f y)%nat.
Proof.
  revert i. induction l as [|z l IH]; intros [|i] Hi; [done|done|injection Hi as ->; cbn; lia|]. specialize (IH i Hi).
  change (<[S i := y]> (z :: l)) with (z :: <[i := y]> l). cbn [sum_list_with]. lia.
Qed.
Lemma sum_le {A} (f g : A -> nat) (l : list A) c : (forall x, f x <= g x + c)%nat -> (sum_list_with f l <= sum_list_with g l + c * length l)%nat.
Proof. intros Hfg. induction l as [|x l IH]; cbn; [lia|]. specialize (Hfg x). lia. Qed.
