(* ===== verification/Common.v ===== *)
(** Types and constants the components share: the cache regions and the
    housekeeper configuration of src/common.rs, the channel sizes and batch
    limits of src/common/concurrent/constants.rs, and the checks of
    src/common/builder_utils.rs. *)
From S2P Require Import Prelude.

Inductive CacheRegion := Window | MainProbation | MainProtected | Other.

#[export] Instance region_eq_dec : EqDecision CacheRegion.
Proof. solve_decision. Defined.

(** [region as usize], the tag of an access-order queue node. *)
Definition region_tag (r : CacheRegion) : Z :=
  match r with Window => 0 | MainProbation => 1 | MainProtected => 2 | Other => 3 end.

(** [impl From<usize> for CacheRegion] *)
Definition region_from_usize (n : Z) : res CacheRegion :=
  if n =? 0 then Ok Window
  else if n =? 1 then Ok MainProbation
  else if n =? 2 then Ok MainProtected
  else if n =? 3 then Ok Other
  else Fail Unreachable.

Definition DEFAULT_MAX_LOG_SYNC_REPEATS : Z := 4.
Definition LOG_SYNC_INTERVAL_MILLIS : Z := 300.
Definition READ_LOG_FLUSH_POINT : Z := 64.
Definition WRITE_LOG_FLUSH_POINT : Z := 64.
Definition READ_LOG_CH_SIZE : Z := READ_LOG_FLUSH_POINT * (DEFAULT_MAX_LOG_SYNC_REPEATS + 2).
Definition WRITE_LOG_CH_SIZE : Z := WRITE_LOG_FLUSH_POINT * (DEFAULT_MAX_LOG_SYNC_REPEATS + 2).
Definition DEFAULT_EVICTION_BATCH_SIZE : Z := WRITE_LOG_CH_SIZE.
Definition DEFAULT_MAINTENANCE_TASK_TIMEOUT_MILLIS : Z := 100.

(** A [std::time::Duration], in nanoseconds. *)
Definition Duration := Z.
Definition from_millis (ms : Z) : Duration := ms * 1000000.
Definition from_secs (s : Z) : Duration := s * 1000000000.

Record HousekeeperConfig := mkHousekeeperConfig {
  cfg_maintenance_task_timeout : Duration;
  cfg_max_log_sync_repeats : Z;
  cfg_eviction_batch_size : Z
}.

(** [impl Default for HousekeeperConfig] *)
Definition default_housekeeper_config : HousekeeperConfig :=
  mkHousekeeperConfig (from_millis DEFAULT_MAINTENANCE_TASK_TIMEOUT_MILLIS)
    DEFAULT_MAX_LOG_SYNC_REPEATS DEFAULT_EVICTION_BATCH_SIZE.

Definition YEAR_SECONDS : Z := 365 * 24 * 3600.

Definition ensure_expirations_or_panic (time_to_live time_to_idle : option Duration) : res unit :=
  let max_duration := from_secs (1000 * YEAR_SECONDS) in
  match time_to_live with
  | Some d => assert_that (d <=? max_duration)
  | None => Ok tt
  end ≫= fun _ =>
  match time_to_idle with
  | Some d => assert_that (d <=? max_duration)
  | None => Ok tt
  end.

(** The tag of a region survives the two bits of the tagged pointer. *)
Lemma region_roundtrip r : region_from_usize (region_tag r) = Ok r /\ 0 <= region_tag r < 4.
Proof. destruct r; cbn; split; (done || lia). Qed.
