(* ===== verification/FrequencySketch.v ===== *)
(** Frequency sketch (src/common/frequency_sketch.rs and [sketch_capacity] of
    src/common.rs): the 4-bit count-min sketch with aging that estimates how
    often a key was used.  The model keeps the packed representation: a table of
    64-bit words with sixteen 4-bit counters each, updated with the source's
    masks and shifts.  The theorems relate it to the counters as numbers: what
    [increment] and [reset] do to every estimate, that the estimate never falls
    below the (aged, saturating) number of occurrences, and when the plain [u32]
    subtraction of [reset] can underflow.

    The plain operators take the build's overflow checks as an argument
    ([checks], the [overflow-checks] profile setting of the compiler): with them an
    overflow is a fault, without them the result wraps around. *)
From S2P Require Import Prelude.

Record FrequencySketch := mkSketch {
  sample_size : Z;
  table_mask : Z;
  table : list Z;
  fs_size : Z
}.

(** [#[derive(Default)]] *)
Definition default_sketch : FrequencySketch := mkSketch 0 0 [] 0.

Definition SEED : list Z :=
  [0xc3a5c85c97cb3127; 0xb492b66fbe98f273; 0x9ae16a3b2f90404f; 0xcbf29ce484222325].
Definition RESET_MASK : Z := 0x7777777777777777.
Definition ONE_MASK : Z := 0x1111111111111111.

(** The capacity the cache asks the sketch for: within [128 ..= u32::MAX]. *)
Definition sketch_capacity (max_capacity : Z) : Z :=
  Z.max (if max_capacity <=? U32_MAX then max_capacity else U32_MAX) 128.

(** On a target with 64-bit pointers. *)
Definition ensure_capacity (s : FrequencySketch) (cap : Z) : FrequencySketch :=
  let maximum := Z.min cap (2 ^ 30) in
  let table_size := if maximum =? 0 then 1 else next_power_of_two maximum in
  if table_size <=? Z.of_nat (length (table s)) then s
  else mkSketch
         (if cap =? 0 then 10 else Z.min (saturating_mul 32 maximum 10) I32_MAX)
         (saturating_sub table_size 1)
         (replicate (Z.to_nat table_size) 0)
         (fs_size s).

Definition index_of (s : FrequencySketch) (hash : Z) (depth : nat) : res nat :=
  sd ← expect_some OutOfBounds (SEED !! depth);
  let h := wrapping_mul 64 (wrapping_add 64 hash sd) sd in
  let h := wrapping_add 64 h (Z.shiftr h 32) in
  Ok (Z.to_nat (Z.land h (table_mask s))).

(** [let start = ((hash & 3) << 2) as u8]: the first of the four counters. *)
Definition counter_start (hash : Z) : Z := Z.shiftl (Z.land hash 3) 2.

Definition frequency (s : FrequencySketch) (hash : Z) : res Z :=
  match table s with
  | [] => Ok 0
  | _ =>
    foldM (fun freq i =>
      index ← index_of s hash i;
      let shift := Z.shiftl (counter_start hash + Z.of_nat i) 2 in
      w ← expect_some OutOfBounds (table s !! index);
      Ok (Z.min freq (Z.land (Z.shiftr w shift) 0xF))) U8_MAX [0%nat; 1%nat; 2%nat; 3%nat]
  end.

Definition increment_at (checks : bool) (s : FrequencySketch) (table_index : nat) (counter_index : Z)
    : res (bool * FrequencySketch) :=
  let offset := Z.shiftl counter_index 2 in
  let mask := Z.shiftl 0xF offset in
  w ← expect_some OutOfBounds (table s !! table_index);
  if negb (Z.land w mask =? mask) then
    w' ← plain_add checks 64 w (Z.shiftl 1 offset);
    Ok (true, mkSketch (sample_size s) (table_mask s) (<[table_index := w']> (table s)) (fs_size s))
  else Ok (false, s).

Definition reset (checks : bool) (s : FrequencySketch) : res FrequencySketch :=
  count ← foldM (fun c w => plain_add checks 32 c (count_ones (Z.land w ONE_MASK))) 0 (table s);
  sz ← plain_sub checks 32 (Z.shiftr (fs_size s) 1) (Z.shiftr count 2);
  Ok (mkSketch (sample_size s) (table_mask s)
        (map (fun w => Z.land (Z.shiftr w 1) RESET_MASK) (table s)) sz).

(** The loop of [increment] over the four depths: whether a counter moved. *)
Definition increment_counters (checks : bool) (s : FrequencySketch) (hash : Z) : res (bool * FrequencySketch) :=
  foldM (fun '(added, s) i =>
    index ← index_of s hash i;
    '(b, s') ← increment_at checks s index (counter_start hash + Z.of_nat i);
    Ok (orb added b, s')) (false, s) [0%nat; 1%nat; 2%nat; 3%nat].

Definition increment (checks : bool) (s : FrequencySketch) (hash : Z) : res FrequencySketch :=
  match table s with
  | [] => Ok s
  | _ =>
    '(added, s') ← increment_counters checks s hash;
    if (added : bool) then
      sz ← plain_add checks 32 (fs_size s') 1;
      let s'' := mkSketch (sample_size s') (table_mask s') (table s') sz in
      if sample_size s'' <=? fs_size s'' then reset checks s'' else Ok s''
    else Ok s'
  end.

(** ** Specification: the counters as numbers *)

(** Counter [j] (of sixteen) of a table word. *)
Definition counter (w j : Z) : Z := Z.land (Z.shiftr w (4 * j)) 15.

(** The table slot of a hash at one depth, as a function. *)
Definition slot (s : FrequencySketch) (hash : Z) (i : nat) : nat :=
  let sd := nth i SEED 0 in
  let h := wrapping_mul 64 (wrapping_add 64 hash sd) sd in
  Z.to_nat (Z.land (wrapping_add 64 h (Z.shiftr h 32)) (table_mask s)).

(** The counter a hash uses at depth [i]. *)
Definition cnt (s : FrequencySketch) (hash : Z) (i : nat) : Z :=
  counter (nth (slot s hash i) (table s) 0) (counter_start hash + Z.of_nat i).

(** The estimate: the least of the four counters. *)
Definition estimate (s : FrequencySketch) (hash : Z) : Z :=
  if decide (table s = []) then 0
  else Z.min (Z.min (cnt s hash 0) (cnt s hash 1)) (Z.min (cnt s hash 2) (cnt s hash 3)).

(** Type invariant: no table yet, or a power-of-two table of [u64] words, and a
    [u32] running size. *)
Record sketch_shape (s : FrequencySketch) : Prop := {
  sh_table : table s = [] \/
    exists k, 0 <= k <= 30 /\ length (table s) = Z.to_nat (2 ^ k) /\ table_mask s = 2 ^ k - 1;
  sh_words : Forall (fun w => 0 <= w < 2 ^ 64) (table s);
  sh_size : 0 <= fs_size s <= U32_MAX
}.

(** The invariant while no subtraction of [reset] wraps: the running size is also
    below the sample size. *)
Record sketch_wf (s : FrequencySketch) : Prop := {
  wf_table : table s = [] \/
    exists k, 0 <= k <= 30 /\ length (table s) = Z.to_nat (2 ^ k) /\ table_mask s = 2 ^ k - 1;
  wf_words : Forall (fun w => 0 <= w < 2 ^ 64) (table s);
  wf_size : 0 <= fs_size s <= I32_MAX;
  wf_empty : table s = [] -> fs_size s = 0;
  wf_sample : table s <> [] ->
    10 <= sample_size s <= Z.min I32_MAX (10 * Z.of_nat (length (table s)));
  wf_below : table s <> [] -> fs_size s < sample_size s
}.

(** A table for which [reset] cannot underflow (see [increment_ok]). *)
Definition reset_safe (s : FrequencySketch) : Prop :=
  table s = [] \/
  (8 * Z.of_nat (length (table s)) <= sample_size s /\ Z.of_nat (length (table s)) <= 2 ^ 27).

(** What a build keeps: the shape, and with overflow checks also what keeps the
    plain operators from faulting. *)
Definition sketch_ok (checks : bool) (s : FrequencySketch) : Prop :=
  sketch_shape s /\ (checks = true -> sketch_wf s /\ reset_safe s).

(** An execution with the exact, saturating and aged occurrence counts beside
    it: [f x] counts [x] up to 15, and is halved when the sketch resets. *)
Fixpoint run_ideal (checks : bool) (s : FrequencySketch) (f : Z -> Z) (hs : list Z)
    : res (FrequencySketch * (Z -> Z)) :=
  match hs with
  | [] => Ok (s, f)
  | h :: hs' =>
    s' ← increment checks s h;
    '(added, s1) ← increment_counters checks s h;
    let f1 := fun x => if decide (x = h) then Z.min 15 (f x + 1) else f x in
    let aged := (added : bool) && (sample_size s1 <=? wrapping_add 32 (fs_size s1) 1) in
    run_ideal checks s' (if aged then (fun x => f1 x / 2) else f1) hs'
  end.

Fixpoint run (checks : bool) (s : FrequencySketch) (hs : list Z) : res FrequencySketch :=
  match hs with
  | [] => Ok s
  | h :: hs' => s' ← increment checks s h; run checks s' hs'
  end.

(** ** Counters inside a word *)

Lemma counter_divmod w j : 0 <= j -> counter w j = (w / 2 ^ (4 * j)) mod 16.
Proof.
  intros Hj. unfold counter. rewrite Z.shiftr_div_pow2 by lia.
  change 15 with (Z.ones 4). by rewrite Z.land_ones by lia.
Qed.

Lemma counter_range w j : 0 <= j -> 0 <= counter w j < 16.
Proof. intros Hj. rewrite counter_divmod by done. apply Z.mod_pos_bound; lia. Qed.

(** The guard of [increment_at] tests the counter for 15. *)
Lemma mask_full w j :
  0 <= j -> (Z.land w (Z.shiftl 15 (4 * j)) =? Z.shiftl 15 (4 * j)) = (counter w j =? 15).
Proof.
  intros Hj.
  assert (E : Z.land w (Z.shiftl 15 (4 * j)) = Z.shiftl (counter w j) (4 * j)).
  { unfold counter. apply Z.bits_inj'. intros n Hn.
    rewrite Z.land_spec, !Z.shiftl_spec by done.
    destruct (Z.le_gt_cases (4 * j) n).
    - rewrite Z.land_spec, Z.shiftr_spec by lia. do 2 f_equal. lia.
    - rewrite !(Z.testbit_neg_r _ (n - 4 * j)) by lia. by rewrite andb_false_r. }
  rewrite E. apply eq_true_iff_eq. rewrite !Z.eqb_eq, !Z.shiftl_mul_pow2 by lia.
  pose proof (Z.pow_pos_nonneg 2 (4 * j)). nia.
Qed.

Lemma pow2_split a b : 0 <= a -> 0 <= b -> 2 ^ (4 * (a + b)) = 2 ^ (4 * a) * 2 ^ (4 * b).
Proof. intros. rewrite <- Z.pow_add_r by lia. f_equal. lia. Qed.

Lemma counter_add_same w j :
  0 <= j -> counter w j <> 15 -> counter (w + 2 ^ (4 * j)) j = counter w j + 1.
Proof.
  intros Hj. pose proof (Z.pow_pos_nonneg 2 (4 * j)).
  rewrite !counter_divmod by done. intros Hc.
  replace (w + 2 ^ (4 * j)) with (w + 1 * 2 ^ (4 * j)) by lia.
  rewrite Z.div_add by lia.
  pose proof (Z.mod_pos_bound (w / 2 ^ (4 * j)) 16).
  rewrite <- Z.add_mod_idemp_l by lia. apply Z.mod_small. lia.
Qed.

Lemma counter_add_below w j i :
  0 <= i < j -> counter (w + 2 ^ (4 * j)) i = counter w i.
Proof.
  intros Hi. rewrite !counter_divmod by lia.
  replace j with (i + (1 + (j - i - 1))) by lia.
  rewrite (pow2_split i) by lia. rewrite (pow2_split 1) by lia.
  change (2 ^ (4 * 1)) with 16. pose proof (Z.pow_pos_nonneg 2 (4 * i)).
  rewrite (Z.mul_comm (2 ^ (4 * i))), Z.div_add by lia.
  rewrite (Z.mul_comm 16), Z.mod_add by lia. done.
Qed.

Lemma counter_add_above w j i :
  0 <= j < i -> counter w j <> 15 -> counter (w + 2 ^ (4 * j)) i = counter w i.
Proof.
  intros Hi Hc. rewrite counter_divmod in Hc by lia. rewrite !counter_divmod by lia.
  pose proof (Z.pow_pos_nonneg 2 (4 * j)).
  replace i with (j + (1 + (i - j - 1))) by lia.
  rewrite (pow2_split j) by lia. rewrite (pow2_split 1) by lia. change (2 ^ (4 * 1)) with 16.
  assert (0 < 2 ^ (4 * (i - j - 1))) by (apply Z.pow_pos_nonneg; lia).
  rewrite !Z.mul_assoc, <- !(Z.div_div _ (2 ^ (4 * j) * 16)) by lia.
  rewrite <- !(Z.div_div _ (2 ^ (4 * j))) by lia.
  do 2 f_equal.
  replace (w + 2 ^ (4 * j)) with (w + 1 * 2 ^ (4 * j)) by lia. rewrite Z.div_add by lia.
  set (q := w / 2 ^ (4 * j)) in *. pose proof (Z.mod_pos_bound q 16).
  rewrite (Z.div_mod q 16) at 1 by lia.
  replace (16 * (q / 16) + q mod 16 + 1) with (q mod 16 + 1 + (q / 16) * 16) by lia.
  rewrite Z.div_add by lia. rewrite Z.div_small by lia. lia.
Qed.

Lemma counter_add_other w j i :
  0 <= j -> 0 <= i -> i <> j -> counter w j <> 15 -> counter (w + 2 ^ (4 * j)) i = counter w i.
Proof.
  intros. destruct (Z.lt_trichotomy i j) as [?|[?|?]]; [|lia|].
  - apply counter_add_below; lia.
  - apply counter_add_above; lia.
Qed.

(** The sum does not carry out of the word. *)
Lemma counter_add_bound w j :
  0 <= j < 16 -> 0 <= w < 2 ^ 64 -> counter w j <> 15 -> w + 2 ^ (4 * j) <= 2 ^ 64 - 1.
Proof.
  intros Hj Hw Hc. rewrite counter_divmod in Hc by lia.
  pose proof (Z.pow_pos_nonneg 2 (4 * j)).
  set (P := 2 ^ (4 * j)) in *.
  assert (E : 2 ^ 64 = P * (16 * 2 ^ (4 * (15 - j)))).
  { unfold P. change 16 with (2 ^ (4 * 1)). rewrite <- !pow2_split by lia. f_equal. lia. }
  set (R := 2 ^ (4 * (15 - j))) in *.
  assert (0 < R) by (apply Z.pow_pos_nonneg; lia).
  assert (w / P < 16 * R) by (apply Z.div_lt_upper_bound; lia).
  assert (w / P <> 16 * R - 1).
  { intros Hq. apply Hc. rewrite Hq.
    replace (16 * R - 1) with (15 + (R - 1) * 16) by lia. by rewrite Z.mod_add. }
  pose proof (Z.mul_succ_div_gt w P). nia.
Qed.

(** Aging: the shift and the mask halve each counter and leave no bit behind. *)
Lemma reset_mask_bits j b :
  0 <= j < 16 -> 0 <= b < 4 -> Z.testbit RESET_MASK (4 * j + b) = (b <? 3).
Proof.
  intros Hj Hb.
  assert (H : forallb (fun j => forallb (fun b =>
      eqb (Z.testbit RESET_MASK (4 * Z.of_nat j + Z.of_nat b)) (Z.of_nat b <? 3))
      (seq 0 4)) (seq 0 16) = true) by (vm_compute; reflexivity).
  rewrite forallb_forall in H. specialize (H (Z.to_nat j)).
  rewrite forallb_forall in H. specialize (H ltac:(apply in_seq; lia) (Z.to_nat b)).
  rewrite !Z2Nat.id in H by lia. apply eqb_prop, H, in_seq; lia.
Qed.

Lemma counter_reset w j :
  0 <= j < 16 -> counter (Z.land (Z.shiftr w 1) RESET_MASK) j = counter w j / 2.
Proof.
  intros Hj. change (counter w j / 2) with (counter w j / 2 ^ 1).
  rewrite <- Z.shiftr_div_pow2 by lia. unfold counter.
  apply Z.bits_inj'. intros b Hb.
  rewrite Z.shiftr_spec, !Z.land_spec, !Z.shiftr_spec, Z.land_spec, !Z.shiftr_spec by lia.
  change 15 with (Z.ones 4).
  destruct (Z.lt_ge_cases b 4).
  - rewrite (Z.add_comm b), reset_mask_bits by lia.
    rewrite !Z.testbit_ones by lia.
    replace (4 * j + b + 1) with (b + 1 + 4 * j) by lia.
    destruct (Z.ltb_spec b 3), (Z.ltb_spec b 4), (Z.ltb_spec (b + 1) 4),
      (Z.leb_spec 0 b), (Z.leb_spec 0 (b + 1)); try lia; by rewrite ?andb_true_r, ?andb_false_r.
  - rewrite !Z.testbit_ones by lia.
    destruct (Z.ltb_spec b 4), (Z.ltb_spec (b + 1) 4); try lia; by rewrite !andb_false_r.
Qed.

Lemma reset_word_range w : 0 <= Z.land (Z.shiftr w 1) RESET_MASK < 2 ^ 64.
Proof. by apply land_below_pow2. Qed.

(** ** Counters inside the table *)

(** What [increment_at] does to a word and to the table. *)
Definition bump (w c : Z) : Z := if counter w c =? 15 then w else w + 2 ^ (4 * c).
Definition bump_table (t : list Z) (i : nat) (c : Z) : list Z := alter (fun w => bump w c) i t.
Definition cell (t : list Z) (i : nat) (c : Z) : Z := counter (nth i t 0) c.

Lemma counter_start_range h : 0 <= counter_start h <= 12.
Proof.
  unfold counter_start. rewrite Z.shiftl_mul_pow2 by lia.
  pose proof (land_ones_range h 2). change (2 ^ 2 - 1) with 3 in *. lia.
Qed.

Lemma cell_range t i c : 0 <= c -> 0 <= cell t i c < 16.
Proof. apply counter_range. Qed.

Lemma nth_bump_table t i i' c :
  (i < length t)%nat ->
  nth i' (bump_table t i c) 0 = if decide (i = i') then bump (nth i t 0) c else nth i' t 0.
Proof.
  intros Hi. unfold bump_table. rewrite !nth_lookup.
  case_decide as E.
  - subst i'. rewrite list_lookup_alter_eq.
    destruct (lookup_lt_is_Some_2 t i Hi) as [w Hw]. by rewrite Hw.
  - by rewrite list_lookup_alter_ne.
Qed.

Lemma cell_bump t i c i' c' :
  (i < length t)%nat -> 0 <= c -> 0 <= c' ->
  cell (bump_table t i c) i' c' =
    if decide (i = i' /\ c = c') then Z.min 15 (cell t i c + 1) else cell t i' c'.
Proof.
  intros Hi Hc Hc'. unfold cell. rewrite nth_bump_table by done.
  pose proof (counter_range (nth i t 0) c Hc).
  destruct (decide (i = i')) as [->|Hne].
  - unfold bump. destruct (Z.eqb_spec (counter (nth i' t 0) c) 15) as [E|E].
    + case_decide as D; [destruct D as [_ ->]; lia|done].
    + case_decide as D; [destruct D as [_ ->]; rewrite counter_add_same by done; lia|].
      apply counter_add_other; naive_solver.
  - case_decide; [naive_solver|done].
Qed.

Lemma bump_range w c : 0 <= c < 16 -> 0 <= w < 2 ^ 64 -> 0 <= bump w c < 2 ^ 64.
Proof.
  intros Hc Hw. unfold bump. destruct (Z.eqb_spec (counter w c) 15); [done|].
  pose proof (counter_add_bound w c). pose proof (Z.pow_pos_nonneg 2 (4 * c)). lia.
Qed.

Lemma bump_table_words t i c :
  0 <= c < 16 -> Forall (fun w => 0 <= w < 2 ^ 64) t ->
  Forall (fun w => 0 <= w < 2 ^ 64) (bump_table t i c).
Proof.
  intros Hc Ht. apply Forall_lookup. intros j w. unfold bump_table.
  rewrite Forall_lookup in Ht. destruct (decide (i = j)) as [->|].
  - rewrite list_lookup_alter_eq. intros (w0 & Hw & ->)%fmap_Some.
    apply bump_range; eauto.
  - rewrite list_lookup_alter_ne by done. apply Ht.
Qed.

(** The table after the increments of the depths [ds] of a hash. *)
Definition bumps (s : FrequencySketch) (h : Z) (ds : list nat) (t : list Z) : list Z :=
  foldl (fun t i => bump_table t (slot s h i) (counter_start h + Z.of_nat i)) t ds.

(** Whether a counter is one of those of a hash. *)
Definition touches (s : FrequencySketch) (h : Z) (ds : list nat) (i : nat) (c : Z) : bool :=
  existsb (fun d => bool_decide (slot s h d = i /\ counter_start h + Z.of_nat d = c)) ds.

(** The four depths. *)
Definition depths : list nat := [0%nat; 1%nat; 2%nat; 3%nat].

Lemma length_bumps s h ds t : length (bumps s h ds t) = length t.
Proof.
  revert t; induction ds as [|d ds IH]; intros t; [done|].
  etransitivity; [apply IH|]. apply length_alter.
Qed.

Lemma wf_shape s : sketch_wf s -> sketch_shape s.
Proof. intros Hwf. pose proof (wf_size s Hwf). split; [apply Hwf|apply Hwf|]. unfold I32_MAX, U32_MAX in *. lia. Qed.

Lemma slot_lt s h i : sketch_shape s -> table s <> [] -> (slot s h i < length (table s))%nat.
Proof.
  intros Hwf Hne. destruct (sh_table s Hwf) as [?|(k & Hk & Hlen & Hm)]; [done|].
  unfold slot. rewrite Hlen, Hm. cbv zeta.
  match goal with |- context [Z.land ?a _] => pose proof (land_ones_range a k) end. lia.
Qed.

Lemma index_of_slot s h i : (i < 4)%nat -> index_of s h i = Ok (slot s h i).
Proof. intros Hi. do 4 (destruct i as [|i]; [reflexivity|]). lia. Qed.

(** A counter moves exactly when it is one of those of the hash, and then by
    one, up to 15. *)
Lemma cell_bumps s h ds t i c :
  (forall d, (slot s h d < length t)%nat) -> NoDup ds -> 0 <= c ->
  cell (bumps s h ds t) i c =
    if touches s h ds i c then Z.min 15 (cell t i c + 1) else cell t i c.
Proof.
  intros Hs Hnd Hc. pose proof (counter_start_range h) as Hst.
  revert t Hs; induction Hnd as [|d ds Hd Hnd IH]; intros t Hs; [done|].
  change (bumps s h (d :: ds) t) with
    (bumps s h ds (bump_table t (slot s h d) (counter_start h + Z.of_nat d))).
  change (touches s h (d :: ds) i c) with
    (bool_decide (slot s h d = i /\ counter_start h + Z.of_nat d = c) || touches s h ds i c).
  rewrite IH by (intros; unfold bump_table; by rewrite length_alter).
  rewrite cell_bump by (done || lia).
  destruct (decide (slot s h d = i /\ _)) as [[<- <-]|D].
  - rewrite bool_decide_true by done. cbn.
    destruct (touches s h ds _ _) eqn:E; [|done].
    apply existsb_exists in E as (d' & Hin & E). apply bool_decide_eq_true in E.
    assert (d' = d) as -> by lia. by apply list_elem_of_In in Hin.
  - by rewrite bool_decide_false.
Qed.

(** ** The operations on the counters *)

Definition with_table (s : FrequencySketch) (t : list Z) : FrequencySketch :=
  mkSketch (sample_size s) (table_mask s) t (fs_size s).

Lemma bump_full t i c :
  cell t i c = 15 -> bump_table t i c = t.
Proof.
  intros Hc. apply list_eq. intros j. unfold bump_table. destruct (decide (i = j)) as [->|].
  - rewrite list_lookup_alter_eq. unfold cell in Hc. rewrite nth_lookup in Hc.
    destruct (t !! j) as [w|]; [|done]. cbn in *. unfold bump. by rewrite Hc.
  - by rewrite list_lookup_alter_ne.
Qed.

Lemma increment_at_spec checks s i c :
  (i < length (table s))%nat -> 0 <= c < 16 -> Forall (fun w => 0 <= w < 2 ^ 64) (table s) ->
  increment_at checks s i c =
    Ok (negb (cell (table s) i c =? 15), with_table s (bump_table (table s) i c)).
Proof.
  intros Hi Hc Hw. unfold increment_at, cell.
  destruct (lookup_lt_is_Some_2 _ _ Hi) as [w Hl]. rewrite Hl. cbn.
  rewrite nth_lookup, Hl. cbn. rewrite (Z.shiftl_mul_pow2 c) by lia.
  change (2 ^ 2) with 4. rewrite (Z.mul_comm c), mask_full, (Z.shiftl_mul_pow2 1) by lia.
  destruct (Z.eqb_spec (counter w c) 15) as [E|E]; cbn.
  - rewrite bump_full; [by destruct s|]. unfold cell. rewrite nth_lookup, Hl. done.
  - rewrite Z.mul_1_l. rewrite plain_add_ok.
    + cbn. unfold with_table, bump_table. do 3 f_equal.
      apply list_eq. intros j. destruct (decide (i = j)) as [->|].
      * rewrite list_lookup_insert_eq, list_lookup_alter_eq, Hl by done. cbn.
        unfold bump. by rewrite (proj2 (Z.eqb_neq _ _) E).
      * by rewrite list_lookup_insert_ne, list_lookup_alter_ne.
    + rewrite Forall_lookup in Hw. specialize (Hw _ _ Hl). pose proof (counter_add_bound w c Hc Hw E).
      pose proof (Z.pow_pos_nonneg 2 (4 * c)). lia.
Qed.

(** The loop over the depths performs the increments of [bumps]. *)
Lemma increment_loop checks s h ds a t :
  sketch_shape s -> table s <> [] -> length t = length (table s) ->
  Forall (fun w => 0 <= w < 2 ^ 64) t -> Forall (fun d => (d < 4)%nat) ds ->
  exists b,
    foldM (fun '(added, s) i =>
      index ← index_of s h i;
      '(b, s') ← increment_at checks s index (counter_start h + Z.of_nat i);
      Ok (orb added b, s')) (a, with_table s t) ds
    = Ok (b, with_table s (bumps s h ds t)) /\
    (b = false -> a = false /\ bumps s h ds t = t).
Proof.
  intros Hwf Hne. pose proof (counter_start_range h).
  revert a t; induction ds as [|d ds IH]; intros a t Hlen Hw Hds; [exists a; cbn; auto|].
  apply Forall_cons in Hds as [Hd Hds].
  cbn [foldM]. rewrite index_of_slot by done. cbn [mbind res_bind].
  change (slot (with_table s t) h d) with (slot s h d).
  rewrite increment_at_spec; [|cbn; rewrite Hlen; by apply slot_lt|lia|done].
  cbn [mbind res_bind table with_table].
  edestruct (IH (orb a (negb (cell t (slot s h d) (counter_start h + Z.of_nat d) =? 15))))
    as (b & Heq & Hb); [| |done|].
  3:{ exists b. split; [exact Heq|]. intros Hf. destruct (Hb Hf) as [Ha Hbs].
      apply orb_false_elim in Ha as [-> Hc]. apply negb_false_iff, Z.eqb_eq in Hc.
      split; [done|]. etransitivity; [exact Hbs|]. by apply bump_full. }
  - unfold bump_table. by rewrite length_alter.
  - apply bump_table_words; [lia|done].
Qed.

Lemma increment_counters_spec checks s h :
  sketch_shape s -> table s <> [] ->
  exists b, increment_counters checks s h = Ok (b, with_table s (bumps s h depths (table s))) /\
    (b = false -> bumps s h depths (table s) = table s).
Proof.
  intros Hwf Hne.
  destruct (increment_loop checks s h depths false (table s)) as (b & Heq & Hb);
    [done|done|done|apply Hwf|repeat constructor|].
  exists b. split; [|naive_solver]. rewrite <- Heq. by destruct s.
Qed.

(** ** Estimates *)

Lemma estimate_cells s h :
  table s <> [] ->
  estimate s h =
    Z.min (Z.min (cell (table s) (slot s h 0) (counter_start h + Z.of_nat 0))
                 (cell (table s) (slot s h 1) (counter_start h + Z.of_nat 1)))
          (Z.min (cell (table s) (slot s h 2) (counter_start h + Z.of_nat 2))
                 (cell (table s) (slot s h 3) (counter_start h + Z.of_nat 3))).
Proof. intros Hne. unfold estimate. by rewrite decide_False. Qed.

Lemma estimate_range s h : 0 <= estimate s h <= 15.
Proof.
  unfold estimate, cnt. case_decide; [lia|]. pose proof (counter_start_range h).
  repeat match goal with |- context [counter ?w ?j] =>
    let H := fresh in pose proof (counter_range w j ltac:(lia)) as H; revert H;
    generalize (counter w j); intros ? H end. lia.
Qed.

Lemma bumps_nonempty s h ds t : t <> [] -> bumps s h ds t <> [].
Proof. rewrite <- !length_zero_iff_nil. by rewrite length_bumps. Qed.

Lemma estimate_bumps s h x :
  sketch_shape s -> table s <> [] ->
  let s1 := with_table s (bumps s h depths (table s)) in
  estimate s x <= estimate s1 x <= Z.min 15 (estimate s x + 1) /\
  (x = h -> estimate s1 x = Z.min 15 (estimate s x + 1)).
Proof.
  intros Hwf Hne s1. pose proof (counter_start_range x). pose proof (counter_start_range h).
  rewrite !estimate_cells by (done || by apply bumps_nonempty). cbn [table s1 with_table].
  change (slot s1 x) with (slot s x).
  rewrite !cell_bumps by (try (intros; by apply slot_lt); try lia; repeat constructor; set_solver).
  pose proof (fun i c H => cell_range (table s) i c H) as Hr.
  pose proof (Hr (slot s x 0) (counter_start x + Z.of_nat 0) ltac:(lia)).
  pose proof (Hr (slot s x 1) (counter_start x + Z.of_nat 1) ltac:(lia)).
  pose proof (Hr (slot s x 2) (counter_start x + Z.of_nat 2) ltac:(lia)).
  pose proof (Hr (slot s x 3) (counter_start x + Z.of_nat 3) ltac:(lia)).
  split; [repeat case_match; lia|].
  intros ->.
  assert (Ht : forall d, (d < 4)%nat ->
    touches s h depths (slot s h d) (counter_start h + Z.of_nat d) = true).
  { intros d Hd. apply existsb_exists. exists d. split; [|by apply bool_decide_eq_true].
    do 4 (destruct d as [|d]; [cbn; tauto|]). lia. }
  pose proof (Ht 0%nat ltac:(lia)) as T0. pose proof (Ht 1%nat ltac:(lia)) as T1.
  pose proof (Ht 2%nat ltac:(lia)) as T2. pose proof (Ht 3%nat ltac:(lia)) as T3.
  rewrite T0, T1, T2, T3. lia.
Qed.

(** The table after [reset]. *)
Definition aged_table (t : list Z) : list Z := map (fun w => Z.land (Z.shiftr w 1) RESET_MASK) t.

Lemma cell_aged t i c : 0 <= c < 16 -> cell (aged_table t) i c = cell t i c / 2.
Proof.
  intros Hc. unfold cell, aged_table.
  rewrite (map_nth (fun w => Z.land (Z.shiftr w 1) RESET_MASK) t 0 i : nth i (map _ t) 0 = _).
  by apply counter_reset.
Qed.

Lemma min_half a b : Z.min a b / 2 = Z.min (a / 2) (b / 2).
Proof.
  destruct (Z.le_ge_cases a b) as [H|H].
  - pose proof (Z.div_le_mono a b 2). rewrite !Z.min_l; lia.
  - pose proof (Z.div_le_mono b a 2). rewrite !Z.min_r; lia.
Qed.

Lemma estimate_aged s x :
  estimate (with_table s (aged_table (table s))) x = estimate s x / 2.
Proof.
  destruct (decide (table s = [])) as [E|E].
  - unfold estimate. cbn. rewrite E. done.
  - rewrite !estimate_cells; [|done|cbn; by destruct (table s)].
    cbn [table with_table]. change (slot (with_table s _) x) with (slot s x).
    pose proof (counter_start_range x). rewrite !cell_aged by lia. by rewrite !min_half.
Qed.

(** An estimate does not look at the size. *)
Lemma estimate_size s z x :
  estimate (mkSketch (sample_size s) (table_mask s) (table s) z) x = estimate s x.
Proof. done. Qed.

(** ** Resetting *)

Lemma count_ones_one_mask w :
  count_ones (Z.land w ONE_MASK) =
  foldr Z.add 0 (map (fun j => Z.b2z (Z.testbit w (4 * Z.of_nat j))) (seq 0 16)).
Proof.
  unfold count_ones. cbn [seq map foldr]. rewrite !Z.land_spec.
  repeat match goal with |- context [Z.testbit ONE_MASK ?i] =>
    let b := eval vm_compute in (Z.testbit ONE_MASK i) in
    change (Z.testbit ONE_MASK i) with b end.
  rewrite ?andb_true_r, ?andb_false_r. cbn [Z.b2z]. rewrite !Z.add_0_l. reflexivity.
Qed.

Lemma b2z_range b : 0 <= Z.b2z b <= 1.
Proof. destruct b; cbn; lia. Qed.

Lemma count_ones_one_mask_range w : 0 <= count_ones (Z.land w ONE_MASK) <= 16.
Proof.
  rewrite count_ones_one_mask.
  assert (H : forall l : list nat,
    0 <= foldr Z.add 0 (map (fun j => Z.b2z (Z.testbit w (4 * Z.of_nat j))) l)
      <= Z.of_nat (length l)).
  { induction l as [|j l IH]; cbn; [lia|].
    pose proof (b2z_range (Z.testbit w (4 * Z.of_nat j))). lia. }
  apply (H (seq 0 16)).
Qed.

(** The sum of the odd counters that [reset] computes, when it fits. *)
Lemma odd_count_ok checks t c :
  0 <= c -> c + 16 * Z.of_nat (length t) <= U32_MAX ->
  exists n, foldM (fun c w => plain_add checks 32 c (count_ones (Z.land w ONE_MASK))) c t = Ok n /\
    c <= n <= c + 16 * Z.of_nat (length t).
Proof.
  revert c; induction t as [|w t IH]; intros c Hc Hb; cbn [foldM length] in *.
  - exists c. split; [done|lia].
  - pose proof (count_ones_one_mask_range w).
    rewrite plain_add_ok by (unfold U32_MAX in *; lia). cbn [mbind res_bind].
    destruct (IH (c + count_ones (Z.land w ONE_MASK))) as (n & -> & Hn); [lia|lia|].
    exists n. split; [done|lia].
Qed.

Lemma half_le a b : a <= b -> a / 2 <= b / 2.
Proof. intros. by apply Z.div_le_mono. Qed.

(** [reset] does not underflow once [8 * length] increments were counted. *)
Lemma reset_ok checks s :
  8 * Z.of_nat (length (table s)) <= fs_size s <= U32_MAX -> Z.of_nat (length (table s)) <= 2 ^ 27 ->
  exists z, reset checks s = Ok (mkSketch (sample_size s) (table_mask s) (aged_table (table s)) z) /\
    0 <= z <= fs_size s / 2.
Proof.
  intros H8 H27. unfold reset, U32_MAX in *.
  destruct (odd_count_ok checks (table s) 0) as (n & -> & Hn); [lia|unfold U32_MAX; lia|].
  cbn [mbind res_bind]. rewrite !Z.shiftr_div_pow2 by lia. change (2 ^ 1) with 2. change (2 ^ 2) with 4.
  assert (n / 4 <= fs_size s / 2).
  { transitivity (4 * Z.of_nat (length (table s))).
    - apply Z.div_le_upper_bound; lia.
    - apply Z.div_le_lower_bound; lia. }
  pose proof (Z.div_pos n 4). pose proof (Z.div_pos (fs_size s) 2). pose proof (half_le (fs_size s) (2 ^ 32 - 1)).
  rewrite plain_sub_ok by div_lia. eexists. split; [reflexivity|]. lia.
Qed.

Lemma aged_table_words t : Forall (fun w => 0 <= w < 2 ^ 64) (aged_table t).
Proof. apply Forall_map, Forall_true. intros w. apply reset_word_range. Qed.

(** The sum is that of a [u32], when no addition faults. *)
Lemma odd_count_inv checks t : forall c n, 0 <= c <= U32_MAX ->
  foldM (fun c w => plain_add checks 32 c (count_ones (Z.land w ONE_MASK))) c t = Ok n -> 0 <= n <= U32_MAX.
Proof.
  induction t as [|w t IH]; intros c m Hc; cbn [foldM]; [by intros [= <-]|].
  destruct (plain_add checks 32 c _) as [z|] eqn:Ez; [|done]. cbn [mbind res_bind]. apply IH.
  pose proof (count_ones_one_mask_range w). apply plain_add_inv in Ez as ->; [|lia].
  unfold wrapping_add, U32_MAX. pose proof (wrap_range 32 (c + count_ones (Z.land w ONE_MASK))). lia.
Qed.

(** What a [reset] that does not fault returns. *)
Lemma reset_inv checks s s' :
  0 <= fs_size s <= U32_MAX -> reset checks s = Ok s' ->
  exists z, s' = mkSketch (sample_size s) (table_mask s) (aged_table (table s)) z /\
    0 <= z <= U32_MAX /\ (checks = true -> z <= fs_size s / 2).
Proof.
  intros Hs. unfold reset. intros Hr.
  destruct (foldM _ 0 _) as [n|] eqn:En; cbn [mbind res_bind] in Hr; [|done].
  apply odd_count_inv in En; [|done]. rewrite !Z.shiftr_div_pow2 in Hr by lia.
  change (2 ^ 1) with 2 in Hr. change (2 ^ 2) with 4 in Hr. unfold U32_MAX in *.
  destruct checks; cbn [plain_sub] in Hr.
  - unfold checked_sub in Hr. case_match eqn:Hle; [|done]. injection Hr as <-.
    apply Z.leb_le in Hle. eexists. split; [reflexivity|]. div_lia.
  - injection Hr as <-. eexists. split; [reflexivity|]. split; [|done].
    unfold wrapping_sub. pose proof (wrap_range 32 (fs_size s / 2 - n / 4)). lia.
Qed.

(** Without overflow checks nothing in [reset] faults. *)
Lemma reset_wraps s : exists s', reset false s = Ok s'.
Proof.
  unfold reset. cbn [plain_add plain_sub].
  destruct (foldM_inv (fun _ => True) (fun c w => Ok (wrapping_add 32 c (count_ones (Z.land w ONE_MASK)))) (table s) 0)
    as (n & -> & _); [done|by eauto|]. by eexists.
Qed.

(** ** Properties *)

(** [frequency] never faults on a well-formed sketch and returns the least of the
    four counters of the hash, a value in [0 ..= 15]. *)
Lemma frequency_ok s h :
  sketch_shape s -> frequency s h = Ok (estimate s h) /\ 0 <= estimate s h <= 15.
Proof.
  intros Hwf. split; [|apply estimate_range].
  unfold frequency. destruct (decide (table s = [])) as [E|E].
  { unfold estimate. rewrite E. by rewrite decide_True. }
  destruct (table s) as [|w0 ws] eqn:Ht; [done|]. rewrite <- Ht.
  assert (Hl : forall i, table s !! slot s h i = Some (nth (slot s h i) (table s) 0)).
  { intros i. rewrite nth_lookup.
    destruct (lookup_lt_is_Some_2 (table s) (slot s h i)) as [w Hw]; [|by rewrite Hw].
    apply slot_lt; [done|by rewrite Ht]. }
  cbn [foldM]. rewrite !index_of_slot by lia. cbn [mbind res_bind]. rewrite !Hl.
  cbn [mbind res_bind expect_some]. f_equal.
  rewrite estimate_cells by (by rewrite Ht). unfold cell, counter, U8_MAX.
  pose proof (counter_start_range h). rewrite !(Z.shiftl_mul_pow2 (_ + _)) by lia.
  change (2 ^ 2) with 4. rewrite !(Z.mul_comm _ 4).
  repeat match goal with |- context [Z.land ?a 15] =>
    pose proof (land_ones_range a 4); change (2 ^ 4 - 1) with 15 in *; change (2 ^ 4) with 16 in *;
    generalize dependent (Z.land a 15); intros end. lia.
Qed.

(** The counting part of [increment], then the aging when the sample is full. *)
Lemma increment_cases checks s h s' :
  sketch_shape s -> table s <> [] -> increment checks s h = Ok s' ->
  let s1 := with_table s (bumps s h depths (table s)) in
  let next := wrapping_add 32 (fs_size s) 1 in
  exists b sz, increment_counters checks s h = Ok (b, s1) /\ 0 <= sz <= U32_MAX /\
  ((b = false /\ s' = s /\ s1 = s) \/
   (b = true /\ next < sample_size s /\ sz = next /\
     s' = mkSketch (sample_size s) (table_mask s) (table s1) sz) \/
   (b = true /\ sample_size s <= next /\ (checks = true -> sz <= next / 2) /\
     s' = mkSketch (sample_size s) (table_mask s) (aged_table (table s1)) sz)).
Proof.
  intros Hsh Hne Hi. cbv zeta. pose proof (sh_size s Hsh) as Hsz.
  destruct (increment_counters_spec checks s h Hsh Hne) as (b & E & Hb).
  assert (Hi' : (let s1 := with_table s (bumps s h depths (table s)) in
    if b then sz ← plain_add checks 32 (fs_size s1) 1;
      let s2 := mkSketch (sample_size s1) (table_mask s1) (table s1) sz in
      if sample_size s2 <=? fs_size s2 then reset checks s2 else Ok s2
    else Ok s1) = Ok s').
  { rewrite <- Hi. unfold increment. rewrite E. by destruct (table s). }
  clear Hi. set (s1 := with_table s (bumps s h depths (table s))) in *.
  cbv zeta in Hi'. change (fs_size s1) with (fs_size s) in Hi'. exists b.
  assert (Hn : 0 <= wrapping_add 32 (fs_size s) 1 <= U32_MAX).
  { unfold wrapping_add, U32_MAX. pose proof (wrap_range 32 (fs_size s + 1)). lia. }
  destruct b.
  - destruct (plain_add checks 32 (fs_size s) 1) as [z|] eqn:Ez; [|done]. apply plain_add_inv in Ez as ->; [|lia].
    cbn [mbind res_bind] in Hi'. cbn [sample_size fs_size] in Hi'. change (sample_size s1) with (sample_size s) in Hi'.
    destruct (Z.leb_spec (sample_size s) (wrapping_add 32 (fs_size s) 1)).
    + apply reset_inv in Hi' as (z & -> & Hz & Hck); [|done]. exists z. split; [done|]. split; [done|]. right; right. done.
    + injection Hi' as <-. eexists. split; [done|]. split; [exact Hn|]. right; left. split; [done|]. split; [lia|done].
  - exists 0. split; [done|]. split; [done|]. left.
    assert (s1 = s) as Hs by (unfold s1; rewrite Hb by done; by destruct s).
    injection Hi' as <-. by rewrite Hs.
Qed.

(** A running size below the sample size does not wrap. *)
Lemma wf_next s : sketch_wf s -> wrapping_add 32 (fs_size s) 1 = fs_size s + 1.
Proof. intros Hwf. pose proof (wf_size s Hwf). apply wrap_small. unfold I32_MAX in *. lia. Qed.

(** One [increment] raises the estimate of its own hash by one, saturating at
    15, and raises every other estimate by at most one; when the sample size is
    reached, and only then, all estimates are halved afterwards. *)
Theorem increment_estimates checks s h s' :
  sketch_shape s -> table s <> [] -> increment checks s h = Ok s' ->
  exists aged : bool,
    let age v := if aged then v / 2 else v in
    (aged = true -> sample_size s <= wrapping_add 32 (fs_size s) 1) /\
    estimate s' h = age (Z.min 15 (estimate s h + 1)) /\
    forall x, age (estimate s x) <= estimate s' x <= age (Z.min 15 (estimate s x + 1)).
Proof.
  intros Hwf Hne Hi.
  pose proof (fun x => estimate_bumps s h x Hwf Hne) as He. cbv zeta in He.
  destruct (increment_cases checks s h s' Hwf Hne Hi)
    as (b & sz & _ & _ & [(_ & -> & Hs1)|[(_ & Hs & _ & ->)|(_ & Hs & _ & ->)]]).
  - exists false; cbv zeta iota. rewrite Hs1 in He.
    split; [done|]. split; [by apply He|]. intros x. apply He.
  - exists false; cbv zeta iota. rewrite ?estimate_size.
    split; [done|]. split; [by apply (He h)|]. intros x. apply (He x).
  - exists true; cbv zeta iota.
    set (s1 := with_table s (bumps s h depths (table s))) in *.
    assert (Ha : forall x, estimate (mkSketch (sample_size s) (table_mask s)
        (aged_table (table s1)) sz) x = estimate s1 x / 2)
      by (intros x; apply (estimate_aged s1)).
    split; [done|]. split.
    + rewrite Ha. f_equal. by apply He.
    + intros x. rewrite Ha. destruct (He x) as [[? ?] _]. split; by apply half_le.
Qed.

(** The words of the table after the increments of a hash. *)
Lemma bumps_words s h t : Forall (fun w => 0 <= w < 2 ^ 64) t -> Forall (fun w => 0 <= w < 2 ^ 64) (bumps s h depths t).
Proof.
  intros Ht. pose proof (counter_start_range h). unfold bumps, depths. cbn [foldl].
  do 4 (apply bump_table_words; [lia|]). done.
Qed.

(** The table keeps its length, its mask and its sample size. *)
Lemma increment_frame checks s h s' :
  sketch_shape s -> increment checks s h = Ok s' ->
  length (table s') = length (table s) /\ table_mask s' = table_mask s /\ sample_size s' = sample_size s.
Proof.
  intros Hsh Hi. destruct (decide (table s = [])) as [E|E].
  { unfold increment in Hi. rewrite E in Hi. by injection Hi as <-. }
  destruct (increment_cases checks s h s' Hsh E Hi)
    as (b & sz & _ & _ & [(_ & -> & _)|[(_ & _ & _ & ->)|(_ & _ & _ & ->)]]);
    cbn [table table_mask sample_size with_table]; unfold aged_table; by rewrite ?length_map, ?length_bumps.
Qed.

Lemma increment_shape checks s h s' : sketch_shape s -> increment checks s h = Ok s' -> sketch_shape s'.
Proof.
  intros Hsh Hi. destruct (increment_frame checks s h s' Hsh Hi) as (Hl & Hm & _).
  destruct (decide (table s = [])) as [E|E].
  { unfold increment in Hi. rewrite E in Hi. by injection Hi as <-. }
  assert (Htab : exists k, 0 <= k <= 30 /\ length (table s) = Z.to_nat (2 ^ k) /\
      table_mask s = 2 ^ k - 1) by (by destruct (sh_table s Hsh)).
  split; [right; by rewrite Hl, Hm| |];
    destruct (increment_cases checks s h s' Hsh E Hi)
      as (b & sz & _ & Hsz & [(_ & -> & _)|[(_ & _ & _ & ->)|(_ & _ & _ & ->)]]); try done; try apply Hsh.
  - apply bumps_words, Hsh.
  - apply aged_table_words.
Qed.

(** With overflow checks the running size stays below the sample size. *)
Lemma increment_wf s h s' : sketch_wf s -> increment true s h = Ok s' -> sketch_wf s'.
Proof.
  intros Hwf Hi. pose proof (wf_shape s Hwf) as Hsh. pose proof (increment_shape _ _ _ _ Hsh Hi) as Hsh'.
  destruct (increment_frame _ _ _ _ Hsh Hi) as (Hl & Hm & Hss).
  destruct (decide (table s = [])) as [E|E].
  { unfold increment in Hi. rewrite E in Hi. by injection Hi as <-. }
  assert (E' : table s' <> []) by (intros E'; apply E, length_zero_iff_nil; by rewrite <- Hl, E').
  pose proof (wf_sample s Hwf E) as Hsam. pose proof (wf_below s Hwf E) as Hbelow. pose proof (wf_size s Hwf) as Hsz.
  assert (Hsz' : 0 <= fs_size s' < sample_size s).
  { destruct (increment_cases true s h s' Hsh E Hi) as (b & sz & _ & Hr & [(_ & -> & _)|[(_ & Hlt & -> & ->)|(_ & Hge & Hz & ->)]]);
      rewrite ?wf_next in * by done; cbn [fs_size]; [lia|lia|]. specialize (Hz eq_refl).
    pose proof (Z.div_lt_upper_bound (fs_size s + 1) 2 (fs_size s + 1)). lia. }
  split; [apply Hsh'|apply Hsh'| |done| |]; rewrite ?Hl, ?Hss; [|done|by intros _; apply Hsz'].
  unfold I32_MAX in *. lia.
Qed.

(** C31. The sketch never under-estimates: along any execution, of a build with or
    without overflow checks, the estimate of every hash stays at least its number
    of occurrences, counted up to 15 and halved at each aging. *)
Theorem estimate_dominates_ideal checks hs s f s' f' :
  sketch_shape s -> table s <> [] -> (forall x, f x <= estimate s x) ->
  run_ideal checks s f hs = Ok (s', f') ->
  sketch_shape s' /\ (checks = true -> sketch_wf s -> sketch_wf s') /\ forall x, f' x <= estimate s' x.
Proof.
  revert s f; induction hs as [|h hs IH]; intros s f Hwf Hne Hf Hrun; cbn [run_ideal] in Hrun.
  { by injection Hrun as <- <-. }
  destruct (increment checks s h) as [s1|] eqn:Hi; cbn [mbind res_bind] in Hrun; [|done].
  destruct (increment_cases checks s h s1 Hwf Hne Hi) as (b & sz & Hc & _ & Hcases). rewrite Hc in Hrun.
  cbn [mbind res_bind with_table sample_size fs_size] in Hrun.
  pose proof (increment_shape checks s h s1 Hwf Hi) as Hwf1.
  pose proof (bumps_nonempty s h depths (table s) Hne) as Hne1.
  set (t1 := bumps s h depths (table s)) in *.
  assert (Hf1 : forall x, (if decide (x = h) then Z.min 15 (f x + 1) else f x)
    <= estimate (with_table s t1) x).
  { intros x. specialize (Hf x). destruct (estimate_bumps s h x Hwf Hne) as [He Hs].
    unfold t1. case_decide; [rewrite Hs by done|]; lia. }
  assert (Hchk : checks = true -> sketch_wf s -> sketch_wf s1) by (intros -> Hs; by eapply increment_wf).
  enough (sketch_shape s' /\ (checks = true -> sketch_wf s1 -> sketch_wf s') /\ forall x, f' x <= estimate s' x) by naive_solver.
  clear Hchk. destruct Hcases as [(-> & -> & Hs1)|[(-> & Hz & -> & ->)|(-> & Hz & _ & ->)]].
  - rewrite Hs1 in Hf1. eapply IH in Hrun; [done|done|done|done].
  - destruct (Z.leb_spec (sample_size s) (wrapping_add 32 (fs_size s) 1)) in Hrun; [lia|].
    eapply IH in Hrun; [done|done|done|exact Hf1].
  - rewrite (proj2 (Z.leb_le _ _) Hz) in Hrun. eapply IH in Hrun; [done|done| |].
    + by intros Hnil%map_eq_nil.
    + intros x. cbv beta. etransitivity; [apply half_le, Hf1|].
      by rewrite <- (estimate_aged (with_table s t1)).
Qed.

Lemma next_power_of_two_minimal x k : 0 <= k -> 2 ^ k < next_power_of_two x -> 2 ^ k < x.
Proof.
  intros Hk Hlt. unfold next_power_of_two in Hlt.
  apply Z.pow_lt_mono_r_iff in Hlt; [|lia|apply Z.log2_up_nonneg].
  destruct (Z.le_gt_cases x (2 ^ k)) as [Hle|]; [|done].
  apply Z.log2_up_le_mono in Hle. rewrite Z.log2_up_pow2 in Hle by done. lia.
Qed.

(** The table has a power-of-two number of words, enough for the capacity. *)
Lemma table_size_power m :
  0 <= m <= 2 ^ 30 -> let ts := if m =? 0 then 1 else next_power_of_two m in
  exists k, 0 <= k <= 30 /\ ts = 2 ^ k /\ m <= ts.
Proof.
  intros Hm. cbv zeta. destruct (Z.eqb_spec m 0) as [E|E].
  - exists 0. rewrite E. lia.
  - exists (Z.log2_up m). split; [|split; [done|apply next_power_of_two_ge]].
    split; [apply Z.log2_up_nonneg|]. rewrite <- (Z.log2_up_pow2 30) by lia.
    apply Z.log2_up_le_mono. lia.
Qed.

Lemma ensure_capacity_keeps_wf s cap :
  sketch_wf s -> 0 <= cap <= U32_MAX -> sketch_wf (ensure_capacity s cap).
Proof.
  intros Hwf Hcap. unfold ensure_capacity, U32_MAX in *.
  set (m := Z.min cap (2 ^ 30)).
  set (ts := if m =? 0 then 1 else next_power_of_two m).
  destruct (Z.leb_spec ts (Z.of_nat (length (table s)))) as [|Hts]; [done|].
  assert (Hk : exists k, 0 <= k <= 30 /\ ts = 2 ^ k /\ m <= ts).
  { apply table_size_power. unfold m. lia. }
  destruct Hk as (k & Hk & Ek & Hmts).
  assert (Hpos : 0 < ts) by (rewrite Ek; apply Z.pow_pos_nonneg; lia).
  assert (Hm0 : cap =? 0 = (m =? 0)).
  { apply eq_true_iff_eq. rewrite !Z.eqb_eq. lia. }
  assert (Hold : table s <> [] -> Z.of_nat (length (table s)) < m).
  { intros Hne. destruct (wf_table s Hwf) as [?|(j & Hj & Hlj & _)]; [done|].
    rewrite Hlj in *. rewrite Z2Nat.id in * by (apply Z.pow_nonneg; lia).
    unfold ts in Hts. destruct (Z.eqb_spec m 0).
    - pose proof (Z.pow_pos_nonneg 2 j). lia.
    - apply next_power_of_two_minimal; [lia|done]. }
  pose proof (wf_size s Hwf) as Hsz.
  assert (Hlen : length (replicate (Z.to_nat ts) 0) = Z.to_nat ts) by apply length_replicate.
  split; cbn [table sample_size table_mask fs_size]; rewrite ?Hlen, ?Hm0; unfold saturating_mul, I32_MAX in *.
  - right. exists k. split; [done|]. split; [by rewrite Ek|]. unfold saturating_sub. lia.
  - apply Forall_replicate. lia.
  - done.
  - intros Hnil. apply (f_equal length) in Hnil. rewrite Hlen in Hnil. cbn in Hnil. lia.
  - intros _. destruct (Z.eqb_spec m 0); lia.
  - intros _. destruct (decide (table s = [])) as [E|E].
    + rewrite (wf_empty s Hwf E). destruct (Z.eqb_spec m 0); lia.
    + pose proof (wf_sample s Hwf E). pose proof (wf_below s Hwf E). specialize (Hold E).
      unfold I32_MAX in *. destruct (Z.eqb_spec m 0); lia.
Qed.

Lemma estimate_zeros ss m n z x : estimate (mkSketch ss m (replicate n 0) z) x = 0.
Proof.
  unfold estimate. case_decide; [done|]. unfold cnt. cbn [table].
  assert (Hn : forall i, nth i (replicate n 0) 0 = 0).
  { intros i. rewrite nth_lookup. destruct (replicate n 0 !! i) as [w|] eqn:E; [|done].
    by apply lookup_replicate in E as [-> _]. }
  rewrite !Hn. unfold counter. rewrite !Z.shiftr_0_l. done.
Qed.

(** C32. [ensure_capacity] keeps the sketch well-formed (a power-of-two table, a mask
    that selects exactly its indices, a running size below the sample size) and
    leaves a table with room for the capacity (up to [2^30] words): either it
    keeps the sketch as it is, or it forgets all previous counts. *)
Theorem ensure_capacity_wf s cap :
  sketch_wf s -> 0 <= cap <= U32_MAX ->
  let s' := ensure_capacity s cap in
  sketch_wf s' /\ Z.min cap (2 ^ 30) <= Z.of_nat (length (table s')) /\ table s' <> [] /\
  (s' = s \/ (Z.of_nat (length (table s)) < Z.of_nat (length (table s')) /\
              forall x, estimate s' x = 0)).
Proof.
  intros Hwf Hcap s'. split; [by apply ensure_capacity_keeps_wf|].
  unfold s', ensure_capacity. set (m := Z.min cap (2 ^ 30)).
  set (ts := if m =? 0 then 1 else next_power_of_two m).
  assert (Hts : m <= ts /\ 0 < ts).
  { unfold ts. destruct (Z.eqb_spec m 0); [lia|]. pose proof (next_power_of_two_ge m). lia. }
  destruct (Z.leb_spec ts (Z.of_nat (length (table s)))); cbn [table].
  - split; [lia|]. split; [|by left]. intros E. rewrite E in *. cbn in *. lia.
  - rewrite length_replicate, Z2Nat.id by lia. split; [lia|]. split.
    + intros E. apply (f_equal length) in E. rewrite length_replicate in E. cbn in E. lia.
    + right. split; [done|]. intros x. apply estimate_zeros.
Qed.

Lemma ensure_capacity_shape s cap :
  sketch_shape s -> 0 <= cap <= U32_MAX -> sketch_shape (ensure_capacity s cap).
Proof.
  intros Hsh Hcap. unfold ensure_capacity.
  set (m := Z.min cap (2 ^ 30)).
  set (ts := if m =? 0 then 1 else next_power_of_two m).
  destruct (Z.leb_spec ts (Z.of_nat (length (table s)))) as [|Hts]; [done|].
  assert (Hk : exists k, 0 <= k <= 30 /\ ts = 2 ^ k /\ m <= ts) by (apply table_size_power; unfold m; lia).
  destruct Hk as (k & Hk & Ek & _). pose proof (Z.pow_pos_nonneg 2 k).
  split; cbn [table table_mask fs_size]; [|apply Forall_replicate; lia|apply Hsh].
  right. exists k. rewrite length_replicate, Ek. split; [done|]. split; [done|]. unfold saturating_sub. lia.
Qed.

(** [increment] never faults and keeps the sketch's shape: in a build without
    overflow checks always, and with them as long as the sample size is at least
    eight times the table length (so for every power-of-two capacity up to [2^27],
    [power_of_two_reset_safe]), where neither the counters nor the [u32] arithmetic of
    [reset] overflow. *)
Lemma increment_ok checks s h :
  sketch_ok checks s ->
  exists s', increment checks s h = Ok s' /\ sketch_ok checks s'.
Proof.
  intros [Hsh Hsafe].
  enough (exists s', increment checks s h = Ok s') as (s' & Hi).
  { exists s'. split; [done|]. split; [by eapply increment_shape|]. intros ->. destruct (Hsafe eq_refl) as [Hwf Hs].
    split; [by eapply increment_wf|]. destruct (increment_frame _ _ _ _ Hsh Hi) as (Hl & _ & Hss).
    destruct Hs as [E|[H8 H27]]; [left|right; by rewrite Hl, Hss]. apply length_zero_iff_nil. by rewrite Hl, E. }
  unfold increment. destruct (decide (table s = [])) as [E|E]; [rewrite E; eauto|].
  destruct (increment_counters_spec checks s h Hsh E) as (b & Hc & _). rewrite Hc.
  pose proof (length_bumps s h depths (table s)) as Hl.
  destruct (table s) as [|w ws] eqn:Ht; [done|]. rewrite <- Ht in *. cbn [mbind res_bind].
  destruct b; [|eauto]. destruct checks.
  - destruct (Hsafe eq_refl) as [Hwf [?|[H8 H27]]]; [done|]. pose proof (wf_size s Hwf).
    rewrite plain_add_ok by (cbn; unfold I32_MAX in *; lia). cbn [mbind res_bind].
    cbn [sample_size fs_size with_table].
    destruct (Z.leb_spec (sample_size s) (fs_size s + 1)); [|eauto].
    match goal with |- context [reset _ ?x] => destruct (reset_ok true x) as (z & -> & _) end;
      cbn [table fs_size with_table]; rewrite ?Hl; unfold I32_MAX, U32_MAX in *; eauto; lia.
  - cbn [plain_add mbind res_bind]. case_match; [apply reset_wraps|by eexists].
Qed.

Lemma default_sketch_shape : sketch_shape default_sketch.
Proof. split; [by left|constructor|done]. Qed.

(** The table of a capacity within four fifths of the next power of two is small
    enough for the sample size. *)
Lemma close_capacity_reset_safe c :
  0 < c <= 2 ^ 27 -> 4 * next_power_of_two c <= 5 * c -> reset_safe (ensure_capacity default_sketch c).
Proof.
  intros Hc H5. right. unfold ensure_capacity.
  rewrite Z.min_l by lia. rewrite (proj2 (Z.eqb_neq c 0)) by lia.
  pose proof (next_power_of_two_ge c) as Hge. cbn [table default_sketch length].
  destruct (Z.leb_spec (next_power_of_two c) (Z.of_nat 0)); [lia|]. cbn [table sample_size].
  assert (H27 : next_power_of_two c <= 2 ^ 27).
  { apply next_power_of_two_le; lia. }
  rewrite length_replicate, Z2Nat.id by lia.
  unfold saturating_mul, I32_MAX. lia.
Qed.

(** A power of two is its own next power of two. *)
Lemma power_of_two_reset_safe n :
  0 <= n <= 27 -> reset_safe (ensure_capacity default_sketch (2 ^ n)).
Proof.
  intros Hn. assert (0 < 2 ^ n) by (apply Z.pow_pos_nonneg; lia).
  assert (2 ^ n <= 2 ^ 27) by (apply Z.pow_le_mono_r; lia).
  apply close_capacity_reset_safe; [lia|]. unfold next_power_of_two. rewrite Z.log2_up_pow2; lia.
Qed.

(** A sketch of its own size is one on which no plain operator faults: without
    overflow checks for every [u32] capacity, with them for the powers of two up to
    [2^27]. *)
Lemma fresh_sketch_ok checks cap :
  0 <= cap <= U32_MAX -> (checks = true -> exists n, 0 <= n <= 27 /\ cap = 2 ^ n) ->
  sketch_ok checks (ensure_capacity default_sketch cap).
Proof.
  intros Hcap Hp. split; [by apply ensure_capacity_shape; [apply default_sketch_shape|]|].
  intros Hc. destruct (Hp Hc) as (n & Hn & ->). split; [|by apply power_of_two_reset_safe].
  apply ensure_capacity_keeps_wf; [split; cbn; (done || auto)|done].
Qed.

(** C33. No sequence of accesses makes the sketch fault, and every estimate stays
    within [0 ..= 15]: in a build without overflow checks for every [u32] capacity, and in
    one with them for the capacities [2^n] with [n <= 27], where the 4-bit counters
    saturate and the [u32] arithmetic of the periodic [reset] neither overflows nor
    underflows. *)
Theorem run_no_overflow checks cap hs :
  0 <= cap <= U32_MAX -> (checks = true -> exists n, 0 <= n <= 27 /\ cap = 2 ^ n) ->
  exists s', run checks (ensure_capacity default_sketch cap) hs = Ok s' /\ sketch_shape s' /\
    (checks = true -> sketch_wf s') /\
    forall h, frequency s' h = Ok (estimate s' h) /\ 0 <= estimate s' h <= 15.
Proof.
  intros Hcap Hp. pose proof (fresh_sketch_ok checks cap Hcap Hp) as Hok. revert Hok.
  generalize (ensure_capacity default_sketch cap) as s. induction hs as [|h hs IH]; intros s Hok; cbn.
  - exists s. split; [done|]. destruct Hok as [Hsh Hwf]. split; [done|]. split; [naive_solver|]. intros h. by apply frequency_ok.
  - destruct (increment_ok checks s h Hok) as (s1 & -> & Hok1). cbn. by apply IH.
Qed.

(** Hashes of which each, in turn, finds at least three of its four counters
    even and makes them odd. *)
Definition odd_hashes : list Z :=
  [
   0; 1; 2; 3; 4; 5; 6; 7; 8; 9; 10; 11; 12; 13; 14; 15; 16; 17; 18; 19; 20; 21; 22; 23; 24; 25;
   26; 27; 28; 29; 30; 31; 32; 33; 34; 35; 36; 37; 38; 39; 40; 41; 42; 43; 44; 45; 46; 47; 48; 49;
   50; 51; 52; 53; 54; 55; 56; 57; 58; 59; 60; 61; 62; 63; 64; 65; 66; 67; 68; 69; 70; 71; 72; 73;
   74; 75; 76; 77; 78; 79; 80; 81; 82; 83; 84; 85; 86; 87; 88; 89; 90; 91; 92; 93; 94; 95; 96; 97;
   98; 99; 100; 101; 102; 103; 104; 105; 106; 107; 108; 109; 110; 111; 112; 113; 114; 115; 116;
   117; 118; 119; 120; 121; 122; 123; 124; 125; 126; 127; 128; 129; 130; 131; 132; 133; 134; 135;
   136; 137; 138; 139; 140; 141; 142; 143; 144; 145; 146; 147; 148; 149; 150; 151; 152; 153; 154;
   155; 156; 157; 158; 159; 160; 161; 162; 163; 164; 165; 166; 167; 168; 169; 170; 171; 172; 173;
   174; 175; 176; 177; 178; 179; 181; 182; 183; 184; 187; 188; 189; 192; 193; 194; 195; 197; 198;
   199; 200; 201; 203; 204; 205; 206; 208; 209; 210; 211; 213; 214; 215; 216; 217; 219; 220; 221;
   222; 224; 225; 226; 227; 229; 230; 231; 232; 235; 236; 237; 238; 240; 241; 242; 243; 244; 246;
   247; 248; 249; 251; 252; 253; 254; 256; 257; 258; 259; 260; 262; 263; 264; 265; 267; 268; 269;
   270; 272; 273; 274; 275; 276; 278; 279; 280; 281; 283; 284; 285; 286; 287; 288; 289; 290; 291;
   292; 293; 294; 295; 296; 297; 300; 301; 302; 304; 305; 306; 307; 308; 310; 311; 312; 313; 315;
   316; 317; 318; 319; 321; 322; 323; 324; 326; 327; 328; 329; 332; 333; 334; 335; 337; 338; 339;
   340; 342; 343; 344; 345; 346; 348; 349; 350; 351; 353; 354; 355; 356; 358; 359; 360; 362; 364;
   366; 367; 370; 371; 372; 373; 375; 376; 377; 378; 380; 381; 382; 383; 385; 386; 387; 389; 391;
   393; 394; 397; 398; 399; 401; 402; 403; 404; 405; 407; 408; 409; 410; 413; 414; 415; 416; 418;
   419; 420; 424; 426; 428; 430; 432; 434; 435; 436; 437; 439; 440; 441; 442; 443; 444; 445; 446;
   448; 449; 450; 451; 453; 456; 457; 458; 459; 461; 462; 463; 464; 467; 468; 469; 470; 471; 472;
   473; 475; 477; 478; 479; 480; 483; 484; 485; 487; 488; 489; 490; 491; 493; 494; 495; 496; 499;
   500; 502; 503; 504; 505; 507; 510; 511; 512; 514; 515; 516; 517; 518; 520; 521; 522; 523; 526;
   527; 530; 531; 532; 534; 536; 537; 538; 539; 541; 542; 543; 544; 546; 548; 550; 553; 554; 557;
   558; 559; 561; 563; 564; 565; 566; 568; 569; 570; 571; 572; 573; 574; 575; 577; 581; 585; 588;
   589; 590; 591; 592; 593; 596; 597; 598; 599; 600; 601; 602; 603; 604; 605; 606; 608; 612; 616;
   618; 620; 623; 624; 625; 628; 629; 630; 631; 632; 633; 634; 635; 636; 639; 640; 642; 644; 645;
   647; 650; 651; 652; 655; 656; 657; 658; 659; 660; 661; 662; 663; 666; 667; 671; 672; 674; 675;
   676; 677; 679; 681; 682; 683; 684; 685; 687; 688; 689; 690; 693; 694; 695; 698; 699; 701; 702;
   703; 704; 706; 708; 709; 710; 711; 712; 714; 715; 716; 717; 718; 719; 720; 721; 722; 723; 725;
   726; 728; 730; 736; 737; 738; 741; 742; 743; 744; 745; 746; 747; 748; 749; 752; 753; 755; 756;
   757; 758; 761; 762; 763; 765; 769; 770; 771; 773; 774; 775; 776; 777; 779; 780; 781; 783; 784;
   785; 787; 788; 789; 790; 792; 793; 796; 797; 798; 800; 802; 804; 806; 807; 808; 812; 814; 816;
   817; 819; 820; 822; 824; 825; 827; 829; 831; 833; 835; 839; 841; 843; 844; 846; 847; 849; 851;
   854; 856; 857; 859; 860; 861; 862; 863; 866; 867; 868; 870; 871; 873; 874; 876; 878; 881; 882;
   883; 884; 886; 887; 888; 889; 890; 893; 894; 895; 897; 898; 900; 902; 903; 905; 906; 907; 908;
   910; 911; 913; 914; 915; 916; 920; 921; 923; 925; 927; 929; 930; 932; 933; 935; 937; 938; 940;
   941; 942; 943; 944; 945; 947; 949; 953; 957; 959; 962; 963; 964; 967; 968; 969; 970; 971; 972;
   974; 975; 976; 980; 984; 986; 987; 988; 991; 992; 994; 995; 996; 997; 999; 1000; 1001; 1002;
   1004; 1005; 1006; 1007; 1008; 1011; 1013; 1015; 1016; 1019; 1021; 1023; 1024; 1026; 1027; 1028;
   1029; 1031; 1032; 1033; 1034; 1035; 1036; 1037; 1038; 1040; 1042; 1043; 1045; 1047; 1048; 1050;
   1051; 1053; 1055; 1056; 1058; 1060; 1061; 1062; 1065; 1066; 1067; 1068; 1069; 1070; 1072; 1074;
   1075; 1077; 1078; 1080; 1082; 1083; 1085; 1087; 1094; 1095; 1097; 1099; 1101; 1102; 1105; 1107;
   1109; 1110; 1111; 1112; 1114; 1115; 1120; 1121; 1122; 1124; 1126; 1127; 1128; 1129; 1131; 1132;
   1134; 1136; 1137; 1139; 1141; 1147; 1150; 1152; 1172; 1174; 1178; 1180; 1182; 1184; 1190; 1199;
   1200; 1201; 1205; 1207; 1209; 1211; 1215; 1217; 1223; 1226; 1227; 1235; 1238; 1242; 1243; 1250;
   1252; 1253; 1254; 1262; 1263; 1265; 1270; 1272; 1285; 1289; 1296; 1297; 1304; 1306; 1308; 1309;
   1316; 1321; 1325; 1331; 1336; 1342; 1343; 1347; 1352; 1356; 1359; 1364; 1368; 1370; 1373; 1379;
   1383; 1390; 1395; 1406; 1411; 1416; 1417; 1422; 1433; 1438; 1443; 1454; 1460; 1465; 1470; 1471;
   1481; 1487; 1493; 1497; 1532; 1552; 1557; 1561; 1567; 1595; 1600; 1606; 1622; 1649; 1716; 1719;
   1720; 1724; 1753; 1755; 1760; 1767; 1768; 1793; 1794; 1805; 1810; 1819; 1837; 1854; 1869; 1878;
   1880; 1891; 1905; 1912; 1921; 1932; 1935; 1939; 1951; 1955; 1960; 1964; 1970; 1982; 1985; 1993;
   1998; 2007; 2009; 2013; 2025; 2036; 2040; 2041; 2049; 2050; 2058; 2068; 2077; 2084; 2092; 2093;
   2096; 2106; 2119; 2120; 2121; 2122; 2123; 2127; 2135; 2149; 2154; 2186; 2195; 2206; 2213; 2220;
   2222; 2229; 2240; 2241; 2244; 2262; 2280; 2281; 2295; 2308; 2312; 2322; 2324; 2347; 2350; 2351;
   2355; 2357; 2367; 2373; 2390; 2394; 2410; 2412; 2417; 2436; 2443; 2444; 2474; 2489; 2498; 2499;
   2501; 2503; 2514; 2517; 2522; 2523; 2525; 2530; 2533; 2541; 2571; 2579; 2589; 2598; 2608; 2616;
   2625; 2633; 2643; 2645; 2659; 2666; 2670; 2672; 2676; 2687; 2701; 2703; 2705; 2709; 2718; 2730;
   2732; 2734; 2745; 2767; 2768; 2772; 2776; 2777; 2782; 2785; 2788; 2807; 2809; 2815; 2820; 2822;
   2830; 2831; 2836; 2891; 2897; 2906; 2931; 2938; 2966; 2994; 3004; 3011; 3015; 3040; 3058; 3075;
   3085; 3090; 3108; 3112; 3113; 3116; 3117; 3126; 3128; 3157; 3169; 3202; 3224; 3228; 3241; 3267;
   3269; 3273; 3279; 3285; 3289; 3310; 3311; 3343; 3357; 3376; 3399; 3427; 3438; 3441; 3457; 3484;
   3503; 3522; 3542; 3557; 3565; 3566; 3586; 3596; 3602; 3631; 3658; 3670; 3684; 3685; 3717; 3735;
   3739; 3752; 3771; 3788; 3794; 3798; 3803; 3817; 3831; 3852; 3853; 3870; 3884; 3887; 3896; 3901;
   3907; 3914; 3933; 3943; 3945; 3947; 3967; 4003; 4011; 4046; 4056; 4070; 4071; 4089; 4111; 4116;
   4121; 4152; 4158; 4160; 4170; 4186; 4302; 4318; 4332; 4357; 4373; 4385; 4419; 4475; 4487; 4518;
   4530; 4557; 4592; 4600; 4625; 4771; 4781; 4802; 4847; 4862; 4878; 4884; 4957; 5007; 5079; 5146;
   5151; 5155; 5182; 5186; 5188; 5197; 5245; 5378; 5381; 5440; 5563; 5569; 5580; 5592; 5642; 5672;
   5685; 5697; 5728; 5744; 5749; 5755; 5770; 5814; 5943; 6053; 6072; 6106; 6158; 6198; 6341; 6401;
   6413; 6467; 6494; 6526; 6633; 6639; 6663; 6668; 6670; 6784; 6790; 6812; 6834; 6861; 6862; 6954;
   7077; 7104; 7131; 7159; 7185; 7209; 7212; 7268; 7305; 7342; 7348; 7389; 7400; 7439; 7444; 7450;
   7476; 7478; 7481; 7489; 7514; 7519; 7573; 7604; 7606; 7642; 7649; 7651; 7740; 7804; 7805; 7854;
   7858; 7919; 7932; 7943; 7946; 8017; 8019; 8030; 8122; 8143; 8176; 8191; 8206; 8367; 8419; 8422;
   8428; 8520; 8585
  ].

(** For other capacities the subtraction of [reset] does underflow: for a
    cache of 129 entries the table has 256 words and the sample size is 1290, and
    there is a sequence of 1290 hashes after which more than twice as many
    counters are odd as the halved size allows.  A build with overflow checks
    panics there; one without them goes on with a running size above the sample
    size, so that the next access ages the sketch again. *)
Theorem reset_underflow_reachable :
  exists hs, length hs = 1290%nat /\ Forall (fun h => 0 <= h < 2 ^ 64) hs /\
    run true (ensure_capacity default_sketch (sketch_capacity 129)) hs = Fail Overflow /\
    exists s', run false (ensure_capacity default_sketch (sketch_capacity 129)) hs = Ok s' /\ sample_size s' < fs_size s'.
Proof.
  exists odd_hashes. split; [reflexivity|]. split.
  - assert (H : forallb (fun h => (0 <=? h) && (h <? 2 ^ 64)) odd_hashes = true) by (vm_compute; reflexivity).
    apply Forall_forall. intros h Hh. rewrite forallb_forall in H.
    specialize (H h (proj1 (list_elem_of_In _ _) Hh)).
    apply andb_true_iff in H as [H1%Z.leb_le H2%Z.ltb_lt]. done.
  - split; [vm_compute; reflexivity|]. eexists. split; vm_compute; reflexivity.
Qed.

(** ** Witnesses *)

Definition sketch_128 : FrequencySketch := ensure_capacity default_sketch (sketch_capacity 128).

Lemma default_sketch_wf : sketch_wf default_sketch.
Proof. split; cbn; (done || auto). Qed.

Lemma sketch_128_shape : sketch_shape sketch_128.
Proof. apply ensure_capacity_shape; [apply default_sketch_shape|vm_compute; done]. Qed.

Lemma increment_estimates_witness :
  exists s', increment true sketch_128 42 = Ok s' /\ estimate s' 42 = 1.
Proof.
  destruct (increment true sketch_128 42) as [s'|e] eqn:E; [|vm_compute in E; discriminate E].
  exists s'. split; [reflexivity|].
  destruct (increment_estimates true sketch_128 42 s') as (aged & Hage & Hest & _).
  - apply sketch_128_shape.
  - vm_compute. discriminate.
  - exact E.
  - rewrite Hest. destruct aged; [|vm_compute; reflexivity].
    specialize (Hage eq_refl). vm_compute in Hage. by destruct Hage.
Defined.

Lemma estimate_dominates_ideal_witness :
  exists s' f', run_ideal true sketch_128 (fun _ => 0) [42; 7; 42] = Ok (s', f') /\
    f' 42 = 2 /\ f' 42 <= estimate s' 42.
Proof.
  destruct (run_ideal true sketch_128 (fun _ => 0) [42; 7; 42]) as [[s' f']|e] eqn:E;
    [|vm_compute in E; discriminate E].
  exists s', f'. split; [reflexivity|]. split.
  - transitivity (match run_ideal true sketch_128 (fun _ => 0) [42; 7; 42] with
      | Ok (_, f) => f 42 | Fail _ => 0 end); [by rewrite E|vm_compute; reflexivity].
  - eapply (estimate_dominates_ideal true [42; 7; 42] sketch_128 (fun _ => 0) s' f').
    + apply sketch_128_shape.
    + vm_compute. discriminate.
    + intros x. apply estimate_range.
    + exact E.
Defined.

Lemma ensure_capacity_wf_witness :
  sketch_wf (ensure_capacity default_sketch 1000) /\
  length (table (ensure_capacity default_sketch 1000)) = 1024%nat.
Proof.
  split; [|vm_compute; reflexivity].
  apply (ensure_capacity_wf default_sketch 1000); [apply default_sketch_wf|].
  vm_compute; split; discriminate.
Defined.

(** With overflow checks at capacity 128, and without them at capacity 129. *)
Lemma run_no_overflow_witness :
  (exists s', run true (ensure_capacity default_sketch 128) [42; 7; 42] = Ok s' /\ sketch_wf s' /\
    forall h, frequency s' h = Ok (estimate s' h)) /\
  (exists s', run false (ensure_capacity default_sketch 129) odd_hashes = Ok s' /\
    forall h, frequency s' h = Ok (estimate s' h)).
Proof.
  split.
  - destruct (run_no_overflow true 128 [42; 7; 42]) as (s' & E & _ & Hwf & Hf); [done| |].
    + intros _. by exists 7.
    + exists s'. split; [exact E|]. split; [by apply Hwf|]. intros h. apply Hf.
  - destruct (run_no_overflow false 129 odd_hashes) as (s' & E & _ & _ & Hf); [done|done|].
    exists s'. split; [exact E|]. intros h. apply Hf.
Defined.
