(* ===== verification/Deque.v ===== *)
(** Deque (src/common/deque.rs): the intrusive doubly linked list behind the LRU
    queues, the write-order queue and the timer-wheel buckets.

    The model is at the level of pointers: nodes live in a heap (a finite map
    from addresses), [next] and [prev] are addresses, and every operation performs
    the loads and stores of the source; a load through a freed address is the
    fault [Dangling].  [Repr] says which list of nodes a deque denotes.  The
    theorems show that on represented deques no operation faults and each one
    implements its list counterpart, cursor included. *)
From S2P Require Import Prelude Common.

Definition ptr := positive.

Record DeqNode (T : Type) := mkNode {
  next : option ptr;
  prev : option ptr;
  element : T
}.
Arguments mkNode {T} _ _ _.
Arguments next {T} _.
Arguments prev {T} _.
Arguments element {T} _.

(** The allocator: live nodes and the next fresh address. *)
Record heap (T : Type) := mkHeap {
  cells : gmap ptr (DeqNode T);
  next_loc : ptr
}.
Arguments mkHeap {T} _ _.
Arguments cells {T} _.
Arguments next_loc {T} _.

Inductive DeqCursor := CursorNode (p : ptr) | CursorDone.

#[export] Instance cursor_eq_dec : EqDecision DeqCursor.
Proof. solve_decision. Defined.

Record Deque := mkDeque {
  region : CacheRegion;
  len : Z;
  head : option ptr;
  tail : option ptr;
  cursor : option DeqCursor
}.

Section ops.
Context {T : Type}.
Implicit Types (h : heap T) (d : Deque) (p : ptr).

Definition empty_heap : heap T := mkHeap ∅ 1%positive.

(** Loads and stores through a pointer. *)
Definition deref h p : res (DeqNode T) := expect_some Dangling (cells h !! p).
Definition store h p (n : DeqNode T) : heap T := mkHeap (<[p := n]> (cells h)) (next_loc h).
Definition set_next h p (v : option ptr) : res (heap T) :=
  n ← deref h p; Ok (store h p (mkNode v (prev n) (element n))).
Definition set_prev h p (v : option ptr) : res (heap T) :=
  n ← deref h p; Ok (store h p (mkNode (next n) v (element n))).
Definition set_element h p (e : T) : res (heap T) :=
  n ← deref h p; Ok (store h p (mkNode (next n) (prev n) e)).

(** [Box::new(DeqNode::new(e))] *)
Definition new_node h (e : T) : heap T * ptr :=
  (mkHeap (<[next_loc h := mkNode None None e]> (cells h)) (Pos.succ (next_loc h)), next_loc h).
(** [drop(Box::from_raw(p))] *)
Definition drop_node h p : res (heap T) :=
  _ ← deref h p; Ok (mkHeap (delete p (cells h)) (next_loc h)).

Definition next_node_ptr h p : res (option ptr) := n ← deref h p; Ok (next n).

(** [Deque::new] *)
Definition new_deque (r : CacheRegion) : Deque := mkDeque r 0 None None None.

Definition with_len d v := mkDeque (region d) v (head d) (tail d) (cursor d).
Definition with_head d v := mkDeque (region d) (len d) v (tail d) (cursor d).
Definition with_tail d v := mkDeque (region d) (len d) (head d) v (cursor d).
Definition with_cursor d v := mkDeque (region d) (len d) (head d) (tail d) v.

Definition is_head d p : bool := bool_decide (head d = Some p).
Definition is_tail d p : bool := bool_decide (tail d = Some p).
Definition is_at_cursor d p : bool := bool_decide (cursor d = Some (CursorNode p)).

Definition contains h d p : res bool :=
  n ← deref h p; Ok (bool_decide (is_Some (prev n)) || is_head d p).

Definition peek_front_ptr d : option ptr := head d.
Definition peek_front h d : res (option (DeqNode T)) :=
  match head d with Some p => n ← deref h p; Ok (Some n) | None => Ok None end.
Definition peek_back h d : res (option (DeqNode T)) :=
  match tail d with Some p => n ← deref h p; Ok (Some n) | None => Ok None end.

Definition advance_cursor h d : res Deque :=
  match cursor d with
  | None => Ok d
  | Some (CursorNode p) =>
      n ← deref h p;
      Ok (with_cursor d (Some (match next n with
                               | Some q => CursorNode q
                               | None => CursorDone end)))
  | Some CursorDone => Ok (with_cursor d None)
  end.

(** Returns the address of the popped box: the caller now owns the node. *)
Definition pop_front h d : res (heap T * Deque * option ptr) :=
  match head d with
  | None => Ok (h, d, None)
  | Some node =>
      _ ← deref h node;
      d ← (if is_at_cursor d node then advance_cursor h d else Ok d);
      n ← deref h node;
      let d := with_head d (next n) in
      '(h, d) ← match next n with
                | None => Ok (h, with_tail d None)
                | Some hd => h' ← set_prev h hd None; Ok (h', d)
                end;
      l ← checked_sub (len d) 1;
      h ← set_prev h node None;
      h ← set_next h node None;
      Ok (h, with_len d l, Some node)
  end.

(** [len] counts live nodes, which a 64-bit address space cannot hold [2^64] of,
    so its increment is not checked. *)
Definition push_back h d (node : ptr) : res (heap T * Deque) :=
  h ← set_next h node None;
  h ← set_prev h node (tail d);
  '(h, d) ← match tail d with
            | None => Ok (h, with_head d (Some node))
            | Some tl => h' ← set_next h tl (Some node); Ok (h', d)
            end;
  Ok (h, with_len (with_tail d (Some node)) (len d + 1)).

Definition move_to_back h d (node : ptr) : res (heap T * Deque) :=
  _ ← deref h node;
  if is_tail d node then Ok (h, d)
  else
    d ← (if is_at_cursor d node then advance_cursor h d else Ok d);
    n ← deref h node;
    '(h, d) ← match prev n with
              | Some prev_node =>
                  match next n with
                  | Some _ => h' ← set_next h prev_node (next n); Ok (h', d)
                  | None => Ok (h, d)
                  end
              | None => Ok (h, with_head d (next n))
              end;
    match next n with
    | Some next_node =>
        h ← set_prev h next_node (prev n);
        h ← set_prev h node (tail d);
        h ← set_next h node None;
        h ← match tail d with
            | Some tl => set_next h tl (Some node)
            | None => Fail Unreachable
            end;
        Ok (h, with_tail d (Some node))
    | None => Ok (h, d)
    end.

Definition move_front_to_back h d : res (heap T * Deque) :=
  match head d with
  | Some node => move_to_back h d node
  | None => Ok (h, d)
  end.

Definition unlink h d (node : ptr) : res (heap T * Deque) :=
  _ ← deref h node;
  d ← (if is_at_cursor d node then advance_cursor h d else Ok d);
  n ← deref h node;
  '(h, d) ← match prev n with
            | Some pv => h' ← set_next h pv (next n); Ok (h', d)
            | None => Ok (h, with_head d (next n))
            end;
  '(h, d) ← match next n with
            | Some nx => h' ← set_prev h nx (prev n); Ok (h', d)
            | None => Ok (h, with_tail d (prev n))
            end;
  h ← set_prev h node None;
  h ← set_next h node None;
  l ← checked_sub (len d) 1;
  Ok (h, with_len d l).

Definition unlink_and_drop h d (node : ptr) : res (heap T * Deque) :=
  '(h, d) ← unlink h d node;
  h ← drop_node h node;
  Ok (h, d).

Definition reset_cursor d : Deque := with_cursor d None.

(** [Iterator::next] of [&mut Deque]: the element under the cursor. *)
Definition iter_next h d : res (Deque * option T) :=
  let d := match cursor d with
           | None => match head d with
                     | Some hd => with_cursor d (Some (CursorNode hd))
                     | None => d
                     end
           | Some _ => d
           end in
  e ← match cursor d with
      | Some (CursorNode p) => n ← deref h p; Ok (Some (element n))
      | _ => Ok None
      end;
  d ← advance_cursor h d;
  Ok (d, e).

(** ** What a deque denotes *)

(** The first node of [l], or [nx]; the last node of [l], or [pv]. *)
Definition hd_or (l : list ptr) (nx : option ptr) : option ptr :=
  match l with [] => nx | q :: _ => Some q end.
Definition lst_or (l : list ptr) (pv : option ptr) : option ptr :=
  match last l with Some q => Some q | None => pv end.

(** [dseg h pv l nx]: the nodes [l], in order, are linked to each other; the
    first one's [prev] is [pv] and the last one's [next] is [nx]. *)
Fixpoint dseg h (pv : option ptr) (l : list ptr) (nx : option ptr) : Prop :=
  match l with
  | [] => True
  | p :: l' =>
      (exists e, cells h !! p = Some (mkNode (hd_or l' nx) pv e)) /\
      dseg h (Some p) l' nx
  end.

Definition cursor_in (l : list ptr) (c : option DeqCursor) : Prop :=
  match c with Some (CursorNode p) => p ∈ l | _ => True end.

Record Repr h d (l : list ptr) : Prop := {
  repr_seg : dseg h None l None;
  repr_nodup : NoDup l;
  repr_head : head d = list.head l;
  repr_tail : tail d = last l;
  repr_len : len d = Z.of_nat (length l);
  repr_cursor : cursor_in l (cursor d)
}.

(** A change of the links of the nodes in [l] and of nothing else. *)
Record relinks h h' (l : list ptr) : Prop := {
  relinks_loc : next_loc h' = next_loc h;
  relinks_out : forall p, p ∉ l -> cells h' !! p = cells h !! p;
  relinks_elem : forall p, element <$> cells h' !! p = element <$> cells h !! p
}.

(** Allocated addresses lie below the next fresh one. *)
Definition heap_wf h : Prop := forall p n, cells h !! p = Some n -> (p < next_loc h)%positive.

End ops.

(** The list counterparts of the cursor moves. *)
Fixpoint succ_in (l : list ptr) (p : ptr) : option ptr :=
  match l with
  | [] => None
  | q :: l' => if decide (q = p) then list.head l' else succ_in l' p
  end.

Definition advanced (l : list ptr) (c : option DeqCursor) : option DeqCursor :=
  match c with
  | None => None
  | Some (CursorNode p) =>
      Some (match succ_in l p with Some q => CursorNode q | None => CursorDone end)
  | Some CursorDone => None
  end.

(** The cursor after the node [p] leaves its place in [l]. *)
Definition cursor_past (l : list ptr) (p : ptr) (c : option DeqCursor) : option DeqCursor :=
  if decide (c = Some (CursorNode p)) then advanced l c else c.

(** [l] without [p]. *)
Definition list_remove (p : ptr) (l : list ptr) : list ptr := filter (fun q => q <> p) l.

Section facts.
Context {T : Type}.
Implicit Types (h : heap T) (d : Deque) (p : ptr) (l : list ptr).

(** ** Segments *)

Lemma hd_or_app l1 l2 nx : hd_or (l1 ++ l2) nx = hd_or l1 (hd_or l2 nx).
Proof. by destruct l1. Qed.

Lemma lst_or_snoc l q pv : lst_or (l ++ [q]) pv = Some q.
Proof. unfold lst_or. by rewrite last_snoc. Qed.

Lemma lst_or_cons p l pv : lst_or (p :: l) pv = lst_or l (Some p).
Proof. unfold lst_or. rewrite last_cons. by destruct (last l). Qed.

Lemma dseg_app h pv l1 l2 nx :
  dseg h pv (l1 ++ l2) nx <-> dseg h pv l1 (hd_or l2 nx) /\ dseg h (lst_or l1 pv) l2 nx.
Proof.
  revert pv; induction l1 as [|p l1 IH]; intros pv; cbn [app dseg]; [cbn; tauto|].
  rewrite IH, hd_or_app, lst_or_cons. tauto.
Qed.

Lemma dseg_frame h h' pv l nx :
  (forall p, p ∈ l -> cells h' !! p = cells h !! p) -> dseg h pv l nx -> dseg h' pv l nx.
Proof.
  revert pv; induction l as [|p l IH]; intros pv Heq Hs; [done|].
  destruct Hs as [Hp Hs]. split.
  - rewrite Heq; [done|set_solver].
  - apply IH; [set_solver|done].
Qed.

Lemma dseg_lookup h pv l nx p :
  dseg h pv l nx -> p ∈ l -> exists n, cells h !! p = Some n.
Proof.
  revert pv; induction l as [|q l IH]; intros pv Hs Hp; [by apply elem_of_nil in Hp|].
  destruct Hs as [[e He] Hs]. apply elem_of_cons in Hp as [->|Hp]; eauto.
Qed.

(** ** Relinking *)

Lemma relinks_refl h l : relinks h h l.
Proof. by split. Qed.

Lemma relinks_trans h1 h2 h3 l : relinks h1 h2 l -> relinks h2 h3 l -> relinks h1 h3 l.
Proof.
  intros [L1 O1 E1] [L2 O2 E2]. split.
  - congruence.
  - intros p Hp. rewrite O2, O1; done.
  - intros p. by rewrite E2, E1.
Qed.

Lemma relinks_mono h h' l l' : (forall p, p ∈ l -> p ∈ l') -> relinks h h' l -> relinks h h' l'.
Proof. intros Hl [L O E]. split; [done| |done]. intros p Hp. apply O. auto. Qed.

Lemma store_relinks h p n n' l :
  cells h !! p = Some n -> element n' = element n -> p ∈ l -> relinks h (store h p n') l.
Proof.
  intros Hn He Hp. split; [done| |]; intros q; cbn.
  - intros Hq. by rewrite lookup_insert_ne by (by intros ->).
  - destruct (decide (p = q)) as [->|]; [|by rewrite lookup_insert_ne].
    rewrite lookup_insert_eq, Hn. cbn. by rewrite He.
Qed.

(** The last node of a segment is given a new successor. *)
Lemma set_next_last h pv l q nx nx' :
  dseg h pv (l ++ [q]) nx -> NoDup (l ++ [q]) ->
  exists h', set_next h q nx' = Ok h' /\ dseg h' pv (l ++ [q]) nx' /\ relinks h h' [q].
Proof.
  intros Hs Hnd. apply dseg_app in Hs as [Hs [[e He] _]]. cbn in He.
  apply NoDup_app in Hnd as (_ & Hq & _).
  unfold set_next, deref. rewrite He. cbn [mbind res_bind expect_some prev element].
  eexists. split; [reflexivity|]. split; [|by eapply store_relinks; [exact He| |set_solver]].
  apply dseg_app. split.
  - eapply dseg_frame; [|exact Hs]. intros p Hp. cbn.
    rewrite lookup_insert_ne; [done|]. intros ->. by apply (Hq p Hp); left.
  - cbn. split; [|done]. exists e. by rewrite lookup_insert_eq.
Qed.

(** The first node of a segment is given a new predecessor. *)
Lemma set_prev_first h pv pv' l q nx :
  dseg h pv (q :: l) nx -> NoDup (q :: l) ->
  exists h', set_prev h q pv' = Ok h' /\ dseg h' pv' (q :: l) nx /\ relinks h h' [q].
Proof.
  intros [[e He] Hs] Hnd. apply NoDup_cons in Hnd as [Hq _].
  unfold set_prev, deref. rewrite He. cbn [mbind res_bind expect_some next element].
  eexists. split; [reflexivity|]. split; [|by eapply store_relinks; [exact He| |set_solver]].
  cbn. split; [exists e; by rewrite lookup_insert_eq|].
  eapply dseg_frame; [|exact Hs]. intros p Hp. cbn. rewrite lookup_insert_ne; [done|congruence].
Qed.

Lemma deref_ok h p n : cells h !! p = Some n -> deref h p = Ok n.
Proof. unfold deref. by intros ->. Qed.

Lemma set_prev_ok h p n v :
  cells h !! p = Some n -> set_prev h p v = Ok (store h p (mkNode (next n) v (element n))).
Proof. intros Hn. unfold set_prev, deref. by rewrite Hn. Qed.

Lemma set_next_ok h p n v :
  cells h !! p = Some n -> set_next h p v = Ok (store h p (mkNode v (prev n) (element n))).
Proof. intros Hn. unfold set_next, deref. by rewrite Hn. Qed.

(** ** Splitting a represented list at a node *)

Lemma list_remove_split l1 l2 p :
  NoDup (l1 ++ p :: l2) -> list_remove p (l1 ++ p :: l2) = l1 ++ l2.
Proof.
  intros Hnd. apply NoDup_app in Hnd as (_ & H1 & H2). apply NoDup_cons in H2 as [H2 _].
  unfold list_remove. rewrite filter_app, filter_cons_False by (by intros []).
  assert (F : forall l, p ∉ l -> filter (fun q => q <> p) l = l).
  { induction l as [|q l IH]; intros Hl; [done|].
    rewrite filter_cons_True by set_solver. f_equal. apply IH. set_solver. }
  rewrite !F; [done|done|]. intros Hp. apply (H1 p Hp). left.
Qed.

Lemma succ_in_split l1 l2 p :
  NoDup (l1 ++ p :: l2) -> succ_in (l1 ++ p :: l2) p = list.head l2.
Proof.
  induction l1 as [|q l1 IH]; intros Hnd; cbn.
  - by rewrite decide_True.
  - apply NoDup_cons in Hnd as [Hq Hnd]. rewrite decide_False by set_solver. auto.
Qed.

Lemma hd_or_head l : hd_or l None = list.head l.
Proof. by destruct l. Qed.

Lemma lst_or_last l : lst_or l None = last l.
Proof. unfold lst_or. by destruct (last l). Qed.

(** The node at a split point, its neighbours and the two halves around it. *)
Lemma repr_split h d l1 l2 p :
  Repr h d (l1 ++ p :: l2) ->
  dseg h None l1 (Some p) /\ dseg h (Some p) l2 None /\
  exists e, cells h !! p = Some (mkNode (list.head l2) (last l1) e).
Proof.
  intros Hr. pose proof (repr_seg _ _ _ Hr) as Hs.
  apply dseg_app in Hs as [H1 [[e He] H2]].
  rewrite lst_or_last, hd_or_head in He. eauto.
Qed.

(** The cursor steps past a node that is about to leave its place. *)
Lemma cursor_step h d l1 l2 p :
  Repr h d (l1 ++ p :: l2) ->
  (if is_at_cursor d p then advance_cursor h d else Ok d) =
    Ok (with_cursor d (cursor_past (l1 ++ p :: l2) p (cursor d))).
Proof.
  intros Hr. destruct (repr_split _ _ _ _ _ Hr) as (_ & _ & e & He).
  unfold is_at_cursor, cursor_past. destruct (decide (cursor d = Some (CursorNode p))) as [E|E].
  - rewrite bool_decide_true by done. unfold advance_cursor, advanced, deref. rewrite E, He. cbn.
    by rewrite succ_in_split by apply Hr.
  - rewrite bool_decide_false by done. by destruct d.
Qed.

Lemma cursor_past_in l1 l2 p c :
  NoDup (l1 ++ p :: l2) -> cursor_in (l1 ++ p :: l2) c ->
  cursor_in (l1 ++ l2) (cursor_past (l1 ++ p :: l2) p c).
Proof.
  intros Hnd Hc. unfold cursor_past. destruct (decide (c = Some (CursorNode p))) as [->|E].
  - cbn. rewrite succ_in_split by done. destruct l2; cbn; set_solver.
  - destruct c as [[q|]|]; cbn in *; [|done..]. assert (q <> p) by congruence. set_solver.
Qed.

Lemma link_prev h l q nx :
  dseg h None l (Some q) -> NoDup l ->
  exists h1, match last l with Some a => set_next h a nx | None => Ok h end = Ok h1 /\
    dseg h1 None l nx /\ relinks h h1 l.
Proof.
  intros Hs Hnd. destruct (last l) as [a|] eqn:E.
  - apply last_Some in E as [l0 ->].
    destruct (set_next_last h None l0 a (Some q) nx Hs Hnd) as (h1 & -> & Hs1 & Hr).
    exists h1. split; [done|]. split; [done|]. eapply relinks_mono; [|exact Hr]. set_solver.
  - apply last_None in E as ->. exists h. split; [done|]. split; [done|apply relinks_refl].
Qed.

Lemma link_next h l q pv :
  dseg h (Some q) l None -> NoDup l ->
  exists h1, match list.head l with Some b => set_prev h b pv | None => Ok h end = Ok h1 /\
    dseg h1 pv l None /\ relinks h h1 l.
Proof.
  intros Hs Hnd. destruct l as [|b l]; cbn [list.head].
  - exists h. split; [done|]. split; [done|apply relinks_refl].
  - destruct (set_prev_first h (Some q) pv l b None Hs Hnd) as (h1 & -> & Hs1 & Hr).
    exists h1. split; [done|]. split; [done|]. eapply relinks_mono; [|exact Hr]. set_solver.
Qed.

(** Both neighbours of a node are linked to each other, past the node. *)
Lemma bypass h d l1 l2 p :
  Repr h d (l1 ++ p :: l2) ->
  exists h1 h2,
    match last l1 with Some a => set_next h a (list.head l2) | None => Ok h end = Ok h1 /\
    match list.head l2 with Some b => set_prev h1 b (last l1) | None => Ok h1 end = Ok h2 /\
    dseg h2 None (l1 ++ l2) None /\ relinks h h2 (l1 ++ l2).
Proof.
  intros Hr. destruct (repr_split _ _ _ _ _ Hr) as (H1 & H2 & _).
  pose proof (repr_nodup _ _ _ Hr) as Hnd.
  apply NoDup_app in Hnd as (N1 & N12 & N2). apply NoDup_cons in N2 as [Np N2].
  destruct (link_prev h l1 p (list.head l2) H1 N1) as (h1 & E1 & S1 & R1).
  assert (Hd : forall q, q ∈ l2 -> q ∉ l1) by (intros q Hq Hq'; apply (N12 q Hq'); set_solver).
  destruct (link_next h1 l2 p (last l1)) as (h2 & E2 & S2 & R2); [|done|].
  { eapply dseg_frame; [|exact H2]. intros q Hq. apply (relinks_out _ _ _ R1). auto. }
  exists h1, h2. split; [done|]. split; [done|]. split.
  - apply dseg_app. rewrite hd_or_head, lst_or_last. split; [|done].
    eapply dseg_frame; [|exact S1]. intros q Hq. apply (relinks_out _ _ _ R2). intros Hq'.
    by apply (Hd q).
  - eapply relinks_trans; eapply relinks_mono; [|exact R1| |exact R2]; set_solver.
Qed.

(** The node keeps its contents while its neighbours change. *)
Lemma bypass_node h h' (l : list ptr) p n :
  relinks h h' l -> p ∉ l -> cells h !! p = Some n -> cells h' !! p = Some n.
Proof. intros Hr Hp <-. by apply (relinks_out _ _ _ Hr). Qed.

Lemma store_dseg h p n l pv nx : p ∉ l -> dseg h pv l nx -> dseg (store h p n) pv l nx.
Proof.
  intros Hp. apply dseg_frame. intros q Hq. cbn. rewrite lookup_insert_ne; [done|]. by intros ->.
Qed.

(** Clearing both links of a node. *)
Lemma clear_links h p n :
  cells h !! p = Some n ->
  exists h1 h', set_prev h p None = Ok h1 /\ set_next h1 p None = Ok h' /\
    cells h' !! p = Some (mkNode None None (element n)) /\ relinks h h' [p].
Proof.
  intros Hn. eexists _, _. rewrite (set_prev_ok _ _ _ _ Hn). split; [reflexivity|].
  erewrite set_next_ok; [|cbn; apply lookup_insert_eq]. cbn [prev element].
  split; [reflexivity|]. split; [cbn; apply lookup_insert_eq|].
  apply (relinks_trans _ (store h p (mkNode (next n) None (element n)))).
  - eapply store_relinks; [exact Hn|done|set_solver].
  - eapply store_relinks; [cbn; apply lookup_insert_eq|done|set_solver].
Qed.

(** A store through a neighbour that may not exist, or an update of the deque. *)
Lemma neighbour_step {D} (o : option ptr) (f : ptr -> res (heap T)) h (d d' : D) h1 :
  match o with Some a => f a | None => Ok h end = Ok h1 ->
  match o with Some a => h' ← f a; Ok (h', d) | None => Ok (h, d') end =
    Ok (h1, match o with Some _ => d | None => d' end).
Proof. destruct o; [by intros ->|by intros [= ->]]. Qed.

Lemma relinks_dseg h h' l pv l' nx :
  relinks h h' l -> (forall q, q ∈ l' -> q ∉ l) -> dseg h pv l' nx -> dseg h' pv l' nx.
Proof. intros Hr Hd. apply dseg_frame. intros q Hq. apply (relinks_out _ _ _ Hr). auto. Qed.

Lemma nodup_split l1 l2 p :
  NoDup (l1 ++ p :: l2) -> p ∉ l1 ++ l2 /\ NoDup (l1 ++ l2).
Proof.
  intros (N1 & N12 & N2)%NoDup_app. apply NoDup_cons in N2 as [Np N2]. split.
  - intros [Hq|Hq]%elem_of_app; [|done]. apply (N12 p Hq). left.
  - apply NoDup_app. split; [done|]. split; [|done]. set_solver.
Qed.

Lemma head_app_split l1 l2 (p : ptr) :
  list.head (l1 ++ l2) = match last l1 with Some _ => list.head (l1 ++ p :: l2) | None => list.head l2 end.
Proof. destruct l1 as [|q l1]; [done|]. rewrite last_cons. by destruct (last l1). Qed.

Lemma last_app_split l1 l2 (p : ptr) :
  last (l1 ++ l2) = match list.head l2 with Some _ => last (l1 ++ p :: l2) | None => last l1 end.
Proof.
  destruct l2 as [|q l2]; cbn [list.head]; [by rewrite app_nil_r|].
  rewrite !last_app, (last_cons p). by destruct (last (q :: l2)) eqn:E; [|apply last_None in E].
Qed.

(** ** The operations *)

Lemma unlink_spec h d l p :
  Repr h d l -> p ∈ l ->
  exists h' d', unlink h d p = Ok (h', d') /\ Repr h' d' (list_remove p l) /\ relinks h h' l /\
    (exists e, cells h' !! p = Some (mkNode None None e)) /\
    cursor d' = cursor_past l p (cursor d) /\ region d' = region d.
Proof.
  intros Hr Hp. apply list_elem_of_split in Hp as (l1 & l2 & ->).
  pose proof (repr_nodup _ _ _ Hr) as Hnd. destruct (nodup_split _ _ _ Hnd) as [Hp' Hnd'].
  rewrite list_remove_split by done.
  destruct (repr_split _ _ _ _ _ Hr) as (_ & _ & e & He).
  destruct (bypass _ _ _ _ _ Hr) as (h1 & h2 & E1 & E2 & Hs & Hrel).
  destruct (clear_links h2 p _ (bypass_node _ _ _ _ _ Hrel Hp' He))
    as (h3 & h4 & E3 & E4 & Hc & Hrel3).
  set (d' := mkDeque (region d) (len d - 1) (list.head (l1 ++ l2)) (last (l1 ++ l2))
                     (cursor_past (l1 ++ p :: l2) p (cursor d))).
  pose proof (repr_len _ _ _ Hr) as Hlen. rewrite length_app in Hlen. cbn [length] in Hlen.
  exists h4, d'. split; [|split; [|split; [|split; [eauto|done]]]].
  - unfold unlink. rewrite !(deref_ok _ _ _ He). cbn [mbind res_bind].
    rewrite (cursor_step _ _ _ _ _ Hr). cbn [mbind res_bind].
    cbn [mbind res_bind expect_some prev next].
    rewrite (neighbour_step _ _ _ _ _ _ E1). cbn [mbind res_bind].
    rewrite (neighbour_step _ _ _ _ _ _ E2). cbn [mbind res_bind].
    rewrite E3. cbn [mbind res_bind]. rewrite E4. cbn [mbind res_bind].
    rewrite checked_sub_ok by (destruct (last l1), (list.head l2); cbn; lia).
    cbn [mbind res_bind]. do 2 f_equal. unfold d'.
    rewrite (head_app_split l1 l2 p), (last_app_split l1 l2 p).
    rewrite <- (repr_head _ _ _ Hr), <- (repr_tail _ _ _ Hr).
    by destruct (last l1), (list.head l2).
  - split; [|done|done|done| |].
    + eapply relinks_dseg; [exact Hrel3| |done]. set_solver.
    + cbn. rewrite length_app. lia.
    + apply cursor_past_in; [done|apply Hr].
  - eapply relinks_trans; eapply relinks_mono; [|exact Hrel| |exact Hrel3]; set_solver.
Qed.

Lemma pop_front_spec h d l :
  Repr h d l ->
  exists h' d', pop_front h d = Ok (h', d', list.head l) /\ Repr h' d' (list.tail l) /\ relinks h h' l /\
    (forall p, list.head l = Some p -> exists e, cells h' !! p = Some (mkNode None None e)) /\
    cursor d' = match list.head l with Some p => cursor_past l p (cursor d) | None => cursor d end /\
    region d' = region d.
Proof.
  intros Hr. pose proof (repr_head _ _ _ Hr) as Hh. unfold pop_front. rewrite Hh.
  destruct l as [|p l2]; cbn [list.head list.tail].
  { exists h, d. split; [done|]. split; [done|]. split; [apply relinks_refl|]. done. }
  pose proof (repr_nodup _ _ _ Hr) as Hnd. destruct (nodup_split [] _ _ Hnd) as [Hp' Hnd'].
  destruct (repr_split _ _ [] _ _ Hr) as (_ & _ & e & He).
  destruct (bypass _ _ [] _ _ Hr) as (h1 & h2 & [= <-] & E2 & Hs & Hrel). cbn [last app] in *.
  destruct (clear_links h2 p _ (bypass_node _ _ _ _ _ Hrel Hp' He))
    as (h3 & h4 & E3 & E4 & Hc & Hrel3).
  set (d' := mkDeque (region d) (len d - 1) (list.head l2) (last l2)
                     (cursor_past (p :: l2) p (cursor d))).
  pose proof (repr_len _ _ _ Hr) as Hlen. cbn [length] in Hlen.
  exists h4, d'. split; [|split; [|split; [|split; [intros ? [= <-]; eauto|done]]]].
  - rewrite !(deref_ok _ _ _ He). cbn [mbind res_bind].
    rewrite (cursor_step _ _ [] _ _ Hr). cbn [mbind res_bind app].
    cbn [mbind res_bind expect_some prev next].
    rewrite (neighbour_step _ _ _ _ _ _ E2). cbn [mbind res_bind].
    rewrite checked_sub_ok by (destruct (list.head l2); cbn; lia). cbn [mbind res_bind].
    rewrite E3. cbn [mbind res_bind]. rewrite E4. cbn [mbind res_bind]. do 3 f_equal. unfold d'.
    destruct l2 as [|q l2]; cbn; [done|].
    unfold with_len, with_head, with_cursor; cbn. by rewrite (repr_tail _ _ _ Hr).
  - split; [|done|done|done| |].
    + eapply relinks_dseg; [exact Hrel3| |done]. set_solver.
    + cbn. lia.
    + apply (cursor_past_in []); [done|apply Hr].
  - eapply relinks_trans; eapply relinks_mono; [|exact Hrel| |exact Hrel3]; set_solver.
Qed.

(** Linking a node that is in no deque behind a segment. *)
Lemma attach_back h l p n :
  dseg h None l None -> NoDup l -> p ∉ l -> cells h !! p = Some n ->
  next n = None -> prev n = last l ->
  exists h', match last l with Some tl => set_next h tl (Some p) | None => Ok h end = Ok h' /\
    dseg h' None (l ++ [p]) None /\ relinks h h' l.
Proof.
  intros Hs Hnd Hp Hn Hnx Hpv. destruct n as [nx pv e]; cbn in *; subst.
  assert (H : exists h', match last l with Some tl => set_next h tl (Some p) | None => Ok h end = Ok h' /\
    dseg h' None l (Some p) /\ relinks h h' l).
  { destruct (last l) as [a|] eqn:E.
    - apply last_Some in E as [l0 ->].
      destruct (set_next_last h None l0 a None (Some p) Hs Hnd) as (h1 & -> & Hs1 & Hr).
      exists h1. split; [done|]. split; [done|]. eapply relinks_mono; [|exact Hr]. set_solver.
    - apply last_None in E as ->. exists h. split; [done|]. split; [done|apply relinks_refl]. }
  destruct H as (h' & -> & Hs' & Hr). exists h'. split; [done|]. split; [|done].
  apply dseg_app. cbn. split; [done|]. split; [|done]. exists e.
  rewrite (relinks_out _ _ _ Hr) by done. by rewrite lst_or_last.
Qed.

Lemma push_back_spec h d l p n :
  Repr h d l -> p ∉ l -> cells h !! p = Some n ->
  exists h' d', push_back h d p = Ok (h', d') /\ Repr h' d' (l ++ [p]) /\ relinks h h' (l ++ [p]) /\
    cursor d' = cursor d /\ region d' = region d.
Proof.
  intros Hr Hp Hn. set (h1 := store h p (mkNode None (prev n) (element n))).
  set (h2 := store h1 p (mkNode None (tail d) (element n))).
  assert (Hc2 : cells h2 !! p = Some (mkNode None (tail d) (element n)))
    by (cbn; apply lookup_insert_eq).
  assert (Hrel : relinks h h2 [p]).
  { apply (relinks_trans _ h1).
    - eapply store_relinks; [exact Hn|done|set_solver].
    - eapply store_relinks; [cbn; apply lookup_insert_eq|done|set_solver]. }
  assert (Hs2 : dseg h2 None l None)
    by (eapply relinks_dseg; [exact Hrel|set_solver|apply Hr]).
  destruct (attach_back h2 l p _ Hs2 (repr_nodup _ _ _ Hr) Hp Hc2 eq_refl (repr_tail _ _ _ Hr))
    as (h3 & E3 & Hs3 & Hrel3).
  set (d' := mkDeque (region d) (len d + 1) (list.head (l ++ [p])) (Some p) (cursor d)).
  exists h3, d'. split; [|split; [|split; [|done]]].
  - unfold push_back. rewrite (set_next_ok _ _ _ _ Hn). cbn [mbind res_bind]. fold h1.
    erewrite set_prev_ok; [|cbn; apply lookup_insert_eq]. cbn [mbind res_bind next element].
    fold h2. rewrite (repr_tail _ _ _ Hr). rewrite (neighbour_step _ _ _ _ _ _ E3).
    cbn [mbind res_bind]. do 2 f_equal. unfold d', with_len, with_tail.
    rewrite (head_app_split l [p] p). destruct (last l) eqn:El; cbn [len head tail region cursor with_head].
    + rewrite (repr_head _ _ _ Hr). destruct l; done.
    + done.
  - split; cbn; [done| |done|by rewrite last_snoc| |].
    + apply NoDup_app. split; [apply Hr|]. split; [set_solver|]. apply NoDup_singleton.
    + rewrite length_app, (repr_len _ _ _ Hr). cbn. lia.
    + pose proof (repr_cursor _ _ _ Hr) as Hc. destruct (cursor d) as [[q|]|]; cbn in *; set_solver.
  - eapply relinks_trans; eapply relinks_mono; [|exact Hrel| |exact Hrel3]; set_solver.
Qed.

(** The list after [move_to_back], and the cursor. *)
Definition moved_to_back (p : ptr) (l : list ptr) : list ptr :=
  if decide (last l = Some p) then l else list_remove p l ++ [p].
Definition moved_cursor (p : ptr) (l : list ptr) (c : option DeqCursor) : option DeqCursor :=
  if decide (last l = Some p) then c else cursor_past l p c.

Lemma move_to_back_spec h d l p :
  Repr h d l -> p ∈ l ->
  exists h' d', move_to_back h d p = Ok (h', d') /\ Repr h' d' (moved_to_back p l) /\
    relinks h h' l /\ cursor d' = moved_cursor p l (cursor d) /\ region d' = region d.
Proof.
  intros Hr Hp. unfold move_to_back, moved_to_back, moved_cursor, is_tail.
  destruct (dseg_lookup _ _ _ _ _ (repr_seg _ _ _ Hr) Hp) as [n0 Hn0].
  rewrite !(deref_ok _ _ _ Hn0). cbn [mbind res_bind].
  rewrite (repr_tail _ _ _ Hr). destruct (decide (last l = Some p)) as [Hlast|Hlast].
  { rewrite bool_decide_true by done. exists h, d. split; [done|]. split; [done|].
    split; [apply relinks_refl|done]. }
  rewrite bool_decide_false by done.
  apply list_elem_of_split in Hp as (l1 & l2 & ->).
  pose proof (repr_nodup _ _ _ Hr) as Hnd. destruct (nodup_split _ _ _ Hnd) as [Hp' Hnd'].
  rewrite list_remove_split by done.
  destruct (repr_split _ _ _ _ _ Hr) as (_ & _ & e & He). rewrite Hn0 in He.
  injection He as ->. rename Hn0 into He.
  destruct l2 as [|b l2]; [by rewrite last_snoc in Hlast|].
  destruct (bypass _ _ _ _ _ Hr) as (h1 & h2 & E1 & E2 & Hs & Hrel). cbn [list.head] in *.
  assert (Htl : last (l1 ++ p :: b :: l2) = last (l1 ++ b :: l2)) by (by rewrite (last_app_split _ (b :: l2) p)).
  pose proof (bypass_node _ _ _ _ _ Hrel Hp' He) as Hn2.
  set (h3 := store h2 p (mkNode (Some b) (last (l1 ++ b :: l2)) e)).
  set (h4 := store h3 p (mkNode None (last (l1 ++ b :: l2)) e)).
  assert (Hc4 : cells h4 !! p = Some (mkNode None (last (l1 ++ b :: l2)) e))
    by (cbn; apply lookup_insert_eq).
  assert (Hrel4 : relinks h2 h4 [p]).
  { apply (relinks_trans _ h3).
    - eapply store_relinks; [exact Hn2|done|set_solver].
    - eapply store_relinks; [cbn; apply lookup_insert_eq|done|set_solver]. }
  assert (Hs4 : dseg h4 None (l1 ++ b :: l2) None)
    by (eapply relinks_dseg; [exact Hrel4|set_solver|done]).
  destruct (attach_back h4 _ p _ Hs4 Hnd' Hp' Hc4 eq_refl eq_refl) as (h5 & E5 & Hs5 & Hrel5).
  set (d' := mkDeque (region d) (len d) (list.head ((l1 ++ b :: l2) ++ [p])) (Some p)
                     (cursor_past (l1 ++ p :: b :: l2) p (cursor d))).
  exists h5, d'. split; [|split; [|split; [|done]]].
  - rewrite (cursor_step _ _ _ _ _ Hr). cbn [mbind res_bind].
    cbn [mbind res_bind expect_some prev next list.head].
    rewrite (neighbour_step _ _ _ _ _ _ E1). cbn [mbind res_bind].
    rewrite E2. cbn [mbind res_bind].
    assert (Ht : tail match last l1 with
      | Some _ => with_cursor d (cursor_past (l1 ++ p :: b :: l2) p (cursor d))
      | None => with_head (with_cursor d (cursor_past (l1 ++ p :: b :: l2) p (cursor d))) (Some b)
      end = last (l1 ++ b :: l2)).
    { rewrite <- Htl, <- (repr_tail _ _ _ Hr). by destruct (last l1). }
    rewrite Ht. rewrite (set_prev_ok _ _ _ _ Hn2). cbn [mbind res_bind next element]. fold h3.
    erewrite set_next_ok; [|cbn; apply lookup_insert_eq]. cbn [mbind res_bind prev element]. fold h4.
    destruct (last (l1 ++ b :: l2)) as [t|] eqn:Et;
      [|by apply last_None in Et; destruct l1].
    rewrite E5. cbn [mbind res_bind]. do 2 f_equal. unfold d', with_tail.
    rewrite <- app_assoc. cbn [app].
    replace (list.head (l1 ++ b :: l2 ++ [p])) with
      (match last l1 with Some _ => head d | None => Some b end).
    { by destruct (last l1). }
    rewrite (repr_head _ _ _ Hr). destruct l1 as [|q l1]; [done|]. rewrite last_cons.
    by destruct (last l1).
  - split; cbn; [done| |done|by rewrite last_snoc| |].
    + apply NoDup_app. split; [done|]. split; [set_solver|]. apply NoDup_singleton.
    + rewrite (repr_len _ _ _ Hr), !length_app. cbn. lia.
    + pose proof (cursor_past_in l1 (b :: l2) p (cursor d) Hnd (repr_cursor _ _ _ Hr)) as Hc.
      destruct (cursor_past _ _ _) as [[q|]|]; cbn in *; set_solver.
  - apply (relinks_trans _ h2); [eapply relinks_mono; [|exact Hrel]; set_solver|].
    apply (relinks_trans _ h4); [eapply relinks_mono; [|exact Hrel4]; set_solver|].
    eapply relinks_mono; [|exact Hrel5]; set_solver.
Qed.

Lemma move_front_to_back_spec h d l :
  Repr h d l ->
  exists h' d', move_front_to_back h d = Ok (h', d') /\
    Repr h' d' (match list.head l with Some p => moved_to_back p l | None => l end) /\
    relinks h h' l /\ region d' = region d /\
    cursor d' = match list.head l with Some p => moved_cursor p l (cursor d) | None => cursor d end.
Proof.
  intros Hr. unfold move_front_to_back. rewrite (repr_head _ _ _ Hr).
  destruct l as [|p l]; cbn [list.head].
  - exists h, d. split; [done|]. split; [done|]. split; [apply relinks_refl|done].
  - destruct (move_to_back_spec h d (p :: l) p) as (h' & d' & E & Hr' & Hrel & Hc & Hreg);
      [done|set_solver|]. eauto 10.
Qed.

Lemma contains_linked h d l p : Repr h d l -> p ∈ l -> contains h d p = Ok true.
Proof.
  intros Hr Hp. apply list_elem_of_split in Hp as (l1 & l2 & ->).
  destruct (repr_split _ _ _ _ _ Hr) as (_ & _ & e & He).
  unfold contains. rewrite (deref_ok _ _ _ He). cbn [mbind res_bind prev].
  unfold is_head. rewrite (repr_head _ _ _ Hr). do 2 f_equal.
  destruct l1 as [|q l1]; cbn [app list.head last].
  - by rewrite (bool_decide_true (Some p = Some p)), orb_true_r.
  - rewrite bool_decide_true; [done|]. by destruct l1 as [|? ?]; [|apply last_is_Some].
Qed.

Lemma contains_unlinked h d l p e :
  Repr h d l -> p ∉ l -> cells h !! p = Some (mkNode None None e) -> contains h d p = Ok false.
Proof.
  intros Hr Hp He. unfold contains. rewrite (deref_ok _ _ _ He). cbn [mbind res_bind prev].
  rewrite bool_decide_false by (by intros []). unfold is_head. rewrite (repr_head _ _ _ Hr).
  rewrite bool_decide_false; [done|]. intros Hh. apply Hp. destruct l; [done|].
  injection Hh as ->. left.
Qed.

Lemma succ_in_elem l p q : succ_in l p = Some q -> q ∈ l.
Proof.
  induction l as [|x l IH]; cbn; [done|]. case_decide.
  - destruct l; [done|]. intros [= <-]. set_solver.
  - intros H'. right. auto.
Qed.

Lemma advance_cursor_spec h d l :
  Repr h d l -> advance_cursor h d = Ok (with_cursor d (advanced l (cursor d))) /\
    cursor_in l (advanced l (cursor d)).
Proof.
  intros Hr. pose proof (repr_cursor _ _ _ Hr) as Hc. unfold advance_cursor, advanced.
  destruct (cursor d) as [[p|]|] eqn:Ec; cbn in Hc; [| |by destruct d; cbn in *; subst].
  - pose proof Hc as Hp. apply list_elem_of_split in Hp as (l1 & l2 & ->).
    destruct (repr_split _ _ _ _ _ Hr) as (_ & _ & e & He).
    rewrite (deref_ok _ _ _ He). cbn [mbind res_bind next].
    rewrite succ_in_split by apply Hr. split; [done|].
    destruct l2; cbn; [done|set_solver].
  - done.
Qed.

(** Where the next element is read: the cursor, or the front when it is unset. *)
Definition read_cursor (l : list ptr) (c : option DeqCursor) : option DeqCursor :=
  match c with None => CursorNode <$> list.head l | Some _ => c end.

Lemma with_cursor_repr h d l c : Repr h d l -> cursor_in l c -> Repr h (with_cursor d c) l.
Proof. intros [] Hc. by split. Qed.

Lemma iter_next_spec h d l :
  Repr h d l ->
  exists e, iter_next h d = Ok (with_cursor d (advanced l (read_cursor l (cursor d))), e) /\
    e = match read_cursor l (cursor d) with
        | Some (CursorNode p) => element <$> cells h !! p
        | _ => None end /\
    cursor_in l (advanced l (read_cursor l (cursor d))).
Proof.
  intros Hr. unfold iter_next.
  set (d0 := match cursor d with None => _ | Some _ => d end).
  assert (Hd0 : d0 = with_cursor d (read_cursor l (cursor d)) /\ cursor_in l (read_cursor l (cursor d))).
  { pose proof (repr_cursor _ _ _ Hr) as Hc. unfold d0, read_cursor.
    destruct (cursor d) as [c|] eqn:Ec; [by destruct d; cbn in *; subst|].
    rewrite (repr_head _ _ _ Hr). destruct l; cbn; [by destruct d; cbn in *; subst|].
    split; [done|]. set_solver. }
  clearbody d0. destruct Hd0 as [-> Hin].
  pose proof (with_cursor_repr h d l _ Hr Hin) as Hr0.
  destruct (advance_cursor_spec _ _ _ Hr0) as [Ha Hin']. cbn [cursor with_cursor] in *.
  assert (He : exists e, match read_cursor l (cursor d) with
      | Some (CursorNode p) => n ← deref h p; Ok (Some (element n))
      | _ => Ok None end = Ok e /\
      e = match read_cursor l (cursor d) with
        | Some (CursorNode p) => element <$> cells h !! p | _ => None end).
  { destruct (read_cursor l (cursor d)) as [[p|]|]; [|eauto..].
    destruct (dseg_lookup _ _ _ _ p (repr_seg _ _ _ Hr) Hin) as [n Hn].
    rewrite (deref_ok _ _ _ Hn), Hn. cbn. eauto. }
  destruct He as (e & -> & He). cbn [mbind res_bind]. rewrite Ha. cbn [mbind res_bind].
  exists e. done.
Qed.

Lemma drop_node_ok h p n :
  cells h !! p = Some n -> drop_node h p = Ok (mkHeap (delete p (cells h)) (next_loc h)).
Proof. intros Hn. unfold drop_node. by rewrite (deref_ok _ _ _ Hn). Qed.

(** A deque does not see changes outside its nodes. *)
Lemma repr_frame h h' d l :
  (forall p, p ∈ l -> cells h' !! p = cells h !! p) -> Repr h d l -> Repr h' d l.
Proof. intros Heq []. split; try done. by eapply dseg_frame. Qed.

Lemma repr_relinks h h' d l l' :
  relinks h h' l' -> (forall p, p ∈ l -> p ∉ l') -> Repr h d l -> Repr h' d l.
Proof. intros Hr Hd. apply repr_frame. intros p Hp. apply (relinks_out _ _ _ Hr). auto. Qed.

Lemma new_node_fresh h e l d :
  heap_wf h -> Repr h d l -> next_loc h ∉ l /\ Repr (fst (new_node h e)) d l.
Proof.
  intros Hwf Hr. assert (Hn : next_loc h ∉ l).
  { intros Hin. destruct (dseg_lookup _ _ _ _ _ (repr_seg _ _ _ Hr) Hin) as [n Hn].
    apply Hwf in Hn. lia. }
  split; [done|]. eapply repr_frame; [|exact Hr]. intros p Hp. cbn.
  rewrite lookup_insert_ne; [done|]. by intros <-.
Qed.

Lemma new_node_wf h e : heap_wf h -> heap_wf (fst (new_node h e)).
Proof.
  intros Hwf p n. cbn. destruct (decide (next_loc h = p)) as [<-|]; [lia|].
  rewrite lookup_insert_ne by done. intros Hn%Hwf. lia.
Qed.

Lemma relinks_wf h h' l : relinks h h' l -> heap_wf h -> heap_wf h'.
Proof.
  intros Hr Hwf p n Hn. rewrite (relinks_loc _ _ _ Hr).
  pose proof (relinks_elem _ _ _ Hr p) as He. rewrite Hn in He. cbn in He.
  destruct (cells h !! p) as [n0|] eqn:E; [|done]. by eapply Hwf.
Qed.

Lemma drop_wf h p : heap_wf h -> heap_wf (mkHeap (delete p (cells h)) (next_loc h)).
Proof. intros Hwf q n. cbn. intros [_ Hn]%lookup_delete_Some. by eapply Hwf. Qed.

Lemma unlink_and_drop_spec h d l p :
  Repr h d l -> p ∈ l ->
  exists h' d', unlink_and_drop h d p = Ok (h', d') /\ Repr h' d' (list_remove p l) /\
    next_loc h' = next_loc h /\ cells h' !! p = None /\
    (forall q, q ∉ l -> cells h' !! q = cells h !! q) /\
    (forall q, q <> p -> element <$> cells h' !! q = element <$> cells h !! q) /\
    cursor d' = cursor_past l p (cursor d) /\ region d' = region d.
Proof.
  intros Hr Hp. destruct (unlink_spec h d l p Hr Hp)
    as (h1 & d1 & E & Hr1 & Hrel & (e & He) & Hc & Hreg).
  unfold unlink_and_drop. rewrite E. cbn [mbind res_bind].
  rewrite (drop_node_ok _ _ _ He). cbn [mbind res_bind].
  eexists _, _. split; [reflexivity|]. split; [|split; [|split; [|split; [|split; [|done]]]]]; cbn.
  - eapply repr_frame; [|exact Hr1]. intros q Hq. cbn. rewrite lookup_delete_ne; [done|].
    apply list_elem_of_filter in Hq as [? _]. congruence.
  - apply Hrel.
  - apply lookup_delete_eq.
  - intros q Hq. rewrite lookup_delete_ne by (by intros ->). by apply Hrel.
  - intros q Hq. rewrite lookup_delete_ne by done. apply Hrel.
Qed.
End facts.

(** ** The list a deque implements, as a state machine

    Operations a client performs on one deque, on the heap and on the list.  The
    list machine is stuck ([None]) where the client breaks its obligation: a
    pointer that is not in the deque. *)
Inductive dop (T : Type) :=
| PushBack (e : T)
| PopFront
| MoveToBack (p : ptr)
| MoveFrontToBack
| UnlinkAndDrop (p : ptr)
| Contains (p : ptr)
| IterNext
| ResetCursor.
Arguments PushBack {T} _.
Arguments PopFront {T}.
Arguments MoveToBack {T} _.
Arguments MoveFrontToBack {T}.
Arguments UnlinkAndDrop {T} _.
Arguments Contains {T} _.
Arguments IterNext {T}.
Arguments ResetCursor {T}.

Inductive dout (T : Type) :=
| OUnit
| OPtr (p : ptr)
| OElem (e : option T)
| OBool (b : bool).
Arguments OUnit {T}.
Arguments OPtr {T} _.
Arguments OElem {T} _.
Arguments OBool {T} _.

Section machine.
Context {T : Type}.

(** [PopFront] returns the element of the popped box and drops the box. *)
Definition exec (h : heap T) (d : Deque) (o : dop T) : res (heap T * Deque * dout T) :=
  match o with
  | PushBack e =>
      let '(h, p) := new_node h e in
      '(h, d) ← push_back h d p; Ok (h, d, OPtr p)
  | PopFront =>
      '(h, d, popped) ← pop_front h d;
      match popped with
      | Some p => n ← deref h p; h ← drop_node h p; Ok (h, d, OElem (Some (element n)))
      | None => Ok (h, d, OElem None)
      end
  | MoveToBack p => '(h, d) ← move_to_back h d p; Ok (h, d, OUnit)
  | MoveFrontToBack => '(h, d) ← move_front_to_back h d; Ok (h, d, OUnit)
  | UnlinkAndDrop p => '(h, d) ← unlink_and_drop h d p; Ok (h, d, OUnit)
  | Contains p => b ← contains h d p; Ok (h, d, OBool b)
  | IterNext => '(d, e) ← iter_next h d; Ok (h, d, OElem e)
  | ResetCursor => Ok (h, reset_cursor d, OUnit)
  end.

Fixpoint exec_all (h : heap T) (d : Deque) (os : list (dop T))
    : res (heap T * Deque * list (dout T)) :=
  match os with
  | [] => Ok (h, d, [])
  | o :: os' =>
      '(h, d, x) ← exec h d o;
      '(h, d, xs) ← exec_all h d os';
      Ok (h, d, x :: xs)
  end.

(** The list machine: nodes in order, their elements, the cursor. *)
Record lstate := mkL {
  l_nodes : list ptr;
  l_elem : gmap ptr T;
  l_cursor : option DeqCursor;
  l_next : ptr
}.

Definition l_move (p : ptr) (s : lstate) : lstate :=
  mkL (moved_to_back p (l_nodes s)) (l_elem s) (moved_cursor p (l_nodes s) (l_cursor s)) (l_next s).
Definition l_remove (p : ptr) (s : lstate) : lstate :=
  mkL (list_remove p (l_nodes s)) (delete p (l_elem s))
      (cursor_past (l_nodes s) p (l_cursor s)) (l_next s).

Definition lexec (s : lstate) (o : dop T) : option (lstate * dout T) :=
  let l := l_nodes s in
  match o with
  | PushBack e =>
      Some (mkL (l ++ [l_next s]) (<[l_next s := e]> (l_elem s)) (l_cursor s) (Pos.succ (l_next s)),
            OPtr (l_next s))
  | PopFront =>
      match list.head l with
      | Some p => Some (l_remove p s, OElem (l_elem s !! p))
      | None => Some (s, OElem None)
      end
  | MoveToBack p => if decide (p ∈ l) then Some (l_move p s, OUnit) else None
  | MoveFrontToBack =>
      match list.head l with Some p => Some (l_move p s, OUnit) | None => Some (s, OUnit) end
  | UnlinkAndDrop p => if decide (p ∈ l) then Some (l_remove p s, OUnit) else None
  | Contains p => if decide (p ∈ l) then Some (s, OBool true) else None
  | IterNext =>
      let c := read_cursor l (l_cursor s) in
      Some (mkL l (l_elem s) (advanced l c) (l_next s),
            OElem (match c with Some (CursorNode p) => l_elem s !! p | _ => None end))
  | ResetCursor => Some (mkL l (l_elem s) None (l_next s), OUnit)
  end.

Fixpoint lexec_all (s : lstate) (os : list (dop T)) : option (lstate * list (dout T)) :=
  match os with
  | [] => Some (s, [])
  | o :: os' =>
      match lexec s o with
      | Some (s, x) =>
          match lexec_all s os' with Some (s, xs) => Some (s, x :: xs) | None => None end
      | None => None
      end
  end.

(** The simulation relation. *)
Record sim (s : lstate) (h : heap T) (d : Deque) : Prop := {
  sim_repr : Repr h d (l_nodes s);
  sim_elem : forall p, p ∈ l_nodes s -> element <$> cells h !! p = l_elem s !! p;
  sim_cursor : cursor d = l_cursor s;
  sim_wf : heap_wf h;
  sim_next : next_loc h = l_next s
}.

Lemma list_remove_in p q (l : list ptr) : q ∈ list_remove p l <-> q <> p /\ q ∈ l.
Proof. unfold list_remove. by rewrite list_elem_of_filter. Qed.

Lemma moved_in p q (l : list ptr) : p ∈ l -> q ∈ moved_to_back p l <-> q ∈ l.
Proof.
  intros Hp. unfold moved_to_back. case_decide; [done|].
  rewrite elem_of_app, list_elem_of_singleton, list_remove_in.
  destruct (decide (q = p)); naive_solver.
Qed.

Lemma sim_move s h d p h' d' :
  sim s h d -> p ∈ l_nodes s -> Repr h' d' (moved_to_back p (l_nodes s)) ->
  relinks h h' (l_nodes s) -> cursor d' = moved_cursor p (l_nodes s) (cursor d) ->
  sim (l_move p s) h' d'.
Proof.
  intros [Hr He Hc Hw Hn] Hp Hr' Hrel Hc'. split; cbn; [done| | | |].
  - intros q Hq. rewrite moved_in in Hq by done. rewrite (relinks_elem _ _ _ Hrel). auto.
  - by rewrite Hc', Hc.
  - by eapply relinks_wf.
  - by rewrite (relinks_loc _ _ _ Hrel).
Qed.

Lemma list_remove_head p l : NoDup (p :: l) -> list_remove p (p :: l) = l.
Proof. apply (list_remove_split [] l). Qed.

Lemma exec_simulates s h d o s' x :
  sim s h d -> lexec s o = Some (s', x) ->
  exists h' d', exec h d o = Ok (h', d', x) /\ sim s' h' d'.
Proof.
  intros Hsim Hl. pose proof Hsim as [Hr He Hc Hw Hn].
  destruct o as [e| |p| |p|p| |]; cbn [lexec exec] in *.
  - injection Hl as <- <-. unfold new_node. rewrite Hn.
    destruct (new_node_fresh h e _ _ Hw Hr) as [Hfresh Hr1]. pose proof (new_node_wf h e Hw) as Hw1.
    unfold new_node in Hr1, Hw1. rewrite Hn in *. cbn [fst] in *.
    destruct (push_back_spec _ d (l_nodes s) (l_next s) (mkNode None None e) Hr1)
      as (h' & d' & -> & Hr' & Hrel & Hc' & _); [done|cbn; apply lookup_insert_eq|].
    cbn [mbind res_bind]. exists h', d'. split; [done|]. split; cbn; [done| | | |].
    + intros q Hq. rewrite (relinks_elem _ _ _ Hrel). cbn. destruct (decide (l_next s = q)) as [<-|].
      * by rewrite !lookup_insert_eq.
      * rewrite !lookup_insert_ne by done. apply He. set_solver.
    + congruence.
    + by eapply relinks_wf.
    + by rewrite (relinks_loc _ _ _ Hrel).
  - destruct (pop_front_spec h d _ Hr) as (h' & d' & -> & Hr' & Hrel & Hcell & Hc' & _).
    cbn [mbind res_bind]. destruct (l_nodes s) as [|p l] eqn:El; cbn [list.head list.tail] in *.
    { injection Hl as <- <-. exists h', d'. split; [done|]. split; rewrite ?El; cbn; try done.
      - intros q Hq. set_solver.
      - congruence.
      - by eapply relinks_wf.
      - by rewrite (relinks_loc _ _ _ Hrel). }
    injection Hl as <- <-. destruct (Hcell p eq_refl) as [e Hcp].
    rewrite (deref_ok _ _ _ Hcp). cbn [mbind res_bind]. rewrite (drop_node_ok _ _ _ Hcp).
    cbn [mbind res_bind element].
    assert (Hep : Some e = l_elem s !! p).
    { rewrite <- He by set_solver. rewrite <- (relinks_elem _ _ _ Hrel), Hcp. done. }
    rewrite <- Hep. eexists _, _. split; [reflexivity|].
    pose proof (repr_nodup _ _ _ Hr) as Hnd. apply NoDup_cons in Hnd as [Hpl Hnd].
    split; cbn; rewrite ?El, ?list_remove_head by apply Hr.
    + eapply repr_frame; [|exact Hr']. intros q Hq. cbn. rewrite lookup_delete_ne by (by intros <-). done.
    + intros q Hq. rewrite !lookup_delete_ne by (by intros <-).
      rewrite (relinks_elem _ _ _ Hrel). apply He. set_solver.
    + by rewrite Hc', Hc.
    + apply drop_wf. by eapply relinks_wf.
    + by rewrite (relinks_loc _ _ _ Hrel).
  - case_decide as Hp; [|done]. injection Hl as <- <-.
    destruct (move_to_back_spec h d _ p Hr Hp) as (h' & d' & -> & Hr' & Hrel & Hc' & _).
    exists h', d'. split; [done|]. by eapply sim_move.
  - destruct (move_front_to_back_spec h d _ Hr) as (h' & d' & -> & Hr' & Hrel & _ & Hc').
    cbn [mbind res_bind]. exists h', d'.
    destruct (list.head (l_nodes s)) as [p|] eqn:Eh; injection Hl as <- <-; (split; [done|]).
    + eapply sim_move; try done. destruct (l_nodes s); [done|]. injection Eh as ->. left.
    + destruct (l_nodes s) eqn:El; [|done]. split; rewrite ?El; try done.
      * intros q Hq. set_solver.
      * congruence.
      * by eapply relinks_wf.
      * by rewrite (relinks_loc _ _ _ Hrel).
  - case_decide as Hp; [|done]. injection Hl as <- <-.
    destruct (unlink_and_drop_spec h d _ p Hr Hp)
      as (h' & d' & -> & Hr' & Hloc & Hcp & _ & Hel & Hc' & _).
    exists h', d'. split; [done|]. split; cbn; [done| | | |].
    + intros q [Hq1 Hq2]%list_remove_in. rewrite Hel, lookup_delete_ne by done. auto.
    + by rewrite Hc', Hc.
    + intros q n Hq. rewrite Hloc. destruct (decide (q = p)) as [->|]; [congruence|].
      specialize (Hel q ltac:(done)). rewrite Hq in Hel. cbn in Hel.
      destruct (cells h !! q) eqn:E; [|done]. by eapply Hw.
    + congruence.
  - case_decide as Hp; [|done]. injection Hl as <- <-.
    rewrite (contains_linked _ _ _ _ Hr Hp). exists h, d. done.
  - injection Hl as <- <-. destruct (iter_next_spec h d _ Hr) as (e & -> & -> & Hin).
    rewrite Hc in *. cbn [mbind res_bind]. eexists h, _. split.
    + do 3 f_equal. destruct (read_cursor (l_nodes s) (l_cursor s)) as [[p|]|] eqn:Er; [|done..].
      apply He. unfold read_cursor in Er. pose proof (repr_cursor _ _ _ Hr) as Hin0. rewrite Hc in Hin0.
      destruct (l_cursor s) as [c|]; [by injection Er as ->|].
      destruct (l_nodes s); [done|]. injection Er as ->. left.
    + split; cbn; try done. by apply with_cursor_repr.
  - injection Hl as <- <-. exists h, (reset_cursor d). split; [done|]. split; cbn; try done.
    by apply with_cursor_repr.
Qed.

Lemma exec_all_simulates os s h d s' xs :
  sim s h d -> lexec_all s os = Some (s', xs) ->
  exists h' d', exec_all h d os = Ok (h', d', xs) /\ sim s' h' d'.
Proof.
  revert s h d xs; induction os as [|o os IH]; intros s h d xs Hsim Hl; cbn in *.
  { injection Hl as <- <-. eauto. }
  destruct (lexec s o) as [[s1 x]|] eqn:E; [|done].
  destruct (lexec_all s1 os) as [[s2 ys]|] eqn:E2; [|done]. injection Hl as <- <-.
  destruct (exec_simulates _ _ _ _ _ _ Hsim E) as (h1 & d1 & -> & Hsim1). cbn.
  destruct (IH _ _ _ _ Hsim1 E2) as (h2 & d2 & -> & Hsim2). cbn. eauto.
Qed.

Lemma empty_sim (r : CacheRegion) : sim (mkL [] ∅ None 1%positive) empty_heap (new_deque r).
Proof.
  split; cbn; [|intros p Hp; by apply elem_of_nil in Hp|done|done|done].
  split; cbn; try done. constructor.
Qed.

(** C25. Refinement: from a new deque, any sequence of operations whose pointer
    arguments are in the deque at that point (the list machine is not stuck)
    runs without a fault (no dangling access, no length underflow, no
    [unreachable!]) and returns exactly what the same sequence returns on the
    list of nodes; the final deque represents the final list, cursor included. *)
Theorem deque_refines_list r os s' xs :
  lexec_all (mkL [] ∅ None 1%positive) os = Some (s', xs) ->
  exists h' d', exec_all empty_heap (new_deque r) os = Ok (h', d', xs) /\
    Repr h' d' (l_nodes s') /\ cursor d' = l_cursor s' /\
    forall p, p ∈ l_nodes s' -> element <$> cells h' !! p = l_elem s' !! p.
Proof.
  intros Hl. destruct (exec_all_simulates _ _ _ _ _ _ (empty_sim r) Hl) as (h' & d' & E & []).
  exists h', d'. done.
Qed.
End machine.

Section traversal.
Context {T : Type}.

(** [impl Drop for Deque]: pops and drops until the deque is empty.  The fuel,
    one more than [len], is enough ([drop_deque_frees]). *)
Fixpoint drop_loop (fuel : nat) (h : heap T) (d : Deque) : res (heap T) :=
  match fuel with
  | O => Ok h
  | S fuel' =>
      '(h, d, popped) ← pop_front h d;
      match popped with
      | Some p => h ← drop_node h p; drop_loop fuel' h d
      | None => Ok h
      end
  end.
Definition drop_deque (h : heap T) (d : Deque) : res (heap T) :=
  drop_loop (S (Z.to_nat (len d))) h d.

(** Calls [Iterator::next] [n] times and collects what it returns. *)
Fixpoint iter_times (n : nat) (h : heap T) (d : Deque) : res (Deque * list (option T)) :=
  match n with
  | O => Ok (d, [])
  | S n' =>
      '(d, e) ← iter_next h d;
      '(d, es) ← iter_times n' h d;
      Ok (d, e :: es)
  end.

Lemma drop_loop_S fuel h d :
  drop_loop (S fuel) h d =
    ('(h, d, popped) ← pop_front h d;
     match popped with
     | Some p => h ← drop_node h p; drop_loop fuel h d
     | None => Ok h
     end).
Proof. done. Qed.

(** Dropping a deque frees exactly its nodes, whatever their number and
    wherever the cursor stands, and terminates. *)
Theorem drop_deque_frees (h : heap T) d l :
  Repr h d l ->
  exists h', drop_deque h d = Ok h' /\ (forall p, p ∈ l -> cells h' !! p = None) /\
    (forall p, p ∉ l -> cells h' !! p = cells h !! p).
Proof.
  intros Hr. unfold drop_deque. rewrite (repr_len _ _ _ Hr), Nat2Z.id.
  revert h d Hr; induction l as [|p l IH]; intros h d Hr; cbn [length]; rewrite drop_loop_S;
    destruct (pop_front_spec h d _ Hr) as (h1 & d1 & -> & Hr1 & Hrel & Hcell & _);
    cbn [mbind res_bind list.head list.tail] in *.
  { exists h1. split; [done|]. split; [set_solver|]. intros p Hp. by apply Hrel. }
  destruct (Hcell p eq_refl) as [e He]. rewrite (drop_node_ok _ _ _ He). cbn [mbind res_bind].
  pose proof (repr_nodup _ _ _ Hr) as Hnd. apply NoDup_cons in Hnd as [Hp _].
  destruct (IH (mkHeap (delete p (cells h1)) (next_loc h1)) d1) as (h2 & -> & Hin & Hout).
  { eapply repr_frame; [|exact Hr1]. intros q Hq. cbn. rewrite lookup_delete_ne by (by intros <-). done. }
  exists h2. split; [done|]. split.
  - intros q [->|Hq]%elem_of_cons; [|auto]. rewrite Hout by done. cbn. apply lookup_delete_eq.
  - intros q Hq. rewrite Hout by set_solver. cbn. rewrite lookup_delete_ne by set_solver.
    apply Hrel. set_solver.
Qed.

Lemma advanced_split l1 p l2 :
  NoDup (l1 ++ p :: l2) ->
  advanced (l1 ++ p :: l2) (Some (CursorNode p)) =
    Some (match l2 with q :: _ => CursorNode q | [] => CursorDone end).
Proof. intros Hnd. cbn. rewrite succ_in_split by done. by destruct l2. Qed.

Lemma iter_suffix (h : heap T) d l1 l2 es :
  Repr h d (l1 ++ l2) ->
  cursor d = (match l2 with q :: _ => Some (CursorNode q) | [] => Some CursorDone end) ->
  Forall2 (fun p e => element <$> cells h !! p = Some e) l2 es ->
  iter_times (S (length l2)) h d = Ok (with_cursor d None, map Some es ++ [None]).
Proof.
  revert d l1 es; induction l2 as [|p l2 IH]; intros d l1 es Hr Hc Hes.
  - apply Forall2_nil_inv_l in Hes as ->. cbn [length iter_times].
    destruct (iter_next_spec h d _ Hr) as (e & -> & -> & _). rewrite Hc. reflexivity.
  - apply Forall2_cons_inv_l in Hes as (e & es' & He & Hes & ->).
    change (iter_times (S (length (p :: l2))) h d) with
      ('(d, e) ← iter_next h d; '(d, es) ← iter_times (S (length l2)) h d; Ok (d, e :: es)).
    destruct (iter_next_spec h d _ Hr) as (e' & -> & -> & Hin). rewrite Hc in *.
    cbn [read_cursor mbind res_bind] in *. rewrite advanced_split in * by apply Hr.
    erewrite (IH _ (l1 ++ [p]) es').
    + cbn [mbind res_bind map app]. rewrite He. reflexivity.
    + rewrite <- app_assoc. by apply with_cursor_repr.
    + cbn. by destruct l2.
    + done.
Qed.

(** With the cursor unset, calling [next] once more than the deque has nodes
    returns every element exactly once, front to back, then [None], and leaves
    the cursor unset again. *)
Theorem iter_visits_in_order (h : heap T) d l es :
  Repr h d l -> cursor d = None -> l <> [] ->
  Forall2 (fun p e => element <$> cells h !! p = Some e) l es ->
  iter_times (S (length l)) h d = Ok (d, map Some es ++ [None]).
Proof.
  intros Hr Hc Hne Hes. destruct l as [|p l]; [done|].
  set (d0 := with_cursor d (Some (CursorNode p))).
  assert (H : iter_times (S (length (p :: l))) h d0 = Ok (with_cursor d0 None, map Some es ++ [None])).
  { apply (iter_suffix h d0 []); [|done|done]. apply with_cursor_repr; [done|]. cbn. set_solver. }
  replace d with (with_cursor d0 None) at 2 by (destruct d; cbn in *; by subst).
  rewrite <- H. cbn [iter_times]. unfold d0, iter_next. cbn [cursor with_cursor].
  by rewrite Hc, (repr_head _ _ _ Hr).
Qed.
End traversal.

(** ** Witnesses *)

Definition sample_ops : list (dop Z) :=
  [PushBack 10; PushBack 20; PushBack 30; IterNext; MoveToBack 2%positive; UnlinkAndDrop 1%positive; PushBack 40;
   IterNext; Contains 2%positive; MoveFrontToBack; PopFront; IterNext].

Lemma deque_refines_list_witness :
  exists h' d', exec_all empty_heap (new_deque MainProbation) sample_ops =
    Ok (h', d', [OPtr 1%positive; OPtr 2%positive; OPtr 3%positive; OElem (Some 10); OUnit; OUnit;
                 OPtr 4%positive; OElem (Some 30); OBool true; OUnit; OElem (Some 20); OElem (Some 40)]).
Proof.
  destruct (lexec_all (mkL [] ∅ None 1%positive) sample_ops) as [[s' xs]|] eqn:E;
    [|vm_compute in E; discriminate E].
  destruct (deque_refines_list MainProbation sample_ops s' xs E)
    as (h' & d' & -> & _).
  exists h', d'. do 2 f_equal. vm_compute in E. injection E as <- <-. reflexivity.
Defined.

Definition three_nodes : res (heap Z * Deque * list (dout Z)) :=
  exec_all empty_heap (new_deque Window) [PushBack 10; PushBack 20; PushBack 30].

Lemma three_nodes_repr :
  exists h d xs, three_nodes = Ok (h, d, xs) /\ Repr h d [1; 2; 3]%positive /\ cursor d = None /\
    Forall2 (fun p e => element <$> cells h !! p = Some e) [1; 2; 3]%positive [10; 20; 30].
Proof.
  unfold three_nodes.
  destruct (lexec_all (mkL [] ∅ None 1%positive) [PushBack 10; PushBack 20; PushBack 30])
    as [[s' xs]|] eqn:E; [|vm_compute in E; discriminate E].
  destruct (exec_all_simulates _ _ _ _ s' xs (empty_sim Window) E) as (h & d & -> & Hs).
  exists h, d, xs. split; [done|]. vm_compute in E. injection E as <- <-.
  split; [apply (sim_repr _ _ _ Hs)|]. split; [apply (sim_cursor _ _ _ Hs)|].
  repeat constructor; rewrite (sim_elem _ _ _ Hs) by set_solver; reflexivity.
Qed.

Lemma drop_deque_frees_witness :
  exists h d xs h', three_nodes = Ok (h, d, xs) /\ drop_deque h d = Ok h' /\
    cells h' !! 2%positive = None.
Proof.
  destruct three_nodes_repr as (h & d & xs & E & Hr & _).
  destruct (drop_deque_frees h d _ Hr) as (h' & Hd & Hin & _).
  exists h, d, xs, h'. split; [exact E|]. split; [exact Hd|]. apply Hin. set_solver.
Defined.

Lemma iter_visits_in_order_witness :
  exists h d xs, three_nodes = Ok (h, d, xs) /\
    iter_times 4 h d = Ok (d, [Some 10; Some 20; Some 30; None]).
Proof.
  destruct three_nodes_repr as (h & d & xs & E & Hr & Hc & Hes).
  exists h, d, xs. split; [exact E|].
  apply (iter_visits_in_order h d [1; 2; 3]%positive [10; 20; 30] Hr Hc); [discriminate|exact Hes].
Defined.
