(* ===== verification/Time.v ===== *)
(** Time (src/common/time/instant.rs, atomic_time.rs and clock.rs): instants are nanoseconds
    since the cache's clock was created, kept at most [u64::MAX - 1] because
    [AtomicInstant] uses [u64::MAX] for "unset". *)
From S2P Require Import Prelude Common.

Definition Instant := Z.

Definition MAX_NANOS : Z := U64_MAX - 1.

(** [Instant::from_nanos] with its debug assertion. *)
Definition from_nanos (nanos : Z) : res Instant :=
  _ ← assert_that (nanos <=? MAX_NANOS); Ok nanos.

Definition duration_to_saturating_nanoseconds (d : Duration) : Z :=
  if d <=? U64_MAX then Z.min d MAX_NANOS else MAX_NANOS.

Definition from_duration_since_clock_start (d : Duration) : res Instant :=
  from_nanos (duration_to_saturating_nanoseconds d).

(** [Instant::saturating_add] (its [from_nanos] assertion: [instant_add_range]). *)
Definition instant_saturating_add (i : Instant) (d : Duration) : Instant :=
  let dur_ms := duration_to_saturating_nanoseconds d in
  Z.min (saturating_add 64 i dur_ms) MAX_NANOS.

Definition saturating_duration_since (i earlier : Instant) : Duration := saturating_sub i earlier.

(** [AtomicInstant]: [u64::MAX] is "unset". *)
Definition AtomicInstant := Z.
Definition default_atomic_instant : AtomicInstant := U64_MAX.
Definition new_atomic_instant (i : Instant) : res AtomicInstant :=
  _ ← assert_that (negb (i =? U64_MAX)); Ok i.
Definition is_set (a : AtomicInstant) : bool := negb (a =? U64_MAX).
Definition instant (a : AtomicInstant) : option Instant :=
  if a =? U64_MAX then None else Some a.
Definition set_instant (a : AtomicInstant) (i : Instant) : res AtomicInstant :=
  _ ← assert_that (negb (i =? U64_MAX)); Ok i.

(** A clock reading is an instant of this range. *)
Definition instant_ok (i : Instant) : Prop := 0 <= i <= MAX_NANOS.

Lemma instant_add_range i d :
  0 <= i -> 0 <= d -> instant_ok (instant_saturating_add i d).
Proof.
  intros Hi Hd. unfold instant_ok, instant_saturating_add, saturating_add,
    duration_to_saturating_nanoseconds, MAX_NANOS, U64_MAX. case_match; lia.
Qed.

(** The sum is exact until it saturates. *)
Lemma instant_add_exact i d :
  0 <= i -> 0 <= d -> i + d <= MAX_NANOS -> instant_saturating_add i d = i + d.
Proof.
  intros Hi Hd Hs. unfold instant_saturating_add, saturating_add,
    duration_to_saturating_nanoseconds, MAX_NANOS, U64_MAX in *.
  destruct (Z.leb_spec d (2 ^ 64 - 1)); lia.
Qed.

Lemma instant_add_mono i j d : i <= j -> instant_saturating_add i d <= instant_saturating_add j d.
Proof. unfold instant_saturating_add, saturating_add. lia. Qed.

Lemma set_instant_ok a i : instant_ok i -> set_instant a i = Ok i /\ instant i = Some i.
Proof.
  intros [H0 H1]. unfold set_instant, instant, MAX_NANOS in *.
  by rewrite (proj2 (Z.eqb_neq _ _)) by lia.
Qed.

Lemma instant_ok_some t : instant_ok t -> instant t = Some t.
Proof.
  intros [_ Ht]. unfold instant. rewrite (proj2 (Z.eqb_neq t U64_MAX)); [done|]. unfold MAX_NANOS in Ht. lia.
Qed.

Lemma new_atomic_ok t : instant_ok t -> new_atomic_instant t = Ok t.
Proof.
  intros [_ Ht]. unfold new_atomic_instant. rewrite (proj2 (Z.eqb_neq t U64_MAX)); [done|]. unfold MAX_NANOS in Ht. lia.
Qed.
