(* ===== verification/Housekeeper.v ===== *)
(** The housekeeper (src/common/concurrent/housekeeper.rs): it decides when an
    operation of the cache runs the maintenance task, and runs it.

    Like the source, it knows the cache through the trait [InnerSync] only: the
    interface is the class [InnerSync], and what it promises is [InnerSyncSafe].
    The run lock is an argument: [locked] tells whether another thread holds it. *)
From S2P Require Import Prelude Common Time.

(** [E] is what a run reads from outside: the clock. *)
Class InnerSync (T E : Type) := {
  inner_run_pending_tasks : E -> T -> option Duration -> Z -> Z -> res (T * bool);
}.

(** A run from a state in [I] ends in a state in [I]; [R] relates the two. *)
Class InnerSyncSafe (T E : Type) `{InnerSync T E} (I : T -> Prop) (R : T -> T -> Prop) := {
  run_safe : forall env t timeout repeats batch_size, I t -> 0 <= repeats ->
    exists t' more, inner_run_pending_tasks env t timeout repeats batch_size = Ok (t', more) /\ I t' /\ R t t'
}.

Record Housekeeper := mkHousekeeper {
  run_after : AtomicInstant;
  hk_more_entries_to_evict : option bool;
  maintenance_task_timeout : option Duration;
  max_log_sync_repeats : Z;
  eviction_batch_size : Z;
  auto_run_enabled : bool
}.

Definition sync_after (now : Instant) : Instant :=
  instant_saturating_add now (from_millis LOG_SYNC_INTERVAL_MILLIS).

Definition new_housekeeper (is_eviction_listener_enabled : bool) (config : HousekeeperConfig) (now : Instant)
    : res Housekeeper :=
  let '(more, timeout) :=
    if is_eviction_listener_enabled then (Some false, Some (cfg_maintenance_task_timeout config)) else (None, None) in
  after ← new_atomic_instant (sync_after now);
  Ok (mkHousekeeper after more timeout (cfg_max_log_sync_repeats config) (cfg_eviction_batch_size config) true).

Section ops.
Implicit Type hk : Housekeeper.

Definition more_to_evict hk : bool := default false (hk_more_entries_to_evict hk).
Definition set_more_entries_to_evict hk (v : bool) : Housekeeper :=
  mkHousekeeper (run_after hk) ((fun _ => v) <$> hk_more_entries_to_evict hk) (maintenance_task_timeout hk)
    (max_log_sync_repeats hk) (eviction_batch_size hk) (auto_run_enabled hk).
Definition set_run_after hk (t : AtomicInstant) : Housekeeper :=
  mkHousekeeper t (hk_more_entries_to_evict hk) (maintenance_task_timeout hk)
    (max_log_sync_repeats hk) (eviction_batch_size hk) (auto_run_enabled hk).

Definition should_apply hk (ch_len ch_flush_point : Z) (now : Instant) : res bool :=
  if auto_run_enabled hk then
    if ch_flush_point <=? ch_len then Ok true
    else after ← expect_some UnwrapNone (instant (run_after hk)); Ok (after <=? now)
  else Ok false.
Definition should_apply_reads hk (ch_len : Z) (now : Instant) : res bool :=
  if more_to_evict hk then Ok true else should_apply hk ch_len READ_LOG_FLUSH_POINT now.
Definition should_apply_writes hk (ch_len : Z) (now : Instant) : res bool :=
  if more_to_evict hk then Ok true else should_apply hk ch_len WRITE_LOG_FLUSH_POINT now.

Context {T E : Type} `{InnerSync T E}.

(** [now] is the reading of [cache.now()]. *)
Definition hk_do_run_pending_tasks hk (now : Instant) (env : E) (t : T) : res (Housekeeper * T) :=
  after ← set_instant (run_after hk) (sync_after now);
  let hk := set_run_after hk after in
  '(t, more) ← inner_run_pending_tasks env t (maintenance_task_timeout hk) (max_log_sync_repeats hk) (eviction_batch_size hk);
  Ok (set_more_entries_to_evict hk more, t).
Definition hk_run_pending_tasks := hk_do_run_pending_tasks.
Definition try_run_pending_tasks (locked : bool) hk (now : Instant) (env : E) (t : T) : res (Housekeeper * T * bool) :=
  if locked then Ok (hk, t, false)
  else '(hk, t) ← hk_do_run_pending_tasks hk now env t; Ok (hk, t, true).
End ops.

(** ** The housekeeper against its interface *)

(** The next run is due at a proper instant. *)
Record hk_wf (hk : Housekeeper) : Prop := {
  hw_after : instant_ok (run_after hk);
  hw_repeats : 0 <= max_log_sync_repeats hk
}.

Lemma sync_after_ok now : instant_ok now -> instant_ok (sync_after now).
Proof. intros [Hn _]. apply instant_add_range; [done|]. vm_compute. discriminate. Qed.

Lemma new_housekeeper_ok b config now :
  instant_ok now -> 0 <= cfg_max_log_sync_repeats config ->
  exists hk, new_housekeeper b config now = Ok hk /\ hk_wf hk /\ auto_run_enabled hk = true.
Proof.
  intros Hn Hr. unfold new_housekeeper. pose proof (sync_after_ok now Hn) as Ha.
  destruct b; rewrite (new_atomic_ok _ Ha); cbn; eexists; (split; [reflexivity|]); by split.
Qed.

Lemma should_apply_ok hk n p now : hk_wf hk ->
  should_apply hk n p now = Ok (auto_run_enabled hk && ((p <=? n) || (run_after hk <=? now))).
Proof.
  intros [Ha _]. unfold should_apply. rewrite (instant_ok_some _ Ha). cbn.
  destruct (auto_run_enabled hk), (p <=? n); done.
Qed.

Section client.
Context {T E : Type} (I : T -> Prop) (R : T -> T -> Prop) `{InnerSyncSafe T E I R}.
Implicit Types (hk : Housekeeper) (t : T).

(** A run keeps the cache's promise and puts off the next periodic run. *)
Lemma hk_run_ok hk now (env : E) t :
  hk_wf hk -> instant_ok now -> I t ->
  exists hk' t', hk_do_run_pending_tasks hk now env t = Ok (hk', t') /\ hk_wf hk' /\ I t' /\ R t t' /\
    run_after hk' = sync_after now /\ auto_run_enabled hk' = auto_run_enabled hk /\
    (is_Some (hk_more_entries_to_evict hk') <-> is_Some (hk_more_entries_to_evict hk)).
Proof.
  intros [Ha Hr] Hn Ht. pose proof (sync_after_ok now Hn) as Hs. unfold hk_do_run_pending_tasks.
  destruct (set_instant_ok (run_after hk) _ Hs) as [-> _]. cbn [mbind res_bind].
  destruct (run_safe env t (maintenance_task_timeout hk) (max_log_sync_repeats hk) (eviction_batch_size hk) Ht Hr)
    as (t' & more & E1 & Ht' & HR).
  cbn [maintenance_task_timeout max_log_sync_repeats eviction_batch_size set_run_after]. rewrite E1. cbn [mbind res_bind].
  eexists _, _. split; [reflexivity|]. split; [by split|]. do 4 (split; [done|]).
  cbn. destruct (hk_more_entries_to_evict hk); cbn; split; intros [? ?]; (done || eauto).
Qed.

Lemma try_run_ok locked hk now (env : E) t :
  hk_wf hk -> instant_ok now -> I t ->
  exists hk' t', try_run_pending_tasks locked hk now env t = Ok (hk', t', negb locked) /\ hk_wf hk' /\ I t' /\
    (if locked then t' = t else R t t') /\ auto_run_enabled hk' = auto_run_enabled hk.
Proof.
  intros Hhk Hn Ht. unfold try_run_pending_tasks. destruct locked; [by exists hk, t|].
  destruct (hk_run_ok hk now env t Hhk Hn Ht) as (hk' & t' & -> & Hhk' & Ht' & HR & _ & Ha & _). cbn.
  by eexists _, _.
Qed.

(** The housekeeper, for any cache that keeps its interface: a run keeps the
    cache's invariant, and afterwards a write starts the next run exactly when the
    last one left entries to evict, when the write log has reached its flush
    point, or when 300 milliseconds have passed since the run. *)
Theorem next_run_due hk now (env : E) t n later :
  hk_wf hk -> auto_run_enabled hk = true -> instant_ok now -> I t ->
  exists hk' t', hk_run_pending_tasks hk now env t = Ok (hk', t') /\ hk_wf hk' /\ I t' /\ R t t' /\
    should_apply_writes hk' n later =
      Ok (more_to_evict hk' || (WRITE_LOG_FLUSH_POINT <=? n) || (instant_saturating_add now (from_millis 300) <=? later)).
Proof.
  intros Hhk Ha Hn Ht. destruct (hk_run_ok hk now env t Hhk Hn Ht) as (hk' & t' & E1 & Hhk' & Ht' & HR & Hra & Ha' & _).
  exists hk', t'. do 4 (split; [done|]). unfold should_apply_writes. rewrite (should_apply_ok _ _ _ _ Hhk'), Ha', Ha, Hra.
  by destruct (more_to_evict hk').
Qed.
End client.

(** A cache that does nothing keeps the interface. *)
#[local] Instance idle : InnerSync unit unit := { inner_run_pending_tasks _ t _ _ _ := Ok (t, false) }.
#[local] Instance idle_safe : InnerSyncSafe unit unit (fun _ => True) eq.
Proof. split. intros env t ? ? ? _ _. by exists t, false. Qed.

Lemma next_run_due_witness : exists hk' t', hk_run_pending_tasks (mkHousekeeper 5 None None 4 512 true) 7 tt tt = Ok (hk', t') /\
  should_apply_writes hk' 3 300000006 = Ok (more_to_evict hk' || false || false).
Proof.
  destruct (next_run_due (fun _ => True) eq (mkHousekeeper 5 None None 4 512 true) 7 tt tt 3 300000006) as (hk' & t' & E1 & _ & _ & _ & E2);
    [by split|done|done|done|]. exists hk', t'. exact (conj E1 E2).
Defined.
