(* ===== verification/EntryInfo.v ===== *)
(** Entry metadata (src/common/concurrent/entry_info.rs): admission and
    retirement flags, the entry and policy generations that decide whether an
    entry is dirty, and the packed expiration state (a 52-bit time and a 12-bit
    generation in one [u64]).

    Each atomic field is a plain field here, and a compare-exchange loop that
    retries until it succeeds is the atomic update it linearises to. *)
From S2P Require Import Prelude Common Time.

Record KeyHash (K : Type) := mkKeyHash { kh_key : K; kh_hash : Z }.
Arguments mkKeyHash {K} _ _.
Arguments kh_key {K} _.
Arguments kh_hash {K} _.

Record EntryInfo (K : Type) := mkEntryInfo {
  key_hash : KeyHash K;
  is_admitted : bool;
  is_retired : bool;
  entry_gen : Z;
  policy_gen : Z;
  exp_state : Z;
  ei_last_accessed : AtomicInstant;
  ei_last_modified : AtomicInstant;
  policy_weight : Z
}.
Arguments mkEntryInfo {K} _ _ _ _ _ _ _ _ _.
Arguments key_hash {K} _.
Arguments is_admitted {K} _.
Arguments is_retired {K} _.
Arguments entry_gen {K} _.
Arguments policy_gen {K} _.
Arguments exp_state {K} _.
Arguments ei_last_accessed {K} _.
Arguments ei_last_modified {K} _.
Arguments policy_weight {K} _.

Definition GEN_MASK : Z := 0xFFF.
Definition TIME_MASK : Z := 0xFFFFFFFFFFFFF000.

Section ops.
Context {K : Type}.
Implicit Type ei : EntryInfo K.

(** [EntryInfo::new] *)
Definition new_entry_info (kh : KeyHash K) (timestamp : Instant) (weight : Z) : res (EntryInfo K) :=
  la ← new_atomic_instant timestamp;
  lm ← new_atomic_instant timestamp;
  Ok (mkEntryInfo kh false false 1 0 0xFFFFFFFFFFFFF000 la lm weight).

Definition set_admitted ei (v : bool) : EntryInfo K :=
  mkEntryInfo (key_hash ei) v (is_retired ei) (entry_gen ei) (policy_gen ei) (exp_state ei)
    (ei_last_accessed ei) (ei_last_modified ei) (policy_weight ei).

Definition is_alive ei : bool := negb (is_retired ei).

(** [retire] with its debug assertion that the entry is not retired yet. *)
Definition retire ei : res (EntryInfo K) :=
  _ ← assert_that (negb (is_retired ei));
  Ok (mkEntryInfo (key_hash ei) (is_admitted ei) true (entry_gen ei) (policy_gen ei) (exp_state ei)
    (ei_last_accessed ei) (ei_last_modified ei) (policy_weight ei)).

Definition is_dirty ei : bool := negb (entry_gen ei =? policy_gen ei).

Definition incr_entry_gen ei : EntryInfo K * Z :=
  let g := wrapping_add 16 (entry_gen ei) 1 in
  (mkEntryInfo (key_hash ei) (is_admitted ei) (is_retired ei) g (policy_gen ei) (exp_state ei)
    (ei_last_accessed ei) (ei_last_modified ei) (policy_weight ei), g).

Definition set_policy_gen ei (value : Z) : EntryInfo K :=
  let current := policy_gen ei in
  if (value <=? current) || (U16_MAX / 2 <? wrapping_sub 16 value current) then ei
  else mkEntryInfo (key_hash ei) (is_admitted ei) (is_retired ei) (entry_gen ei) value (exp_state ei)
    (ei_last_accessed ei) (ei_last_modified ei) (policy_weight ei).

Definition set_policy_weight ei (w : Z) : EntryInfo K :=
  mkEntryInfo (key_hash ei) (is_admitted ei) (is_retired ei) (entry_gen ei) (policy_gen ei)
    (exp_state ei) (ei_last_accessed ei) (ei_last_modified ei) w.

Definition expiration_state ei : option Instant * Z :=
  let packed := exp_state ei in
  let time_nanos := Z.land packed TIME_MASK in
  let gen := Z.land packed GEN_MASK in
  if time_nanos =? TIME_MASK then (None, gen) else (Some time_nanos, gen).

(** Returns the entry and the new expiry generation. *)
Definition set_expiration_time ei (time : option Instant) : EntryInfo K * Z :=
  let prev_gen := Z.land (exp_state ei) GEN_MASK in
  let new_gen := Z.land (wrapping_add 32 prev_gen 1) GEN_MASK in
  let new_packed :=
    match time with
    | Some t =>
        let nanos := Z.land t TIME_MASK in
        let nanos := if nanos =? TIME_MASK then TIME_MASK - 0x1000 else nanos in
        Z.lor nanos new_gen
    | None => Z.lor TIME_MASK new_gen
    end in
  (mkEntryInfo (key_hash ei) (is_admitted ei) (is_retired ei) (entry_gen ei) (policy_gen ei)
    new_packed (ei_last_accessed ei) (ei_last_modified ei) (policy_weight ei), new_gen).

(** [impl AccessTime for EntryInfo] *)
Definition last_accessed ei : option Instant := instant (ei_last_accessed ei).
Definition last_modified ei : option Instant := instant (ei_last_modified ei).
Definition set_last_accessed ei (t : Instant) : res (EntryInfo K) :=
  a ← set_instant (ei_last_accessed ei) t;
  Ok (mkEntryInfo (key_hash ei) (is_admitted ei) (is_retired ei) (entry_gen ei) (policy_gen ei)
    (exp_state ei) a (ei_last_modified ei) (policy_weight ei)).
Definition set_last_modified ei (t : Instant) : res (EntryInfo K) :=
  a ← set_instant (ei_last_modified ei) t;
  Ok (mkEntryInfo (key_hash ei) (is_admitted ei) (is_retired ei) (entry_gen ei) (policy_gen ei)
    (exp_state ei) (ei_last_accessed ei) a (policy_weight ei)).

(** The values a field can hold. *)
Record info_wf ei : Prop := {
  iw_entry_gen : 0 <= entry_gen ei <= U16_MAX;
  iw_policy_gen : 0 <= policy_gen ei <= U16_MAX;
  iw_state : 0 <= exp_state ei < 2 ^ 64;
  iw_weight : 0 <= policy_weight ei <= U32_MAX;
  iw_accessed : instant_ok (ei_last_accessed ei);
  iw_modified : instant_ok (ei_last_modified ei)
}.

(** An update of the entry in the hash table whose write is then applied to the
    policies: the generation is incremented and, later, acknowledged. *)
Definition update_and_apply ei : EntryInfo K :=
  let '(ei, g) := incr_entry_gen ei in set_policy_gen ei g.
Definition updates (n : nat) ei : EntryInfo K := Nat.iter n update_and_apply ei.

(** ** The packed expiration state *)

Lemma time_mask_land x : Z.land x TIME_MASK = (x mod 2 ^ 64) / 2 ^ 12 * 2 ^ 12.
Proof.
  change TIME_MASK with (Z.shiftl (Z.ones 52) 12).
  rewrite <- Z.shiftl_mul_pow2, <- Z.shiftr_div_pow2, <- Z.land_ones by lia.
  apply Z.bits_inj'. intros n Hn. rewrite Z.land_spec, !Z.shiftl_spec by done.
  destruct (Z.le_gt_cases 12 n) as [H|H].
  - rewrite Z.shiftr_spec, Z.land_spec, !Z.testbit_ones by lia.
    replace (n - 12 + 12) with n by lia. f_equal.
    destruct (Z.leb_spec 0 (n - 12)), (Z.leb_spec 0 n), (Z.ltb_spec (n - 12) 52), (Z.ltb_spec n 64);
      cbn; (done || lia).
  - rewrite !(Z.testbit_neg_r _ (n - 12)) by lia. apply andb_false_r.
Qed.

Lemma gen_mask_land x : Z.land x GEN_MASK = x mod 2 ^ 12.
Proof. change GEN_MASK with (Z.ones 12). by apply Z.land_ones. Qed.

(** A time aligned to 4096 and a generation share no bit. *)
Lemma pack_sum q g : 0 <= g < 2 ^ 12 -> Z.lor (q * 2 ^ 12) g = q * 2 ^ 12 + g.
Proof.
  intros Hg. symmetry. rewrite <- Z.add_lor_land.
  assert (Z.land (q * 2 ^ 12) g = 0) as ->; [|lia].
  rewrite <- Z.shiftl_mul_pow2 by lia. apply Z.bits_inj'. intros n Hn.
  rewrite Z.land_spec, Z.bits_0, Z.shiftl_spec by done.
  destruct (Z.le_gt_cases 12 n).
  - rewrite <- (Z.mod_small g (2 ^ 12)) by done.
    rewrite (Z.mod_pow2_bits_high g 12 n) by lia. apply andb_false_r.
  - rewrite Z.testbit_neg_r by lia. done.
Qed.

Lemma unpack q g :
  0 <= q < 2 ^ 52 -> 0 <= g < 2 ^ 12 ->
  Z.land (Z.lor (q * 2 ^ 12) g) TIME_MASK = q * 2 ^ 12 /\
  Z.land (Z.lor (q * 2 ^ 12) g) GEN_MASK = g.
Proof.
  intros Hq Hg. rewrite pack_sum, time_mask_land, gen_mask_land by done.
  rewrite Z.mod_small by lia. split.
  - rewrite Z.div_add_l, (Z.div_small g) by lia. lia.
  - rewrite Z.add_comm, Z.mod_add by lia. by apply Z.mod_small.
Qed.

(** The time stored for [t]: aligned down to 4096 ns, kept off the sentinel. *)
Definition stored_time (t : Instant) : Instant :=
  let a := t / 4096 * 4096 in if a =? TIME_MASK then TIME_MASK - 4096 else a.

Lemma stored_time_bounds t : 0 <= t < 2 ^ 64 -> stored_time t <= t < stored_time t + 8192.
Proof.
  intros Ht. unfold stored_time, TIME_MASK. pose proof (Z.div_mod t 4096).
  pose proof (Z.mod_pos_bound t 4096). destruct (Z.eqb_spec (t / 4096 * 4096) 18446744073709547520); lia.
Qed.

Lemma set_expiration_state ei time :
  info_wf ei -> (forall t, time = Some t -> 0 <= t < 2 ^ 64) ->
  let '(ei', g) := set_expiration_time ei time in
  g = (snd (expiration_state ei) + 1) mod 4096 /\
  expiration_state ei' = (stored_time <$> time, g) /\ info_wf ei'.
Proof.
  intros Hwf Ht. unfold set_expiration_time.
  assert (Hpg : snd (expiration_state ei) = Z.land (exp_state ei) GEN_MASK).
  { unfold expiration_state. by destruct (_ =? TIME_MASK). }
  rewrite Hpg. set (pg := Z.land (exp_state ei) GEN_MASK).
  assert (Hpr : 0 <= pg < 2 ^ 12) by (apply land_below_pow2; [lia|unfold GEN_MASK; lia]).
  set (g := Z.land (wrapping_add 32 pg 1) GEN_MASK).
  assert (Hg : g = (pg + 1) mod 4096).
  { unfold g, wrapping_add, wrap. rewrite gen_mask_land. rewrite (Z.mod_small (pg + 1)) by lia. done. }
  assert (Hgr : 0 <= g < 2 ^ 12) by (rewrite Hg; apply Z.mod_pos_bound; lia).
  assert (Hq : exists q, 0 <= q < 2 ^ 52 /\
    match time with
    | Some t => (if Z.land t TIME_MASK =? TIME_MASK then TIME_MASK - 0x1000 else Z.land t TIME_MASK)
    | None => TIME_MASK end = q * 2 ^ 12 /\
    (match time with Some t => q * 2 ^ 12 = stored_time t /\ q <> 2 ^ 52 - 1 | None => q = 2 ^ 52 - 1 end)).
  { destruct time as [t|].
    - specialize (Ht t eq_refl). rewrite time_mask_land, Z.mod_small by lia.
      unfold stored_time. change (2 ^ 12) with 4096.
      pose proof (Z.div_lt_upper_bound t 4096 (2 ^ 52)). pose proof (Z.div_pos t 4096).
      destruct (Z.eqb_spec (t / 4096 * 4096) TIME_MASK) as [E|E]; unfold TIME_MASK in *.
      + exists (2 ^ 52 - 2). lia.
      + exists (t / 4096). lia.
    - exists (2 ^ 52 - 1). unfold TIME_MASK. lia. }
  destruct Hq as (q & Hq & Hv & Hst).
  match goal with |- context [mkEntryInfo _ _ _ _ _ ?x] => set (packed := x) end.
  assert (Hp : packed = Z.lor (q * 2 ^ 12) g).
  { unfold packed. rewrite <- Hv. by destruct time. }
  destruct (unpack q g Hq Hgr) as [U1 U2].
  split; [done|]. split.
  - unfold expiration_state. cbn [exp_state]. rewrite Hp, U1, U2.
    destruct time as [t|]; cbn.
    + destruct Hst as [Hst Hne].
      rewrite (proj2 (Z.eqb_neq _ _)) by (unfold TIME_MASK; lia). by rewrite Hst.
    + rewrite Hst. done.
  - destruct Hwf. split; cbn [entry_gen policy_gen exp_state policy_weight]; try done.
    rewrite Hp, pack_sum by done. lia.
Qed.
End ops.

Section generations.
Context {K : Type}.
Implicit Type ei : EntryInfo K.

Lemma set_policy_gen_wf ei v : 0 <= v <= U16_MAX -> info_wf ei -> info_wf (set_policy_gen ei v).
Proof. intros Hv []. unfold set_policy_gen. case_match; by split. Qed.

(** Packing an expiration time and reading it back: the generation advances by
    one modulo 4096, [None] stays [None], and a time is stored aligned down to
    4096 ns (so an entry never expires later than asked, and less than 8.2 us
    early) without ever colliding with the encoding of [None]. *)
Theorem expiration_roundtrip ei time :
  info_wf ei -> (forall t, time = Some t -> instant_ok t) ->
  let '(ei', g) := set_expiration_time ei time in
  info_wf ei' /\
  g = (snd (expiration_state ei) + 1) mod 4096 /\
  exists time', expiration_state ei' = (time', g) /\
    match time, time' with
    | Some t, Some t' => t' <= t < t' + 8192
    | None, None => True
    | _, _ => False
    end.
Proof.
  intros Hwf Ht. pose proof (set_expiration_state ei time Hwf) as H.
  destruct (set_expiration_time ei time) as [ei' g].
  assert (Hr : forall t, time = Some t -> 0 <= t < 2 ^ 64).
  { intros t E. destruct (Ht t E). unfold MAX_NANOS, U64_MAX in *. lia. }
  destruct (H Hr) as (Hg & Hs & Hwf'). split; [done|]. split; [done|].
  eexists. split; [exact Hs|]. destruct time as [t|]; cbn; [|done].
  apply stored_time_bounds. by apply Hr.
Qed.

(** Away from a wrap-around, acknowledging the latest generation makes the
    entry clean, and acknowledging an older one never moves the policy
    generation back. *)
Theorem set_policy_gen_cleans ei v :
  info_wf ei -> policy_gen ei <= v <= policy_gen ei + U16_MAX / 2 -> v <= U16_MAX ->
  policy_gen (set_policy_gen ei v) = v /\
  (v = entry_gen ei -> is_dirty (set_policy_gen ei v) = false) /\
  forall w, policy_gen ei <= policy_gen (set_policy_gen ei w).
Proof.
  intros Hwf Hv Hm. pose proof (iw_policy_gen _ Hwf).
  assert (Hlt : policy_gen (set_policy_gen ei v) = v).
  { unfold set_policy_gen, wrapping_sub, wrap. change (U16_MAX / 2) with 32767 in *.
    unfold U16_MAX in *. destruct (Z.leb_spec v (policy_gen ei)); cbn [orb]; [lia|].
    rewrite Z.mod_small by lia. destruct (Z.ltb_spec 32767 (v - policy_gen ei)); [lia|done]. }
  split; [done|]. split.
  - intros ->. unfold is_dirty. rewrite Hlt. unfold set_policy_gen.
    case_match; cbn; by rewrite Z.eqb_refl.
  - intros w. unfold set_policy_gen. destruct (Z.leb_spec w (policy_gen ei)); cbn [orb]; [done|].
    case_match; cbn; [done|lia].
Qed.

Lemma updates_S n ei : updates (S n) ei = update_and_apply (updates n ei).
Proof. done. Qed.

Lemma stuck_gens ei n :
  entry_gen ei = U16_MAX -> policy_gen ei = U16_MAX -> Z.of_nat n <= 65535 ->
  policy_gen (updates n ei) = U16_MAX /\
  entry_gen (updates n ei) = (if decide (n = 0%nat) then U16_MAX else Z.of_nat n - 1).
Proof.
  intros He Hp. induction n as [|n IH]; intros Hn; [done|].
  rewrite updates_S. destruct IH as [IHp IHe]; [lia|].
  unfold update_and_apply, incr_entry_gen, set_policy_gen. cbn [policy_gen entry_gen].
  rewrite IHp, IHe. rewrite (decide_False (P := S n = 0%nat)) by lia.
  assert (Hw : wrapping_add 16 (if decide (n = 0%nat) then U16_MAX else Z.of_nat n - 1) 1 = Z.of_nat n).
  { unfold wrapping_add, wrap. case_decide as E; [rewrite E; reflexivity|].
    rewrite Z.mod_small; lia. }
  rewrite Hw. destruct (Z.leb_spec (Z.of_nat n) U16_MAX); [|unfold U16_MAX in *; lia].
  cbn [orb policy_gen entry_gen]. split; [done|lia].
Qed.

(** The wrap-around of the 16-bit generations is not handled: once both
    generations of an entry have reached 65535, the next 65535 updates all leave
    the entry dirty although every one of them is applied and acknowledged,
    because [set_policy_gen] refuses every value below the current one. *)
Theorem dirty_after_generation_wrap ei n :
  entry_gen ei = U16_MAX -> policy_gen ei = U16_MAX -> 1 <= Z.of_nat n <= 65535 ->
  is_dirty ei = false /\ is_dirty (updates n ei) = true.
Proof.
  intros He Hp Hn. destruct (stuck_gens ei n He Hp) as [Hpn Hen]; [lia|].
  rewrite decide_False in Hen by lia. unfold is_dirty. rewrite He, Hp, Hpn, Hen.
  split; [by rewrite Z.eqb_refl|]. apply negb_true_iff, Z.eqb_neq. unfold U16_MAX. lia.
Qed.
End generations.

(** ** Witnesses *)

Definition sample_info : EntryInfo Z :=
  mkEntryInfo (mkKeyHash 7 42) false false 1 0 0xFFFFFFFFFFFFF000 0 0 1.

Lemma sample_info_wf : info_wf sample_info.
Proof. split; vm_compute; split; (done || discriminate). Qed.

Lemma expiration_roundtrip_witness :
  exists t', expiration_state (fst (set_expiration_time sample_info (Some 1000000))) = (Some t', 1) /\
    t' <= 1000000 < t' + 8192.
Proof.
  pose proof (expiration_roundtrip sample_info (Some 1000000) sample_info_wf) as H.
  destruct (set_expiration_time sample_info (Some 1000000)) as [ei' g] eqn:E.
  destruct H as (_ & Hg & t' & Hs & Hb).
  - intros t [= <-]. vm_compute. split; discriminate.
  - destruct t' as [t'|]; [|by destruct Hb]. exists t'. cbn [fst]. rewrite Hs, Hg. done.
Defined.

Lemma set_policy_gen_cleans_witness : is_dirty (set_policy_gen sample_info 1) = false.
Proof.
  apply (set_policy_gen_cleans sample_info 1); [apply sample_info_wf|vm_compute..];
    first [split; discriminate | discriminate | reflexivity].
Defined.

Lemma dirty_after_generation_wrap_witness :
  let ei := mkEntryInfo (mkKeyHash 7 42) true false 65535 65535 0xFFFFFFFFFFFFF000 0 0 1 in
  is_dirty ei = false /\ is_dirty (updates 3 ei) = true.
Proof. apply (dirty_after_generation_wrap _ 3); [reflexivity|reflexivity|lia]. Defined.
