(* ===== verification/Concurrent.v ===== *)
(** Shared cache data (src/common/concurrent.rs): the entries of the hash table,
    the queue-node pointers an entry owns, and the read and write operations
    recorded for the maintenance task.

    An [Arc] or [MiniArc] is an address in the memory [Mem]: two versions of an
    entry share its [EntryInfo] and its [DeqNodes], and an update through one of
    them is seen through the other.  Reference counts are left out: an address
    that is still reachable is never reclaimed. *)
From S2P Require Import Prelude Common Deque Time EntryInfo.

(** The address of an [EntryInfo] and of the [DeqNodes] allocated with it. *)
Definition eid := positive.

Record KeyHashDate := mkKeyHashDate { khd_entry_info : eid }.

#[export] Instance khd_eq_dec : EqDecision KeyHashDate.
Proof. solve_decision. Defined.

(** [TimerNode] of src/common/timer_wheel.rs. *)
Inductive TimerNode :=
| Sentinel
| TimerEntry (pos : option (Z * Z)) (expiry_gen : Z) (entry_info : eid) (deq_nodes : eid).

(** The access-order node is a tagged pointer: an address and a region tag. *)
Record DeqNodes := mkDeqNodes {
  access_order_q_node : option (ptr * Z);
  write_order_q_node : option ptr;
  timer_node : option ptr;
  timer_node_expiry_gen : Z
}.

(** [impl Default for DeqNodes] *)
Definition default_deq_nodes : DeqNodes := mkDeqNodes None None None 0.

Record ValueEntry (V : Type) := mkValueEntry { value : V; info : eid; nodes : eid }.
Arguments mkValueEntry {V} _ _ _.
Arguments value {V} _.
Arguments info {V} _.
Arguments nodes {V} _.

Record KvEntry (K V : Type) := mkKvEntry { kv_key : K; kv_entry : ValueEntry V }.
Arguments mkKvEntry {K V} _ _.
Arguments kv_key {K V} _.
Arguments kv_entry {K V} _.

Inductive ReadOp (V : Type) :=
| Hit (value_entry : ValueEntry V) (is_expiry_modified : bool)
| Miss (hash : Z).
Arguments Hit {V} _ _.
Arguments Miss {V} _.

Inductive WriteOp (K V : Type) :=
| Upsert (key_hash : KeyHash K) (value_entry : ValueEntry V) (entry_gen old_weight new_weight : Z)
| Remove (kv_entry : KvEntry K V) (entry_gen : Z).
Arguments Upsert {K V} _ _ _ _ _.
Arguments Remove {K V} _ _.

(** The memory the components share. *)
Record Mem (K : Type) := mkMem {
  infos : gmap eid (EntryInfo K);
  dnodes : gmap eid DeqNodes;
  next_eid : eid;
  kheap : heap KeyHashDate;
  theap : heap TimerNode
}.
Arguments mkMem {K} _ _ _ _ _.
Arguments infos {K} _.
Arguments dnodes {K} _.
Arguments next_eid {K} _.
Arguments kheap {K} _.
Arguments theap {K} _.

Section ops.
Context {K V : Type}.
Implicit Types (m : Mem K) (e : eid) (ve : ValueEntry V).

Definition empty_mem : Mem K := mkMem ∅ ∅ 1%positive empty_heap empty_heap.

Definition with_kheap m h : Mem K := mkMem (infos m) (dnodes m) (next_eid m) h (theap m).
Definition with_theap m h : Mem K := mkMem (infos m) (dnodes m) (next_eid m) (kheap m) h.

Definition get_info m e : res (EntryInfo K) := expect_some Dangling (infos m !! e).
Definition put_info m e (ei : EntryInfo K) : Mem K :=
  mkMem (<[e := ei]> (infos m)) (dnodes m) (next_eid m) (kheap m) (theap m).
Definition get_nodes m e : res DeqNodes := expect_some Dangling (dnodes m !! e).
Definition put_nodes m e (dn : DeqNodes) : Mem K :=
  mkMem (infos m) (<[e := dn]> (dnodes m)) (next_eid m) (kheap m) (theap m).

(** [MiniArc::new(info)] *)
Definition alloc_info m (ei : EntryInfo K) : Mem K * eid :=
  (mkMem (<[next_eid m := ei]> (infos m)) (dnodes m) (Pos.succ (next_eid m)) (kheap m) (theap m),
   next_eid m).

(** *** [KeyHashDate] *)
Definition khd_key m (d : KeyHashDate) : res K :=
  ei ← get_info m (khd_entry_info d); Ok (kh_key (key_hash ei)).
Definition khd_hash m (d : KeyHashDate) : res Z :=
  ei ← get_info m (khd_entry_info d); Ok (kh_hash (key_hash ei)).
Definition khd_last_modified m (d : KeyHashDate) : res (option Instant) :=
  ei ← get_info m (khd_entry_info d); Ok (last_modified ei).
Definition khd_last_accessed m (d : KeyHashDate) : res (option Instant) :=
  ei ← get_info m (khd_entry_info d); Ok (last_accessed ei).
Definition khd_is_dirty m (d : KeyHashDate) : res bool :=
  ei ← get_info m (khd_entry_info d); Ok (is_dirty ei).

(** *** [ValueEntry] *)

(** [ValueEntry::new] allocates the nodes; their address is that of the info,
    which is fresh and has no nodes yet. *)
Definition value_entry_new m (v : V) (e : eid) : Mem K * ValueEntry V :=
  (put_nodes m e default_deq_nodes, mkValueEntry v e e).
(** [ValueEntry::new_from] shares the nodes of the other entry. *)
Definition value_entry_new_from (v : V) (e : eid) (other : ValueEntry V) : ValueEntry V :=
  mkValueEntry v e (nodes other).

Definition ve_set_admitted m ve (b : bool) : res (Mem K) :=
  ei ← get_info m (info ve); Ok (put_info m (info ve) (set_admitted ei b)).
Definition ve_set_policy_gen m ve (g : Z) : res (Mem K) :=
  ei ← get_info m (info ve); Ok (put_info m (info ve) (set_policy_gen ei g)).
Definition ve_set_last_accessed m ve (t : Instant) : res (Mem K) :=
  ei ← get_info m (info ve); ei ← set_last_accessed ei t; Ok (put_info m (info ve) ei).

Definition set_access_order_q_node m ve (n : option (ptr * Z)) : res (Mem K) :=
  dn ← get_nodes m (nodes ve);
  Ok (put_nodes m (nodes ve)
        (mkDeqNodes n (write_order_q_node dn) (timer_node dn) (timer_node_expiry_gen dn))).
Definition take_access_order_q_node m ve : res (Mem K * option (ptr * Z)) :=
  dn ← get_nodes m (nodes ve);
  m ← set_access_order_q_node m ve None;
  Ok (m, access_order_q_node dn).

Definition set_write_order_q_node m ve (n : option ptr) : res (Mem K) :=
  dn ← get_nodes m (nodes ve);
  Ok (put_nodes m (nodes ve)
        (mkDeqNodes (access_order_q_node dn) n (timer_node dn) (timer_node_expiry_gen dn))).
Definition take_write_order_q_node m ve : res (Mem K * option ptr) :=
  dn ← get_nodes m (nodes ve);
  m ← set_write_order_q_node m ve None;
  Ok (m, write_order_q_node dn).

(** [DeqNodes::set_timer_node], at the address of the nodes. *)
Definition set_timer_node m (e : eid) (n : option ptr) (expiry_gen : Z) : res (Mem K) :=
  dn ← get_nodes m e;
  Ok (put_nodes m e (mkDeqNodes (access_order_q_node dn) (write_order_q_node dn) n expiry_gen)).
Definition timer_node_with_expiry_gen m ve : res (option ptr * Z) :=
  dn ← get_nodes m (nodes ve); Ok (timer_node dn, timer_node_expiry_gen dn).
Definition take_timer_node m ve : res (Mem K * (option ptr * Z)) :=
  dn ← get_nodes m (nodes ve);
  m ← set_timer_node m (nodes ve) None 0;
  Ok (m, (timer_node dn, timer_node_expiry_gen dn)).

Definition unset_q_nodes m ve : res (Mem K) :=
  dn ← get_nodes m (nodes ve);
  Ok (put_nodes m (nodes ve) (mkDeqNodes None None (timer_node dn) (timer_node_expiry_gen dn))).

(** [WriteOp::new_upsert] *)
Definition new_upsert (key : K) (hash : Z) ve (entry_generation old_weight new_weight : Z) : WriteOp K V :=
  Upsert (mkKeyHash key hash) ve entry_generation old_weight new_weight.

End ops.

(** [OldEntryInfo] *)
Record OldEntryInfo (V : Type) := mkOldEntryInfo {
  oei_entry : ValueEntry V;
  oei_last_accessed : option Instant;
  oei_last_modified : option Instant
}.
Arguments mkOldEntryInfo {V} _ _ _.
Arguments oei_entry {V} _.
Arguments oei_last_accessed {V} _.
Arguments oei_last_modified {V} _.

Definition new_old_entry_info {K V} (m : Mem K) (ve : ValueEntry V) : res (OldEntryInfo V) :=
  ei ← get_info m (info ve);
  Ok (mkOldEntryInfo ve (last_accessed ei) (last_modified ei)).
