(* ===== verification/Deques.v ===== *)
(** The queues of the cache (src/common/concurrent/deques.rs): the access-order
    queues (only the probation one is used), the write-order queue, and the
    pointers from an entry to its nodes in them.

    [deqs_inv] ties the queues and the pointers together: an entry points to a
    node exactly when that node is in the queue and refers back to the entry.
    The theorems show that under it no operation faults, and that the queues
    behave as two lists of entries. *)
From S2P Require Import Prelude Common Deque Time EntryInfo Concurrent.

Record Deques := mkDeques {
  window : Deque;
  probation : Deque;
  protected : Deque;
  write_order : Deque
}.

Definition default_deques : Deques :=
  mkDeques (new_deque Window) (new_deque MainProbation) (new_deque MainProtected) (new_deque Other).

Definition set_window (ds : Deques) d := mkDeques d (probation ds) (protected ds) (write_order ds).
Definition set_probation (ds : Deques) d := mkDeques (window ds) d (protected ds) (write_order ds).
Definition set_protected (ds : Deques) d := mkDeques (window ds) (probation ds) d (write_order ds).
Definition set_write_order (ds : Deques) d := mkDeques (window ds) (probation ds) (protected ds) d.

Section ops.
Context {K V : Type}.
Implicit Types (m : Mem K) (ds : Deques) (ve : ValueEntry V).

(** The access-order deque [select_mut] borrows, and the store through that
    borrow. *)
Definition select_ao ds (r : CacheRegion) : res Deque :=
  match r with
  | Window => Ok (window ds)
  | MainProbation => Ok (probation ds)
  | MainProtected => Ok (protected ds)
  | Other => Fail Unreachable
  end.
Definition store_ao ds (r : CacheRegion) (d : Deque) : Deques :=
  match r with
  | Window => set_window ds d
  | MainProbation => set_probation ds d
  | MainProtected => set_protected ds d
  | Other => ds
  end.

Definition push_back_ao m ds (r : CacheRegion) (khd : KeyHashDate) ve : res (Mem K * Deques) :=
  let '(h, node) := new_node (kheap m) khd in
  d ← select_ao ds r;
  '(h, d) ← push_back h d node;
  m ← set_access_order_q_node (with_kheap m h) ve (Some (node, region_tag r));
  Ok (m, store_ao ds r d).

Definition push_back_wo m ds (khd : KeyHashDate) ve : res (Mem K * Deques) :=
  let '(h, node) := new_node (kheap m) khd in
  '(h, d) ← push_back h (write_order ds) node;
  m ← set_write_order_q_node (with_kheap m h) ve (Some node);
  Ok (m, set_write_order ds d).

Definition move_to_back_ao m ds ve : res (Mem K * Deques) :=
  dn ← get_nodes m (nodes ve);
  match access_order_q_node dn with
  | None => Ok (m, ds)
  | Some (node, tag) =>
      _ ← deref (kheap m) node;
      r ← region_from_usize tag;
      d ← select_ao ds r;
      c ← contains (kheap m) d node;
      if (c : bool) then
        '(h, d) ← move_to_back (kheap m) d node;
        Ok (with_kheap m h, store_ao ds r d)
      else Fail Unreachable
  end.

Definition move_to_back_ao_in_deque m (deq : Deque) ve : res (Mem K * Deque) :=
  dn ← get_nodes m (nodes ve);
  match access_order_q_node dn with
  | None => Ok (m, deq)
  | Some (node, tag) =>
      _ ← deref (kheap m) node;
      _ ← assert_that (region_tag (region deq) =? tag);
      c ← contains (kheap m) deq node;
      if (c : bool) then
        '(h, d) ← move_to_back (kheap m) deq node;
        Ok (with_kheap m h, d)
      else Ok (m, deq)
  end.

Definition move_to_back_wo_in_deque m (deq : Deque) ve : res (Mem K * Deque) :=
  dn ← get_nodes m (nodes ve);
  match write_order_q_node dn with
  | None => Ok (m, deq)
  | Some node =>
      _ ← deref (kheap m) node;
      c ← contains (kheap m) deq node;
      if (c : bool) then
        '(h, d) ← move_to_back (kheap m) deq node;
        Ok (with_kheap m h, d)
      else Ok (m, deq)
  end.

Definition move_to_back_wo m ds ve : res (Mem K * Deques) :=
  dn ← get_nodes m (nodes ve);
  match write_order_q_node dn with
  | None => Ok (m, ds)
  | Some node =>
      _ ← deref (kheap m) node;
      c ← contains (kheap m) (write_order ds) node;
      if (c : bool) then
        '(h, d) ← move_to_back (kheap m) (write_order ds) node;
        Ok (with_kheap m h, set_write_order ds d)
      else Ok (m, ds)
  end.

Definition unlink_node_ao_from_deque m (deq : Deque) (node : ptr) (tag : Z) : res (Mem K * Deque) :=
  _ ← deref (kheap m) node;
  _ ← assert_that (region_tag (region deq) =? tag);
  c ← contains (kheap m) deq node;
  if (c : bool) then
    '(h, d) ← unlink_and_drop (kheap m) deq node;
    Ok (with_kheap m h, d)
  else Ok (m, deq).

Definition unlink_node_ao m ds (node : ptr) (tag : Z) : res (Mem K * Deques) :=
  r ← region_from_usize tag;
  d ← select_ao ds r;
  '(m, d) ← unlink_node_ao_from_deque m d node tag;
  Ok (m, store_ao ds r d).

Definition unlink_ao m ds ve : res (Mem K * Deques) :=
  '(m, tagged) ← take_access_order_q_node m ve;
  match tagged with
  | Some (node, tag) => unlink_node_ao m ds node tag
  | None => Ok (m, ds)
  end.

Definition unlink_ao_from_deque m (deq : Deque) ve : res (Mem K * Deque) :=
  '(m, tagged) ← take_access_order_q_node m ve;
  match tagged with
  | Some (node, tag) => unlink_node_ao_from_deque m deq node tag
  | None => Ok (m, deq)
  end.

Definition unlink_node_wo m (deq : Deque) (node : ptr) : res (Mem K * Deque) :=
  c ← contains (kheap m) deq node;
  if (c : bool) then
    '(h, d) ← unlink_and_drop (kheap m) deq node;
    Ok (with_kheap m h, d)
  else Ok (m, deq).

Definition unlink_wo m (deq : Deque) ve : res (Mem K * Deque) :=
  '(m, o) ← take_write_order_q_node m ve;
  match o with
  | Some node => unlink_node_wo m deq node
  | None => Ok (m, deq)
  end.
End ops.

(** ** What the queues denote *)

Section inv.
Context {K V : Type}.
Implicit Types (m : Mem K) (ds : Deques) (ve : ValueEntry V) (P Q : list ptr) (e : eid) (p : ptr)
  (h : heap KeyHashDate).

(** The entry a node refers to, and the nodes an entry points to. *)
Definition entry_at (h : heap KeyHashDate) p : option eid :=
  n ← cells h !! p; Some (khd_entry_info (element n)).
Definition ao_of m e : option (ptr * Z) := dnodes m !! e ≫= access_order_q_node.
Definition wo_of m e : option ptr := dnodes m !! e ≫= write_order_q_node.

(** The entries of a queue, in order. *)
Definition queue m P : list eid := omap (entry_at (kheap m)) P.

(** [P] and [Q] are the nodes of the probation and the write-order queue. *)
Record deqs_inv m ds P Q : Prop := {
  di_wf : heap_wf (kheap m);
  di_window : window ds = new_deque Window;
  di_protected : protected ds = new_deque MainProtected;
  di_prob : Repr (kheap m) (probation ds) P;
  di_prob_region : region (probation ds) = MainProbation;
  di_wo : Repr (kheap m) (write_order ds) Q;
  di_disj : forall p, p ∈ P -> p ∉ Q;
  di_ao_ptr : forall e p t, ao_of m e = Some (p, t) <->
    t = region_tag MainProbation /\ p ∈ P /\ entry_at (kheap m) p = Some e;
  di_wo_ptr : forall e p, wo_of m e = Some p <-> p ∈ Q /\ entry_at (kheap m) p = Some e;
  di_no_leak : forall p n, cells (kheap m) !! p = Some n -> p ∈ P \/ p ∈ Q
}.

(** Everything but the nodes' heap and the queue pointers is untouched. *)
Record deq_frame m m' : Prop := {
  df_infos : infos m' = infos m;
  df_next : next_eid m' = next_eid m;
  df_theap : theap m' = theap m;
  df_timer : forall e, (fun dn => (timer_node dn, timer_node_expiry_gen dn)) <$> dnodes m' !! e =
                       (fun dn => (timer_node dn, timer_node_expiry_gen dn)) <$> dnodes m !! e
}.

#[export] Instance deq_frame_refl : Reflexive deq_frame.
Proof. by intros m. Qed.
#[export] Instance deq_frame_trans : Transitive deq_frame.
Proof.
  intros m1 m2 m3 [I1 N1 T1 D1] [I2 N2 T2 D2]. split; congruence.
Qed.

Lemma deq_frame_dom m m' e : deq_frame m m' -> is_Some (dnodes m !! e) -> is_Some (dnodes m' !! e).
Proof.
  intros F [dn Hdn]. pose proof (df_timer _ _ F e) as H. rewrite Hdn in H.
  destruct (dnodes m' !! e); [eauto|done].
Qed.

Lemma kheap_frame m h : deq_frame m (with_kheap m h).
Proof. by split. Qed.

Lemma relinks_entry_at h h' l p : relinks h h' l -> entry_at h' p = entry_at h p.
Proof.
  intros R. unfold entry_at. pose proof (relinks_elem _ _ _ R p) as E.
  destruct (cells h' !! p), (cells h !! p); cbn in *; congruence.
Qed.

Lemma entry_at_is_some h p : is_Some (cells h !! p) -> exists e, entry_at h p = Some e.
Proof. intros [n Hn]. unfold entry_at. rewrite Hn. by eexists. Qed.

Lemma node_live h d l p : Repr h d l -> p ∈ l -> exists n, cells h !! p = Some n.
Proof. intros R Hp. exact (dseg_lookup _ _ _ _ _ (repr_seg _ _ _ R) Hp). Qed.

Lemma ao_node m ds P Q e p t :
  deqs_inv m ds P Q -> ao_of m e = Some (p, t) ->
  t = 1 /\ p ∈ P /\ entry_at (kheap m) p = Some e /\ exists n, cells (kheap m) !! p = Some n.
Proof.
  intros I Hao. apply (di_ao_ptr _ _ _ _ I) in Hao as (-> & Hp & He).
  split; [done|]. split; [done|]. split; [done|]. eapply node_live; [apply I|done].
Qed.

Lemma wo_node m ds P Q e p :
  deqs_inv m ds P Q -> wo_of m e = Some p ->
  p ∈ Q /\ entry_at (kheap m) p = Some e /\ exists n, cells (kheap m) !! p = Some n.
Proof.
  intros I Hao. apply (di_wo_ptr _ _ _ _ I) in Hao as (Hp & He).
  split; [done|]. split; [done|]. eapply node_live; [exact (di_wo _ _ _ _ I)|done].
Qed.

(** A change of links inside the probation queue that keeps its nodes. *)
Lemma inv_relink_ao m ds P Q h' d' P' :
  deqs_inv m ds P Q -> relinks (kheap m) h' P -> Repr h' d' P' -> region d' = MainProbation ->
  (forall p, p ∈ P' <-> p ∈ P) ->
  deqs_inv (with_kheap m h') (set_probation ds d') P' Q.
Proof.
  intros I R R' Hreg HP. split; cbn; try apply I; try done.
  - eapply relinks_wf; [exact R|apply I].
  - eapply repr_relinks; [exact R| |apply I]. intros p Hq Hp. by apply (di_disj _ _ _ _ I p).
  - intros p Hp. apply (di_disj _ _ _ _ I). by apply HP.
  - intros e p t. rewrite HP, (relinks_entry_at _ _ _ _ R). apply I.
  - intros e p. rewrite (relinks_entry_at _ _ _ _ R). apply I.
  - intros p n Hn. rewrite HP. pose proof (relinks_elem _ _ _ R p) as E. rewrite Hn in E.
    destruct (cells (kheap m) !! p) eqn:Ep; [|done]. by eapply I.
Qed.

Lemma inv_relink_wo m ds P Q h' d' Q' :
  deqs_inv m ds P Q -> relinks (kheap m) h' Q -> Repr h' d' Q' ->
  (forall p, p ∈ Q' <-> p ∈ Q) ->
  deqs_inv (with_kheap m h') (set_write_order ds d') P Q'.
Proof.
  intros I R R' HQ. split; cbn; try apply I; try done.
  - eapply relinks_wf; [exact R|apply I].
  - eapply repr_relinks; [exact R| |apply I]. intros p Hp. by eapply (di_disj _ _ _ _ I).
  - intros p Hp. rewrite HQ. by apply (di_disj _ _ _ _ I).
  - intros e p t. rewrite (relinks_entry_at _ _ _ _ R). apply I.
  - intros e p. rewrite HQ, (relinks_entry_at _ _ _ _ R). apply I.
  - intros p n Hn. rewrite HQ. pose proof (relinks_elem _ _ _ R p) as E. rewrite Hn in E.
    destruct (cells (kheap m) !! p) eqn:Ep; [|done]. by eapply I.
Qed.

(** What the moves do to the queues: the node of the entry, if it has one, goes
    to the back. *)
Definition touched (o : option ptr) (l : list ptr) : list ptr :=
  match o with Some p => moved_to_back p l | None => l end.

Lemma touched_in o l p : (forall q, o = Some q -> q ∈ l) -> p ∈ touched o l <-> p ∈ l.
Proof. intros H. destruct o as [q|]; cbn; [|done]. apply moved_in. by apply H. Qed.

(** The outcome of an operation that only relinks the queues. *)
Definition relinked m ds P Q (out : res (Mem K * Deques)) P' Q' : Prop :=
  exists h' ds', out = Ok (with_kheap m h', ds') /\ deqs_inv (with_kheap m h') ds' P' Q' /\
    (forall p, entry_at h' p = entry_at (kheap m) p).

Lemma with_kheap_id m : with_kheap m (kheap m) = m.
Proof. by destruct m. Qed.

Lemma relinked_same m ds P Q : deqs_inv m ds P Q -> relinked m ds P Q (Ok (m, ds)) P Q.
Proof. intros I. exists (kheap m), ds. rewrite with_kheap_id. done. Qed.

Lemma set_probation_id ds : set_probation ds (probation ds) = ds.
Proof. by destruct ds. Qed.
Lemma set_write_order_id ds : set_write_order ds (write_order ds) = ds.
Proof. by destruct ds. Qed.

Lemma move_ao_node m ds P Q e p :
  deqs_inv m ds P Q -> ao_of m e = Some (p, 1) ->
  exists h' d', move_to_back (kheap m) (probation ds) p = Ok (h', d') /\
    contains (kheap m) (probation ds) p = Ok true /\
    deqs_inv (with_kheap m h') (set_probation ds d') (touched (Some p) P) Q /\
    (forall q, entry_at h' q = entry_at (kheap m) q).
Proof.
  intros I Hao. destruct (ao_node _ _ _ _ _ _ _ I Hao) as (_ & Hp & _ & _).
  destruct (move_to_back_spec _ _ _ p (di_prob _ _ _ _ I) Hp) as (h' & d' & E & R & Rl & _ & Hreg).
  exists h', d'. split; [done|]. split; [eapply contains_linked; [apply I|done]|]. split.
  - eapply inv_relink_ao; [done|done|done| |].
    + rewrite Hreg. apply I.
    + intros q. by apply moved_in.
  - intros q. by eapply relinks_entry_at.
Qed.

Lemma move_wo_node m ds P Q e p :
  deqs_inv m ds P Q -> wo_of m e = Some p ->
  exists h' d', move_to_back (kheap m) (write_order ds) p = Ok (h', d') /\
    contains (kheap m) (write_order ds) p = Ok true /\
    deqs_inv (with_kheap m h') (set_write_order ds d') P (touched (Some p) Q) /\
    (forall q, entry_at h' q = entry_at (kheap m) q).
Proof.
  intros I Hwo. destruct (wo_node _ _ _ _ _ _ I Hwo) as (Hp & _ & _).
  destruct (move_to_back_spec _ _ _ p (di_wo _ _ _ _ I) Hp) as (h' & d' & E & R & Rl & _ & _).
  exists h', d'. split; [done|]. split; [eapply contains_linked; [apply I|done]|]. split.
  - eapply inv_relink_wo; [done|done|done|]. intros q. by apply moved_in.
  - intros q. by eapply relinks_entry_at.
Qed.

Lemma ao_of_nodes m e dn : dnodes m !! e = Some dn -> ao_of m e = access_order_q_node dn.
Proof. intros H. unfold ao_of. by rewrite H. Qed.
Lemma wo_of_nodes m e dn : dnodes m !! e = Some dn -> wo_of m e = write_order_q_node dn.
Proof. intros H. unfold wo_of. by rewrite H. Qed.

Lemma move_to_back_ao_spec m ds P Q ve :
  deqs_inv m ds P Q -> is_Some (dnodes m !! nodes ve) ->
  relinked m ds P Q (move_to_back_ao m ds ve) (touched (fst <$> ao_of m (nodes ve)) P) Q.
Proof.
  intros I [dn Hdn]. unfold move_to_back_ao, get_nodes. rewrite Hdn. cbn.
  rewrite (ao_of_nodes _ _ _ Hdn).
  destruct (access_order_q_node dn) as [[p t]|] eqn:Hao; cbn; [|by apply relinked_same].
  rewrite <- (ao_of_nodes _ _ _ Hdn) in Hao.
  destruct (ao_node _ _ _ _ _ _ _ I Hao) as (-> & Hp & He & n & Hn).
  rewrite (deref_ok _ _ _ Hn). cbn.
  destruct (move_ao_node _ _ _ _ _ _ I Hao) as (h' & d' & Em & Ec & I' & Hat).
  rewrite Ec. cbn. rewrite Em. cbn. by exists h', (set_probation ds d').
Qed.

Lemma move_to_back_wo_spec m ds P Q ve :
  deqs_inv m ds P Q -> is_Some (dnodes m !! nodes ve) ->
  relinked m ds P Q (move_to_back_wo m ds ve) P (touched (wo_of m (nodes ve)) Q).
Proof.
  intros I [dn Hdn]. unfold move_to_back_wo, get_nodes. rewrite Hdn. cbn.
  rewrite (wo_of_nodes _ _ _ Hdn).
  destruct (write_order_q_node dn) as [p|] eqn:Hwo; cbn; [|by apply relinked_same].
  rewrite <- (wo_of_nodes _ _ _ Hdn) in Hwo.
  destruct (wo_node _ _ _ _ _ _ I Hwo) as (Hp & He & n & Hn).
  rewrite (deref_ok _ _ _ Hn). cbn.
  destruct (move_wo_node _ _ _ _ _ _ I Hwo) as (h' & d' & Em & Ec & I' & Hat).
  rewrite Ec. cbn. rewrite Em. cbn. by exists h', (set_write_order ds d').
Qed.

(** The [_in_deque] variants, on the borrowed deque put back in place. *)
Lemma move_to_back_ao_in_deque_spec m ds P Q ve :
  deqs_inv m ds P Q -> is_Some (dnodes m !! nodes ve) ->
  relinked m ds P Q
    ('(m', d) ← move_to_back_ao_in_deque m (probation ds) ve; Ok (m', set_probation ds d))
    (touched (fst <$> ao_of m (nodes ve)) P) Q.
Proof.
  intros I [dn Hdn]. unfold move_to_back_ao_in_deque, get_nodes. rewrite Hdn. cbn.
  rewrite (ao_of_nodes _ _ _ Hdn).
  destruct (access_order_q_node dn) as [[p t]|] eqn:Hao; cbn.
  - rewrite <- (ao_of_nodes _ _ _ Hdn) in Hao.
    destruct (ao_node _ _ _ _ _ _ _ I Hao) as (-> & Hp & He & n & Hn).
    rewrite (deref_ok _ _ _ Hn), (di_prob_region _ _ _ _ I). cbn.
    destruct (move_ao_node _ _ _ _ _ _ I Hao) as (h' & d' & Em & Ec & I' & Hat).
    rewrite Ec. cbn. rewrite Em. cbn. by exists h', (set_probation ds d').
  - rewrite set_probation_id. by apply relinked_same.
Qed.

Lemma move_to_back_wo_in_deque_spec m ds P Q ve :
  deqs_inv m ds P Q -> is_Some (dnodes m !! nodes ve) ->
  relinked m ds P Q
    ('(m', d) ← move_to_back_wo_in_deque m (write_order ds) ve; Ok (m', set_write_order ds d))
    P (touched (wo_of m (nodes ve)) Q).
Proof.
  intros I [dn Hdn]. unfold move_to_back_wo_in_deque, get_nodes. rewrite Hdn. cbn.
  rewrite (wo_of_nodes _ _ _ Hdn).
  destruct (write_order_q_node dn) as [p|] eqn:Hwo; cbn.
  - rewrite <- (wo_of_nodes _ _ _ Hdn) in Hwo.
    destruct (wo_node _ _ _ _ _ _ I Hwo) as (Hp & He & n & Hn).
    rewrite (deref_ok _ _ _ Hn). cbn.
    destruct (move_wo_node _ _ _ _ _ _ I Hwo) as (h' & d' & Em & Ec & I' & Hat).
    rewrite Ec. cbn. rewrite Em. cbn. by exists h', (set_write_order ds d').
  - rewrite set_write_order_id. by apply relinked_same.
Qed.

(** Replacing the queue pointers of one entry. *)
Definition with_ao (dn : DeqNodes) o := mkDeqNodes o (write_order_q_node dn) (timer_node dn) (timer_node_expiry_gen dn).
Definition with_wo (dn : DeqNodes) o := mkDeqNodes (access_order_q_node dn) o (timer_node dn) (timer_node_expiry_gen dn).

Lemma put_nodes_frame m h e dn dn' :
  dnodes m !! e = Some dn ->
  timer_node dn' = timer_node dn -> timer_node_expiry_gen dn' = timer_node_expiry_gen dn ->
  deq_frame m (put_nodes (with_kheap m h) e dn').
Proof.
  intros H Ht Hg. split; try done. intros e'. cbn. destruct (decide (e = e')) as [->|].
  - rewrite lookup_insert_eq, H. cbn. congruence.
  - by rewrite lookup_insert_ne.
Qed.

Lemma ao_of_put m e dn e' :
  ao_of (put_nodes m e dn) e' = if decide (e' = e) then access_order_q_node dn else ao_of m e'.
Proof.
  unfold ao_of. cbn. case_decide as E; [by rewrite E, lookup_insert_eq|by rewrite lookup_insert_ne].
Qed.
Lemma wo_of_put m e dn e' :
  wo_of (put_nodes m e dn) e' = if decide (e' = e) then write_order_q_node dn else wo_of m e'.
Proof.
  unfold wo_of. cbn. case_decide as E; [by rewrite E, lookup_insert_eq|by rewrite lookup_insert_ne].
Qed.

Lemma ao_of_kheap m h e : ao_of (with_kheap m h) e = ao_of m e.
Proof. done. Qed.
Lemma wo_of_kheap m h e : wo_of (with_kheap m h) e = wo_of m e.
Proof. done. Qed.

(** What pushing a fresh node does to the heap. *)
Lemma push_fresh h d l d2 l2 (x : KeyHashDate) :
  heap_wf h -> Repr h d l -> Repr h d2 l2 -> (forall p, p ∈ l -> p ∉ l2) ->
  exists h' d', push_back (fst (new_node h x)) d (next_loc h) = Ok (h', d') /\
    heap_wf h' /\ Repr h' d' (l ++ [next_loc h]) /\ Repr h' d2 l2 /\ region d' = region d /\
    next_loc h ∉ l /\ next_loc h ∉ l2 /\ cells h !! next_loc h = None /\
    entry_at h' (next_loc h) = Some (khd_entry_info x) /\
    (forall q, q <> next_loc h -> entry_at h' q = entry_at h q).
Proof.
  intros Hwf R R2 Hd. destruct (new_node_fresh h x l d Hwf R) as [Hf Rn].
  destruct (new_node_fresh h x l2 d2 Hwf R2) as [Hf2 Rn2].
  assert (Hx : cells (fst (new_node h x)) !! next_loc h = Some (mkNode None None x))
    by (cbn; apply lookup_insert_eq).
  destruct (push_back_spec _ _ _ (next_loc h) _ Rn Hf Hx) as (h' & d' & E & R' & Rl & _ & Hreg).
  exists h', d'. split; [exact E|]. split.
  { eapply relinks_wf; [exact Rl|]. by apply new_node_wf. }
  split; [exact R'|]. split.
  { eapply repr_relinks; [exact Rl| |exact Rn2]. intros p Hp Hin.
    apply elem_of_app in Hin as [Hin|Hin%list_elem_of_singleton]; [by apply (Hd p)|by subst]. }
  split; [done|]. split; [done|]. split; [done|]. split.
  { destruct (cells h !! next_loc h) eqn:En; [|done]. apply Hwf in En. lia. }
  split.
  - rewrite (relinks_entry_at _ _ _ _ Rl). unfold entry_at. by rewrite Hx.
  - intros q Hq. rewrite (relinks_entry_at _ _ _ _ Rl). unfold entry_at. cbn.
    by rewrite lookup_insert_ne.
Qed.

Lemma elem_snoc {A} (l : list A) x y : x ∈ l ++ [y] <-> x ∈ l \/ x = y.
Proof. rewrite elem_of_app, list_elem_of_singleton. done. Qed.

Lemma unlinked_absent h d l p : Repr h d l -> cells h !! p = None -> p ∉ l.
Proof. intros R Hn Hp. destruct (node_live _ _ _ _ R Hp) as [n E]. congruence. Qed.

Lemma push_back_ao_spec m ds P Q ve dn :
  deqs_inv m ds P Q -> dnodes m !! nodes ve = Some dn -> access_order_q_node dn = None ->
  exists h' ds' p,
    push_back_ao m ds MainProbation (mkKeyHashDate (nodes ve)) ve =
      Ok (put_nodes (with_kheap m h') (nodes ve) (with_ao dn (Some (p, 1))), ds') /\
    deqs_inv (put_nodes (with_kheap m h') (nodes ve) (with_ao dn (Some (p, 1)))) ds' (P ++ [p]) Q /\
    p ∉ P /\ entry_at h' p = Some (nodes ve) /\
    (forall q, q <> p -> entry_at h' q = entry_at (kheap m) q).
Proof.
  intros I Hdn Hao.
  destruct (push_fresh (kheap m) (probation ds) P (write_order ds) Q (mkKeyHashDate (nodes ve)))
    as (h' & d' & E & Hwf & R1 & R2 & Hreg & Hp & Hq & Hn & Hat & Hoth); [apply I..|].
  exists h', (set_probation ds d'), (next_loc (kheap m)). unfold push_back_ao. cbn [select_ao mbind res_bind new_node fst] in E |- *.
  rewrite E. cbn in Hat |- *. clear E. set (p := next_loc (kheap m)) in *.
  unfold set_access_order_q_node, get_nodes. cbn. rewrite Hdn. cbn. split; [done|].
  split; [|done]. split; cbn; try apply I; try done.
  - rewrite Hreg. apply I.
  - intros q [Hin| ->]%elem_snoc; [by apply (di_disj _ _ _ _ I)|done].
  - intros e q t. rewrite ao_of_put, ao_of_kheap, elem_snoc. case_decide as Ee; cbn.
    + subst. split.
      * intros [= <- <-]. eauto.
      * intros (-> & [Hin| ->] & He); [|done]. rewrite Hoth in He by congruence.
        assert (Hx : ao_of m (nodes ve) = Some (q, 1)) by (by apply I).
        unfold ao_of in Hx. rewrite Hdn in Hx. cbn in Hx. congruence.
    + rewrite (di_ao_ptr _ _ _ _ I). split.
      * intros (-> & Hin & He). rewrite Hoth by congruence. eauto.
      * intros (-> & [Hin| ->] & He); [|congruence]. rewrite Hoth in He by congruence. eauto.
  - intros e q. rewrite wo_of_put, wo_of_kheap. cbn.
    assert (Hw : (if decide (e = nodes ve) then write_order_q_node dn else wo_of m e) = wo_of m e)
      by (case_decide; [subst; unfold wo_of; by rewrite Hdn|done]).
    rewrite Hw, (di_wo_ptr _ _ _ _ I). split; intros [Hin He]; (split; [done|]);
      [rewrite Hoth by congruence; done | rewrite Hoth in He by congruence; done].
  - intros q n Hqn. rewrite elem_snoc. destruct (decide (q = p)) as [->|Hne]; [auto|].
    specialize (Hoth q Hne). unfold entry_at in Hoth. rewrite Hqn in Hoth.
    destruct (cells (kheap m) !! q) eqn:Eq; [|done].
    destruct (di_no_leak _ _ _ _ I q _ Eq); auto.
Qed.

Lemma push_back_wo_spec m ds P Q ve dn :
  deqs_inv m ds P Q -> dnodes m !! nodes ve = Some dn -> write_order_q_node dn = None ->
  exists h' ds' p,
    push_back_wo m ds (mkKeyHashDate (nodes ve)) ve =
      Ok (put_nodes (with_kheap m h') (nodes ve) (with_wo dn (Some p)), ds') /\
    deqs_inv (put_nodes (with_kheap m h') (nodes ve) (with_wo dn (Some p))) ds' P (Q ++ [p]) /\
    p ∉ Q /\ entry_at h' p = Some (nodes ve) /\
    (forall q, q <> p -> entry_at h' q = entry_at (kheap m) q).
Proof.
  intros I Hdn Hwo.
  destruct (push_fresh (kheap m) (write_order ds) Q (probation ds) P (mkKeyHashDate (nodes ve)))
    as (h' & d' & E & Hwf & R1 & R2 & Hreg & Hq & Hp & Hn & Hat & Hoth); [apply I|apply I|apply I| |].
  { intros q HQ HP. by apply (di_disj _ _ _ _ I q). }
  exists h', (set_write_order ds d'), (next_loc (kheap m)). unfold push_back_wo. cbn [mbind res_bind new_node fst] in E |- *.
  rewrite E. cbn in Hat |- *. clear E. set (p := next_loc (kheap m)) in *.
  unfold set_write_order_q_node, get_nodes. cbn. rewrite Hdn. cbn. split; [done|].
  split; [|done]. split; cbn; try apply I; try done.
  - intros q Hin [HQ| ->]%elem_snoc; [by apply (di_disj _ _ _ _ I q)|done].
  - intros e q t. rewrite ao_of_put, ao_of_kheap. cbn.
    assert (Hw : (if decide (e = nodes ve) then access_order_q_node dn else ao_of m e) = ao_of m e)
      by (case_decide; [subst; unfold ao_of; by rewrite Hdn|done]).
    rewrite Hw, (di_ao_ptr _ _ _ _ I). split; intros (-> & Hin & He); (split; [done|split; [done|]]);
      [rewrite Hoth by congruence; done | rewrite Hoth in He by congruence; done].
  - intros e q. rewrite wo_of_put, wo_of_kheap, elem_snoc. case_decide as Ee; cbn.
    + subst. split.
      * intros [= <-]. eauto.
      * intros ([Hin| ->] & He); [|done]. rewrite Hoth in He by congruence.
        assert (Hx : wo_of m (nodes ve) = Some q) by (by apply I).
        unfold wo_of in Hx. rewrite Hdn in Hx. cbn in Hx. congruence.
    + rewrite (di_wo_ptr _ _ _ _ I). split.
      * intros (Hin & He). rewrite Hoth by congruence. eauto.
      * intros ([Hin| ->] & He); [|congruence]. rewrite Hoth in He by congruence. eauto.
  - intros q n Hqn. rewrite elem_snoc. destruct (decide (q = p)) as [->|Hne]; [auto|].
    specialize (Hoth q Hne). unfold entry_at in Hoth. rewrite Hqn in Hoth.
    destruct (cells (kheap m) !! q) eqn:Eq; [|done].
    destruct (di_no_leak _ _ _ _ I q _ Eq); auto.
Qed.

(** What unlinking and dropping a node does to the heap. *)
Lemma unlink_node h d l d2 l2 p :
  heap_wf h -> Repr h d l -> Repr h d2 l2 -> (forall q, q ∈ l -> q ∉ l2) -> p ∈ l ->
  exists h' d', unlink_and_drop h d p = Ok (h', d') /\
    heap_wf h' /\ Repr h' d' (list_remove p l) /\ Repr h' d2 l2 /\ region d' = region d /\
    cells h' !! p = None /\ (forall q, q <> p -> entry_at h' q = entry_at h q).
Proof.
  intros Hwf R R2 Hd Hp.
  destruct (unlink_and_drop_spec _ _ _ _ R Hp) as (h' & d' & E & R' & Hl & Hn & Hout & Hel & _ & Hreg).
  assert (Hat : forall q, q <> p -> entry_at h' q = entry_at h q).
  { intros q Hq. specialize (Hel q Hq). unfold entry_at.
    destruct (cells h' !! q), (cells h !! q); cbn in *; congruence. }
  exists h', d'. split; [done|]. split.
  { intros q n Hq. rewrite Hl. destruct (decide (q = p)) as [->|Hne]; [congruence|].
    specialize (Hel q Hne). rewrite Hq in Hel. destruct (cells h !! q) eqn:Eq; [|done]. by eapply Hwf. }
  split; [done|]. split; [|done].
  eapply repr_frame; [|exact R2]. intros q Hq. apply Hout. intros Hql. by apply (Hd q).
Qed.

(** The two halves of unlinking: the pointer is taken, then the node dropped. *)
Lemma unlink_ao_node m ds P Q e dn p :
  deqs_inv m ds P Q -> dnodes m !! e = Some dn -> access_order_q_node dn = Some (p, 1) ->
  exists h' d', unlink_and_drop (kheap m) (probation ds) p = Ok (h', d') /\
    contains (kheap m) (probation ds) p = Ok true /\
    deqs_inv (put_nodes (with_kheap m h') e (with_ao dn None)) (set_probation ds d') (list_remove p P) Q /\
    (forall q, q <> p -> entry_at h' q = entry_at (kheap m) q) /\ p ∈ P.
Proof.
  intros I Hdn Hao.
  assert (Ho : ao_of m e = Some (p, 1)) by (unfold ao_of; by rewrite Hdn).
  destruct (ao_node _ _ _ _ _ _ _ I Ho) as (_ & Hp & He & _).
  destruct (unlink_node (kheap m) (probation ds) P (write_order ds) Q p)
    as (h' & d' & E & Hwf & R1 & R2 & Hreg & Hn & Hoth); [apply I..|done|].
  exists h', d'. split; [done|]. split; [eapply contains_linked; [apply I|done]|].
  split; [|done]. pose proof (di_disj _ _ _ _ I p Hp) as HpQ.
  split; cbn; try apply I; try done.
  - rewrite Hreg. apply I.
  - intros q [_ Hq]%list_remove_in. by apply (di_disj _ _ _ _ I).
  - intros e' q t. rewrite ao_of_put, ao_of_kheap, list_remove_in. case_decide as Ee; cbn.
    + subst. split; [done|]. intros (-> & [Hne Hin] & Hat). rewrite Hoth in Hat by done.
      assert (Hx : ao_of m e = Some (q, 1)) by (by apply I). congruence.
    + rewrite (di_ao_ptr _ _ _ _ I). split.
      * intros (-> & Hin & Hat). assert (q <> p) by congruence. rewrite Hoth by done. done.
      * intros (-> & [Hne Hin] & Hat). rewrite Hoth in Hat by done. done.
  - intros e' q. rewrite wo_of_put, wo_of_kheap. cbn.
    assert (Hw : (if decide (e' = e) then write_order_q_node dn else wo_of m e') = wo_of m e')
      by (case_decide; [subst; unfold wo_of; by rewrite Hdn|done]).
    rewrite Hw, (di_wo_ptr _ _ _ _ I). split; intros [Hin Hat]; (split; [done|]);
      assert (q <> p) by congruence; [rewrite Hoth by done; done | rewrite Hoth in Hat by done; done].
  - intros q n Hq. rewrite list_remove_in. assert (Hne : q <> p) by congruence.
    specialize (Hoth q Hne). unfold entry_at in Hoth. rewrite Hq in Hoth.
    destruct (cells (kheap m) !! q) eqn:Eq; [|done].
    destruct (di_no_leak _ _ _ _ I q _ Eq); auto.
Qed.

Lemma unlink_wo_node m ds P Q e dn p :
  deqs_inv m ds P Q -> dnodes m !! e = Some dn -> write_order_q_node dn = Some p ->
  exists h' d', unlink_and_drop (kheap m) (write_order ds) p = Ok (h', d') /\
    contains (kheap m) (write_order ds) p = Ok true /\
    deqs_inv (put_nodes (with_kheap m h') e (with_wo dn None)) (set_write_order ds d') P (list_remove p Q) /\
    (forall q, q <> p -> entry_at h' q = entry_at (kheap m) q) /\ p ∈ Q.
Proof.
  intros I Hdn Hwo.
  assert (Ho : wo_of m e = Some p) by (unfold wo_of; by rewrite Hdn).
  destruct (wo_node _ _ _ _ _ _ I Ho) as (Hp & He & _).
  destruct (unlink_node (kheap m) (write_order ds) Q (probation ds) P p)
    as (h' & d' & E & Hwf & R1 & R2 & Hreg & Hn & Hoth); [apply I|apply I|apply I| |done|].
  { intros q HQ HP. by apply (di_disj _ _ _ _ I q). }
  exists h', d'. split; [done|]. split; [eapply contains_linked; [exact (di_wo _ _ _ _ I)|done]|].
  split; [|done].
  assert (HpP : p ∉ P) by (intros HP; by apply (di_disj _ _ _ _ I p)).
  split; cbn; try apply I; try done.
  - intros q HP [_ Hq]%list_remove_in. by apply (di_disj _ _ _ _ I q).
  - intros e' q t. rewrite ao_of_put, ao_of_kheap. cbn.
    assert (Hw : (if decide (e' = e) then access_order_q_node dn else ao_of m e') = ao_of m e')
      by (case_decide; [subst; unfold ao_of; by rewrite Hdn|done]).
    rewrite Hw, (di_ao_ptr _ _ _ _ I). split; intros (-> & Hin & Hat); (split; [done|split; [done|]]);
      assert (q <> p) by congruence; [rewrite Hoth by done; done | rewrite Hoth in Hat by done; done].
  - intros e' q. rewrite wo_of_put, wo_of_kheap, list_remove_in. case_decide as Ee; cbn.
    + subst. split; [done|]. intros ([Hne Hin] & Hat). rewrite Hoth in Hat by done.
      assert (Hx : wo_of m e = Some q) by (by apply I). congruence.
    + rewrite (di_wo_ptr _ _ _ _ I). split.
      * intros (Hin & Hat). assert (q <> p) by congruence. rewrite Hoth by done. done.
      * intros ([Hne Hin] & Hat). rewrite Hoth in Hat by done. done.
  - intros q n Hq. rewrite list_remove_in. assert (Hne : q <> p) by congruence.
    specialize (Hoth q Hne). unfold entry_at in Hoth. rewrite Hq in Hoth.
    destruct (cells (kheap m) !! q) eqn:Eq; [|done].
    destruct (di_no_leak _ _ _ _ I q _ Eq); auto.
Qed.

Lemma with_ao_id dn : access_order_q_node dn = None -> with_ao dn None = dn.
Proof. destruct dn; cbn. by intros ->. Qed.
Lemma with_wo_id dn : write_order_q_node dn = None -> with_wo dn None = dn.
Proof. destruct dn; cbn. by intros ->. Qed.

(** Storing nodes that are there already changes nothing. *)
Lemma put_nodes_id m e dn : dnodes m !! e = Some dn -> put_nodes m e dn = m.
Proof. intros H. destruct m; unfold put_nodes; cbn in *. by rewrite insert_id. Qed.

Definition removed_opt (o : option ptr) (l : list ptr) : list ptr :=
  match o with Some p => list_remove p l | None => l end.

(** The outcome of [unlink_ao] and of its variant on a borrowed deque. *)
Definition unlinked_ao m ds P Q e dn (out : res (Mem K * Deques)) : Prop :=
  exists h' ds',
    out = Ok (put_nodes (with_kheap m h') e (with_ao dn None), ds') /\
    deqs_inv (put_nodes (with_kheap m h') e (with_ao dn None)) ds'
      (removed_opt (fst <$> access_order_q_node dn) P) Q /\
    (forall q, Some q <> (fst <$> access_order_q_node dn) -> entry_at h' q = entry_at (kheap m) q).

Lemma unlink_ao_spec m ds P Q ve dn :
  deqs_inv m ds P Q -> dnodes m !! nodes ve = Some dn ->
  unlinked_ao m ds P Q (nodes ve) dn (unlink_ao m ds ve).
Proof.
  intros I Hdn. unfold unlinked_ao, unlink_ao, take_access_order_q_node, set_access_order_q_node, get_nodes.
  rewrite Hdn. cbn. fold (with_ao dn None).
  destruct (access_order_q_node dn) as [[p t]|] eqn:Hao; cbn.
  - assert (Ho : ao_of m (nodes ve) = Some (p, t)) by (unfold ao_of; by rewrite Hdn).
    destruct (ao_node _ _ _ _ _ _ _ I Ho) as (-> & Hp & He & n & Hn).
    destruct (unlink_ao_node _ _ _ _ _ _ _ I Hdn Hao) as (h' & d' & E & Ec & I' & Hoth & _).
    exists h', (set_probation ds d').
    unfold unlink_node_ao, unlink_node_ao_from_deque. cbn.
    rewrite (deref_ok _ _ _ Hn), (di_prob_region _ _ _ _ I). cbn. rewrite Ec. cbn. rewrite E. cbn.
    split; [done|]. split; [done|]. intros q Hq. apply Hoth. congruence.
  - exists (kheap m), ds. rewrite with_ao_id, with_kheap_id, !put_nodes_id by done. done.
Qed.

Lemma unlink_ao_from_deque_spec m ds P Q ve dn :
  deqs_inv m ds P Q -> dnodes m !! nodes ve = Some dn ->
  unlinked_ao m ds P Q (nodes ve) dn
    ('(m', d) ← unlink_ao_from_deque m (probation ds) ve; Ok (m', set_probation ds d)).
Proof.
  intros I Hdn. pose proof (unlink_ao_spec m ds P Q ve dn I Hdn) as (h' & ds' & E & H).
  exists h', ds'. split; [|done]. rewrite <- E. clear E H.
  unfold unlink_ao, unlink_ao_from_deque, take_access_order_q_node, set_access_order_q_node, get_nodes.
  rewrite Hdn. cbn.
  destruct (access_order_q_node dn) as [[p t]|] eqn:Hao; cbn; [|by rewrite set_probation_id].
  assert (Ho : ao_of m (nodes ve) = Some (p, t)) by (unfold ao_of; by rewrite Hdn).
  destruct (ao_node _ _ _ _ _ _ _ I Ho) as (-> & _). done.
Qed.

Lemma unlink_wo_spec m ds P Q ve dn :
  deqs_inv m ds P Q -> dnodes m !! nodes ve = Some dn ->
  exists h' d',
    unlink_wo m (write_order ds) ve =
      Ok (put_nodes (with_kheap m h') (nodes ve) (with_wo dn None), d') /\
    deqs_inv (put_nodes (with_kheap m h') (nodes ve) (with_wo dn None)) (set_write_order ds d')
      P (removed_opt (write_order_q_node dn) Q) /\
    (forall q, Some q <> write_order_q_node dn -> entry_at h' q = entry_at (kheap m) q).
Proof.
  intros I Hdn. unfold unlink_wo, take_write_order_q_node, set_write_order_q_node, get_nodes.
  rewrite Hdn. cbn. fold (with_wo dn None).
  destruct (write_order_q_node dn) as [p|] eqn:Hwo; cbn.
  - destruct (unlink_wo_node _ _ _ _ _ _ _ I Hdn Hwo) as (h' & d' & E & Ec & I' & Hoth & _).
    exists h', d'. unfold unlink_node_wo. cbn. rewrite Ec. cbn. rewrite E. cbn.
    split; [done|]. split; [done|]. intros q Hq. apply Hoth. congruence.
  - exists (kheap m), (write_order ds). rewrite with_wo_id, with_kheap_id, set_write_order_id, !put_nodes_id by done. done.
Qed.

(** ** The queues as lists of entries *)

Lemma queue_ext m m' P :
  (forall p, p ∈ P -> entry_at (kheap m') p = entry_at (kheap m) p) -> queue m' P = queue m P.
Proof.
  unfold queue. induction P as [|p P IH]; intros H; [done|]. cbn.
  rewrite H by set_solver. destruct (entry_at (kheap m) p); rewrite IH; set_solver.
Qed.

Lemma queue_elem m P e : e ∈ queue m P <-> exists p, p ∈ P /\ entry_at (kheap m) p = Some e.
Proof. unfold queue. rewrite list_elem_of_omap. done. Qed.

Definition inj_on m P : Prop := forall p q e,
  p ∈ P -> q ∈ P -> entry_at (kheap m) p = Some e -> entry_at (kheap m) q = Some e -> p = q.

Lemma inv_inj_ao m ds P Q : deqs_inv m ds P Q -> inj_on m P.
Proof.
  intros I p q e Hp Hq Ep Eq.
  assert (H1 : ao_of m e = Some (p, 1)) by (by apply I).
  assert (H2 : ao_of m e = Some (q, 1)) by (by apply I). congruence.
Qed.

Lemma inv_inj_wo m ds P Q : deqs_inv m ds P Q -> inj_on m Q.
Proof.
  intros I p q e Hp Hq Ep Eq.
  assert (H1 : wo_of m e = Some p) by (by apply I).
  assert (H2 : wo_of m e = Some q) by (by apply I). congruence.
Qed.

Definition forget (e : eid) (l : list eid) : list eid := filter (fun x => x <> e) l.
Definition refresh (e : eid) (l : list eid) : list eid :=
  if decide (e ∈ l) then forget e l ++ [e] else l.

Lemma queue_remove m P p e :
  inj_on m P -> entry_at (kheap m) p = Some e -> p ∈ P ->
  queue m (list_remove p P) = forget e (queue m P).
Proof.
  intros Hi He Hp. unfold queue, forget, list_remove.
  assert (Hsub : forall q, q ∈ P -> entry_at (kheap m) q = Some e -> q = p)
    by (intros q Hq Hqe; by eapply Hi).
  clear Hi Hp. induction P as [|q P IH]; [done|]. rewrite filter_cons. cbn [omap list_omap].
  assert (IH' := IH (fun q Hq => Hsub q (list_elem_of_further _ _ _ Hq))). clear IH.
  destruct (decide (q <> p)) as [Hne|Heq].
  - cbn. destruct (entry_at (kheap m) q) as [x|] eqn:Ex; [|done].
    rewrite filter_cons, decide_True; [by rewrite IH'|].
    intros ->. apply Hne, Hsub; [left|done].
  - apply dec_stable in Heq as ->. rewrite He, filter_cons, decide_False by auto. done.
Qed.

Lemma queue_app m P P' : queue m (P ++ P') = queue m P ++ queue m P'.
Proof. apply omap_app. Qed.

Lemma queue_touched m P p e :
  inj_on m P -> NoDup P -> entry_at (kheap m) p = Some e -> p ∈ P ->
  queue m (touched (Some p) P) = refresh e (queue m P).
Proof.
  intros Hi Hnd He Hp. unfold refresh. rewrite decide_True by (apply queue_elem; eauto).
  rewrite <- (queue_remove m P p e) by done. unfold touched, moved_to_back. case_decide as Hl.
  - apply last_Some in Hl as [P' ->]. rewrite queue_app. cbn. rewrite He. f_equal.
    apply NoDup_app in Hnd as (_ & Hd & _). unfold list_remove.
    rewrite filter_app, filter_cons, decide_False by auto. rewrite filter_nil, app_nil_r.
    f_equal. symmetry. apply filter_keeps.
    intros q Hq ->. apply (Hd p Hq). set_solver.
  - rewrite queue_app. cbn. by rewrite He.
Qed.

Lemma queue_untouched m P e : e ∉ queue m P -> refresh e (queue m P) = queue m P.
Proof. intros H. unfold refresh. by rewrite decide_False. Qed.

Lemma forget_absent e l : e ∉ l -> forget e l = l.
Proof. intros H. apply filter_keeps. by intros x Hx ->. Qed.

Lemma ao_in_queue m ds P Q e : deqs_inv m ds P Q -> e ∈ queue m P <-> is_Some (ao_of m e).
Proof.
  intros I. rewrite queue_elem. split.
  - intros (p & Hp & He). exists (p, 1). by apply I.
  - intros [[p t] H]. apply I in H as (_ & Hp & He). eauto.
Qed.

Lemma wo_in_queue m ds P Q e : deqs_inv m ds P Q -> e ∈ queue m Q <-> is_Some (wo_of m e).
Proof.
  intros I. rewrite queue_elem. split.
  - intros (p & Hp & He). exists p. by apply I.
  - intros [p H]. apply I in H as (Hp & He). eauto.
Qed.

Lemma queue_nodup m P : inj_on m P -> NoDup P -> NoDup (queue m P).
Proof.
  intros Hi Hnd. unfold queue. induction Hnd as [|p P Hp Hnd IH]; cbn; [constructor|].
  assert (IH' : NoDup (omap (entry_at (kheap m)) P)).
  { apply IH. intros q1 q2 e H1 H2. apply Hi; by right. }
  destruct (entry_at (kheap m) p) as [e|] eqn:E; [|done]. constructor; [|done].
  intros (q & Hq & Eq)%list_elem_of_omap. apply Hp.
  by rewrite (Hi p q e (list_elem_of_here _ _) (list_elem_of_further _ _ _ Hq) E Eq).
Qed.

(** The list specification, and the code each operation runs. *)
Inductive qop := PushAo | PushWo | TouchAo | TouchWo | UnlinkAo | UnlinkWo.

Definition spec_op (o : qop) e (s : list eid * list eid) : list eid * list eid :=
  let '(a, w) := s in
  match o with
  | PushAo => (a ++ [e], w)
  | PushWo => (a, w ++ [e])
  | TouchAo => (refresh e a, w)
  | TouchWo => (a, refresh e w)
  | UnlinkAo => (forget e a, w)
  | UnlinkWo => (a, forget e w)
  end.

(** A node is pushed only for an entry that has none in that queue. *)
Definition allowed (o : qop) e (s : list eid * list eid) : Prop :=
  match o with PushAo => e ∉ fst s | PushWo => e ∉ snd s | _ => True end.

Definition run_op (o : qop) m ds ve : res (Mem K * Deques) :=
  match o with
  | PushAo => push_back_ao m ds MainProbation (mkKeyHashDate (info ve)) ve
  | PushWo => push_back_wo m ds (mkKeyHashDate (info ve)) ve
  | TouchAo => move_to_back_ao m ds ve
  | TouchWo => move_to_back_wo m ds ve
  | UnlinkAo => unlink_ao m ds ve
  | UnlinkWo => '(m, d) ← unlink_wo m (write_order ds) ve; Ok (m, set_write_order ds d)
  end.

Definition refines m ds (s : list eid * list eid) : Prop :=
  exists P Q, deqs_inv m ds P Q /\ s = (queue m P, queue m Q).

Lemma refines_relinked m ds P Q out P' Q' s :
  relinked m ds P Q out P' Q' -> s = (queue m P', queue m Q') ->
  exists m' ds', out = Ok (m', ds') /\ refines m' ds' s /\ deq_frame m m'.
Proof.
  intros (h' & ds' & E & I & Hat) ->. exists (with_kheap m h'), ds'. split; [done|].
  split; [|apply kheap_frame]. exists P', Q'. split; [done|].
  f_equal; symmetry; apply queue_ext; intros p _; apply Hat.
Qed.

Lemma refines_put m ds P Q h' ds' e dn dn' P' Q' s :
  dnodes m !! e = Some dn ->
  timer_node dn' = timer_node dn -> timer_node_expiry_gen dn' = timer_node_expiry_gen dn ->
  deqs_inv m ds P Q -> deqs_inv (put_nodes (with_kheap m h') e dn') ds' P' Q' ->
  s = (queue (with_kheap m h') P', queue (with_kheap m h') Q') ->
  refines (put_nodes (with_kheap m h') e dn') ds' s /\ deq_frame m (put_nodes (with_kheap m h') e dn').
Proof.
  intros Hdn Ht Hg I I' ->. split; [|by apply put_nodes_frame with dn].
  exists P', Q'. done.
Qed.

Lemma queue_push m h' P p e :
  p ∉ P -> entry_at h' p = Some e ->
  (forall q, q <> p -> entry_at h' q = entry_at (kheap m) q) ->
  queue (with_kheap m h') (P ++ [p]) = queue m P ++ [e].
Proof.
  intros Hp He Ho. rewrite queue_app. f_equal.
  - apply queue_ext. intros q Hq. apply Ho. by intros ->.
  - cbn. by rewrite He.
Qed.

Lemma queue_drop m h' P (o : option ptr) e :
  inj_on m P ->
  (forall p, p ∈ P -> entry_at (kheap m) p = Some e <-> o = Some p) ->
  (forall p, o = Some p -> p ∈ P) ->
  (forall q, Some q <> o -> entry_at h' q = entry_at (kheap m) q) ->
  queue (with_kheap m h') (removed_opt o P) = forget e (queue m P).
Proof.
  intros Hi He Ho Hat. destruct o as [p|]; cbn [removed_opt].
  - rewrite <- (queue_remove m P p e); [|done|by apply He; auto|auto].
    apply queue_ext. intros q [Hq _]%list_remove_in. apply Hat. congruence.
  - rewrite (queue_ext m) by (intros q _; by apply Hat).
    rewrite forget_absent; [done|]. intros (p & Hp & Hpe)%queue_elem. by apply He in Hpe.
Qed.

(** The queues of the cache behave as two lists of entries: starting from
    queues that denote the lists [s], an operation on an entry neither faults
    nor trips an assertion, and leaves queues that denote what the list
    specification gives.  Nothing but the queues changes (entry metadata and
    timer pointers are kept). *)
Theorem deques_refine_lists m ds s o ve :
  refines m ds s -> is_Some (dnodes m !! nodes ve) -> info ve = nodes ve ->
  allowed o (nodes ve) s ->
  exists m' ds', run_op o m ds ve = Ok (m', ds') /\
    refines m' ds' (spec_op o (nodes ve) s) /\ deq_frame m m'.
Proof.
  intros (P & Q & I & ->) [dn Hdn] Hinfo Hok.
  pose proof (repr_nodup _ _ _ (di_prob _ _ _ _ I)) as HP.
  pose proof (repr_nodup _ _ _ (di_wo _ _ _ _ I)) as HQ.
  pose proof (inv_inj_ao _ _ _ _ I) as IP. pose proof (inv_inj_wo _ _ _ _ I) as IQ.
  pose proof (ao_in_queue _ _ _ _ (nodes ve) I) as Ha. pose proof (wo_in_queue _ _ _ _ (nodes ve) I) as Hw.
  destruct o; cbn [run_op spec_op allowed fst snd] in *; rewrite ?Hinfo.
  - assert (Hao : access_order_q_node dn = None).
    { destruct (access_order_q_node dn) eqn:E; [|done]. exfalso. apply Hok, Ha.
      unfold ao_of. rewrite Hdn. cbn. by rewrite E. }
    destruct (push_back_ao_spec _ _ _ _ _ _ I Hdn Hao) as (h' & ds' & p & E & I' & Hp & He & Ho).
    eexists _, _. split; [exact E|]. eapply refines_put; try done.
    rewrite (queue_push m h' P p (nodes ve)) by done. f_equal. symmetry. apply queue_ext.
    intros q Hq. apply Ho. intros ->. apply (di_disj _ _ _ _ I' p); [set_solver|done].
  - assert (Hwo : write_order_q_node dn = None).
    { destruct (write_order_q_node dn) eqn:E; [|done]. exfalso. apply Hok, Hw.
      unfold wo_of. rewrite Hdn. cbn. by rewrite E. }
    destruct (push_back_wo_spec _ _ _ _ _ _ I Hdn Hwo) as (h' & ds' & p & E & I' & Hp & He & Ho).
    eexists _, _. split; [exact E|]. eapply refines_put; try done.
    rewrite (queue_push m h' Q p (nodes ve)) by done. f_equal. symmetry. apply queue_ext.
    intros q Hq. apply Ho. intros ->. apply (di_disj _ _ _ _ I' p); [done|set_solver].
  - eapply refines_relinked; [by apply move_to_back_ao_spec|]. f_equal.
    destruct (ao_of m (nodes ve)) as [[p t]|] eqn:E.
    + apply I in E as (_ & Hp & He). symmetry. by apply queue_touched.
    + apply queue_untouched. rewrite Ha. by apply eq_None_not_Some.
  - eapply refines_relinked; [by apply move_to_back_wo_spec|]. f_equal.
    destruct (wo_of m (nodes ve)) as [p|] eqn:E.
    + apply I in E as (Hp & He). symmetry. by apply queue_touched.
    + apply queue_untouched. rewrite Hw. by apply eq_None_not_Some.
  - destruct (unlink_ao_spec _ _ _ _ _ _ I Hdn) as (h' & ds' & E & I' & Ho).
    eexists _, _. split; [exact E|]. eapply refines_put; try done.
    rewrite <- (ao_of_nodes _ _ _ Hdn) in Ho |- *. f_equal; symmetry.
    + apply (queue_drop m h' P _ (nodes ve)); [done| | |done].
      * intros p Hp. split.
        -- intros He. assert (Hx : ao_of m (nodes ve) = Some (p, 1)) by (by apply I). by rewrite Hx.
        -- intros ([q t] & Hq & ->)%fmap_Some. apply I in Hq. by destruct Hq as (_ & _ & ?).
      * intros p ([q t] & Hq & ->)%fmap_Some. apply I in Hq. by destruct Hq as (_ & ? & _).
    + apply queue_ext. intros q Hq. apply Ho. intros Eq. symmetry in Eq.
      apply fmap_Some in Eq as ([q' t] & Eq & ->). apply I in Eq as (_ & Hin & _).
      by apply (di_disj _ _ _ _ I q').
  - destruct (unlink_wo_spec _ _ _ _ _ _ I Hdn) as (h' & d' & E & I' & Ho).
    eexists _, _. rewrite E. split; [reflexivity|]. eapply refines_put; try done.
    rewrite <- (wo_of_nodes _ _ _ Hdn) in Ho |- *. f_equal; symmetry.
    + apply queue_ext. intros q Hq. apply Ho. intros Eq. symmetry in Eq. apply I in Eq as (Hin & _).
      by apply (di_disj _ _ _ _ I q).
    + apply (queue_drop m h' Q _ (nodes ve)); [done| | |done].
      * intros p Hp. split; [intros He; by apply I|]. intros Hq. apply I in Hq. tauto.
      * intros p Hq. apply I in Hq. tauto.
Qed.

Lemma empty_repr {T} (h : heap T) r : Repr h (new_deque r) [].
Proof. split; cbn; (done || constructor). Qed.

Lemma default_inv m :
  kheap m = empty_heap -> (forall e, ao_of m e = None) -> (forall e, wo_of m e = None) ->
  deqs_inv m default_deques [] [].
Proof.
  intros Hk Ha Hw. split; cbn; try done.
  - rewrite Hk. intros p n Hp. cbn in Hp. by rewrite lookup_empty in Hp.
  - apply empty_repr.
  - apply empty_repr.
  - set_solver.
  - intros e p t. rewrite Ha. set_solver.
  - intros e p. rewrite Hw. set_solver.
  - rewrite Hk. intros p n Hp. cbn in Hp. by rewrite lookup_empty in Hp.
Qed.
End inv.

(** ** Witness *)

Definition one_entry : Mem Z := put_nodes empty_mem 1%positive default_deq_nodes.

Lemma deques_refine_lists_witness :
  exists m' ds', run_op PushAo one_entry default_deques (mkValueEntry 5 1%positive 1%positive) = Ok (m', ds') /\
    refines m' ds' ([1%positive], []) /\ deq_frame one_entry m'.
Proof.
  apply (deques_refine_lists one_entry default_deques ([], []) PushAo (mkValueEntry 5 1%positive 1%positive)).
  - exists [], []. split; [|done]. apply default_inv; [done| |]; intros e;
      unfold ao_of, wo_of, one_entry; cbn;
      (destruct (decide (1%positive = e)) as [<-|]; [by rewrite lookup_insert_eq|by rewrite lookup_insert_ne]).
  - eexists. apply lookup_insert_eq.
  - reflexivity.
  - cbn. set_solver.
Defined.
