(* ===== verification/TimerWheel.v ===== *)
(** Timer wheel (src/common/timer_wheel.rs): the hierarchical wheel that fires
    per-entry expirations.  Five levels of buckets; a bucket is a deque with one
    sentinel node; an entry's timer node knows its bucket and the entry knows its
    timer node.

    The model keeps the buckets at the level of pointers and the iterator
    returned by [advance] as an explicit state machine.  [wheel_inv] ties nodes,
    buckets and entries together.  The theorems show that no operation faults,
    that bucket indices stay in range, that advancing terminates, never fires a
    timer early and visits the bucket of every due timer. *)
From S2P Require Import Prelude Common Deque Time EntryInfo Concurrent Deques.

(** ** Constants *)

(** [u64::trailing_zeros] *)
Fixpoint pos_trailing_zeros (p : positive) : Z :=
  match p with xO p' => 1 + pos_trailing_zeros p' | _ => 0 end.
Definition trailing_zeros (x : Z) : Z :=
  match x with Zpos p => pos_trailing_zeros p | _ => 64 end.

Definition BUCKET_COUNTS : list Z := [64; 64; 32; 4; 1].
Definition OVERFLOW_QUEUE_INDEX : Z := Z.of_nat (length BUCKET_COUNTS) - 1.
Definition NUM_LEVELS : Z := OVERFLOW_QUEUE_INDEX - 1.
Definition DAY : Duration := from_secs (60 * 60 * 24).

Definition aligned_duration (d : Duration) : Z := next_power_of_two (wrap 64 d).

Definition bucket_count (level : nat) : Z := nth level BUCKET_COUNTS 0.

Definition SPANS : list Z :=
  [ aligned_duration (from_secs 1);
    aligned_duration (from_secs 60);
    aligned_duration (from_secs (60 * 60));
    aligned_duration DAY;
    bucket_count 3 * aligned_duration DAY;
    bucket_count 3 * aligned_duration DAY ].

Definition SHIFT : list Z := map trailing_zeros (take 5 SPANS).

(** ** Timer nodes *)

(** [TimerNode::new]; a position is stored as two bytes. *)
Definition timer_node_new (entry_info deq_nodes : eid) (expiry_gen level index : Z) : TimerNode :=
  TimerEntry (Some (wrap 8 level, wrap 8 index)) expiry_gen entry_info deq_nodes.
Definition position (t : TimerNode) : res (option (Z * Z)) :=
  match t with TimerEntry pos _ _ _ => Ok pos | Sentinel => Fail Unreachable end.
Definition set_position (t : TimerNode) (level index : Z) : res TimerNode :=
  match t with
  | TimerEntry _ g i n => Ok (TimerEntry (Some (wrap 8 level, wrap 8 index)) g i n)
  | Sentinel => Fail Unreachable
  end.
Definition unset_position (t : TimerNode) : res TimerNode :=
  match t with TimerEntry _ g i n => Ok (TimerEntry None g i n) | Sentinel => Fail Unreachable end.
Definition is_sentinel (t : TimerNode) : bool :=
  match t with Sentinel => true | TimerEntry _ _ _ _ => false end.
Definition tn_entry_info (t : TimerNode) : res eid :=
  match t with TimerEntry _ _ i _ => Ok i | Sentinel => Fail Unreachable end.
Definition tn_expiry_gen (t : TimerNode) : Z :=
  match t with TimerEntry _ g _ _ => g | Sentinel => 0 end.

Inductive ReschedulingResult := Rescheduled | Removed (node : ptr).

Record TimerWheel := mkTimerWheel {
  wheels : list (list Deque);
  origin : Instant;
  current : Instant
}.

Definition new_timer_wheel (now : Instant) : TimerWheel := mkTimerWheel [] now now.
Definition is_enabled (tw : TimerWheel) : bool :=
  match wheels tw with [] => false | _ :: _ => true end.
Definition set_current (tw : TimerWheel) (t : Instant) : TimerWheel :=
  mkTimerWheel (wheels tw) (origin tw) t.

(** [wheels[level][index]], for reading and for writing. *)
Definition get_bucket (tw : TimerWheel) (level index : Z) : res Deque :=
  w ← expect_some OutOfBounds (wheels tw !! Z.to_nat level);
  expect_some OutOfBounds (w !! Z.to_nat index).
Definition put_bucket (tw : TimerWheel) (level index : Z) (d : Deque) : TimerWheel :=
  mkTimerWheel (alter (fun w => <[Z.to_nat index := d]> w) (Z.to_nat level) (wheels tw))
    (origin tw) (current tw).

(** ** Which bucket a time belongs to *)

(** The difference of two instants fits [u64], so the casts are exact. *)
Definition duration_nanos_since_last_advanced (tw : TimerWheel) (time : Instant) : Z :=
  wrap 64 (saturating_duration_since time (current tw)).
Definition time_nanos (tw : TimerWheel) (time : Instant) : Z :=
  let nanos := saturating_duration_since time (origin tw) in
  if nanos <=? U64_MAX then nanos else U64_MAX.

(** The [for] loop over the levels. *)
Fixpoint find_level (dur time : Z) (levels : list nat) : res (Z * Z) :=
  match levels with
  | [] => Ok (OVERFLOW_QUEUE_INDEX, 0)
  | level :: levels' =>
      span ← expect_some OutOfBounds (SPANS !! S level);
      if dur <? span then
        sh ← expect_some OutOfBounds (SHIFT !! level);
        n ← expect_some OutOfBounds (BUCKET_COUNTS !! level);
        let ticks := Z.shiftr time sh in
        Ok (Z.of_nat level, Z.land ticks (n - 1))
      else find_level dur time levels'
  end.

Definition bucket_indices (tw : TimerWheel) (time : Instant) : res (Z * Z) :=
  find_level (duration_nanos_since_last_advanced tw time) (time_nanos tw time)
    (seq 0 (Z.to_nat (NUM_LEVELS + 1))).

Section ops.
Context {K : Type}.
Implicit Types (m : Mem K) (tw : TimerWheel) (node : ptr).

(** [TimerNode::unset_timer_node_in_deq_nodes] *)
Definition unset_timer_node_in_deq_nodes m (t : TimerNode) : res (Mem K) :=
  match t with
  | TimerEntry _ _ _ n => set_timer_node m n None 0
  | Sentinel => Fail Unreachable
  end.

(** A bucket: a deque holding only a sentinel. *)
Definition new_bucket (h : heap TimerNode) : res (heap TimerNode * Deque) :=
  let '(h, p) := new_node h Sentinel in push_back h (new_deque Other) p.
Fixpoint new_buckets (n : nat) (h : heap TimerNode) : res (heap TimerNode * list Deque) :=
  match n with
  | O => Ok (h, [])
  | S n' => '(h, d) ← new_bucket h; '(h, l) ← new_buckets n' h; Ok (h, d :: l)
  end.
Fixpoint new_wheels (counts : list Z) (h : heap TimerNode) : res (heap TimerNode * list (list Deque)) :=
  match counts with
  | [] => Ok (h, [])
  | b :: counts' =>
      '(h, w) ← new_buckets (Z.to_nat b) h; '(h, ws) ← new_wheels counts' h; Ok (h, w :: ws)
  end.

Definition enable m tw : res (Mem K * TimerWheel) :=
  _ ← assert_that (negb (is_enabled tw));
  '(h, ws) ← new_wheels BUCKET_COUNTS (theap m);
  Ok (with_theap m h, mkTimerWheel ws (origin tw) (current tw)).

Definition schedule m tw (entry_info deq_nodes : eid) (expiry_gen : Z)
    : res (Mem K * TimerWheel * option ptr) :=
  _ ← assert_that (is_enabled tw);
  ei ← get_info m entry_info;
  let '(opt_time, current_gen) := expiration_state ei in
  if negb (current_gen =? expiry_gen) then Ok (m, tw, None)
  else
    match opt_time with
    | Some t =>
        '(level, index) ← bucket_indices tw t;
        let '(h, node) := new_node (theap m) (timer_node_new entry_info deq_nodes expiry_gen level index) in
        d ← get_bucket tw level index;
        '(h, d) ← push_back h d node;
        Ok (with_theap m h, put_bucket tw level index d, Some node)
    | None => Ok (m, tw, None)
    end.

Definition schedule_existing_node m tw node : res (Mem K * TimerWheel * ReschedulingResult) :=
  _ ← assert_that (is_enabled tw);
  n ← deref (theap m) node;
  e ← tn_entry_info (element n);
  ei ← get_info m e;
  match fst (expiration_state ei) with
  | Some t =>
      '(level, index) ← bucket_indices tw t;
      el ← set_position (element n) level index;
      h ← set_element (theap m) node el;
      d ← get_bucket tw level index;
      '(h, d) ← push_back h d node;
      Ok (with_theap m h, put_bucket tw level index d, Rescheduled)
  | None =>
      el ← unset_position (element n);
      h ← set_element (theap m) node el;
      m ← unset_timer_node_in_deq_nodes (with_theap m h) el;
      Ok (m, tw, Removed node)
  end.

Definition unlink_timer m tw node : res (Mem K * TimerWheel * bool) :=
  n ← deref (theap m) node;
  match element n with
  | Sentinel => Ok (m, tw, false)
  | TimerEntry pos _ _ _ =>
      '(m, tw) ← match pos with
                 | None => Ok (m, tw)
                 | Some (level, index) =>
                     d ← get_bucket tw level index;
                     '(h, d) ← unlink (theap m) d node;
                     el ← unset_position (element n);
                     h ← set_element h node el;
                     Ok (with_theap m h, put_bucket tw level index d)
                 end;
      Ok (m, tw, true)
  end.

Definition reschedule m tw node (expected_expiry_gen : Z)
    : res (Mem K * TimerWheel * option ReschedulingResult) :=
  _ ← assert_that (is_enabled tw);
  n ← deref (theap m) node;
  if negb (tn_expiry_gen (element n) =? expected_expiry_gen) then Ok (m, tw, None)
  else
    '(m, tw, ok) ← unlink_timer m tw node;
    if (ok : bool) then
      '(m, tw, r) ← schedule_existing_node m tw node; Ok (m, tw, Some r)
    else Ok (m, tw, None).

Definition deschedule m tw node (expected_expiry_gen : Z) : res (Mem K * TimerWheel * bool) :=
  _ ← assert_that (is_enabled tw);
  n ← deref (theap m) node;
  if negb (tn_expiry_gen (element n) =? expected_expiry_gen) then Ok (m, tw, false)
  else
    '(m, tw, ok) ← unlink_timer m tw node;
    if (ok : bool) then
      h ← drop_node (theap m) node; Ok (with_theap m h, tw, true)
    else Ok (m, tw, false).

Definition pop_timer_node m tw (level index : Z) : res (Mem K * TimerWheel * option ptr) :=
  d ← get_bucket tw level index;
  front ← peek_front (theap m) d;
  if match front with Some n => is_sentinel (element n) | None => false end
  then Ok (m, tw, None)
  else
    '(h, d, popped) ← pop_front (theap m) d;
    h ← match popped with
        | Some p => n ← deref h p; el ← unset_position (element n); set_element h p el
        | None => Ok h
        end;
    Ok (with_theap m h, put_bucket tw level index d, popped).

(** The [while] loop that rotates the bucket until the sentinel is at the back;
    the bucket's length bounds its rounds. *)
Fixpoint rotate_to_sentinel (fuel : nat) (h : heap TimerNode) (d : Deque) : res (heap TimerNode * Deque) :=
  b ← peek_back h d;
  n ← expect_some UnwrapNone b;
  if is_sentinel (element n) then Ok (h, d)
  else
    match fuel with
    | O => Fail Diverged
    | S fuel' => '(h, d) ← move_front_to_back h d; rotate_to_sentinel fuel' h d
    end.

Definition reset_timer_node_positions m tw (level index : Z) : res (Mem K * TimerWheel) :=
  d ← get_bucket tw level index;
  _ ← assert_that (0 <? len d);
  '(h, d) ← rotate_to_sentinel (Z.to_nat (len d)) (theap m) d;
  Ok (with_theap m h, put_bucket tw level index d).

(** ** The iterator of [advance] *)

Inductive TimerEvent := Expired (node : ptr) | RescheduledEvent | Descheduled.

Record TimerEventsIter := mkIter {
  previous_time : Instant;
  current_time : Instant;
  is_done : bool;
  level : Z;
  index : Z;
  end_index : Z;
  index_mask : Z;
  is_new_level : bool;
  is_new_index : bool
}.

Definition new_iter (previous current : Instant) : TimerEventsIter :=
  mkIter previous current false 0 0 0 0 true true.

Definition advance tw (now : Instant) : TimerWheel * TimerEventsIter :=
  (set_current tw now, new_iter (current tw) now).

Definition done it := mkIter (previous_time it) (current_time it) true (level it) (index it)
  (end_index it) (index_mask it) (is_new_level it) (is_new_index it).

(** [Drop for TimerEventsIter] *)
Definition drop_iter tw (it : TimerEventsIter) : TimerWheel :=
  if is_done it then tw else set_current tw (previous_time it).

(** Entering a level: [None] when its tick has not changed. *)
Definition enter_level tw (it : TimerEventsIter) : res (option TimerEventsIter) :=
  let previous_nanos := time_nanos tw (previous_time it) in
  let current_nanos := time_nanos tw (current_time it) in
  sh ← expect_some OutOfBounds (SHIFT !! Z.to_nat (level it));
  let previous_ticks := Z.shiftr previous_nanos sh in
  let current_ticks := Z.shiftr current_nanos sh in
  if current_ticks <=? previous_ticks then Ok None
  else
    n ← expect_some OutOfBounds (BUCKET_COUNTS !! Z.to_nat (level it));
    let mask := n - 1 in
    let idx := wrap 8 (Z.land previous_ticks mask) in
    diff ← checked_add 64 (current_ticks - previous_ticks) 1;
    let steps := wrap 8 (Z.min diff n) in
    end_idx ← checked_add 8 idx steps;
    Ok (Some (mkIter (previous_time it) (current_time it) (is_done it) (level it) idx end_idx mask false true)).

Definition with_new_index (it : TimerEventsIter) (b : bool) :=
  mkIter (previous_time it) (current_time it) (is_done it) (level it) (index it) (end_index it)
    (index_mask it) (is_new_level it) b.

(** What one round of the loop of [next] does: it goes on, or returns. *)
Inductive round_result := Continue | Return (ev : option TimerEvent).

(** The popped node is handled: expired, rescheduled or dropped. *)
Definition handle_popped m tw (it : TimerEventsIter) node : res (Mem K * TimerWheel * round_result) :=
  n ← deref (theap m) node;
  e ← tn_entry_info (element n);
  ei ← get_info m e;
  match fst (expiration_state ei) with
  | Some t =>
      if t <=? current_time it then
        m ← unset_timer_node_in_deq_nodes m (element n);
        Ok (m, tw, Return (Some (Expired node)))
      else
        '(m, tw, r) ← schedule_existing_node m tw node;
        match r with
        | Rescheduled => Ok (m, tw, Return (Some RescheduledEvent))
        | Removed node =>
            n ← deref (theap m) node;
            m ← unset_timer_node_in_deq_nodes m (element n);
            h ← drop_node (theap m) node;
            Ok (with_theap m h, tw, Return (Some Descheduled))
        end
  | None =>
      m ← unset_timer_node_in_deq_nodes m (element n);
      h ← drop_node (theap m) node;
      Ok (with_theap m h, tw, Continue)
  end.

(** The queue is done: the next index, or the next level, or the end. *)
Definition next_queue (it : TimerEventsIter) : res (TimerEventsIter * round_result) :=
  idx ← checked_add 8 (index it) 1;
  if end_index it <=? idx then
    let lv := level it + 1 in
    let fin := Z.of_nat (length BUCKET_COUNTS) <=? lv in
    Ok (mkIter (previous_time it) (current_time it) (fin || is_done it) lv idx (end_index it)
          (index_mask it) (negb fin || is_new_level it) true,
        if fin then Return None else Continue)
  else
    Ok (mkIter (previous_time it) (current_time it) (is_done it) (level it) idx (end_index it)
          (index_mask it) (is_new_level it) true, Continue).

(** One round of the loop, after the level was entered. *)
Definition bucket_round m tw (it : TimerEventsIter)
    : res (Mem K * TimerWheel * TimerEventsIter * round_result) :=
  let i := Z.land (index it) (wrap 8 (index_mask it)) in
  '(m, tw) ← (if is_new_index it then reset_timer_node_positions m tw (level it) i else Ok (m, tw));
  let it := with_new_index it false in
  '(m, tw, popped) ← pop_timer_node m tw (level it) i;
  match popped with
  | Some node => '(m, tw, r) ← handle_popped m tw it node; Ok (m, tw, it, r)
  | None => '(it, r) ← next_queue it; Ok (m, tw, it, r)
  end.

Definition iter_round m tw (it : TimerEventsIter)
    : res (Mem K * TimerWheel * TimerEventsIter * round_result) :=
  if is_new_level it then
    o ← enter_level tw it;
    match o with
    | None => Ok (m, tw, done it, Return None)
    | Some it => bucket_round m tw it
    end
  else bucket_round m tw it.

(** [Iterator::next] *)
Fixpoint timer_next (fuel : nat) m tw (it : TimerEventsIter)
    : res (Mem K * TimerWheel * TimerEventsIter * option TimerEvent) :=
  if is_done it then Ok (m, tw, it, None)
  else
    match fuel with
    | O => Fail Diverged
    | S fuel' =>
        '(m, tw, it, r) ← iter_round m tw it;
        match r with
        | Return ev => Ok (m, tw, it, ev)
        | Continue => timer_next fuel' m tw it
        end
    end.
End ops.

(** ** The bucket of a time is one of the wheel's buckets *)

Definition valid_pos (l i : Z) : Prop := 0 <= l < 5 /\ 0 <= i < bucket_count (Z.to_nat l).

Lemma spans_value : SPANS = [2 ^ 30; 2 ^ 36; 2 ^ 42; 2 ^ 47; 2 ^ 49; 2 ^ 49].
Proof. vm_compute. reflexivity. Qed.
Lemma shift_value : SHIFT = [30; 36; 42; 47; 49].
Proof. vm_compute. reflexivity. Qed.

Lemma bucket_count_pow2 l : 0 <= l < 5 ->
  exists k, 0 <= k <= 6 /\ bucket_count (Z.to_nat l) = 2 ^ k.
Proof.
  intros H. assert (l = 0 \/ l = 1 \/ l = 2 \/ l = 3 \/ l = 4) as [->|[->|[->|[->| ->]]]] by lia.
  - exists 6. split; [lia|reflexivity].
  - exists 6. split; [lia|reflexivity].
  - exists 5. split; [lia|reflexivity].
  - exists 2. split; [lia|reflexivity].
  - exists 0. split; [lia|reflexivity].
Qed.

Lemma valid_pos_u8 l i : valid_pos l i -> wrap 8 l = l /\ wrap 8 i = i.
Proof.
  intros [Hl Hi]. destruct (bucket_count_pow2 l Hl) as (k & Hk & E). rewrite E in Hi.
  assert (2 ^ k <= 2 ^ 6) by (apply Z.pow_le_mono_r; lia).
  unfold wrap. rewrite !Z.mod_small by lia. done.
Qed.

(** The level and index of a time [t] seen from the wheel's current time. *)
Definition level_of (dur : Z) : Z :=
  if dur <? 2 ^ 36 then 0 else if dur <? 2 ^ 42 then 1
  else if dur <? 2 ^ 47 then 2 else if dur <? 2 ^ 49 then 3 else 4.
Definition tick (l : Z) (nanos : Z) : Z := Z.shiftr nanos (nth (Z.to_nat l) SHIFT 0).
Definition index_in (l nanos : Z) : Z := tick l nanos mod bucket_count (Z.to_nat l).

Lemma land_bucket_mask l x : 0 <= l < 5 ->
  Z.land x (bucket_count (Z.to_nat l) - 1) = x mod bucket_count (Z.to_nat l).
Proof.
  intros Hl. destruct (bucket_count_pow2 l Hl) as (k & Hk & ->).
  rewrite <- Z.land_ones by lia. f_equal. rewrite Z.ones_equiv. lia.
Qed.

Lemma level_of_range dur : 0 <= level_of dur < 5.
Proof. unfold level_of. repeat case_match; lia. Qed.

Lemma bucket_indices_spec tw t :
  let dur := duration_nanos_since_last_advanced tw t in
  bucket_indices tw t = Ok (level_of dur, index_in (level_of dur) (time_nanos tw t)).
Proof.
  intros dur. unfold bucket_indices. fold dur. set (tn := time_nanos tw t).
  change (Z.to_nat (NUM_LEVELS + 1)) with 4%nat. cbn [seq find_level].
  rewrite spans_value, shift_value. unfold level_of.
  assert (Hi : forall l, 0 <= l < 5 ->
    Z.land (tick l tn) (bucket_count (Z.to_nat l) - 1) = index_in l tn)
    by (intros l Hl; by apply land_bucket_mask).
  pose proof (Hi 0 ltac:(lia)) as H0. pose proof (Hi 1 ltac:(lia)) as H1.
  pose proof (Hi 2 ltac:(lia)) as H2. pose proof (Hi 3 ltac:(lia)) as H3.
  unfold tick in *. rewrite shift_value in *.
  cbn [lookup list_lookup expect_some mbind res_bind nth Z.to_nat Pos.to_nat Pos.iter_op Nat.add] in *.
  change (Z.to_nat 0) with 0%nat in *. change (Z.to_nat 1) with 1%nat in *.
  change (Z.to_nat 2) with 2%nat in *. change (Z.to_nat 3) with 3%nat in *.
  cbn [nth] in *.
  destruct (dur <? 2 ^ 36); [by rewrite <- H0|]. destruct (dur <? 2 ^ 42); [by rewrite <- H1|].
  destruct (dur <? 2 ^ 47); [by rewrite <- H2|]. destruct (dur <? 2 ^ 49); [by rewrite <- H3|].
  unfold index_in. change (bucket_count (Z.to_nat 4)) with 1. by rewrite Z.mod_1_r.
Qed.

Lemma index_in_valid l nanos : 0 <= l < 5 -> valid_pos l (index_in l nanos).
Proof.
  intros Hl. split; [done|]. destruct (bucket_count_pow2 l Hl) as (k & Hk & E).
  unfold index_in. rewrite E. apply Z.mod_pos_bound. apply Z.pow_pos_nonneg; lia.
Qed.

Lemma bucket_indices_valid tw t : exists l i, bucket_indices tw t = Ok (l, i) /\ valid_pos l i.
Proof.
  pose proof (bucket_indices_spec tw t) as E. cbn in E.
  eexists _, _. split; [exact E|]. apply index_in_valid, level_of_range.
Qed.

(** ** Buckets *)

Definition shape (tw : TimerWheel) : Prop :=
  map length (wheels tw) = map Z.to_nat BUCKET_COUNTS.

Lemma shape_lookup tw l i : shape tw -> valid_pos l i -> exists w d,
  wheels tw !! Z.to_nat l = Some w /\ w !! Z.to_nat i = Some d /\ get_bucket tw l i = Ok d.
Proof.
  intros Hs [Hl Hi]. unfold shape in Hs.
  assert (Hlen : length (wheels tw) = 5%nat) by (apply (f_equal length) in Hs; by rewrite !length_map in Hs).
  destruct (lookup_lt_is_Some_2 (wheels tw) (Z.to_nat l)) as [w Hw]; [lia|].
  assert (Hwl : length w = Z.to_nat (bucket_count (Z.to_nat l))).
  { apply (f_equal (fun x => x !! Z.to_nat l)) in Hs. rewrite !list_lookup_fmap, Hw in Hs.
    cbn [fmap option_fmap option_map] in Hs. unfold bucket_count.
    rewrite (nth_lookup BUCKET_COUNTS). destruct (BUCKET_COUNTS !! Z.to_nat l); cbn in *; congruence. }
  destruct (lookup_lt_is_Some_2 w (Z.to_nat i)) as [d Hd]; [lia|].
  exists w, d. unfold get_bucket. rewrite Hw. cbn. rewrite Hd. done.
Qed.

Lemma put_bucket_shape tw l i d : shape tw -> shape (put_bucket tw l i d).
Proof.
  unfold shape. intros <-. cbn. apply list_eq. intros j.
  rewrite !list_lookup_fmap, list_lookup_alter. case_decide as E; [|done]. subst.
  destruct (wheels tw !! Z.to_nat l); cbn; [by rewrite length_insert|done].
Qed.

Lemma get_put_bucket tw l i l' i' d :
  shape tw -> valid_pos l i -> valid_pos l' i' ->
  get_bucket (put_bucket tw l i d) l' i' = if decide (l' = l /\ i' = i) then Ok d else get_bucket tw l' i'.
Proof.
  intros Hs Hv Hv'. destruct (shape_lookup tw l i Hs Hv) as (w & d0 & Hw & Hd & _).
  destruct Hv as [Hl Hi], Hv' as [Hl' Hi'].
  unfold get_bucket, put_bucket. cbn. rewrite list_lookup_alter.
  destruct (decide (l' = l)) as [->|Hne].
  - rewrite decide_True by done. rewrite Hw. cbn.
    destruct (decide (i' = i)) as [->|Hni].
    + rewrite decide_True by done. rewrite list_lookup_insert_eq; [done|]. by eapply lookup_lt_Some.
    + rewrite decide_False by tauto. rewrite list_lookup_insert_ne by lia. done.
  - rewrite (decide_False (P := l' = l /\ i' = i)) by tauto. rewrite decide_False by lia. done.
Qed.

(** ** The invariant *)

Definition timer_at (h : heap TimerNode) (p : ptr) : option TimerNode := element <$> cells h !! p.

(** The timer node an entry points to, with the generation it remembers. *)
Definition tn_of {K} (m : Mem K) (e : eid) : option (ptr * Z) :=
  dn ← dnodes m !! e; p ← timer_node dn; Some (p, timer_node_expiry_gen dn).

(** The nodes of every bucket. *)
Definition buckets := Z -> Z -> list ptr.
Definition upd (B : buckets) (l i : Z) (b : list ptr) : buckets :=
  fun l' i' => if decide (l' = l /\ i' = i) then b else B l' i'.

Record buckets_inv (h : heap TimerNode) (tw : TimerWheel) (B : buckets) : Prop := {
  bi_wf : heap_wf h;
  bi_shape : wheels tw = [] \/ shape tw;
  bi_repr : forall l i d, valid_pos l i -> get_bucket tw l i = Ok d -> Repr h d (B l i);
  bi_out : forall l i p, p ∈ B l i -> valid_pos l i /\ shape tw;
  bi_disj : forall l i l' i' p, p ∈ B l i -> p ∈ B l' i' -> l' = l /\ i' = i
}.

(** [O] holds the nodes that are out of the wheel at the moment: popped or
    unlinked, and owned by the running operation. *)
Record wheel_inv {K} (m : Mem K) (tw : TimerWheel) (B : buckets) (O : list ptr) : Prop := {
  wi_buckets : buckets_inv (theap m) tw B;
  wi_sentinel : forall l i, shape tw -> valid_pos l i -> exists s,
    s ∈ B l i /\ forall p, p ∈ B l i -> timer_at (theap m) p = Some Sentinel <-> p = s;
  wi_entry : forall l i p pos g e n, p ∈ B l i -> timer_at (theap m) p = Some (TimerEntry pos g e n) ->
    pos = Some (l, i) /\ n = e /\ tn_of m e = Some (p, g);
  wi_owned : forall p, p ∈ O -> (forall l i, p ∉ B l i) /\
    exists pos g e, timer_at (theap m) p = Some (TimerEntry pos g e e);
  wi_ptr : forall e p g, tn_of m e = Some (p, g) ->
    (exists l i, p ∈ B l i /\ timer_at (theap m) p = Some (TimerEntry (Some (l, i)) g e e)) \/
    (p ∈ O /\ exists pos, timer_at (theap m) p = Some (TimerEntry pos g e e));
  wi_live : forall p n, cells (theap m) !! p = Some n -> (exists l i, p ∈ B l i) \/ p ∈ O
}.

(** What the wheel's operations leave alone. *)
Record wheel_frame {K} (m m' : Mem K) : Prop := {
  wf_infos : infos m' = infos m;
  wf_next : next_eid m' = next_eid m;
  wf_kheap : kheap m' = kheap m;
  wf_queues : forall e, (fun dn => (access_order_q_node dn, write_order_q_node dn)) <$> dnodes m' !! e =
                        (fun dn => (access_order_q_node dn, write_order_q_node dn)) <$> dnodes m !! e
}.

#[export] Instance wheel_frame_refl {K} : Reflexive (wheel_frame (K := K)).
Proof. by intros m. Qed.
#[export] Instance wheel_frame_trans {K} : Transitive (wheel_frame (K := K)).
Proof. intros m1 m2 m3 [] []. split; congruence. Qed.

Lemma theap_frame {K} (m : Mem K) h : wheel_frame m (with_theap m h).
Proof. by split. Qed.

Lemma relinks_timer_at h h' l p : relinks h h' l -> timer_at h' p = timer_at h p.
Proof. intros R. apply R. Qed.

Lemma upd_same B l i b : upd B l i b l i = b.
Proof. unfold upd. by rewrite decide_True. Qed.
Lemma upd_other B l i b l' i' : ~ (l' = l /\ i' = i) -> upd B l i b l' i' = B l' i'.
Proof. intros H. unfold upd. by rewrite decide_False. Qed.

Lemma is_enabled_shape h tw B : buckets_inv h tw B -> is_enabled tw = true <-> shape tw.
Proof.
  intros I. unfold is_enabled. destruct (bi_shape _ _ _ I) as [E|Hs].
  - rewrite E. unfold shape. rewrite E. split; discriminate.
  - split; [done|]. intros _. unfold shape in Hs. destruct (wheels tw); [discriminate|done].
Qed.

(** One bucket changes; its new nodes lie in no other bucket, and the nodes of
    the other buckets are untouched. *)
Lemma bucket_change h tw B l i h' d' b' :
  buckets_inv h tw B -> shape tw -> valid_pos l i ->
  heap_wf h' -> Repr h' d' b' ->
  (forall l' i' q, ~ (l' = l /\ i' = i) -> q ∈ B l' i' -> cells h' !! q = cells h !! q) ->
  (forall l' i' q, ~ (l' = l /\ i' = i) -> q ∈ b' -> q ∉ B l' i') ->
  buckets_inv h' (put_bucket tw l i d') (upd B l i b').
Proof.
  intros I Hs Hv Hwf R Hf Hd. pose proof (put_bucket_shape tw l i d' Hs) as Hs'.
  split; [done|auto| | |].
  - intros l' i' d Hv' Hg. rewrite get_put_bucket in Hg by done. unfold upd.
    case_decide as E; [by injection Hg as <-|].
    eapply repr_frame; [|by eapply (bi_repr _ _ _ I)]. intros p Hp. by apply (Hf l' i').
  - intros l' i' p. unfold upd. case_decide as E; [destruct E; by subst|].
    intros Hp. split; [|done]. by apply (bi_out _ _ _ I) in Hp as [? _].
  - intros l1 i1 l2 i2 p. unfold upd. case_decide as E1; case_decide as E2; intros H1 H2.
    + destruct E1, E2. by subst.
    + destruct (Hd l2 i2 p E2 H1 H2).
    + destruct (Hd l1 i1 p E1 H2 H1).
    + by apply (bi_disj _ _ _ I l1 i1 l2 i2 p).
Qed.

(** The memory of [m] with another timer heap. *)
Lemma tn_of_theap {K} (m : Mem K) h e : tn_of (with_theap m h) e = tn_of m e.
Proof. done. Qed.

Lemma bucket_live {K} (m : Mem K) tw B O l i p :
  wheel_inv m tw B O -> p ∈ B l i -> exists n, cells (theap m) !! p = Some n.
Proof.
  intros I Hp. destruct (bi_out _ _ _ (wi_buckets _ _ _ _ I) l i p Hp) as [Hv Hs].
  destruct (shape_lookup tw l i Hs Hv) as (w & d & _ & _ & Hg).
  pose proof (bi_repr _ _ _ (wi_buckets _ _ _ _ I) l i d Hv Hg) as R.
  exact (dseg_lookup _ _ _ _ _ (repr_seg _ _ _ R) Hp).
Qed.

Lemma timer_at_some h p t : timer_at h p = Some t -> exists n, cells h !! p = Some n /\ element n = t.
Proof. intros (n & H & ->)%fmap_Some. eauto. Qed.

(** Where the timer node of an entry is, when nothing is out of the wheel. *)
Lemma tn_node {K} (m : Mem K) tw B e p g :
  wheel_inv m tw B [] -> tn_of m e = Some (p, g) ->
  exists l i d n, valid_pos l i /\ shape tw /\ get_bucket tw l i = Ok d /\ Repr (theap m) d (B l i) /\
    p ∈ B l i /\ cells (theap m) !! p = Some n /\ element n = TimerEntry (Some (l, i)) g e e.
Proof.
  intros I H. destruct (wi_ptr _ _ _ _ I e p g H) as [(l & i & Hp & Ht)|[Hp _]]; [|set_solver].
  destruct (bi_out _ _ _ (wi_buckets _ _ _ _ I) l i p Hp) as [Hv Hs].
  destruct (shape_lookup tw l i Hs Hv) as (w & d & _ & _ & Hg).
  apply timer_at_some in Ht as (n & Hn & He). exists l, i, d, n.
  repeat (split; [done|]). split; [by apply (wi_buckets _ _ _ _ I)|]. done.
Qed.

(** ** Moving a node in and out of the wheel *)

Section moves.
Context {K : Type}.
Implicit Types (m : Mem K) (tw : TimerWheel) (B : buckets) (p q : ptr) (e : eid) (h : heap TimerNode).

Lemma timer_at_store h p n q :
  timer_at (store h p n) q = if decide (q = p) then Some (element n) else timer_at h q.
Proof.
  unfold timer_at. cbn. case_decide as E; [subst; by rewrite lookup_insert_eq|by rewrite lookup_insert_ne].
Qed.

Lemma cells_store_live h p n0 n q :
  cells h !! p = Some n0 -> is_Some (cells (store h p n) !! q) -> is_Some (cells h !! q).
Proof.
  intros H. cbn. destruct (decide (p = q)) as [->|]; [eauto|by rewrite lookup_insert_ne].
Qed.

Lemma heap_wf_store h p n0 n : cells h !! p = Some n0 -> heap_wf h -> heap_wf (store h p n).
Proof.
  intros H Hwf q nq Hq. destruct (cells_store_live h p n0 n q H) as [n' Hn']; [eauto|]. by apply Hwf in Hn'.
Qed.

Lemma relinks_live h h' l p : relinks h h' l -> is_Some (cells h' !! p) -> is_Some (cells h !! p).
Proof.
  intros R [n Hn]. pose proof (relinks_elem _ _ _ R p) as E. rewrite Hn in E.
  destruct (cells h !! p); [eauto|done].
Qed.

(** A node leaves its bucket and loses its position. *)
Lemma take_out m tw B l i p g e h1 d1 n1 :
  wheel_inv m tw B [] -> p ∈ B l i ->
  timer_at (theap m) p = Some (TimerEntry (Some (l, i)) g e e) ->
  Repr h1 d1 (list_remove p (B l i)) -> relinks (theap m) h1 (B l i) -> cells h1 !! p = Some n1 ->
  wheel_inv (with_theap m (store h1 p (mkNode (next n1) (prev n1) (TimerEntry None g e e))))
    (put_bucket tw l i d1) (upd B l i (list_remove p (B l i))) [p].
Proof.
  intros I Hp Ht R Rl Hn1. pose proof (wi_buckets _ _ _ _ I) as BI.
  destruct (bi_out _ _ _ BI l i p Hp) as [Hv Hs].
  set (h2 := store h1 p _).
  assert (Hat : forall q, timer_at h2 q = if decide (q = p) then Some (TimerEntry None g e e) else timer_at (theap m) q).
  { intros q. unfold h2. rewrite timer_at_store. case_decide; [done|]. by rewrite (relinks_timer_at _ _ _ _ Rl). }
  assert (Hin : forall l' i' q, q ∈ upd B l i (list_remove p (B l i)) l' i' <-> q ∈ B l' i' /\ q <> p).
  { intros l' i' q. unfold upd. case_decide as E.
    - destruct E; subst. rewrite list_remove_in. tauto.
    - split; [|tauto]. intros Hq. split; [done|]. intros ->. apply E.
      destruct (bi_disj _ _ _ BI l i l' i' p Hp Hq). done. }
  split.
  - apply bucket_change with (theap m); try done.
    + eapply heap_wf_store; [exact Hn1|]. eapply relinks_wf; [exact Rl|apply BI].
    + eapply repr_frame; [|exact R]. intros q [Hne _]%list_remove_in. cbn. by rewrite lookup_insert_ne.
    + intros l' i' q Hne Hq. assert (Hqp : q ∉ B l i) by (intros H; apply Hne; by apply (bi_disj _ _ _ BI l i l' i' q)).
      cbn. rewrite lookup_insert_ne by congruence. by apply (relinks_out _ _ _ Rl).
    + intros l' i' q Hne [_ Hq]%list_remove_in Hq'. apply Hne. by apply (bi_disj _ _ _ BI l i l' i' q).
  - intros l' i' _ Hv'. destruct (wi_sentinel _ _ _ _ I l' i' Hs Hv') as (s & Hsi & Hu).
    assert (s <> p) by (intros ->; apply Hu in Hsi as [_ Hx]; specialize (Hx eq_refl); congruence).
    exists s. split; [by apply Hin|]. intros q [Hq Hqp]%Hin. cbn. rewrite Hat, decide_False by done. by apply Hu.
  - intros l' i' q pos g' e' n' [Hq Hqp]%Hin. cbn. rewrite Hat, decide_False by done. by apply (wi_entry _ _ _ _ I).
  - intros q ->%list_elem_of_singleton. split.
    + intros l' i' [_ Hx]%Hin. done.
    + cbn. exists None, g, e. by rewrite Hat, decide_True.
  - intros e' q g' Hq. cbn. rewrite Hat. destruct (wi_ptr _ _ _ _ I e' q g' Hq) as [(l' & i' & Hq' & Ht')|[Hx _]]; [|set_solver].
    case_decide as E.
    + subst q. right. split; [set_solver|]. exists None. congruence.
    + left. exists l', i'. split; [by apply Hin|done].
  - intros q n Hq. cbn in Hq.
    destruct (cells_store_live h1 p n1 _ q Hn1 (ex_intro _ n Hq)) as [n' Hn'].
    destruct (relinks_live _ _ _ q Rl (ex_intro _ n' Hn')) as [n0 Hn0].
    destruct (decide (q = p)) as [->|Hne]; [right; set_solver|].
    destruct (wi_live _ _ _ _ I q n0 Hn0) as [(l' & i' & Hq')|Hx]; [|set_solver].
    left. exists l', i'. by apply Hin.
Qed.

(** A node whose position is that of the bucket enters it. *)
Lemma put_in m tw B l i p g e :
  wheel_inv m tw B [p] -> shape tw -> valid_pos l i ->
  tn_of m e = Some (p, g) -> timer_at (theap m) p = Some (TimerEntry (Some (l, i)) g e e) ->
  exists d h' d', get_bucket tw l i = Ok d /\ push_back (theap m) d p = Ok (h', d') /\
    wheel_inv (with_theap m h') (put_bucket tw l i d') (upd B l i (B l i ++ [p])) [] /\
    (forall q, timer_at h' q = timer_at (theap m) q).
Proof.
  intros I Hs Hv Htn Ht. pose proof (wi_buckets _ _ _ _ I) as BI.
  destruct (shape_lookup tw l i Hs Hv) as (w & d & _ & _ & Hg).
  pose proof (bi_repr _ _ _ BI l i d Hv Hg) as R.
  destruct (wi_owned _ _ _ _ I p) as [Hno _]; [set_solver|].
  apply timer_at_some in Ht as (n & Hn & He).
  destruct (push_back_spec _ _ _ p n R (Hno l i) Hn) as (h' & d' & E & R' & Rl & _ & _).
  exists d, h', d'. split; [done|]. split; [done|].
  assert (Hat : forall q, timer_at h' q = timer_at (theap m) q) by (intros q; by eapply relinks_timer_at).
  assert (Hp : timer_at (theap m) p = Some (TimerEntry (Some (l, i)) g e e)) by (unfold timer_at; rewrite Hn; cbn; congruence).
  assert (Hin : forall l' i' q, q ∈ upd B l i (B l i ++ [p]) l' i' <-> q ∈ B l' i' \/ (q = p /\ l' = l /\ i' = i)).
  { intros l' i' q. unfold upd. case_decide as Ed; [destruct Ed; subst; rewrite elem_snoc; tauto|tauto]. }
  split; [|exact Hat]. split.
  - apply bucket_change with (theap m); try done.
    + eapply relinks_wf; [exact Rl|apply BI].
    + intros l' i' q Hne Hq. apply (relinks_out _ _ _ Rl). rewrite elem_snoc. intros [Hx| ->].
      * apply Hne. by apply (bi_disj _ _ _ BI l i l' i' q).
      * by apply (Hno l' i').
    + intros l' i' q Hne [Hx| ->]%elem_snoc Hq; [|by apply (Hno l' i')].
      apply Hne. by apply (bi_disj _ _ _ BI l i l' i' q).
  - intros l' i' _ Hv'. destruct (wi_sentinel _ _ _ _ I l' i' Hs Hv') as (s & Hsi & Hu).
    exists s. split; [apply Hin; auto|]. intros q [Hq|(-> & _)]%Hin; cbn; rewrite Hat; [by apply Hu|].
    rewrite Hp. split; [discriminate|]. intros <-. destruct (Hno l' i' Hsi).
  - intros l' i' q pos g' e' n' [Hq|(-> & -> & ->)]%Hin; cbn; rewrite Hat; [by apply (wi_entry _ _ _ _ I)|].
    rewrite Hp. intros [= <- <- <- <-]. done.
  - intros q Hx. set_solver.
  - intros e' q g' Hq. cbn. rewrite Hat. left.
    destruct (wi_ptr _ _ _ _ I e' q g' Hq) as [(l' & i' & Hq' & Ht')|[Hx%list_elem_of_singleton [pos Ht']]].
    + exists l', i'. split; [apply Hin; auto|done].
    + subst q. exists l, i. split; [apply Hin; auto|]. congruence.
  - intros q nq Hq. cbn in Hq. left.
    destruct (relinks_live _ _ _ q Rl (ex_intro _ nq Hq)) as [n0 Hn0].
    destruct (wi_live _ _ _ _ I q n0 Hn0) as [(l' & i' & Hq')|Hx%list_elem_of_singleton].
    + exists l', i'. apply Hin. auto.
    + subst q. exists l, i. apply Hin. auto.
Qed.
(** The invariant reads the heap through the links of the buckets and the
    elements of the nodes, and the entries through their timer pointers. *)
Lemma buckets_frame h h' tw B :
  buckets_inv h tw B -> heap_wf h' ->
  (forall l i p, p ∈ B l i -> cells h' !! p = cells h !! p) -> buckets_inv h' tw B.
Proof.
  intros I Hwf Hf. split; try apply I; [done|]. intros l i d Hv Hg.
  eapply repr_frame; [|by eapply (bi_repr _ _ _ I)]. apply Hf.
Qed.

(** The position of an owned node is rewritten. *)
Lemma owned_set m tw B p n pos' g e :
  wheel_inv m tw B [p] -> cells (theap m) !! p = Some n -> (exists pos, element n = TimerEntry pos g e e) ->
  wheel_inv (with_theap m (store (theap m) p (mkNode (next n) (prev n) (TimerEntry pos' g e e)))) tw B [p].
Proof.
  intros I Hn [pos He]. destruct (wi_owned _ _ _ _ I p) as [Hno _]; [set_solver|].
  assert (Hne : forall l i q, q ∈ B l i -> q <> p) by (intros l i q Hq ->; by apply (Hno l i)).
  split; cbn.
  - eapply buckets_frame; [apply I| |].
    + eapply heap_wf_store; [exact Hn|apply I].
    + intros l i q Hq. cbn. rewrite lookup_insert_ne; [done|]. apply not_eq_sym. by eapply Hne.
  - intros l i Hs Hv. destruct (wi_sentinel _ _ _ _ I l i Hs Hv) as (s & Hsi & Hu).
    exists s. split; [done|]. intros q Hq. rewrite timer_at_store, decide_False by (by eapply Hne). by apply Hu.
  - intros l i q pos0 g0 e0 n0 Hq. rewrite timer_at_store, decide_False by (by eapply Hne). by apply (wi_entry _ _ _ _ I).
  - intros q ->%list_elem_of_singleton. split; [done|]. exists pos', g, e. by rewrite timer_at_store, decide_True.
  - intros e0 q g0 Hq. rewrite timer_at_store.
    destruct (wi_ptr _ _ _ _ I e0 q g0 Hq) as [(l & i & Hq' & Ht)|[Hx%list_elem_of_singleton [pos0 Ht]]].
    + left. exists l, i. rewrite decide_False by (by eapply Hne). done.
    + right. subst q. split; [set_solver|]. exists pos'. rewrite decide_True by done.
      unfold timer_at in Ht. rewrite Hn in Ht. cbn in *. congruence.
  - intros q nq Hq. destruct (cells_store_live (theap m) p n _ q Hn (ex_intro _ nq Hq)) as [n0 Hn0].
    by eapply (wi_live _ _ _ _ I).
Qed.

(** An owned node to which no entry points is freed. *)
Lemma owned_drop m tw B p n :
  wheel_inv m tw B [p] -> cells (theap m) !! p = Some n -> (forall e g, tn_of m e <> Some (p, g)) ->
  wheel_inv (with_theap m (mkHeap (delete p (cells (theap m))) (next_loc (theap m)))) tw B [].
Proof.
  intros I Hn Hnp. destruct (wi_owned _ _ _ _ I p) as [Hno _]; [set_solver|].
  assert (Hne : forall l i q, q ∈ B l i -> q <> p) by (intros l i q Hq ->; by apply (Hno l i)).
  assert (Hat : forall q, q <> p -> timer_at (mkHeap (delete p (cells (theap m))) (next_loc (theap m))) q = timer_at (theap m) q)
    by (intros q Hq; unfold timer_at; cbn; by rewrite lookup_delete_ne).
  split; cbn.
  - eapply buckets_frame; [apply I|apply drop_wf, I|].
    intros l i q Hq. cbn. rewrite lookup_delete_ne; [done|]. apply not_eq_sym. by eapply Hne.
  - intros l i Hs Hv. destruct (wi_sentinel _ _ _ _ I l i Hs Hv) as (s & Hsi & Hu).
    exists s. split; [done|]. intros q Hq. rewrite Hat by (by eapply Hne). by apply Hu.
  - intros l i q pos0 g0 e0 n0 Hq. rewrite Hat by (by eapply Hne). by apply (wi_entry _ _ _ _ I).
  - set_solver.
  - intros e0 q g0 Hq. left.
    destruct (wi_ptr _ _ _ _ I e0 q g0 Hq) as [(l & i & Hq' & Ht)|[Hx%list_elem_of_singleton _]].
    + exists l, i. rewrite Hat by (by eapply Hne). done.
    + subst q. destruct (Hnp e0 g0 Hq).
  - intros q nq Hq. destruct (decide (p = q)) as [->|Hpq]; [by rewrite lookup_delete_eq in Hq|].
    rewrite lookup_delete_ne in Hq by done. left.
    destruct (wi_live _ _ _ _ I q nq Hq) as [Hx|Hx%list_elem_of_singleton]; [done|congruence].
Qed.

(** A fresh node is allocated. *)
Lemma owned_alloc m tw B pos g e :
  wheel_inv m tw B [] ->
  wheel_inv (with_theap m (fst (new_node (theap m) (TimerEntry pos g e e)))) tw B [next_loc (theap m)] /\
  timer_at (fst (new_node (theap m) (TimerEntry pos g e e))) (next_loc (theap m)) = Some (TimerEntry pos g e e).
Proof.
  intros I. set (p := next_loc (theap m)). set (h' := fst _).
  assert (Hf : cells (theap m) !! p = None).
  { destruct (cells (theap m) !! p) eqn:E; [|done]. apply (bi_wf _ _ _ (wi_buckets _ _ _ _ I)) in E.
    unfold p in E. lia. }
  assert (Hne : forall l i q, q ∈ B l i -> q <> p).
  { intros l i q Hq ->. destruct (bucket_live _ _ _ _ l i p I Hq). congruence. }
  assert (Hc : forall q, q <> p -> cells h' !! q = cells (theap m) !! q) by (intros q Hq; cbn; by rewrite lookup_insert_ne).
  assert (Hat : forall q, q <> p -> timer_at h' q = timer_at (theap m) q) by (intros q Hq; unfold timer_at; by rewrite Hc).
  assert (Hp : timer_at h' p = Some (TimerEntry pos g e e)) by (unfold timer_at; cbn; by rewrite lookup_insert_eq).
  split; [|done]. split; cbn [theap with_theap].
  - eapply buckets_frame; [apply I|apply new_node_wf, I|]. intros l i q Hq. apply Hc. by eapply Hne.
  - intros l i Hs Hv. destruct (wi_sentinel _ _ _ _ I l i Hs Hv) as (s & Hsi & Hu).
    exists s. split; [done|]. intros q Hq. rewrite Hat by (by eapply Hne). by apply Hu.
  - intros l i q pos0 g0 e0 n0 Hq. rewrite Hat by (by eapply Hne). by apply (wi_entry _ _ _ _ I).
  - intros q ->%list_elem_of_singleton. split; [intros l i Hq; by apply (Hne l i p)|]. by exists pos, g, e.
  - intros e0 q g0 Hq. left.
    destruct (wi_ptr _ _ _ _ I e0 q g0 Hq) as [(l & i & Hq' & Ht)|[Hx _]]; [|set_solver].
    exists l, i. rewrite Hat by (by eapply Hne). done.
  - intros q nq Hq. destruct (decide (q = p)) as [->|Hpq]; [right; set_solver|].
    rewrite Hc in Hq by done. left.
    destruct (wi_live _ _ _ _ I q nq Hq) as [Hx|Hx]; [done|set_solver].
Qed.

(** Changing the timer pointer of one entry. *)
Definition with_tn (dn : DeqNodes) (o : option ptr) (g : Z) : DeqNodes :=
  mkDeqNodes (access_order_q_node dn) (write_order_q_node dn) o g.

Lemma tn_of_put m e dn e' :
  tn_of (put_nodes m e dn) e' =
    if decide (e' = e) then p ← timer_node dn; Some (p, timer_node_expiry_gen dn) else tn_of m e'.
Proof.
  unfold tn_of. cbn. case_decide as E; [by rewrite E, lookup_insert_eq|by rewrite lookup_insert_ne].
Qed.

Lemma put_tn_frame m e dn o g :
  dnodes m !! e = Some dn -> wheel_frame m (put_nodes m e (with_tn dn o g)).
Proof.
  intros H. split; try done. intros e'. cbn. destruct (decide (e = e')) as [->|].
  - by rewrite lookup_insert_eq, H.
  - by rewrite lookup_insert_ne.
Qed.

(** The pointer to an owned node is cleared. *)
Lemma ptr_clear m tw B O e dn p g gz :
  wheel_inv m tw B O -> dnodes m !! e = Some dn -> tn_of m e = Some (p, g) -> p ∈ O ->
  wheel_inv (put_nodes m e (with_tn dn None gz)) tw B O /\
  (forall e' g', tn_of (put_nodes m e (with_tn dn None gz)) e' <> Some (p, g')).
Proof.
  intros I Hdn Htn Hp. destruct (wi_owned _ _ _ _ I p Hp) as [Hno _].
  assert (Hpt : exists pos, timer_at (theap m) p = Some (TimerEntry pos g e e)).
  { destruct (wi_ptr _ _ _ _ I e p g Htn) as [(l & i & Hx & _)|[_ H]]; [by destruct (Hno l i)|done]. }
  destruct Hpt as [pos Hpt].
  assert (Hother : forall e' p' g', e' <> e -> tn_of m e' = Some (p', g') -> p' <> p).
  { intros e' p' g' Hne Ht ->.
    destruct (wi_ptr _ _ _ _ I e' p g' Ht) as [(l & i & Hx & _)|[_ [pos' Hp']]]; [by destruct (Hno l i)|congruence]. }
  split.
  - split; try apply I.
    + intros l i q pos0 g0 e0 n0 Hq Ht. rewrite tn_of_put.
      destruct (wi_entry _ _ _ _ I l i q pos0 g0 e0 n0 Hq Ht) as (-> & -> & Hq'). split; [done|]. split; [done|].
      case_decide as E; [|done]. subst. rewrite Htn in Hq'. injection Hq' as <- <-. by destruct (Hno l i).
    + intros e' q g'. rewrite tn_of_put. case_decide as E; [done|]. apply (wi_ptr _ _ _ _ I).
  - intros e' g'. rewrite tn_of_put. case_decide as E; [done|]. intros Hx. by apply (Hother e' p g' E Hx).
Qed.

(** An entry without a timer node gets a pointer to an owned one. *)
Lemma ptr_set m tw B p e dn pos g :
  wheel_inv m tw B [p] -> dnodes m !! e = Some dn -> timer_node dn = None ->
  timer_at (theap m) p = Some (TimerEntry pos g e e) ->
  wheel_inv (put_nodes m e (with_tn dn (Some p) g)) tw B [p] /\
  tn_of (put_nodes m e (with_tn dn (Some p) g)) e = Some (p, g).
Proof.
  intros I Hdn Hnone Ht.
  assert (Hn : tn_of m e = None) by (unfold tn_of; rewrite Hdn; cbn; by rewrite Hnone).
  split; [|by rewrite tn_of_put, decide_True]. split; try apply I.
  - intros l i q pos0 g0 e0 n0 Hq Hx. rewrite tn_of_put.
    destruct (wi_entry _ _ _ _ I l i q pos0 g0 e0 n0 Hq Hx) as (-> & -> & Hq'). split; [done|]. split; [done|].
    rewrite decide_False; [done|]. congruence.
  - intros e' q g'. rewrite tn_of_put. case_decide as E.
    + subst. cbn. intros [= <- <-]. right. split; [set_solver|]. eauto.
    + apply (wi_ptr _ _ _ _ I).
Qed.
End moves.

(** ** The operations under the invariant *)

Section specs.
Context {K : Type}.
Implicit Types (m : Mem K) (tw : TimerWheel) (B : buckets) (p q : ptr) (e : eid) (h : heap TimerNode).

(** Everything about the wheel but its buckets. *)
Definition same_clock tw tw' : Prop := origin tw' = origin tw /\ current tw' = current tw.

Lemma put_bucket_clock tw l i d : same_clock tw (put_bucket tw l i d).
Proof. done. Qed.

Lemma unlink_timer_spec m tw B e p g :
  wheel_inv m tw B [] -> tn_of m e = Some (p, g) ->
  exists h' tw' B',
    (forall m1, theap m1 = theap m -> unlink_timer m1 tw p = Ok (with_theap m1 h', tw', true)) /\
    wheel_inv (with_theap m h') tw' B' [p] /\ same_clock tw tw' /\ shape tw' /\
    timer_at h' p = Some (TimerEntry None g e e).
Proof.
  intros I Htn. destruct (tn_node _ _ _ _ _ _ I Htn) as (l & i & d & n & Hv & Hs & Hg & R & Hp & Hn & He).
  destruct (unlink_spec _ _ _ _ R Hp) as (h1 & d1 & E & R1 & Rl & [el Hp1] & _ & _).
  assert (Hel : el = TimerEntry (Some (l, i)) g e e).
  { pose proof (relinks_elem _ _ _ Rl p) as Hx. rewrite Hp1, Hn in Hx. cbn in Hx. congruence. }
  subst el. exists (store h1 p (mkNode None None (TimerEntry None g e e))), (put_bucket tw l i d1),
    (upd B l i (list_remove p (B l i))).
  split.
  { intros m1 Hm. unfold unlink_timer. rewrite Hm, (deref_ok _ _ _ Hn). cbn. rewrite He. cbn.
    rewrite Hg. cbn. rewrite E. cbn. unfold set_element. rewrite (deref_ok _ _ _ Hp1). done. }
  split.
  { refine (take_out m tw B l i p g e h1 d1 _ I Hp _ R1 Rl Hp1). unfold timer_at. rewrite Hn. cbn. congruence. }
  split; [done|]. split; [by apply put_bucket_shape|]. by rewrite timer_at_store, decide_True.
Qed.

(** An owned node is put back in the bucket of its entry's expiration time, or
    given up when the entry has none. *)
Lemma schedule_existing_node_spec m tw B e p g ei dn :
  wheel_inv m tw B [p] -> shape tw -> tn_of m e = Some (p, g) -> dnodes m !! e = Some dn ->
  (exists pos, timer_at (theap m) p = Some (TimerEntry pos g e e)) -> infos m !! e = Some ei ->
  match fst (expiration_state ei) with
  | Some t => exists l i h' d', bucket_indices tw t = Ok (l, i) /\ valid_pos l i /\
      schedule_existing_node m tw p = Ok (with_theap m h', put_bucket tw l i d', Rescheduled) /\
      wheel_inv (with_theap m h') (put_bucket tw l i d') (upd B l i (B l i ++ [p])) [] /\
      (forall q, q <> p -> timer_at h' q = timer_at (theap m) q)
  | None => exists h', schedule_existing_node m tw p =
        Ok (put_nodes (with_theap m h') e (with_tn dn None 0), tw, Removed p) /\
      wheel_inv (put_nodes (with_theap m h') e (with_tn dn None 0)) tw B [p] /\
      (forall e' g', tn_of (put_nodes (with_theap m h') e (with_tn dn None 0)) e' <> Some (p, g')) /\
      timer_at h' p = Some (TimerEntry None g e e)
  end.
Proof.
  intros I Hs Htn Hdn [pos Ht] Hei. pose proof (wi_buckets _ _ _ _ I) as BI.
  apply timer_at_some in Ht as (n & Hn & He).
  assert (Hen : is_enabled tw = true) by (by eapply is_enabled_shape).
  assert (Hred : schedule_existing_node m tw p =
    match fst (expiration_state ei) with
    | Some t =>
        '(level, index) ← bucket_indices tw t;
        d ← get_bucket tw level index;
        '(h, d) ← push_back (store (theap m) p (mkNode (next n) (prev n)
                   (TimerEntry (Some (wrap 8 level, wrap 8 index)) g e e))) d p;
        Ok (with_theap m h, put_bucket tw level index d, Rescheduled)
    | None =>
        m' ← set_timer_node (with_theap m (store (theap m) p (mkNode (next n) (prev n)
                   (TimerEntry None g e e)))) e None 0;
        Ok (m', tw, Removed p)
    end).
  { unfold schedule_existing_node, get_info, set_element. rewrite Hen. cbn.
    rewrite (deref_ok _ _ _ Hn). cbn. rewrite He. cbn. rewrite Hei. cbn.
    destruct (fst (expiration_state ei)); [|done].
    destruct (bucket_indices tw i) as [[l' i']|]; done. }
  rewrite Hred. clear Hred. destruct (fst (expiration_state ei)) as [t|].
  - destruct (bucket_indices_valid tw t) as (l & i & Hb & Hv).
    destruct (valid_pos_u8 l i Hv) as [W1 W2].
    pose proof (owned_set m tw B p n (Some (l, i)) g e I Hn (ex_intro _ _ He)) as I1.
    destruct (put_in _ tw B l i p g e I1 Hs Hv) as (d & h' & d' & Hg & E & I2 & Hat).
    { done. }
    { cbn. by rewrite timer_at_store, decide_True. }
    exists l, i, h', d'. rewrite Hb. cbn. rewrite Hg, W1, W2. cbn in E |- *. rewrite E.
    repeat (split; [done|]). intros q Hq. rewrite Hat. cbn. by rewrite timer_at_store, decide_False.
  - pose proof (owned_set m tw B p n None g e I Hn (ex_intro _ _ He)) as I1.
    destruct (ptr_clear _ tw B [p] e dn p g 0 I1 Hdn Htn) as [I2 Hno]; [set_solver|].
    eexists. unfold set_timer_node, get_nodes. cbn. rewrite Hdn. cbn. split; [reflexivity|].
    split; [exact I2|]. split; [exact Hno|]. by rewrite timer_at_store, decide_True.
Qed.

(** [reschedule] of the timer node an entry points to. *)
Lemma reschedule_spec m tw B e p g ei dn :
  wheel_inv m tw B [] -> tn_of m e = Some (p, g) -> dnodes m !! e = Some dn -> infos m !! e = Some ei ->
  exists m' tw' B' r, reschedule m tw p g = Ok (m', tw', Some r) /\ same_clock tw tw' /\ wheel_frame m m' /\
    match r with
    | Rescheduled => is_Some (fst (expiration_state ei)) /\ wheel_inv m' tw' B' [] /\ dnodes m' = dnodes m
    | Removed q => q = p /\ fst (expiration_state ei) = None /\ wheel_inv m' tw' B' [p] /\
        (forall e' g', tn_of m' e' <> Some (p, g'))
    end.
Proof.
  intros I Htn Hdn Hei.
  destruct (tn_node _ _ _ _ _ _ I Htn) as (l & i & d & n & Hv & Hs & Hg & R & Hp & Hn & He).
  destruct (unlink_timer_spec _ _ _ _ _ _ I Htn) as (h1 & tw1 & B1 & Hu & I1 & Hc & Hs1 & Ht1).
  assert (Hen : is_enabled tw = true) by (eapply is_enabled_shape; [apply I|done]).
  pose proof (schedule_existing_node_spec _ tw1 B1 e p g ei dn I1 Hs1 Htn Hdn (ex_intro _ _ Ht1) Hei) as H.
  unfold reschedule. rewrite Hen. cbn. rewrite (deref_ok _ _ _ Hn). cbn. rewrite He. cbn.
  rewrite Z.eqb_refl. cbn. rewrite (Hu m eq_refl). cbn.
  destruct (fst (expiration_state ei)) as [t|].
  - destruct H as (l' & i' & h' & d' & _ & _ & E & I2 & _). rewrite E. cbn.
    eexists _, _, _, Rescheduled. split; [reflexivity|]. split; [done|]. split; [by split|].
    split; [eauto|]. split; [exact I2|done].
  - destruct H as (h' & E & I2 & Hno & _). rewrite E. cbn.
    eexists _, _, _, (Removed p). split; [reflexivity|]. split; [done|]. split.
    { transitivity (with_theap m h'); [apply theap_frame|]. by apply put_tn_frame. }
    split; [done|]. split; [done|]. split; [exact I2|exact Hno].
Qed.

(** [deschedule], after the entry's pointer to the node was cleared. *)
Lemma deschedule_spec m tw B e p g dn gz :
  wheel_inv m tw B [] -> tn_of m e = Some (p, g) -> dnodes m !! e = Some dn ->
  exists m' tw' B',
    deschedule (put_nodes m e (with_tn dn None gz)) tw p g = Ok (m', tw', true) /\
    wheel_inv m' tw' B' [] /\ same_clock tw tw' /\ wheel_frame m m' /\
    dnodes m' = <[e := with_tn dn None gz]> (dnodes m).
Proof.
  intros I Htn Hdn.
  destruct (tn_node _ _ _ _ _ _ I Htn) as (l & i & d & n & Hv & Hs & Hg & R & Hp & Hn & He).
  destruct (unlink_timer_spec _ _ _ _ _ _ I Htn) as (h1 & tw1 & B1 & Hu & I1 & Hc & Hs1 & Ht1).
  assert (Hen : is_enabled tw = true) by (eapply is_enabled_shape; [apply I|done]).
  destruct (ptr_clear _ tw1 B1 [p] e dn p g gz I1 Hdn Htn) as [I2 Hno]; [set_solver|].
  apply timer_at_some in Ht1 as (n1 & Hn1 & _).
  pose proof (owned_drop _ _ _ p n1 I2 Hn1 Hno) as I3.
  unfold deschedule. rewrite Hen. cbn. rewrite (deref_ok _ _ _ Hn). cbn. rewrite He. cbn.
  rewrite Z.eqb_refl. cbn. rewrite (Hu (put_nodes m e (with_tn dn None gz)) eq_refl). cbn.
  unfold drop_node. rewrite (deref_ok _ _ _ Hn1). cbn.
  eexists _, _, _. split; [reflexivity|]. split; [exact I3|]. split; [done|]. split; [|done].
  transitivity (put_nodes m e (with_tn dn None gz)); [by apply put_tn_frame|by split].
Qed.

(** [schedule] of an entry without a timer node, and the store of the pointer
    that its caller performs. *)
Lemma schedule_spec m tw B e g t ei dn :
  wheel_inv m tw B [] -> shape tw -> infos m !! e = Some ei -> expiration_state ei = (Some t, g) ->
  dnodes m !! e = Some dn -> timer_node dn = None ->
  exists h' tw' B' p,
    schedule m tw e e g = Ok (with_theap m h', tw', Some p) /\ same_clock tw tw' /\
    wheel_inv (put_nodes (with_theap m h') e (with_tn dn (Some p) g)) tw' B' [].
Proof.
  intros I Hs Hei Hex Hdn Hno. destruct (bucket_indices_valid tw t) as (l & i & Hb & Hv).
  destruct (valid_pos_u8 l i Hv) as [W1 W2].
  destruct (owned_alloc m tw B (Some (l, i)) g e I) as [I1 Hp].
  destruct (ptr_set _ tw B _ e dn _ g I1 Hdn Hno Hp) as [I2 Htn].
  destruct (put_in _ tw B l i _ g e I2 Hs Hv Htn Hp) as (d & h' & d' & Hg & E & I3 & _).
  assert (Hen : is_enabled tw = true) by (eapply is_enabled_shape; [apply I|done]).
  eexists h', _, _, _. unfold schedule, get_info. rewrite Hen. cbn. rewrite Hei. cbn. rewrite Hex, Z.eqb_refl. cbn.
  rewrite Hb. cbn. rewrite Hg. cbn. unfold timer_node_new. rewrite W1, W2. cbn in E. rewrite E. cbn.
  split; [reflexivity|]. split; [done|]. exact I3.
Qed.
(** ** Popping from a bucket *)

(** A bucket's nodes are reordered. *)
Lemma permute_bucket m tw B l i h' d' b' :
  wheel_inv m tw B [] -> shape tw -> valid_pos l i ->
  relinks (theap m) h' (B l i) -> Repr h' d' b' -> (forall q, q ∈ b' <-> q ∈ B l i) ->
  wheel_inv (with_theap m h') (put_bucket tw l i d') (upd B l i b') [].
Proof.
  intros I Hs Hv Rl R Hb. pose proof (wi_buckets _ _ _ _ I) as BI.
  assert (Hat : forall q, timer_at h' q = timer_at (theap m) q) by (intros q; by eapply relinks_timer_at).
  assert (Hin : forall l' i' q, q ∈ upd B l i b' l' i' <-> q ∈ B l' i').
  { intros l' i' q. unfold upd. case_decide as E; [destruct E; subst; apply Hb|done]. }
  split; cbn.
  - apply bucket_change with (theap m); try done.
    + eapply relinks_wf; [exact Rl|apply BI].
    + intros l' i' q Hne Hq. apply (relinks_out _ _ _ Rl). intros Hx. apply Hne.
      by apply (bi_disj _ _ _ BI l i l' i' q).
    + intros l' i' q Hne Hq%Hb Hq'. apply Hne. by apply (bi_disj _ _ _ BI l i l' i' q).
  - intros l' i' _ Hv'. destruct (wi_sentinel _ _ _ _ I l' i' Hs Hv') as (s & Hsi & Hu).
    exists s. split; [by apply Hin|]. intros q Hq%Hin. rewrite Hat. by apply Hu.
  - intros l' i' q pos0 g0 e0 n0 Hq%Hin. rewrite Hat. by apply (wi_entry _ _ _ _ I).
  - set_solver.
  - intros e0 q g0 Hq. rewrite Hat. left.
    destruct (wi_ptr _ _ _ _ I e0 q g0 Hq) as [(l' & i' & Hq' & Ht)|[Hx _]]; [|set_solver].
    exists l', i'. split; [by apply Hin|done].
  - intros q nq Hq. destruct (relinks_live _ _ _ q Rl (ex_intro _ nq Hq)) as [n0 Hn0].
    destruct (wi_live _ _ _ _ I q n0 Hn0) as [(l' & i' & Hx)|Hx]; [|set_solver].
    left. exists l', i'. by apply Hin.
Qed.

Lemma moved_head p (l : list ptr) : NoDup (p :: l) -> moved_to_back p (p :: l) = l ++ [p].
Proof.
  intros Hnd. unfold moved_to_back. rewrite list_remove_head by done. case_decide as E; [|done].
  destruct l as [|q l] using rev_ind; [done|]. clear IHl.
  change (p :: l ++ [q]) with ((p :: l) ++ [q]) in *. rewrite last_snoc in E. injection E as ->.
  apply NoDup_app in Hnd as (_ & Hd & _). destruct (Hd p); set_solver.
Qed.

Lemma rotate_done fuel h d a s :
  Repr h d (a ++ [s]) -> timer_at h s = Some Sentinel -> rotate_to_sentinel fuel h d = Ok (h, d).
Proof.
  intros R Hst. apply timer_at_some in Hst as (n & Hn & He).
  assert (E : peek_back h d = Ok (Some n)).
  { unfold peek_back. rewrite (repr_tail _ _ _ R), last_snoc. by rewrite (deref_ok _ _ _ Hn). }
  destruct fuel; cbn; rewrite E; cbn; by rewrite He.
Qed.

Lemma rotate_step fuel h d x l y :
  Repr h d (x :: l) -> last (x :: l) = Some y -> timer_at h y <> Some Sentinel ->
  exists h' d', rotate_to_sentinel (S fuel) h d = rotate_to_sentinel fuel h' d' /\
    Repr h' d' (l ++ [x]) /\ relinks h h' (x :: l).
Proof.
  intros R Hl Hy. destruct (move_front_to_back_spec _ _ _ R) as (h' & d' & E & R' & Rl & _).
  exists h', d'. cbn in R'. rewrite moved_head in R' by apply (repr_nodup _ _ _ R).
  split; [|done]. cbn [rotate_to_sentinel]. unfold peek_back.
  rewrite (repr_tail _ _ _ R), Hl.
  destruct (dseg_lookup _ _ _ _ y (repr_seg _ _ _ R)) as [n Hn]; [by apply last_Some_elem_of|].
  rewrite (deref_ok _ _ _ Hn). cbn.
  destruct (is_sentinel (element n)) eqn:Es.
  - destruct Hy. unfold timer_at. rewrite Hn. cbn. by destruct (element n).
  - rewrite E. done.
Qed.

Lemma rotate_spec fuel h d a s b :
  Repr h d (a ++ s :: b) -> (length a < fuel)%nat ->
  (forall p, p ∈ a ++ s :: b -> timer_at h p = Some Sentinel <-> p = s) ->
  exists h' d' c, rotate_to_sentinel fuel h d = Ok (h', d') /\ Repr h' d' (c ++ [s]) /\
    relinks h h' (a ++ s :: b) /\ c ++ [s] ≡ₚ a ++ s :: b.
Proof.
  revert fuel h d b. induction a as [|x a IH]; intros fuel h d b R Hf Hs;
    (destruct b as [|y b _] using rev_ind;
      [eexists h, d, _; split; [eapply rotate_done; [exact R|apply Hs; set_solver]|];
       split; [exact R|]; split; [apply relinks_refl|done]|]);
    (assert (Hy : timer_at h y <> Some Sentinel)
      by (intros Hx; apply Hs in Hx; [|set_solver]; subst y;
          pose proof (repr_nodup _ _ _ R) as Hnd; apply NoDup_app in Hnd as (_ & _ & Hnd);
          apply NoDup_cons in Hnd as [Hnd _]; set_solver));
    destruct fuel as [|fuel]; [lia| |lia|].
  - destruct (rotate_step fuel h d s (b ++ [y]) y R) as (h' & d' & E & R' & Rl);
      [change (s :: b ++ [y]) with ((s :: b) ++ [y]); apply last_snoc|done|].
    exists h', d', (b ++ [y]). rewrite E. split; [|split; [done|split; [done|cbn; solve_Permutation]]].
    eapply rotate_done; [exact R'|]. rewrite (relinks_timer_at _ _ _ _ Rl). apply Hs; set_solver.
  - destruct (rotate_step fuel h d x (a ++ s :: b ++ [y]) y R) as (h' & d' & E & R' & Rl);
      [|done|].
    { replace (x :: a ++ s :: b ++ [y]) with ((x :: a ++ s :: b) ++ [y]); [apply last_snoc|].
      cbn. by rewrite <- app_assoc. }
    rewrite <- app_assoc in R'. cbn in R'. rewrite E.
    destruct (IH fuel h' d' ((b ++ [y]) ++ [x])) as (h2 & d2 & c & E2 & R2 & Rl2 & Hc).
    + exact R'.
    + cbn in Hf. lia.
    + intros p Hp. rewrite (relinks_timer_at _ _ _ _ Rl). apply Hs. set_solver.
    + exists h2, d2, c. split; [done|]. split; [done|]. split.
      * eapply relinks_trans; [exact Rl|]. eapply relinks_mono; [|exact Rl2]. set_solver.
      * rewrite Hc. cbn. solve_Permutation.
Qed.

Lemma reset_spec m tw B l i :
  wheel_inv m tw B [] -> shape tw -> valid_pos l i ->
  exists h' d' c s,
    reset_timer_node_positions m tw l i = Ok (with_theap m h', put_bucket tw l i d') /\
    wheel_inv (with_theap m h') (put_bucket tw l i d') (upd B l i (c ++ [s])) [] /\
    timer_at h' s = Some Sentinel /\ c ++ [s] ≡ₚ B l i.
Proof.
  intros I Hs Hv. destruct (shape_lookup tw l i Hs Hv) as (w & d & _ & _ & Hg).
  pose proof (bi_repr _ _ _ (wi_buckets _ _ _ _ I) l i d Hv Hg) as R.
  destruct (wi_sentinel _ _ _ _ I l i Hs Hv) as (s & Hsi & Hu).
  apply list_elem_of_split in Hsi as (a & b & Hab). rewrite Hab in R, Hu.
  destruct (rotate_spec (Z.to_nat (len d)) (theap m) d a s b R) as (h' & d' & c & E & R' & Rl & Hc).
  { rewrite (repr_len _ _ _ R), length_app. cbn. lia. }
  { done. }
  exists h', d', c, s. unfold reset_timer_node_positions. rewrite Hg. cbn.
  assert (Hlen : 0 <? len d = true).
  { apply Z.ltb_lt. rewrite (repr_len _ _ _ R), length_app. cbn. lia. }
  rewrite Hlen. cbn. rewrite E. cbn. split; [done|]. rewrite Hab. split.
  - apply permute_bucket; try done; rewrite Hab; [done|]. intros q. by rewrite Hc.
  - split; [|done]. rewrite (relinks_timer_at _ _ _ _ Rl). apply Hu; set_solver.
Qed.

Lemma pop_spec m tw B l i :
  wheel_inv m tw B [] -> shape tw -> valid_pos l i ->
  exists p rest, B l i = p :: rest /\
    ((timer_at (theap m) p = Some Sentinel /\ pop_timer_node m tw l i = Ok (m, tw, None)) \/
     exists h' d' g e, timer_at (theap m) p = Some (TimerEntry (Some (l, i)) g e e) /\
       tn_of m e = Some (p, g) /\
       pop_timer_node m tw l i = Ok (with_theap m h', put_bucket tw l i d', Some p) /\
       wheel_inv (with_theap m h') (put_bucket tw l i d') (upd B l i rest) [p] /\
       timer_at h' p = Some (TimerEntry None g e e) /\
       (forall q, q <> p -> timer_at h' q = timer_at (theap m) q)).
Proof.
  intros I Hs Hv. destruct (shape_lookup tw l i Hs Hv) as (w & d & _ & _ & Hg).
  pose proof (bi_repr _ _ _ (wi_buckets _ _ _ _ I) l i d Hv Hg) as R.
  destruct (wi_sentinel _ _ _ _ I l i Hs Hv) as (s & Hsi & Hu).
  destruct (B l i) as [|p rest] eqn:Hb; [set_solver|]. exists p, rest. split; [done|].
  destruct (bucket_live _ _ _ _ l i p I) as [n Hn]; [rewrite Hb; left|].
  assert (Hf : peek_front (theap m) d = Ok (Some n)).
  { unfold peek_front. rewrite (repr_head _ _ _ R). cbn. by rewrite (deref_ok _ _ _ Hn). }
  unfold pop_timer_node. rewrite Hg. cbn. rewrite Hf. cbn.
  destruct (element n) as [|pos g e nd] eqn:He; cbn.
  - left. split; [|done]. unfold timer_at. rewrite Hn. cbn. congruence.
  - right. assert (Ht : timer_at (theap m) p = Some (TimerEntry pos g e nd)) by (unfold timer_at; rewrite Hn; cbn; congruence).
    destruct (wi_entry _ _ _ _ I l i p pos g e nd) as (-> & -> & Htn); [rewrite Hb; left|done|].
    destruct (pop_front_spec _ _ _ R) as (h1 & d1 & E & R1 & Rl & Hp1 & _ & _).
    destruct (Hp1 p eq_refl) as [el Hp]. cbn in E, R1.
    assert (Hel : el = TimerEntry (Some (l, i)) g e e).
    { pose proof (relinks_elem _ _ _ Rl p) as Hx. rewrite Hp, Hn in Hx. cbn in Hx. congruence. }
    subst el. exists (store h1 p (mkNode None None (TimerEntry None g e e))), d1, g, e.
    split; [done|]. split; [done|]. rewrite E. cbn. rewrite (deref_ok _ _ _ Hp). cbn.
    unfold set_element. rewrite (deref_ok _ _ _ Hp). cbn. split; [done|].
    assert (Hrest : list_remove p (p :: rest) = rest) by (apply list_remove_head; apply R).
    split.
    + rewrite <- Hrest, <- Hb. refine (take_out m tw B l i p g e h1 d1 _ I _ Ht _ _ Hp).
      * rewrite Hb. left.
      * by rewrite Hb, Hrest.
      * by rewrite Hb.
    + split; [by rewrite timer_at_store, decide_True|]. intros q Hq.
      rewrite timer_at_store, decide_False by done. by eapply relinks_timer_at.
Qed.
End specs.

(** ** Enabling the wheel *)

Section enabling.
Implicit Types (h : heap TimerNode) (p : ptr).

Definition bucket_of (p : ptr) : Deque := mkDeque Other 1 (Some p) (Some p) None.

(** [h'] is [h] with the fresh sentinels [ps]. *)
Record fresh_sentinels h h' (ps : list ptr) : Prop := {
  fs_old : forall p, p ∉ ps -> cells h' !! p = cells h !! p;
  fs_new : forall p, p ∈ ps -> cells h' !! p = Some (mkNode None None Sentinel) /\ cells h !! p = None;
  fs_nodup : NoDup ps;
  fs_wf : heap_wf h'
}.

Lemma fresh_app h h1 h2 ps1 ps2 :
  fresh_sentinels h h1 ps1 -> fresh_sentinels h1 h2 ps2 -> fresh_sentinels h h2 (ps1 ++ ps2).
Proof.
  intros [O1 N1 D1 W1] [O2 N2 D2 W2].
  assert (Hd : forall p, p ∈ ps1 -> p ∉ ps2).
  { intros p H1 H2. destruct (N1 p H1), (N2 p H2). congruence. }
  split; [| |by apply NoDup_app|done].
  - intros p Hp. rewrite elem_of_app in Hp. rewrite O2, O1 by tauto. done.
  - intros p [H1|H2]%elem_of_app.
    + rewrite O2 by auto. by apply N1.
    + destruct (N2 p H2) as [Ha Hb]. split; [done|]. rewrite <- O1; [done|]. intros H1. by apply (Hd p).
Qed.

Lemma fresh_nil h : heap_wf h -> fresh_sentinels h h [].
Proof. intros H. split; [done|set_solver|constructor|done]. Qed.

Lemma new_bucket_spec h : heap_wf h -> exists h' p,
  new_bucket h = Ok (h', bucket_of p) /\ fresh_sentinels h h' [p].
Proof.
  intros Hwf. set (p := next_loc h).
  assert (Hn : cells h !! p = None).
  { destruct (cells h !! p) eqn:E; [|done]. apply Hwf in E. unfold p in E. lia. }
  exists (mkHeap (<[p := mkNode None None Sentinel]> (cells h)) (Pos.succ p)), p. split.
  - unfold new_bucket, push_back, set_next, set_prev, deref, store, bucket_of. cbn.
    rewrite !lookup_insert_eq. cbn. rewrite lookup_insert_eq. cbn.
    by rewrite !insert_insert_eq.
  - split; cbn; try done.
    + intros q Hq. rewrite lookup_insert_ne by set_solver. done.
    + intros q ->%list_elem_of_singleton. by rewrite lookup_insert_eq.
    + repeat constructor. set_solver.
    + apply (new_node_wf h Sentinel Hwf).
Qed.

Lemma new_buckets_spec n h : heap_wf h -> exists h' ps,
  new_buckets n h = Ok (h', map bucket_of ps) /\ fresh_sentinels h h' ps /\ length ps = n.
Proof.
  revert h. induction n as [|n IH]; intros h Hwf; cbn [new_buckets].
  - exists h, []. split; [done|]. split; [by apply fresh_nil|done].
  - destruct (new_bucket_spec h Hwf) as (h1 & p & E1 & F1).
    destruct (IH h1 (fs_wf _ _ _ F1)) as (h2 & ps & E2 & F2 & Hl).
    exists h2, (p :: ps). rewrite E1. cbn. rewrite E2. cbn. split; [done|].
    split; [exact (fresh_app _ _ _ _ _ F1 F2)|by rewrite Hl].
Qed.

Lemma new_wheels_spec counts h : heap_wf h -> exists h' pss,
  new_wheels counts h = Ok (h', map (map bucket_of) pss) /\ fresh_sentinels h h' (concat pss) /\
  map length pss = map Z.to_nat counts.
Proof.
  revert h. induction counts as [|c counts IH]; intros h Hwf; cbn [new_wheels map].
  - exists h, []. split; [done|]. split; [by apply fresh_nil|done].
  - destruct (new_buckets_spec (Z.to_nat c) h Hwf) as (h1 & ps & E1 & F1 & Hl).
    destruct (IH h1 (fs_wf _ _ _ F1)) as (h2 & pss & E2 & F2 & Hls).
    exists h2, (ps :: pss). rewrite E1. cbn. rewrite E2. cbn. split; [done|].
    split; [exact (fresh_app _ _ _ _ _ F1 F2)|by rewrite Hl, Hls].
Qed.

Lemma bucket_of_repr h p : cells h !! p = Some (mkNode None None Sentinel) -> Repr h (bucket_of p) [p].
Proof.
  intros H. split; cbn; try done.
  - split; [|done]. by eexists.
  - repeat constructor. set_solver.
Qed.

(** The bucket lists of a fresh wheel. *)
Definition fresh_buckets (pss : list (list ptr)) : buckets := fun l i =>
  if decide (0 <= l /\ 0 <= i) then
    match pss !! Z.to_nat l with
    | Some ps => match ps !! Z.to_nat i with Some p => [p] | None => [] end
    | None => []
    end
  else [].

Lemma fresh_buckets_elem pss l i p :
  p ∈ fresh_buckets pss l i <->
  0 <= l /\ 0 <= i /\ exists ps, pss !! Z.to_nat l = Some ps /\ ps !! Z.to_nat i = Some p.
Proof.
  unfold fresh_buckets. case_decide as E; [|split; [set_solver|tauto]].
  destruct (pss !! Z.to_nat l) as [ps|]; [|split; [set_solver|naive_solver]].
  destruct (ps !! Z.to_nat i) as [q|] eqn:Eq; [|split; [set_solver|naive_solver]].
  rewrite list_elem_of_singleton. naive_solver.
Qed.

Lemma concat_nodup_pos {A} (pss : list (list A)) (a b a' b' : nat) ps ps' (x : A) :
  NoDup (concat pss) -> pss !! a = Some ps -> ps !! b = Some x ->
  pss !! a' = Some ps' -> ps' !! b' = Some x -> a = a' /\ b = b'.
Proof.
  revert a a'. induction pss as [|q pss IH]; intros a a' Hnd Ha Hb Ha' Hb'; [done|].
  cbn in Hnd. apply NoDup_app in Hnd as (N1 & Hd & N2).
  assert (Hin : forall a ps b, pss !! a = Some ps -> ps !! b = Some x -> x ∈ concat pss).
  { intros a0 ps0 b0 H1 H2. apply list_elem_of_In, in_concat. exists ps0.
    split; apply list_elem_of_In; by eapply list_elem_of_lookup_2. }
  destruct a as [|a], a' as [|a']; cbn in Ha, Ha'.
  - injection Ha as <-. injection Ha' as <-. split; [done|].
    exact (NoDup_lookup _ _ _ _ N1 Hb Hb').
  - injection Ha as <-. destruct (Hd x); [by eapply list_elem_of_lookup_2|by eapply Hin].
  - injection Ha' as <-. destruct (Hd x); [by eapply list_elem_of_lookup_2|by eapply Hin].
  - destruct (IH a a') as [-> ->]; done.
Qed.

Lemma enable_spec {K} (m : Mem K) tw B :
  wheel_inv m tw B [] -> is_enabled tw = false ->
  exists h' tw' B', enable m tw = Ok (with_theap m h', tw') /\ same_clock tw tw' /\
    wheel_inv (with_theap m h') tw' B' [] /\ shape tw'.
Proof.
  intros I He. pose proof (wi_buckets _ _ _ _ I) as BI.
  assert (Hns : ~ shape tw) by (intros Hs; apply (is_enabled_shape _ _ _ BI) in Hs; congruence).
  assert (HB : forall l i p, p ∉ B l i) by (intros l i p Hp; apply (bi_out _ _ _ BI) in Hp; tauto).
  destruct (new_wheels_spec BUCKET_COUNTS (theap m) (bi_wf _ _ _ BI)) as (h' & pss & E & F & Hlen).
  set (tw' := mkTimerWheel (map (map bucket_of) pss) (origin tw) (current tw)).
  assert (Hs : shape tw').
  { unfold shape, tw'. cbn [wheels]. rewrite map_map, <- Hlen. apply map_ext. intros ps. apply length_map. }
  assert (Hmem : forall l i p, p ∈ fresh_buckets pss l i -> p ∈ concat pss).
  { intros l i p (_ & _ & ps & H1 & H2)%fresh_buckets_elem. apply list_elem_of_In, in_concat. exists ps.
    split; apply list_elem_of_In; by eapply list_elem_of_lookup_2. }
  assert (Hsent : forall l i p, p ∈ fresh_buckets pss l i -> timer_at h' p = Some Sentinel).
  { intros l i p Hp%Hmem. unfold timer_at. by rewrite (proj1 (fs_new _ _ _ F p Hp)). }
  exists h', tw', (fresh_buckets pss). unfold enable. rewrite He. cbn [negb assert_that mbind res_bind].
  rewrite E. cbn. split; [done|]. split; [done|]. split; [|done]. split; cbn.
  - split; [apply F|by right| | |].
    + intros l i d [Hl Hi] Hg. unfold get_bucket in Hg. cbn in Hg. rewrite list_lookup_fmap in Hg.
      destruct (pss !! Z.to_nat l) as [ps|] eqn:E1; [|done]. cbn in Hg. rewrite list_lookup_fmap in Hg.
      destruct (ps !! Z.to_nat i) as [p|] eqn:E2; [|done]. cbn in Hg. injection Hg as <-.
      assert (Hx : fresh_buckets pss l i = [p]) by (unfold fresh_buckets; rewrite decide_True, E1, E2 by lia; done).
      rewrite Hx. apply bucket_of_repr. apply (fs_new _ _ _ F p). apply (Hmem l i). rewrite Hx. left.
    + intros l i p (Hl & Hi & ps & H1 & H2)%fresh_buckets_elem. split; [|done].
      apply (f_equal (fun x => x !! Z.to_nat l)) in Hlen. rewrite !list_lookup_fmap, H1 in Hlen.
      destruct (BUCKET_COUNTS !! Z.to_nat l) as [c|] eqn:Ec; [|done]. cbn in Hlen. injection Hlen as Hlen.
      apply lookup_lt_Some in H2. pose proof (lookup_lt_Some _ _ _ Ec) as Hlt. cbn in Hlt.
      split; [lia|]. unfold bucket_count. rewrite (nth_lookup BUCKET_COUNTS), Ec. cbn. lia.
    + intros l i l' i' p (Hl & Hi & ps & H1 & H2)%fresh_buckets_elem (Hl' & Hi' & ps' & H1' & H2')%fresh_buckets_elem.
      destruct (concat_nodup_pos pss _ _ _ _ _ _ _ (fs_nodup _ _ _ F) H1 H2 H1' H2'). lia.
  - intros l i _ Hv. destruct (shape_lookup tw' l i Hs Hv) as (w & d & Hw & Hd & _).
    cbn in Hw. rewrite list_lookup_fmap in Hw. destruct (pss !! Z.to_nat l) as [ps|] eqn:E1; [|done].
    cbn in Hw. injection Hw as <-. rewrite list_lookup_fmap in Hd.
    destruct (ps !! Z.to_nat i) as [p|] eqn:E2; [|done]. destruct Hv as [Hl Hi].
    assert (Hx : fresh_buckets pss l i = [p]) by (unfold fresh_buckets; rewrite decide_True, E1, E2 by lia; done).
    exists p. rewrite Hx. split; [left|]. intros q ->%list_elem_of_singleton. split; [done|]. intros _.
    apply (Hsent l i). rewrite Hx. left.
  - intros l i p pos g e n Hp Ht. rewrite (Hsent l i p Hp) in Ht. discriminate.
  - intros p Hp. by apply elem_of_nil in Hp.
  - intros e p g Htn. destruct (wi_ptr _ _ _ _ I e p g Htn) as [(l & i & Hp & _)|[Hp _]]; [by destruct (HB l i p)|by apply elem_of_nil in Hp].
  - intros p n Hp. left. destruct (decide (p ∈ concat pss)) as [Hin|Hout].
    + apply list_elem_of_In, in_concat in Hin as (ps & H1 & H2).
      apply list_elem_of_In, list_elem_of_lookup_1 in H1 as [a Ha].
      apply list_elem_of_In, list_elem_of_lookup_1 in H2 as [b Hb].
      exists (Z.of_nat a), (Z.of_nat b). apply fresh_buckets_elem. rewrite !Nat2Z.id.
      split; [lia|]. split; [lia|]. eauto.
    + rewrite (fs_old _ _ _ F p Hout) in Hp.
      destruct (wi_live _ _ _ _ I p n Hp) as [(l & i & Hx)|Hx]; [by destruct (HB l i p)|by apply elem_of_nil in Hx].
Qed.
End enabling.

(** ** Advancing *)

Section advancing.
Context {K : Type}.
Implicit Types (m : Mem K) (tw : TimerWheel) (B : buckets) (p q : ptr) (e : eid) (h : heap TimerNode)
  (it : TimerEventsIter).

(** Every entry with queue or timer nodes has its metadata. *)
Definition infos_cover m : Prop := forall e, is_Some (dnodes m !! e) -> is_Some (infos m !! e).

Lemma wheel_frame_dom m m' e : wheel_frame m m' -> is_Some (dnodes m' !! e) <-> is_Some (dnodes m !! e).
Proof.
  intros F. pose proof (wf_queues _ _ F e) as H.
  destruct (dnodes m' !! e), (dnodes m !! e); cbn in H; try done; split; intros [? ?]; (done || eauto).
Qed.

Lemma infos_cover_frame m m' : wheel_frame m m' -> infos_cover m -> infos_cover m'.
Proof. intros F H e He. rewrite (wf_infos _ _ F). apply H. by apply (wheel_frame_dom _ _ _ F). Qed.

Lemma tn_of_dnodes m e p g : tn_of m e = Some (p, g) ->
  exists dn, dnodes m !! e = Some dn /\ timer_node dn = Some p /\ timer_node_expiry_gen dn = g.
Proof.
  unfold tn_of. intros (dn & Hdn & Hx)%bind_Some. exists dn. split; [done|].
  apply bind_Some in Hx as (q & Hq & [= <- <-]). done.
Qed.

(** What becomes of a popped node. *)
Inductive popped_as m tw B it p (e : eid) (g : Z) : Mem K -> TimerWheel -> buckets -> list ptr -> round_result -> Prop :=
| PoppedExpired dn ei t :
    dnodes m !! e = Some dn -> infos m !! e = Some ei ->
    fst (expiration_state ei) = Some t -> t <= current_time it ->
    (forall e' g', tn_of (put_nodes m e (with_tn dn None 0)) e' <> Some (p, g')) ->
    popped_as m tw B it p e g (put_nodes m e (with_tn dn None 0)) tw B [p] (Return (Some (Expired p)))
| PoppedRescheduled ei t l i h' d' :
    infos m !! e = Some ei -> fst (expiration_state ei) = Some t -> current_time it < t ->
    bucket_indices tw t = Ok (l, i) -> valid_pos l i ->
    (forall q, q <> p -> timer_at h' q = timer_at (theap m) q) ->
    popped_as m tw B it p e g (with_theap m h') (put_bucket tw l i d') (upd B l i (B l i ++ [p])) []
      (Return (Some RescheduledEvent))
| PoppedDropped dn ei :
    dnodes m !! e = Some dn -> infos m !! e = Some ei -> fst (expiration_state ei) = None ->
    popped_as m tw B it p e g
      (with_theap (put_nodes m e (with_tn dn None 0)) (mkHeap (delete p (cells (theap m))) (next_loc (theap m))))
      tw B [] Continue.

Lemma handle_popped_spec m tw B it p e g :
  wheel_inv m tw B [p] -> shape tw -> tn_of m e = Some (p, g) ->
  timer_at (theap m) p = Some (TimerEntry None g e e) -> infos_cover m ->
  exists m' tw' B' O r, handle_popped m tw it p = Ok (m', tw', r) /\
    popped_as m tw B it p e g m' tw' B' O r /\ wheel_inv m' tw' B' O /\
    wheel_frame m m' /\ same_clock tw tw' /\ shape tw'.
Proof.
  intros I Hs Htn Ht Hc. destruct (tn_of_dnodes _ _ _ _ Htn) as (dn & Hdn & _ & _).
  destruct (Hc e) as [ei Hei]; [eauto|].
  pose proof (schedule_existing_node_spec m tw B e p g ei dn I Hs Htn Hdn (ex_intro _ _ Ht) Hei) as Hsch.
  destruct (ptr_clear m tw B [p] e dn p g 0 I Hdn Htn) as [I1 Hno]; [set_solver|].
  apply timer_at_some in Ht as (n & Hn & He).
  unfold handle_popped, get_info. rewrite (deref_ok _ _ _ Hn). cbn. rewrite He. cbn. rewrite Hei. cbn.
  assert (Hset : set_timer_node m e None 0 = Ok (put_nodes m e (with_tn dn None 0))).
  { unfold set_timer_node, get_nodes. by rewrite Hdn. }
  destruct (fst (expiration_state ei)) as [t|] eqn:Hex.
  - destruct (Z.leb_spec t (current_time it)) as [Hle|Hgt].
    + rewrite Hset. cbn. eexists _, _, B, [p], _. split; [reflexivity|].
      split; [by apply (PoppedExpired m tw B it p e g dn ei t)|]. split; [exact I1|].
      split; [by apply put_tn_frame|done].
    + destruct Hsch as (l & i & h' & d' & Hb & Hv & E & I2 & Hat). rewrite E. cbn.
      eexists _, _, _, [], _. split; [reflexivity|].
      split; [by apply (PoppedRescheduled m tw B it p e g ei t l i h' d')|].
      split; [exact I2|]. split; [by split|]. split; [done|]. by apply put_bucket_shape.
  - rewrite Hset. cbn. unfold drop_node. cbn. rewrite (deref_ok _ _ _ Hn). cbn.
    eexists _, _, _, _, _. split; [reflexivity|].
    split; [by apply (PoppedDropped m tw B it p e g dn ei)|]. split; [exact (owned_drop _ tw B p n I1 Hn Hno)|].
    split; [|done]. transitivity (put_nodes m e (with_tn dn None 0)); [by apply put_tn_frame|by split].
Qed.
(** The iterator's registers while it is running. *)
Record iter_ok it : Prop := {
  io_done : is_done it = false;
  io_level : 0 <= level it < 5;
  io_index : is_new_level it = false ->
    0 <= index it < end_index it /\ end_index it <= 127 /\
    index_mask it = bucket_count (Z.to_nat (level it)) - 1
}.

Lemma new_iter_ok t t' : iter_ok (new_iter t t').
Proof. by split. Qed.

(** Entering a level: the buckets from the previous tick to the current one, at
    most one turn. *)
Lemma enter_level_spec tw it :
  iter_ok it ->
  let prev := tick (level it) (time_nanos tw (previous_time it)) in
  let cur := tick (level it) (time_nanos tw (current_time it)) in
  let n := bucket_count (Z.to_nat (level it)) in
  if cur <=? prev then enter_level tw it = Ok None
  else enter_level tw it =
    Ok (Some (mkIter (previous_time it) (current_time it) false (level it) (prev mod n)
                (prev mod n + Z.min (cur - prev + 1) n) (n - 1) false true)).
Proof.
  intros Hok prev cur n. pose proof (io_level _ Hok) as Hl.
  destruct (bucket_count_pow2 (level it) Hl) as (k & Hk & En). fold n in En.
  assert (Hn : 1 <= n <= 64).
  { rewrite En. split; [apply (Z.pow_le_mono_r 2 0); lia|apply (Z.pow_le_mono_r 2 k 6); lia]. }
  assert (Hsh : SHIFT !! Z.to_nat (level it) = Some (nth (Z.to_nat (level it)) SHIFT 0)).
  { rewrite (nth_lookup SHIFT). destruct (lookup_lt_is_Some_2 SHIFT (Z.to_nat (level it))) as [x ->]; [|done].
    rewrite shift_value. cbn. lia. }
  assert (Hbc : BUCKET_COUNTS !! Z.to_nat (level it) = Some n).
  { unfold n, bucket_count. rewrite (nth_lookup BUCKET_COUNTS).
    destruct (lookup_lt_is_Some_2 BUCKET_COUNTS (Z.to_nat (level it))) as [x ->]; [cbn; lia|done]. }
  assert (Hsv : 30 <= nth (Z.to_nat (level it)) SHIFT 0).
  { rewrite shift_value. assert (level it = 0 \/ level it = 1 \/ level it = 2 \/ level it = 3 \/ level it = 4)
      as [->|[->|[->|[->| ->]]]] by lia; vm_compute; discriminate. }
  assert (Htk : forall t, 0 <= tick (level it) (time_nanos tw t) < 2 ^ 34).
  { intros t. unfold tick. clear Hsh. set (s := nth _ _ _) in *. clearbody s. rewrite Z.shiftr_div_pow2 by lia.
    assert (Ht : 0 <= time_nanos tw t < 2 ^ 64).
    { unfold time_nanos, saturating_duration_since, saturating_sub, U64_MAX. case_match; lia. }
    assert (Hp : 2 ^ 30 <= 2 ^ s) by (apply Z.pow_le_mono_r; lia).
    split; [apply Z.div_pos; lia|]. apply Z.div_lt_upper_bound; [lia|].
    apply Z.lt_le_trans with (2 ^ 30 * 2 ^ 34); [lia|]. apply Z.mul_le_mono_nonneg_r; lia. }
  pose proof (Htk (previous_time it)) as Hp. pose proof (Htk (current_time it)) as Hc.
  unfold enter_level. rewrite Hsh. cbn [expect_some mbind res_bind].
  fold (tick (level it) (time_nanos tw (previous_time it))).
  fold (tick (level it) (time_nanos tw (current_time it))). fold prev cur in Hp, Hc |- *.
  destruct (Z.leb_spec cur prev) as [Hle|Hgt]; [done|]. rewrite Hbc. cbn [expect_some mbind res_bind].
  unfold n. rewrite land_bucket_mask by done. fold n.
  pose proof (Z.mod_pos_bound prev n ltac:(lia)) as Hm.
  rewrite checked_add_ok by lia. cbn [mbind res_bind].
  unfold wrap. rewrite (Z.mod_small (prev mod n)), (Z.mod_small (Z.min (cur - prev + 1) n)) by lia.
  rewrite checked_add_ok by lia. cbn [mbind res_bind]. by rewrite (io_done _ Hok).
Qed.

Lemma enter_level_ok tw it it' : iter_ok it -> enter_level tw it = Ok (Some it') ->
  iter_ok it' /\ level it' = level it /\ is_new_level it' = false /\ is_new_index it' = true /\
  end_index it' - index it' <= bucket_count (Z.to_nat (level it)) /\ current_time it' = current_time it.
Proof.
  intros Hok E. pose proof (enter_level_spec tw it Hok) as H. cbv zeta in H.
  set (n := bucket_count _) in *. case_match eqn:Ec; rewrite H in E; [discriminate|].
  apply Z.leb_gt in Ec.
  destruct (bucket_count_pow2 (level it) (io_level _ Hok)) as (k & Hk & En). fold n in En.
  assert (Hn : 1 <= n <= 64).
  { rewrite En. split; [apply (Z.pow_le_mono_r 2 0); lia|apply (Z.pow_le_mono_r 2 k 6); lia]. }
  set (pm := tick _ _ mod n) in *.
  assert (Hpm : 0 <= pm < n) by (apply Z.mod_pos_bound; lia).
  injection E as <-. cbn [level is_new_level is_new_index end_index index current_time].
  split; [|repeat (split; [done|]); split; [lia|done]].
  split; [done|apply Hok|]. intros _. cbn [index end_index index_mask level]. fold n. lia.
Qed.

(** The current bucket. *)
Definition cur_index it : Z := Z.land (index it) (wrap 8 (index_mask it)).

Lemma cur_index_valid it : iter_ok it -> is_new_level it = false -> valid_pos (level it) (cur_index it).
Proof.
  intros Hok Hn. destruct (io_index _ Hok Hn) as (Hi & He & Hm). split; [apply Hok|].
  destruct (bucket_count_pow2 (level it) (io_level _ Hok)) as (k & Hk & En).
  assert (1 <= 2 ^ k <= 64) by (split; [apply (Z.pow_le_mono_r 2 0); lia|apply (Z.pow_le_mono_r 2 k 6); lia]).
  unfold cur_index, wrap. rewrite Z.mod_small by lia. rewrite Hm, land_bucket_mask by apply Hok.
  rewrite En. apply Z.mod_pos_bound. lia.
Qed.

(** ** The measure of the iteration *)

Definition rest_levels (l : Z) : Z :=
  foldr Z.add 0 (drop (Z.to_nat l) BUCKET_COUNTS).

(** The bucket visits that are left. *)
Definition visits it : Z :=
  if is_new_level it then rest_levels (level it)
  else (end_index it - index it) + rest_levels (level it + 1).

(** The nodes in front of the sentinel. *)
Fixpoint before h (b : list ptr) : nat :=
  match b with
  | [] => 0
  | p :: b' => match timer_at h p with Some Sentinel => 0 | _ => S (before h b') end
  end.

Definition measure (N : Z) h B it : Z :=
  visits it * (N + 2) +
  (if is_new_level it || is_new_index it then N + 1 else Z.of_nat (before h (B (level it) (cur_index it)))).

Lemma before_le h b : (before h b <= length b)%nat.
Proof. induction b as [|p b IH]; cbn; [lia|]. destruct (timer_at h p) as [[]|]; lia. Qed.

Lemma before_ext h h' b : (forall p, p ∈ b -> timer_at h' p = timer_at h p) -> before h' b = before h b.
Proof.
  induction b as [|p b IH]; intros H; cbn; [done|]. rewrite H by left.
  destruct (timer_at h p) as [[]|]; [done|..]; rewrite IH by (intros q Hq; apply H; by right); done.
Qed.

Lemma before_snoc h b q s : s ∈ b -> timer_at h s = Some Sentinel -> before h (b ++ [q]) = before h b.
Proof.
  induction b as [|p b IH]; intros Hs Ht; [by apply elem_of_nil in Hs|]. cbn.
  apply elem_of_cons in Hs as [->|Hs]; [by rewrite Ht|].
  destruct (timer_at h p) as [[]|]; [done|..]; by rewrite IH.
Qed.

Lemma rest_levels_step l : 0 <= l < 5 -> rest_levels l = bucket_count (Z.to_nat l) + rest_levels (l + 1).
Proof.
  intros H. assert (l = 0 \/ l = 1 \/ l = 2 \/ l = 3 \/ l = 4) as [->|[->|[->|[->| ->]]]] by lia; reflexivity.
Qed.
Lemma rest_levels_nonneg l : 0 <= rest_levels l.
Proof.
  unfold rest_levels. destruct (Z.to_nat l) as [|[|[|[|[|n]]]]]; try (vm_compute; discriminate).
  cbn. by rewrite drop_nil.
Qed.

(** A bucket has no more nodes than the heap. *)
Lemma bucket_size m tw B O l i :
  wheel_inv m tw B O -> Z.of_nat (length (B l i)) <= Z.of_nat (size (cells (theap m))).
Proof.
  intros I. apply inj_le.
  assert (Hnd : NoDup (B l i)).
  { destruct (B l i) as [|p b] eqn:E; [constructor|]. pose proof (wi_buckets _ _ _ _ I) as BI.
    destruct (bi_out _ _ _ BI l i p) as [Hv Hs]; [rewrite E; left|].
    destruct (shape_lookup tw l i Hs Hv) as (w & d & _ & _ & Hg). rewrite <- E.
    apply (bi_repr _ _ _ BI l i d Hv Hg). }
  rewrite <- (size_list_to_set (C := gset ptr)) by done. rewrite <- size_dom. apply subseteq_size.
  intros p Hp%elem_of_list_to_set. destruct (bucket_live _ _ _ _ l i p I Hp) as [n Hn].
  by apply elem_of_dom_2 in Hn.
Qed.

Lemma heap_shrinks h h' :
  (forall p, is_Some (cells h' !! p) -> is_Some (cells h !! p)) ->
  Z.of_nat (size (cells h')) <= Z.of_nat (size (cells h)).
Proof.
  intros H. apply inj_le. rewrite <- !size_dom. apply subseteq_size. intros p.
  rewrite !elem_of_dom. apply H.
Qed.

Definition in_wheel B (O : list ptr) q : Prop := (exists l i, q ∈ B l i) \/ q ∈ O.

Lemma inv_shrinks m tw B O m' tw' B' O' :
  wheel_inv m tw B O -> wheel_inv m' tw' B' O' -> (forall q, in_wheel B' O' q -> in_wheel B O q) ->
  Z.of_nat (size (cells (theap m'))) <= Z.of_nat (size (cells (theap m))).
Proof.
  intros I I' H. apply heap_shrinks. intros p [n Hn].
  destruct (H p (wi_live _ _ _ _ I' p n Hn)) as [(l & i & Hp)|Hp].
  - destruct (bucket_live _ _ _ _ l i p I Hp) as [n' Hn']. eauto.
  - destruct (wi_owned _ _ _ _ I p Hp) as (_ & pos & g & e & Ht).
    apply timer_at_some in Ht as (n' & Hn' & _). eauto.
Qed.

Lemma upd_in_wheel B l i b O q : in_wheel (upd B l i b) O q -> q ∈ b \/ in_wheel B O q.
Proof.
  intros [(l' & i' & Hq)|Hq]; [|right; by right]. unfold upd in Hq. case_decide; [by left|].
  right. left. eauto.
Qed.

Lemma popped_in_wheel m tw B it p e g m' tw' B' O r q :
  popped_as m tw B it p e g m' tw' B' O r -> in_wheel B' O q -> in_wheel B [p] q.
Proof.
  intros Hpop Hq. destruct Hpop; [done| |].
  - apply upd_in_wheel in Hq as [[Hx| ->]%elem_snoc|[Hx|Hx%elem_of_nil]]; [left; eauto|right; left|by left|done].
  - destruct Hq as [Hx|Hx%elem_of_nil]; [by left|done].
Qed.

Lemma before_popped m tw B it p e g m' tw' B' O r l i s :
  popped_as m tw B it p e g m' tw' B' O r ->
  p ∉ B l i -> s ∈ B l i -> timer_at (theap m) s = Some Sentinel ->
  before (theap m') (B' l i) = before (theap m) (B l i).
Proof.
  intros Hpop Hp Hs Ht.
  destruct Hpop as [| ? ? ? ? h' ? ? ? ? ? ? Hat |]; cbn [theap with_theap put_nodes].
  - done.
  - assert (He : before h' (B l i) = before (theap m) (B l i)).
    { apply before_ext. intros q Hq. apply Hat. by intros ->. }
    unfold upd. case_decide as E; [|done]. destruct E; subst.
    rewrite (before_snoc _ _ _ s); [done|done|]. rewrite Hat; [done|]. by intros ->.
  - apply before_ext. intros q Hq. unfold timer_at. cbn. rewrite lookup_delete_ne; [done|]. by intros ->.
Qed.

(** The node of an [Expired] event: its entry is due and no longer points to it. *)
Definition expired_event m p (now : Instant) : Prop :=
  (forall e g, tn_of m e <> Some (p, g)) /\
  exists e g ei t, timer_at (theap m) p = Some (TimerEntry None g e e) /\ is_Some (dnodes m !! e) /\
    infos m !! e = Some ei /\ fst (expiration_state ei) = Some t /\ t <= now.

Definition event_ok m it' (O : list ptr) (r : round_result) (now : Instant) : Prop :=
  match r with
  | Continue => O = [] /\ iter_ok it'
  | Return None => O = [] /\ is_done it' = true
  | Return (Some (Expired p)) => O = [p] /\ iter_ok it' /\ expired_event m p now
  | Return (Some _) => O = [] /\ iter_ok it'
  end.

(** What one round of the loop guarantees, with [N] bounding the nodes. *)
Definition round_post (N : Z) m tw B it (out : res (Mem K * TimerWheel * TimerEventsIter * round_result)) : Prop :=
  exists m' tw' it' r B' O, out = Ok (m', tw', it', r) /\
    wheel_inv m' tw' B' O /\ wheel_frame m m' /\ same_clock tw tw' /\ shape tw' /\
    event_ok m' it' O r (current_time it) /\
    Z.of_nat (size (cells (theap m'))) <= Z.of_nat (size (cells (theap m))) /\
    current_time it' = current_time it /\ previous_time it' = previous_time it /\
    (r <> Return None -> measure N (theap m') B' it' < measure N (theap m) B it).

Lemma reset_if_new m tw B it :
  wheel_inv m tw B [] -> shape tw -> valid_pos (level it) (cur_index it) ->
  exists h' tw' B',
    (if is_new_index it then reset_timer_node_positions m tw (level it) (cur_index it) else Ok (m, tw)) =
      Ok (with_theap m h', tw') /\
    wheel_inv (with_theap m h') tw' B' [] /\ shape tw' /\ same_clock tw tw' /\
    (forall q, in_wheel B' [] q -> in_wheel B [] q) /\
    (is_new_index it = false -> B' = B /\ h' = theap m).
Proof.
  intros I Hs Hv. destruct (is_new_index it).
  - destruct (reset_spec m tw B _ _ I Hs Hv) as (h' & d' & c & s & E & I' & _ & Hc).
    eexists h', _, _. split; [exact E|]. split; [exact I'|]. split; [by apply put_bucket_shape|].
    split; [done|]. split; [|done]. intros q [Hq|Hq]%upd_in_wheel; [|done].
    left. exists (level it), (cur_index it). by rewrite <- Hc.
  - exists (theap m), tw, B. assert (Hm : with_theap m (theap m) = m) by (by destruct m).
    rewrite Hm. done.
Qed.

Lemma next_queue_spec it :
  iter_ok it -> is_new_level it = false ->
  exists it' r, next_queue it = Ok (it', r) /\
    current_time it' = current_time it /\ previous_time it' = previous_time it /\
    ((r = Return None /\ is_done it' = true) \/
     (r = Continue /\ iter_ok it' /\ visits it' = visits it - 1 /\ (is_new_level it' || is_new_index it') = true)).
Proof.
  intros Hok Hn. destruct (io_index _ Hok Hn) as (Hi & He & Hm). pose proof (io_level _ Hok) as Hl.
  unfold next_queue, visits. rewrite checked_add_ok by lia. cbn [mbind res_bind].
  rewrite Hn, (io_done _ Hok).
  destruct (Z.leb_spec (end_index it) (index it + 1)).
  - change (Z.of_nat (length BUCKET_COUNTS)) with 5.
    destruct (Z.leb_spec 5 (level it + 1)); cbn [orb negb].
    + eexists _, _. split; [reflexivity|]. split; [done|]. split; [done|]. by left.
    + eexists _, _. split; [reflexivity|]. split; [done|]. split; [done|]. right. split; [done|].
      cbn [is_new_level is_new_index level index end_index orb negb].
      split; [split; cbn; (done || lia)|]. split; [lia|done].
  - eexists _, _. split; [reflexivity|]. split; [done|]. split; [done|]. right. split; [done|].
    cbn [is_new_level is_new_index level index end_index orb negb].
    split; [split; [done|done|]; intros _; cbn [index end_index index_mask level]; lia|]. split; [lia|done].
Qed.
(** A popped node: the event, and the nodes left in front of the sentinel. *)
Lemma popped_round m tw B it p e g m' tw' B' O r :
  popped_as m tw B it p e g m' tw' B' O r -> iter_ok it ->
  timer_at (theap m) p = Some (TimerEntry None g e e) ->
  event_ok m' it O r (current_time it) /\ r <> Return None.
Proof.
  intros Hpop Hok Ht. destruct Hpop; cbn; try done. split; [|done]. split; [done|]. split; [done|].
  split; [done|]. exists e, g, ei, t. cbn. rewrite lookup_insert_eq. split; [done|]. split; [eauto|done].
Qed.

Lemma bucket_round_spec N m tw B it :
  wheel_inv m tw B [] -> shape tw -> infos_cover m -> iter_ok it -> is_new_level it = false ->
  Z.of_nat (size (cells (theap m))) <= N ->
  round_post N m tw B it (bucket_round m tw it).
Proof.
  intros I Hs Hc Hok Hn HN. pose proof (cur_index_valid it Hok Hn) as Hv.
  destruct (reset_if_new m tw B it I Hs Hv) as (h1 & tw1 & B1 & E1 & I1 & Hs1 & Hc1 & Hw1 & Hold).
  destruct (pop_spec _ tw1 B1 _ _ I1 Hs1 Hv) as (p & rest & Hb & Hcase).
  pose proof (inv_shrinks _ _ _ _ _ _ _ _ I I1 Hw1) as HN1.
  unfold round_post, bucket_round. fold (cur_index it). rewrite E1. cbn [mbind res_bind].
  cbn [level with_new_index]. set (it1 := with_new_index it false).
  assert (Hok1 : iter_ok it1) by (split; apply Hok).
  destruct Hcase as [[Hsent Hpop]|(h2 & d2 & g & e & Ht & Htn & Hpop & I2 & Ht2 & Hat)].
  - rewrite Hpop. cbn [mbind res_bind].
    destruct (next_queue_spec it1 Hok1 Hn) as (it2 & r & E2 & Hct & Hpt & Hr). rewrite E2. cbn [mbind res_bind].
    exists (with_theap m h1), tw1, it2, r, B1, []. split; [done|]. split; [done|].
    split; [by split|]. split; [done|]. split; [done|]. split.
    { destruct Hr as [[-> Hd]|(-> & Hok2 & _)]; done. }
    split; [done|]. split; [done|]. split; [done|]. intros Hne.
    destruct Hr as [[-> _]|(_ & _ & Hvis & Hnew)]; [done|].
    unfold measure. rewrite Hnew, Hvis. change (visits it1) with (visits it). rewrite Hn. cbn [orb].
    destruct (is_new_index it); lia.
  - rewrite Hpop. cbn [mbind res_bind].
    assert (Hc2 : infos_cover (with_theap (with_theap m h1) h2)) by exact Hc.
    assert (Hs2 : shape (put_bucket tw1 (level it) (cur_index it) d2)) by (by apply put_bucket_shape).
    destruct (handle_popped_spec _ _ _ it1 p e g I2 Hs2 Htn Ht2 Hc2)
      as (m3 & tw3 & B3 & O & r & E3 & Hpa & I3 & F3 & Hc3 & Hs3).
    cbn [theap with_theap] in *. rewrite E3. cbn [mbind res_bind].
    destruct (popped_round _ _ _ _ _ _ _ _ _ _ _ _ Hpa Hok1 Ht2) as [Hev Hne].
    exists m3, tw3, it1, r, B3, O. split; [done|]. split; [done|]. split.
    { transitivity (with_theap (with_theap m h1) h2); [by split|done]. }
    split; [destruct Hc1, Hc3; split; cbn in *; congruence|]. split; [done|]. split; [done|]. split.
    { transitivity (Z.of_nat (size (cells h1))); [|done].
      eapply (inv_shrinks _ _ _ _ _ _ _ _ I1 I3). intros q Hq.
      apply (popped_in_wheel _ _ _ _ _ _ _ _ _ _ _ _ _ Hpa) in Hq.
      destruct Hq as [Hq|Hq%list_elem_of_singleton].
      - assert (Hq' : in_wheel (upd B1 (level it) (cur_index it) rest) [] q) by (by left).
        apply upd_in_wheel in Hq' as [Hq'|Hq']; [|done].
        left. exists (level it), (cur_index it). rewrite Hb. by right.
      - subst q. left. exists (level it), (cur_index it). rewrite Hb. left. }
    split; [done|]. split; [done|]. intros _.
    assert (Hbef : before (theap m3) (B3 (level it) (cur_index it)) = before h1 rest).
    { destruct (wi_sentinel _ _ _ _ I1 (level it) (cur_index it) Hs1 Hv) as (s & Hsin & Hsu).
      assert (Hsp : s <> p) by (intros ->; apply Hsu in Hsin as [_ Hx]; specialize (Hx eq_refl); cbn in Hx; congruence).
      assert (Hsr : s ∈ rest) by (rewrite Hb in Hsin; by apply elem_of_cons in Hsin as [?|?]).
      assert (Hpr : p ∉ rest).
      { destruct (wi_owned _ _ _ _ I2 p) as [Hx _]; [left|]. specialize (Hx (level it) (cur_index it)).
        by rewrite upd_same in Hx. }
      rewrite (before_popped _ _ _ _ _ _ _ _ _ _ _ _ (level it) (cur_index it) s Hpa); rewrite ?upd_same; try done.
      - apply before_ext. intros q Hq. apply Hat. by intros ->.
      - cbn. rewrite Hat by done. by apply Hsu. }
    assert (Hlen : S (before h1 rest) = before h1 (p :: rest)) by (cbn in Ht |- *; by rewrite Ht).
    pose proof (bucket_size _ _ _ _ (level it) (cur_index it) I1) as Hsz. rewrite Hb in Hsz. cbn [theap with_theap] in Hsz.
    pose proof (before_le h1 (p :: rest)) as Hle.
    unfold measure. change (visits it1) with (visits it). cbn [is_new_level is_new_index it1 with_new_index level].
    change (cur_index it1) with (cur_index it). rewrite Hn, Hbef. cbn [orb].
    destruct (is_new_index it); [lia|]. destruct (Hold eq_refl) as [-> ->]. rewrite Hb. lia.
Qed.

Lemma iter_round_spec N m tw B it :
  wheel_inv m tw B [] -> shape tw -> infos_cover m -> iter_ok it ->
  Z.of_nat (size (cells (theap m))) <= N ->
  round_post N m tw B it (iter_round m tw it).
Proof.
  intros I Hs Hc Hok HN. unfold iter_round. destruct (is_new_level it) eqn:Hn.
  - destruct (enter_level tw it) as [[it1|]|] eqn:E; cbn [mbind res_bind].
    + destruct (enter_level_ok _ _ _ Hok E) as (Hok1 & Hl1 & Hn1 & Hi1 & Hend & Hct).
      pose proof (bucket_round_spec N m tw B it1 I Hs Hc Hok1 Hn1 HN) as H.
      destruct H as (m' & tw' & it' & r & B' & O & E' & I' & F & C & S' & Ev & Sz & Ct & Pt & M).
      assert (Hpt : previous_time it1 = previous_time it).
      { pose proof (enter_level_spec tw it Hok) as H. cbv zeta in H. case_match; rewrite H in E; by simplify_eq. }
      exists m', tw', it', r, B', O. rewrite Hct in Ev. repeat (split; [done|]). split; [congruence|].
      split; [congruence|]. intros Hr. specialize (M Hr).
      assert (Hle : measure N (theap m) B it1 <= measure N (theap m) B it); [|lia].
      unfold measure, visits. rewrite Hn1, Hi1, Hn, Hl1. cbn [orb].
      rewrite (rest_levels_step (level it)) by apply Hok. nia.
    + exists m, tw, (done it), (Return None), B, []. split; [done|]. split; [done|]. split; [done|].
      split; [done|]. split; [done|]. split; [done|]. split; [done|]. split; [done|]. split; [done|]. done.
    + pose proof (enter_level_spec tw it Hok) as H. cbv zeta in H. case_match; rewrite H in E; discriminate.
  - by apply bucket_round_spec.
Qed.

Lemma measure_nonneg N m tw B O it :
  wheel_inv m tw B O -> iter_ok it -> Z.of_nat (size (cells (theap m))) <= N -> 0 <= measure N (theap m) B it.
Proof.
  intros I Hok HN. unfold measure, visits. pose proof (rest_levels_nonneg (level it)).
  pose proof (rest_levels_nonneg (level it + 1)).
  destruct (is_new_level it) eqn:Hn; cbn [orb]; [|destruct (io_index _ Hok Hn)]; [|destruct (is_new_index it)]; nia.
Qed.

(** [next] returns, with an event or at the end, within as many rounds as the
    measure says. *)
Lemma timer_next_spec N fuel m tw B it :
  wheel_inv m tw B [] -> shape tw -> infos_cover m -> iter_ok it ->
  Z.of_nat (size (cells (theap m))) <= N -> measure N (theap m) B it < Z.of_nat fuel ->
  exists m' tw' it' ev B' O, timer_next fuel m tw it = Ok (m', tw', it', ev) /\
    wheel_inv m' tw' B' O /\ wheel_frame m m' /\ same_clock tw tw' /\ shape tw' /\
    event_ok m' it' O (Return ev) (current_time it) /\
    Z.of_nat (size (cells (theap m'))) <= Z.of_nat (size (cells (theap m))) /\
    current_time it' = current_time it /\ previous_time it' = previous_time it /\
    (ev <> None -> measure N (theap m') B' it' < measure N (theap m) B it).
Proof.
  revert m tw B it. induction fuel as [|fuel IH]; intros m tw B it I Hs Hc Hok HN Hf.
  { pose proof (measure_nonneg N m tw B [] it I Hok HN). lia. }
  destruct (iter_round_spec N m tw B it I Hs Hc Hok HN)
    as (m1 & tw1 & it1 & r & B1 & O & E & I1 & F & C & S1 & Ev & Sz & Ct & Pt & M).
  cbn [timer_next]. rewrite (io_done _ Hok), E. cbn [mbind res_bind]. destruct r as [|ev].
  - destruct Ev as [-> Hok1]. specialize (M ltac:(done)).
    destruct (IH m1 tw1 B1 it1 I1 S1 (infos_cover_frame _ _ F Hc) Hok1) as
      (m2 & tw2 & it2 & ev & B2 & O2 & E2 & I2 & F2 & C2 & S2 & Ev2 & Sz2 & Ct2 & Pt2 & M2); [lia|lia|].
    exists m2, tw2, it2, ev, B2, O2. split; [done|]. split; [done|]. split; [by transitivity m1|].
    split; [destruct C, C2; split; congruence|]. split; [done|]. split; [by rewrite <- Ct|].
    split; [lia|]. split; [congruence|]. split; [congruence|]. intros Hev. specialize (M2 Hev). lia.
  - exists m1, tw1, it1, ev, B1, O. repeat (split; [done|]). intros Hev. apply M. congruence.
Qed.
(** [for event in wheel.advance(now)], collecting the entries that expired; the
    consumer drops the node of each event. *)
Fixpoint drain (fuel : nat) m tw it (acc : list eid) : res (Mem K * TimerWheel * TimerEventsIter * list eid) :=
  match fuel with
  | O => Fail Diverged
  | S fuel' =>
      '(m, tw, it, ev) ← timer_next fuel m tw it;
      match ev with
      | None => Ok (m, tw, it, acc)
      | Some (Expired node) =>
          n ← deref (theap m) node;
          e ← tn_entry_info (element n);
          h ← drop_node (theap m) node;
          drain fuel' (with_theap m h) tw it (acc ++ [e])
      | Some _ => drain fuel' m tw it acc
      end
  end.

(** Enough rounds for every bucket visit and every node in it. *)
Definition wheel_fuel m : nat := Z.to_nat (167 * (Z.of_nat (size (cells (theap m))) + 3)).

Definition advance_all m tw (now : Instant) : res (Mem K * TimerWheel * list eid) :=
  let '(tw, it) := advance tw now in
  '(m, tw, it, es) ← drain (wheel_fuel m) m tw it [];
  Ok (m, drop_iter tw it, es).

(** The entry is due at [now]. *)
Definition due m (now : Instant) e : Prop :=
  exists ei t, infos m !! e = Some ei /\ fst (expiration_state ei) = Some t /\ t <= now.

Lemma expired_drop m tw B p now :
  wheel_inv m tw B [p] -> expired_event m p now ->
  exists n e h, cells (theap m) !! p = Some n /\ tn_entry_info (element n) = Ok e /\
    drop_node (theap m) p = Ok h /\ wheel_inv (with_theap m h) tw B [] /\ due m now e /\
    Z.of_nat (size (cells h)) <= Z.of_nat (size (cells (theap m))) /\
    (forall q, q <> p -> timer_at h q = timer_at (theap m) q).
Proof.
  intros I (Hno & e & g & ei & t & Ht & _ & Hei & Hex & Hle).
  apply timer_at_some in Ht as (n & Hn & He).
  exists n, e, (mkHeap (delete p (cells (theap m))) (next_loc (theap m))).
  split; [done|]. split; [by rewrite He|]. split; [by apply drop_node_ok with n|].
  split; [by apply owned_drop with n|]. split; [by exists ei, t|]. split.
  - apply heap_shrinks. intros q. cbn. intros [x Hx]. apply lookup_delete_Some in Hx as [_ Hx]. eauto.
  - intros q Hq. unfold timer_at. cbn. by rewrite lookup_delete_ne.
Qed.

Lemma measure_ext N h h' B it :
  (forall q, q ∈ B (level it) (cur_index it) -> timer_at h' q = timer_at h q) ->
  measure N h' B it = measure N h B it.
Proof. intros H. unfold measure. by rewrite (before_ext h h'). Qed.

Lemma drain_spec N fuel m tw B it acc :
  wheel_inv m tw B [] -> shape tw -> infos_cover m -> iter_ok it ->
  Z.of_nat (size (cells (theap m))) <= N -> measure N (theap m) B it < Z.of_nat fuel ->
  exists m' tw' it' B' es, drain fuel m tw it acc = Ok (m', tw', it', acc ++ es) /\
    wheel_inv m' tw' B' [] /\ wheel_frame m m' /\ same_clock tw tw' /\ shape tw' /\ is_done it' = true /\
    forall e, e ∈ es -> due m (current_time it) e.
Proof.
  revert m tw B it acc. induction fuel as [|fuel IH]; intros m tw B it acc I Hs Hc Hok HN Hf.
  { pose proof (measure_nonneg N m tw B [] it I Hok HN). lia. }
  destruct (timer_next_spec N (S fuel) m tw B it I Hs Hc Hok HN Hf)
    as (m1 & tw1 & it1 & ev & B1 & O & E & I1 & F & C & S1 & Ev & Sz & Ct & Pt & M).
  pose proof (infos_cover_frame _ _ F Hc) as Hc1.
  assert (Hdue : forall e, due m1 (current_time it) e -> due m (current_time it) e).
  { intros e (ei & t & H & H'). exists ei, t. by rewrite <- (wf_infos _ _ F). }
  unfold drain; fold drain. rewrite E. cbn [mbind res_bind]. destruct ev as [[p| |]|]; cbn in Ev.
  - destruct Ev as (-> & Hok1 & Hexp). specialize (M ltac:(done)).
    destruct (expired_drop _ _ _ _ _ I1 Hexp) as (n & e & h & Hn & He & Hd & I2 & Hdu & Hsz & Hat).
    rewrite (deref_ok _ _ _ Hn). cbn [mbind res_bind]. rewrite He. cbn [mbind res_bind]. rewrite Hd.
    cbn [mbind res_bind].
    assert (Hm : measure N h B1 it1 = measure N (theap m1) B1 it1).
    { apply measure_ext. intros q Hq. apply Hat. intros ->.
      destruct (wi_owned _ _ _ _ I1 p) as [Hx _]; [left|]. by apply (Hx (level it1) (cur_index it1)). }
    destruct (IH (with_theap m1 h) tw1 B1 it1 (acc ++ [e]) I2 S1 Hc1 Hok1)
      as (m2 & tw2 & it2 & B2 & es & E2 & I3 & F2 & C2 & S2 & D2 & H2); [cbn; lia|cbn; lia|].
    exists m2, tw2, it2, B2, (e :: es). split; [by rewrite E2, <- app_assoc|]. split; [done|].
    split; [transitivity m1; [done|]; transitivity (with_theap m1 h); [by split|done]|].
    split; [destruct C, C2; split; congruence|]. split; [done|]. split; [done|].
    intros x [->|Hx]%elem_of_cons; [by apply Hdue|]. rewrite <- Ct. apply H2 in Hx.
    rewrite Ct in *. by apply Hdue.
  - destruct Ev as (-> & Hok1). specialize (M ltac:(done)).
    destruct (IH m1 tw1 B1 it1 acc I1 S1 Hc1 Hok1) as (m2 & tw2 & it2 & B2 & es & E2 & I3 & F2 & C2 & S2 & D2 & H2); [lia|lia|].
    exists m2, tw2, it2, B2, es. split; [done|]. split; [done|]. split; [by transitivity m1|].
    split; [destruct C, C2; split; congruence|]. split; [done|]. split; [done|].
    intros x Hx. apply H2 in Hx. rewrite Ct in *. by apply Hdue.
  - destruct Ev as (-> & Hok1). specialize (M ltac:(done)).
    destruct (IH m1 tw1 B1 it1 acc I1 S1 Hc1 Hok1) as (m2 & tw2 & it2 & B2 & es & E2 & I3 & F2 & C2 & S2 & D2 & H2); [lia|lia|].
    exists m2, tw2, it2, B2, es. split; [done|]. split; [done|]. split; [by transitivity m1|].
    split; [destruct C, C2; split; congruence|]. split; [done|]. split; [done|].
    intros x Hx. apply H2 in Hx. rewrite Ct in *. by apply Hdue.
  - destruct Ev as (-> & Hd). exists m1, tw1, it1, B1, []. rewrite app_nil_r.
    repeat (split; [done|]). intros x Hx. by apply elem_of_nil in Hx.
Qed.

Lemma initial_measure m B t t' :
  measure (Z.of_nat (size (cells (theap m)))) (theap m) B (new_iter t t') < Z.of_nat (wheel_fuel m).
Proof.
  unfold measure, visits, wheel_fuel. cbn [new_iter is_new_level is_new_index level orb].
  change (rest_levels 0) with 165. lia.
Qed.

Lemma wheel_inv_clock m tw tw' B O : wheels tw' = wheels tw -> wheel_inv m tw B O -> wheel_inv m tw' B O.
Proof.
  intros E I. pose proof (wi_buckets _ _ _ _ I) as BI.
  assert (Hs : shape tw' <-> shape tw) by (unfold shape; by rewrite E).
  split; try apply I.
  - split; try apply BI.
    + rewrite E, Hs. apply BI.
    + intros l i d. unfold get_bucket. rewrite E. apply BI.
    + intros l i p. rewrite Hs. apply BI.
  - intros l i. rewrite Hs. apply I.
Qed.

(** C26. Advancing the timer wheel terminates without a fault, whatever timers it
    holds, and never fires early: every entry it reports had an expiration time
    not later than the new current time.  The wheel's invariant (each bucket's
    links, one sentinel per bucket, entries and timer nodes pointing at each
    other, no node lost or leaked) holds again afterwards, and the wheel's clock
    is at the new time. *)
Theorem advance_all_spec m tw B now :
  wheel_inv m tw B [] -> shape tw -> infos_cover m ->
  exists m' tw' B' es, advance_all m tw now = Ok (m', tw', es) /\
    wheel_inv m' tw' B' [] /\ shape tw' /\ wheel_frame m m' /\ current tw' = now /\
    forall e, e ∈ es -> due m now e.
Proof.
  intros I Hs Hc. unfold advance_all, advance.
  destruct (drain_spec (Z.of_nat (size (cells (theap m)))) (wheel_fuel m) m (set_current tw now) B (new_iter (current tw) now) [])
    as (m' & tw' & it' & B' & es & E & I' & F & C & S' & D & H); try done.
  - by apply (wheel_inv_clock m tw).
  - apply initial_measure.
  - cbn [app] in E. rewrite E. cbn [mbind res_bind]. exists m', tw', B', es. unfold drop_iter. rewrite D.
    split; [done|]. split; [done|]. split; [done|]. split; [done|]. split; [apply C|]. exact H.
Qed.
End advancing.

(** ** Due timers are visited *)

(** The buckets of the level that the iterator visits. *)
Definition visited (it : TimerEventsIter) (i : Z) : Prop :=
  exists k, index it <= k < end_index it /\ Z.land k (wrap 8 (index_mask it)) = i.

Lemma tick_mono l x y : 0 <= l < 5 -> x <= y -> tick l x <= tick l y.
Proof.
  intros Hl H. unfold tick. assert (Hs : 0 <= nth (Z.to_nat l) SHIFT 0).
  { rewrite shift_value. assert (l = 0 \/ l = 1 \/ l = 2 \/ l = 3 \/ l = 4)
      as [->|[->|[->|[->| ->]]]] by lia; vm_compute; discriminate. }
  rewrite !Z.shiftr_div_pow2 by done. apply Z.div_le_mono; [by apply Z.pow_pos_nonneg|done].
Qed.

Lemma time_nanos_mono tw x y : x <= y -> time_nanos tw x <= time_nanos tw y.
Proof.
  intros H. unfold time_nanos, saturating_duration_since, saturating_sub.
  repeat case_match; rewrite ?Z.leb_le, ?Z.leb_gt in *; lia.
Qed.

(** A due timer is found: if a timer was put at level [l], bucket [i] for the
    time [t], then the next advance over [t] that moves the tick of level [l]
    visits bucket [i] (so a timer is at most one tick of its level late). *)
Theorem due_bucket_visited tw0 tw it t l i :
  bucket_indices tw0 t = Ok (l, i) -> origin tw = origin tw0 -> iter_ok it -> level it = l ->
  previous_time it <= t <= current_time it ->
  tick l (time_nanos tw (previous_time it)) < tick l (time_nanos tw (current_time it)) ->
  exists it', enter_level tw it = Ok (Some it') /\ level it' = l /\ visited it' i.
Proof.
  intros Hb Ho Hok Hl Ht Htick. rewrite bucket_indices_spec in Hb. injection Hb as Hl' Hi.
  assert (Hlr : 0 <= l < 5) by (rewrite <- Hl'; apply level_of_range). rewrite Hl' in Hi.
  pose proof (enter_level_spec tw it Hok) as E. cbv zeta in E. rewrite Hl in E.
  set (prev := tick l (time_nanos tw (previous_time it))) in *.
  set (cur := tick l (time_nanos tw (current_time it))) in *.
  set (n := bucket_count (Z.to_nat l)) in *.
  rewrite (proj2 (Z.leb_gt _ _)) in E by done.
  eexists. split; [exact E|]. split; [done|].
  set (tt := tick l (time_nanos tw t)).
  assert (Htt : prev <= tt <= cur) by (split; apply tick_mono; try done; apply time_nanos_mono; lia).
  assert (Hi' : i = tt mod n).
  { rewrite <- Hi. unfold index_in. fold n. unfold tt, time_nanos. by rewrite Ho. }
  destruct (bucket_count_pow2 l Hlr) as (k & Hk & En). fold n in En.
  assert (Hn : 1 <= n <= 64).
  { rewrite En. split; [apply (Z.pow_le_mono_r 2 0); lia|apply (Z.pow_le_mono_r 2 k 6); lia]. }
  exists (prev mod n + (tt - prev) mod n). cbn [index end_index index_mask].
  pose proof (Z.mod_pos_bound (tt - prev) n ltac:(lia)) as Hm.
  assert (Hle : (tt - prev) mod n <= tt - prev) by (apply Z.mod_le; lia).
  split; [lia|]. unfold wrap. rewrite (Z.mod_small (n - 1)) by lia. unfold n. rewrite land_bucket_mask by done.
  fold n. rewrite <- Z.add_mod by lia. rewrite Hi'. f_equal. lia.
Qed.

(** ** Witnesses *)

Definition timer_info : EntryInfo Z :=
  fst (set_expiration_time (mkEntryInfo (mkKeyHash 7 42) false false 1 0 0xFFFFFFFFFFFFF000 0 0 1) (Some (2 ^ 33))).
Definition timer_mem : Mem Z := fst (value_entry_new (fst (alloc_info empty_mem timer_info)) 5 1%positive).

Lemma empty_wheel_inv {K} (m : Mem K) now :
  theap m = empty_heap -> (forall e, tn_of m e = None) ->
  wheel_inv m (new_timer_wheel now) (fun _ _ => []) [].
Proof.
  intros Hh Ht. split.
  - split.
    + rewrite Hh. intros p n Hp. cbn in Hp. by rewrite lookup_empty in Hp.
    + by left.
    + intros l i d _ Hg. discriminate Hg.
    + intros l i p Hp. by apply elem_of_nil in Hp.
    + intros l i l' i' p Hp. by apply elem_of_nil in Hp.
  - intros l i Hs. discriminate Hs.
  - intros l i p pos g e n Hp. by apply elem_of_nil in Hp.
  - intros p Hp. by apply elem_of_nil in Hp.
  - intros e p g. by rewrite Ht.
  - rewrite Hh. intros p n Hp. cbn in Hp. by rewrite lookup_empty in Hp.
Qed.

Lemma timer_mem_nodes e dn : dnodes timer_mem !! e = Some dn -> e = 1%positive /\ dn = default_deq_nodes.
Proof.
  unfold timer_mem. cbn. intros [[? ?]|[_ H]]%lookup_insert_Some; [done|]. by rewrite lookup_empty in H.
Qed.

(** One timer is scheduled 8.6 s ahead; the wheel is advanced by 20 s. *)
Lemma advance_all_spec_witness :
  exists m1 tw1 m2 tw2 p m' tw' es,
    enable timer_mem (new_timer_wheel 0) = Ok (m1, tw1) /\
    schedule m1 tw1 1%positive 1%positive 1 = Ok (m2, tw2, Some p) /\
    advance_all (put_nodes m2 1%positive (with_tn default_deq_nodes (Some p) 1)) tw2 20000000000 = Ok (m', tw', es) /\
    current tw' = 20000000000.
Proof.
  assert (I0 : wheel_inv timer_mem (new_timer_wheel 0) (fun _ _ => []) []).
  { apply empty_wheel_inv; [done|]. intros e. unfold tn_of.
    destruct (dnodes timer_mem !! e) eqn:E; [|done]. apply timer_mem_nodes in E as [_ ->]. done. }
  destruct (enable_spec timer_mem _ _ I0 eq_refl) as (h1 & tw1 & B1 & E1 & _ & I1 & S1).
  destruct (schedule_spec (with_theap timer_mem h1) tw1 B1 1%positive 1 (2 ^ 33) timer_info default_deq_nodes
    I1 S1 eq_refl eq_refl eq_refl eq_refl) as (h2 & tw2 & B2 & p & E2 & _ & I2).
  assert (S2 : shape tw2).
  { clear E1 E2. destruct (wi_ptr _ _ _ _ I2 1%positive p 1 eq_refl) as [(l & i & Hp & _)|[Hp _]];
      [|by apply elem_of_nil in Hp].
    by apply (bi_out _ _ _ (wi_buckets _ _ _ _ I2)) in Hp as [_ ?]. }
  destruct (advance_all_spec _ tw2 B2 20000000000 I2 S2) as (m' & tw' & B' & es & E3 & _ & _ & _ & Hcur & _).
  - clear E1 E2. intros e [dn Hdn]. cbn in Hdn. apply lookup_insert_Some in Hdn as [[<- _]|[_ Hdn]].
    + by eexists.
    + fold (dnodes timer_mem) in Hdn. apply timer_mem_nodes in Hdn as [-> _]. by eexists.
  - exists (with_theap timer_mem h1), tw1, (with_theap (with_theap timer_mem h1) h2), tw2, p, m', tw', es.
    exact (conj E1 (conj E2 (conj E3 Hcur))).
Defined.

Lemma due_bucket_visited_witness :
  exists it', enter_level (new_timer_wheel 0) (new_iter 0 20000000000) = Ok (Some it') /\
    level it' = 0 /\ visited it' 8.
Proof.
  apply (due_bucket_visited (new_timer_wheel 0) (new_timer_wheel 0) (new_iter 0 20000000000) 9000000000 0 8);
    try reflexivity.
  - apply new_iter_ok.
  - cbn. lia.
Defined.
