(* ===== verification/Policy.v ===== *)
(** Policies (src/policy.rs), removal notifications (src/notification.rs,
    src/notification/notifier.rs) and the expiration checks at the end of
    src/sync/base_cache.rs: when an entry counts as expired or invalidated. *)
From S2P Require Import Prelude Common Time EntryInfo.

Inductive EvictionPolicyConfig := TinyLfu | Lru.

#[export] Instance eviction_policy_eq_dec : EqDecision EvictionPolicyConfig.
Proof. solve_decision. Defined.

(** A [std::time::Instant]: nanoseconds on the standard clock. *)
Definition StdInstant := Z.

(** The latest one: its seconds are an [i64], as on Unix.  The sum with a [Duration]
    panics when it is later. *)
Definition STD_MAX : StdInstant := (2 ^ 63 - 1) * 10 ^ 9 + 999999999.
Definition std_add (i : StdInstant) (d : Duration) : res StdInstant :=
  if i + d <=? STD_MAX then Ok (i + d) else Fail Overflow.

(** [Clock::to_std_instant] for a clock that started at [origin]. *)
Definition to_std_instant (origin : StdInstant) (i : Instant) : res StdInstant := std_add origin i.

Lemma to_std_instant_ok origin i : origin + U64_MAX <= STD_MAX -> i <= U64_MAX -> to_std_instant origin i = Ok (origin + i).
Proof. intros Ho Hi. unfold to_std_instant, std_add. rewrite (proj2 (Z.leb_le _ _)) by lia. done. Qed.

(** The [Expiry] trait: an implementation is user code, a parameter here. *)
Record Expiry (K V : Type) := mkExpiry {
  expire_after_create_fn : K -> V -> StdInstant -> option Duration;
  expire_after_read_fn : K -> V -> StdInstant -> option Duration -> StdInstant -> option Duration;
  expire_after_update_fn : K -> V -> StdInstant -> option Duration -> option Duration
}.
Arguments mkExpiry {K V} _ _ _.
Arguments expire_after_create_fn {K V} _ _ _ _.
Arguments expire_after_read_fn {K V} _ _ _ _ _ _.
Arguments expire_after_update_fn {K V} _ _ _ _ _.

(** The provided methods of the trait. *)
Definition default_expiry {K V} : Expiry K V :=
  mkExpiry (fun _ _ _ => None) (fun _ _ _ d _ => d) (fun _ _ _ d => d).

Record ExpirationPolicy (K V : Type) := mkExpirationPolicy {
  time_to_live : option Duration;
  time_to_idle : option Duration;
  expiry : option (Expiry K V)
}.
Arguments mkExpirationPolicy {K V} _ _ _.
Arguments time_to_live {K V} _.
Arguments time_to_idle {K V} _.
Arguments expiry {K V} _.

Definition default_expiration_policy {K V} : ExpirationPolicy K V := mkExpirationPolicy None None None.
Definition set_time_to_live {K V} (p : ExpirationPolicy K V) (d : Duration) : ExpirationPolicy K V :=
  mkExpirationPolicy (Some d) (time_to_idle p) (expiry p).
Definition set_time_to_idle {K V} (p : ExpirationPolicy K V) (d : Duration) : ExpirationPolicy K V :=
  mkExpirationPolicy (time_to_live p) (Some d) (expiry p).
Definition set_expiry {K V} (p : ExpirationPolicy K V) (e : Expiry K V) : ExpirationPolicy K V :=
  mkExpirationPolicy (time_to_live p) (time_to_idle p) (Some e).

(** ** Notifications *)

Inductive RemovalCause := CauseExpired | CauseExplicit | CauseReplaced | CauseSize.

#[export] Instance cause_eq_dec : EqDecision RemovalCause.
Proof. solve_decision. Defined.

Definition was_evicted (c : RemovalCause) : bool :=
  match c with CauseExpired | CauseSize => true | CauseExplicit | CauseReplaced => false end.

(** The notifier: the user's listener ([true] when it panics), whether it is
    still enabled, and the calls made to it so far. *)
Record RemovalNotifier (K V : Type) := mkNotifier {
  listener_panics : K -> V -> RemovalCause -> bool;
  nt_is_enabled : bool;
  nt_calls : list (K * V * RemovalCause)
}.
Arguments mkNotifier {K V} _ _ _.
Arguments listener_panics {K V} _ _ _ _.
Arguments nt_is_enabled {K V} _.
Arguments nt_calls {K V} _.

Definition new_notifier {K V} (listener : K -> V -> RemovalCause -> bool) : RemovalNotifier K V :=
  mkNotifier listener true [].

(** A panic of the listener is caught and disables it for good. *)
Definition notify {K V} (n : RemovalNotifier K V) (key : K) (v : V) (cause : RemovalCause) : RemovalNotifier K V :=
  if negb (nt_is_enabled n) then n
  else mkNotifier (listener_panics n)
         (if listener_panics n key v cause then false else true)
         (nt_calls n ++ [(key, v, cause)]).

(** ** When an entry is expired or invalid *)

Definition is_invalid_entry (valid_after : option Instant) (entry_ts : Instant) : bool :=
  match valid_after with Some va => entry_ts <? va | None => false end.

Definition is_expired_by_tti (tti : option Duration) (entry_last_accessed now : Instant) : bool :=
  match tti with
  | Some d => instant_saturating_add entry_last_accessed d <=? now
  | None => false
  end.

Definition is_expired_by_ttl (ttl : option Duration) (entry_last_modified now : Instant) : bool :=
  match ttl with
  | Some d => instant_saturating_add entry_last_modified d <=? now
  | None => false
  end.

Definition is_entry_expired_ao_or_invalid (tti : option Duration) (va : option Instant)
    (entry_last_accessed now : Instant) : bool * bool :=
  (is_expired_by_tti tti entry_last_accessed now, is_invalid_entry va entry_last_accessed).

Definition is_entry_expired_wo_or_invalid (ttl : option Duration) (va : option Instant)
    (entry_last_modified now : Instant) : bool * bool :=
  (is_expired_by_ttl ttl entry_last_modified now, is_invalid_entry va entry_last_modified).

Section checks.
Context {K : Type}.
Implicit Type ei : EntryInfo K.

Definition is_expired_by_per_entry_ttl ei (now : Instant) : bool :=
  match fst (expiration_state ei) with Some ts => ts <=? now | None => false end.

Definition is_expired_entry_ao (tti : option Duration) (va : option Instant) ei (now : Instant) : bool :=
  match last_accessed ei with
  | Some ts => is_invalid_entry va ts || is_expired_by_tti tti ts now
  | None => false
  end.

Definition is_expired_entry_wo (ttl : option Duration) (va : option Instant) ei (now : Instant) : bool :=
  match last_modified ei with
  | Some ts => is_invalid_entry va ts || is_expired_by_ttl ttl ts now
  | None => false
  end.

(** Expiration is final until the entry is touched again: a later clock reading
    does not bring an expired entry back. *)
Lemma expired_ao_mono tti va ei now now' :
  now <= now' -> is_expired_entry_ao tti va ei now = true -> is_expired_entry_ao tti va ei now' = true.
Proof.
  unfold is_expired_entry_ao, is_expired_by_tti. intros Hle. destruct (last_accessed ei); [|done].
  destruct (is_invalid_entry va i); [done|]. destruct tti; [|done]. cbn. rewrite !Z.leb_le. lia.
Qed.

Lemma expired_wo_mono ttl va ei now now' :
  now <= now' -> is_expired_entry_wo ttl va ei now = true -> is_expired_entry_wo ttl va ei now' = true.
Proof.
  unfold is_expired_entry_wo, is_expired_by_ttl. intros Hle. destruct (last_modified ei); [|done].
  destruct (is_invalid_entry va i); [done|]. destruct ttl; [|done]. cbn. rewrite !Z.leb_le. lia.
Qed.

Lemma expired_ttl_mono ei now now' :
  now <= now' -> is_expired_by_per_entry_ttl ei now = true -> is_expired_by_per_entry_ttl ei now' = true.
Proof.
  unfold is_expired_by_per_entry_ttl. intros Hle. destruct (fst _); [|done]. rewrite !Z.leb_le. lia.
Qed.
End checks.
