(* ===== verification/Clock.v ===== *)
(** The clock of a cache (src/common/time/clock.rs): where the instants come from
    that the operations take as arguments.

    A clock counts from the moment it was created, on the standard clock, on the
    faster one of the [quanta] crate, or on a mock that tests move forward.  The
    readings of the two real clocks are arguments; a [std::time::Instant] is as in
    [Policy]. *)
From S2P Require Import Prelude Common Time EntryInfo Policy.

(** [Mock], with what is behind its lock. *)
Record Mock := mkMock { mk_origin : StdInstant; mk_now : StdInstant }.
Inductive ClockType :=
| Standard (origin : StdInstant)
| Hybrid (std_origin quanta_origin : StdInstant)
| Mocked (mock : Mock).

(** What the two sources of time show. *)
Record Sources := mkSources { std_now : StdInstant; quanta_now : StdInstant }.

(** [std::time::Instant]: [elapsed] and [duration_since] are zero for a later
    instant. *)
Definition elapsed (origin now : StdInstant) : Duration := saturating_sub now origin.

Definition default_clock (quanta : bool) (src : Sources) : ClockType :=
  if quanta then Hybrid (std_now src) (quanta_now src) else Standard (std_now src).
Definition mock_default (src : Sources) : Mock := mkMock (std_now src) (std_now src).
Definition mock_clock (src : Sources) : ClockType := Mocked (mock_default src).
Definition mock_increment (m : Mock) (amount : Duration) : res Mock :=
  now ← std_add (mk_now m) amount; Ok (mkMock (mk_origin m) now).
Definition mock_elapsed (m : Mock) : Duration := elapsed (mk_origin m) (mk_now m).

Definition clock_now (c : ClockType) (src : Sources) : res Instant :=
  match c with
  | Standard origin => from_duration_since_clock_start (elapsed origin (std_now src))
  | Hybrid std_origin _ => from_duration_since_clock_start (elapsed std_origin (std_now src))
  | Mocked m => from_duration_since_clock_start (mock_elapsed m)
  end.
Definition fast_now (c : ClockType) (src : Sources) : res Instant :=
  match c with
  | Hybrid _ quanta_origin => from_duration_since_clock_start (elapsed quanta_origin (quanta_now src))
  | Standard _ | Mocked _ => clock_now c src
  end.
Definition clock_to_std_instant (c : ClockType) (i : Instant) : res StdInstant :=
  match c with
  | Standard origin => std_add origin i
  | Hybrid std_origin _ => std_add std_origin i
  | Mocked m => std_add (mk_origin m) i
  end.

(** ** Properties *)

(** The origin of [now], and what its source shows. *)
Definition clock_start (c : ClockType) : StdInstant := match c with Standard o | Hybrid o _ => o | Mocked m => mk_origin m end.
Definition clock_shows (c : ClockType) (src : Sources) : StdInstant :=
  match c with Standard _ | Hybrid _ _ => std_now src | Mocked m => mk_now m end.

Lemma reading_exact d : 0 <= d -> from_duration_since_clock_start d = Ok (Z.min d MAX_NANOS).
Proof.
  intros Hd. unfold from_duration_since_clock_start, duration_to_saturating_nanoseconds, from_nanos, MAX_NANOS.
  destruct (Z.leb_spec d U64_MAX).
  - rewrite (proj2 (Z.leb_le _ _)) by lia. done.
  - rewrite (proj2 (Z.leb_le _ _)) by lia. cbn [assert_that mbind res_bind]. f_equal. lia.
Qed.
Lemma elapsed_range o t : 0 <= elapsed o t.
Proof. unfold elapsed, saturating_sub. lia. Qed.
Lemma now_exact c src : clock_now c src = Ok (Z.min (elapsed (clock_start c) (clock_shows c src)) MAX_NANOS).
Proof. destruct c; apply reading_exact, elapsed_range. Qed.
Lemma min_instant_ok d : 0 <= d -> instant_ok (Z.min d MAX_NANOS).
Proof. unfold instant_ok, MAX_NANOS, U64_MAX. lia. Qed.

(** Both readings of every clock return, whatever the sources show, with an instant
    of the range that the operations of the cache ask for. *)
Theorem clock_readings_ok c src :
  exists now fast, clock_now c src = Ok now /\ fast_now c src = Ok fast /\ instant_ok now /\ instant_ok fast.
Proof.
  assert (Hnow : exists now, clock_now c src = Ok now /\ instant_ok now).
  { eexists. split; [apply now_exact|]. apply min_instant_ok, elapsed_range. }
  destruct Hnow as (now & E & Hok). destruct c as [o|o q|m].
  - by exists now, now.
  - eexists now, _. split; [exact E|]. cbn [fast_now]. split; [apply reading_exact, elapsed_range|]. split; [exact Hok|].
    apply min_instant_ok, elapsed_range.
  - by exists now, now.
Qed.

(** [now] never goes back when its source does not. *)
Theorem clock_monotone c src src' now now' :
  clock_shows c src <= clock_shows c src' -> clock_now c src = Ok now -> clock_now c src' = Ok now' -> now <= now'.
Proof. rewrite !now_exact. intros Hle [= <-] [= <-]. unfold elapsed, saturating_sub. lia. Qed.

(** An instant that a clock gave is turned back into what its source showed, for the
    first 584 years of the clock. *)
Theorem clock_roundtrip c src now :
  0 <= clock_shows c src - clock_start c <= MAX_NANOS -> clock_shows c src <= STD_MAX -> clock_now c src = Ok now ->
  clock_to_std_instant c now = Ok (clock_shows c src) /\ to_std_instant (clock_start c) now = Ok (clock_shows c src).
Proof.
  rewrite now_exact. intros Hr Hmax [= <-].
  assert (E : clock_start c + Z.min (elapsed (clock_start c) (clock_shows c src)) MAX_NANOS = clock_shows c src).
  { unfold elapsed, saturating_sub. lia. }
  unfold to_std_instant. split; [destruct c; cbn in *|]; unfold std_add; rewrite E; by rewrite (proj2 (Z.leb_le _ _) Hmax).
Qed.

(** A mock shows the sum of what it was moved forward by. *)
Theorem mock_sums : forall ds m m', Forall (fun d => 0 <= d) ds -> mk_origin m <= mk_now m -> foldM mock_increment m ds = Ok m' ->
  mock_elapsed m' = mock_elapsed m + foldr Z.add 0 ds.
Proof.
  induction ds as [|d ds IH]; intros m m' Hd Hm; cbn [foldM foldr].
  - intros [= <-]. lia.
  - apply Forall_cons in Hd as [Hd Hds]. destruct (mock_increment m d) as [m1|] eqn:E1; [|done]. cbn [mbind res_bind]. intros E.
    unfold mock_increment, std_add in E1. destruct (mk_now m + d <=? STD_MAX); [|done]. injection E1 as <-.
    apply IH in E; [|done|cbn; lia]. rewrite E. unfold mock_elapsed, elapsed, saturating_sub. cbn. lia.
Qed.
