(* ===== verification/Invalidator.v ===== *)
(** The registry of invalidation predicates (src/sync/invalidator.rs): the
    predicates of [invalidate_entries_if] and the scan that retires them.  The
    part of the scan that removes entries from the cache is in Inner.v, with the
    cache it works on.

    The registry is a map from predicate ids; its iteration order (that of the
    hash table) does not matter to [do_apply_predicates], which asks whether any
    predicate holds. *)
From S2P Require Import Prelude Common Time.

Record Predicate (K V : Type) := mkPredicate {
  pred_id : string;
  pred_f : K -> V -> bool;
  registered_at : Instant
}.
Arguments mkPredicate {K V} _ _ _.
Arguments pred_id {K V} _.
Arguments pred_f {K V} _ _ _.
Arguments registered_at {K V} _.

Record Invalidator (K V : Type) := mkInvalidator {
  predicates : gmap string (Predicate K V);
  inv_is_empty : bool;
  scan_context : list (Predicate K V)
}.
Arguments mkInvalidator {K V} _ _ _.
Arguments predicates {K V} _.
Arguments inv_is_empty {K V} _.
Arguments scan_context {K V} _.

Record KeyDateLite (K : Type) := mkKeyDateLite { kdl_key : K; kdl_hash : Z; kdl_timestamp : Instant }.
Arguments mkKeyDateLite {K} _ _ _.
Arguments kdl_key {K} _.
Arguments kdl_hash {K} _.
Arguments kdl_timestamp {K} _.

Definition new_invalidator {K V} : Invalidator K V := mkInvalidator ∅ true [].

Section ops.
Context {K V : Type}.
Implicit Types (inv : Invalidator K V) (p : Predicate K V).

Definition is_applicable p (last_modified : Instant) : bool := last_modified <=? registered_at p.

Definition do_apply_predicates (ps : list (Predicate K V)) (key : K) (v : V) (ts : Instant) : bool :=
  existsb (fun p => is_applicable p ts && pred_f p key v) ps.

Definition pred_values inv : list (Predicate K V) := (map_to_list (predicates inv)).*2.

Definition map_is_empty (m : gmap string (Predicate K V)) : bool := (size m =? 0)%nat.

(** Removing predicates and, when none is left, raising the flag. *)
Definition remove_ids inv (ids : list string) : Invalidator K V :=
  let m := foldl (fun m id => delete id m) (predicates inv) ids in
  mkInvalidator m (map_is_empty m || inv_is_empty inv) (scan_context inv).

Definition remove_predicates_registered_before inv (ts : Instant) : Invalidator K V :=
  remove_ids inv (map fst (List.filter (fun '(_, p) => registered_at p <=? ts) (map_to_list (predicates inv)))).

Definition remove_predicates inv (ps : list (Predicate K V)) : Invalidator K V :=
  remove_ids inv (map pred_id ps).

Definition MAX_RETRY : nat := 1000.

(** [uuid n] is the id the [n]-th try draws. *)
Fixpoint register_loop (fuel : nat) (tries : nat) (uuid : nat -> string) inv (f : K -> V -> bool) (at_ : Instant)
    : res (Invalidator K V * string) :=
  match fuel with
  | O => Fail AssertFailed
  | S fuel' =>
      let id := uuid tries in
      if bool_decide (is_Some (predicates inv !! id)) then register_loop fuel' (S tries) uuid inv f at_
      else Ok (mkInvalidator (<[id := mkPredicate id f at_]> (predicates inv)) false (scan_context inv), id)
  end.
Definition register_predicate (uuid : nat -> string) inv (f : K -> V -> bool) (at_ : Instant)
    : res (Invalidator K V * string) :=
  register_loop MAX_RETRY 0 uuid inv f at_.

Definition remove_finished_predicates inv (is_truncated : bool) (newest_timestamp : option Instant)
    : res (Invalidator K V) :=
  if is_truncated then
    match newest_timestamp with
    | Some ts =>
        let active := List.filter (fun p => is_applicable p ts) (scan_context inv) in
        let finished := List.filter (fun p => negb (is_applicable p ts)) (scan_context inv) in
        let inv := remove_predicates inv finished in
        Ok (mkInvalidator (predicates inv) (inv_is_empty inv) active)
    | None => Fail Unreachable
    end
  else
    let inv := remove_predicates inv (scan_context inv) in
    Ok (mkInvalidator (predicates inv) (inv_is_empty inv) []).

(** ** The flag tells whether the registry is empty *)

Definition inv_wf inv : Prop := inv_is_empty inv = true <-> predicates inv = ∅.

Lemma map_is_empty_spec (m : gmap string (Predicate K V)) : map_is_empty m = true <-> m = ∅.
Proof. unfold map_is_empty. rewrite Nat.eqb_eq. split; [apply map_size_empty_inv|intros ->; apply map_size_empty]. Qed.

Lemma foldl_delete_empty (m : gmap string (Predicate K V)) ids :
  m = ∅ -> foldl (fun m id => delete id m) m ids = ∅.
Proof. intros ->. induction ids as [|i ids IH]; [done|]. cbn. by rewrite delete_empty. Qed.

Lemma remove_ids_wf inv ids : inv_wf inv -> inv_wf (remove_ids inv ids).
Proof.
  unfold inv_wf, remove_ids. cbn. intros H. rewrite orb_true_iff, map_is_empty_spec, H.
  split; [intros [E|E]; [done|by apply foldl_delete_empty]|by left].
Qed.

Lemma new_invalidator_wf : inv_wf (@new_invalidator K V).
Proof. done. Qed.

(** Registering with [fuel] tries left, [tries] made. *)
Lemma register_loop_outcome uuid inv f at_ : forall fuel tries,
  match register_loop fuel tries uuid inv f at_ with
  | Fail e => e = AssertFailed /\ forall j, (tries <= j < tries + fuel)%nat -> is_Some (predicates inv !! uuid j)
  | Ok (inv', id) => exists n, (tries <= n < tries + fuel)%nat /\ id = uuid n /\ predicates inv !! id = None /\
      (forall j, (tries <= j < n)%nat -> is_Some (predicates inv !! uuid j)) /\
      predicates inv' = <[id := mkPredicate id f at_]> (predicates inv) /\ inv_is_empty inv' = false
  end.
Proof.
  induction fuel as [|fuel IH]; intros tries; cbn [register_loop]; cbv zeta; [split; [done|lia]|].
  case_bool_decide as Hd.
  - specialize (IH (S tries)). destruct (register_loop fuel (S tries) uuid inv f at_) as [[inv' id]|e].
    + destruct IH as (n & Hn & -> & Hfree & Htaken & Hi). exists n. split; [lia|]. split; [done|]. split; [done|]. split; [|done].
      intros j Hj. destruct (decide (j = tries)) as [->|]; [done|]. apply Htaken. lia.
    + destruct IH as [-> Htaken]. split; [done|]. intros j Hj. destruct (decide (j = tries)) as [->|]; [done|]. apply Htaken. lia.
  - exists tries. split; [lia|]. split; [done|]. split; [by apply eq_None_not_Some|]. split; [lia|done].
Qed.

(** Registering a predicate panics exactly when the first 1,000 identifiers it
    draws are all in use; otherwise it registers the predicate under the first
    free one, keeps the others, and lowers the flag that lets lookups skip the
    predicates. *)
Theorem register_predicate_outcome uuid inv f at_ :
  match register_predicate uuid inv f at_ with
  | Fail e => e = AssertFailed /\ forall j, (j < 1000)%nat -> is_Some (predicates inv !! uuid j)
  | Ok (inv', id) => exists n, (n < 1000)%nat /\ id = uuid n /\ predicates inv !! id = None /\
      (forall j, (j < n)%nat -> is_Some (predicates inv !! uuid j)) /\
      predicates inv' = <[id := mkPredicate id f at_]> (predicates inv) /\ inv_is_empty inv' = false
  end.
Proof.
  pose proof (register_loop_outcome uuid inv f at_ MAX_RETRY 0) as Ho. unfold register_predicate.
  destruct (register_loop MAX_RETRY 0 uuid inv f at_) as [[inv' id]|e].
  - destruct Ho as (n & Hn & -> & Hfree & Htaken & Hi). exists n. unfold MAX_RETRY in Hn. split; [lia|]. split; [done|]. split; [done|].
    split; [|done]. intros j Hj. apply Htaken. lia.
  - destruct Ho as [-> Ho]. split; [done|]. intros j Hj. apply Ho. unfold MAX_RETRY. lia.
Qed.

Lemma register_predicate_wf uuid inv f at_ inv' id :
  register_predicate uuid inv f at_ = Ok (inv', id) ->
  inv_wf inv' /\ predicates inv !! id = None /\
  predicates inv' = <[id := mkPredicate id f at_]> (predicates inv).
Proof.
  unfold register_predicate. generalize 0%nat. induction MAX_RETRY as [|n IH]; intros tries; cbn; [done|].
  case_bool_decide as E; [apply IH|]. intros [= <- <-]. cbn. split.
  - split; [done|]. cbn. intros Hx. by apply insert_non_empty in Hx.
  - split; [by apply eq_None_not_Some|done].
Qed.

Lemma remove_finished_wf inv b ts inv' :
  inv_wf inv -> remove_finished_predicates inv b ts = Ok inv' -> inv_wf inv'.
Proof.
  unfold remove_finished_predicates. intros H E.
  destruct b; [destruct ts; [|done]|]; injection E as <-; apply (remove_ids_wf _ _ H).
Qed.
End ops.
