(* ===== verification/Inner.v ===== *)
(** The cache engine (struct [Inner] of src/sync/base_cache.rs, with the scan of
    src/sync/invalidator.rs): the hash table, the counters, the queues, the timer
    wheel, the frequency sketch and the operation logs, and the maintenance task
    that applies the logs and evicts entries.

    The concurrent hash table is the finite map it implements, keyed by [K].  A
    handler is a function from the state to the new state or a fault.  Key locks
    only order concurrent notifications and do not appear.  Clock readings are
    arguments. *)
From Stdlib Require Import SpecFloat.
From S2P Require Import Prelude Common FrequencySketch Deque Time EntryInfo Concurrent Deques.
From S2P Require Import TimerWheel Policy Invalidator.

(** ** [f64] arithmetic of [enable_frequency_sketch] *)
Definition f64_of_u64 (x : Z) : spec_float := binary_normalize 53 1024 x 0 false.
Definition f64_mul (x y : spec_float) : spec_float := SFmul 53 1024 x y.
Definition f64_div (x y : spec_float) : spec_float := SFdiv 53 1024 x y.
(** [x as u64]: truncates and saturates. *)
Definition u64_of_f64 (x : spec_float) : Z :=
  match x with
  | S754_finite false mantissa ex => Z.min U64_MAX (Z.shiftl (Zpos mantissa) ex)
  | S754_infinity false => U64_MAX
  | _ => 0
  end.

(** ** Configuration and state *)

(** The settings of a cache, its hasher, the origin of its clock, and whether the
    program was built with overflow checks (the compiler's [overflow-checks]
    setting), which decides what the arithmetic of the frequency sketch does. *)

Record Config (K V : Type) := mkConfig {
  max_capacity : option Z;
  weigher : option (K -> V -> Z);
  eviction_policy : EvictionPolicyConfig;
  expiration_policy : ExpirationPolicy K V;
  hasher : K -> Z;
  clock_origin : StdInstant;
  overflow_checks : bool
}.
Arguments mkConfig {K V} _ _ _ _ _ _ _.
Arguments max_capacity {K V} _.
Arguments weigher {K V} _.
Arguments eviction_policy {K V} _.
Arguments expiration_policy {K V} _.
Arguments hasher {K V} _ _.
Arguments clock_origin {K V} _.
Arguments overflow_checks {K V} _.

Record EvictionCounters := mkCounters {
  ec_entry_count : Z;
  ec_weighted_size : Z;
  ec_eviction_count : Z
}.

Record EvictionState := mkEvictionState {
  counters : EvictionCounters;
  more_entries_to_evict : bool
}.

Record EntrySizeAndFrequency := mkSizeFreq { sf_policy_weight : Z; sf_freq : Z }.

Inductive AdmissionResult (K : Type) :=
| AdmitCandidate (victim_keys : list (KeyHash K * option Instant))
| RejectCandidate.
Arguments AdmitCandidate {K} _.
Arguments RejectCandidate {K}.

Record Inner (K V : Type) `{Countable K} := mkInner {
  entry_count : Z;
  weighted_size : Z;
  cache : gmap K (ValueEntry V);
  mem : Mem K;
  deques : Deques;
  timer_wheel : TimerWheel;
  frequency_sketch : FrequencySketch;
  frequency_sketch_enabled : bool;
  read_op_ch : list (ReadOp V);
  write_op_ch : list (WriteOp K V);
  valid_after : AtomicInstant;
  removal_notifier : option (RemovalNotifier K V);
  invalidator : option (Invalidator K V)
}.
Arguments mkInner {K V _ _} _ _ _ _ _ _ _ _ _ _ _ _ _.
Arguments entry_count {K V _ _} _.
Arguments weighted_size {K V _ _} _.
Arguments cache {K V _ _} _.
Arguments mem {K V _ _} _.
Arguments deques {K V _ _} _.
Arguments timer_wheel {K V _ _} _.
Arguments frequency_sketch {K V _ _} _.
Arguments frequency_sketch_enabled {K V _ _} _.
Arguments read_op_ch {K V _ _} _.
Arguments write_op_ch {K V _ _} _.
Arguments valid_after {K V _ _} _.
Arguments removal_notifier {K V _ _} _.
Arguments invalidator {K V _ _} _.

(** *** Counters *)
Definition new_counters (ec ws : Z) : EvictionCounters := mkCounters ec ws 0.
Definition counters_saturating_add (c : EvictionCounters) (n weight : Z) : res EvictionCounters :=
  ec ← checked_add 64 (ec_entry_count c) n;
  Ok (mkCounters ec (saturating_add 64 (ec_weighted_size c) weight) (ec_eviction_count c)).
Definition counters_saturating_sub (c : EvictionCounters) (n weight : Z) : res EvictionCounters :=
  ec ← checked_sub (ec_entry_count c) n;
  Ok (mkCounters ec (saturating_sub (ec_weighted_size c) weight) (ec_eviction_count c)).
Definition incr_eviction_count (c : EvictionCounters) : EvictionCounters :=
  mkCounters (ec_entry_count c) (ec_weighted_size c) (saturating_add 64 (ec_eviction_count c) 1).

Definition new_eviction_state (ec ws : Z) : EvictionState := mkEvictionState (new_counters ec ws) false.
Definition with_counters (es : EvictionState) (c : EvictionCounters) : EvictionState :=
  mkEvictionState c (more_entries_to_evict es).
Definition with_more (es : EvictionState) (b : bool) : EvictionState := mkEvictionState (counters es) b.

Definition new_size_freq (weight : Z) : EntrySizeAndFrequency := mkSizeFreq weight 0.
Definition add_policy_weight (s : EntrySizeAndFrequency) (w : Z) : res EntrySizeAndFrequency :=
  x ← checked_add 64 (sf_policy_weight s) w; Ok (mkSizeFreq x (sf_freq s)).
Definition add_frequency (s : EntrySizeAndFrequency) (freq : FrequencySketch) (hash : Z) : res EntrySizeAndFrequency :=
  f ← frequency freq hash;
  x ← checked_add 32 (sf_freq s) f; Ok (mkSizeFreq (sf_policy_weight s) x).

Section inner.
Context {K V : Type} `{Countable K}.
Variable cfg : Config K V.
Implicit Types (s : Inner K V) (es : EvictionState) (ve : ValueEntry V) (c : EvictionCounters).

Definition with_mem s m := mkInner (entry_count s) (weighted_size s) (cache s) m (deques s) (timer_wheel s)
  (frequency_sketch s) (frequency_sketch_enabled s) (read_op_ch s) (write_op_ch s) (valid_after s)
  (removal_notifier s) (invalidator s).
Definition with_cache s ch := mkInner (entry_count s) (weighted_size s) ch (mem s) (deques s) (timer_wheel s)
  (frequency_sketch s) (frequency_sketch_enabled s) (read_op_ch s) (write_op_ch s) (valid_after s)
  (removal_notifier s) (invalidator s).
Definition with_deques s m ds := mkInner (entry_count s) (weighted_size s) (cache s) m ds (timer_wheel s)
  (frequency_sketch s) (frequency_sketch_enabled s) (read_op_ch s) (write_op_ch s) (valid_after s)
  (removal_notifier s) (invalidator s).
Definition with_wheel s m tw := mkInner (entry_count s) (weighted_size s) (cache s) m (deques s) tw
  (frequency_sketch s) (frequency_sketch_enabled s) (read_op_ch s) (write_op_ch s) (valid_after s)
  (removal_notifier s) (invalidator s).
Definition with_sketch s fs en := mkInner (entry_count s) (weighted_size s) (cache s) (mem s) (deques s) (timer_wheel s)
  fs en (read_op_ch s) (write_op_ch s) (valid_after s) (removal_notifier s) (invalidator s).
Definition with_reads s l := mkInner (entry_count s) (weighted_size s) (cache s) (mem s) (deques s) (timer_wheel s)
  (frequency_sketch s) (frequency_sketch_enabled s) l (write_op_ch s) (valid_after s)
  (removal_notifier s) (invalidator s).
Definition with_writes s l := mkInner (entry_count s) (weighted_size s) (cache s) (mem s) (deques s) (timer_wheel s)
  (frequency_sketch s) (frequency_sketch_enabled s) (read_op_ch s) l (valid_after s)
  (removal_notifier s) (invalidator s).
Definition with_valid_after s t := mkInner (entry_count s) (weighted_size s) (cache s) (mem s) (deques s) (timer_wheel s)
  (frequency_sketch s) (frequency_sketch_enabled s) (read_op_ch s) (write_op_ch s) t
  (removal_notifier s) (invalidator s).
Definition with_notifier s n := mkInner (entry_count s) (weighted_size s) (cache s) (mem s) (deques s) (timer_wheel s)
  (frequency_sketch s) (frequency_sketch_enabled s) (read_op_ch s) (write_op_ch s) (valid_after s)
  n (invalidator s).
Definition with_invalidator s i := mkInner (entry_count s) (weighted_size s) (cache s) (mem s) (deques s) (timer_wheel s)
  (frequency_sketch s) (frequency_sketch_enabled s) (read_op_ch s) (write_op_ch s) (valid_after s)
  (removal_notifier s) i.
Definition with_counts s ec ws := mkInner ec ws (cache s) (mem s) (deques s) (timer_wheel s)
  (frequency_sketch s) (frequency_sketch_enabled s) (read_op_ch s) (write_op_ch s) (valid_after s)
  (removal_notifier s) (invalidator s).

(** [Inner::new] *)
Definition new_inner (listener : option (K -> V -> RemovalCause -> bool)) (invalidator_enabled : bool)
    (now : Instant) : Inner K V :=
  mkInner 0 0 ∅ empty_mem default_deques (new_timer_wheel now) default_sketch false [] []
    default_atomic_instant (new_notifier <$> listener)
    (if invalidator_enabled then Some new_invalidator else None).

(** *** Small queries *)
Definition has_expiry : bool :=
  bool_decide (is_Some (time_to_live (expiration_policy cfg))) ||
  bool_decide (is_Some (time_to_idle (expiration_policy cfg))).
Definition is_write_order_queue_enabled s : bool :=
  bool_decide (is_Some (time_to_live (expiration_policy cfg))) || bool_decide (is_Some (invalidator s)).
Definition get_valid_after s : option Instant := instant (valid_after s).
Definition has_valid_after s : bool := is_set (valid_after s).
Definition is_removal_notifier_enabled s : bool := bool_decide (is_Some (removal_notifier s)).
Definition weigh (key : K) (v : V) : Z :=
  match weigher cfg with Some w => w key v | None => 1 end.

Definition has_enough_capacity (candidate_weight : Z) c : res bool :=
  match max_capacity cfg with
  | None => Ok true
  | Some limit => x ← checked_add 64 (ec_weighted_size c) candidate_weight; Ok (x <=? limit)
  end.
Definition weights_to_evict c : Z :=
  match max_capacity cfg with
  | Some limit => saturating_sub (ec_weighted_size c) limit
  | None => 0
  end.
Definition should_enable_frequency_sketch s c : bool :=
  match max_capacity cfg with
  | None => false
  | Some max_cap =>
      if max_cap =? 0 then false
      else if frequency_sketch_enabled s then false
      else max_cap / 2 <=? ec_weighted_size c
  end.
Definition do_enable_frequency_sketch s (cache_capacity : Z) : Inner K V :=
  with_sketch s (ensure_capacity (frequency_sketch s) (sketch_capacity cache_capacity)) true.
Definition enable_frequency_sketch s c : Inner K V :=
  match max_capacity cfg with
  | Some max_cap =>
      let cap :=
        match weigher cfg with
        | None => max_cap
        | Some _ =>
            u64_of_f64 (f64_mul (f64_of_u64 (ec_entry_count c))
                          (f64_div (f64_of_u64 (ec_weighted_size c)) (f64_of_u64 max_cap)))
        end in
      do_enable_frequency_sketch s cap
  | None => s
  end.

(** *** Notifications *)
Definition notify_single_removal s (key : K) ve (cause : RemovalCause) : Inner K V :=
  match removal_notifier s with
  | Some n => with_notifier s (Some (notify n key (value ve) cause))
  | None => s
  end.
(** [EvictionState::notify_entry_removal] *)
Definition notify_entry_removal s (key : K) ve (cause : RemovalCause) : res (Inner K V) :=
  match removal_notifier s with
  | Some n => Ok (with_notifier s (Some (notify n key (value ve) cause)))
  | None => Fail AssertFailed
  end.
(** The guarded call of the maintenance handlers. *)
Definition notify_if_enabled s (key : K) ve (cause : RemovalCause) : res (Inner K V) :=
  if is_removal_notifier_enabled s then notify_entry_removal s key ve cause else Ok s.

(** *** The hash table *)
Definition cht_get s (key : K) : option (ValueEntry V) := cache s !! key.

(** [remove_entry_if_and] with a callback that retires the entry. *)
Definition cht_remove_if_and_retire s (key : K) (condition : ValueEntry V -> EntryInfo K -> bool)
    : res (Inner K V * option (ValueEntry V)) :=
  match cache s !! key with
  | None => Ok (s, None)
  | Some ve =>
      ei ← get_info (mem s) (info ve);
      if condition ve ei then
        ei' ← retire ei;
        Ok (with_cache (with_mem s (put_info (mem s) (info ve) ei')) (delete key (cache s)), Some ve)
      else Ok (s, None)
  end.

(** *** The timer wheel *)
Definition update_timer_wheel s ve : res (Inner K V) :=
  ei ← get_info (mem s) (info ve);
  let '(expiration_time, current_expiry_gen) := expiration_state ei in
  '(m, tw) ← (if bool_decide (is_Some expiration_time) && negb (is_enabled (timer_wheel s))
              then enable (mem s) (timer_wheel s) else Ok (mem s, timer_wheel s));
  '(tn, expected_expiry_gen) ← timer_node_with_expiry_gen m ve;
  match expiration_time, tn with
  | None, None => Ok (with_wheel s m tw)
  | Some _, None =>
      '(m, tw, timer) ← schedule m tw (info ve) (nodes ve) current_expiry_gen;
      m ← set_timer_node m (nodes ve) timer current_expiry_gen;
      Ok (with_wheel s m tw)
  | Some _, Some tn =>
      '(m, tw, r) ← reschedule m tw tn expected_expiry_gen;
      match r with
      | Some (Removed removed_tn) =>
          m ← set_timer_node m (nodes ve) None current_expiry_gen;
          h ← drop_node (theap m) removed_tn;
          Ok (with_wheel s (with_theap m h) tw)
      | Some Rescheduled => Ok (with_wheel s m tw)
      | None =>
          m ← set_timer_node m (nodes ve) None current_expiry_gen;
          Ok (with_wheel s m tw)
      end
  | None, Some tn =>
      m ← set_timer_node m (nodes ve) None current_expiry_gen;
      '(m, tw, _) ← deschedule m tw tn expected_expiry_gen;
      Ok (with_wheel s m tw)
  end.

(** *** Admission and removal *)
Definition handle_admit s ve (policy_weight : Z) c : res (Inner K V * EvictionCounters) :=
  ei ← get_info (mem s) (info ve);
  if negb (is_alive ei) then Ok (s, c)
  else
    _ ← assert_that (negb (is_admitted ei));
    c ← counters_saturating_add c 1 policy_weight;
    s ← update_timer_wheel s ve;
    '(m, ds) ← push_back_ao (mem s) (deques s) MainProbation (mkKeyHashDate (info ve)) ve;
    '(m, ds) ← (if is_write_order_queue_enabled s
                then push_back_wo m ds (mkKeyHashDate (info ve)) ve else Ok (m, ds));
    m ← ve_set_admitted m ve true;
    Ok (with_deques s m ds, c).

Definition handle_remove_without_timer_wheel s ve (gen : option Z) c : res (Inner K V * EvictionCounters) :=
  ei ← get_info (mem s) (info ve);
  _ ← assert_that (is_retired ei);
  '(s, c) ←
    (if is_admitted ei then
       m ← ve_set_admitted (mem s) ve false;
       c ← counters_saturating_sub c 1 (policy_weight ei);
       '(m, ds) ← unlink_ao m (deques s) ve;
       '(m, d) ← unlink_wo m (write_order ds) ve;
       Ok (with_deques s m (set_write_order ds d), c)
     else
       m ← unset_q_nodes (mem s) ve;
       Ok (with_mem s m, c));
  match gen with
  | Some g => m ← ve_set_policy_gen (mem s) ve g; Ok (with_mem s m, c)
  | None => Ok (s, c)
  end.

(** Descheduling the timer node taken from an entry. *)
Definition take_and_deschedule s ve : res (Inner K V) :=
  '(m, (tn, expiry_gen)) ← take_timer_node (mem s) ve;
  match tn with
  | Some tn => '(m, tw, _) ← deschedule m (timer_wheel s) tn expiry_gen; Ok (with_wheel s m tw)
  | None => Ok (with_mem s m)
  end.

Definition handle_remove s ve (gen : option Z) c : res (Inner K V * EvictionCounters) :=
  s ← take_and_deschedule s ve;
  handle_remove_without_timer_wheel s ve gen c.

Definition handle_remove_with_deques (r : CacheRegion) s ve c : res (Inner K V * EvictionCounters) :=
  ei ← get_info (mem s) (info ve);
  _ ← assert_that (is_retired ei);
  s ← take_and_deschedule s ve;
  if is_admitted ei then
    m ← ve_set_admitted (mem s) ve false;
    c ← counters_saturating_sub c 1 (policy_weight ei);
    ao ← select_ao (deques s) r;
    '(m, ao) ← unlink_ao_from_deque m ao ve;
    let ds := store_ao (deques s) r ao in
    '(m, wo) ← unlink_wo m (write_order ds) ve;
    Ok (with_deques s m (set_write_order ds wo), c)
  else
    m ← unset_q_nodes (mem s) ve;
    Ok (with_mem s m, c).

(** *** TinyLFU admission *)
Definition MAX_CONSECUTIVE_RETRIES : Z := 5.

(** The [while] loop of [admit] that aggregates the potential victims from the
    front of the probation queue. *)
Fixpoint admit_loop (fuel : nat) (candidate : EntrySizeAndFrequency) s (retries : Z)
    (victims : EntrySizeAndFrequency) (victim_keys : list (KeyHash K * option Instant))
    (next_victim : option ptr)
    : res (Inner K V * EntrySizeAndFrequency * list (KeyHash K * option Instant)) :=
  if (sf_policy_weight victims <? sf_policy_weight candidate) && (sf_freq victims <=? sf_freq candidate)
     && (retries <=? MAX_CONSECUTIVE_RETRIES)
  then
    match next_victim, fuel with
    | None, _ => Ok (s, victims, victim_keys)
    | Some _, O => Fail Diverged
    | Some victim, S fuel' =>
        nv ← next_node_ptr (kheap (mem s)) victim;
        n ← deref (kheap (mem s)) victim;
        ei ← get_info (mem s) (khd_entry_info (element n));
        let skip :=
          '(h, d) ← move_to_back (kheap (mem s)) (probation (deques s)) victim;
          admit_loop fuel' candidate (with_deques s (with_kheap (mem s) h) (set_probation (deques s) d))
            (retries + 1) victims victim_keys nv in
        if is_dirty ei || negb (is_alive ei) then skip
        else
          let kh := key_hash ei in
          match cht_get s (kh_key kh) with
          | Some vic_entry =>
              vei ← get_info (mem s) (info vic_entry);
              victims ← add_policy_weight victims (policy_weight vei);
              victims ← add_frequency victims (frequency_sketch s) (kh_hash kh);
              admit_loop fuel' candidate s 0 victims (victim_keys ++ [(kh, last_accessed ei)]) nv
          | None => skip
          end
    end
  else Ok (s, victims, victim_keys).

(** A node that is skipped goes to the back and can be met again, but no more
    than six times in a row. *)
Definition admit_fuel s : nat := (7 * (Z.to_nat (len (probation (deques s))) + 1))%nat.

Definition admit_candidate s (candidate : EntrySizeAndFrequency) : res (Inner K V * AdmissionResult K) :=
  '(s, victims, victim_keys) ←
    admit_loop (admit_fuel s) candidate s 0 (mkSizeFreq 0 0) [] (peek_front_ptr (probation (deques s)));
  Ok (s, if (sf_policy_weight candidate <=? sf_policy_weight victims) && (sf_freq victims <? sf_freq candidate)
         then AdmitCandidate victim_keys else RejectCandidate).

(** One victim of an admitted candidate. *)
Definition remove_victim (a : Inner K V * EvictionState) (vic : KeyHash K * option Instant)
    : res (Inner K V * EvictionState) :=
  let '(s, es) := a in
  let '(vic_kh, vic_la) := vic in
  '(s, removed) ← cht_remove_if_and_retire s (kh_key vic_kh)
                    (fun _ ei => bool_decide (last_accessed ei = vic_la));
  match removed with
  | Some vic_entry =>
      s ← notify_if_enabled s (kh_key vic_kh) vic_entry CauseSize;
      let es := with_counters es (incr_eviction_count (counters es)) in
      '(s, c) ← handle_remove s vic_entry None (counters es);
      Ok (s, with_counters es c)
  | None =>
      front ← peek_front (kheap (mem s)) (probation (deques s));
      match front with
      | Some n =>
          key ← khd_key (mem s) (element n);
          hash ← khd_hash (mem s) (element n);
          if bool_decide (key = kh_key vic_kh) && (hash =? kh_hash vic_kh) then
            '(h, d) ← move_front_to_back (kheap (mem s)) (probation (deques s));
            Ok (with_deques s (with_kheap (mem s) h) (set_probation (deques s) d), es)
          else Ok (s, es)
      | None => Ok (s, es)
      end
  end.

(** *** Applying a write *)

(** The entry is still the one this operation wrote. *)
Definition same_generation (e : eid) (gen : Z) ve (ei : EntryInfo K) : bool :=
  bool_decide (e = info ve) && (entry_gen ei =? gen).

Definition handle_upsert s (kh : KeyHash K) ve (gen old_weight new_weight : Z) es
    : res (Inner K V * EvictionState) :=
  ei ← get_info (mem s) (info ve);
  if negb (is_alive ei) then
    m ← ve_set_policy_gen (mem s) ve gen; Ok (with_mem s m, es)
  else if is_admitted ei then
    c ← counters_saturating_sub (counters es) 0 old_weight;
    c ← counters_saturating_add c 0 new_weight;
    s ← update_timer_wheel s ve;
    '(m, ds) ← move_to_back_ao (mem s) (deques s) ve;
    '(m, ds) ← move_to_back_wo m ds ve;
    m ← ve_set_policy_gen m ve gen;
    Ok (with_deques s m ds, with_counters es c)
  else
    enough ← has_enough_capacity new_weight (counters es);
    if (enough : bool) then
      '(s, c) ← handle_admit s ve new_weight (counters es);
      m ← ve_set_policy_gen (mem s) ve gen;
      Ok (with_mem s m, with_counters es c)
    else if match max_capacity cfg with Some max => max <? new_weight | None => false end then
      '(s, removed) ← cht_remove_if_and_retire s (kh_key kh) (same_generation (info ve) gen);
      '(s, es) ← match removed with
                 | Some entry =>
                     s ← notify_if_enabled s (kh_key kh) entry CauseSize;
                     Ok (s, with_counters es (incr_eviction_count (counters es)))
                 | None => Ok (s, es)
                 end;
      m ← ve_set_policy_gen (mem s) ve gen;
      Ok (with_mem s m, es)
    else
      '(s, admission) ← match eviction_policy cfg with
                        | TinyLfu =>
                            candidate ← add_frequency (new_size_freq new_weight) (frequency_sketch s) (kh_hash kh);
                            admit_candidate s candidate
                        | Lru => Ok (s, AdmitCandidate [])
                        end;
      match admission with
      | AdmitCandidate victim_keys =>
          '(s, es) ← foldM remove_victim (s, es) victim_keys;
          '(s, c) ← handle_admit s ve new_weight (counters es);
          m ← ve_set_policy_gen (mem s) ve gen;
          Ok (with_mem s m, with_counters es c)
      | RejectCandidate =>
          '(s, removed) ← cht_remove_if_and_retire s (kh_key kh) (same_generation (info ve) gen);
          match removed with
          | Some entry =>
              m ← ve_set_policy_gen (mem s) entry gen;
              s ← notify_if_enabled (with_mem s m) (kh_key kh) entry CauseSize;
              Ok (s, with_counters es (incr_eviction_count (counters es)))
          | None => Ok (s, es)
          end
      end.

Definition apply_write s (op : WriteOp K V) es : res (Inner K V * EvictionState) :=
  match op with
  | Upsert kh ve gen old_weight new_weight => handle_upsert s kh ve gen old_weight new_weight es
  | Remove kv gen =>
      '(s, c) ← handle_remove s (kv_entry kv) (Some gen) (counters es);
      Ok (s, with_counters es c)
  end.

Fixpoint apply_writes (count : nat) s es : res (Inner K V * EvictionState) :=
  match count with
  | O => Ok (s, es)
  | S count' =>
      match write_op_ch s with
      | [] => Ok (s, es)
      | op :: ops => '(s, es) ← apply_write (with_writes s ops) op es; apply_writes count' s es
      end
  end.

(** *** Applying a read *)
Definition apply_read s (op : ReadOp V) : res (Inner K V) :=
  match op with
  | Hit ve is_expiry_modified =>
      ei ← get_info (mem s) (info ve);
      fs ← increment (overflow_checks cfg) (frequency_sketch s) (kh_hash (key_hash ei));
      let s := with_sketch s fs (frequency_sketch_enabled s) in
      if negb (is_alive ei) then Ok s
      else
        s ← (if is_expiry_modified then update_timer_wheel s ve else Ok s);
        '(m, ds) ← move_to_back_ao (mem s) (deques s) ve;
        Ok (with_deques s m ds)
  | Miss hash =>
      fs ← increment (overflow_checks cfg) (frequency_sketch s) hash;
      Ok (with_sketch s fs (frequency_sketch_enabled s))
  end.

Fixpoint apply_reads (count : nat) s : res (Inner K V) :=
  match count with
  | O => Ok s
  | S count' =>
      match read_op_ch s with
      | [] => Ok s
      | op :: ops => s ← apply_read (with_reads s ops) op; apply_reads count' s
      end
  end.

(** *** Expiration with the timer wheel *)
Definition evict_expired_timer s es (now : Instant) (node : ptr) : res (Inner K V * EvictionState) :=
  n ← deref (theap (mem s)) node;
  e ← tn_entry_info (element n);
  ei ← get_info (mem s) e;
  if is_dirty ei then Ok (s, es)
  else
    let key := kh_key (key_hash ei) in
    '(s, removed) ← cht_remove_if_and_retire s key (fun _ vei => is_expired_by_per_entry_ttl vei now);
    match removed with
    | Some entry =>
        s ← notify_if_enabled s key entry CauseExpired;
        let es := with_counters es (incr_eviction_count (counters es)) in
        '(s, c) ← handle_remove_without_timer_wheel s entry None (counters es);
        Ok (s, with_counters es c)
    | None => Ok (s, es)
    end.

Fixpoint timer_events_loop (fuel : nat) s es (now : Instant) (it : TimerEventsIter)
    : res (Inner K V * EvictionState * TimerEventsIter) :=
  match fuel with
  | O => Fail Diverged
  | S fuel' =>
      '(m, tw, it, ev) ← timer_next fuel (mem s) (timer_wheel s) it;
      let s := with_wheel s m tw in
      match ev with
      | None => Ok (s, es, it)
      | Some (Expired node) =>
          '(s, es) ← evict_expired_timer s es now node;
          h ← drop_node (theap (mem s)) node;
          timer_events_loop fuel' (with_mem s (with_theap (mem s) h)) es now it
      | Some _ => timer_events_loop fuel' s es now it
      end
  end.

Definition evict_expired_entries_using_timers s es (now : Instant) : res (Inner K V * EvictionState) :=
  let '(tw, it) := advance (timer_wheel s) now in
  let s := with_wheel s (mem s) tw in
  '(s, es, it) ← timer_events_loop (wheel_fuel (mem s)) s es now it;
  Ok (with_wheel s (mem s) (drop_iter (timer_wheel s) it), es).

(** *** Expiration and eviction from the queues *)

Definition skip_updated_entry_ao (r : CacheRegion) s (key : K) : res (Inner K V) :=
  ao ← select_ao (deques s) r;
  match cht_get s key with
  | Some entry =>
      '(m, ao) ← move_to_back_ao_in_deque (mem s) ao entry;
      let ds := store_ao (deques s) r ao in
      ei ← get_info m (info entry);
      '(m, wo) ← (if is_dirty ei then move_to_back_wo_in_deque m (write_order ds) entry
                  else Ok (m, write_order ds));
      Ok (with_deques s m (set_write_order ds wo))
  | None =>
      '(h, ao) ← move_front_to_back (kheap (mem s)) ao;
      Ok (with_deques s (with_kheap (mem s) h) (store_ao (deques s) r ao))
  end.

Definition skip_updated_entry_wo s (key : K) : res (Inner K V) :=
  match cht_get s key with
  | Some entry =>
      '(m, ds) ← move_to_back_ao (mem s) (deques s) entry;
      '(m, ds) ← move_to_back_wo m ds entry;
      Ok (with_deques s m ds)
  | None =>
      '(h, wo) ← move_front_to_back (kheap (mem s)) (write_order (deques s));
      Ok (with_deques s (with_kheap (mem s) h) (set_write_order (deques s) wo))
  end.

(** The state of the eviction loops: the cache, the counters, [more_to_evict]. *)
Definition evict_state : Type := Inner K V * EvictionState * bool.

(** Removing one entry found at the front of an access-order queue. *)
Definition evict_from_ao (r : CacheRegion) (key : K) (cause : RemovalCause)
    (condition : ValueEntry V -> EntryInfo K -> bool) s es : res (Inner K V * EvictionState * option Z) :=
  '(s, removed) ← cht_remove_if_and_retire s key condition;
  match removed with
  | Some entry =>
      s ← notify_if_enabled s key entry cause;
      let es := with_counters es (incr_eviction_count (counters es)) in
      ei ← get_info (mem s) (info entry);
      '(s, c) ← handle_remove_with_deques r s entry (counters es);
      Ok (s, with_counters es c, Some (policy_weight ei))
  | None =>
      s ← skip_updated_entry_ao r s key;
      Ok (s, es, None)
  end.

Definition remove_expired_ao_step (r : CacheRegion) (tti : option Duration) (va : option Instant) (now : Instant)
    (a : evict_state) : res (bool * evict_state) :=
  let '(s, es, more) := a in
  ao ← select_ao (deques s) r;
  front ← peek_front (kheap (mem s)) ao;
  match front with
  | None => Ok (true, (s, es, false))
  | Some n =>
      ei ← get_info (mem s) (khd_entry_info (element n));
      let key := kh_key (key_hash ei) in
      match is_dirty ei, last_accessed ei with
      | false, Some ts =>
          match is_entry_expired_ao_or_invalid tti va ts now with
          | (false, false) => Ok (true, (s, es, false))
          | (expired, _) =>
              '(s, es, removed) ← evict_from_ao r key (if expired then CauseExpired else CauseExplicit)
                                    (fun _ vei => is_expired_entry_ao tti va vei now) s es;
              Ok (false, (s, es, match removed with Some _ => more | None => false end))
          end
      | _, _ => s ← skip_updated_entry_ao r s key; Ok (false, (s, es, false))
      end
  end.

Definition finish_more (a : evict_state) : Inner K V * EvictionState :=
  let '(s, es, more) := a in (s, if (more : bool) then with_more es true else es).

Definition remove_expired_ao (r : CacheRegion) s (batch_size : nat) (now : Instant) es : res (Inner K V * EvictionState) :=
  let tti := time_to_idle (expiration_policy cfg) in
  let va := get_valid_after s in
  _ ← select_ao (deques s) r;
  a ← for_break batch_size (remove_expired_ao_step r tti va now) (s, es, true);
  Ok (finish_more a).

Definition remove_expired_wo_step (ttl : option Duration) (va : option Instant) (now : Instant)
    (a : evict_state) : res (bool * evict_state) :=
  let '(s, es, more) := a in
  front ← peek_front (kheap (mem s)) (write_order (deques s));
  match front with
  | None => Ok (true, (s, es, false))
  | Some n =>
      ei ← get_info (mem s) (khd_entry_info (element n));
      let key := kh_key (key_hash ei) in
      match is_dirty ei, last_modified ei with
      | false, Some ts =>
          match is_entry_expired_wo_or_invalid ttl va ts now with
          | (false, false) => Ok (true, (s, es, false))
          | (expired, _) =>
              '(s, removed) ← cht_remove_if_and_retire s key (fun _ vei => is_expired_entry_wo ttl va vei now);
              match removed with
              | Some entry =>
                  s ← notify_if_enabled s key entry (if expired then CauseExpired else CauseExplicit);
                  let es := with_counters es (incr_eviction_count (counters es)) in
                  '(s, c) ← handle_remove s entry None (counters es);
                  Ok (false, (s, with_counters es c, more))
              | None => s ← skip_updated_entry_wo s key; Ok (false, (s, es, false))
              end
          end
      | _, _ => s ← skip_updated_entry_wo s key; Ok (false, (s, es, false))
      end
  end.

Definition remove_expired_wo s (batch_size : nat) (now : Instant) es : res (Inner K V * EvictionState) :=
  let ttl := time_to_live (expiration_policy cfg) in
  let va := get_valid_after s in
  a ← for_break batch_size (remove_expired_wo_step ttl va now) (s, es, true);
  Ok (finish_more a).

Definition evict_expired_entries_using_deqs s (batch_size : nat) (now : Instant) es : res (Inner K V * EvictionState) :=
  '(s, es) ← (if is_write_order_queue_enabled s then remove_expired_wo s batch_size now es else Ok (s, es));
  if bool_decide (is_Some (time_to_idle (expiration_policy cfg))) || has_valid_after s then
    '(s, es) ← remove_expired_ao Window s batch_size now es;
    '(s, es) ← remove_expired_ao MainProbation s batch_size now es;
    remove_expired_ao MainProtected s batch_size now es
  else Ok (s, es).

(** The state of the size eviction also counts the evicted weight. *)
Definition evict_lru_step (weights_to_evict : Z) (a : evict_state * Z) : res (bool * (evict_state * Z)) :=
  let '(s, es, more, evicted) := a in
  if weights_to_evict <=? evicted then Ok (true, (s, es, false, evicted))
  else
    ao ← select_ao (deques s) MainProbation;
    front ← peek_front (kheap (mem s)) ao;
    match front with
    | None => Ok (true, (s, es, false, evicted))
    | Some n =>
        ei ← get_info (mem s) (khd_entry_info (element n));
        let key := kh_key (key_hash ei) in
        match is_dirty ei, last_accessed ei with
        | false, Some ts =>
            '(s, es, removed) ← evict_from_ao MainProbation key CauseSize
               (fun _ vei => match last_accessed vei with Some la => la =? ts | None => false end) s es;
            match removed with
            | Some weight => Ok (false, (s, es, more, saturating_add 64 evicted weight))
            | None => Ok (false, (s, es, false, evicted))
            end
        | _, _ => s ← skip_updated_entry_ao MainProbation s key; Ok (false, (s, es, false, evicted))
        end
    end.

Definition evict_lru_entries s (batch_size : nat) (weights_to_evict : Z) es : res (Inner K V * EvictionState) :=
  a ← for_break batch_size (evict_lru_step weights_to_evict) (s, es, true, 0);
  Ok (finish_more (fst a)).

(** *** Predicates *)

(** [Invalidator::apply] *)
Definition predicate_applies (ps : list (Predicate K V)) s (key : K) (ts : Instant) : res bool :=
  match cht_get s key with
  | Some entry =>
      ei ← get_info (mem s) (info entry);
      match last_modified ei with
      | Some lm => Ok ((lm =? ts) && do_apply_predicates ps key (value entry) lm)
      | None => Ok false
      end
  | None => Ok false
  end.

(** [Invalidator::invalidate] *)
Definition invalidate_one s (key : K) (ts : Instant) : res (Inner K V * option (ValueEntry V)) :=
  '(s, removed) ← cht_remove_if_and_retire s key
     (fun _ vei => match last_modified vei with Some lm => lm =? ts | None => false end);
  match removed with
  | Some entry =>
      Ok ((if is_removal_notifier_enabled s then notify_single_removal s key entry CauseExplicit else s), Some entry)
  | None => Ok (s, None)
  end.

Definition scan_candidate (ps : list (Predicate K V)) (a : Inner K V * list (KvEntry K V)) (kd : KeyDateLite K)
    : res (Inner K V * list (KvEntry K V)) :=
  let '(s, invalidated) := a in
  b ← predicate_applies ps s (kdl_key kd) (kdl_timestamp kd);
  if (b : bool) then
    '(s, removed) ← invalidate_one s (kdl_key kd) (kdl_timestamp kd);
    match removed with
    | Some entry => Ok (s, invalidated ++ [mkKvEntry (kdl_key kd) entry])
    | None => Ok (s, invalidated)
    end
  else Ok (s, invalidated).

Definition scan_and_invalidate s (inv : Invalidator K V) (candidates : list (KeyDateLite K)) (is_truncated : bool)
    : res (Inner K V * list (KvEntry K V) * Invalidator K V * bool) :=
  let ps := match scan_context inv with [] => pred_values inv | _ :: _ => scan_context inv end in
  '(s, invalidated) ← foldM (scan_candidate ps) (s, []) candidates;
  inv ← remove_finished_predicates (mkInvalidator (predicates inv) (inv_is_empty inv) ps) is_truncated
          (kdl_timestamp <$> last candidates);
  Ok (s, invalidated, inv, map_is_empty (predicates inv)).

(** The [while] loop that collects the candidates of one batch through the
    write-order queue's cursor; each round reads one node, so the rounds are at
    most the queue's length and one. *)
Fixpoint collect_candidates (fuel : nat) (batch_size : nat) s (deq : Deque) (acc : list (KeyDateLite K))
    : res (Deque * list (KeyDateLite K)) :=
  if (length acc <? batch_size)%nat then
    match fuel with
    | O => Fail Diverged
    | S fuel' =>
        '(deq, o) ← iter_next (kheap (mem s)) deq;
        match o with
        | Some kd =>
            ei ← get_info (mem s) (khd_entry_info kd);
            let key := kh_key (key_hash ei) in
            let acc := if is_dirty ei then acc
                       else match last_modified ei with
                            | Some ts => acc ++ [mkKeyDateLite key (hasher cfg key) ts]
                            | None => acc
                            end in
            collect_candidates fuel' batch_size s deq acc
        | None => Ok (deq, acc)
        end
    end
  else Ok (deq, acc).

Definition invalidate_entries s (inv : Invalidator K V) (batch_size : nat) (now : Instant) es
    : res (Inner K V * EvictionState) :=
  if len (write_order (deques s)) =? 0 then
    Ok (with_invalidator s (Some (remove_predicates_registered_before inv now)), es)
  else
    '(deq, candidates) ← collect_candidates (S (Z.to_nat (len (write_order (deques s))))) batch_size s
                           (write_order (deques s)) [];
    (* [peek] of the peekable iterator reads one more node, after the end of the
       queue too, where the cursor starts over *)
    '(deq, o) ← iter_next (kheap (mem s)) deq;
    let has_next := bool_decide (is_Some o) in
    let s := with_deques s (mem s) (set_write_order (deques s) deq) in
    if (length candidates =? 0)%nat then Ok (s, es)
    else
      let is_truncated := (length candidates =? batch_size)%nat && has_next in
      '(s, invalidated, inv, is_done) ← scan_and_invalidate s inv candidates is_truncated;
      let s := with_invalidator s (Some inv) in
      '(s, c) ← foldM (fun '(s, c) kv => handle_remove s (kv_entry kv) None c) (s, counters es) invalidated;
      let s := if (is_done : bool)
               then with_deques s (mem s) (set_write_order (deques s) (reset_cursor (write_order (deques s))))
               else s in
      let es := with_counters es c in
      Ok (s, if inv_is_empty inv then es else with_more es true).

(** *** The maintenance task *)

(** The clock readings of one round of the loop, in the order they are taken. *)
Record Readings := mkReadings { at_timers : Instant; at_deqs : Instant; at_invalidation : Instant; at_end : Instant }.

Definition process_logs s es : res (Inner K V * EvictionState) :=
  s ← apply_reads (length (read_op_ch s)) s;
  '(s, es) ← apply_writes (length (write_op_ch s)) s es;
  Ok (if bool_decide (eviction_policy cfg = TinyLfu) && should_enable_frequency_sketch s (counters es)
      then enable_frequency_sketch s (counters es) else s, es).

(** The evictions of one round. *)
Definition evict_round s es (batch_size : nat) (t : Readings) : res (Inner K V * EvictionState) :=
  '(s, es) ← (if is_enabled (timer_wheel s)
              then evict_expired_entries_using_timers s es (at_timers t) else Ok (s, es));
  '(s, es) ← (if has_expiry || has_valid_after s
              then evict_expired_entries_using_deqs s batch_size (at_deqs t) es else Ok (s, es));
  '(s, es) ← match invalidator s with
             | Some inv =>
                 if inv_is_empty inv then Ok (s, es)
                 else invalidate_entries s inv batch_size (at_invalidation t) es
             | None => Ok (s, es)
             end;
  let w := weights_to_evict (counters es) in
  if 0 <? w then evict_lru_entries s batch_size w es else Ok (s, es).

(** The [loop]: the clock readings of the rounds are [rd]. *)
Fixpoint maintenance_loop (fuel : nat) (rd : nat -> Readings) (round : nat) (timeout : option (Duration * Instant))
    (max_log_sync_repeats : Z) (batch_size : nat) (should_process_logs : bool) (calls : Z) s es
    : res (Inner K V * EvictionState) :=
  match fuel with
  | O => Fail Diverged
  | S fuel' =>
      '(s, es) ← (if should_process_logs then process_logs s es else Ok (s, es));
      calls ← (if should_process_logs then checked_add 32 calls 1 else Ok calls);
      let es := with_more es false in
      let last_eviction_count := ec_eviction_count (counters es) in
      '(s, es) ← evict_round s es batch_size (rd round);
      let should_process_logs :=
        (calls <=? max_log_sync_repeats) &&
        ((READ_LOG_FLUSH_POINT <=? Z.of_nat (length (read_op_ch s))) ||
         (WRITE_LOG_FLUSH_POINT <=? Z.of_nat (length (write_op_ch s)))) in
      diff ← checked_sub (ec_eviction_count (counters es)) last_eviction_count;
      let should_evict_more_entries := more_entries_to_evict es && (0 <? diff) in
      if negb should_process_logs && negb should_evict_more_entries then Ok (s, es)
      else
        if match timeout with
           | Some (t, started) => t <=? saturating_duration_since (at_end (rd round)) started
           | None => false
           end
        then Ok (s, es)
        else maintenance_loop fuel' rd (S round) timeout max_log_sync_repeats batch_size should_process_logs calls s es
  end.

(** Every round but the last processes the logs or removes an entry from the
    hash table. *)
Definition maintenance_fuel (max_log_sync_repeats : Z) s : nat :=
  (2 * Z.to_nat max_log_sync_repeats + size (cache s) + 4)%nat.

Definition do_run_pending_tasks (rd : nat -> Readings) (started : Instant) s (timeout : option Duration)
    (max_log_sync_repeats : Z) (batch_size : nat) : res (Inner K V * bool) :=
  if bool_decide (max_capacity cfg = Some 0) then Ok (s, false)
  else
    let current_ec := entry_count s in
    let current_ws := weighted_size s in
    '(s, es) ← maintenance_loop (maintenance_fuel max_log_sync_repeats s) rd 0
                 ((fun t => (t, started)) <$> timeout) max_log_sync_repeats batch_size true 0
                 s (new_eviction_state current_ec current_ws);
    _ ← assert_that (entry_count s =? current_ec);
    _ ← assert_that (weighted_size s =? current_ws);
    Ok (with_counts s (ec_entry_count (counters es)) (ec_weighted_size (counters es)),
        more_entries_to_evict es).
End inner.
