(* ===== verification/BaseCache.v ===== *)
(** The operations of the cache (src/sync/base_cache.rs, [BaseCache]; the public
    ones of src/sync/cache.rs): lookups, insertions, removals, invalidations,
    and the scheduling of the recorded operations.

    Clock readings are arguments, in the order the code takes them.  An operation
    of the hash table runs once: the retries of its closures under contention are
    not modelled.  The user's functions (weigher, expiry, listener, predicates)
    are pure. *)
From S2P Require Import Prelude Common FrequencySketch Deque Time Housekeeper EntryInfo Concurrent Deques.
From S2P Require Import TimerWheel Policy Invalidator Inner.

(** ** [Entry] of src/common/entry.rs *)
Record Entry (K V : Type) := mkEntry {
  en_key : option K;
  en_value : V;
  is_fresh : bool;
  is_old_value_replaced : bool
}.
Arguments mkEntry {K V} _ _ _ _.
Arguments en_key {K V} _.
Arguments en_value {K V} _.
Arguments is_fresh {K V} _.
Arguments is_old_value_replaced {K V} _.

Definition entry_key {K V} (e : Entry K V) : res K := expect_some UnwrapNone (en_key e).

(** What a maintenance run reads from outside: whether another thread holds the
    run lock, and the clock. *)
Record HkEnv := mkHkEnv {
  hk_locked : bool;
  hk_now : Instant;
  hk_readings : nat -> Readings;
  hk_started : Instant
}.

Record BaseCache (K V : Type) `{Countable K} := mkBaseCache {
  inner : Inner K V;
  housekeeper : option Housekeeper
}.
Arguments mkBaseCache {K V _ _} _ _.
Arguments inner {K V _ _} _.
Arguments housekeeper {K V _ _} _.

Section base.
Context {K V : Type} `{Countable K}.
Variable cfg : Config K V.
Implicit Types (b : BaseCache K V) (s : Inner K V) (ve : ValueEntry V) (ei : EntryInfo K) (m : Mem K).

(** [impl InnerSync for Inner] *)
#[export] Instance inner_sync : InnerSync (Inner K V) ((nat -> Readings) * Instant) := {
  inner_run_pending_tasks env s timeout repeats batch_size :=
    do_run_pending_tasks cfg (fst env) (snd env) s timeout repeats (Z.to_nat batch_size)
}.

Definition with_inner b s : BaseCache K V := mkBaseCache s (housekeeper b).
Definition is_map_disabled : bool := bool_decide (max_capacity cfg = Some 0).

(** The capacity a channel is created with. *)
Definition channel_capacity (size : Z) : Z := if is_map_disabled then 0 else size.

(** [BaseCache::new] *)
Definition new_base_cache (listener : option (K -> V -> RemovalCause -> bool)) (config : HousekeeperConfig)
    (invalidator_enabled : bool) (now : Instant) : res (BaseCache K V) :=
  hk ← new_housekeeper (bool_decide (is_Some listener)) config now;
  Ok (mkBaseCache (new_inner listener invalidator_enabled now) (Some hk)).

(** ** Scheduling *)

Definition apply_reads_if_needed b (now : Instant) (env : HkEnv) : res (BaseCache K V) :=
  match housekeeper b with
  | Some hk =>
      due ← should_apply_reads hk (Z.of_nat (length (read_op_ch (inner b)))) now;
      if (due : bool) then
        '(hk, s, _) ← try_run_pending_tasks (hk_locked env) hk (hk_now env) (hk_readings env, hk_started env) (inner b);
        Ok (mkBaseCache s (Some hk))
      else Ok b
  | None => Ok b
  end.

Definition apply_reads_writes_if_needed b (now : Instant) (env : HkEnv) : res (BaseCache K V) :=
  match housekeeper b with
  | Some hk =>
      due ← should_apply_writes hk (Z.of_nat (length (write_op_ch (inner b)))) now;
      if (due : bool) then
        '(hk, s, _) ← try_run_pending_tasks (hk_locked env) hk (hk_now env) (hk_readings env, hk_started env) (inner b);
        Ok (mkBaseCache s (Some hk))
      else Ok b
  | None => Ok b
  end.

(** A read that finds its channel full is dropped. *)
Definition record_read_op b (op : ReadOp V) (now : Instant) (env : HkEnv) : res (BaseCache K V) :=
  b ← apply_reads_if_needed b now env;
  let s := inner b in
  Ok (if Z.of_nat (length (read_op_ch s)) <? channel_capacity READ_LOG_CH_SIZE
      then with_inner b (with_reads s (read_op_ch s ++ [op])) else b).

(** [Cache::schedule_write_op] of src/sync/cache.rs: a write waits until its
    channel has room.  The attempts see the environments [envs]. *)
Fixpoint schedule_write_op b (op : WriteOp K V) (now : Instant) (envs : list HkEnv) : res (BaseCache K V) :=
  match envs with
  | [] => Fail Diverged
  | env :: envs' =>
      b ← apply_reads_writes_if_needed b now env;
      let s := inner b in
      if Z.of_nat (length (write_op_ch s)) <? channel_capacity WRITE_LOG_CH_SIZE
      then Ok (with_inner b (with_writes s (write_op_ch s ++ [op])))
      else schedule_write_op b op now envs'
  end.

(** ** Expiration times set by the user's functions *)

Definition expire_after_create m (ex : Expiry K V) (key : K) ve (ts : Instant) : res (Mem K) :=
  current_time ← to_std_instant (clock_origin cfg) ts;
  let duration := expire_after_create_fn ex key (value ve) current_time in
  let expiration_time := instant_saturating_add ts <$> duration in
  ei ← get_info m (info ve);
  Ok (put_info m (info ve) (fst (set_expiration_time ei expiration_time))).

(** [flatten().min()] *)
Definition min_some (l : list (option Z)) : option Z :=
  foldr (fun o acc => match o, acc with
                      | Some x, Some y => Some (Z.min x y)
                      | Some x, None => Some x
                      | None, _ => acc
                      end) None l.

Definition expire_after_read_or_update m (f : K -> V -> StdInstant -> option Duration -> option Duration) (key : K) ve
    (ttl tti : option Duration) (ts : Instant) : res (Mem K * bool) :=
  current_time ← to_std_instant (clock_origin cfg) ts;
  ei ← get_info m (info ve);
  let exp_time := min_some [fst (expiration_state ei);
                            d ← ttl; (fun t => instant_saturating_add t d) <$> last_modified ei;
                            d ← tti; (fun t => instant_saturating_add t d) <$> last_accessed ei] in
  current_duration ← match exp_time with
                     | Some t => std_time ← to_std_instant (clock_origin cfg) t; Ok (Some (saturating_sub std_time current_time))
                     | None => Ok None
                     end;
  let duration := f key (value ve) current_time current_duration in
  if bool_decide (duration = current_duration) then Ok (m, false)
  else
    let expiration_time := instant_saturating_add ts <$> duration in
    Ok (put_info m (info ve) (fst (set_expiration_time ei expiration_time)), true).

(** ** Lookups *)

(** [Invalidator::apply_predicates], through [Inner::is_invalidated_entry] *)
Definition is_invalidated_entry s (key : K) ve ei : bool :=
  match invalidator s with
  | Some i =>
      if inv_is_empty i then false
      else match last_modified ei with
           | Some ts => do_apply_predicates (pred_values i) key (value ve) ts
           | None => false
           end
  | None => false
  end.

(** The entry is expired or invalidated. *)
Definition is_hidden s (key : K) ve ei (now : Instant) : bool :=
  let ttl := time_to_live (expiration_policy cfg) in
  let tti := time_to_idle (expiration_policy cfg) in
  let va := get_valid_after s in
  is_expired_by_per_entry_ttl ei now || is_expired_entry_wo ttl va ei now ||
  is_expired_entry_ao tti va ei now || is_invalidated_entry s key ve ei.

Definition contains_key_with_hash s (key : K) (now : Instant) : res bool :=
  match cache s !! key with
  | Some ve => ei ← get_info (mem s) (info ve); Ok (negb (is_hidden s key ve ei now))
  | None => Ok false
  end.

Definition scanning_get s (key : K) (now : Instant) : res (option V) :=
  match cache s !! key with
  | Some ve => ei ← get_info (mem s) (info ve); Ok (if is_hidden s key ve ei now then None else Some (value ve))
  | None => Ok None
  end.

Definition get_key_with_hash s (key : K) : option K := (fun _ => key) <$> cache s !! key.

(** The lookup of [do_get_with_hash], before anything is recorded. *)
Definition find_valid s (key : K) (ignore_if : option (V -> bool)) (now : Instant) : res (option (ValueEntry V)) :=
  match cache s !! key with
  | Some ve =>
      if match ignore_if with Some f => f (value ve) | None => false end then Ok None
      else ei ← get_info (mem s) (info ve); Ok (if is_hidden s key ve ei now then None else Some ve)
  | None => Ok None
  end.

(** The effect of a hit on the entry: its expiration time and its access time. *)
Definition touch_entry s ve (now : Instant) : res (Inner K V * Instant * bool) :=
  ei ← get_info (mem s) (info ve);
  '(m, now, is_expiry_modified) ←
    match expiry (expiration_policy cfg) with
    | Some ex =>
        lm ← expect_some UnwrapNone (last_modified ei);
        let now := Z.max now lm in
        lm ← to_std_instant (clock_origin cfg) lm;
        '(m, b) ← expire_after_read_or_update (mem s) (fun k v t d => expire_after_read_fn ex k v t d lm)
                    (kh_key (key_hash ei)) ve (time_to_live (expiration_policy cfg))
                    (time_to_idle (expiration_policy cfg)) now;
        Ok (m, now, b)
    | None => Ok (mem s, now, false)
    end;
  m ← ve_set_last_accessed m ve now;
  Ok (with_mem s m, now, is_expiry_modified).

(** [record]: the environment of the read recorder, or [None] when the read is
    not recorded. *)
Definition do_get_with_hash b (key : K) (hash : Z) (record : option HkEnv) (ignore_if : option (V -> bool))
    (need_key : bool) (now : Instant) : res (BaseCache K V * option (Entry K V)) :=
  if is_map_disabled then Ok (b, None)
  else
    let recorder b op now := match record with Some env => record_read_op b op now env | None => Ok b end in
    found ← find_valid (inner b) key ignore_if now;
    match found with
    | Some ve =>
        '(s, now, is_expiry_modified) ← touch_entry (inner b) ve now;
        b ← recorder (with_inner b s) (Hit ve is_expiry_modified) now;
        Ok (b, Some (mkEntry (if need_key then Some key else None) (value ve) false false))
    | None => b ← recorder b (Miss hash) now; Ok (b, None)
    end.

Definition get_with_hash b (key : K) (hash : Z) (need_key : bool) (now : Instant) (env : HkEnv) :=
  do_get_with_hash b key hash (Some env) None need_key now.
Definition get_with_hash_and_ignore_if b (key : K) (hash : Z) (ignore_if : option (V -> bool)) (need_key : bool)
    (now : Instant) (env : HkEnv) := do_get_with_hash b key hash (Some env) ignore_if need_key now.
Definition get_with_hash_without_recording b (key : K) (hash : Z) (ignore_if : option (V -> bool)) (now : Instant)
    : res (BaseCache K V * option V) :=
  '(b, o) ← do_get_with_hash b key hash None ignore_if false now; Ok (b, option_map en_value o).

(** ** Insertions *)

Definition new_value_entry m (key : K) (hash : Z) (v : V) (timestamp : Instant) (weight : Z)
    : res (Mem K * ValueEntry V * Z) :=
  ei ← new_entry_info (mkKeyHash key hash) timestamp weight;
  let '(m, e) := alloc_info m ei in
  let '(m, ve) := value_entry_new m v e in
  Ok (m, ve, entry_gen ei).

Definition new_value_entry_from m (v : V) (timestamp : Instant) (weight : Z) (other : ValueEntry V)
    : res (Mem K * ValueEntry V * Z) :=
  ei ← get_info m (info other);
  let '(ei, gen) := incr_entry_gen ei in
  ei ← set_last_accessed ei timestamp;
  ei ← set_last_modified ei timestamp;
  let ei := set_policy_weight ei weight in
  Ok (put_info m (info other) ei, value_entry_new_from v (info other) other, gen).

(** The cause [Inner::notify_upsert] reports. *)
Definition upsert_cause s (la lm : option Instant) (now : Instant) : RemovalCause :=
  let exp := expiration_policy cfg in
  let cause := CauseReplaced in
  let cause := match la with
               | Some la => if is_expired_by_tti (time_to_idle exp) la now then CauseExpired else cause
               | None => cause
               end in
  match lm with
  | Some lm => if is_expired_by_ttl (time_to_live exp) lm now then CauseExpired
               else if is_invalid_entry (get_valid_after s) lm then CauseExplicit else cause
  | None => cause
  end.

(** [Inner::notify_upsert] *)
Definition notify_upsert s (key : K) ve (la lm : option Instant) (now : Instant) : Inner K V :=
  notify_single_removal s key ve (upsert_cause s la lm now).

Definition do_post_insert_steps s (ts : Instant) (key : K) ve : res (Inner K V) :=
  match expiry (expiration_policy cfg) with
  | Some ex => m ← expire_after_create (mem s) ex key ve ts; Ok (with_mem s m)
  | None => Ok s
  end.

(** The expiration time of an updated entry: the update of an expired entry counts
    as its creation. *)
Definition post_update_expiration s (ts : Instant) (key : K) (old : OldEntryInfo V) ve : res (Mem K) :=
  match expiry (expiration_policy cfg) with
  | Some ex =>
      ei ← get_info (mem s) (info (oei_entry old));
      if match fst (expiration_state ei) with Some exp_time => exp_time <=? ts | None => false end
      then expire_after_create (mem s) ex key ve ts
      else
        '(m, _) ← expire_after_read_or_update (mem s) (expire_after_update_fn ex) key ve
                    (time_to_live (expiration_policy cfg)) (time_to_idle (expiration_policy cfg)) ts;
        Ok m
  | None => Ok (mem s)
  end.

(** [now] is the reading of [notify_upsert]. *)
Definition do_post_update_steps s (ts now : Instant) (key : K) (old : OldEntryInfo V) ve : res (Inner K V) :=
  m ← post_update_expiration s ts key old ve;
  let s := with_mem s m in
  Ok (if is_removal_notifier_enabled s
      then notify_upsert s key (oei_entry old) (oei_last_accessed old) (oei_last_modified old) now else s).

Definition do_insert_with_hash s (key : K) (hash : Z) (v : V) (ts now : Instant) : res (Inner K V * WriteOp K V) :=
  let weight := weigh cfg key v in
  match cache s !! key with
  | None =>
      '(m, ve, gen) ← new_value_entry (mem s) key hash v ts weight;
      let s := with_cache (with_mem s m) (<[key := ve]> (cache s)) in
      s ← do_post_insert_steps s ts key ve;
      Ok (s, new_upsert key hash ve gen 0 weight)
  | Some old =>
      old_ei ← get_info (mem s) (info old);
      let old_weight := policy_weight old_ei in
      old_info ← new_old_entry_info (mem s) old;
      '(m, ve, gen) ← new_value_entry_from (mem s) v ts weight old;
      let s := with_cache (with_mem s m) (<[key := ve]> (cache s)) in
      s ← do_post_update_steps s ts now key old_info ve;
      Ok (s, new_upsert key hash ve gen old_weight weight)
  end.

(** [Cache::insert_with_hash] *)
Definition insert_with_hash b (key : K) (hash : Z) (v : V) (ts now : Instant) (envs : list HkEnv) : res (BaseCache K V) :=
  if is_map_disabled then Ok b
  else
    '(s, op) ← do_insert_with_hash (inner b) key hash v ts now;
    schedule_write_op (with_inner b s) op ts envs.

(** ** Removals and invalidations *)

Definition remove_entry s (key : K) : res (Inner K V * option (KvEntry K V)) :=
  '(s, o) ← cht_remove_if_and_retire s key (fun _ _ => true);
  Ok (s, option_map (mkKvEntry key) o).

(** The cause [Inner::notify_invalidate] reports. *)
Definition invalidate_cause ei (now : Instant) : RemovalCause :=
  let exp := expiration_policy cfg in
  let cause := CauseExplicit in
  let cause := match last_accessed ei with
               | Some la => if is_expired_by_tti (time_to_idle exp) la now then CauseExpired else cause
               | None => cause
               end in
  match last_modified ei with
  | Some lm => if is_expired_by_ttl (time_to_live exp) lm now then CauseExpired else cause
  | None => cause
  end.

(** [Inner::notify_invalidate] *)
Definition notify_invalidate s (key : K) ve (now : Instant) : res (Inner K V) :=
  ei ← get_info (mem s) (info ve); Ok (notify_single_removal s key ve (invalidate_cause ei now)).

(** The part of [Cache::invalidate_with_hash] before the operation is scheduled. *)
Definition do_invalidate_with_hash s (key : K) (notify_now : Instant) : res (Inner K V * option (KvEntry K V * WriteOp K V)) :=
  '(s, removed) ← remove_entry s key;
  match removed with
  | None => Ok (s, None)
  | Some kv =>
      ei ← get_info (mem s) (info (kv_entry kv));
      let '(ei, entry_gen) := incr_entry_gen ei in
      let s := with_mem s (put_info (mem s) (info (kv_entry kv)) ei) in
      s ← (if is_removal_notifier_enabled s then notify_invalidate s (kv_key kv) (kv_entry kv) notify_now else Ok s);
      Ok (s, Some (kv, Remove kv entry_gen))
  end.

(** [Cache::invalidate_with_hash] *)
Definition invalidate_with_hash b (key : K) (need_value : bool) (now notify_now : Instant) (envs : list HkEnv)
    : res (BaseCache K V * option V) :=
  '(s, removed) ← do_invalidate_with_hash (inner b) key notify_now;
  match removed with
  | None => Ok (with_inner b s, None)
  | Some (kv, op) =>
      b ← schedule_write_op (with_inner b s) op now envs;
      Ok (b, if need_value then Some (value (kv_entry kv)) else None)
  end.

Definition invalidate_all s (now : Instant) : res (Inner K V) :=
  t ← set_instant (valid_after s) now; Ok (with_valid_after s t).

Inductive PredicateError := InvalidationClosuresDisabled.

(** [invalidate_entries_if] with [Inner::register_invalidation_predicate] *)
Definition invalidate_entries_if (uuid : nat -> string) s (f : K -> V -> bool) (now : Instant)
    : res (Inner K V * (string + PredicateError)) :=
  match invalidator s with
  | Some i => '(i, id) ← register_predicate uuid i f now; Ok (with_invalidator s (Some i), inl id)
  | None => Ok (s, inr InvalidationClosuresDisabled)
  end.

(** [Cache::run_pending_tasks] *)
Definition run_pending_tasks b (env : HkEnv) : res (BaseCache K V) :=
  match housekeeper b with
  | Some hk => '(hk, s) ← hk_run_pending_tasks hk (hk_now env) (hk_readings env, hk_started env) (inner b);
               Ok (mkBaseCache s (Some hk))
  | None => Ok b
  end.
End base.
