(* ===== verification/InnerInv.v ===== *)
(** The invariant of the cache engine, and the effect of the small handlers on it.

    [inv] says how the hash table, the entries' metadata, the queues, the timer
    wheel and the counters fit together: an entry is alive exactly while the hash
    table holds it, admitted exactly while it has a node in the probation queue,
    and the entry count is the length of that queue. *)
From S2P Require Import Prelude Common FrequencySketch Deque Time EntryInfo Concurrent Deques.
From S2P Require Import TimerWheel Policy Invalidator Inner.

Section inv.
Context {K V : Type} `{Countable K}.
Variable cfg : Config K V.
Implicit Types (s : Inner K V) (c : EvictionCounters) (ve : ValueEntry V) (m : Mem K) (e : eid)
  (P Q O : list ptr) (B : buckets).

(** A handle to an entry: its metadata exists, and its nodes go with it. *)
Definition ent_wf m ve : Prop := nodes ve = info ve /\ is_Some (infos m !! info ve).

Definition read_wf m (op : ReadOp V) : Prop :=
  match op with Hit ve _ => ent_wf m ve | Miss _ => True end.

(** A recorded write: an [Upsert] carries the key and weight of its entry, a
    [Remove] a retired entry. *)
Definition write_wf m (op : WriteOp K V) : Prop :=
  match op with
  | Upsert kh ve gen old_weight new_weight =>
      ent_wf m ve /\ (0 <= gen <= U16_MAX /\ 0 <= old_weight <= U32_MAX /\ 0 <= new_weight <= U32_MAX) /\
      (forall ei, infos m !! info ve = Some ei -> kh_key (key_hash ei) = kh_key kh)
  | Remove kv gen =>
      ent_wf m (kv_entry kv) /\ 0 <= gen <= U16_MAX /\
      (forall ei, infos m !! info (kv_entry kv) = Some ei -> is_retired ei = true)
  end.

Definition wo_enabled s : Prop := is_write_order_queue_enabled cfg s = true.

Record inv s P Q B O (ec : Z) : Prop := {
  i_deqs : deqs_inv (mem s) (deques s) P Q;
  i_wheel : wheel_inv (mem s) (timer_wheel s) B O;
  i_nodes : forall e, is_Some (dnodes (mem s) !! e) <-> is_Some (infos (mem s) !! e);
  i_fresh : forall e, is_Some (infos (mem s) !! e) -> (e < next_eid (mem s))%positive;
  i_wf : forall e ei, infos (mem s) !! e = Some ei -> info_wf ei;
  i_cache : forall k ve, cache s !! k = Some ve -> nodes ve = info ve /\
    exists ei, infos (mem s) !! info ve = Some ei /\ kh_key (key_hash ei) = k /\ is_retired ei = false;
  i_alive : forall e ei, infos (mem s) !! e = Some ei -> is_retired ei = false ->
    exists ve, cache s !! kh_key (key_hash ei) = Some ve /\ info ve = e;
  i_admitted : forall e ei, infos (mem s) !! e = Some ei ->
    is_admitted ei = true <-> is_Some (ao_of (mem s) e);
  i_wo : forall e, is_Some (wo_of (mem s) e) <-> wo_enabled s /\ is_Some (ao_of (mem s) e);
  i_count : ec = Z.of_nat (length P);
  i_sketch : sketch_ok (overflow_checks cfg) (frequency_sketch s) /\
    (frequency_sketch_enabled s = false -> frequency_sketch s = default_sketch);
  i_pred : forall i, invalidator s = Some i -> inv_wf i;
  i_reads : forall op, op ∈ read_op_ch s -> read_wf (mem s) op;
  i_writes : forall op, op ∈ write_op_ch s -> write_wf (mem s) op
}.

(** *** How the state may evolve *)

(** Entries are never forgotten, keep their key, and stay retired. *)
Definition mem_le m m' : Prop := forall e ei, infos m !! e = Some ei ->
  exists ei', infos m' !! e = Some ei' /\ key_hash ei' = key_hash ei /\
    (is_retired ei = true -> is_retired ei' = true).

#[export] Instance mem_le_refl : Reflexive mem_le.
Proof. intros m e ei He. eauto. Qed.
#[export] Instance mem_le_trans : Transitive mem_le.
Proof.
  intros m1 m2 m3 H1 H2 e ei He. destruct (H1 e ei He) as (e1 & E1 & K1 & R1).
  destruct (H2 e e1 E1) as (e2 & E2 & K2 & R2). exists e2. split; [done|]. split; [congruence|auto].
Qed.

Lemma mem_le_infos m m' : infos m' = infos m -> mem_le m m'.
Proof. intros E e ei He. exists ei. by rewrite E. Qed.

Lemma mem_le_put m e ei ei' :
  infos m !! e = Some ei -> key_hash ei' = key_hash ei -> (is_retired ei = true -> is_retired ei' = true) ->
  mem_le m (put_info m e ei').
Proof.
  intros He Hk Hr e0 ei0 H0. cbn. destruct (decide (e = e0)) as [->|].
  - rewrite lookup_insert_eq. exists ei'. simplify_eq. done.
  - rewrite lookup_insert_ne by done. eauto.
Qed.

(** No entry is admitted on the way. *)
Definition unadmitted m m' : Prop := forall e ei, infos m !! e = Some ei -> is_admitted ei = false ->
  exists ei', infos m' !! e = Some ei' /\ is_admitted ei' = false.

#[export] Instance unadmitted_refl : Reflexive unadmitted.
Proof. intros m e ei He. eauto. Qed.
#[export] Instance unadmitted_trans : Transitive unadmitted.
Proof. intros m1 m2 m3 H1 H2 e ei He Ha. destruct (H1 e ei He Ha) as (e1 & E1 & A1). eauto. Qed.

Lemma unadmitted_infos m m' : infos m' = infos m -> unadmitted m m'.
Proof. intros E e ei He. exists ei. by rewrite E. Qed.

Lemma unadmitted_put m e ei ei' :
  infos m !! e = Some ei -> (is_admitted ei = false -> is_admitted ei' = false) -> unadmitted m (put_info m e ei').
Proof.
  intros He Ha e0 ei0 H0. cbn. destruct (decide (e = e0)) as [->|].
  - rewrite lookup_insert_eq. exists ei'. simplify_eq. auto.
  - rewrite lookup_insert_ne by done. eauto.
Qed.

(** What the operations of the cache see of an entry. *)
Definition observed (ei : EntryInfo K) : Z * Z * Z * Z * Z :=
  (entry_gen ei, exp_state ei, ei_last_accessed ei, ei_last_modified ei, policy_weight ei).
Definition same_view m m' : Prop := forall e ei, infos m !! e = Some ei ->
  exists ei', infos m' !! e = Some ei' /\ observed ei' = observed ei.

#[export] Instance same_view_refl : Reflexive same_view.
Proof. intros m e ei He. eauto. Qed.
#[export] Instance same_view_trans : Transitive same_view.
Proof.
  intros m1 m2 m3 H1 H2 e ei He. destruct (H1 e ei He) as (e1 & E1 & A1). destruct (H2 e e1 E1) as (e2 & E2 & A2).
  exists e2. split; [done|congruence].
Qed.

Lemma same_view_infos m m' : infos m' = infos m -> same_view m m'.
Proof. intros E e ei He. exists ei. by rewrite E. Qed.

Lemma same_view_put m e ei ei' :
  infos m !! e = Some ei -> observed ei' = observed ei -> same_view m (put_info m e ei').
Proof.
  intros He Ha e0 ei0 H0. cbn. destruct (decide (e = e0)) as [->|].
  - rewrite lookup_insert_eq. exists ei'. split; [done|congruence].
  - rewrite lookup_insert_ne by done. eauto.
Qed.

Lemma ent_wf_le m m' ve : mem_le m m' -> ent_wf m ve -> ent_wf m' ve.
Proof. intros L [Hn [ei He]]. destruct (L _ _ He) as (ei' & He' & _). split; [done|eauto]. Qed.

Lemma read_wf_le m m' op : mem_le m m' -> read_wf m op -> read_wf m' op.
Proof. intros L. destruct op; [by apply ent_wf_le|done]. Qed.

Lemma write_wf_le m m' op : mem_le m m' -> write_wf m op -> write_wf m' op.
Proof.
  intros L. destruct op as [kh ve g ow nw|kv g]; cbn; intros [Hve Hop].
  - destruct Hop as [Hw Hk]. split; [by eapply ent_wf_le|]. split; [done|]. intros ei' He'.
    destruct Hve as [_ [ei He]]. destruct (L _ _ He) as (ei2 & E2 & K2 & _).
    rewrite He' in E2. injection E2 as <-. rewrite K2. by apply Hk.
  - destruct Hop as [Hg Hop]. split; [by eapply ent_wf_le|]. split; [done|]. intros ei' He'. destruct Hve as [_ [ei He]].
    destruct (L _ _ He) as (ei2 & E2 & _ & R2). rewrite He' in E2. injection E2 as <-. auto.
Qed.

(** A listener that is on and never panics. *)
Definition quiet (n : RemovalNotifier K V) : Prop :=
  nt_is_enabled n = true /\ forall k v cause, listener_panics n k v cause = false.

(** The calls [l] report exactly the entries that left the table. *)
Definition reports (ch ch' : gmap K (ValueEntry V)) (l : list (K * V * RemovalCause)) : Prop :=
  (length l + size ch')%nat = size ch /\
  forall k v, (exists cause, (k, v, cause) ∈ l) <->
    exists ve, ch !! k = Some ve /\ value ve = v /\ ch' !! k = None.

Definition notified s s' : Prop :=
  match removal_notifier s, removal_notifier s' with
  | None, None => True
  | Some n, Some n' => quiet n -> quiet n' /\ exists l, nt_calls n' = nt_calls n ++ l /\ reports (cache s) (cache s') l
  | _, _ => False
  end.

(** From [s] to [s'] the entry count grows by at most [dn] and the weighted size
    by at most [dw]; entries only leave the hash table, every eviction counted
    took one out, and the listener is told of each one that left. *)
Record evolves (dn dw : Z) s c s' c' : Prop := {
  ev_mem : mem_le (mem s) (mem s');
  ev_view : same_view (mem s) (mem s');
  ev_pos : 0 <= dn;
  ev_unadmitted : dn <= 0 -> unadmitted (mem s) (mem s');
  ev_reads : read_op_ch s' = read_op_ch s;
  ev_writes : write_op_ch s' = write_op_ch s;
  ev_counts : entry_count s' = entry_count s /\ weighted_size s' = weighted_size s;
  ev_valid : valid_after s' = valid_after s;
  ev_enabled : is_Some (invalidator s') <-> is_Some (invalidator s);
  ev_cache : cache s' ⊆ cache s;
  ev_notified : notified s s';
  ev_ec : ec_entry_count c' <= ec_entry_count c + dn;
  ev_ws : ec_weighted_size c' <= ec_weighted_size c + dw;
  ev_ws_pos : 0 <= ec_weighted_size c -> 0 <= ec_weighted_size c';
  ev_size : Z.of_nat (size (cache s')) + ec_eviction_count c' <= Z.of_nat (size (cache s)) + ec_eviction_count c;
  ev_evictions : ec_eviction_count c <= U64_MAX -> ec_eviction_count c <= ec_eviction_count c' <= U64_MAX
}.

Lemma reports_nil ch : reports ch ch [].
Proof. split; [done|]. intros k v. split; [intros [c Hc]; by apply elem_of_nil in Hc|intros (ve & H1 & _ & H2); congruence]. Qed.

Lemma reports_app ch ch1 ch2 l1 l2 :
  ch1 ⊆ ch -> ch2 ⊆ ch1 -> reports ch ch1 l1 -> reports ch1 ch2 l2 -> reports ch ch2 (l1 ++ l2).
Proof.
  intros S1 S2 [N1 R1] [N2 R2]. split; [rewrite length_app; lia|]. intros k v. split.
  - intros (c & [Hc|Hc]%elem_of_app).
    + destruct (proj1 (R1 k v) (ex_intro _ c Hc)) as (ve & E & Ev & En). exists ve. repeat split; try done.
      destruct (ch2 !! k) eqn:E2; [|done]. pose proof (lookup_weaken _ _ _ _ E2 S2). congruence.
    + destruct (proj1 (R2 k v) (ex_intro _ c Hc)) as (ve & E & Ev & En). exists ve. repeat split; try done.
      by eapply lookup_weaken.
  - intros (ve & E & Ev & En). destruct (ch1 !! k) as [ve1|] eqn:E1.
    + pose proof (lookup_weaken _ _ _ _ E1 S1) as E1'. assert (ve1 = ve) as -> by congruence.
      destruct (proj2 (R2 k v)) as [c Hc]; [eauto|]. exists c. apply elem_of_app. by right.
    + destruct (proj2 (R1 k v)) as [c Hc]; [eauto|]. exists c. apply elem_of_app. by left.
Qed.

Lemma notified_same s s' : removal_notifier s' = removal_notifier s -> cache s' = cache s -> notified s s'.
Proof.
  intros En Ec. unfold notified. rewrite En. destruct (removal_notifier s); [|done]. intros Hq. split; [done|].
  exists []. rewrite app_nil_r, Ec. split; [done|]. apply reports_nil.
Qed.

Lemma notified_trans s s1 s2 :
  cache s1 ⊆ cache s -> cache s2 ⊆ cache s1 -> notified s s1 -> notified s1 s2 -> notified s s2.
Proof.
  intros S1 S2. unfold notified. destruct (removal_notifier s), (removal_notifier s1), (removal_notifier s2); try done.
  intros H1 H2 Hq. destruct (H1 Hq) as (Hq1 & l1 & E1 & R1). destruct (H2 Hq1) as (Hq2 & l2 & E2 & R2).
  split; [done|]. exists (l1 ++ l2). rewrite app_assoc, <- E1. split; [done|]. by eapply reports_app.
Qed.

Lemma evolves_refl s c : evolves 0 0 s c s c.
Proof. split; try (done || lia). by apply notified_same. Qed.

Lemma evolves_trans dn dw dn' dw' s c s1 c1 s2 c2 :
  evolves dn dw s c s1 c1 -> evolves dn' dw' s1 c1 s2 c2 -> evolves (dn + dn') (dw + dw') s c s2 c2.
Proof.
  intros [M1 X1 O1 U1 R1 W1 [C1 D1] F1 N1 K1 L1 A1 B1 Z1 S1 V1] [M2 X2 O2 U2 R2 W2 [C2 D2] F2 N2 K2 L2 A2 B2 Z2 S2 V2].
  split; [by transitivity (mem s1)|by transitivity (mem s1)|lia|intros Hd; transitivity (mem s1); [apply U1|apply U2]; lia|congruence|congruence|split; congruence|congruence|by rewrite N2
         |by transitivity (cache s1)|by apply (notified_trans s s1)|lia|lia|auto|lia|lia].
Qed.

Lemma evolves_weaken dn dw dn' dw' s c s' c' :
  dn <= dn' -> dw <= dw' -> evolves dn dw s c s' c' -> evolves dn' dw' s c s' c'.
Proof. intros Hn Hw []. split; try done; try lia. intros Hd. apply ev_unadmitted0. lia. Qed.

Lemma wo_enabled_evolves dn dw s c s' c' : evolves dn dw s c s' c' -> wo_enabled s' <-> wo_enabled s.
Proof.
  intros Ev. unfold wo_enabled, is_write_order_queue_enabled. rewrite !orb_true_iff, !bool_decide_eq_true.
  by rewrite (ev_enabled _ _ _ _ _ _ Ev).
Qed.

(** ** The queues and the wheel do not disturb each other *)

Lemma wheel_frame_ptrs m m' e : wheel_frame m m' -> ao_of m' e = ao_of m e /\ wo_of m' e = wo_of m e.
Proof.
  intros F. pose proof (wf_queues _ _ F e) as Hq. unfold ao_of, wo_of.
  destruct (dnodes m' !! e) as [x|], (dnodes m !! e) as [y|]; cbn in *; [|done..].
  injection Hq as E1 E2. by rewrite E1, E2.
Qed.

Lemma deqs_inv_frame m m' ds P Q : wheel_frame m m' -> deqs_inv m ds P Q -> deqs_inv m' ds P Q.
Proof.
  intros F I. pose proof (wf_kheap _ _ F) as Hk. destruct I. split; rewrite ?Hk; try done.
  - intros e p t. rewrite (proj1 (wheel_frame_ptrs _ _ e F)). done.
  - intros e p. rewrite (proj2 (wheel_frame_ptrs _ _ e F)). done.
Qed.

Lemma deq_frame_tn m m' e : deq_frame m m' -> tn_of m' e = tn_of m e.
Proof.
  intros F. pose proof (df_timer _ _ F e) as Hq. unfold tn_of.
  destruct (dnodes m' !! e) as [x|], (dnodes m !! e) as [y|]; cbn in *; [|done..].
  injection Hq as E1 E2. by rewrite E1, E2.
Qed.

Lemma wheel_inv_frame m m' tw B O : deq_frame m m' -> wheel_inv m tw B O -> wheel_inv m' tw B O.
Proof.
  intros F I. pose proof (df_theap _ _ F) as Hh. destruct I. split; rewrite ?Hh; try done.
  - intros l i p pos g e n Hp Ht. rewrite (deq_frame_tn _ _ e F). eauto.
  - intros e p g. rewrite (deq_frame_tn _ _ e F). eauto.
Qed.

Lemma deq_frame_nodes m m' e : deq_frame m m' -> is_Some (dnodes m' !! e) <-> is_Some (dnodes m !! e).
Proof.
  intros F. pose proof (df_timer _ _ F e) as Hq.
  destruct (dnodes m' !! e), (dnodes m !! e); cbn in Hq; try done; split; intros [? ?]; (done || eauto).
Qed.

(** Metadata alone: neither the queues nor the wheel look at it. *)
Lemma put_info_deqs m ds P Q e ei : deqs_inv m ds P Q -> deqs_inv (put_info m e ei) ds P Q.
Proof. by intros []. Qed.
Lemma put_info_wheel m tw B O e ei : wheel_inv m tw B O -> wheel_inv (put_info m e ei) tw B O.
Proof. by intros []. Qed.

(** *** Rebuilding the invariant *)

(** Operations of the queues and of the wheel: metadata and table untouched. *)
Lemma inv_of_nodes s P Q B O ec m' ds' tw' P' Q' B' O' :
  inv s P Q B O ec ->
  infos m' = infos (mem s) -> next_eid m' = next_eid (mem s) ->
  (forall e, is_Some (dnodes m' !! e) <-> is_Some (dnodes (mem s) !! e)) ->
  (forall e, is_Some (ao_of m' e) <-> is_Some (ao_of (mem s) e)) ->
  (forall e, is_Some (wo_of m' e) <-> is_Some (wo_of (mem s) e)) ->
  deqs_inv m' ds' P' Q' -> wheel_inv m' tw' B' O' -> length P' = length P ->
  inv (with_wheel (with_deques s m' ds') m' tw') P' Q' B' O' ec.
Proof.
  intros I Hi Hn Hd Ha Hw D W L. destruct I. split; cbn; rewrite ?Hi, ?Hn; try done.
  - intros e. rewrite Hd. done.
  - intros e ei He. rewrite Ha. auto.
  - intros e. rewrite Hw, Ha. apply i_wo0.
  - by rewrite L.
  - intros op Hop. apply (read_wf_le (mem s)); [by apply mem_le_infos|auto].
  - intros op Hop. apply (write_wf_le (mem s)); [by apply mem_le_infos|auto].
Qed.

(** A change of one entry's metadata that keeps its key and its two flags. *)
Lemma inv_put_info s P Q B O ec e ei ei' :
  inv s P Q B O ec -> infos (mem s) !! e = Some ei ->
  key_hash ei' = key_hash ei -> is_admitted ei' = is_admitted ei -> is_retired ei' = is_retired ei ->
  info_wf ei' ->
  inv (with_mem s (put_info (mem s) e ei')) P Q B O ec.
Proof.
  intros I He Hk Ha Hr Hwf.
  assert (L : mem_le (mem s) (put_info (mem s) e ei')) by (apply mem_le_put with ei; congruence).
  assert (Hlook : forall e0 x, infos (put_info (mem s) e ei') !! e0 = Some x ->
    exists y, infos (mem s) !! e0 = Some y /\ key_hash x = key_hash y /\ is_admitted x = is_admitted y /\
      is_retired x = is_retired y /\ info_wf x).
  { intros e0 x Hx. cbn in Hx. apply lookup_insert_Some in Hx as [[<- <-]|[_ Hx]]; [eauto 10|].
    exists x. split; [done|]. repeat (split; [done|]). by eapply (i_wf _ _ _ _ _ _ I). }
  destruct I. split; cbn; try done.
  - by apply put_info_deqs.
  - by apply put_info_wheel.
  - intros e0. rewrite i_nodes0. split; intros [x Hx].
    + destruct (decide (e = e0)) as [->|]; [rewrite lookup_insert_eq|rewrite lookup_insert_ne by done]; eauto.
    + apply Hlook in Hx as (y & Hy & _). eauto.
  - intros e0 [x Hx]. apply i_fresh0. apply Hlook in Hx as (y & Hy & _). eauto.
  - intros e0 x Hx. by apply Hlook in Hx as (y & _ & _ & _ & _ & ?).
  - intros k ve Hc. destruct (i_cache0 k ve Hc) as (Hnd & x & Hx & Hkx & Hrx). split; [done|].
    destruct (decide (e = info ve)) as [->|].
    + rewrite lookup_insert_eq. exists ei'. simplify_eq. rewrite Hk, Hr. done.
    + rewrite lookup_insert_ne by done. eauto.
  - intros e0 x Hx Hrx. apply Hlook in Hx as (y & Hy & Hky & _ & Hry & _). rewrite Hky. apply i_alive0; congruence.
  - intros e0 x Hx. apply Hlook in Hx as (y & Hy & _ & Hay & _). rewrite Hay. by apply i_admitted0.
  - intros op Hop. apply (read_wf_le (mem s)); auto.
  - intros op Hop. apply (write_wf_le (mem s)); auto.
Qed.

(** ** Small handlers *)

Lemma get_info_ok m e ei : infos m !! e = Some ei -> get_info m e = Ok ei.
Proof. intros E. unfold get_info. by rewrite E. Qed.

Lemma ent_info m ve : ent_wf m ve -> exists ei, infos m !! info ve = Some ei /\ get_info m (info ve) = Ok ei.
Proof. intros [_ [ei E]]. exists ei. split; [done|by apply get_info_ok]. Qed.

Lemma ent_nodes s P Q B O ec ve :
  inv s P Q B O ec -> ent_wf (mem s) ve -> exists dn, dnodes (mem s) !! info ve = Some dn.
Proof. intros I [_ Hi]. by apply (i_nodes _ _ _ _ _ _ I) in Hi. Qed.

Lemma cache_ent s P Q B O ec k ve : inv s P Q B O ec -> cache s !! k = Some ve -> ent_wf (mem s) ve.
Proof. intros I Hc. destruct (i_cache _ _ _ _ _ _ I k ve Hc) as (Hn & ei & He & _). split; [done|eauto]. Qed.

(** A step that changes neither the counters nor the table. *)
Lemma evolves_quiet s s' c :
  mem_le (mem s) (mem s') -> same_view (mem s) (mem s') -> unadmitted (mem s) (mem s') -> read_op_ch s' = read_op_ch s -> write_op_ch s' = write_op_ch s ->
  entry_count s' = entry_count s -> weighted_size s' = weighted_size s -> valid_after s' = valid_after s ->
  invalidator s' = invalidator s -> removal_notifier s' = removal_notifier s ->
  cache s' = cache s -> evolves 0 0 s c s' c.
Proof.
  intros M X U R W C D F N L Ch. split; rewrite ?R, ?W, ?C, ?D, ?F, ?N, ?Ch; try (done || lia).
  by apply notified_same.
Qed.

Lemma set_policy_gen_step s P Q B O ec ve g :
  inv s P Q B O ec -> ent_wf (mem s) ve -> 0 <= g <= U16_MAX ->
  exists m', ve_set_policy_gen (mem s) ve g = Ok m' /\ inv (with_mem s m') P Q B O ec /\
    forall c, evolves 0 0 s c (with_mem s m') c.
Proof.
  intros I Hve Hg. destruct (ent_info _ _ Hve) as (ei & He & Eg).
  unfold ve_set_policy_gen. rewrite Eg. cbn. eexists. split; [reflexivity|].
  assert (Hf : key_hash (set_policy_gen ei g) = key_hash ei /\ is_admitted (set_policy_gen ei g) = is_admitted ei /\
    is_retired (set_policy_gen ei g) = is_retired ei) by (unfold set_policy_gen; by case_match).
  destruct Hf as (Hk & Ha & Hr). split.
  - eapply inv_put_info; try done. apply set_policy_gen_wf; [done|]. by eapply (i_wf _ _ _ _ _ _ I).
  - intros c. apply evolves_quiet; try done; [apply mem_le_put with ei|apply same_view_put with ei|apply unadmitted_put with ei]; try congruence.
    unfold set_policy_gen. by case_match.
Qed.

(** Queue moves: the entries of the queues stay the same. *)
Lemma relinked_step s P Q B O ec P' Q' out :
  inv s P Q B O ec -> relinked (mem s) (deques s) P Q out P' Q' -> length P' = length P ->
  exists h' ds', out = Ok (with_kheap (mem s) h', ds') /\
    inv (with_deques s (with_kheap (mem s) h') ds') P' Q' B O ec /\
    forall c, evolves 0 0 s c (with_deques s (with_kheap (mem s) h') ds') c.
Proof.
  intros I (h' & ds' & -> & D & _) L. exists h', ds'. split; [done|]. split.
  - refine (inv_of_nodes s P Q B O ec _ _ (timer_wheel s) _ _ _ _ I _ _ _ _ _ D _ L); try done.
    eapply wheel_inv_frame; [apply kheap_frame|apply I].
  - intros c. apply evolves_quiet; try done; [by apply mem_le_infos|by apply same_view_infos|by apply unadmitted_infos].
Qed.

Lemma list_remove_length p (l : list ptr) : NoDup l -> p ∈ l -> S (length (list_remove p l)) = length l.
Proof.
  intros Hnd Hp. apply list_elem_of_split in Hp as (a & b & ->).
  rewrite list_remove_split by done. rewrite !length_app. cbn. lia.
Qed.

Lemma touched_length (o : option ptr) (l : list ptr) :
  NoDup l -> (forall p, o = Some p -> p ∈ l) -> length (touched o l) = length l.
Proof.
  intros Hnd Ho. destruct o as [p|]; [|done]. cbn. unfold moved_to_back. case_decide; [done|].
  rewrite length_app. cbn. pose proof (list_remove_length p l Hnd (Ho p eq_refl)). lia.
Qed.

Lemma ao_touched_length s P Q B O ec ve :
  inv s P Q B O ec -> length (touched (fst <$> ao_of (mem s) (nodes ve)) P) = length P.
Proof.
  intros I. apply touched_length; [apply (di_prob _ _ _ _ (i_deqs _ _ _ _ _ _ I))|].
  intros p ([q t] & Hq & ->)%fmap_Some. by apply (i_deqs _ _ _ _ _ _ I) in Hq as (_ & ? & _).
Qed.

(** Retiring the entry a key maps to. *)
Lemma cht_remove_step s P Q B O ec key cond :
  inv s P Q B O ec ->
  cht_remove_if_and_retire s key cond = Ok (s, None) \/
  exists ve ei ei' s', cache s !! key = Some ve /\ infos (mem s) !! info ve = Some ei /\ cond ve ei = true /\
    cht_remove_if_and_retire s key cond = Ok (s', Some ve) /\
    s' = with_cache (with_mem s (put_info (mem s) (info ve) ei')) (delete key (cache s)) /\
    inv s' P Q B O ec /\ ent_wf (mem s') ve /\
    infos (mem s') !! info ve = Some ei' /\ is_retired ei' = true /\ is_admitted ei' = is_admitted ei /\
    key_hash ei' = key_hash ei /\ policy_weight ei' = policy_weight ei /\
    mem_le (mem s) (mem s') /\ unadmitted (mem s) (mem s') /\ same_view (mem s) (mem s').
Proof.
  intros I. unfold cht_remove_if_and_retire. destruct (cache s !! key) as [ve|] eqn:Hc; [|by left].
  destruct (i_cache _ _ _ _ _ _ I key ve Hc) as (Hnd & ei & He & Hk & Hr).
  rewrite (get_info_ok _ _ _ He). cbn. destruct (cond ve ei) eqn:Econd; [|by left].
  right. unfold retire. rewrite Hr. cbn.
  set (ei' := mkEntryInfo _ _ _ _ _ _ _ _ _).
  eexists ve, ei, ei', _. split; [done|]. split; [done|]. split; [done|]. split; [reflexivity|]. split; [done|].
  assert (L : mem_le (mem s) (put_info (mem s) (info ve) ei')) by (by apply mem_le_put with ei).
  assert (Hinv : inv (with_cache (with_mem s (put_info (mem s) (info ve) ei')) (delete key (cache s))) P Q B O ec).
  { pose proof (i_wf _ _ _ _ _ _ I _ _ He) as Hwf. destruct I. split; cbn; try done.
    - by apply put_info_deqs.
    - by apply put_info_wheel.
    - intros e. rewrite i_nodes0. split; intros [x Hx].
      + destruct (decide (info ve = e)) as [->|]; [rewrite lookup_insert_eq|rewrite lookup_insert_ne by done]; eauto.
      + apply lookup_insert_Some in Hx as [[<- _]|[_ Hx]]; eauto.
    - intros e [x Hx]. apply i_fresh0. apply lookup_insert_Some in Hx as [[<- _]|[_ Hx]]; eauto.
    - intros e x [[<- <-]|[_ Hx]]%lookup_insert_Some; [by destruct Hwf|eauto].
    - intros k ve' [Hne Hc']%lookup_delete_Some. destruct (i_cache0 k ve' Hc') as (Hnd' & x & Hx & Hkx & Hrx).
      split; [done|]. rewrite lookup_insert_ne; [eauto|]. intros E. apply Hne.
      rewrite <- E in Hx. congruence.
    - intros e x [[<- <-]|[Hne Hx]]%lookup_insert_Some Hrx; [done|].
      destruct (i_alive0 e x Hx Hrx) as (ve' & Hc' & Hi'). exists ve'. split; [|done].
      rewrite lookup_delete_ne; [done|]. intros E. rewrite <- E, Hc in Hc'. congruence.
    - intros e x [[<- <-]|[Hne Hx]]%lookup_insert_Some; [exact (i_admitted0 _ _ He)|exact (i_admitted0 _ _ Hx)].
    - intros op Hop. apply (read_wf_le (mem s)); auto.
    - intros op Hop. apply (write_wf_le (mem s)); auto. }
  split; [done|]. split; [split; [done|cbn; rewrite lookup_insert_eq; eauto]|].
  split; [cbn; by rewrite lookup_insert_eq|]. do 5 (split; [done|]). split; [by apply unadmitted_put with ei|by apply same_view_put with ei].
Qed.

(** ** Timers *)

Lemma inv_wheel_step s P Q B O ec m' tw' B' O' :
  inv s P Q B O ec -> wheel_frame (mem s) m' -> wheel_inv m' tw' B' O' ->
  inv (with_wheel s m' tw') P Q B' O' ec /\ forall c, evolves 0 0 s c (with_wheel s m' tw') c.
Proof.
  intros I F W. split.
  - refine (inv_of_nodes s P Q B O ec m' (deques s) tw' P Q B' O' I _ _ _ _ _ _ W _); try apply F; try done.
    + intros e. apply (wheel_frame_dom _ _ _ F).
    + intros e. by rewrite (proj1 (wheel_frame_ptrs _ _ e F)).
    + intros e. by rewrite (proj2 (wheel_frame_ptrs _ _ e F)).
    + eapply deqs_inv_frame; [exact F|apply I].
  - intros c. apply evolves_quiet; try done; [apply mem_le_infos, F|apply same_view_infos, F|apply unadmitted_infos, F].
Qed.

(** The wheel is enabled when a first expiration time shows up. *)
Lemma enable_if_needed m tw B (b : bool) :
  wheel_inv m tw B [] ->
  exists h' tw' B', (if b && negb (is_enabled tw) then enable m tw else Ok (m, tw)) = Ok (with_theap m h', tw') /\
    wheel_inv (with_theap m h') tw' B' [] /\ (b = true -> shape tw').
Proof.
  intros I. destruct b; cbn [andb].
  - destruct (is_enabled tw) eqn:En; cbn [negb].
    + exists (theap m), tw, B. assert (E : with_theap m (theap m) = m) by (by destruct m). rewrite E.
      split; [done|]. split; [done|]. intros _. by apply (is_enabled_shape _ _ _ (wi_buckets _ _ _ _ I)).
    + destruct (enable_spec m tw B I En) as (h' & tw' & B' & E & _ & I' & S'). exists h', tw', B'. done.
  - exists (theap m), tw, B. assert (E : with_theap m (theap m) = m) by (by destruct m). rewrite E. done.
Qed.

Lemma tn_of_some m e dn p : dnodes m !! e = Some dn -> timer_node dn = Some p ->
  tn_of m e = Some (p, timer_node_expiry_gen dn).
Proof. intros Hdn Ht. unfold tn_of. rewrite Hdn. cbn. by rewrite Ht. Qed.

(** After the update an entry has a timer exactly when it has an expiration time. *)
Lemma update_timer_wheel_spec s P Q B ec ve ei :
  inv s P Q B [] ec -> ent_wf (mem s) ve -> infos (mem s) !! info ve = Some ei ->
  exists m' tw' B', update_timer_wheel s ve = Ok (with_wheel s m' tw') /\
    wheel_frame (mem s) m' /\ wheel_inv m' tw' B' [] /\
    (is_Some (tn_of m' (info ve)) <-> is_Some (fst (expiration_state ei))).
Proof.
  intros I Hve He. destruct (ent_nodes _ _ _ _ _ _ _ I Hve) as [dn Hdn]. destruct Hve as [Hnd _].
  unfold update_timer_wheel. rewrite (get_info_ok _ _ _ He). cbn [mbind res_bind].
  destruct (expiration_state ei) as [time g] eqn:Hex. cbn [fst].
  destruct (enable_if_needed (mem s) (timer_wheel s) B (bool_decide (is_Some time)) (i_wheel _ _ _ _ _ _ I))
    as (h1 & tw1 & B1 & E1 & I1 & S1). rewrite E1. cbn [mbind res_bind].
  unfold timer_node_with_expiry_gen, get_nodes. rewrite Hnd. cbn [dnodes with_theap]. rewrite Hdn.
  cbn [expect_some mbind res_bind].
  assert (F1 : wheel_frame (mem s) (with_theap (mem s) h1)) by apply theap_frame.
  set (m1 := with_theap (mem s) h1) in *. change (dnodes (mem s) !! info ve) with (dnodes m1 !! info ve) in Hdn.
  change (infos (mem s) !! info ve) with (infos m1 !! info ve) in He.
  destruct time as [t|], (timer_node dn) as [tn|] eqn:Htn.
  - pose proof (tn_of_some _ _ _ _ Hdn Htn) as Ht.
    destruct (reschedule_spec m1 tw1 B1 (info ve) tn _ ei dn I1 Ht Hdn He) as (m' & tw' & B' & r & E & _ & F & Hr).
    rewrite E. cbn [mbind res_bind]. destruct r as [|q]; [|destruct Hr as (_ & Hx & _); by rewrite Hex in Hx].
    destruct Hr as (_ & I' & Hd). exists m', tw', B'. split; [done|]. split; [by transitivity m1|]. split; [done|].
    unfold tn_of in *. rewrite Hd, Ht. split; eauto.
  - destruct (schedule_spec m1 tw1 B1 (info ve) g t ei dn I1) as (h' & tw' & B' & p & E & _ & I'); try done.
    { by apply S1. }
    rewrite E. cbn [mbind res_bind]. unfold set_timer_node, get_nodes. cbn [dnodes with_theap].
    rewrite Hdn. cbn [expect_some mbind res_bind].
    eexists _, tw', B'. split; [reflexivity|]. split; [|split; [exact I'|]].
    + transitivity m1; [done|]. transitivity (with_theap m1 h'); [apply theap_frame|]. by apply put_tn_frame.
    + rewrite tn_of_put, decide_True by done. cbn. split; eauto.
  - pose proof (tn_of_some _ _ _ _ Hdn Htn) as Ht.
    destruct (deschedule_spec m1 tw1 B1 (info ve) tn _ dn g I1 Ht Hdn) as (m' & tw' & B' & E & I' & _ & F & Hd).
    unfold set_timer_node, get_nodes. rewrite Hdn. cbn [expect_some mbind res_bind]. fold (with_tn dn None g).
    rewrite E. cbn [mbind res_bind]. exists m', tw', B'. split; [done|]. split; [by transitivity m1|]. split; [done|].
    unfold tn_of. rewrite Hd, lookup_insert_eq. cbn. split; intros [? ?]; done.
  - exists m1, tw1, B1. split; [done|]. split; [done|]. split; [done|].
    unfold tn_of. rewrite Hdn. cbn. rewrite Htn. cbn. split; intros [? ?]; done.
Qed.

Lemma take_and_deschedule_spec s P Q B ec ve :
  inv s P Q B [] ec -> ent_wf (mem s) ve ->
  exists m' tw' B', take_and_deschedule s ve = Ok (with_wheel s m' tw') /\
    wheel_frame (mem s) m' /\ wheel_inv m' tw' B' [] /\ tn_of m' (info ve) = None.
Proof.
  intros I Hve. destruct (ent_nodes _ _ _ _ _ _ _ I Hve) as [dn Hdn]. destruct Hve as [Hnd _].
  unfold take_and_deschedule, take_timer_node, set_timer_node, get_nodes. rewrite Hnd, Hdn. cbn.
  fold (with_tn dn None 0). destruct (timer_node dn) as [tn|] eqn:Htn.
  - pose proof (tn_of_some _ _ _ _ Hdn Htn) as Ht.
    destruct (deschedule_spec (mem s) (timer_wheel s) B (info ve) tn _ dn 0 (i_wheel _ _ _ _ _ _ I) Ht Hdn)
      as (m' & tw' & B' & E & I' & _ & F & Hd).
    rewrite E. cbn. exists m', tw', B'. split; [done|]. split; [done|]. split; [done|].
    unfold tn_of. by rewrite Hd, lookup_insert_eq.
  - exists (put_nodes (mem s) (info ve) (with_tn dn None 0)), (timer_wheel s), B. split; [done|].
    split; [by apply put_tn_frame|]. split; [|by rewrite tn_of_put, decide_True].
    pose proof (i_wheel _ _ _ _ _ _ I) as W. split; try apply W.
    + intros l i p pos g e n Hp Ht. rewrite tn_of_put.
      destruct (wi_entry _ _ _ _ W l i p pos g e n Hp Ht) as (-> & -> & Hx). split; [done|]. split; [done|].
      case_decide as Ee; [|done]. subst. unfold tn_of in Hx. rewrite Hdn in Hx. cbn in Hx. by rewrite Htn in Hx.
    + intros e p g. rewrite tn_of_put. case_decide; [done|]. apply W.
Qed.
End inv.

Arguments i_deqs {K V _ _ cfg s P Q B O ec} _.
Arguments i_wheel {K V _ _ cfg s P Q B O ec} _.
Arguments i_nodes {K V _ _ cfg s P Q B O ec} _.
Arguments i_fresh {K V _ _ cfg s P Q B O ec} _.
Arguments i_wf {K V _ _ cfg s P Q B O ec} _.
Arguments i_cache {K V _ _ cfg s P Q B O ec} _.
Arguments i_alive {K V _ _ cfg s P Q B O ec} _.
Arguments i_admitted {K V _ _ cfg s P Q B O ec} _.
Arguments i_wo {K V _ _ cfg s P Q B O ec} _.
Arguments i_count {K V _ _ cfg s P Q B O ec} _.
Arguments i_sketch {K V _ _ cfg s P Q B O ec} _.
Arguments i_pred {K V _ _ cfg s P Q B O ec} _.
Arguments i_reads {K V _ _ cfg s P Q B O ec} _.
Arguments i_writes {K V _ _ cfg s P Q B O ec} _.
Arguments ev_view {K V _ _ dn dw s c s' c'} _.
Arguments ev_pos {K V _ _ dn dw s c s' c'} _.
Arguments ev_unadmitted {K V _ _ dn dw s c s' c'} _ _.
Arguments ev_mem {K V _ _ dn dw s c s' c'} _.
Arguments ev_reads {K V _ _ dn dw s c s' c'} _.
Arguments ev_writes {K V _ _ dn dw s c s' c'} _.
Arguments ev_counts {K V _ _ dn dw s c s' c'} _.
Arguments ev_valid {K V _ _ dn dw s c s' c'} _.
Arguments ev_enabled {K V _ _ dn dw s c s' c'} _.
Arguments ev_cache {K V _ _ dn dw s c s' c'} _.
Arguments ev_notified {K V _ _ dn dw s c s' c'} _.
Arguments ev_ec {K V _ _ dn dw s c s' c'} _.
Arguments ev_ws {K V _ _ dn dw s c s' c'} _.
Arguments ev_ws_pos {K V _ _ dn dw s c s' c'} _.
Arguments ev_size {K V _ _ dn dw s c s' c'} _.
Arguments ev_evictions {K V _ _ dn dw s c s' c'} _.
