(* ===== verification/InnerRemove.v ===== *)
(** Removing and admitting entries: the handlers of src/sync/base_cache.rs that
    link an entry into the queues and unlink it, with the hash-table removals and
    the notifications around them. *)
From S2P Require Import Prelude Common FrequencySketch Deque Time EntryInfo Concurrent Deques.
From S2P Require Import TimerWheel Policy Invalidator Inner InnerInv.

Section remove.
Context {K V : Type} `{Countable K}.
Variable cfg : Config K V.
Implicit Types (s : Inner K V) (c : EvictionCounters) (ve : ValueEntry V) (m : Mem K) (e : eid)
  (P Q O : list ptr) (B : buckets).

(** The invariant with the queues' contents hidden; [O] are the timer nodes the
    running handler owns. *)
Definition good O s c : Prop :=
  0 <= ec_weighted_size c /\ exists P Q B, inv cfg s P Q B O (ec_entry_count c).

(** A handler that starts in a good state ends in one, within its budget. *)
Definition runs dn dw O s c (out : res (Inner K V * EvictionCounters)) : Prop :=
  exists s' c', out = Ok (s', c') /\ good O s' c' /\ evolves dn dw s c s' c'.

Lemma runs_weaken dn dw dn' dw' O s c out :
  dn <= dn' -> dw <= dw' -> runs dn dw O s c out -> runs dn' dw' O s c out.
Proof. intros Hn Hw (s' & c' & E & G & Ev). exists s', c'. do 2 (split; [done|]). by eapply evolves_weaken. Qed.

(** ** Linking and unlinking an entry *)

(** The entry [e] enters ([b = true]) or leaves the queues. *)
Lemma inv_flag s P Q B O ec e ei (b : bool) m' ds' P' Q' :
  inv cfg s P Q B O ec -> infos (mem s) !! e = Some ei ->
  infos m' = <[e := set_admitted ei b]> (infos (mem s)) -> next_eid m' = next_eid (mem s) ->
  (forall e0, is_Some (dnodes m' !! e0) <-> is_Some (dnodes (mem s) !! e0)) ->
  (forall e0, e0 <> e -> ao_of m' e0 = ao_of (mem s) e0 /\ wo_of m' e0 = wo_of (mem s) e0) ->
  (b = true <-> is_Some (ao_of m' e)) ->
  (is_Some (wo_of m' e) <-> wo_enabled cfg s /\ b = true) ->
  deqs_inv m' ds' P' Q' -> wheel_inv m' (timer_wheel s) B O ->
  inv cfg (with_deques s m' ds') P' Q' B O (Z.of_nat (length P')).
Proof.
  intros I He Hi Hn Hd Hoth Hao Hwo D W.
  assert (L : mem_le (mem s) m').
  { intros e0 x Hx. rewrite Hi. destruct (decide (e = e0)) as [->|]; [rewrite lookup_insert_eq|rewrite lookup_insert_ne by done; eauto].
    exists (set_admitted ei b). rewrite He in Hx. by injection Hx as <-. }
  assert (Hlook : forall e0 x, infos m' !! e0 = Some x ->
    exists y, infos (mem s) !! e0 = Some y /\ key_hash x = key_hash y /\ is_retired x = is_retired y /\ info_wf x).
  { intros e0 x Hx. rewrite Hi in Hx. apply lookup_insert_Some in Hx as [[<- <-]|[_ Hx]].
    - exists ei. do 3 (split; [done|]). destruct (i_wf I _ _ He). by split.
    - exists x. do 3 (split; [done|]). exact (i_wf I _ _ Hx). }
  destruct I. split; cbn; try done.
  - intros e0. rewrite Hd, i_nodes, Hi. destruct (decide (e = e0)) as [->|].
    + rewrite lookup_insert_eq. split; eauto.
    + by rewrite lookup_insert_ne.
  - intros e0 [x Hx]. rewrite Hn. apply Hlook in Hx as (y & Hy & _). eauto.
  - intros e0 x Hx. by apply Hlook in Hx as (y & _ & _ & _ & ?).
  - intros k ve Hc. destruct (i_cache k ve Hc) as (Hnd & x & Hx & Hkx & Hrx). split; [done|].
    rewrite Hi. destruct (decide (e = info ve)) as [->|].
    + rewrite lookup_insert_eq. exists (set_admitted ei b). rewrite He in Hx. by injection Hx as <-.
    + rewrite lookup_insert_ne by done. eauto.
  - intros e0 x Hx Hrx. apply Hlook in Hx as (y & Hy & Hky & Hry & _). rewrite Hky. apply i_alive; congruence.
  - intros e0 x Hx. rewrite Hi in Hx. apply lookup_insert_Some in Hx as [[<- <-]|[Hne Hx]].
    + cbn. done.
    + destruct (Hoth e0) as [-> _]; [done|]. by apply i_admitted.
  - intros e0. destruct (decide (e0 = e)) as [->|Hne].
    + rewrite Hwo, <- Hao. done.
    + destruct (Hoth e0 Hne) as [-> ->]. apply i_wo.
  - intros op Hop. apply (read_wf_le (mem s)); auto.
  - intros op Hop. apply (write_wf_le (mem s)); auto.
Qed.

(** Unlinking an entry from both queues, after the first of the two. *)
(** The order of the entries that stay in the queue. *)
Lemma unlinked_queue s P Q B O ec e dn h1 h2 m2 :
  inv cfg s P Q B O ec -> dnodes (mem s) !! e = Some dn -> is_Some (ao_of (mem s) e) -> kheap m2 = h2 ->
  (forall q, Some q <> (fst <$> access_order_q_node dn) -> entry_at h1 q = entry_at (kheap (mem s)) q) ->
  (forall q, Some q <> write_order_q_node dn -> entry_at h2 q = entry_at h1 q) ->
  queue m2 (removed_opt (fst <$> access_order_q_node dn) P) = forget e (queue (mem s) P).
Proof.
  intros I Hdn [[p t] Hp] Hh H1 H2. pose proof (i_deqs I) as D.
  pose proof (proj1 (di_ao_ptr _ _ _ _ D e p t) Hp) as (_ & Hin & Hat).
  rewrite (ao_of_nodes _ _ _ Hdn) in Hp. rewrite Hp in *. cbn [fmap option_fmap option_map fst removed_opt] in *.
  rewrite <- (queue_remove _ _ p e (inv_inj_ao _ _ _ _ D) Hat Hin). apply queue_ext. intros q Hq. rewrite Hh.
  apply list_elem_of_filter in Hq as [Hne Hq]. rewrite H2; [apply H1; congruence|].
  intros Hw. apply (di_disj _ _ _ _ D q Hq). rewrite <- (wo_of_nodes _ _ _ Hdn) in Hw.
  by apply (di_wo_ptr _ _ _ _ D e q).
Qed.

Lemma unlink_both s P Q B O ec ve ei dn out :
  inv cfg s P Q B O ec -> ent_wf (mem s) ve -> infos (mem s) !! info ve = Some ei -> is_admitted ei = true ->
  dnodes (mem s) !! info ve = Some dn ->
  unlinked_ao (put_info (mem s) (info ve) (set_admitted ei false)) (deques s) P Q (info ve) dn out ->
  exists m1 ds1 m2 d, out = Ok (m1, ds1) /\ unlink_wo m1 (write_order ds1) ve = Ok (m2, d) /\
    mem_le (mem s) m2 /\ unadmitted (mem s) m2 /\ same_view (mem s) m2 /\
    deq_frame (put_info (mem s) (info ve) (set_admitted ei false)) m2 /\
    exists P' Q', inv cfg (with_deques s m2 (set_write_order ds1 d)) P' Q' B O (ec - 1) /\
      queue m2 P' = forget (info ve) (queue (mem s) P).
Proof.
  intros I [Hnd _] He Hadm Hdn (h1 & ds1 & -> & D1 & Hat1).
  set (m1 := put_nodes _ _ _) in *.
  assert (Hdn1 : dnodes m1 !! nodes ve = Some (with_ao dn None)) by (rewrite Hnd; cbn; by rewrite lookup_insert_eq).
  destruct (unlink_wo_spec m1 ds1 _ Q ve _ D1 Hdn1) as (h2 & d & Ewo & D2 & Hat2). rewrite Hnd in *.
  set (m2 := put_nodes (with_kheap m1 h2) _ _) in *. exists m1, ds1, m2, d. do 2 (split; [done|]).
  split; [by apply (mem_le_put (mem s) (info ve) ei)|]. split; [by apply (unadmitted_put (mem s) (info ve) ei)|].
  split; [by apply (same_view_put (mem s) (info ve) ei)|].
  assert (F : deq_frame (put_info (mem s) (info ve) (set_admitted ei false)) m2)
    by (transitivity m1; by eapply put_nodes_frame). split; [done|].
  assert (Hao : is_Some (ao_of (mem s) (info ve))) by (by apply (i_admitted I _ _ He)).
  assert (Hlen : ec - 1 = Z.of_nat (length (removed_opt (fst <$> access_order_q_node dn) P))).
  { pose proof (i_deqs I) as D. destruct Hao as [[p t] Hp].
    assert (Hin : p ∈ P) by (by apply (di_ao_ptr _ _ _ _ D) in Hp as (_ & ? & _)).
    rewrite (ao_of_nodes _ _ _ Hdn) in Hp. rewrite Hp. cbn.
    pose proof (list_remove_length p P (repr_nodup _ _ _ (di_prob _ _ _ _ D)) Hin). rewrite (i_count I). lia. }
  rewrite Hlen. do 2 eexists. split; [|by eapply unlinked_queue].
  eapply (inv_flag s P Q B O ec (info ve) ei false m2 _ _ _ I He); try done.
  - intros e0. unfold m2, m1. cbn. destruct (decide (info ve = e0)) as [<-|]; [|by rewrite !lookup_insert_ne by done].
    rewrite lookup_insert_eq, Hdn. split; eauto.
  - intros e0 Hne. split; cbn.
    + unfold m2, m1. rewrite ao_of_put, ao_of_kheap, ao_of_put, !decide_False by done. done.
    + unfold m2, m1. rewrite wo_of_put, wo_of_kheap, wo_of_put, !decide_False by done. done.
  - unfold m2. rewrite ao_of_put, decide_True by done. cbn. split; [done|]. by intros [? ?].
  - unfold m2. rewrite wo_of_put, decide_True by done. cbn. split; [by intros [? ?]|]. by intros [_ ?].
  - eapply wheel_inv_frame; [exact F|]. apply put_info_wheel, I.
Qed.

(** An entry outside the queues has no queue nodes to forget. *)
Lemma unset_q_nodes_step s P Q B O ec ve ei :
  inv cfg s P Q B O ec -> ent_wf (mem s) ve -> infos (mem s) !! info ve = Some ei -> is_admitted ei = false ->
  unset_q_nodes (mem s) ve = Ok (mem s).
Proof.
  intros I Hve He Hadm. destruct (ent_nodes cfg _ _ _ _ _ _ _ I Hve) as [dn Hdn]. destruct Hve as [Hnd _].
  unfold unset_q_nodes, get_nodes. rewrite Hnd, Hdn. cbn.
  assert (Ha : ao_of (mem s) (info ve) = None).
  { apply eq_None_not_Some. rewrite <- (i_admitted I _ _ He). congruence. }
  assert (Hw : wo_of (mem s) (info ve) = None).
  { apply eq_None_not_Some. rewrite (i_wo I), Ha. intros [_ [? ?]]. done. }
  rewrite (ao_of_nodes _ _ _ Hdn) in Ha. rewrite (wo_of_nodes _ _ _ Hdn) in Hw.
  f_equal. apply put_nodes_id. rewrite Hdn. destruct dn; cbn in *. by subst.
Qed.

Lemma count_pos s P Q B O ec e ei :
  inv cfg s P Q B O ec -> infos (mem s) !! e = Some ei -> is_admitted ei = true -> 1 <= ec.
Proof.
  intros I He Ha. apply (i_admitted I _ _ He) in Ha as [[p t] Hp].
  apply (di_ao_ptr _ _ _ _ (i_deqs I)) in Hp as (_ & Hin & _). rewrite (i_count I).
  destruct P; [by apply elem_of_nil in Hin|cbn; lia].
Qed.

(** The counters after an admitted entry left. *)
Definition left_counters c (w : Z) : EvictionCounters :=
  mkCounters (ec_entry_count c - 1) (saturating_sub (ec_weighted_size c) w) (ec_eviction_count c).

Lemma evolves_left s s' c w :
  0 <= w -> mem_le (mem s) (mem s') -> unadmitted (mem s) (mem s') -> same_view (mem s) (mem s') -> read_op_ch s' = read_op_ch s -> write_op_ch s' = write_op_ch s ->
  entry_count s' = entry_count s -> weighted_size s' = weighted_size s -> valid_after s' = valid_after s ->
  invalidator s' = invalidator s -> removal_notifier s' = removal_notifier s ->
  cache s' = cache s -> 0 <= ec_weighted_size c -> evolves 0 0 s c s' (left_counters c w).
Proof.
  intros Hw M U X R W C D F N L Ch Hp. split; rewrite ?R, ?W, ?C, ?D, ?F, ?N, ?Ch; cbn; try (done || lia).
  - by apply notified_same.
  - unfold saturating_sub. lia.
  - unfold saturating_sub. lia.
Qed.

(** Neither the wheel nor the timers of the entries change. *)
Definition keeps_timers s s' : Prop :=
  theap (mem s') = theap (mem s) /\ timer_wheel s' = timer_wheel s /\ forall e, tn_of (mem s') e = tn_of (mem s) e.

#[export] Instance keeps_timers_refl : Reflexive keeps_timers.
Proof. by intros s. Qed.
#[export] Instance keeps_timers_trans : Transitive keeps_timers.
Proof. intros s1 s2 s3 (A & B & C) (A' & B' & C'). split; [congruence|]. split; [congruence|]. intros e. by rewrite C', C. Qed.

(** Forgetting a retired entry: the common body of the removal handlers. *)
Lemma handle_remove_without_timer_wheel_spec O s c ve gen ei :
  good O s c -> ent_wf (mem s) ve -> infos (mem s) !! info ve = Some ei -> is_retired ei = true ->
  (forall g, gen = Some g -> 0 <= g <= U16_MAX) ->
  exists s' c', handle_remove_without_timer_wheel s ve gen c = Ok (s', c') /\ good O s' c' /\
    evolves 0 0 s c s' c' /\ keeps_timers s s'.
Proof.
  intros (Hws & P & Q & B & I) Hve He Hret Hgen.
  assert (Hfirst : exists s1 c1 P1 Q1,
    (if is_admitted ei then
       m ← ve_set_admitted (mem s) ve false;
       c ← counters_saturating_sub c 1 (policy_weight ei);
       '(m, ds) ← unlink_ao m (deques s) ve;
       '(m, d) ← unlink_wo m (write_order ds) ve;
       Ok (with_deques s m (set_write_order ds d), c)
     else
       m ← unset_q_nodes (mem s) ve;
       Ok (with_mem s m, c)) = Ok (s1, c1) /\
    0 <= ec_weighted_size c1 /\ inv cfg s1 P1 Q1 B O (ec_entry_count c1) /\ evolves 0 0 s c s1 c1 /\ ent_wf (mem s1) ve /\
    keeps_timers s s1).
  { destruct (is_admitted ei) eqn:Hadm.
    - destruct (ent_nodes cfg _ _ _ _ _ _ _ I Hve) as [dn Hdn].
      assert (Hun : unlinked_ao (put_info (mem s) (info ve) (set_admitted ei false)) (deques s) P Q (info ve) dn
        (unlink_ao (put_info (mem s) (info ve) (set_admitted ei false)) (deques s) ve)).
      { destruct Hve as [Hnd _]. rewrite <- Hnd. apply unlink_ao_spec; [apply put_info_deqs, I|by rewrite Hnd]. }
      destruct (unlink_both _ _ _ _ _ _ _ _ _ _ I Hve He Hadm Hdn Hun)
        as (m1 & ds1 & m2 & d & E1 & E2 & L & U & X & F & P' & Q' & I' & _).
      unfold ve_set_admitted, counters_saturating_sub. rewrite (get_info_ok _ _ _ He). cbn.
      rewrite checked_sub_ok by (by eapply count_pos). cbn. rewrite E1. cbn. rewrite E2. cbn.
      eexists _, (left_counters c (policy_weight ei)), P', Q'. split; [reflexivity|]. split; [cbn; unfold saturating_sub; lia|].
      split; [exact I'|]. split; [apply evolves_left; try done; apply (i_wf I _ _ He)|]. split; [by eapply ent_wf_le|].
      split; [apply F|]. split; [done|]. intros e. exact (deq_frame_tn _ _ e F).
    - rewrite (unset_q_nodes_step _ _ _ _ _ _ _ _ I Hve He Hadm). cbn.
      assert (Es : with_mem s (mem s) = s) by (by destruct s).
      exists s, c, P, Q. rewrite Es. split; [done|]. split; [done|]. split; [done|].
      split; [apply evolves_refl|]. done. }
  destruct Hfirst as (s1 & c1 & P1 & Q1 & E1 & Hws1 & I1 & Ev1 & Hve1 & T1).
  unfold handle_remove_without_timer_wheel. rewrite (get_info_ok _ _ _ He). cbn [mbind res_bind].
  rewrite Hret. cbn [assert_that mbind res_bind]. rewrite E1. cbn [mbind res_bind]. destruct gen as [g|].
  - destruct (set_policy_gen_step cfg _ _ _ _ _ _ _ _ I1 Hve1 (Hgen g eq_refl)) as (m' & Em & I2 & Ev2).
    rewrite Em. cbn [mbind res_bind].
    eexists _, _. split; [reflexivity|]. split; [split; [done|eauto]|].
    split; [exact (evolves_trans _ _ _ _ _ _ _ _ _ _ Ev1 (Ev2 c1))|].
    transitivity s1; [done|]. unfold ve_set_policy_gen in Em. by apply bind_Ok in Em as (? & _ & [= <-]).
  - eexists _, _. split; [reflexivity|]. split; [split; [done|eauto]|done].
Qed.

(** The wheel forgets the entry's timer; queues and metadata stay. *)
Lemma take_and_deschedule_step s P Q B ec ve :
  inv cfg s P Q B [] ec -> ent_wf (mem s) ve ->
  exists m' tw' B', take_and_deschedule s ve = Ok (with_wheel s m' tw') /\
    inv cfg (with_wheel s m' tw') P Q B' [] ec /\ ent_wf m' ve /\ infos m' = infos (mem s) /\
    kheap m' = kheap (mem s) /\ forall c, evolves 0 0 s c (with_wheel s m' tw') c.
Proof.
  intros I Hve. destruct (take_and_deschedule_spec cfg _ _ _ _ _ _ I Hve) as (m' & tw' & B' & E & F & W & _).
  destruct (inv_wheel_step cfg _ _ _ _ _ _ _ _ _ _ I F W) as [I' Ev]. exists m', tw', B'. do 2 (split; [done|]).
  pose proof (wf_infos _ _ F) as Hi. split; [|by split; [|split; [apply F|]]]. destruct Hve as [Hn He]. split; [done|]. by rewrite Hi.
Qed.

Lemma runs_trans dn dw dn' dw' O s c s1 c1 out :
  evolves dn dw s c s1 c1 -> runs dn' dw' O s1 c1 out -> runs (dn + dn') (dw + dw') O s c out.
Proof.
  intros Ev (s' & c' & -> & G & Ev'). eexists _, _. split; [reflexivity|]. split; [done|]. by eapply evolves_trans.
Qed.

Lemma handle_remove_spec s c ve gen ei :
  good [] s c -> ent_wf (mem s) ve -> infos (mem s) !! info ve = Some ei -> is_retired ei = true ->
  (forall g, gen = Some g -> 0 <= g <= U16_MAX) ->
  runs 0 0 [] s c (handle_remove s ve gen c).
Proof.
  intros (Hws & P & Q & B & I) Hve He Hret Hgen.
  destruct (take_and_deschedule_step _ _ _ _ _ _ I Hve) as (m' & tw' & B' & E & I' & Hve' & Hi & _ & Ev).
  unfold handle_remove. rewrite E. cbn [mbind res_bind]. apply (runs_trans 0 0 0 0 _ _ _ _ _ _ (Ev c)).
  rewrite <- Hi in He. destruct (handle_remove_without_timer_wheel_spec [] (with_wheel s m' tw') c ve gen ei)
    as (s' & c' & -> & G' & Ev' & _); try done; [split; [done|eauto]|]. by exists s', c'.
Qed.

(** An admitted entry leaves the queue, and the others keep their order. *)
Lemma handle_remove_with_deques_exact s c ve ei P Q B :
  inv cfg s P Q B [] (ec_entry_count c) -> ent_wf (mem s) ve -> infos (mem s) !! info ve = Some ei ->
  is_retired ei = true -> is_admitted ei = true ->
  exists s' P' Q' B', handle_remove_with_deques MainProbation s ve c = Ok (s', left_counters c (policy_weight ei)) /\
    inv cfg s' P' Q' B' [] (ec_entry_count c - 1) /\ queue (mem s') P' = forget (info ve) (queue (mem s) P) /\
    cache s' = cache s /\ infos (mem s') = <[info ve := set_admitted ei false]> (infos (mem s)) /\
    removal_notifier s' = removal_notifier s /\
    (0 <= ec_weighted_size c -> evolves 0 0 s c s' (left_counters c (policy_weight ei))).
Proof.
  intros I Hve He Hret Hadm.
  destruct (take_and_deschedule_step _ _ _ _ _ _ I Hve) as (m' & tw' & B' & E & I' & Hve' & Hi & Hk & Ev).
  assert (Hs1 : mem (with_wheel s m' tw') = m' /\ cache (with_wheel s m' tw') = cache s /\
    removal_notifier (with_wheel s m' tw') = removal_notifier s) by done.
  remember (with_wheel s m' tw') as s1 eqn:Es1. clear Es1 tw'. destruct Hs1 as (Em & Hc & Hn). subst m'.
  unfold handle_remove_with_deques. rewrite (get_info_ok _ _ _ He). cbn [mbind res_bind].
  rewrite Hret. cbn [assert_that mbind res_bind]. rewrite E. cbn [mbind res_bind].
  assert (Hq : queue (mem s) P = queue (mem s1) P) by (apply queue_ext; by rewrite Hk).
  pose proof He as He'. rewrite <- Hi in He'. rewrite Hq, <- Hi.
  destruct (ent_nodes cfg _ _ _ _ _ _ _ I' Hve') as [dn Hdn].
  pose proof (unlink_ao_from_deque_spec (put_info (mem s1) (info ve) (set_admitted ei false)) (deques s1) P Q ve dn
    (put_info_deqs _ _ _ _ _ _ (i_deqs I'))) as Hun.
  destruct Hve' as [Hnd Hex] eqn:Eve. rewrite Hnd in Hun. specialize (Hun Hdn).
  destruct (unlink_both _ _ _ _ _ _ _ _ _ _ I' Hve' He' Hadm Hdn Hun)
    as (m1 & ds1 & m2 & d & E1 & E2 & L & U & X & F & P' & Q' & I2 & Hq2).
  apply bind_Ok in E1 as ([m1' ao] & Eao & [= -> <-]).
  rewrite Hadm. unfold ve_set_admitted, counters_saturating_sub. rewrite (get_info_ok _ _ _ He'). cbn [mbind res_bind].
  rewrite checked_sub_ok by (by eapply count_pos). cbn [mbind res_bind select_ao]. rewrite Eao. cbn [mbind res_bind].
  cbn [store_ao]. rewrite E2. cbn [mbind res_bind].
  eexists _, P', Q', B'. split; [reflexivity|]. split; [exact I2|]. split; [exact Hq2|]. split; [done|].
  split; [exact (df_infos _ _ F)|]. split; [done|]. intros Hws.
  refine (evolves_trans 0 0 0 0 _ _ _ _ _ _ (Ev c) _). apply evolves_left; try done. apply (i_wf I' _ _ He').
Qed.

Lemma handle_remove_with_deques_spec s c ve ei :
  good [] s c -> ent_wf (mem s) ve -> infos (mem s) !! info ve = Some ei -> is_retired ei = true ->
  runs 0 0 [] s c (handle_remove_with_deques MainProbation s ve c).
Proof.
  intros (Hws & P & Q & B & I) Hve He Hret. destruct (is_admitted ei) eqn:Hadm.
  - destruct (handle_remove_with_deques_exact s c ve ei P Q B I Hve He Hret Hadm) as (s' & P' & Q' & B' & E & I' & _ & _ & _ & _ & Ev).
    exists s', (left_counters c (policy_weight ei)). split; [done|]. split; [|auto].
    split; [cbn; unfold saturating_sub; lia|cbn; eauto].
  - destruct (take_and_deschedule_step _ _ _ _ _ _ I Hve) as (m' & tw' & B' & E & I' & Hve' & Hi & _ & Ev).
    unfold handle_remove_with_deques. rewrite (get_info_ok _ _ _ He). cbn [mbind res_bind].
    rewrite Hret. cbn [assert_that mbind res_bind]. rewrite E, Hadm. cbn [mbind res_bind].
    apply (runs_trans 0 0 0 0 _ _ _ _ _ _ (Ev c)). rewrite <- Hi in He.
    rewrite (unset_q_nodes_step (with_wheel s m' tw') _ _ _ _ _ _ _ I' Hve' He Hadm). cbn [mbind res_bind].
    assert (Es : with_mem (with_wheel s m' tw') (mem (with_wheel s m' tw')) = with_wheel s m' tw') by done.
    eexists _, c. rewrite Es. split; [done|]. split; [split; [done|eauto]|apply evolves_refl].
Qed.

(** ** Leaving the hash table *)

Lemma inv_notifier s P Q B O ec n : inv cfg s P Q B O ec -> inv cfg (with_notifier s n) P Q B O ec.
Proof. by intros []. Qed.

Lemma good_incr O s c : good O s c -> good O s (incr_eviction_count c).
Proof. by intros [Hw G]. Qed.

Lemma reports_one (ch : gmap K (ValueEntry V)) key ve cause :
  ch !! key = Some ve -> reports ch (delete key ch) [(key, value ve, cause)].
Proof.
  intros Hc. split.
  - cbn. rewrite map_size_delete, Hc. assert (size ch <> 0%nat); [|lia].
    intros Hz. apply map_size_empty_inv in Hz. rewrite Hz in Hc. by rewrite lookup_empty in Hc.
  - intros k v. split.
    + intros [c' [= -> -> ->]%list_elem_of_singleton]. exists ve. by rewrite lookup_delete_eq.
    + intros (ve' & E & <- & Hn). destruct (decide (k = key)) as [->|].
      * exists cause. rewrite Hc in E. injection E as ->. apply list_elem_of_singleton. done.
      * rewrite lookup_delete_ne in Hn by done. congruence.
Qed.

(** A removal and its notification, as a step of its own: the entry is retired
    and nothing else of the cache changes. *)
Record removes O s c key cond cause ve s1 s2 : Prop := {
  rm_found : cache s !! key = Some ve;
  rm_cond : exists ei, infos (mem s) !! info ve = Some ei /\ cond ve ei = true;
  rm_run : cht_remove_if_and_retire s key cond = Ok (s1, Some ve);
  rm_notify : notify_if_enabled s1 key ve cause = Ok s2;
  rm_mem : mem s2 = mem s1;
  rm_good : good O s2 c;
  rm_wf : ent_wf (mem s2) ve;
  rm_retired : exists ei, infos (mem s2) !! info ve = Some ei /\ is_retired ei = true /\ kh_key (key_hash ei) = key;
  rm_evolves : evolves 0 0 s c s2 c;
  rm_evicted : evolves 0 0 s c s2 (incr_eviction_count c)
}.

Lemma remove_notify O s c key cond cause :
  good O s c ->
  cht_remove_if_and_retire s key cond = Ok (s, None) \/
  exists ve s1 s2, removes O s c key cond cause ve s1 s2.
Proof.
  intros (Hws & P & Q & B & I). destruct (cht_remove_step cfg s P Q B O _ key cond I) as [E|
    (ve & ei & ei' & s' & Hc & He & Hcond & E & Es & I' & Hve & He' & Hr & Ha & Hk & Hw & L & U & X)]; [by left|].
  right. set (n' := (fun n => notify n key (value ve) cause) <$> removal_notifier s).
  exists ve, s', (with_notifier s' n').
  assert (Hn : notify_if_enabled s' key ve cause = Ok (with_notifier s' n')).
  { unfold notify_if_enabled, notify_entry_removal, is_removal_notifier_enabled, n'. rewrite Es. cbn.
    destruct (removal_notifier s) eqn:En; cbn; [done|].
    do 2 f_equal. by destruct s; cbn in *; subst. }
  assert (Hnot : notified s (with_notifier s' n')).
  { unfold notified. cbn. unfold n'. destruct (removal_notifier s) as [n|]; [|done]. intros [Hon Hp]. cbn.
    unfold notify. rewrite Hon. cbn. rewrite Hp. split; [by split|]. eexists. split; [reflexivity|].
    rewrite Es. cbn. by apply reports_one. }
  assert (Hsub : cache s' ⊆ cache s) by (rewrite Es; cbn; apply delete_subseteq).
  assert (Hsz : S (size (cache s')) = size (cache s)).
  { rewrite Es. cbn. destruct (reports_one (cache s) key ve cause Hc) as [Hl _]. cbn in Hl. lia. }
  split; try done.
  - by exists ei.
  - split; [done|]. exists P, Q, B. by apply inv_notifier.
  - exists ei'. split; [done|]. split; [done|]. destruct (i_cache I _ _ Hc) as (_ & x & Hx & Hkx & _). congruence.
  - split; try done; try (rewrite Es; done); cbn; lia.
  - split; try done; try (rewrite Es; done); cbn; unfold saturating_add, U64_MAX; lia.
Qed.

(** ** Entering the queues *)

Lemma update_timer_wheel_step s P Q B ec ve :
  inv cfg s P Q B [] ec -> ent_wf (mem s) ve ->
  exists m' tw' B', update_timer_wheel s ve = Ok (with_wheel s m' tw') /\
    inv cfg (with_wheel s m' tw') P Q B' [] ec /\ ent_wf m' ve /\ infos m' = infos (mem s) /\
    forall c, evolves 0 0 s c (with_wheel s m' tw') c.
Proof.
  intros I Hve. destruct (ent_info _ _ Hve) as (ei & He & _).
  destruct (update_timer_wheel_spec cfg _ _ _ _ _ _ _ I Hve He) as (m' & tw' & B' & E & F & W & _).
  destruct (inv_wheel_step cfg _ _ _ _ _ _ _ _ _ _ I F W) as [I' Ev]. exists m', tw', B'. do 2 (split; [done|]).
  pose proof (wf_infos _ _ F) as Hi. split; [|done]. destruct Hve as [Hn Hx]. split; [done|]. by rewrite Hi.
Qed.

(** Linking an entry that is in neither queue. *)
Lemma link_both s P Q B ec ve ei dn :
  inv cfg s P Q B [] ec -> ent_wf (mem s) ve -> infos (mem s) !! info ve = Some ei -> is_admitted ei = false ->
  dnodes (mem s) !! info ve = Some dn ->
  exists m1 ds1 m2 ds2 P' Q',
    push_back_ao (mem s) (deques s) MainProbation (mkKeyHashDate (info ve)) ve = Ok (m1, ds1) /\
    (if is_write_order_queue_enabled cfg s
     then push_back_wo m1 ds1 (mkKeyHashDate (info ve)) ve else Ok (m1, ds1)) = Ok (m2, ds2) /\
    infos m2 = infos (mem s) /\
    inv cfg (with_deques s (put_info m2 (info ve) (set_admitted ei true)) ds2) P' Q' B [] (ec + 1).
Proof.
  intros I [Hnd _] He Hadm Hdn. pose proof (i_deqs I) as D.
  assert (Ha : access_order_q_node dn = None).
  { rewrite <- (ao_of_nodes _ _ _ Hdn). apply eq_None_not_Some. rewrite <- (i_admitted I _ _ He). congruence. }
  assert (Hw : write_order_q_node dn = None).
  { rewrite <- (wo_of_nodes _ _ _ Hdn). apply eq_None_not_Some.
    rewrite (i_wo I), (ao_of_nodes _ _ _ Hdn), Ha. intros [_ [? ?]]. done. }
  rewrite <- Hnd in Hdn. destruct (push_back_ao_spec _ _ _ _ ve dn D Hdn Ha) as (h1 & ds1 & p & E1 & D1 & _).
  set (m1 := put_nodes _ _ _) in *. rewrite <- Hnd. exists m1, ds1. rewrite E1.
  assert (Hdn1 : dnodes m1 !! nodes ve = Some (with_ao dn (Some (p, 1)))) by (cbn; by rewrite lookup_insert_eq).
  assert (F1 : deq_frame (mem s) m1) by (by apply put_nodes_frame with dn).
  assert (Hsome : forall o : option (ptr * Z), o = Some (p, 1) -> true = true <-> is_Some o) by (intros ? ->; split; eauto).
  assert (Hec : ec + 1 = Z.of_nat (length (P ++ [p]))) by (rewrite length_app, (i_count I); cbn; lia).
  rewrite Hec. rewrite <- Hnd in He. destruct (is_write_order_queue_enabled cfg s) eqn:Hen.
  - destruct (push_back_wo_spec m1 ds1 _ Q ve _ D1 Hdn1 Hw) as (h2 & ds2 & q & E2 & D2 & _).
    set (m2 := put_nodes (with_kheap m1 h2) _ _) in *. exists m2, ds2, (P ++ [p]), (Q ++ [q]).
    do 3 (split; [done|]).
    assert (F2 : deq_frame m1 m2) by (by eapply put_nodes_frame).
    eapply (inv_flag s P Q B [] ec (nodes ve) ei true _ _ _ _ I He); try done.
    + intros e0. cbn. rewrite !lookup_insert_is_Some. destruct (decide (nodes ve = e0)) as [<-|]; [rewrite Hdn|]; naive_solver.
    + intros e0 Hne. change (ao_of m2 e0 = ao_of (mem s) e0 /\ wo_of m2 e0 = wo_of (mem s) e0).
      unfold m2, m1. rewrite ao_of_put, wo_of_put, ao_of_kheap, wo_of_kheap, ao_of_put, wo_of_put, !decide_False by done. done.
    + apply Hsome. change (ao_of m2 (nodes ve) = Some (p, 1)). unfold m2. by rewrite ao_of_put, decide_True.
    + change (is_Some (wo_of m2 (nodes ve)) <-> wo_enabled cfg s /\ true = true). unfold m2. rewrite wo_of_put, decide_True by done.
      cbn. split; eauto.
    + by apply put_info_deqs.
    + apply put_info_wheel. eapply wheel_inv_frame; [|apply I]. by transitivity m1.
  - exists m1, ds1, (P ++ [p]), Q. do 3 (split; [done|]).
    eapply (inv_flag s P Q B [] ec (nodes ve) ei true _ _ _ _ I He); try done.
    + intros e0. cbn. rewrite lookup_insert_is_Some. destruct (decide (nodes ve = e0)) as [<-|]; [rewrite Hdn|]; naive_solver.
    + intros e0 Hne. change (ao_of m1 e0 = ao_of (mem s) e0 /\ wo_of m1 e0 = wo_of (mem s) e0).
      unfold m1. rewrite ao_of_put, wo_of_put, !decide_False by done. done.
    + apply Hsome. change (ao_of m1 (nodes ve) = Some (p, 1)). unfold m1. by rewrite ao_of_put, decide_True.
    + change (is_Some (wo_of m1 (nodes ve)) <-> wo_enabled cfg s /\ true = true). unfold m1. rewrite wo_of_put, decide_True by done.
      cbn. rewrite Hw. unfold wo_enabled. rewrite Hen. split; [by intros [? ?]|by intros [? _]].
    + by apply put_info_deqs.
    + apply put_info_wheel. eapply wheel_inv_frame; [exact F1|apply I].
Qed.

Definition admitted_counters c (w : Z) : EvictionCounters :=
  mkCounters (ec_entry_count c + 1) (saturating_add 64 (ec_weighted_size c) w) (ec_eviction_count c).

(** An entry that is alive and not yet admitted is; a retired one is left alone. *)
Lemma handle_admit_spec s c ve w ei :
  good [] s c -> ent_wf (mem s) ve -> infos (mem s) !! info ve = Some ei ->
  (is_retired ei = false -> is_admitted ei = false) -> 0 <= w -> ec_entry_count c + 1 <= U64_MAX ->
  runs 1 w [] s c (handle_admit cfg s ve w c).
Proof.
  intros (Hws & P & Q & B & I) Hve He Hna Hw Hec. unfold handle_admit. rewrite (get_info_ok _ _ _ He). cbn [mbind res_bind].
  unfold is_alive. rewrite negb_involutive. destruct (is_retired ei) eqn:Hr.
  - eexists s, c. split; [done|]. split; [split; [done|eauto]|].
    eapply evolves_weaken; [| |apply evolves_refl]; lia.
  - rewrite Hna by done. cbn [negb assert_that mbind res_bind]. unfold counters_saturating_add.
    rewrite checked_add_ok by done. cbn [mbind res_bind]. fold (admitted_counters c w).
    destruct (update_timer_wheel_step _ _ _ _ _ _ I Hve) as (m' & tw' & B' & E & I' & Hve' & Hi & Ev).
    rewrite E. cbn [mbind res_bind]. rewrite <- Hi in He. specialize (Ev c).
    change m' with (mem (with_wheel s m' tw')) in He, Hve'. set (s1 := with_wheel s m' tw') in *. clearbody s1.
    destruct (ent_nodes cfg _ _ _ _ _ _ _ I' Hve') as [dn Hdn].
    destruct (link_both _ _ _ _ _ _ _ _ I' Hve' He (Hna eq_refl) Hdn) as (m1 & ds1 & m2 & ds2 & P' & Q' & E1 & E2 & Hi2 & I2).
    rewrite E1. cbn [mbind res_bind]. rewrite E2. cbn [mbind res_bind].
    unfold ve_set_admitted, get_info. rewrite Hi2, He. cbn [expect_some mbind res_bind].
    eexists _, _. split; [reflexivity|]. split; [split; [cbn; unfold saturating_add; lia|cbn; eauto]|].
    eapply evolves_weaken; [| |eapply evolves_trans; [exact Ev|]]. 3: { instantiate (1 := w). instantiate (1 := 1).
      split; cbn; try (done || (unfold saturating_add; lia)).
      - transitivity m2; [by apply mem_le_infos|]. apply mem_le_put with ei; [congruence|done|done].
      - transitivity m2; [by apply same_view_infos|]. apply same_view_put with ei; [congruence|done].
      - by apply notified_same. }
    all: lia.
Qed.
End remove.
Arguments rm_run {K V _ _ cfg O s c key cond cause ve s1 s2} _.
Arguments rm_notify {K V _ _ cfg O s c key cond cause ve s1 s2} _.
Arguments rm_mem {K V _ _ cfg O s c key cond cause ve s1 s2} _.
Arguments rm_retired {K V _ _ cfg O s c key cond cause ve s1 s2} _.
Arguments rm_evicted {K V _ _ cfg O s c key cond cause ve s1 s2} _.
Arguments rm_evolves {K V _ _ cfg O s c key cond cause ve s1 s2} _.
Arguments rm_cond {K V _ _ cfg O s c key cond cause ve s1 s2} _.
Arguments rm_good {K V _ _ cfg O s c key cond cause ve s1 s2} _.
