(* ===== verification/Admission.v ===== *)
(** TinyLFU admission and the application of the logs: [admit], [handle_upsert],
    [apply_writes] and [apply_reads] of src/sync/base_cache.rs terminate, do not
    fault and keep the invariant. *)
From S2P Require Import Prelude Common FrequencySketch Deque Time EntryInfo Concurrent Deques.
From S2P Require Import TimerWheel Policy Invalidator Inner InnerInv InnerRemove.

Section admission.
Context {K V : Type} `{Countable K}.
Variable cfg : Config K V.
Implicit Types (s : Inner K V) (c : EvictionCounters) (ve : ValueEntry V) (m : Mem K) (e : eid)
  (P Q O : list ptr) (B : buckets) (victims candidate : EntrySizeAndFrequency)
  (keys : list (KeyHash K * option Instant)).

(** ** What the admission loop adds up *)

Definition weight_of s (k : K) : Z :=
  match cache s !! k with
  | Some ve => match infos (mem s) !! info ve with Some ei => policy_weight ei | None => 0 end
  | None => 0
  end.
Definition total_weight s keys : Z := foldr (fun v a => weight_of s (kh_key v.1) + a) 0 keys.
Definition total_freq s keys : Z := foldr (fun v a => estimate (frequency_sketch s) (kh_hash v.1) + a) 0 keys.

Lemma total_snoc s keys v :
  total_weight s (keys ++ [v]) = total_weight s keys + weight_of s (kh_key v.1) /\
  total_freq s (keys ++ [v]) = total_freq s keys + estimate (frequency_sketch s) (kh_hash v.1).
Proof. unfold total_weight, total_freq. rewrite !foldr_app. cbn. split; induction keys as [|x keys IH]; cbn; lia. Qed.

(** Two states that differ in the order of the queues only. *)
Definition reordered s s' : Prop :=
  cache s' = cache s /\ infos (mem s') = infos (mem s) /\ frequency_sketch s' = frequency_sketch s.

Lemma reordered_totals s s' keys :
  reordered s s' -> total_weight s' keys = total_weight s keys /\ total_freq s' keys = total_freq s keys.
Proof.
  intros (Hc & Hi & Hf). unfold total_weight, total_freq, weight_of. rewrite Hc, Hi, Hf. done.
Qed.

Lemma moved_to_back_mid (pre rest : list ptr) p :
  NoDup (pre ++ p :: rest) -> rest <> [] -> moved_to_back p (pre ++ p :: rest) = pre ++ rest ++ [p].
Proof.
  intros Hnd Hr. unfold moved_to_back. rewrite decide_False.
  - rewrite list_remove_split by done. by rewrite <- app_assoc.
  - intros Hl. destruct (exists_last Hr) as (r & x & ->). rewrite app_comm_cons, app_assoc, last_snoc in Hl.
    injection Hl as ->. apply NoDup_app in Hnd as (_ & _ & Hnd). apply NoDup_cons in Hnd as [Hn _].
    apply Hn, elem_of_app. right. by apply list_elem_of_singleton.
Qed.

(** A node of the probation queue: its entry, the next node, and its move to the back. *)
Lemma probation_node s pre p rest Q B O ec :
  inv cfg s (pre ++ p :: rest) Q B O ec ->
  exists n ei, deref (kheap (mem s)) p = Ok n /\ next n = list.head rest /\
    infos (mem s) !! khd_entry_info (element n) = Some ei /\ entry_at (kheap (mem s)) p = Some (khd_entry_info (element n)) /\
    exists h d, move_to_back (kheap (mem s)) (probation (deques s)) p = Ok (h, d) /\
      (forall q, entry_at h q = entry_at (kheap (mem s)) q) /\
      let s' := with_deques s (with_kheap (mem s) h) (set_probation (deques s) d) in
      inv cfg s' (moved_to_back p (pre ++ p :: rest)) Q B O ec /\ reordered s s' /\ forall c, evolves 0 0 s c s' c.
Proof.
  intros I. pose proof (i_deqs I) as D. destruct (repr_split _ _ _ _ _ (di_prob _ _ _ _ D)) as (_ & _ & x & Hx).
  assert (Hin : p ∈ pre ++ p :: rest) by (apply elem_of_app; right; left).
  assert (Hat : entry_at (kheap (mem s)) p = Some (khd_entry_info x)) by (unfold entry_at; by rewrite Hx).
  assert (Hao : ao_of (mem s) (khd_entry_info x) = Some (p, 1)).
  { apply (di_ao_ptr _ _ _ _ D). done. }
  assert (Hdn : is_Some (dnodes (mem s) !! khd_entry_info x)).
  { unfold ao_of in Hao. destruct (dnodes (mem s) !! khd_entry_info x); [eauto|done]. }
  apply (i_nodes I) in Hdn as [ei He].
  exists (mkNode (list.head rest) (last pre) x), ei. split; [by apply deref_ok|]. do 3 (split; [done|]).
  destruct (move_ao_node _ _ _ _ _ _ D Hao) as (h & d & E & _ & D' & Hsame). exists h, d. do 2 (split; [done|]).
  destruct (relinked_step cfg s _ Q B O ec (moved_to_back p (pre ++ p :: rest)) Q
    (Ok (with_kheap (mem s) h, set_probation (deques s) d)) I) as (h' & ds' & [= <- <-] & I' & Ev).
  - exists h, (set_probation (deques s) d). done.
  - apply (touched_length (Some p)); [apply (repr_nodup _ _ _ (di_prob _ _ _ _ D))|]. by intros q [= <-].
  - split; [exact I'|]. done.
Qed.

Lemma weight_of_range s P Q B O ec k : inv cfg s P Q B O ec -> 0 <= weight_of s k <= U32_MAX.
Proof.
  intros I. unfold weight_of. destruct (cache s !! k) as [ve|]; [|done].
  destruct (infos (mem s) !! info ve) eqn:E; [|done]. apply (i_wf I _ _ E).
Qed.

(** The candidate's weight and frequency, and the sums over the victims so far. *)
Definition candidate_ok candidate : Prop := 0 <= sf_policy_weight candidate <= U32_MAX /\ 0 <= sf_freq candidate <= 15.
Definition sums s victims keys : Prop :=
  sf_policy_weight victims = total_weight s keys /\ sf_freq victims = total_freq s keys.

(** ** Which entries the loop takes *)

(** An entry of the queue can be a victim when no write to it is pending, it is not
    retired and its key is in the table. *)
Definition eligible s e : option (KeyHash K * option Instant) :=
  match infos (mem s) !! e with
  | Some ei =>
      if is_dirty ei || negb (is_alive ei) then None
      else match cache s !! kh_key (key_hash ei) with
           | Some _ => Some (key_hash ei, last_accessed ei)
           | None => None
           end
  | None => None
  end.
Notation victims_in s l := (omap (eligible s) l).

(** [keys] are the victims among the first [k] entries of the queue [order], in its
    order: before each of them the ones so far were too light and not used more often
    than the candidate, and never were six entries in a row passed over. *)
Definition scanned s candidate (order : list eid) keys (k : nat) : Prop :=
  keys = victims_in s (take k order) /\
  (forall e, order !! pred k = Some e -> k <> O -> eligible s e <> None) /\
  (forall ks v rest, keys = ks ++ v :: rest ->
    total_weight s ks < sf_policy_weight candidate /\ total_freq s ks <= sf_freq candidate) /\
  (forall i, (i + 6 <= k)%nat -> victims_in s (take 6 (drop i order)) <> []).

(** Where the loop stands: after the victims it passed over [skipped], still has
    [pend] before it, and then the entries it moved to the back. *)
Definition at_position s candidate (order : list eid) keys (retries : Z) (rest : list eid) : Prop :=
  exists k skipped pend moved, scanned s candidate order keys k /\ drop k order = skipped ++ pend /\ rest = pend ++ moved /\
    victims_in s skipped = [] /\ victims_in s moved = [] /\ (pend <> [] -> Z.of_nat (length skipped) = retries).

(** Where it stops: the victims are heavy enough or used too often, or the six
    entries (or fewer, at the end) that follow cannot be victims. *)
Definition chosen s candidate (order : list eid) keys : Prop :=
  exists k, scanned s candidate order keys k /\
    (sf_policy_weight candidate <= total_weight s keys \/ sf_freq candidate < total_freq s keys \/
     victims_in s (take 6 (drop k order)) = []).

Lemma position_start s candidate order : at_position s candidate order [] 0 order.
Proof.
  exists 0%nat, [], order, []. split; [|by rewrite app_nil_r]. split; [done|]. split; [by intros|]. split; [by intros [] ? ?|intros; lia].
Qed.

Lemma victims_nil s l l' : victims_in s (l ++ l') = [] -> victims_in s l = [].
Proof. rewrite omap_app. by intros [-> _]%app_eq_nil. Qed.

(** A window that ends with an entry the loop took holds a victim. *)
Lemma window_hit s (l : list eid) i k e :
  (i <= k < i + 6)%nat -> l !! k = Some e -> eligible s e <> None -> victims_in s (take 6 (drop i l)) <> [].
Proof.
  intros Hk He Hel Hn. apply Hel. destruct (eligible s e) as [v|] eqn:Ev; [exfalso|done].
  assert (Hin : v ∈ victims_in s (take 6 (drop i l))); [|rewrite Hn in Hin; by apply elem_of_nil in Hin].
  apply list_elem_of_omap. exists e. split; [|done]. apply list_elem_of_lookup. exists (k - i)%nat.
  rewrite lookup_take_lt by lia. rewrite lookup_drop. rewrite <- He. f_equal. lia.
Qed.

Lemma position_take s candidate order keys retries rest e v :
  at_position s candidate order keys retries (e :: rest) -> eligible s e = Some v -> retries <= 5 ->
  total_weight s keys < sf_policy_weight candidate -> total_freq s keys <= sf_freq candidate ->
  at_position s candidate order (keys ++ [v]) 0 rest.
Proof.
  intros (k & skipped & pend & moved & (Hk & Hl & Hm & Hg) & Hd & Hr & Hs & Hmv & Hlen) He Hret Hw Hf.
  destruct pend as [|e' pend].
  { cbn in Hr. subst moved. cbn in Hmv. by rewrite He in Hmv. }
  injection Hr as <- ->. specialize (Hlen ltac:(done)).
  assert (Ho : order = take k order ++ skipped ++ e :: pend) by (by rewrite <- Hd, take_drop).
  assert (Hkl : length (take k order) = k).
  { apply length_take_le. apply (f_equal length) in Hd. rewrite length_drop, length_app in Hd. cbn in Hd. lia. }
  set (k' := (k + length skipped)%nat).
  assert (Hek : order !! k' = Some e).
  { rewrite Ho. unfold k'. rewrite app_assoc, list_lookup_middle; [done|]. by rewrite length_app, Hkl. }
  assert (Ht : take (S k') order = take k order ++ skipped ++ [e]).
  { rewrite Ho at 1. replace (S k') with (length (take k order ++ skipped ++ [e])) by (rewrite !length_app, Hkl; cbn; unfold k'; lia).
    replace (take k order ++ skipped ++ e :: pend) with ((take k order ++ skipped ++ [e]) ++ pend) by (by rewrite <- !app_assoc).
    by rewrite take_app_length. }
  exists (S k'), [], pend, moved. split; [split; [|split; [|split]]|].
  - rewrite Ht, !omap_app, Hs, <- Hk. cbn. by rewrite He.
  - intros x. cbn [pred]. rewrite Hek. intros [= <-] _. by rewrite He.
  - intros ks x r E. destruct r as [|y r] using rev_ind.
    + apply app_inj_tail in E as [<- _]. done.
    + rewrite app_comm_cons, app_assoc in E. apply app_inj_tail in E as [E _]. by eapply Hm.
  - intros i Hi. destruct (decide (i + 6 <= k)%nat) as [|Hn]; [by apply Hg|].
    destruct (decide (k' < i + 6)%nat) as [Hlt|Hge]; [apply (window_hit s order i k' e); [lia|done|by rewrite He]|].
    assert (Hk0 : k <> O) by (unfold k' in *; lia). assert (Hp : (pred k < length order)%nat).
    { apply lookup_lt_Some in Hek. unfold k' in Hek. lia. }
    destruct (lookup_lt_is_Some_2 order (pred k) Hp) as [x Hx].
    apply (window_hit s order i (pred k) x); [unfold k' in *; lia|done|by apply Hl].
  - split; [|done]. cbn. apply (f_equal (drop (S (length skipped)))) in Hd. rewrite drop_drop in Hd.
    replace (k + S (length skipped))%nat with (S k') in Hd by (unfold k'; lia). rewrite Hd.
    rewrite cons_middle, app_assoc. replace (S (length skipped)) with (length (skipped ++ [e])) by (rewrite length_app; cbn; lia).
    by rewrite drop_app_length.
Qed.

Lemma position_skip s candidate order keys retries rest e :
  at_position s candidate order keys retries (e :: rest) -> eligible s e = None ->
  at_position s candidate order keys (retries + 1) (match rest with [] => [] | _ => rest ++ [e] end).
Proof.
  intros (k & skipped & pend & moved & Hsc & Hd & Hr & Hs & Hmv & Hlen) He.
  destruct pend as [|e' pend].
  - cbn in Hr. subst moved. cbn in Hmv. rewrite He in Hmv. exists k, skipped, [], (match rest with [] => [] | _ => rest ++ [e] end).
    do 4 (split; [done|]). split; [|done]. destruct rest; [done|]. rewrite omap_app, Hmv. cbn. by rewrite He.
  - injection Hr as <- ->. specialize (Hlen ltac:(done)).
    exists k, (skipped ++ [e]), pend, (match pend ++ moved with [] => [] | _ => moved ++ [e] end).
    split; [done|]. split; [by rewrite <- app_assoc|]. split.
    { destruct pend as [|x pend]; cbn; [by destruct moved|]. by rewrite <- app_assoc. }
    split; [rewrite omap_app, Hs; cbn; by rewrite He|]. split; [|rewrite length_app; cbn; lia].
    destruct (pend ++ moved); [done|]. rewrite omap_app, Hmv. cbn. by rewrite He.
Qed.

Lemma position_end s candidate order keys retries rest :
  at_position s candidate order keys retries rest -> retries = 6 \/ rest = [] -> chosen s candidate order keys.
Proof.
  intros (k & skipped & pend & moved & Hsc & Hd & Hr & Hs & _ & Hlen) Hend. exists k. split; [done|]. do 2 right.
  rewrite Hd. destruct pend as [|e pend].
  - rewrite app_nil_r. apply (victims_nil _ _ (drop 6 skipped)). by rewrite take_drop.
  - destruct Hend as [E6|E0]; [subst retries|by subst rest]. specialize (Hlen ltac:(done)).
    rewrite take_app_le by lia. apply (victims_nil _ _ (drop 6 skipped)). by rewrite take_drop.
Qed.

(** The queue and the candidate decide the victims. *)
Lemma chosen_unique s candidate order keys keys' :
  chosen s candidate order keys -> chosen s candidate order keys' -> keys = keys'.
Proof.
  assert (Hone : forall ks1 ks2 k1 k2, (k1 <= k2)%nat -> scanned s candidate order ks1 k1 -> scanned s candidate order ks2 k2 ->
    sf_policy_weight candidate <= total_weight s ks1 \/ sf_freq candidate < total_freq s ks1 \/
      victims_in s (take 6 (drop k1 order)) = [] -> ks1 = ks2).
  { intros ks1 ks2 k1 k2 Hk (E1 & _) (E2 & _ & Hm & Hg) Hstop.
    assert (Hs : ks2 = ks1 ++ victims_in s (take (k2 - k1) (drop k1 order))).
    { rewrite E1, E2, <- omap_app. f_equal. rewrite take_take_drop. f_equal. lia. }
    destruct (victims_in s (take (k2 - k1) (drop k1 order))) as [|v l] eqn:El; [by rewrite Hs, app_nil_r|].
    destruct (Hm _ _ _ Hs) as [Hw Hf]. destruct Hstop as [?|[?|Hgap]]; [lia|lia|]. exfalso.
    destruct (decide (k1 + 6 <= k2)%nat) as [Hle|Hlt]; [by apply (Hg k1 Hle)|].
    assert (Hnil : victims_in s (take (k2 - k1) (drop k1 order)) = []); [|congruence].
    apply (victims_nil _ _ (drop (k2 - k1) (take 6 (drop k1 order)))). rewrite <- Hgap. f_equal.
    rewrite <- (take_drop (k2 - k1) (take 6 (drop k1 order))) at 2. f_equal. rewrite take_take. f_equal. lia. }
  intros (k & S1 & H1) (k' & S2 & H2). destruct (decide (k <= k')%nat); [by eapply Hone|]. symmetry. eapply Hone; [|done..]. lia.
Qed.

(** ** The loop *)

Definition admit_result s candidate (order : list eid) Q B ec
    (out : res (Inner K V * EntrySizeAndFrequency * list (KeyHash K * option Instant))) : Prop :=
  exists s' victims' keys' P', out = Ok (s', victims', keys') /\ inv cfg s' P' Q B [] ec /\ reordered s s' /\
    (forall c, evolves 0 0 s c s' c) /\ sums s victims' keys' /\ chosen s candidate order keys'.

Lemma admit_result_reordered s h ds candidate order Q B ec out :
  let s' := with_deques s (with_kheap (mem s) h) ds in
  (forall c, evolves 0 0 s c s' c) -> admit_result s' candidate order Q B ec out -> admit_result s candidate order Q B ec out.
Proof.
  intros s' Ev (s2 & v & ks & P' & -> & I & R2 & Ev2 & Hs & Hch). exists s2, v, ks, P'. do 3 (split; [done|]).
  split; [|exact (conj Hs Hch)]. intros c. exact (evolves_trans _ _ _ _ _ _ _ _ _ _ (Ev c) (Ev2 c)).
Qed.

(** Whatever the loop meets, it ends: a node it takes is never met again, and it
    skips no more than six in a row. *)
Lemma admit_loop_spec fuel candidate order : candidate_ok candidate ->
  forall s retries victims keys pre rest Q B ec,
  inv cfg s (pre ++ rest) Q B [] ec -> 0 <= retries <= 6 -> sums s victims keys ->
  at_position s candidate order keys retries (queue (mem s) rest) ->
  (7 * length rest + Z.to_nat (6 - retries) <= fuel)%nat ->
  admit_result s candidate order Q B ec (admit_loop fuel candidate s retries victims keys (list.head rest)).
Proof.
  intros [Hcw Hcf]. induction fuel as [|fuel IH]; intros s retries victims keys pre rest Q B ec I Hr Hs Hat Hf.
  all: assert (Hstop : chosen s candidate order keys -> admit_result s candidate order Q B ec (Ok (s, victims, keys)))
    by (intros; exists s, victims, keys, (pre ++ rest); do 2 (split; [done|]); split; [done|]; split; [apply evolves_refl|done]).
  all: assert (Hsc : exists k, scanned s candidate order keys k) by (destruct Hat as (k & ? & ? & ? & ? & _); eauto).
  all: cbn [admit_loop]; destruct Hsc as [k Hsc]; destruct Hs as [Sw Sf];
    destruct (Z.ltb_spec (sf_policy_weight victims) (sf_policy_weight candidate)) as [Hw|Hw]; [|apply Hstop; exists k; split; [done|lia]];
    destruct (Z.leb_spec (sf_freq victims) (sf_freq candidate)) as [Hq|Hq]; [|apply Hstop; exists k; split; [done|lia]];
    destruct (Z.leb_spec retries MAX_CONSECUTIVE_RETRIES) as [Hm|Hm]; unfold MAX_CONSECUTIVE_RETRIES in Hm;
    [|apply Hstop; eapply position_end; [exact Hat|left; lia]]; cbn [andb];
    (destruct rest as [|x rest]; [apply Hstop; eapply position_end; [exact Hat|by right]|]); cbn [list.head].
  { cbn [length] in Hf. lia. }
  destruct (probation_node _ _ _ _ _ _ _ _ I) as (n & ei & Ed & Hnx & He & Hen & h & d & Em & Hsame & I' & R' & Ev').
  unfold next_node_ptr. rewrite Ed. cbn [mbind res_bind]. rewrite (get_info_ok _ _ _ He). cbn [mbind res_bind].
  rewrite Em. cbn [mbind res_bind]. rewrite Hnx. cbn [length] in Hf.
  assert (Hqx : queue (mem s) (x :: rest) = khd_entry_info (element n) :: queue (mem s) rest) by (unfold queue; cbn; by rewrite Hen).
  rewrite Hqx in Hat.
  assert (Hskip : eligible s (khd_entry_info (element n)) = None -> admit_result s candidate order Q B ec
    (admit_loop fuel candidate (with_deques s (with_kheap (mem s) h) (set_probation (deques s) d)) (retries + 1)
       victims keys (list.head rest))).
  { intros Hne. pose proof (position_skip _ _ _ _ _ _ _ Hat Hne) as Hat'. eapply admit_result_reordered; [exact Ev'|].
    assert (Hqs : forall l, queue (mem (with_deques s (with_kheap (mem s) h) (set_probation (deques s) d))) l = queue (mem s) l)
      by (intros l; by apply queue_ext).
    destruct rest as [|y rest].
    - apply (IH _ _ _ _ (moved_to_back x (pre ++ [x])) []); [by rewrite app_nil_r|lia|by split|exact Hat'|cbn; lia].
    - rewrite moved_to_back_mid in I'; [|apply (repr_nodup _ _ _ (di_prob _ _ _ _ (i_deqs I)))|done].
      apply (IH _ _ _ _ pre ((y :: rest) ++ [x])); [exact I'|lia|by split| |rewrite length_app; cbn in *; lia].
      rewrite Hqs. unfold queue in *. rewrite omap_app. cbn [omap list_omap]. rewrite Hen.
      assert (Hy : exists z, entry_at (kheap (mem s)) y = Some z).
      { apply entry_at_is_some. eapply dseg_lookup; [apply (repr_seg _ _ _ (di_prob _ _ _ _ (i_deqs I)))|].
        apply elem_of_app. right. right. left. }
      destruct Hy as [z Hy]. cbn [omap list_omap] in Hat'. rewrite Hy in *. exact Hat'. }
  unfold eligible in Hskip. rewrite He in Hskip.
  destruct (is_dirty ei || negb (is_alive ei)) eqn:Hdirty; [by apply Hskip|].
  unfold cht_get. destruct (cache s !! kh_key (key_hash ei)) as [vic|] eqn:Hc; [clear Hskip|by apply Hskip].
  destruct (i_cache I _ _ Hc) as (_ & vei & Hvei & _). rewrite (get_info_ok _ _ _ Hvei). cbn [mbind res_bind].
  pose proof (i_wf I _ _ Hvei) as [_ _ _ Hvw].
  unfold add_policy_weight. rewrite checked_add_ok by (unfold U32_MAX in *; lia). cbn [mbind res_bind].
  unfold add_frequency. destruct (frequency_ok (frequency_sketch s) (kh_hash (key_hash ei)) (proj1 (proj1 (i_sketch I)))) as [-> Hfr].
  cbn [mbind res_bind sf_freq sf_policy_weight]. rewrite checked_add_ok by (cbn; lia). cbn [mbind res_bind].
  apply (IH _ _ _ _ (pre ++ [x]) rest); [by rewrite <- app_assoc|lia| | |lia].
  - destruct (total_snoc s keys (key_hash ei, last_accessed ei)) as [Hw' Hf'].
    split; cbn [sf_policy_weight sf_freq]; [rewrite Sw, Hw'|by rewrite Sf, Hf']. unfold weight_of. cbn. by rewrite Hc, Hvei.
  - eapply position_take; [exact Hat| |lia|lia|lia]. unfold eligible. by rewrite He, Hdirty, Hc.
Qed.

Lemma admit_candidate_spec s P Q B ec candidate :
  inv cfg s P Q B [] ec -> candidate_ok candidate ->
  exists s' keys P', admit_candidate s candidate = Ok (s',
      if (sf_policy_weight candidate <=? total_weight s keys) && (total_freq s keys <? sf_freq candidate)
      then AdmitCandidate keys else RejectCandidate) /\
    inv cfg s' P' Q B [] ec /\ reordered s s' /\ (forall c, evolves 0 0 s c s' c) /\ chosen s candidate (queue (mem s) P) keys.
Proof.
  intros I Hc. pose proof (repr_head _ _ _ (di_prob _ _ _ _ (i_deqs I))) as Hh.
  destruct (admit_loop_spec (admit_fuel s) candidate (queue (mem s) P) Hc s 0 (mkSizeFreq 0 0) [] [] P Q B ec I)
    as (s' & v & keys & P' & E & I' & R & Ev & [Hw Hf] & Hch); [done|done|apply position_start| |].
  - unfold admit_fuel. rewrite (repr_len _ _ _ (di_prob _ _ _ _ (i_deqs I))). lia.
  - unfold admit_candidate, peek_front_ptr. rewrite Hh, E. cbn [mbind res_bind]. exists s', keys, P'. rewrite Hw, Hf. done.
Qed.

(** ** Handlers that keep the eviction state *)

Definition runs_es dn dw s es (out : res (Inner K V * EvictionState)) : Prop :=
  exists s' es', out = Ok (s', es') /\ good cfg [] s' (counters es') /\
    evolves dn dw s (counters es) s' (counters es').

Lemma runs_es_bind dn dw dn' dw' s es out f :
  runs_es dn dw s es out ->
  (forall s' es', good cfg [] s' (counters es') -> evolves dn dw s (counters es) s' (counters es') ->
     runs_es dn' dw' s' es' (f (s', es'))) ->
  runs_es (dn + dn') (dw + dw') s es (out ≫= f).
Proof.
  intros (s1 & es1 & -> & G1 & E1) Hf. destruct (Hf s1 es1 G1 E1) as (s2 & es2 & E2 & G2 & Ev2).
  exists s2, es2. split; [done|]. split; [done|]. by eapply evolves_trans.
Qed.

(** A handler of the counters inside one of the eviction state. *)
Lemma runs_counters dn dw s es out :
  runs cfg dn dw [] s (counters es) out ->
  runs_es dn dw s es ('(s', c) ← out; Ok (s', with_counters es c)).
Proof. intros (s' & c' & -> & G & Ev). cbn. eexists _, _. split; [reflexivity|]. done. Qed.

Lemma runs_es_trans dn dw dn' dw' s es s1 es1 out :
  evolves dn dw s (counters es) s1 (counters es1) -> runs_es dn' dw' s1 es1 out ->
  runs_es (dn + dn') (dw + dw') s es out.
Proof. intros Ev (s' & es' & -> & G & Ev'). eexists _, _. split; [reflexivity|]. split; [done|]. by eapply evolves_trans. Qed.

Lemma runs_es_weaken dn dw dn' dw' s es out :
  dn <= dn' -> dw <= dw' -> runs_es dn dw s es out -> runs_es dn' dw' s es out.
Proof. intros Hn Hw (s' & es' & E & G & Ev). exists s', es'. do 2 (split; [done|]). by eapply evolves_weaken. Qed.

Lemma runs_es_done s es : good cfg [] s (counters es) -> runs_es 0 0 s es (Ok (s, es)).
Proof. intros G. exists s, es. split; [done|]. split; [done|]. apply evolves_refl. Qed.

(** The front of the probation queue. *)
Lemma probation_front s P Q B O ec :
  inv cfg s P Q B O ec ->
  (P = [] /\ peek_front (kheap (mem s)) (probation (deques s)) = Ok None /\
   move_front_to_back (kheap (mem s)) (probation (deques s)) = Ok (kheap (mem s), probation (deques s))) \/
  exists n ei h d, peek_front (kheap (mem s)) (probation (deques s)) = Ok (Some n) /\
    infos (mem s) !! khd_entry_info (element n) = Some ei /\
    move_front_to_back (kheap (mem s)) (probation (deques s)) = Ok (h, d) /\
    let s' := with_deques s (with_kheap (mem s) h) (set_probation (deques s) d) in
    (exists P', inv cfg s' P' Q B O ec) /\ forall c, evolves 0 0 s c s' c.
Proof.
  intros I. pose proof (repr_head _ _ _ (di_prob _ _ _ _ (i_deqs I))) as Hh.
  unfold peek_front, move_front_to_back. rewrite Hh. destruct P as [|p rest]; [by left|]. right.
  destruct (probation_node s [] p rest _ _ _ _ I) as (n & ei & Ed & _ & He & _ & h & d & Em & _ & I' & _ & Ev).
  exists n, ei, h, d. cbn [list.head]. rewrite Ed. cbn [mbind res_bind]. do 3 (split; [done|]). split; [eauto|done].
Qed.

Lemma remove_victim_spec s es vic :
  good cfg [] s (counters es) -> runs_es 0 0 s es (remove_victim (s, es) vic).
Proof.
  intros G. destruct vic as [kh la]. unfold remove_victim.
  destruct (remove_notify cfg [] s (counters es) (kh_key kh) (fun _ ei => bool_decide (last_accessed ei = la)) CauseSize G)
    as [->|(ve & s1 & s2 & R)]; cbn [mbind res_bind].
  - destruct G as (Hws & P & Q & B & I). destruct (probation_front _ _ _ _ _ _ I) as
      [(_ & -> & _)|(n & ei & h & d & -> & He & Em & [P' I'] & Ev)]; cbn [mbind res_bind].
    + apply runs_es_done. split; [done|eauto].
    + unfold khd_key, khd_hash. rewrite (get_info_ok _ _ _ He). cbn [mbind res_bind]. rewrite Em. cbn [mbind res_bind].
      destruct (_ && _); [|apply runs_es_done; split; [done|eauto]].
      eexists _, es. split; [reflexivity|]. split; [split; [done|eauto]|done].
  - rewrite (rm_run R). cbn [mbind res_bind]. rewrite (rm_notify R). cbn [mbind res_bind].
    apply (runs_es_trans 0 0 0 0 s es s2 (with_counters es (incr_eviction_count (counters es)))); [apply R|].
    destruct (rm_retired R) as (ei & He & Hr & _).
    apply (runs_counters 0 0 s2 (with_counters es (incr_eviction_count (counters es)))).
    eapply handle_remove_spec; try done; [apply good_incr, R|apply R].
Qed.

(** ** Applying a write *)

Lemma good_count O s c : good cfg O s c -> 0 <= ec_entry_count c.
Proof. intros (_ & P & Q & B & I). rewrite (i_count I). lia. Qed.

(** Acknowledging the write at the end of a handler. *)
Lemma runs_ack dn dw s es s1 es1 ve gen :
  good cfg [] s1 (counters es1) -> evolves dn dw s (counters es) s1 (counters es1) ->
  ent_wf (mem s) ve -> 0 <= gen <= U16_MAX ->
  runs_es dn dw s es (m ← ve_set_policy_gen (mem s1) ve gen; Ok (with_mem s1 m, es1)).
Proof.
  intros (Hws & P & Q & B & I) Ev Hve Hg.
  destruct (set_policy_gen_step cfg _ _ _ _ _ _ _ _ I (ent_wf_le _ _ _ (ev_mem Ev) Hve) Hg) as (m' & -> & I' & Ev').
  cbn. eexists _, _. split; [reflexivity|]. split; [split; [done|eauto]|].
  replace dn with (dn + 0) by lia. replace dw with (dw + 0) by lia. eapply evolves_trans; [exact Ev|apply Ev'].
Qed.

(** An update of an admitted entry: its weight changes, and it goes to the back
    of both queues. *)
Definition updated_counters c (old_weight new_weight : Z) : EvictionCounters :=
  mkCounters (ec_entry_count c) (saturating_add 64 (saturating_sub (ec_weighted_size c) old_weight) new_weight)
    (ec_eviction_count c).

Lemma update_admitted s es ve gen ow nw :
  good cfg [] s (counters es) -> ent_wf (mem s) ve -> 0 <= gen <= U16_MAX -> 0 <= ow -> 0 <= nw ->
  runs_es 0 nw s es
    (s ← update_timer_wheel s ve;
     '(m, ds) ← move_to_back_ao (mem s) (deques s) ve;
     '(m, ds) ← move_to_back_wo m ds ve;
     m ← ve_set_policy_gen m ve gen;
     Ok (with_deques s m ds, with_counters es (updated_counters (counters es) ow nw))).
Proof.
  intros (Hws & P & Q & B & I) Hve Hg How Hnw.
  destruct (update_timer_wheel_step cfg _ _ _ _ _ _ I Hve) as (m' & tw' & B' & -> & I1 & Hve1 & _ & Ev1).
  cbn [mbind res_bind]. change m' with (mem (with_wheel s m' tw')) in Hve1.
  set (s1 := with_wheel s m' tw') in *. clearbody s1. clear I B m' tw'.
  assert (Hn1 : is_Some (dnodes (mem s1) !! nodes ve)).
  { rewrite (proj1 Hve1). destruct (ent_nodes cfg _ _ _ _ _ _ _ I1 Hve1) as [dn ->]. eauto. }
  destruct (relinked_step cfg _ _ _ _ _ _ _ _ _ I1 (move_to_back_ao_spec _ _ _ _ _ (i_deqs I1) Hn1)
    (ao_touched_length cfg _ _ _ _ _ _ _ I1)) as (h2 & ds2 & -> & I2 & Ev2). cbn [mbind res_bind].
  set (s2 := with_deques s1 (with_kheap (mem s1) h2) ds2) in *.
  destruct (relinked_step cfg s2 _ _ _ _ _ _ _ _ I2 (move_to_back_wo_spec _ _ _ _ _ (i_deqs I2) Hn1) eq_refl)
    as (h3 & ds3 & E3 & I3 & Ev3). cbn [mem s2 deques with_deques] in E3. rewrite E3. cbn [mbind res_bind].
  set (s3 := with_deques s2 (with_kheap (mem s2) h3) ds3) in *.
  assert (Ev13 : evolves 0 0 s (counters es) s3 (counters es)).
  { eapply (evolves_trans 0 0 0 0); [apply Ev1|]. eapply (evolves_trans 0 0 0 0); [apply Ev2|apply Ev3]. }
  refine (runs_ack 0 nw s es s3 (with_counters es (updated_counters (counters es) ow nw)) ve gen _ _ Hve Hg).
  - split; [cbn; unfold saturating_add, saturating_sub; lia|]. cbn. eauto.
  - destruct Ev13. split; try done; cbn; unfold saturating_add, saturating_sub; lia.
Qed.

Lemma notify_commutes s m key ve cause s2 :
  notify_if_enabled s key ve cause = Ok s2 ->
  notify_if_enabled (with_mem s m) key ve cause = Ok (with_mem s2 m).
Proof.
  unfold notify_if_enabled, notify_entry_removal, is_removal_notifier_enabled. cbn.
  destruct (removal_notifier s); cbn; intros [= <-]; done.
Qed.

Notation evicted es := (with_counters es (incr_eviction_count (counters es))).

(** A candidate that can never fit leaves the table again. *)
Lemma reject_oversized s es key cond ve gen :
  good cfg [] s (counters es) -> ent_wf (mem s) ve -> 0 <= gen <= U16_MAX ->
  runs_es 0 0 s es
    ('(s, removed) ← cht_remove_if_and_retire s key cond;
     '(s, es) ← match removed with
                | Some entry => s ← notify_if_enabled s key entry CauseSize; Ok (s, evicted es)
                | None => Ok (s, es)
                end;
     m ← ve_set_policy_gen (mem s) ve gen;
     Ok (with_mem s m, es)).
Proof.
  intros G Hve Hg. destruct (remove_notify cfg [] s (counters es) key cond CauseSize G) as [->|(x & s1 & s2 & R)];
    cbn [mbind res_bind].
  - apply runs_ack; try done. apply evolves_refl.
  - rewrite (rm_run R). cbn [mbind res_bind]. rewrite (rm_notify R). cbn [mbind res_bind].
    apply runs_ack; try done; [apply good_incr, R|apply R].
Qed.

Lemma reject_candidate s es key cond gen :
  good cfg [] s (counters es) -> 0 <= gen <= U16_MAX ->
  runs_es 0 0 s es
    ('(s, removed) ← cht_remove_if_and_retire s key cond;
     match removed with
     | Some entry =>
         m ← ve_set_policy_gen (mem s) entry gen;
         s ← notify_if_enabled (with_mem s m) key entry CauseSize;
         Ok (s, evicted es)
     | None => Ok (s, es)
     end).
Proof.
  intros G Hg. destruct (remove_notify cfg [] s (counters es) key cond CauseSize G) as [->|(x & s1 & s2 & R)];
    cbn [mbind res_bind].
  - by apply runs_es_done.
  - rewrite (rm_run R). cbn [mbind res_bind].
    destruct (runs_ack 0 0 s2 (evicted es) s2 (evicted es) x gen) as (s3 & es3 & E3 & G3 & Ev3);
      [apply good_incr, R|apply evolves_refl|apply R|done|].
    rewrite (rm_mem R) in E3. destruct (ve_set_policy_gen (mem s1) x gen) as [m|]; [|done].
    cbn [mbind res_bind] in *. injection E3 as <- <-.
    rewrite (notify_commutes _ m _ _ _ _ (rm_notify R)). cbn [mbind res_bind].
    eexists _, _. split; [reflexivity|]. split; [done|]. exact (evolves_trans 0 0 0 0 _ _ _ _ _ _ (rm_evicted R) Ev3).
Qed.

(** Removing the victims of an admitted candidate. *)
Lemma remove_victims_spec s es keys :
  good cfg [] s (counters es) -> runs_es 0 0 s es (foldM remove_victim (s, es) keys).
Proof.
  intros G. destruct (foldM_inv (fun a => good cfg [] a.1 (counters a.2) /\ evolves 0 0 s (counters es) a.1 (counters a.2))
    remove_victim keys (s, es)) as ([s' es'] & -> & G' & Ev').
  - split; [done|apply evolves_refl].
  - intros [s1 es1] v _ [G1 Ev1]. destruct (remove_victim_spec s1 es1 v G1) as (s2 & es2 & -> & G2 & Ev2).
    eexists. split; [reflexivity|]. split; [done|]. exact (evolves_trans 0 0 0 0 _ _ _ _ _ _ Ev1 Ev2).
  - exists s', es'. done.
Qed.

Lemma admit_and_ack s es ve gen nw ei :
  good cfg [] s (counters es) -> ent_wf (mem s) ve -> infos (mem s) !! info ve = Some ei -> is_admitted ei = false ->
  0 <= gen <= U16_MAX -> 0 <= nw -> ec_entry_count (counters es) + 1 <= U64_MAX ->
  runs_es 1 nw s es
    ('(s, c) ← handle_admit cfg s ve nw (counters es);
     m ← ve_set_policy_gen (mem s) ve gen;
     Ok (with_mem s m, with_counters es c)).
Proof.
  intros G Hve He Ha Hg Hw Hec.
  destruct (handle_admit_spec cfg s (counters es) ve nw ei) as (s1 & c1 & -> & G1 & Ev1); try done.
  cbn [mbind res_bind]. by apply (runs_ack 1 nw s es s1 (with_counters es c1)).
Qed.

(** The victims chosen for a candidate, under either policy. *)
Lemma choose_victims s es (kh : KeyHash K) nw :
  good cfg [] s (counters es) -> 0 <= nw <= U32_MAX ->
  exists s1 r, match eviction_policy cfg with
               | TinyLfu =>
                   candidate ← add_frequency (new_size_freq nw) (frequency_sketch s) (kh_hash kh);
                   admit_candidate s candidate
               | Lru => Ok (s, AdmitCandidate [])
               end = Ok (s1, r) /\
    good cfg [] s1 (counters es) /\ evolves 0 0 s (counters es) s1 (counters es).
Proof.
  intros G Hw. destruct (eviction_policy cfg).
  - destruct G as (Hws & P & Q & B & I).
    destruct (frequency_ok (frequency_sketch s) (kh_hash kh) (proj1 (proj1 (i_sketch I)))) as [Ef Hf].
    unfold add_frequency. rewrite Ef. cbn [mbind res_bind new_size_freq sf_freq].
    rewrite checked_add_ok by (cbn; lia). cbn [mbind res_bind].
    destruct (admit_candidate_spec s P Q B _ (mkSizeFreq (sf_policy_weight (new_size_freq nw))
      (0 + estimate (frequency_sketch s) (kh_hash kh))) I) as (s1 & keys & P' & E & I' & _ & Ev & _).
    { split; cbn; [done|lia]. }
    exists s1. eexists. rewrite E. split; [done|]. split; [split; [done|eauto]|done].
  - exists s, (AdmitCandidate []). split; [done|]. split; [done|apply evolves_refl].
Qed.

Lemma handle_upsert_spec s es kh ve gen ow nw :
  good cfg [] s (counters es) -> write_wf (mem s) (Upsert kh ve gen ow nw) ->
  ec_entry_count (counters es) + 1 <= U64_MAX -> ec_weighted_size (counters es) + nw <= U64_MAX ->
  runs_es 1 nw s es (handle_upsert cfg s kh ve gen ow nw es).
Proof.
  intros G (Hve & (Hg & How & Hnw) & _) Hec Hws. destruct (ent_info _ _ Hve) as (ei & He & Eg).
  pose proof (good_count _ _ _ G) as Hc0. unfold handle_upsert. rewrite Eg. cbn [mbind res_bind].
  destruct (negb (is_alive ei)).
  { eapply runs_es_weaken; [| |apply (runs_ack 0 0); try done; apply evolves_refl]; lia. }
  destruct (is_admitted ei) eqn:Ha.
  { unfold counters_saturating_sub, counters_saturating_add. rewrite checked_sub_ok by done. cbn [mbind res_bind].
    rewrite checked_add_ok by (cbn; unfold U64_MAX in *; lia). cbn [mbind res_bind ec_weighted_size ec_eviction_count ec_entry_count].
    replace (ec_entry_count (counters es) - 0 + 0) with (ec_entry_count (counters es)) by lia.
    fold (updated_counters (counters es) ow nw).
    eapply runs_es_weaken; [| |apply (update_admitted s es ve gen ow nw); try done]; lia. }
  assert (Henough : exists b, has_enough_capacity cfg nw (counters es) = Ok b).
  { unfold has_enough_capacity. destruct (max_capacity cfg); [|eauto]. rewrite checked_add_ok by done. cbn. eauto. }
  destruct Henough as [b ->]. cbn [mbind res_bind]. destruct b; [apply (admit_and_ack s es ve gen nw ei); (done || lia)|].
  destruct (match max_capacity cfg with Some max => max <? nw | None => false end).
  { eapply runs_es_weaken; [| |by apply reject_oversized]; lia. }
  destruct (choose_victims s es kh nw G Hnw) as (s1 & r & -> & G1 & Ev1). cbn [mbind res_bind].
  apply (runs_es_trans 0 0 1 nw s es s1 es); [done|]. destruct r as [keys|].
  - apply (runs_es_bind 0 0 1 nw); [by apply remove_victims_spec|]. intros s2 es2 G2 Ev2.
    pose proof (evolves_trans 0 0 0 0 _ _ _ _ _ _ Ev1 Ev2) as Ev.
    destruct (ev_unadmitted Ev (Z.le_refl _) _ _ He Ha) as (ei2 & He2 & Ha2).
    apply (admit_and_ack s2 es2 ve gen nw ei2); try (done || lia).
    + eapply ent_wf_le; [apply Ev|done].
    + pose proof (ev_ec Ev). lia.
  - eapply runs_es_weaken; [| |by apply reject_candidate]; lia.
Qed.

(** What a write may add to the counters. *)
Definition op_entries (op : WriteOp K V) : Z := match op with Upsert _ _ _ _ _ => 1 | Remove _ _ => 0 end.
Definition op_weight (op : WriteOp K V) : Z := match op with Upsert _ _ _ _ nw => nw | Remove _ _ => 0 end.

Lemma apply_write_spec s es op :
  good cfg [] s (counters es) -> write_wf (mem s) op ->
  ec_entry_count (counters es) + op_entries op <= U64_MAX -> ec_weighted_size (counters es) + op_weight op <= U64_MAX ->
  runs_es (op_entries op) (op_weight op) s es (apply_write cfg s op es).
Proof.
  intros G Hop Hec Hws. destruct op as [kh ve gen ow nw|kv gen]; cbn in *.
  - by apply handle_upsert_spec.
  - destruct Hop as (Hve & Hg & Hr). destruct (ent_info _ _ Hve) as (ei & He & _).
    apply runs_counters. eapply handle_remove_spec; try done; [by apply Hr|]. by intros g [= <-].
Qed.

(** ** The logs *)

Definition log_entries (ops : list (WriteOp K V)) : Z := foldr (fun op a => op_entries op + a) 0 ops.
Definition log_weight (ops : list (WriteOp K V)) : Z := foldr (fun op a => op_weight op + a) 0 ops.

Lemma op_bounds m op : write_wf m op -> 0 <= op_entries op /\ 0 <= op_weight op.
Proof. destruct op; cbn; [|lia]. intros (_ & (_ & _ & ?) & _). lia. Qed.

Lemma log_bounds m ops : (forall op, op ∈ ops -> write_wf m op) -> 0 <= log_entries ops /\ 0 <= log_weight ops.
Proof.
  unfold log_entries, log_weight. induction ops as [|op ops IH]; intros Hops; cbn [foldr]; [lia|].
  pose proof (op_bounds m op (Hops op ltac:(left))). destruct IH; [|lia]. intros o Ho. apply Hops. by right.
Qed.

Lemma inv_reads s P Q B O ec l :
  inv cfg s P Q B O ec -> (forall op, op ∈ l -> read_wf (mem s) op) -> inv cfg (with_reads s l) P Q B O ec.
Proof. intros I Hr. destruct I. by split. Qed.
Lemma inv_writes s P Q B O ec l :
  inv cfg s P Q B O ec -> (forall op, op ∈ l -> write_wf (mem s) op) -> inv cfg (with_writes s l) P Q B O ec.
Proof. intros I Hr. destruct I. by split. Qed.

Lemma evolves_with_reads dn dw s c s' c' l :
  evolves dn dw s c s' c' -> evolves dn dw (with_reads s l) c (with_reads s' l) c'.
Proof. intros []. by split. Qed.
Lemma evolves_with_writes dn dw s c s' c' l :
  evolves dn dw s c s' c' -> evolves dn dw (with_writes s l) c (with_writes s' l) c'.
Proof. intros []. by split. Qed.

Lemma with_reads_id s : with_reads s (read_op_ch s) = s.
Proof. by destruct s. Qed.
Lemma with_writes_id s : with_writes s (write_op_ch s) = s.
Proof. by destruct s. Qed.

Lemma apply_writes_spec ops : forall s es,
  write_op_ch s = ops -> good cfg [] s (counters es) ->
  ec_entry_count (counters es) + log_entries ops <= U64_MAX ->
  ec_weighted_size (counters es) + log_weight ops <= U64_MAX ->
  exists s' es', apply_writes cfg (length ops) s es = Ok (s', es') /\ good cfg [] s' (counters es') /\
    evolves (log_entries ops) (log_weight ops) (with_writes s []) (counters es) s' (counters es').
Proof.
  induction ops as [|op ops IH]; intros s es Hch G Hec Hws; cbn [length apply_writes].
  - exists s, es. split; [done|]. split; [done|]. replace (with_writes s []) with s by (rewrite <- Hch; symmetry; apply with_writes_id). apply evolves_refl.
  - rewrite Hch. cbn [log_entries log_weight foldr] in *. fold (log_entries ops) in *. fold (log_weight ops) in *.
    assert (Hall : forall o, o ∈ op :: ops -> write_wf (mem s) o).
    { destruct G as (_ & P & Q & B & I). rewrite <- Hch. apply (i_writes I). }
    destruct (log_bounds (mem s) ops) as [Hb1 Hb2]; [intros o Ho; apply Hall; by right|].
    destruct (op_bounds (mem s) op) as [Hb3 Hb4]; [apply Hall; left|].
    destruct (apply_write_spec (with_writes s ops) es op) as (s1 & es1 & -> & G1 & Ev1); try (done || lia).
    { destruct G as (Hp & P & Q & B & I). split; [done|]. exists P, Q, B.
      apply inv_writes; [done|]. intros o Ho. apply Hall. by right. }
    { apply Hall. left. }
    cbn [mbind res_bind]. pose proof (ev_ec Ev1). pose proof (ev_ws Ev1).
    destruct (IH s1 es1) as (s2 & es2 & -> & G2 & Ev2); [by rewrite (ev_writes Ev1)|done|lia|lia|].
    exists s2, es2. split; [done|]. split; [done|].
    eapply evolves_trans; [|exact Ev2]. exact (evolves_with_writes _ _ _ _ _ _ [] Ev1).
Qed.

(** ** Applying the reads *)

Lemma inv_sketch s P Q B O ec fs on :
  inv cfg s P Q B O ec -> sketch_ok (overflow_checks cfg) fs -> (on = false -> fs = default_sketch) ->
  inv cfg (with_sketch s fs on) P Q B O ec.
Proof. intros I Hok Hon. destruct I. by split. Qed.

(** Counting an access; a sketch that is off stays as it is. *)
Lemma increment_step s P Q B O ec h :
  inv cfg s P Q B O ec ->
  exists fs, increment (overflow_checks cfg) (frequency_sketch s) h = Ok fs /\
    inv cfg (with_sketch s fs (frequency_sketch_enabled s)) P Q B O ec.
Proof.
  intros I. destruct (i_sketch I) as (Hok & Hoff).
  destruct (increment_ok _ _ h Hok) as (fs & E & Hok'). exists fs. split; [done|].
  apply inv_sketch; try done. intros Hon. rewrite (Hoff Hon) in E. by injection E as <-.
Qed.

Lemma evolves_sketch s c fs on : evolves 0 0 s c (with_sketch s fs on) c.
Proof. by apply evolves_quiet. Qed.

Lemma apply_read_spec s c op :
  good cfg [] s c -> read_wf (mem s) op ->
  exists s', apply_read cfg s op = Ok s' /\ good cfg [] s' c /\ evolves 0 0 s c s' c.
Proof.
  intros (Hws & P & Q & B & I) Hop. destruct op as [ve b|h]; cbn in *.
  - destruct (ent_info _ _ Hop) as (ei & He & ->). cbn [mbind res_bind].
    destruct (increment_step s P Q B [] _ (kh_hash (key_hash ei)) I) as (fs & -> & I1). cbn [mbind res_bind].
    set (s1 := with_sketch s fs (frequency_sketch_enabled s)) in *.
    assert (Ev1 : evolves 0 0 s c s1 c) by apply evolves_sketch.
    destruct (negb (is_alive ei)); [exists s1; split; [done|]; split; [split; [done|eauto]|done]|].
    assert (H2 : exists s2 B2, (if b then update_timer_wheel s1 ve else Ok s1) = Ok s2 /\
      inv cfg s2 P Q B2 [] (ec_entry_count c) /\ ent_wf (mem s2) ve /\ evolves 0 0 s c s2 c).
    { destruct b; [|exists s1, B; done].
      destruct (update_timer_wheel_step cfg _ _ _ _ _ _ I1 Hop) as (m' & tw' & B' & -> & I2 & Hve & _ & Ev2).
      eexists _, B'. split; [done|]. split; [done|]. split; [done|]. exact (evolves_trans 0 0 0 0 _ _ _ _ _ _ Ev1 (Ev2 c)). }
    destruct H2 as (s2 & B2 & -> & I2 & Hve & Ev2). cbn [mbind res_bind].
    assert (Hn : is_Some (dnodes (mem s2) !! nodes ve)).
    { rewrite (proj1 Hve). destruct (ent_nodes cfg _ _ _ _ _ _ _ I2 Hve) as [dn ->]. eauto. }
    destruct (relinked_step cfg _ _ _ _ _ _ _ _ _ I2 (move_to_back_ao_spec _ _ _ _ _ (i_deqs I2) Hn)
      (ao_touched_length cfg _ _ _ _ _ _ _ I2)) as (h3 & ds3 & -> & I3 & Ev3). cbn [mbind res_bind].
    eexists. split; [reflexivity|]. split; [split; [done|eauto]|]. exact (evolves_trans 0 0 0 0 _ _ _ _ _ _ Ev2 (Ev3 c)).
  - destruct (increment_step s P Q B [] _ h I) as (fs & -> & I1). cbn [mbind res_bind].
    eexists. split; [reflexivity|]. split; [split; [done|eauto]|]. apply evolves_sketch.
Qed.

Lemma apply_reads_spec ops : forall s c,
  read_op_ch s = ops -> good cfg [] s c ->
  exists s', apply_reads cfg (length ops) s = Ok s' /\ good cfg [] s' c /\ evolves 0 0 (with_reads s []) c s' c.
Proof.
  induction ops as [|op ops IH]; intros s c Hch G; cbn [length apply_reads].
  - exists s. split; [done|]. split; [done|].
    replace (with_reads s []) with s by (rewrite <- Hch; symmetry; apply with_reads_id). apply evolves_refl.
  - rewrite Hch. assert (Hall : forall o, o ∈ op :: ops -> read_wf (mem s) o).
    { destruct G as (_ & P & Q & B & I). rewrite <- Hch. apply (i_reads I). }
    destruct (apply_read_spec (with_reads s ops) c op) as (s1 & -> & G1 & Ev1).
    { destruct G as (Hp & P & Q & B & I). split; [done|]. exists P, Q, B.
      apply inv_reads; [done|]. intros o Ho. apply Hall. by right. }
    { apply Hall. left. }
    cbn [mbind res_bind]. destruct (IH s1 c) as (s2 & -> & G2 & Ev2); [by rewrite (ev_reads Ev1)|done|].
    exists s2. split; [done|]. split; [done|].
    eapply (evolves_trans 0 0 0 0); [|exact Ev2]. exact (evolves_with_reads _ _ _ _ _ _ [] Ev1).
Qed.
End admission.
