(* ===== verification/Eviction.v ===== *)
(** The evictions of the maintenance task (src/sync/base_cache.rs): by the timer
    wheel, by the time of the last access or write, by size, and by the
    registered predicates (src/sync/invalidator.rs).  Each one terminates, does
    not fault and keeps the invariant. *)
From S2P Require Import Prelude Common FrequencySketch Deque Time EntryInfo Concurrent Deques.
From S2P Require Import TimerWheel Policy Invalidator Inner InnerInv InnerRemove Admission.

Section eviction.
Context {K V : Type} `{Countable K}.
Variable cfg : Config K V.
Implicit Types (s : Inner K V) (c : EvictionCounters) (es : EvictionState) (ve : ValueEntry V) (m : Mem K) (e : eid)
  (P Q O : list ptr) (B : buckets).

Notation evicted es := (with_counters es (incr_eviction_count (counters es))).
Notation runs_es := (runs_es cfg).

(** ** By the timer wheel *)

Lemma wheel_inv_keeps m m' tw B O :
  theap m' = theap m -> (forall e, tn_of m' e = tn_of m e) -> wheel_inv m tw B O -> wheel_inv m' tw B O.
Proof.
  intros Hh Ht I. destruct I. split; rewrite ?Hh; try done.
  - intros l i p pos g e n Hp Hat. rewrite Ht. eauto.
  - intros e p g. rewrite Ht. eauto.
Qed.

Lemma inv_keeps s P Q B B' O O' ec : inv cfg s P Q B' O' ec -> wheel_inv (mem s) (timer_wheel s) B O -> inv cfg s P Q B O ec.
Proof. intros I W. destruct I. by split. Qed.

(** A removal leaves the timers alone. *)
Lemma removes_timers O s c key cond cause ve s1 s2 :
  removes cfg O s c key cond cause ve s1 s2 -> keeps_timers s s2 /\ invalidator s2 = invalidator s.
Proof.
  intros R. pose proof (rm_run R) as E. unfold cht_remove_if_and_retire in E.
  destruct (cache s !! key) as [x|]; [|done]. destruct (get_info (mem s) (info x)); [|done]. cbn in E.
  destruct (cond x a); [|done]. destruct (retire a) as [a'|]; [|done]. injection E as <- <-.
  pose proof (rm_notify R) as En. unfold notify_if_enabled, notify_entry_removal in En.
  destruct (is_removal_notifier_enabled _); [cbn in En; destruct (removal_notifier s)|]; (done || by injection En as <-).
Qed.

(** An expired timer takes its entry out, unless the entry has changed since. *)
Lemma evict_expired_timer_spec s es now p :
  good cfg [p] s (counters es) -> expired_event (mem s) p now ->
  exists s' es', evict_expired_timer s es now p = Ok (s', es') /\ good cfg [p] s' (counters es') /\
    evolves 0 0 s (counters es) s' (counters es') /\ keeps_timers s s'.
Proof.
  intros G (Hno & e & g & ei & t & Ht & Hdn & Hei & Hex & Hle).
  apply timer_at_some in Ht as (n & Hn & Hel). unfold evict_expired_timer.
  rewrite (deref_ok _ _ _ Hn). cbn [mbind res_bind]. rewrite Hel. cbn [tn_entry_info mbind res_bind].
  rewrite (get_info_ok _ _ _ Hei). cbn [mbind res_bind].
  assert (Hsame : exists s' es', Ok (s, es) = Ok (s', es') /\ good cfg [p] s' (counters es') /\
    evolves 0 0 s (counters es) s' (counters es') /\ keeps_timers s s').
  { exists s, es. do 2 (split; [done|]). split; [apply evolves_refl|done]. }
  destruct (is_dirty ei); [done|].
  destruct (remove_notify cfg [p] s (counters es) (kh_key (key_hash ei)) (fun _ vei => is_expired_by_per_entry_ttl vei now) CauseExpired G)
    as [->|(ve & s1 & s2 & R)]; cbn [mbind res_bind]; [done|].
  rewrite (rm_run R). cbn [mbind res_bind]. rewrite (rm_notify R). cbn [mbind res_bind].
  destruct (rm_retired R) as (vei & He & Hr & _).
  destruct (handle_remove_without_timer_wheel_spec cfg [p] s2 (counters (evicted es)) ve None vei)
    as (s3 & c3 & E3 & G3 & Ev3 & T3); try done; [apply good_incr, (rm_good R)|apply R|].
  cbn [counters with_counters] in E3 |- *. rewrite E3. cbn [mbind res_bind].
  eexists _, _. split; [reflexivity|]. split; [done|].
  split; [exact (evolves_trans 0 0 0 0 _ _ _ _ _ _ (rm_evicted R) Ev3)|].
  transitivity s2; [by eapply proj1, removes_timers|done].
Qed.

Lemma inv_cover s P Q B O ec : inv cfg s P Q B O ec -> infos_cover (mem s).
Proof. intros I e He. by apply (i_nodes I). Qed.

Lemma timer_events_loop_spec N fuel : forall s es now it P Q B,
  0 <= ec_weighted_size (counters es) -> inv cfg s P Q B [] (ec_entry_count (counters es)) ->
  shape (timer_wheel s) -> iter_ok it -> current_time it = now ->
  Z.of_nat (size (cells (theap (mem s)))) <= N -> measure N (theap (mem s)) B it < Z.of_nat fuel ->
  exists s' es' it', timer_events_loop fuel s es now it = Ok (s', es', it') /\ is_done it' = true /\
    good cfg [] s' (counters es') /\ evolves 0 0 s (counters es) s' (counters es').
Proof.
  induction fuel as [|fuel IH]; intros s es now it P Q B Hws I Hs Hok Hnow HN Hf.
  { pose proof (measure_nonneg N _ _ _ [] it (i_wheel I) Hok HN). lia. }
  destruct (timer_next_spec N (S fuel) (mem s) (timer_wheel s) B it (i_wheel I) Hs (inv_cover _ _ _ _ _ _ I) Hok HN Hf)
    as (m1 & tw1 & it1 & ev & B1 & O & E & W1 & F & C & S1 & Ev & Sz & Ct & Pt & M).
  destruct (inv_wheel_step cfg _ _ _ _ _ _ _ _ _ _ I F W1) as [I1 Ev1].
  unfold timer_events_loop; fold (timer_events_loop (K := K) (V := V)). rewrite E. cbn [mbind res_bind].
  set (s1 := with_wheel s m1 tw1) in *.
  assert (Hnext : forall s' es' P' Q', 0 <= ec_weighted_size (counters es') ->
    inv cfg s' P' Q' B1 [] (ec_entry_count (counters es')) -> timer_wheel s' = tw1 -> iter_ok it1 -> ev <> None ->
    Z.of_nat (size (cells (theap (mem s')))) <= Z.of_nat (size (cells (theap m1))) ->
    (forall q, q ∈ B1 (level it1) (cur_index it1) -> timer_at (theap (mem s')) q = timer_at (theap m1) q) ->
    evolves 0 0 s (counters es) s' (counters es') ->
    exists s2 es2 it2, timer_events_loop fuel s' es' now it1 = Ok (s2, es2, it2) /\ is_done it2 = true /\
      good cfg [] s2 (counters es2) /\ evolves 0 0 s (counters es) s2 (counters es2)).
  { intros s' es' P' Q' Hws' I' Htw Hok' Hev Hsz Hat Evs. specialize (M Hev).
    destruct (IH s' es' now it1 P' Q' B1) as (s2 & es2 & it2 & E2 & D2 & G2 & Ev2); try done.
    - by rewrite Htw.
    - congruence.
    - lia.
    - rewrite (measure_ext N (theap m1) (theap (mem s')) B1 it1 Hat). lia.
    - exists s2, es2, it2. do 3 (split; [done|]). exact (evolves_trans 0 0 0 0 _ _ _ _ _ _ Evs Ev2). }
  destruct ev as [[p| |]|]; cbn in Ev.
  - destruct Ev as (-> & Hok1 & Hexp).
    destruct (evict_expired_timer_spec s1 es now p) as (s2 & es2 & E2 & G2 & Ev2 & (T1 & T2 & T3)); [by split; eauto|by rewrite <- Hnow|].
    rewrite E2. cbn [mbind res_bind]. destruct G2 as (Hws2 & P2 & Q2 & B2 & I2).
    assert (W2 : wheel_inv (mem s2) (timer_wheel s2) B1 [p]).
    { rewrite T2. eapply wheel_inv_keeps; [exact T1|exact T3|exact W1]. }
    destruct (expired_drop _ _ _ _ _ W1 Hexp) as (n & e & h & Hn & _ & Hd & _ & _ & Hsz & Hat).
    rewrite T1. cbn [mem s1 with_wheel]. rewrite Hd. cbn [mbind res_bind].
    assert (Hh : h = mkHeap (delete p (cells (theap (mem s2)))) (next_loc (theap (mem s2)))).
    { rewrite T1. cbn. rewrite (drop_node_ok _ _ _ Hn) in Hd. by injection Hd as <-. }
    assert (W3 : wheel_inv (with_theap (mem s2) h) (timer_wheel s2) B1 []).
    { rewrite Hh. apply (owned_drop _ _ _ _ n W2); [by rewrite T1|]. intros e' g'. rewrite T3. apply Hexp. }
    destruct (inv_wheel_step cfg s2 _ _ _ _ _ (with_theap (mem s2) h) (timer_wheel s2) B1 [] I2 (theap_frame _ _) W3) as [I3 Ev3].
    apply (Hnext _ _ P2 Q2); try done.
    + intros q Hq. apply Hat. intros ->. destruct (wi_owned _ _ _ _ W1 p) as [Hx _]; [left|]. by apply (Hx _ _ Hq).
    + eapply (evolves_trans 0 0 0 0); [exact (Ev1 _)|]. eapply (evolves_trans 0 0 0 0); [exact Ev2|exact (Ev3 _)].
  - destruct Ev as (-> & Hok1). by apply (Hnext _ _ P Q).
  - destruct Ev as (-> & Hok1). by apply (Hnext _ _ P Q).
  - destruct Ev as (-> & Hd). exists s1, es, it1. do 2 (split; [done|]). split; [by split; eauto|done].
Qed.

Lemma evict_expired_entries_using_timers_spec s es now :
  good cfg [] s (counters es) -> is_enabled (timer_wheel s) = true ->
  runs_es 0 0 s es (evict_expired_entries_using_timers s es now).
Proof.
  intros (Hws & P & Q & B & I) Hen. pose proof (i_wheel I) as W.
  assert (Hs : shape (timer_wheel s)) by (by apply (is_enabled_shape _ _ _ (wi_buckets _ _ _ _ W))).
  unfold evict_expired_entries_using_timers, advance.
  set (tw := set_current (timer_wheel s) now).
  destruct (inv_wheel_step cfg s P Q B [] _ (mem s) tw B [] I) as [I1 Ev1]; [reflexivity|by apply (wheel_inv_clock _ (timer_wheel s))|].
  destruct (timer_events_loop_spec (Z.of_nat (size (cells (theap (mem s))))) (wheel_fuel (mem s)) (with_wheel s (mem s) tw) es now
    (new_iter (current (timer_wheel s)) now) P Q B) as (s2 & es2 & it & E & D & G2 & Ev2); try done.
  - apply initial_measure.
  - cbn [mem with_wheel] in E |- *. rewrite E. cbn [mbind res_bind]. unfold drop_iter. rewrite D.
    exists s2, es2. split; [by destruct s2|]. split; [done|]. exact (evolves_trans 0 0 0 0 _ _ _ _ _ _ (Ev1 _) Ev2).
Qed.

(** ** By the queues *)

(** A skipped entry goes to the back. *)
Lemma skip_updated_entry_ao_spec s c key :
  good cfg [] s c ->
  exists s', skip_updated_entry_ao MainProbation s key = Ok s' /\ good cfg [] s' c /\ evolves 0 0 s c s' c.
Proof.
  intros (Hws & P & Q & B & I). unfold skip_updated_entry_ao. cbn [select_ao mbind res_bind].
  unfold cht_get. destruct (cache s !! key) as [entry|] eqn:Hc.
  - pose proof (cache_ent cfg _ _ _ _ _ _ _ _ I Hc) as Hve.
    assert (Hn : is_Some (dnodes (mem s) !! nodes entry)).
    { rewrite (proj1 Hve). destruct (ent_nodes cfg _ _ _ _ _ _ _ I Hve) as [dn ->]. eauto. }
    destruct (relinked_step cfg _ _ _ _ _ _ _ _ _ I (move_to_back_ao_in_deque_spec _ _ _ _ _ (i_deqs I) Hn)
      (ao_touched_length cfg _ _ _ _ _ _ _ I)) as (h1 & ds1 & E1 & I1 & Ev1).
    apply bind_Ok in E1 as ([m1 ao] & -> & [= -> <-]). cbn [mbind res_bind store_ao].
    set (s1 := with_deques s (with_kheap (mem s) h1) (set_probation (deques s) ao)) in *.
    destruct (ent_info _ _ Hve) as (ei & He & _). unfold get_info. cbn [infos with_kheap]. rewrite He. cbn [expect_some mbind res_bind].
    destruct (is_dirty ei).
    + destruct (relinked_step cfg s1 _ _ _ _ _ _ _ _ I1 (move_to_back_wo_in_deque_spec _ _ _ _ entry (i_deqs I1) Hn) eq_refl)
        as (h2 & ds2 & E2 & I2 & Ev2).
      apply bind_Ok in E2 as ([m2 wo] & E2 & [= -> <-]). cbn [mem s1 deques with_deques] in E2. rewrite E2. cbn [mbind res_bind].
      eexists. split; [reflexivity|]. split; [split; [done|eauto]|]. exact (evolves_trans 0 0 0 0 _ _ _ _ _ _ (Ev1 c) (Ev2 c)).
    + cbn [mbind res_bind]. rewrite set_write_order_id. eexists. split; [reflexivity|]. split; [split; [done|eauto]|done].
  - destruct (probation_front cfg _ _ _ _ _ _ I) as [(_ & _ & ->)|(n & ei & h & d & _ & _ & -> & [P' I'] & Ev)]; cbn [mbind res_bind store_ao].
    + exists s. split; [|split; [split; [done|eauto]|apply evolves_refl]]. do 2 f_equal.
      rewrite with_kheap_id, set_probation_id. by destruct s.
    + eexists. split; [reflexivity|]. split; [split; [done|eauto]|done].
Qed.

Lemma evict_from_ao_spec s es key cause cond :
  good cfg [] s (counters es) ->
  exists s' es' o, evict_from_ao MainProbation key cause cond s es = Ok (s', es', o) /\
    good cfg [] s' (counters es') /\ evolves 0 0 s (counters es) s' (counters es').
Proof.
  intros G. unfold evict_from_ao.
  destruct (remove_notify cfg [] s (counters es) key cond cause G) as [->|(ve & s1 & s2 & R)]; cbn [mbind res_bind].
  - destruct (skip_updated_entry_ao_spec s (counters es) key G) as (s' & -> & G' & Ev'). cbn [mbind res_bind].
    by exists s', es, None.
  - rewrite (rm_run R). cbn [mbind res_bind]. rewrite (rm_notify R). cbn [mbind res_bind].
    destruct (rm_retired R) as (ei & He & Hr & _). rewrite (get_info_ok _ _ _ He). cbn [mbind res_bind].
    destruct (handle_remove_with_deques_spec cfg s2 (incr_eviction_count (counters es)) ve ei) as (s3 & c3 & E3 & G3 & Ev3);
      try done; [apply good_incr, (rm_good R)|apply R|].
    cbn [counters with_counters]. rewrite E3. cbn [mbind res_bind]. eexists _, _, _. split; [reflexivity|]. split; [done|].
    exact (evolves_trans 0 0 0 0 _ _ _ _ _ _ (rm_evicted R) Ev3).
Qed.

(** The state of an eviction loop that started at [(s0, es0)]. *)
Definition evicting s0 es0 (a : @evict_state K V _ _) : Prop :=
  good cfg [] a.1.1 (counters a.1.2) /\ evolves 0 0 s0 (counters es0) a.1.1 (counters a.1.2).

Lemma evicting_step s0 es0 s es s' es' more more' :
  evicting s0 es0 (s, es, more) -> good cfg [] s' (counters es') -> evolves 0 0 s (counters es) s' (counters es') ->
  evicting s0 es0 (s', es', more').
Proof. intros [_ Ev] G' Ev'. split; [done|]. exact (evolves_trans 0 0 0 0 _ _ _ _ _ _ Ev Ev'). Qed.

Lemma evicting_same s0 es0 s es more more' : evicting s0 es0 (s, es, more) -> evicting s0 es0 (s, es, more').
Proof. done. Qed.

Lemma remove_expired_ao_step_spec tti va now s0 es0 a :
  evicting s0 es0 a ->
  exists b a', remove_expired_ao_step MainProbation tti va now a = Ok (b, a') /\ evicting s0 es0 a'.
Proof.
  intros A. destruct a as [[s es] more]. pose proof A as [G _]. cbn in G.
  destruct G as (Hws & P & Q & B & I) eqn:EG. cbn [remove_expired_ao_step select_ao mbind res_bind].
  destruct (probation_front cfg _ _ _ _ _ _ I) as [(_ & -> & _)|(n & ei & h & d & -> & He & _)]; cbn [mbind res_bind].
  { eexists _, _. split; [reflexivity|done]. }
  rewrite (get_info_ok _ _ _ He). cbn [mbind res_bind].
  destruct (skip_updated_entry_ao_spec s (counters es) (kh_key (key_hash ei)) G) as (s' & Es & G' & Ev').
  assert (Hskip : exists b a', (s ← skip_updated_entry_ao MainProbation s (kh_key (key_hash ei)); Ok (false, (s, es, false)))
    = Ok (b, a') /\ evicting s0 es0 a').
  { rewrite Es. cbn [mbind res_bind]. eexists _, _. split; [reflexivity|]. by eapply evicting_step. }
  destruct (is_dirty ei); [done|]. destruct (last_accessed ei) as [ts|]; [|done].
  destruct (is_entry_expired_ao_or_invalid tti va ts now) as [expired invalid].
  destruct (evict_from_ao_spec s es (kh_key (key_hash ei)) (if expired then CauseExpired else CauseExplicit)
    (fun _ vei => is_expired_entry_ao tti va vei now) G) as (s2 & es2 & o & E2 & G2 & Ev2).
  destruct expired, invalid; [..|eexists _, _; split; [reflexivity|done]].
  all: rewrite E2; cbn [mbind res_bind]; eexists _, _; split; [reflexivity|by eapply evicting_step].
Qed.

Lemma evicting_start s es more : good cfg [] s (counters es) -> evicting s es (s, es, more).
Proof. intros G. split; [done|apply evolves_refl]. Qed.

Lemma evicting_finish s es a : evicting s es a -> runs_es 0 0 s es (Ok (finish_more a)).
Proof.
  destruct a as [[s' es'] more]. intros [G Ev]. cbn in *. exists s', (if more then with_more es' true else es').
  by destruct more.
Qed.

(** The window and protected queues are never used. *)
Lemma remove_expired_ao_empty r s n now es :
  r = Window \/ r = MainProtected -> good cfg [] s (counters es) ->
  runs_es 0 0 s es (remove_expired_ao cfg r s n now es).
Proof.
  intros Hr G. unfold remove_expired_ao.
  assert (Hsel : exists d, select_ao (deques s) r = Ok d /\ head d = None).
  { destruct G as (_ & P & Q & B & I). pose proof (i_deqs I) as D.
    destruct Hr as [-> | ->]; cbn; eexists; (split; [reflexivity|]);
      [by rewrite (di_window _ _ _ _ D)|by rewrite (di_protected _ _ _ _ D)]. }
  destruct Hsel as (d & Es & Hh). rewrite Es. cbn [mbind res_bind].
  assert (Hloop : exists more, for_break n (remove_expired_ao_step r (time_to_idle (expiration_policy cfg)) (get_valid_after s) now)
    (s, es, true) = Ok (s, es, more)).
  { destruct n as [|n]; [by exists true|]. exists false. cbn [for_break remove_expired_ao_step]. rewrite Es. cbn [mbind res_bind].
    unfold peek_front. by rewrite Hh. }
  destruct Hloop as [more ->]. by apply evicting_finish, evicting_start.
Qed.

Lemma remove_expired_ao_spec r s n now es :
  r <> Other -> good cfg [] s (counters es) -> runs_es 0 0 s es (remove_expired_ao cfg r s n now es).
Proof.
  intros Hr G. destruct r; [apply remove_expired_ao_empty; auto| |apply remove_expired_ao_empty; auto|done].
  unfold remove_expired_ao. cbv zeta. cbn [select_ao mbind res_bind].
  destruct (for_break_inv (evicting s es) (remove_expired_ao_step MainProbation (time_to_idle (expiration_policy cfg))
    (get_valid_after s) now) n (s, es, true)) as (a & -> & A); [by apply evicting_start|intros; by apply remove_expired_ao_step_spec|].
  by apply evicting_finish.
Qed.

(** The front of the write-order queue. *)
Lemma write_order_front s P Q B O ec :
  inv cfg s P Q B O ec ->
  exists h d, move_front_to_back (kheap (mem s)) (write_order (deques s)) = Ok (h, d) /\
    (let s' := with_deques s (with_kheap (mem s) h) (set_write_order (deques s) d) in
     (exists Q', inv cfg s' P Q' B O ec) /\ forall c, evolves 0 0 s c s' c) /\
    (peek_front (kheap (mem s)) (write_order (deques s)) = Ok None \/
     exists n ei, peek_front (kheap (mem s)) (write_order (deques s)) = Ok (Some n) /\
       infos (mem s) !! khd_entry_info (element n) = Some ei).
Proof.
  intros I. pose proof (i_deqs I) as D. pose proof (repr_head _ _ _ (di_wo _ _ _ _ D)) as Hh.
  unfold peek_front, move_front_to_back. rewrite Hh. destruct Q as [|p rest]; cbn [list.head].
  - exists (kheap (mem s)), (write_order (deques s)). split; [done|].
    split; [|by left]. cbn. rewrite with_kheap_id, set_write_order_id.
    replace (with_deques s (mem s) (deques s)) with s by (by destruct s). split; [eauto|]. intros c. apply evolves_refl.
  - destruct (repr_split _ _ [] rest p (di_wo _ _ _ _ D)) as (_ & _ & x & Hx).
    assert (Hat : entry_at (kheap (mem s)) p = Some (khd_entry_info x)) by (unfold entry_at; by rewrite Hx).
    assert (Hin : p ∈ p :: rest) by left.
    assert (Hwo : wo_of (mem s) (khd_entry_info x) = Some p) by (by apply (di_wo_ptr _ _ _ _ D)).
    destruct (move_wo_node _ _ _ _ _ _ D Hwo) as (h & d & E & _ & D' & Hsame). exists h, d. split; [done|].
    destruct (relinked_step cfg s P (p :: rest) B O ec P (touched (Some p) (p :: rest))
      (Ok (with_kheap (mem s) h, set_write_order (deques s) d)) I) as (h' & ds' & [= <- <-] & I' & Ev); [by exists h, (set_write_order (deques s) d)|done|].
    split; [split; [eauto|done]|]. right. rewrite (deref_ok _ _ _ Hx). cbn [mbind res_bind].
    assert (Hdn : is_Some (dnodes (mem s) !! khd_entry_info x)).
    { unfold wo_of in Hwo. destruct (dnodes (mem s) !! khd_entry_info x); [eauto|done]. }
    apply (i_nodes I) in Hdn as [ei He]. eexists _, ei. split; [reflexivity|done].
Qed.

Lemma skip_updated_entry_wo_spec s c key :
  good cfg [] s c ->
  exists s', skip_updated_entry_wo s key = Ok s' /\ good cfg [] s' c /\ evolves 0 0 s c s' c.
Proof.
  intros (Hws & P & Q & B & I). unfold skip_updated_entry_wo, cht_get. destruct (cache s !! key) as [entry|] eqn:Hc.
  - pose proof (cache_ent cfg _ _ _ _ _ _ _ _ I Hc) as Hve.
    assert (Hn : is_Some (dnodes (mem s) !! nodes entry)).
    { rewrite (proj1 Hve). destruct (ent_nodes cfg _ _ _ _ _ _ _ I Hve) as [dn ->]. eauto. }
    destruct (relinked_step cfg _ _ _ _ _ _ _ _ _ I (move_to_back_ao_spec _ _ _ _ _ (i_deqs I) Hn)
      (ao_touched_length cfg _ _ _ _ _ _ _ I)) as (h1 & ds1 & -> & I1 & Ev1). cbn [mbind res_bind].
    set (s1 := with_deques s (with_kheap (mem s) h1) ds1) in *.
    destruct (relinked_step cfg s1 _ _ _ _ _ _ _ _ I1 (move_to_back_wo_spec _ _ _ _ entry (i_deqs I1) Hn) eq_refl)
      as (h2 & ds2 & E2 & I2 & Ev2). cbn [mem s1 deques with_deques] in E2. rewrite E2. cbn [mbind res_bind].
    eexists. split; [reflexivity|]. split; [split; [done|eauto]|]. exact (evolves_trans 0 0 0 0 _ _ _ _ _ _ (Ev1 c) (Ev2 c)).
  - destruct (write_order_front _ _ _ _ _ _ I) as (h & d & -> & [[Q' I'] Ev] & _). cbn [mbind res_bind].
    eexists. split; [reflexivity|]. split; [split; [done|eauto]|done].
Qed.

(** A removal whose entry the handler then unlinks. *)
Lemma remove_and_handle s es key cond cause ve s1 s2 :
  removes cfg [] s (counters es) key cond cause ve s1 s2 ->
  exists s3 c3, handle_remove s2 ve None (incr_eviction_count (counters es)) = Ok (s3, c3) /\
    good cfg [] s3 c3 /\ evolves 0 0 s (counters es) s3 c3.
Proof.
  intros R. destruct (rm_retired R) as (ei & He & Hr & _).
  destruct (handle_remove_spec cfg s2 (incr_eviction_count (counters es)) ve None ei) as (s3 & c3 & E3 & G3 & Ev3);
    try done; [apply good_incr, (rm_good R)|apply R|].
  exists s3, c3. do 2 (split; [done|]). exact (evolves_trans 0 0 0 0 _ _ _ _ _ _ (rm_evicted R) Ev3).
Qed.

Lemma remove_expired_wo_step_spec ttl va now s0 es0 a :
  evicting s0 es0 a ->
  exists b a', remove_expired_wo_step ttl va now a = Ok (b, a') /\ evicting s0 es0 a'.
Proof.
  intros A. destruct a as [[s es] more]. pose proof A as [G _]. cbn in G.
  destruct G as (Hws & P & Q & B & I) eqn:EG. cbn [remove_expired_wo_step].
  destruct (write_order_front _ _ _ _ _ _ I) as (_ & _ & _ & _ & [->|(n & ei & -> & He)]); cbn [mbind res_bind].
  { eexists _, _. split; [reflexivity|done]. }
  rewrite (get_info_ok _ _ _ He). cbn [mbind res_bind].
  destruct (skip_updated_entry_wo_spec s (counters es) (kh_key (key_hash ei)) G) as (s' & Es & G' & Ev').
  assert (Hskip : exists b a', (s ← skip_updated_entry_wo s (kh_key (key_hash ei)); Ok (false, (s, es, false)))
    = Ok (b, a') /\ evicting s0 es0 a').
  { rewrite Es. cbn [mbind res_bind]. eexists _, _. split; [reflexivity|]. by eapply evicting_step. }
  destruct (is_dirty ei); [done|]. destruct (last_modified ei) as [ts|]; [|done].
  destruct (is_entry_expired_wo_or_invalid ttl va ts now) as [expired invalid].
  assert (Hrm : exists b a',
    ('(s, removed) ← cht_remove_if_and_retire s (kh_key (key_hash ei)) (fun _ vei => is_expired_entry_wo ttl va vei now);
     match removed with
     | Some entry =>
         s ← notify_if_enabled s (kh_key (key_hash ei)) entry (if expired then CauseExpired else CauseExplicit);
         let es := evicted es in
         '(s, c) ← handle_remove s entry None (counters es);
         Ok (false, (s, with_counters es c, more))
     | None => s ← skip_updated_entry_wo s (kh_key (key_hash ei)); Ok (false, (s, es, false))
     end) = Ok (b, a') /\ evicting s0 es0 a').
  { destruct (remove_notify cfg [] s (counters es) (kh_key (key_hash ei)) (fun _ vei => is_expired_entry_wo ttl va vei now)
      (if expired then CauseExpired else CauseExplicit) G) as [->|(ve & s1 & s2 & R)]; cbn [mbind res_bind]; [done|].
    rewrite (rm_run R). cbn [mbind res_bind]. rewrite (rm_notify R). cbn [mbind res_bind].
    destruct (remove_and_handle _ _ _ _ _ _ _ _ R) as (s3 & c3 & E3 & G3 & Ev3).
    cbn [counters with_counters]. rewrite E3. cbn [mbind res_bind]. eexists _, _. split; [reflexivity|].
    by eapply evicting_step. }
  destruct expired, invalid; [done..|]. eexists _, _. split; [reflexivity|done].
Qed.

Lemma remove_expired_wo_spec s n now es :
  good cfg [] s (counters es) -> runs_es 0 0 s es (remove_expired_wo cfg s n now es).
Proof.
  intros G. unfold remove_expired_wo. cbv zeta.
  destruct (for_break_inv (evicting s es) (remove_expired_wo_step (time_to_live (expiration_policy cfg))
    (get_valid_after s) now) n (s, es, true)) as (a & -> & A); [by apply evicting_start|intros; by apply remove_expired_wo_step_spec|].
  by apply evicting_finish.
Qed.

Lemma evict_expired_entries_using_deqs_spec s n now es :
  good cfg [] s (counters es) -> runs_es 0 0 s es (evict_expired_entries_using_deqs cfg s n now es).
Proof.
  intros G. unfold evict_expired_entries_using_deqs. apply (runs_es_bind cfg 0 0 0 0).
  { destruct (is_write_order_queue_enabled cfg s); [by apply remove_expired_wo_spec|by apply runs_es_done]. }
  intros s1 es1 G1 _. destruct (_ || _); [|by apply runs_es_done].
  apply (runs_es_bind cfg 0 0 0 0); [by apply remove_expired_ao_spec|]. intros s2 es2 G2 _.
  apply (runs_es_bind cfg 0 0 0 0); [by apply remove_expired_ao_spec|]. intros s3 es3 G3 _.
  by apply remove_expired_ao_spec.
Qed.

(** ** By size *)

Lemma evict_lru_step_spec w s0 es0 a :
  evicting s0 es0 a.1 ->
  exists b a', evict_lru_step w a = Ok (b, a') /\ evicting s0 es0 a'.1.
Proof.
  destruct a as [[[s es] more] n0]. cbn [fst]. intros A. pose proof A as [G _]. cbn in G.
  destruct G as (Hws & P & Q & B & I) eqn:EG. cbn [evict_lru_step].
  destruct (w <=? n0); [by eexists _, _|]. cbn [select_ao mbind res_bind].
  destruct (probation_front cfg _ _ _ _ _ _ I) as [(_ & -> & _)|(n & ei & h & d & -> & He & _)]; cbn [mbind res_bind].
  { eexists _, _. split; [reflexivity|done]. }
  rewrite (get_info_ok _ _ _ He). cbn [mbind res_bind].
  destruct (skip_updated_entry_ao_spec s (counters es) (kh_key (key_hash ei)) G) as (s' & Es & G' & Ev').
  assert (Hskip : exists b a', (s ← skip_updated_entry_ao MainProbation s (kh_key (key_hash ei)); Ok (false, (s, es, false, n0)))
    = Ok (b, a') /\ evicting s0 es0 a'.1).
  { rewrite Es. cbn [mbind res_bind]. eexists _, _. split; [reflexivity|]. by eapply evicting_step. }
  destruct (is_dirty ei); [done|]. destruct (last_accessed ei) as [ts|]; [|done].
  destruct (evict_from_ao_spec s es (kh_key (key_hash ei)) CauseSize
    (fun _ vei => match last_accessed vei with Some la => la =? ts | None => false end) G) as (s2 & es2 & o & E2 & G2 & Ev2).
  rewrite E2. cbn [mbind res_bind]. destruct o; eexists _, _; (split; [reflexivity|by eapply evicting_step]).
Qed.

Lemma evict_lru_entries_spec s n w es :
  good cfg [] s (counters es) -> runs_es 0 0 s es (evict_lru_entries s n w es).
Proof.
  intros G. unfold evict_lru_entries.
  destruct (for_break_inv (fun a => evicting s es a.1) (evict_lru_step w) n (s, es, true, 0)) as (a & -> & A);
    [by apply evicting_start|intros; by apply evict_lru_step_spec|].
  by apply evicting_finish.
Qed.
End eviction.
