(* ===== verification/LruOrder.v ===== *)
(** Size eviction is exact: [evict_lru_entries] takes entries from the front of
    the probation queue, least recently used first, and stops at the first moment
    the evicted weight reaches its target (src/sync/base_cache.rs). *)
From S2P Require Import Prelude Common FrequencySketch Deque Time EntryInfo Concurrent Deques.
From S2P Require Import TimerWheel Policy Invalidator Inner InnerInv InnerRemove.

(** ** The queue as the code walks it *)

(** The entries of the deque from node [p] on. *)
Fixpoint walk (fuel : nat) (h : heap KeyHashDate) (p : option ptr) : list eid :=
  match fuel, p with
  | S fuel', Some p =>
      match cells h !! p with
      | Some n => khd_entry_info (element n) :: walk fuel' h (next n)
      | None => []
      end
  | _, _ => []
  end.

(** How many entries of weights [ws] an eviction of at most [batch] entries takes
    to reach [target], when [evicted] is evicted already. *)
Fixpoint lru_prefix (batch : nat) (target evicted : Z) (ws : list Z) : nat :=
  match batch, ws with
  | S batch', w :: ws' =>
      if target <=? evicted then O else S (lru_prefix batch' target (saturating_add 64 evicted w) ws')
  | _, _ => O
  end.

Lemma walk_seg h : forall l pv, dseg h pv l None -> walk (length l) h (list.head l) = omap (entry_at h) l.
Proof.
  induction l as [|p l IH]; intros pv Hs; [done|]. destruct Hs as [[e He] Hs]. cbn [length list.head walk]. rewrite He.
  cbn [omap list_omap]. assert (Ea : entry_at h p = Some (khd_entry_info e)) by (unfold entry_at; by rewrite He).
  rewrite Ea. cbn. f_equal. rewrite <- (IH _ Hs). by destruct l.
Qed.

Section lru.
Context {K V : Type} `{Countable K}.
Variable cfg : Config K V.
Implicit Types (s : Inner K V) (c : EvictionCounters) (es : EvictionState) (ve : ValueEntry V) (e : eid)
  (P Q O : list ptr) (B : buckets).

Definition lru_order s : list eid :=
  walk (Z.to_nat (len (probation (deques s)))) (kheap (mem s)) (head (probation (deques s))).

Lemma lru_order_queue s P Q B O ec : inv cfg s P Q B O ec -> lru_order s = queue (mem s) P.
Proof.
  intros I. pose proof (di_prob _ _ _ _ (i_deqs I)) as R. unfold lru_order.
  rewrite (repr_len _ _ _ R), (repr_head _ _ _ R), Nat2Z.id. by eapply walk_seg, R.
Qed.

Definition info_weight s e : Z := match infos (mem s) !! e with Some ei => policy_weight ei | None => 0 end.
Definition info_key s e : option K := (fun ei => kh_key (key_hash ei)) <$> infos (mem s) !! e.
(** No write to the entry is waiting to be applied, and it was not removed. *)
Definition settled s e : Prop :=
  exists ei, infos (mem s) !! e = Some ei /\ is_dirty ei = false /\ is_retired ei = false.
Definition drop_keys (ks : list K) (ch : gmap K (ValueEntry V)) : gmap K (ValueEntry V) := foldl (fun ch k => delete k ch) ch ks.

Lemma cht_remove_hit s P Q B O ec key cond ve ei :
  inv cfg s P Q B O ec -> cache s !! key = Some ve -> infos (mem s) !! info ve = Some ei -> cond ve ei = true ->
  exists ei' s', cht_remove_if_and_retire s key cond = Ok (s', Some ve) /\
    s' = with_cache (with_mem s (put_info (mem s) (info ve) ei')) (delete key (cache s)) /\
    inv cfg s' P Q B O ec /\ ent_wf (mem s') ve /\ is_retired ei' = true /\ is_admitted ei' = is_admitted ei /\
    policy_weight ei' = policy_weight ei.
Proof.
  intros I Hc He Hcond. destruct (cht_remove_step cfg s P Q B O ec key cond I) as [E|
    (ve1 & ei1 & ei' & s' & Hc1 & He1 & _ & E & Es & I' & Hwf & He' & Hr & Ha & _ & Hw & _)].
  - exfalso. unfold cht_remove_if_and_retire in E. rewrite Hc, (get_info_ok _ _ _ He) in E. cbn [mbind res_bind] in E.
    destruct (i_cache I _ _ Hc) as (_ & x & Hx & _ & Hrx). rewrite Hcond in E. unfold retire in E.
    assert (x = ei) as -> by congruence. by rewrite Hrx in E.
  - assert (ve1 = ve) as -> by congruence. assert (ei1 = ei) as -> by congruence. by exists ei', s'.
Qed.

(** The entry at the front of the queue goes, and nothing else changes. *)
Record pops e s es s' es' : Prop := {
  po_order : exists P Q B, inv cfg s' P Q B [] (ec_entry_count (counters es')) /\ queue (mem s') P = forget e (lru_order s);
  po_cache : exists k, info_key s e = Some k /\ cache s' = delete k (cache s);
  po_infos : forall e', e' <> e -> infos (mem s') !! e' = infos (mem s) !! e';
  po_count : ec_entry_count (counters es') = ec_entry_count (counters es) - 1
}.

Lemma evict_front s es P Q B key cond e ei :
  inv cfg s P Q B [] (ec_entry_count (counters es)) -> e ∈ queue (mem s) P -> infos (mem s) !! e = Some ei ->
  is_retired ei = false -> key = kh_key (key_hash ei) -> (forall ve, cond ve ei = true) ->
  exists s' es', evict_from_ao MainProbation key CauseSize cond s es = Ok (s', es', Some (policy_weight ei)) /\ pops e s es s' es'.
Proof.
  intros I Hin He Hr -> Hcond. destruct (i_alive I _ _ He Hr) as (ve & Hc & <-).
  assert (Hadm : is_admitted ei = true) by (apply (i_admitted I _ _ He); by apply (ao_in_queue _ _ _ _ _ (i_deqs I))).
  destruct (cht_remove_hit s P Q B [] _ _ cond ve ei I Hc He (Hcond ve)) as (ei' & s1 & E1 & Es1 & I1 & Hwf & Hr' & Ha' & Hw').
  assert (Hn : exists nt, notify_if_enabled s1 (kh_key (key_hash ei)) ve CauseSize = Ok (with_notifier s1 nt)).
  { unfold notify_if_enabled, notify_entry_removal, is_removal_notifier_enabled.
    destruct (removal_notifier s1) as [n|] eqn:En; cbn; [eauto|]. exists None. f_equal. destruct s1. cbn in *. by subst. }
  destruct Hn as [nt Hn]. unfold evict_from_ao. rewrite E1. cbn [mbind res_bind]. rewrite Hn. cbn [mbind res_bind].
  assert (He' : infos (mem s1) !! info ve = Some ei') by (rewrite Es1; cbn; by rewrite lookup_insert_eq).
  cbn [mem with_notifier]. rewrite (get_info_ok _ _ _ He'). cbn [mbind res_bind counters with_counters].
  destruct (handle_remove_with_deques_exact cfg (with_notifier s1 nt) (incr_eviction_count (counters es)) ve ei' P Q B)
    as (s' & P' & Q' & B' & E2 & I2 & Hq & Hcache & Hinfos & _); [by apply inv_notifier|done|done|done|congruence|].
  rewrite E2. cbn [mbind res_bind]. eexists _, _. split; [by rewrite Hw'|]. split.
  - exists P', Q', B'. split; [exact I2|]. rewrite Hq. cbn [mem with_notifier]. rewrite (lru_order_queue _ _ _ _ _ _ I).
    f_equal. apply queue_ext. by rewrite Es1.
  - exists (kh_key (key_hash ei)). unfold info_key. rewrite He. split; [done|]. rewrite Hcache. cbn. by rewrite Es1.
  - intros e' Hne. rewrite Hinfos. cbn [mem with_notifier]. rewrite Es1. cbn. by rewrite !lookup_insert_ne.
  - done.
Qed.

Lemma front_of_queue s P Q B O ec : inv cfg s P Q B O ec ->
  match queue (mem s) P with
  | [] => peek_front (kheap (mem s)) (probation (deques s)) = Ok None
  | e :: l => e ∉ l /\ exists n, peek_front (kheap (mem s)) (probation (deques s)) = Ok (Some n) /\ khd_entry_info (element n) = e
  end.
Proof.
  intros I. pose proof (i_deqs I) as D. pose proof (di_prob _ _ _ _ D) as R.
  pose proof (queue_nodup (mem s) P (inv_inj_ao _ _ _ _ D) (repr_nodup _ _ _ R)) as Hnd.
  unfold peek_front. rewrite (repr_head _ _ _ R). pose proof (repr_seg _ _ _ R) as Hs. unfold queue in *. destruct P as [|p P]; [done|].
  destruct Hs as [[x Hx] _]. cbn [omap list_omap list.head] in *.
  assert (Ea : entry_at (kheap (mem s)) p = Some (khd_entry_info x)) by (unfold entry_at; by rewrite Hx).
  rewrite Ea in *. cbn in *. apply NoDup_cons in Hnd as [Hni _]. split; [done|]. eexists. unfold deref. rewrite Hx. by split.
Qed.

(** One round of the loop, when the entry at the front is settled. *)
Lemma lru_step_settled w s es P Q B more ev e l :
  inv cfg s P Q B [] (ec_entry_count (counters es)) -> queue (mem s) P = e :: l -> settled s e -> ev < w ->
  exists s1 es1, evict_lru_step w (s, es, more, ev) = Ok (false, (s1, es1, more, saturating_add 64 ev (info_weight s e))) /\
    pops e s es s1 es1.
Proof.
  intros I El (ei & He & Hd & Hr) Hlt. pose proof (front_of_queue _ _ _ _ _ _ I) as Hf. rewrite El in Hf.
  destruct Hf as (_ & n & Hpk & Hen). pose proof (instant_ok_some _ (iw_accessed _ (i_wf I _ _ He))) as Hla.
  destruct (evict_front s es P Q B (kh_key (key_hash ei))
    (fun _ vei => match last_accessed vei with Some la => la =? ei_last_accessed ei | None => false end) e ei I)
    as (s1 & es1 & E1 & Hp); [rewrite El; left|done|done|done| |].
  { intros _. unfold last_accessed. rewrite Hla. apply Z.eqb_refl. }
  exists s1, es1. split; [|done]. unfold evict_lru_step. rewrite (proj2 (Z.leb_gt w ev) Hlt). cbn [select_ao mbind res_bind].
  rewrite Hpk. cbn [mbind res_bind]. rewrite Hen, (get_info_ok _ _ _ He). cbn [mbind res_bind]. cbv zeta.
  rewrite Hd. unfold last_accessed at 1. rewrite Hla, E1. cbn [mbind res_bind]. unfold info_weight. by rewrite He.
Qed.

(** The entries behind the one that went are as before. *)
Lemma pops_rest e l s es s1 es1 :
  pops e s es s1 es1 -> lru_order s = e :: l -> e ∉ l ->
  forget e (lru_order s) = l /\ (info_weight s1 <$> l = info_weight s <$> l) /\
  (forall j, omap (info_key s1) (take j l) = omap (info_key s) (take j l)) /\
  (Forall (settled s) l -> Forall (settled s1) l).
Proof.
  intros Hp Hl Hni. assert (Hsame : forall e', e' ∈ l -> infos (mem s1) !! e' = infos (mem s) !! e').
  { intros e' Hin. apply (po_infos _ _ _ _ _ Hp). by intros ->. }
  split; [|split; [|split]].
  - rewrite Hl. unfold forget. rewrite filter_cons, decide_False by auto. by apply forget_absent.
  - apply list_fmap_ext. intros i e' Hin%list_elem_of_lookup_2. unfold info_weight. by rewrite Hsame.
  - intros j. assert (Hsub : forall e', e' ∈ take j l -> infos (mem s1) !! e' = infos (mem s) !! e').
    { intros e' (i & Hin%list_elem_of_lookup_2 & _)%elem_of_take. by apply Hsame. }
    clear -Hsub. induction (take j l) as [|e' l' IHl]; [done|]. cbn.
    assert (Ek : info_key s1 e' = info_key s e') by (unfold info_key; rewrite (Hsub e') by left; done).
    rewrite Ek, IHl; [done|]. intros e2 H2. apply Hsub. by right.
  - rewrite !Forall_forall. intros Hcl e' Hin. destruct (Hcl e' Hin) as (x & Hx & Hx'). exists x. by rewrite (Hsame e' Hin).
Qed.

(** The loop stops at the target, and at the end of the queue. *)
Lemma lru_step_stop w s es more ev :
  w <= ev \/ peek_front (kheap (mem s)) (probation (deques s)) = Ok None ->
  evict_lru_step w (s, es, more, ev) = Ok (true, (s, es, false, ev)).
Proof.
  intros Hstop. unfold evict_lru_step. destruct (Z.leb_spec w ev); [done|]. destruct Hstop as [|Hf]; [lia|].
  cbn [select_ao mbind res_bind]. by rewrite Hf.
Qed.

(** The outcome of evicting the first [k] entries of the queue [l]. *)
Definition evicts_prefix s es l k (out : res (evict_state (K := K) (V := V) * Z)) : Prop :=
  exists s' es' more' ev' P' Q' B', out = Ok (s', es', more', ev') /\
    inv cfg s' P' Q' B' [] (ec_entry_count (counters es')) /\ queue (mem s') P' = drop k l /\
    cache s' = drop_keys (omap (info_key s) (take k l)) (cache s) /\
    ec_entry_count (counters es') = ec_entry_count (counters es) - Z.of_nat k.

Lemma lru_loop w : forall batch s es P Q B more ev l,
  inv cfg s P Q B [] (ec_entry_count (counters es)) -> queue (mem s) P = l -> Forall (settled s) l ->
  evicts_prefix s es l (lru_prefix batch w ev (info_weight s <$> l)) (for_break batch (evict_lru_step w) (s, es, more, ev)).
Proof.
  induction batch as [|batch IH]; intros s es P Q B more ev l I El Hcl.
  { exists s, es, more, ev, P, Q, B. cbn. rewrite Z.sub_0_r. done. }
  assert (Hstop : forall m', evicts_prefix s es l 0 (Ok (s, es, m', ev))).
  { intros m'. exists s, es, m', ev, P, Q, B. cbn. rewrite Z.sub_0_r. done. }
  pose proof (front_of_queue _ _ _ _ _ _ I) as Hf. rewrite El in Hf. cbn [for_break].
  destruct (Z.leb_spec w ev) as [Hle|Hlt].
  { rewrite (lru_step_stop w s es more ev (or_introl Hle)). cbn [mbind res_bind].
    destruct l; cbn [fmap list_fmap lru_prefix]; [apply Hstop|]. rewrite (proj2 (Z.leb_le w ev) Hle). apply Hstop. }
  destruct l as [|e l].
  { rewrite (lru_step_stop w s es more ev (or_intror Hf)). apply Hstop. }
  destruct Hf as (Hni & _). apply Forall_cons in Hcl as [He Hcl]. cbn [fmap list_fmap lru_prefix]. rewrite (proj2 (Z.leb_gt w ev) Hlt).
  destruct (lru_step_settled w s es P Q B more ev e l I El He Hlt) as (s1 & es1 & -> & Hp). cbn [mbind res_bind].
  pose proof (lru_order_queue _ _ _ _ _ _ I) as Hlo. rewrite El in Hlo.
  destruct (pops_rest e l s es s1 es1 Hp Hlo Hni) as (Hfo & Hws & Hks & Hse).
  destruct Hp as [(P1 & Q1 & B1 & I1 & Hq1) (k & Hk & Hc1) _ Hn1]. rewrite Hfo in Hq1.
  destruct (IH s1 es1 P1 Q1 B1 more (saturating_add 64 ev (info_weight s e)) l I1 Hq1 (Hse Hcl))
    as (s' & es' & more' & ev' & P' & Q' & B' & E' & I' & Hq' & Hc' & Hn').
  rewrite Hws in *. exists s', es', more', ev', P', Q', B'. split; [exact E'|]. split; [done|]. cbn [drop take omap list_omap].
  rewrite Hk. split; [done|]. split; [|lia]. rewrite Hc', Hc1. unfold drop_keys. by rewrite Hks.
Qed.
End lru.
