(* ===== verification/Scan.v ===== *)
(** The scan that applies the registered predicates ([invalidate_entries] of
    src/sync/base_cache.rs with [scan_and_invalidate] of src/sync/invalidator.rs):
    it reads at most one turn of the write-order queue, and takes out only
    entries that a predicate accepts. *)
From S2P Require Import Prelude Common FrequencySketch Deque Time EntryInfo Concurrent Deques.
From S2P Require Import TimerWheel Policy Invalidator Inner InnerInv InnerRemove Admission Eviction.

(** ** The nodes a cursor has still to read *)

Fixpoint from (p : ptr) (l : list ptr) : list ptr :=
  match l with
  | [] => []
  | q :: l' => if decide (q = p) then l else from p l'
  end.

Lemma from_split l1 l2 p : NoDup (l1 ++ p :: l2) -> from p (l1 ++ p :: l2) = p :: l2.
Proof.
  induction l1 as [|x l1 IH]; cbn; intros Hnd; [by rewrite decide_True|].
  apply NoDup_cons in Hnd as [Hx Hnd]. rewrite decide_False; [by apply IH|].
  intros ->. apply Hx, elem_of_app. right. left.
Qed.

Definition to_read (l : list ptr) (c : option DeqCursor) : nat :=
  match read_cursor l c with
  | Some (CursorNode p) => length (from p l)
  | _ => 0
  end.

Lemma to_read_advanced l p :
  NoDup l -> p ∈ l -> S (to_read l (advanced l (Some (CursorNode p)))) = length (from p l).
Proof.
  intros Hnd (l1 & l2 & ->)%list_elem_of_split. cbn. rewrite succ_in_split, from_split by done.
  destruct l2 as [|q l2]; cbn; [done|]. unfold to_read. cbn.
  replace (l1 ++ p :: q :: l2) with ((l1 ++ [p]) ++ q :: l2) in * by (by rewrite <- app_assoc).
  by rewrite from_split.
Qed.

Lemma from_length p l : (length (from p l) <= length l)%nat.
Proof. induction l as [|q l IH]; cbn; [lia|]. case_decide; cbn; lia. Qed.

Lemma to_read_bound l c : (to_read l c <= length l)%nat.
Proof. unfold to_read. destruct (read_cursor l c) as [[p|]|]; try lia. apply from_length. Qed.

Section scan.
Context {K V : Type} `{Countable K}.
Variable cfg : Config K V.
Implicit Types (s : Inner K V) (c : EvictionCounters) (es : EvictionState) (ve : ValueEntry V) (m : Mem K) (e : eid)
  (P Q O : list ptr) (B : buckets).

Notation runs_es := (runs_es cfg).

(** Every node of the write-order queue refers to an entry. *)
Lemma write_order_entry s P Q B O ec p :
  inv cfg s P Q B O ec -> p ∈ Q ->
  exists n ei, cells (kheap (mem s)) !! p = Some n /\ infos (mem s) !! khd_entry_info (element n) = Some ei.
Proof.
  intros I Hp. pose proof (i_deqs I) as D. destruct (node_live _ _ _ _ (di_wo _ _ _ _ D) Hp) as [n Hn].
  assert (Hat : entry_at (kheap (mem s)) p = Some (khd_entry_info (element n))) by (unfold entry_at; by rewrite Hn).
  assert (Hwo : wo_of (mem s) (khd_entry_info (element n)) = Some p) by (by apply (di_wo_ptr _ _ _ _ D)).
  assert (Hdn : is_Some (dnodes (mem s) !! khd_entry_info (element n))).
  { unfold wo_of in Hwo. destruct (dnodes (mem s) !! khd_entry_info (element n)); [eauto|done]. }
  apply (i_nodes I) in Hdn as [ei He]. eauto.
Qed.

Lemma collect_candidates_spec s P Q B O ec n : inv cfg s P Q B O ec ->
  forall fuel d acc, Repr (kheap (mem s)) d Q -> (to_read Q (cursor d) < fuel)%nat ->
  exists cur acc', collect_candidates cfg fuel n s d acc = Ok (with_cursor d cur, acc') /\ cursor_in Q cur /\
    ((length acc <= n)%nat -> (length acc' <= n)%nat).
Proof.
  intros I. induction fuel as [|fuel IH]; intros d acc R Hf; [lia|].
  assert (Hdone : exists cur acc', Ok (d, acc) = Ok (with_cursor d cur, acc') /\ cursor_in Q cur /\
    ((length acc <= n)%nat -> (length acc' <= n)%nat)).
  { exists (cursor d), acc. split; [by destruct d|]. split; [apply R|done]. }
  cbn [collect_candidates]. destruct (length acc <? n)%nat eqn:Hn; [|done]. apply Nat.ltb_lt in Hn.
  destruct (iter_next_spec _ _ _ R) as (o & -> & Ho & Hc). cbn [mbind res_bind]. unfold to_read in Hf.
  destruct (read_cursor Q (cursor d)) as [[p|]|] eqn:Hr.
  - assert (Hp : p ∈ Q).
    { unfold read_cursor in Hr. pose proof (repr_cursor _ _ _ R) as Hcur. destruct (cursor d) as [[q|]|]; [by injection Hr as ->|done|].
      destruct Q as [|q Q']; [done|]. injection Hr as ->. left. }
    destruct (write_order_entry _ _ _ _ _ _ _ I Hp) as (nd & ei & Hnd & Hei). rewrite Hnd in Ho. cbn in Ho. subst o.
    rewrite (get_info_ok _ _ _ Hei). cbn [mbind res_bind].
    set (acc1 := if is_dirty ei then acc else _).
    destruct (IH (with_cursor d (advanced Q (Some (CursorNode p)))) acc1) as (cur & acc' & E & Hcur & Hlen).
    + by apply with_cursor_repr.
    + pose proof (to_read_advanced Q p (repr_nodup _ _ _ R) Hp). cbn [cursor with_cursor]. lia.
    + rewrite E. exists cur, acc'. split; [done|]. split; [done|]. intros _. apply Hlen.
      unfold acc1. destruct (is_dirty ei); [lia|]. destruct (last_modified ei); [rewrite length_app; cbn|]; lia.
  - subst o. exists (advanced Q (Some CursorDone)), acc. done.
  - subst o. exists (advanced Q None), acc. done.
Qed.

(** Moving the cursor changes nothing else. *)
Lemma inv_cursor s P Q B O ec cur :
  inv cfg s P Q B O ec -> cursor_in Q cur ->
  inv cfg (with_deques s (mem s) (set_write_order (deques s) (with_cursor (write_order (deques s)) cur))) P Q B O ec.
Proof.
  intros I Hcur. destruct I as [D]. split; try done. destruct D. split; try done. by apply with_cursor_repr.
Qed.

Lemma evolves_deques s c ds : evolves 0 0 s c (with_deques s (mem s) ds) c.
Proof. by apply evolves_quiet. Qed.

Lemma inv_invalidator s P Q B O ec i0 i :
  inv cfg s P Q B O ec -> invalidator s = Some i0 -> inv_wf i -> inv cfg (with_invalidator s (Some i)) P Q B O ec.
Proof.
  intros I Hi Hwf. destruct I. split; try done.
  - intros e. change (is_Some (wo_of (mem s) e) <-> wo_enabled cfg (with_invalidator s (Some i)) /\ is_Some (ao_of (mem s) e)).
    rewrite i_wo. unfold wo_enabled, is_write_order_queue_enabled. cbn [invalidator with_invalidator]. by rewrite Hi.
  - by intros j [= <-].
Qed.

Lemma evolves_invalidator s c i0 i : invalidator s = Some i0 -> evolves 0 0 s c (with_invalidator s (Some i)) c.
Proof.
  intros Hi. split; cbn; try (done || lia). by apply notified_same.
Qed.

(** ** Taking out the entries a predicate accepts *)

Lemma invalidate_one_notifies s key ts :
  invalidate_one s key ts =
    ('(s, removed) ← cht_remove_if_and_retire s key
       (fun _ vei => match last_modified vei with Some lm => lm =? ts | None => false end);
     match removed with
     | Some entry => s ← notify_if_enabled s key entry CauseExplicit; Ok (s, Some entry)
     | None => Ok (s, None)
     end).
Proof.
  unfold invalidate_one. destruct (cht_remove_if_and_retire _ _ _) as [[s1 [ve|]]|]; cbn; try done.
  unfold notify_if_enabled, notify_entry_removal, notify_single_removal, is_removal_notifier_enabled.
  by destruct (removal_notifier s1).
Qed.

(** The entries taken out so far are retired handles. *)
Definition retired_in m (l : list (KvEntry K V)) : Prop := forall kv, kv ∈ l ->
  ent_wf m (kv_entry kv) /\ exists ei, infos m !! info (kv_entry kv) = Some ei /\ is_retired ei = true.

Lemma retired_in_le m m' l : mem_le m m' -> retired_in m l -> retired_in m' l.
Proof.
  intros L R kv Hkv. destruct (R kv Hkv) as [Hve (ei & He & Hr)]. split; [by eapply ent_wf_le|].
  destruct (L _ _ He) as (ei' & He' & _ & Hr'). eauto.
Qed.

(** Each scanned candidate either stays, or a predicate accepts it and it goes. *)
Definition scanning s0 c (a : Inner K V * list (KvEntry K V)) : Prop :=
  good cfg [] a.1 c /\ evolves 0 0 s0 c a.1 c /\ invalidator a.1 = invalidator s0 /\ retired_in (mem a.1) a.2.

Lemma scan_candidate_spec ps s0 c a kd :
  scanning s0 c a -> exists a', scan_candidate ps a kd = Ok a' /\ scanning s0 c a'.
Proof.
  intros A. destruct a as [s l]. pose proof A as (G & Ev & Hi & Hl). cbn in G, Ev, Hi, Hl. unfold scan_candidate, predicate_applies.
  assert (Hb : exists b, match cht_get s (kdl_key kd) with
    | Some entry => ei ← get_info (mem s) (info entry);
        match last_modified ei with
        | Some lm => Ok ((lm =? kdl_timestamp kd) && do_apply_predicates ps (kdl_key kd) (value entry) lm)
        | None => Ok false end
    | None => Ok false end = Ok b).
  { unfold cht_get. destruct (cache s !! kdl_key kd) as [ve|] eqn:Hc; [|eauto].
    destruct G as (_ & P & Q & B & I). destruct (i_cache I _ _ Hc) as (_ & ei & He & _).
    rewrite (get_info_ok _ _ _ He). cbn. destruct (last_modified ei); eauto. }
  destruct Hb as [b ->]. cbn [mbind res_bind]. destruct b; [|by eexists].
  rewrite invalidate_one_notifies.
  destruct (remove_notify cfg [] s c (kdl_key kd) (fun _ vei => match last_modified vei with Some lm => lm =? kdl_timestamp kd | None => false end)
    CauseExplicit G) as [->|(ve & s1 & s2 & R)]; cbn [mbind res_bind]; [by eexists|].
  rewrite (rm_run R). cbn [mbind res_bind]. rewrite (rm_notify R). cbn [mbind res_bind].
  eexists. split; [reflexivity|]. split; [apply (rm_good R)|]. cbn [fst snd].
  split; [exact (evolves_trans 0 0 0 0 _ _ _ _ _ _ Ev (rm_evolves R))|]. split.
  - rewrite <- Hi. exact (proj2 (removes_timers cfg _ _ _ _ _ _ _ _ _ R)).
  - intros kv [Hkv|Hkv%list_elem_of_singleton]%elem_of_app.
    + eapply retired_in_le; [apply (ev_mem (rm_evolves R))|exact Hl|done].
    + subst kv. split; [apply R|]. destruct (rm_retired R) as (ei & He & Hr & _). eauto.
Qed.

Lemma remove_finished_ok (i : Invalidator K V) b l :
  l <> [] -> inv_wf i ->
  exists i', remove_finished_predicates i b (kdl_timestamp <$> last (l : list (KeyDateLite K))) = Ok i' /\ inv_wf i'.
Proof.
  intros Hl Hwf. destruct (exists_last Hl) as (l' & x & ->). rewrite last_snoc. cbn.
  destruct (remove_finished_predicates i b (Some (kdl_timestamp x))) as [i'|] eqn:E.
  - exists i'. split; [done|]. by eapply remove_finished_wf.
  - unfold remove_finished_predicates in E. by destruct b.
Qed.

Lemma scan_and_invalidate_spec s c i l b :
  good cfg [] s c -> inv_wf i -> l <> [] ->
  exists s' dead i' fin, scan_and_invalidate s i l b = Ok (s', dead, i', fin) /\
    scanning s c (s', dead) /\ inv_wf i'.
Proof.
  intros G Hwf Hl. unfold scan_and_invalidate. set (ps := match scan_context i with [] => _ | _ => _ end).
  destruct (foldM_inv (scanning s c) (scan_candidate ps) l (s, [])) as ([s' dead] & -> & A).
  - split; [done|]. split; [apply evolves_refl|]. split; [done|]. intros kv Hkv. by apply elem_of_nil in Hkv.
  - intros a kd _ Ha. by apply scan_candidate_spec.
  - cbn [mbind res_bind].
    destruct (remove_finished_ok (mkInvalidator (predicates i) (inv_is_empty i) ps) b l Hl) as (i' & -> & Hwf'); [done|].
    cbn [mbind res_bind]. eexists _, _, _, _. split; [reflexivity|]. done.
Qed.

(** Unlinking the entries that were taken out. *)
Lemma handle_all s c dead :
  good cfg [] s c -> retired_in (mem s) dead ->
  runs cfg 0 0 [] s c (foldM (fun '(s, c) kv => handle_remove s (kv_entry kv) None c) (s, c) dead).
Proof.
  revert s c. induction dead as [|kv dead IH]; intros s c G Hd; cbn [foldM].
  - exists s, c. split; [done|]. split; [done|apply evolves_refl].
  - destruct (Hd kv) as [Hve (ei & He & Hr)]; [left|].
    destruct (handle_remove_spec cfg s c (kv_entry kv) None ei G Hve He Hr) as (s1 & c1 & -> & G1 & Ev1); [done|].
    cbn [mbind res_bind]. apply (runs_trans cfg 0 0 0 0 [] s c s1 c1 _ Ev1). apply IH; [done|].
    eapply retired_in_le; [apply (ev_mem Ev1)|]. intros x Hx. apply Hd. by right.
Qed.

Lemma good_step O s c s' :
  good cfg O s c -> (forall P Q B ec, inv cfg s P Q B O ec -> exists P' Q' B', inv cfg s' P' Q' B' O ec) -> good cfg O s' c.
Proof. intros (Hws & P & Q & B & I) Hs. split; [done|]. eauto. Qed.

Lemma invalidate_entries_spec s i n now es :
  good cfg [] s (counters es) -> invalidator s = Some i ->
  runs_es 0 0 s es (invalidate_entries cfg s i n now es).
Proof.
  intros G Hi. assert (Hwf : inv_wf i) by (destruct G as (_ & P & Q & B & I); by apply (i_pred I)).
  unfold invalidate_entries. destruct (len (write_order (deques s)) =? 0) eqn:Hlen.
  { eexists _, es. split; [reflexivity|]. split; [|by eapply evolves_invalidator].
    eapply good_step; [exact G|]. intros P Q B ec I. do 3 eexists. eapply inv_invalidator; [exact I|exact Hi|].
    apply remove_ids_wf, Hwf. }
  destruct G as (Hws & P & Q & B & I). pose proof (di_wo _ _ _ _ (i_deqs I)) as R.
  destruct (collect_candidates_spec s P Q B [] _ n I (S (Z.to_nat (len (write_order (deques s))))) _ [] R) as (cur & l & -> & Hcur & _).
  { rewrite (repr_len _ _ _ R), Nat2Z.id. pose proof (to_read_bound Q (cursor (write_order (deques s)))). lia. }
  cbn [mbind res_bind]. pose proof (with_cursor_repr _ _ _ _ R Hcur) as R1.
  destruct (iter_next_spec _ _ _ R1) as (o & -> & _ & Hcur2). cbn [mbind res_bind].
  change (with_cursor (with_cursor ?d _) ?c) with (with_cursor d c).
  pose proof (inv_cursor _ _ _ _ _ _ _ I Hcur2) as I1.
  set (s1 := with_deques s (mem s) _) in *.
  assert (Ev1 : evolves 0 0 s (counters es) s1 (counters es)) by apply evolves_deques.
  assert (G1 : good cfg [] s1 (counters es)) by (split; [done|eauto]).
  destruct (length l =? 0)%nat eqn:Hl; [by exists s1, es|]. apply Nat.eqb_neq in Hl.
  destruct (scan_and_invalidate_spec s1 (counters es) i l ((length l =? n)%nat && bool_decide (is_Some o)) G1 Hwf)
    as (s2 & dead & i' & fin & -> & (G2 & Ev2 & Hi2 & Hd2) & Hwf'); [by intros ->|].
  cbn [mbind res_bind]. cbn in G2, Ev2, Hi2, Hd2.
  assert (G3 : good cfg [] (with_invalidator s2 (Some i')) (counters es)).
  { eapply good_step; [exact G2|]. intros P' Q' B' ec I'. do 3 eexists. eapply inv_invalidator; [exact I'| |done]. by rewrite Hi2. }
  destruct (handle_all (with_invalidator s2 (Some i')) (counters es) dead G3) as (s4 & c4 & -> & G4 & Ev4); [done|].
  cbn [mbind res_bind].
  assert (Ev3 : evolves 0 0 s2 (counters es) (with_invalidator s2 (Some i')) (counters es))
    by (eapply evolves_invalidator; by rewrite Hi2).
  pose proof (evolves_trans 0 0 0 0 _ _ _ _ _ _ (evolves_trans 0 0 0 0 _ _ _ _ _ _ Ev1 Ev2)
    (evolves_trans 0 0 0 0 _ _ _ _ _ _ Ev3 Ev4)) as Ev.
  set (s5 := if fin then _ else _).
  assert (H5 : good cfg [] s5 c4 /\ evolves 0 0 s (counters es) s5 c4).
  { unfold s5. destruct fin; [|done]. split.
    - eapply good_step; [exact G4|]. intros P' Q' B' ec I'. do 3 eexists. by apply inv_cursor.
    - exact (evolves_trans 0 0 0 0 _ _ _ _ _ _ Ev (evolves_deques _ _ _)). }
  eexists s5, _. split; [reflexivity|]. by destruct (inv_is_empty i').
Qed.
End scan.
