(* ===== verification/Maintenance.v ===== *)
(** The maintenance task ([do_run_pending_tasks] of src/sync/base_cache.rs): it
    applies the logs, evicts, and repeats while that makes progress.  It
    terminates, it does not fault, and the cache's invariant holds before and
    after. *)
From S2P Require Import Prelude Common FrequencySketch Deque Time EntryInfo Concurrent Deques.
From S2P Require Import TimerWheel Policy Invalidator Inner InnerInv InnerRemove Admission Eviction Scan.

Section maintenance.
Context {K V : Type} `{Countable K}.
Variable cfg : Config K V.
Implicit Types (s : Inner K V) (c : EvictionCounters) (es : EvictionState) (ve : ValueEntry V) (m : Mem K) (e : eid)
  (P Q O : list ptr) (B : buckets).

Notation runs_es := (runs_es cfg).

(** ** When the frequency sketch cannot fault *)

(** In a build without overflow checks the plain operators of the sketch wrap and
    every configuration is safe.  With overflow checks those are safe that never
    count (LRU, or no capacity), and those whose table is not much larger than their
    capacity: no weigher, at most [2^27] entries, and four fifths of the next power
    of two (a capacity below 128 counts as 128).  Others can reach the underflow of
    [reset] ([reset_underflow_reachable]). *)
Definition sketch_safe : Prop :=
  overflow_checks cfg = true -> eviction_policy cfg = TinyLfu ->
  match max_capacity cfg with
  | None => True
  | Some cap => weigher cfg = None /\
      let c := sketch_capacity cap in c <= 2 ^ 27 /\ 4 * next_power_of_two c <= 5 * c
  end.

Lemma sketch_safe_unchecked : overflow_checks cfg = false -> sketch_safe.
Proof. intros E. unfold sketch_safe. by rewrite E. Qed.

Lemma sketch_safe_lru : eviction_policy cfg = Lru -> sketch_safe.
Proof. intros E _. by rewrite E. Qed.

Lemma sketch_safe_power n :
  weigher cfg = None -> max_capacity cfg = Some (2 ^ n) -> 7 <= n <= 27 -> sketch_safe.
Proof.
  intros Hw Hm Hn _ _. rewrite Hm. split; [done|]. cbv zeta.
  assert (H7 : 2 ^ 7 <= 2 ^ n) by (apply Z.pow_le_mono_r; lia).
  assert (H27 : 2 ^ n <= 2 ^ 27) by (apply Z.pow_le_mono_r; lia).
  assert (E : sketch_capacity (2 ^ n) = 2 ^ n).
  { unfold sketch_capacity. rewrite (proj2 (Z.leb_le _ _)) by (unfold U32_MAX; lia). lia. }
  rewrite E. split; [done|]. unfold next_power_of_two. rewrite Z.log2_up_pow2; lia.
Qed.

Lemma sketch_capacity_range cap : 128 <= sketch_capacity cap <= U32_MAX.
Proof. unfold sketch_capacity, U32_MAX. destruct (Z.leb_spec cap (2 ^ 32 - 1)); lia. Qed.

Context (Hsafe : sketch_safe).

(** The sketch of a safe configuration is one on which no operator faults. *)
Lemma enabled_sketch_ok s c :
  eviction_policy cfg = TinyLfu ->
  sketch_ok (overflow_checks cfg) (frequency_sketch (enable_frequency_sketch cfg (with_sketch s default_sketch false) c)).
Proof.
  intros Hp. unfold enable_frequency_sketch. destruct (max_capacity cfg) as [cap|] eqn:Hcap; cbn.
  2:{ split; [apply default_sketch_shape|]. intros _. split; [apply default_sketch_wf|by left]. }
  set (c0 := match weigher cfg with None => _ | Some _ => _ end). pose proof (sketch_capacity_range c0) as Hr.
  split; [apply ensure_capacity_shape; [apply default_sketch_shape|lia]|]. intros Hc.
  split; [apply ensure_capacity_keeps_wf; [apply default_sketch_wf|lia]|].
  specialize (Hsafe Hc Hp). rewrite Hcap in Hsafe. destruct Hsafe as [Hw [H27 H5]]. subst c0. rewrite Hw in *.
  apply close_capacity_reset_safe; [lia|done].
Qed.

Lemma enable_sketch_step s P Q B O ec c :
  inv cfg s P Q B O ec -> eviction_policy cfg = TinyLfu -> should_enable_frequency_sketch cfg s c = true ->
  inv cfg (enable_frequency_sketch cfg s c) P Q B O ec /\
  forall c', evolves 0 0 s c' (enable_frequency_sketch cfg s c) c'.
Proof.
  intros I Hp Hen. unfold should_enable_frequency_sketch in Hen.
  destruct (max_capacity cfg) as [cap|] eqn:Hcap; [|done].
  assert (Hoff : frequency_sketch_enabled s = false).
  { destruct (cap =? 0); [done|]. by destruct (frequency_sketch_enabled s). }
  pose proof (enabled_sketch_ok s c Hp) as Hs. unfold enable_frequency_sketch in *. rewrite Hcap in *. cbn in Hs.
  destruct (i_sketch I) as (_ & Hdef). rewrite <- (Hdef Hoff) in Hs. split.
  - by apply inv_sketch.
  - intros c'. apply evolves_sketch.
Qed.

Lemma process_logs_spec s es :
  good cfg [] s (counters es) ->
  ec_entry_count (counters es) + log_entries (write_op_ch s) <= U64_MAX ->
  ec_weighted_size (counters es) + log_weight (write_op_ch s) <= U64_MAX ->
  exists s' es', process_logs cfg s es = Ok (s', es') /\ good cfg [] s' (counters es') /\
    evolves (log_entries (write_op_ch s)) (log_weight (write_op_ch s))
      (with_writes (with_reads s []) []) (counters es) s' (counters es').
Proof.
  intros G Hec Hws. unfold process_logs.
  destruct (apply_reads_spec cfg _ s (counters es) eq_refl G) as (s1 & -> & G1 & Ev1). cbn [mbind res_bind].
  pose proof (ev_writes Ev1) as Hw1. cbn in Hw1.
  destruct (apply_writes_spec cfg (write_op_ch s1) s1 es eq_refl G1) as (s2 & es2 & -> & G2 & Ev2); [by rewrite Hw1|by rewrite Hw1|].
  cbn [mbind res_bind]. rewrite Hw1 in Ev2.
  pose proof (evolves_trans 0 0 _ _ _ _ _ _ _ _ (evolves_with_writes _ _ _ _ _ _ [] Ev1) Ev2) as Ev.
  eexists _, es2. split; [reflexivity|].
  destruct (bool_decide (eviction_policy cfg = TinyLfu) && should_enable_frequency_sketch cfg s2 (counters es2)) eqn:Hb; [|done].
  apply andb_true_iff in Hb as [Hp Hen]. apply bool_decide_eq_true in Hp.
  destruct G2 as (Hws2 & P & Q & B & I). destruct (enable_sketch_step _ _ _ _ _ _ _ I Hp Hen) as [I' Ev'].
  split; [split; [done|eauto]|]. pose proof (evolves_trans _ _ 0 0 _ _ _ _ _ _ Ev (Ev' _)) as Ev3. by rewrite !Z.add_0_r in Ev3.
Qed.

Lemma evict_round_spec s es n t : good cfg [] s (counters es) -> runs_es 0 0 s es (evict_round cfg s es n t).
Proof.
  intros G. unfold evict_round. apply (runs_es_bind cfg 0 0 0 0).
  { destruct (is_enabled (timer_wheel s)) eqn:En; [by apply evict_expired_entries_using_timers_spec|by apply runs_es_done]. }
  intros s1 es1 G1 _. apply (runs_es_bind cfg 0 0 0 0).
  { destruct (_ || _); [by apply evict_expired_entries_using_deqs_spec|by apply runs_es_done]. }
  intros s2 es2 G2 _. apply (runs_es_bind cfg 0 0 0 0).
  { destruct (invalidator s2) as [i|] eqn:Hi; [|by apply runs_es_done].
    destruct (inv_is_empty i); [by apply runs_es_done|by apply invalidate_entries_spec]. }
  intros s3 es3 G3 _. cbv zeta. destruct (0 <? _); [by apply evict_lru_entries_spec|by apply runs_es_done].
Qed.

(** The rounds after the logs are empty: each one but the last evicts. *)
Lemma maintenance_rounds fuel : forall rd round timeout reps n calls s es,
  good cfg [] s (counters es) -> read_op_ch s = [] -> write_op_ch s = [] ->
  ec_eviction_count (counters es) <= U64_MAX -> (size (cache s) < fuel)%nat ->
  runs_es 0 0 s es (maintenance_loop cfg fuel rd round timeout reps n false calls s es).
Proof.
  induction fuel as [|fuel IH]; intros rd round timeout reps n calls s es G Hr Hw Hevc Hf; [lia|].
  cbn [maintenance_loop mbind res_bind].
  destruct (evict_round_spec s (with_more es false) n (rd round) G) as (s1 & es1 & -> & G1 & Ev1). cbn [mbind res_bind].
  cbn [counters with_more] in Ev1. rewrite (ev_reads Ev1), (ev_writes Ev1), Hr, Hw. rewrite andb_false_r.
  pose proof (ev_evictions Ev1 Hevc) as Hmono. cbn [counters with_more]. rewrite checked_sub_ok by lia. cbn [mbind res_bind negb andb].
  assert (Hret : runs_es 0 0 s es (Ok (s1, es1))) by (by exists s1, es1).
  destruct (more_entries_to_evict es1 && (0 <? _)) eqn:Hmore; cbn [negb]; [|done].
  apply andb_true_iff in Hmore as [_ Hmore]. apply Z.ltb_lt in Hmore.
  destruct (match timeout with Some _ => _ | None => _ end); [done|].
  apply (runs_es_trans cfg 0 0 0 0 s es s1 es1 _ Ev1). apply IH; try done.
  - by rewrite (ev_reads Ev1).
  - by rewrite (ev_writes Ev1).
  - lia.
  - pose proof (ev_size Ev1). lia.
Qed.

Lemma good_counters O s c c' :
  ec_entry_count c' = ec_entry_count c -> ec_weighted_size c' = ec_weighted_size c -> good cfg O s c -> good cfg O s c'.
Proof. intros E1 E2 [Hw G]. split; [by rewrite E2|by rewrite E1]. Qed.

Lemma inv_with_counts s P Q B O ec n w : inv cfg s P Q B O ec -> inv cfg (with_counts s n w) P Q B O ec.
Proof. by intros []. Qed.

(** Between two operations the counters of the cache are those of the invariant. *)
Definition cache_inv s : Prop := good cfg [] s (new_counters (entry_count s) (weighted_size s)).

(** What the counters may reach once the pending writes are applied. *)
Definition entry_bound s : Z := entry_count s + log_entries (write_op_ch s).
Definition weight_bound s : Z := weighted_size s + log_weight (write_op_ch s).
(** The counters cannot overflow while the pending writes are applied. *)
Definition within_budget s : Prop := entry_bound s <= U64_MAX /\ weight_bound s <= U64_MAX.

Lemma maintenance_loop_spec rd timeout reps n s es :
  good cfg [] s (counters es) -> 0 <= reps -> ec_eviction_count (counters es) <= U64_MAX ->
  ec_entry_count (counters es) + log_entries (write_op_ch s) <= U64_MAX ->
  ec_weighted_size (counters es) + log_weight (write_op_ch s) <= U64_MAX ->
  exists s' es', maintenance_loop cfg (maintenance_fuel reps s) rd 0 timeout reps n true 0 s es = Ok (s', es') /\
    good cfg [] s' (counters es') /\
    evolves (log_entries (write_op_ch s)) (log_weight (write_op_ch s))
      (with_writes (with_reads s []) []) (counters es) s' (counters es').
Proof.
  intros G Hreps Hevc Hec Hws. unfold maintenance_fuel. rewrite Nat.add_succ_r. cbn [maintenance_loop].
  destruct (process_logs_spec s es G Hec Hws) as (s1 & es1 & -> & G1 & Ev1). cbn [mbind res_bind].
  change (checked_add 32 0 1) with (Ok 1). cbn [mbind res_bind].
  pose proof (ev_evictions Ev1 Hevc) as Hevc1.
  destruct (evict_round_spec s1 (with_more es1 false) n (rd 0%nat) G1) as (s2 & es2 & -> & G2 & Ev2). cbn [mbind res_bind].
  cbn [counters with_more] in Ev2. rewrite (ev_reads Ev2), (ev_writes Ev2), (ev_reads Ev1), (ev_writes Ev1).
  cbn [read_op_ch write_op_ch with_reads with_writes length]. rewrite andb_false_r.
  pose proof (ev_evictions Ev2 (proj2 Hevc1)) as Hevc2. cbn [counters with_more]. rewrite checked_sub_ok by lia.
  cbn [mbind res_bind negb andb]. pose proof (evolves_trans _ _ 0 0 _ _ _ _ _ _ Ev1 Ev2) as Ev12. rewrite !Z.add_0_r in Ev12.
  destruct (more_entries_to_evict es2 && _); cbn [negb]; [|by exists s2, es2].
  destruct (match timeout with Some _ => _ | None => _ end); [by exists s2, es2|].
  destruct (maintenance_rounds (2 * Z.to_nat reps + size (cache s) + 3)%nat rd 1 timeout reps n 1 s2 es2)
    as (s3 & es3 & -> & G3 & Ev3); try done.
  - by rewrite (ev_reads Ev2), (ev_reads Ev1).
  - by rewrite (ev_writes Ev2), (ev_writes Ev1).
  - lia.
  - pose proof (map_subseteq_size _ _ (ev_cache Ev12)) as Hsz. cbn in Hsz. lia.
  - exists s3, es3. do 2 (split; [done|]). pose proof (evolves_trans _ _ 0 0 _ _ _ _ _ _ Ev12 Ev3) as Ev. by rewrite !Z.add_0_r in Ev.
Qed.

Lemma run_pending_tasks_ok rd started s timeout reps n :
  cache_inv s -> within_budget s -> 0 <= reps ->
  exists s' more, do_run_pending_tasks cfg rd started s timeout reps n = Ok (s', more) /\
    cache_inv s' /\ cache s' ⊆ cache s /\ notified s s' /\ mem_le (mem s) (mem s') /\ same_view (mem s) (mem s') /\
    valid_after s' = valid_after s /\ (is_Some (invalidator s') <-> is_Some (invalidator s)) /\
    entry_bound s' <= entry_bound s /\ weight_bound s' <= weight_bound s /\
    (max_capacity cfg <> Some 0 -> read_op_ch s' = [] /\ write_op_ch s' = []) /\
    (max_capacity cfg = Some 0 -> s' = s).
Proof.
  intros G [Hec Hws] Hreps. unfold do_run_pending_tasks.
  destruct (bool_decide (max_capacity cfg = Some 0)) eqn:Hz.
  { apply bool_decide_eq_true in Hz. exists s, false. do 3 (split; [done|]). split; [by apply notified_same|].
    do 6 (split; [done|]). split; done. }
  destruct (maintenance_loop_spec rd ((fun t => (t, started)) <$> timeout) reps n s
    (new_eviction_state (entry_count s) (weighted_size s)) G Hreps) as (s1 & es1 & -> & G1 & Ev1); [done|done|done|].
  cbn [mbind res_bind]. destruct (ev_counts Ev1) as [Hc1 Hc2]. cbn in Hc1, Hc2. rewrite Hc1, Hc2, !Z.eqb_refl. cbn [assert_that mbind res_bind].
  eexists _, _. split; [reflexivity|]. split.
  { destruct G1 as (Hw1 & P & Q & B & I). split; [done|]. exists P, Q, B. by apply inv_with_counts. }
  split; [apply (ev_cache Ev1)|]. split; [apply (ev_notified Ev1)|]. split; [apply (ev_mem Ev1)|].
  split; [apply (ev_view Ev1)|]. split; [apply (ev_valid Ev1)|]. split; [apply (ev_enabled Ev1)|].
  pose proof (ev_writes Ev1) as Hw1. cbn in Hw1. pose proof (ev_ec Ev1). pose proof (ev_ws Ev1).
  unfold entry_bound, weight_bound. cbn [write_op_ch with_counts entry_count weighted_size]. rewrite Hw1.
  cbn in *. split; [lia|]. split; [lia|]. split; [intros _; split; [apply (ev_reads Ev1)|done]|].
  intros E. by apply bool_decide_eq_false in Hz.
Qed.
End maintenance.
