(* ===== verification/Operations.v ===== *)
(** The operations of src/sync/base_cache.rs and src/sync/cache.rs keep the
    cache's invariant: each one ends without a fault, and the operation it
    records is well formed. *)
From S2P Require Import Prelude Common FrequencySketch Deque Time Housekeeper EntryInfo Concurrent Deques.
From S2P Require Import TimerWheel Policy Invalidator Inner BaseCache InnerInv InnerRemove Admission Eviction Maintenance.

(** What the code relies on of the user's functions: their results are values of
    the unsigned types [u32] and [Duration].  And of the clock: it was created more
    than 584 years (the range of the cache's instants) before the last instant of
    [std::time]. *)
Record user_ok {K V} (cfg : Config K V) : Prop := {
  uo_weigher : forall w k v, weigher cfg = Some w -> 0 <= w k v <= U32_MAX;
  uo_create : forall ex k v t d, expiry (expiration_policy cfg) = Some ex ->
    expire_after_create_fn ex k v t = Some d -> 0 <= d;
  uo_read : forall ex k v t d0 t' d, expiry (expiration_policy cfg) = Some ex ->
    expire_after_read_fn ex k v t d0 t' = Some d -> 0 <= d;
  uo_update : forall ex k v t d0 d, expiry (expiration_policy cfg) = Some ex ->
    expire_after_update_fn ex k v t d0 = Some d -> 0 <= d;
  uo_clock : clock_origin cfg + U64_MAX <= STD_MAX
}.

Section operations.
Context {K V : Type} `{Countable K}.
Variable cfg : Config K V.
Implicit Types (s : Inner K V) (ve : ValueEntry V) (m : Mem K) (e : eid) (ei : EntryInfo K)
  (P Q O : list ptr) (B : buckets).

(** ** Changes of an entry's metadata *)

(** A change by an operation: the fields it may write, within their ranges. *)
Record retouched ei ei' : Prop := {
  rt_key : key_hash ei' = key_hash ei;
  rt_admitted : is_admitted ei' = is_admitted ei;
  rt_retired : is_retired ei' = is_retired ei;
  rt_wf : info_wf ei'
}.

Lemma retouched_trans ei ei1 ei2 : retouched ei ei1 -> retouched ei1 ei2 -> retouched ei ei2.
Proof. intros [] []. split; congruence || done. Qed.

Lemma retouched_gen ei : info_wf ei -> retouched ei (fst (incr_entry_gen ei)) /\ 0 <= snd (incr_entry_gen ei) <= U16_MAX.
Proof.
  intros Hwf. pose proof (wrap_range 16 (entry_gen ei + 1) ltac:(lia)) as Hr.
  split; [|cbn; unfold wrapping_add, U16_MAX; lia]. destruct Hwf. split; try done. split; try done.
  cbn. unfold wrapping_add, U16_MAX. lia.
Qed.

Lemma retouched_accessed ei t : info_wf ei -> instant_ok t ->
  exists ei', set_last_accessed ei t = Ok ei' /\ retouched ei ei' /\ ei_last_accessed ei' = t /\
    ei_last_modified ei' = ei_last_modified ei /\ exp_state ei' = exp_state ei.
Proof.
  intros Hwf Ht. unfold set_last_accessed. destruct (set_instant_ok (ei_last_accessed ei) t Ht) as [-> _]. cbn.
  eexists. split; [reflexivity|]. destruct Hwf. split; [|done]. split; try done.
Qed.

Lemma retouched_modified ei t : info_wf ei -> instant_ok t ->
  exists ei', set_last_modified ei t = Ok ei' /\ retouched ei ei' /\ ei_last_modified ei' = t /\
    ei_last_accessed ei' = ei_last_accessed ei /\ exp_state ei' = exp_state ei.
Proof.
  intros Hwf Ht. unfold set_last_modified. destruct (set_instant_ok (ei_last_modified ei) t Ht) as [-> _]. cbn.
  eexists. split; [reflexivity|]. destruct Hwf. split; [|done]. split; try done.
Qed.

Lemma retouched_weight ei w : info_wf ei -> 0 <= w <= U32_MAX -> retouched ei (set_policy_weight ei w).
Proof. intros [] Hw. split; try done. Qed.

Lemma retouched_expiration ei time :
  info_wf ei -> (forall t, time = Some t -> instant_ok t) ->
  retouched ei (fst (set_expiration_time ei time)) /\
  fst (expiration_state (fst (set_expiration_time ei time))) = stored_time <$> time.
Proof.
  intros Hwf Ht. pose proof (set_expiration_state ei time Hwf) as Hs.
  assert (Hr : forall t, time = Some t -> 0 <= t < 2 ^ 64).
  { intros t E. destruct (Ht t E). unfold MAX_NANOS, U64_MAX in *. lia. }
  destruct (set_expiration_time ei time) as [ei' g] eqn:E. destruct (Hs Hr) as (_ & Hst & Hwf').
  unfold set_expiration_time in E. injection E as <- _. split; [by split|]. cbn [fst]. by rewrite Hst.
Qed.

(** ** Steps of an operation *)

(** The queues, the wheel, the counters and the logs are as before. *)
Record op_step s s' : Prop := {
  os_inv : forall P Q B O ec, inv cfg s P Q B O ec -> inv cfg s' P Q B O ec;
  os_mem : mem_le (mem s) (mem s');
  os_unadmitted : unadmitted (mem s) (mem s');
  os_logs : read_op_ch s' = read_op_ch s /\ write_op_ch s' = write_op_ch s;
  os_counts : entry_count s' = entry_count s /\ weighted_size s' = weighted_size s
}.

Lemma op_step_refl s : op_step s s.
Proof. by split. Qed.
Lemma op_step_trans s s1 s2 : op_step s s1 -> op_step s1 s2 -> op_step s s2.
Proof.
  intros [I1 M1 U1 [L1 L1'] [C1 C1']] [I2 M2 U2 [L2 L2'] [C2 C2']].
  split; [auto|by transitivity (mem s1)|by transitivity (mem s1)|split; congruence|split; congruence].
Qed.

Lemma op_step_cache_inv s s' : op_step s s' -> cache_inv cfg s -> cache_inv cfg s'.
Proof.
  intros [I _ _ _ [C1 C2]] (Hw & P & Q & B & J). unfold cache_inv, good. rewrite C1, C2. split; [done|]. eauto.
Qed.

Lemma op_step_bounds s s' : op_step s s' -> entry_bound s' = entry_bound s /\ weight_bound s' = weight_bound s.
Proof. intros [_ _ _ [_ L] [C1 C2]]. unfold entry_bound, weight_bound. by rewrite L, C1, C2. Qed.

Lemma put_info_step s e ei ei' : infos (mem s) !! e = Some ei -> retouched ei ei' ->
  op_step s (with_mem s (put_info (mem s) e ei')).
Proof.
  intros He [Hk Ha Hr Hwf]. split; try done.
  - intros P Q B O ec I. by eapply inv_put_info.
  - apply mem_le_put with ei; congruence.
  - apply unadmitted_put with ei; congruence.
Qed.

Lemma notifier_step s n : op_step s (with_notifier s n).
Proof. split; try done. intros P Q B O ec. apply inv_notifier. Qed.

Lemma notify_single_step s key ve cause : op_step s (notify_single_removal s key ve cause).
Proof. unfold notify_single_removal. destruct (removal_notifier s); [apply notifier_step|apply op_step_refl]. Qed.

(** ** A new entry *)

Definition add_entry m ei : Mem K := put_nodes (fst (alloc_info m ei)) (next_eid m) default_deq_nodes.

Lemma add_entry_lookup m ei e : infos (add_entry m ei) !! e = if decide (e = next_eid m) then Some ei else infos m !! e.
Proof. cbn. case_decide as E; [by rewrite E, lookup_insert_eq|by rewrite lookup_insert_ne]. Qed.
Lemma add_entry_nodes m ei e :
  dnodes (add_entry m ei) !! e = if decide (e = next_eid m) then Some default_deq_nodes else dnodes m !! e.
Proof. cbn. case_decide as E; [by rewrite E, lookup_insert_eq|by rewrite lookup_insert_ne]. Qed.

Lemma fresh_info s P Q B O ec : inv cfg s P Q B O ec -> infos (mem s) !! next_eid (mem s) = None.
Proof.
  intros I. apply eq_None_not_Some. intros Hx. pose proof (i_fresh I _ Hx). lia.
Qed.
Lemma fresh_nodes s P Q B O ec : inv cfg s P Q B O ec -> dnodes (mem s) !! next_eid (mem s) = None.
Proof.
  intros I. apply eq_None_not_Some. rewrite (i_nodes I), (fresh_info _ _ _ _ _ _ I). by intros [? ?].
Qed.

(** The nodes of a fresh entry disturb neither the queues nor the wheel. *)
Lemma add_entry_ptrs s P Q B O ec ei e : inv cfg s P Q B O ec ->
  ao_of (add_entry (mem s) ei) e = ao_of (mem s) e /\ wo_of (add_entry (mem s) ei) e = wo_of (mem s) e /\
  tn_of (add_entry (mem s) ei) e = tn_of (mem s) e.
Proof.
  intros I. pose proof (fresh_nodes _ _ _ _ _ _ I) as Hf. unfold ao_of, wo_of, tn_of. rewrite add_entry_nodes.
  case_decide as E; [rewrite E, Hf|]; done.
Qed.

Lemma inv_add_entry s P Q B O ec key v ei :
  inv cfg s P Q B O ec -> cache s !! key = None ->
  kh_key (key_hash ei) = key -> is_admitted ei = false -> is_retired ei = false -> info_wf ei ->
  inv cfg (with_cache (with_mem s (add_entry (mem s) ei))
             (<[key := mkValueEntry v (next_eid (mem s)) (next_eid (mem s))]> (cache s))) P Q B O ec.
Proof.
  intros I Hc Hk Ha Hr Hwf. pose proof (fresh_info _ _ _ _ _ _ I) as Hf.
  assert (Hp : forall e, ao_of (add_entry (mem s) ei) e = ao_of (mem s) e /\ wo_of (add_entry (mem s) ei) e = wo_of (mem s) e /\
    tn_of (add_entry (mem s) ei) e = tn_of (mem s) e) by (intros e; by eapply add_entry_ptrs).
  assert (Hold : forall e x, infos (mem s) !! e = Some x -> infos (add_entry (mem s) ei) !! e = Some x).
  { intros e x Hx. rewrite add_entry_lookup. case_decide; [congruence|done]. }
  assert (L : mem_le (mem s) (add_entry (mem s) ei)) by (intros e x Hx; exists x; auto).
  destruct I. split; cbn [cache with_cache with_mem mem deques timer_wheel]; try done.
  - destruct i_deqs. split; try done.
    + intros e p t. rewrite (proj1 (Hp e)). apply di_ao_ptr.
    + intros e p. rewrite (proj1 (proj2 (Hp e))). apply di_wo_ptr.
  - eapply (wheel_inv_keeps (mem s)); [done| |done]. intros e. apply Hp.
  - intros e. rewrite add_entry_nodes, add_entry_lookup. case_decide; [split; eauto|apply i_nodes].
  - intros e [x Hx]. rewrite add_entry_lookup in Hx. cbn [next_eid add_entry put_nodes alloc_info fst].
    case_decide as E; [subst e; lia|]. assert (e < next_eid (mem s))%positive by (apply i_fresh; eauto). lia.
  - intros e x. rewrite add_entry_lookup. case_decide; [by intros [= <-]|apply i_wf].
  - intros k ve [[<- <-]|[Hne Hk']]%lookup_insert_Some.
    + split; [done|]. exists ei. cbn [info]. rewrite add_entry_lookup, decide_True by done. done.
    + destruct (i_cache k ve Hk') as (Hn & x & Hx & Hkx & Hrx). split; [done|]. exists x. auto.
  - intros e x Hx Hrx. rewrite add_entry_lookup in Hx. case_decide as E.
    + injection Hx as <-. subst e. eexists. rewrite Hk, lookup_insert_eq. done.
    + destruct (i_alive e x Hx Hrx) as (ve & Hve & Hi). exists ve. split; [|done].
      rewrite lookup_insert_ne; [done|]. intros E'. rewrite <- E', Hc in Hve. done.
  - intros e x Hx. rewrite (proj1 (Hp e)). rewrite add_entry_lookup in Hx. case_decide as E; [|by apply i_admitted].
    injection Hx as <-. subst e. rewrite Ha. split; [done|]. intros [q Hq].
    unfold ao_of in Hq. destruct (dnodes (mem s) !! next_eid (mem s)) eqn:Ed; [|done].
    assert (is_Some (infos (mem s) !! next_eid (mem s))) as [? ?] by (apply i_nodes; eauto). congruence.
  - intros e. rewrite (proj1 (Hp e)), (proj1 (proj2 (Hp e))). apply i_wo.
  - intros op Hop. apply (read_wf_le (mem s)); auto.
  - intros op Hop. apply (write_wf_le (mem s)); auto.
Qed.

(** A new version of an entry shares its metadata and its nodes. *)
Lemma replace_step s key old v :
  cache s !! key = Some old ->
  op_step s (with_cache s (<[key := mkValueEntry v (info old) (nodes old)]> (cache s))).
Proof.
  intros Hc. split; try done. intros P Q B O ec I. destruct I. split; cbn; try done.
  - intros k ve [[<- <-]|[Hne Hk]]%lookup_insert_Some; [exact (i_cache _ _ Hc)|auto].
  - intros e x Hx Hrx. destruct (i_alive e x Hx Hrx) as (ve & Hve & Hi).
    destruct (decide (key = kh_key (key_hash x))) as [E|E].
    + rewrite <- E in *. rewrite Hc in Hve. injection Hve as <-. rewrite lookup_insert_eq. by eexists.
    + rewrite lookup_insert_ne by done. eauto.
Qed.

(** ** Expiration times *)

Context (Huser : user_ok cfg).

(** The instants of a cache are within the range of the standard clock. *)
Lemma std_time_ok t : instant_ok t -> to_std_instant (clock_origin cfg) t = Ok (clock_origin cfg + t).
Proof. intros [_ Ht]. apply to_std_instant_ok; [apply Huser|]. unfold MAX_NANOS in Ht. lia. Qed.

Lemma min_some_in l t : min_some l = Some t -> Some t ∈ l.
Proof.
  revert t; induction l as [|[x|] l IH]; intros t; [done| |].
  - change (min_some (Some x :: l)) with (match min_some l with Some y => Some (Z.min x y) | None => Some x end).
    destruct (min_some l) as [y|] eqn:E; intros [= <-]; [|left].
    destruct (Z.min_spec x y) as [[_ ->]|[_ ->]]; [left|right; by apply IH].
  - intros E. right. by apply IH.
Qed.

(** The expiration time of an entry, whichever rule it comes from, is an [u64]. *)
Lemma expiration_u64 ei ttl tti t :
  min_some [fst (expiration_state ei);
            d ← ttl; (fun t => instant_saturating_add t d) <$> last_modified ei;
            d ← tti; (fun t => instant_saturating_add t d) <$> last_accessed ei] = Some t -> t <= U64_MAX.
Proof.
  assert (Hadd : forall i d, instant_saturating_add i d <= U64_MAX).
  { intros i d. unfold instant_saturating_add, MAX_NANOS. lia. }
  intros Hm%min_some_in. rewrite !elem_of_cons, elem_of_nil in Hm. destruct Hm as [E|[E|[E|[]]]]; symmetry in E.
  - unfold expiration_state in E. case_match; [done|]. injection E as <-.
    pose proof (land_below_pow2 (exp_state ei) TIME_MASK 64). unfold U64_MAX, TIME_MASK in *. lia.
  - destruct ttl as [d|]; [|done]. cbn in E. apply fmap_Some in E as (x & _ & ->). apply Hadd.
  - destruct tti as [d|]; [|done]. cbn in E. apply fmap_Some in E as (x & _ & ->). apply Hadd.
Qed.

Lemma expire_after_create_ok s ex key ve ei ts :
  info_wf ei -> infos (mem s) !! info ve = Some ei -> instant_ok ts -> expiry (expiration_policy cfg) = Some ex ->
  exists ei', expire_after_create cfg (mem s) ex key ve ts = Ok (put_info (mem s) (info ve) ei') /\ retouched ei ei' /\
    ei_last_accessed ei' = ei_last_accessed ei /\ ei_last_modified ei' = ei_last_modified ei.
Proof.
  intros Hwf He Hts Hex. unfold expire_after_create. rewrite std_time_ok by done. cbn [mbind res_bind].
  rewrite (get_info_ok _ _ _ He). cbn [mbind res_bind].
  eexists. split; [reflexivity|]. split; [|done]. apply retouched_expiration; [done|].
  intros t (d & Hd & ->)%fmap_Some. apply instant_add_range; [apply Hts|]. by eapply (uo_create _ Huser).
Qed.

Lemma expire_after_read_or_update_ok s f key ve ei ttl tti ts :
  info_wf ei -> infos (mem s) !! info ve = Some ei -> instant_ok ts ->
  (forall k v t d0 d, f k v t d0 = Some d -> 0 <= d) ->
  exists ei' b, expire_after_read_or_update cfg (mem s) f key ve ttl tti ts = Ok (put_info (mem s) (info ve) ei', b) /\
    retouched ei ei' /\ ei_last_accessed ei' = ei_last_accessed ei /\ ei_last_modified ei' = ei_last_modified ei.
Proof.
  intros Hwf He Hts Hf. unfold expire_after_read_or_update. rewrite std_time_ok by done. cbn [mbind res_bind].
  rewrite (get_info_ok _ _ _ He). cbn [mbind res_bind].
  match goal with |- context [match min_some ?l with Some t => @?f t | None => ?z end] =>
    assert (Hcur : exists cur, match min_some l with Some t => f t | None => z end = Ok cur) end.
  { destruct (min_some _) as [t|] eqn:Em; [|by eexists]. rewrite to_std_instant_ok; [by eexists|apply Huser|by eapply expiration_u64]. }
  destruct Hcur as [cur ->]. cbn [mbind res_bind]. case_bool_decide.
  - exists ei, false. split; [|by split].
    unfold put_info. rewrite insert_id by done. by destruct (mem s).
  - eexists _, true. split; [reflexivity|]. split; [|done]. apply retouched_expiration; [done|].
    intros t (d & Hd & ->)%fmap_Some. apply instant_add_range; [apply Hts|]. by eapply Hf.
Qed.

(** ** Insertion *)

Lemma weigh_range key v : 0 <= weigh cfg key v <= U32_MAX.
Proof. unfold weigh. destruct (weigher cfg) eqn:E; [by eapply (uo_weigher _ Huser)|done]. Qed.

Lemma with_mem_twice s m1 m2 : with_mem (with_mem s m1) m2 = with_mem s m2.
Proof. done. Qed.

(** What an insertion leaves: the new value under its key, last accessed and
    modified at [ts], and a well-formed write to record. *)
Definition inserted s key v ts s' (op : WriteOp K V) : Prop :=
  op_step s s' /\ write_wf (mem s') op /\ op_entries op = 1 /\ op_weight op = weigh cfg key v /\
  valid_after s' = valid_after s /\ invalidator s' = invalidator s /\
  exists ve ei, cache s' = <[key := ve]> (cache s) /\ value ve = v /\ infos (mem s') !! info ve = Some ei /\
    (forall e x, e <> info ve -> infos (mem s) !! e = Some x -> infos (mem s') !! e = Some x) /\
    ei_last_accessed ei = ts /\ ei_last_modified ei = ts /\
    (expiry (expiration_policy cfg) = None ->
     match cache s !! key with
     | None => fst (expiration_state ei) = None
     | Some old => forall x, infos (mem s) !! info old = Some x -> exp_state ei = exp_state x
     end).

Lemma new_entry_info_ok kh ts w :
  instant_ok ts -> 0 <= w <= U32_MAX ->
  exists ei, new_entry_info kh ts w = Ok ei /\ info_wf (K := K) ei /\ key_hash ei = kh /\ is_admitted ei = false /\
    is_retired ei = false /\ ei_last_accessed ei = ts /\ ei_last_modified ei = ts /\ entry_gen ei = 1 /\
    fst (expiration_state ei) = None.
Proof.
  intros Hts Hw. unfold new_entry_info. rewrite (new_atomic_ok _ Hts). cbn [mbind res_bind].
  eexists. split; [reflexivity|]. split; [|done]. split; cbn; (done || by unfold U16_MAX; lia).
Qed.

Lemma insert_new s key hash v ts now :
  cache_inv cfg s -> instant_ok ts -> cache s !! key = None ->
  exists s' op, do_insert_with_hash cfg s key hash v ts now = Ok (s', op) /\ inserted s key v ts s' op.
Proof.
  intros (_ & P & Q & B & I) Hts Hc. unfold do_insert_with_hash. rewrite Hc. unfold new_value_entry.
  destruct (new_entry_info_ok (mkKeyHash key hash) ts (weigh cfg key v) Hts (weigh_range key v))
    as (ei & -> & Hwf & Hk & Ha & Hr & Hla & Hlm & Hg & Hx). cbn [mbind res_bind alloc_info value_entry_new].
  change (put_nodes _ _ default_deq_nodes) with (add_entry (mem s) ei).
  set (ve := mkValueEntry v (next_eid (mem s)) (next_eid (mem s))).
  set (s1 := with_cache (with_mem s (add_entry (mem s) ei)) (<[key := ve]> (cache s))).
  assert (Hmem : mem_le (mem s) (add_entry (mem s) ei)).
  { intros e x Hx'. exists x. rewrite add_entry_lookup. rewrite decide_False; [done|]. intros ->.
    by rewrite (fresh_info _ _ _ _ _ _ I) in Hx'. }
  assert (Hs1 : op_step s s1).
  { split; try done.
    - intros P' Q' B' O ec I'. apply inv_add_entry; try done. by rewrite Hk.
    - intros e x Hx' Hax. exists x. change (mem s1) with (add_entry (mem s) ei). rewrite add_entry_lookup, decide_False; [done|].
      intros ->. by rewrite (fresh_info _ _ _ _ _ _ I) in Hx'. }
  assert (He : infos (mem s1) !! info ve = Some ei).
  { cbn [info ve]. change (mem s1) with (add_entry (mem s) ei). by rewrite add_entry_lookup, decide_True. }
  assert (H2 : exists s2 ei2, do_post_insert_steps cfg s1 ts key ve = Ok s2 /\ op_step s1 s2 /\ cache s2 = cache s1 /\
    valid_after s2 = valid_after s /\ invalidator s2 = invalidator s /\
    infos (mem s2) !! info ve = Some ei2 /\ retouched ei ei2 /\ ei_last_accessed ei2 = ts /\ ei_last_modified ei2 = ts /\
    (expiry (expiration_policy cfg) = None -> ei2 = ei) /\
    (forall e, e <> info ve -> infos (mem s2) !! e = infos (mem s1) !! e)).
  { unfold do_post_insert_steps. destruct (expiry (expiration_policy cfg)) as [ex|] eqn:Hex.
    - destruct (expire_after_create_ok s1 ex key ve ei ts Hwf He Hts Hex) as (ei2 & -> & R2 & A2 & M2). cbn [mbind res_bind].
      eexists _, ei2. split; [reflexivity|]. split; [by eapply put_info_step|]. do 3 (split; [done|]).
      split; [cbn; by rewrite lookup_insert_eq|]. split; [done|]. split; [congruence|]. split; [congruence|]. split; [done|].
      intros e Hne. change (<[info ve := ei2]> (infos (mem s1)) !! e = infos (mem s1) !! e). by rewrite lookup_insert_ne.
    - exists s1, ei. split; [done|]. split; [apply op_step_refl|]. do 4 (split; [done|]). split; [by split|]. done. }
  destruct H2 as (s2 & ei2 & -> & Hs2 & Hc2 & Hv2 & Hi2 & He2 & R2 & A2 & M2 & X2 & F2). cbn [mbind res_bind].
  eexists _, _. split; [reflexivity|]. split; [by eapply op_step_trans|]. split.
  { cbn. split; [split; [done|eauto]|]. rewrite Hg. pose proof (weigh_range key v).
    split; [unfold U16_MAX, U32_MAX in *; lia|]. intros x Hx'.
    assert (Some x = Some ei2) as [= ->] by (rewrite <- He2, <- Hx'; done).
    by rewrite (rt_key _ _ R2), Hk. }
  do 4 (split; [done|]). exists ve, ei2. do 3 (split; [done|]). split.
  { intros e x Hne Hx'. rewrite (F2 e Hne). change (mem s1) with (add_entry (mem s) ei). by rewrite add_entry_lookup, decide_False. }
  do 2 (split; [done|]). intros Hex. by rewrite Hc, (X2 Hex).
Qed.

(** The metadata of an updated entry. *)
Lemma new_value_entry_from_ok s (old : ValueEntry V) ei v ts w :
  infos (mem s) !! info old = Some ei -> info_wf ei -> instant_ok ts -> 0 <= w <= U32_MAX ->
  exists ei' g, new_value_entry_from (mem s) v ts w old =
      Ok (put_info (mem s) (info old) ei', mkValueEntry v (info old) (nodes old), g) /\
    retouched ei ei' /\ 0 <= g <= U16_MAX /\ ei_last_accessed ei' = ts /\ ei_last_modified ei' = ts /\ exp_state ei' = exp_state ei.
Proof.
  intros He Hwf Hts Hw. unfold new_value_entry_from. rewrite (get_info_ok _ _ _ He). cbn [mbind res_bind].
  destruct (retouched_gen ei Hwf) as [R1 Hg]. assert (X1 : exp_state (fst (incr_entry_gen ei)) = exp_state ei) by done.
  destruct (incr_entry_gen ei) as [ei1 g]. cbn [fst snd] in R1, Hg, X1.
  destruct (retouched_accessed ei1 ts (rt_wf _ _ R1) Hts) as (ei2 & -> & R2 & A2 & _ & X2). cbn [mbind res_bind].
  destruct (retouched_modified ei2 ts (rt_wf _ _ R2) Hts) as (ei3 & -> & R3 & M3 & A3 & X3). cbn [mbind res_bind].
  pose proof (retouched_weight ei3 w (rt_wf _ _ R3) Hw) as R4.
  eexists _, g. split; [reflexivity|]. split; [by do 3 (eapply retouched_trans; [eassumption|])|].
  split; [done|]. cbn. repeat split; congruence.
Qed.

Lemma post_update_ok s ts now key (old : OldEntryInfo V) ve ei :
  info_wf ei -> infos (mem s) !! info ve = Some ei -> info (oei_entry old) = info ve -> instant_ok ts ->
  exists s2 ei2, do_post_update_steps cfg s ts now key old ve = Ok s2 /\ op_step s s2 /\ cache s2 = cache s /\
    valid_after s2 = valid_after s /\ invalidator s2 = invalidator s /\
    infos (mem s2) !! info ve = Some ei2 /\ retouched ei ei2 /\
    ei_last_accessed ei2 = ei_last_accessed ei /\ ei_last_modified ei2 = ei_last_modified ei /\
    (expiry (expiration_policy cfg) = None -> ei2 = ei) /\
    (forall e, e <> info ve -> infos (mem s2) !! e = infos (mem s) !! e).
Proof.
  intros Hwf He Hold Hts. unfold do_post_update_steps.
  assert (Hm : exists ei2, post_update_expiration cfg s ts key old ve = Ok (put_info (mem s) (info ve) ei2) /\ retouched ei ei2 /\
    ei_last_accessed ei2 = ei_last_accessed ei /\ ei_last_modified ei2 = ei_last_modified ei /\
    (expiry (expiration_policy cfg) = None -> ei2 = ei)).
  { unfold post_update_expiration. destruct (expiry (expiration_policy cfg)) as [ex|] eqn:Hex.
    - rewrite Hold, (get_info_ok _ _ _ He). cbn [mbind res_bind].
      destruct (match fst (expiration_state ei) with Some exp_time => exp_time <=? ts | None => false end).
      + destruct (expire_after_create_ok s ex key ve ei ts Hwf He Hts Hex) as (ei2 & E2 & R2 & A2 & M2). by exists ei2.
      + destruct (expire_after_read_or_update_ok s (expire_after_update_fn ex) key ve ei
          (time_to_live (expiration_policy cfg)) (time_to_idle (expiration_policy cfg)) ts Hwf He Hts) as (ei2 & b & -> & R2 & A2 & M2).
        { intros k v t d0 d. by apply (uo_update _ Huser). }
        cbn [mbind res_bind]. by exists ei2.
    - exists ei. split; [|by split; [split|]]. unfold put_info. rewrite insert_id by done. by destruct (mem s). }
  destruct Hm as (ei2 & -> & R2 & A2 & M2 & X2). cbn [mbind res_bind].
  pose proof (put_info_step s _ _ _ He R2) as Hs1. set (s1 := with_mem s (put_info (mem s) (info ve) ei2)) in *.
  assert (He2 : infos (mem s1) !! info ve = Some ei2) by (cbn; by rewrite lookup_insert_eq).
  assert (Hne : forall e, e <> info ve -> infos (mem s1) !! e = infos (mem s) !! e) by (intros e Hx; cbn; by rewrite lookup_insert_ne).
  destruct (is_removal_notifier_enabled s1).
  - eexists _, ei2. split; [reflexivity|]. unfold notify_upsert.
    split; [eapply op_step_trans; [exact Hs1|apply notify_single_step]|].
    unfold notify_single_removal. by destruct (removal_notifier s1).
  - by exists s1, ei2.
Qed.

Lemma insert_existing s key hash v ts now old :
  cache_inv cfg s -> instant_ok ts -> cache s !! key = Some old ->
  exists s' op, do_insert_with_hash cfg s key hash v ts now = Ok (s', op) /\ inserted s key v ts s' op.
Proof.
  intros (_ & P & Q & B & I) Hts Hc. unfold do_insert_with_hash. rewrite Hc.
  destruct (i_cache I _ _ Hc) as (Hn & ei & He & Hk & _). pose proof (i_wf I _ _ He) as Hwf.
  rewrite (get_info_ok _ _ _ He). cbn [mbind res_bind]. unfold new_old_entry_info. rewrite (get_info_ok _ _ _ He). cbn [mbind res_bind].
  destruct (new_value_entry_from_ok s old ei v ts (weigh cfg key v) He Hwf Hts (weigh_range key v))
    as (ei1 & g & -> & R1 & Hg & A1 & M1 & X1). cbn [mbind res_bind].
  pose proof (put_info_step s _ _ _ He R1) as Hs1. set (s1 := with_mem s (put_info (mem s) (info old) ei1)) in *.
  set (ve := mkValueEntry v (info old) (nodes old)).
  pose proof (replace_step s1 key old v Hc) as Hs2. set (s2 := with_cache s1 (<[key := ve]> (cache s1))) in *.
  assert (He1 : infos (mem s2) !! info ve = Some ei1) by (cbn; by rewrite lookup_insert_eq).
  change (with_cache s1 (<[key := ve]> (cache s))) with s2.
  destruct (post_update_ok s2 ts now key (mkOldEntryInfo old (last_accessed ei) (last_modified ei)) ve ei1 (rt_wf _ _ R1) He1 eq_refl Hts)
    as (s3 & ei3 & -> & Hs3 & Hc3 & Hv3 & Hi3 & He3 & R3 & A3 & M3 & X3 & F3). cbn [mbind res_bind].
  eexists _, _. split; [reflexivity|]. split; [by do 2 (eapply op_step_trans; [eassumption|])|]. split.
  { cbn. split; [split; [done|eauto]|]. pose proof (weigh_range key v). pose proof (iw_weight _ Hwf).
    split; [unfold U16_MAX, U32_MAX in *; lia|]. intros x Hx.
    assert (Some x = Some ei3) as [= ->] by (rewrite <- He3, <- Hx; done).
    by rewrite (rt_key _ _ R3), (rt_key _ _ R1), Hk. }
  do 4 (split; [done|]). exists ve, ei3. do 3 (split; [done|]). split.
  { intros e x Hne Hx. rewrite (F3 e Hne). cbn. by rewrite lookup_insert_ne. }
  split; [congruence|]. split; [congruence|].
  intros Hex. rewrite Hc. intros x Hx. rewrite (X3 Hex), X1. congruence.
Qed.

Lemma do_insert_ok s key hash v ts now :
  cache_inv cfg s -> instant_ok ts ->
  exists s' op, do_insert_with_hash cfg s key hash v ts now = Ok (s', op) /\ inserted s key v ts s' op.
Proof.
  intros I Hts. destruct (cache s !! key) eqn:Hc; [by eapply insert_existing|by apply insert_new].
Qed.

(** ** Removal *)

Lemma remove_entry_step s key :
  cache_inv cfg s ->
  (cache s !! key = None /\ remove_entry s key = Ok (s, None)) \/
  exists ve ei s', cache s !! key = Some ve /\ remove_entry s key = Ok (s', Some (mkKvEntry key ve)) /\ op_step s s' /\
    cache s' = delete key (cache s) /\ ent_wf (mem s') ve /\ infos (mem s') !! info ve = Some ei /\
    is_retired ei = true /\ info_wf ei /\ valid_after s' = valid_after s /\ invalidator s' = invalidator s /\
    removal_notifier s' = removal_notifier s /\
    (forall e, e <> info ve -> infos (mem s') !! e = infos (mem s) !! e).
Proof.
  intros (_ & P & Q & B & I). unfold remove_entry. destruct (cache s !! key) as [ve0|] eqn:Hc.
  - right. destruct (cht_remove_step cfg s P Q B [] _ key (fun _ _ => true) I) as [E|
      (ve & ei & ei' & s' & Hc' & He & _ & E & Es & I' & Hve & He' & Hr & _ & _ & _ & L & U & _)].
    { unfold cht_remove_if_and_retire in E. rewrite Hc in E. destruct (i_cache I _ _ Hc) as (_ & x & Hx & _ & Hrx).
      rewrite (get_info_ok _ _ _ Hx) in E. cbn in E. unfold retire in E. by rewrite Hrx in E. }
    rewrite E. cbn [mbind res_bind option_map]. rewrite Hc in Hc'. injection Hc' as ->.
    exists ve, ei', s'. do 2 (split; [done|]). split.
    { split; try (by rewrite Es).
      - intros P1 Q1 B1 O1 ec1 I1. destruct (cht_remove_step cfg s P1 Q1 B1 O1 ec1 key (fun _ _ => true) I1) as [E2|
          (? & ? & ? & s2 & _ & _ & _ & E2 & _ & I2 & _)]; rewrite E in E2; [done|]. by injection E2 as -> ->.
      - exact L.
      - exact U. }
    split; [by rewrite Es|]. do 3 (split; [done|]). split; [exact (i_wf I' _ _ He')|]. rewrite Es. do 3 (split; [done|]).
    intros e Hne. cbn. by rewrite lookup_insert_ne.
  - left. split; [done|]. unfold cht_remove_if_and_retire. by rewrite Hc.
Qed.

Lemma notify_invalidate_ok s key ve ei now :
  infos (mem s) !! info ve = Some ei ->
  exists s', notify_invalidate cfg s key ve now = Ok s' /\ op_step s s' /\ cache s' = cache s /\ mem s' = mem s /\
    valid_after s' = valid_after s /\ invalidator s' = invalidator s.
Proof.
  intros He. unfold notify_invalidate. rewrite (get_info_ok _ _ _ He). cbn [mbind res_bind]. eexists. split; [reflexivity|].
  split; [apply notify_single_step|]. unfold notify_single_removal. by destruct (removal_notifier s).
Qed.

(** What a removal leaves: no entry under the key, and the write to record. *)
Definition invalidated s key s' (o : option (KvEntry K V * WriteOp K V)) : Prop :=
  op_step s s' /\ cache s' = delete key (cache s) /\ valid_after s' = valid_after s /\ invalidator s' = invalidator s /\
  match o with
  | None => cache s !! key = None
  | Some (kv, op) => cache s !! key = Some (kv_entry kv) /\ write_wf (mem s') op /\ op_entries op = 0 /\ op_weight op = 0
  end /\
  forall k ve, k <> key -> cache s !! k = Some ve -> infos (mem s') !! info ve = infos (mem s) !! info ve.

Lemma do_invalidate_ok s key now :
  cache_inv cfg s -> exists s' o, do_invalidate_with_hash cfg s key now = Ok (s', o) /\ invalidated s key s' o.
Proof.
  intros I. unfold do_invalidate_with_hash.
  destruct (remove_entry_step s key I) as [[Hc ->]|(ve & ei & s1 & Hc & -> & Hs1 & Hc1 & Hve1 & He1 & Hr1 & Hwf1 & Hv1 & Hi1 & _ & F1)];
    cbn [mbind res_bind kv_entry kv_key].
  { exists s, None. split; [done|]. split; [apply op_step_refl|]. split; [by rewrite delete_id|]. done. }
  rewrite (get_info_ok _ _ _ He1). cbn [mbind res_bind].
  destruct (retouched_gen ei Hwf1) as [R2 Hg]. destruct (incr_entry_gen ei) as [ei2 g]. cbn [fst snd] in R2, Hg.
  pose proof (put_info_step s1 _ _ _ He1 R2) as Hs2. set (s2 := with_mem s1 (put_info (mem s1) (info ve) ei2)) in *.
  assert (He2 : infos (mem s2) !! info ve = Some ei2) by (cbn; by rewrite lookup_insert_eq).
  assert (H3 : exists s3, (if is_removal_notifier_enabled s2 then notify_invalidate cfg s2 key ve now else Ok s2) = Ok s3 /\
    op_step s2 s3 /\ cache s3 = cache s2 /\ mem s3 = mem s2 /\ valid_after s3 = valid_after s2 /\ invalidator s3 = invalidator s2).
  { destruct (is_removal_notifier_enabled s2); [by eapply notify_invalidate_ok|].
    exists s2. split; [done|]. split; [apply op_step_refl|done]. }
  destruct H3 as (s3 & -> & Hs3 & Hc3 & Hm3 & Hv3 & Hi3). cbn [mbind res_bind].
  eexists _, _. split; [reflexivity|]. split; [by do 2 (eapply op_step_trans; [eassumption|])|].
  split; [by rewrite Hc3|]. split; [by rewrite Hv3|]. split; [by rewrite Hi3|]. split; [|].
  2: { intros k ve' Hne Hk. rewrite Hm3. assert (Hd : info ve' <> info ve).
    { destruct I as (_ & P & Q & B & I). destruct (i_cache I _ _ Hc) as (_ & x & Hx & Hkx & _).
      destruct (i_cache I _ _ Hk) as (_ & y & Hy & Hky & _). intros E. rewrite E in Hy. congruence. }
    rewrite <- (F1 _ Hd). cbn. by rewrite lookup_insert_ne. }
  split; [done|]. split; [|done]. cbn. rewrite Hm3. split; [split; [apply Hve1|eauto]|]. split; [done|]. intros x Hx.
  assert (Some x = Some ei2) as [= ->] by (rewrite <- He2, <- Hx; done). by rewrite (rt_retired _ _ R2).
Qed.

(** ** Lookup *)

Lemma find_valid_ok s key ignore_if now :
  cache_inv cfg s ->
  exists o, find_valid cfg s key ignore_if now = Ok o /\
    match o with
    | Some ve => cache s !! key = Some ve /\ exists ei, infos (mem s) !! info ve = Some ei /\ is_hidden cfg s key ve ei now = false
    | None => True
    end.
Proof.
  intros (_ & P & Q & B & I). unfold find_valid. destruct (cache s !! key) as [ve|] eqn:Hc; [|by exists None].
  destruct (match ignore_if with Some f => f (value ve) | None => false end); [by exists None|].
  destruct (i_cache I _ _ Hc) as (_ & ei & He & _). rewrite (get_info_ok _ _ _ He). cbn [mbind res_bind].
  destruct (is_hidden cfg s key ve ei now) eqn:Hh; [by exists None|]. exists (Some ve). eauto.
Qed.

(** A lookup does not change when an entry was written. *)
Definition keeps_modified m m' : Prop := forall e x, infos m !! e = Some x ->
  exists x', infos m' !! e = Some x' /\ ei_last_modified x' = ei_last_modified x /\
    (expiry (expiration_policy cfg) = None -> exp_state x' = exp_state x).

Lemma touch_entry_ok s ve now :
  cache_inv cfg s -> ent_wf (mem s) ve -> instant_ok now ->
  exists s' now' b, touch_entry cfg s ve now = Ok (s', now', b) /\ op_step s s' /\ ent_wf (mem s') ve /\ instant_ok now' /\
    cache s' = cache s /\ valid_after s' = valid_after s /\ invalidator s' = invalidator s /\ removal_notifier s' = removal_notifier s /\
    keeps_modified (mem s) (mem s').
Proof.
  intros (_ & P & Q & B & I) Hve Hnow. destruct (ent_info _ _ Hve) as (ei & He & Eg). pose proof (i_wf I _ _ He) as Hwf.
  unfold touch_entry. rewrite Eg. cbn [mbind res_bind].
  assert (Hcont : forall ei1 now' (b : bool), retouched ei ei1 -> ei_last_modified ei1 = ei_last_modified ei ->
    (expiry (expiration_policy cfg) = None -> exp_state ei1 = exp_state ei) -> instant_ok now' -> exists s' now2 b2,
    (m ← ve_set_last_accessed (put_info (mem s) (info ve) ei1) ve now'; Ok (with_mem s m, now', b)) = Ok (s', now2, b2) /\
    op_step s s' /\ ent_wf (mem s') ve /\ instant_ok now2 /\
    cache s' = cache s /\ valid_after s' = valid_after s /\ invalidator s' = invalidator s /\ removal_notifier s' = removal_notifier s /\
    keeps_modified (mem s) (mem s')).
  { intros ei1 now' b R1 M1 X1 Hnow'.
    unfold ve_set_last_accessed, get_info. cbn [infos put_info]. rewrite lookup_insert_eq. cbn [expect_some mbind res_bind].
    destruct (retouched_accessed ei1 now' (rt_wf _ _ R1) Hnow') as (ei2 & -> & R2 & _ & M2 & X2). cbn [mbind res_bind].
    assert (Em : put_info (put_info (mem s) (info ve) ei1) (info ve) ei2 = put_info (mem s) (info ve) ei2).
    { unfold put_info. cbn. by rewrite insert_insert_eq. }
    rewrite Em. eexists _, now', b. split; [reflexivity|]. split; [eapply put_info_step; [exact He|by eapply retouched_trans]|].
    split; [split; [apply Hve|]; cbn; rewrite lookup_insert_eq; eauto|]. do 5 (split; [done|]).
    intros e x Hx. cbn. destruct (decide (info ve = e)) as [<-|]; [|rewrite lookup_insert_ne by done; eauto].
    rewrite lookup_insert_eq. exists ei2. split; [done|]. assert (x = ei) as -> by congruence. split; [congruence|]. intros Hex. by rewrite X2, X1. }
  destruct (expiry (expiration_policy cfg)) as [ex|] eqn:Hex.
  - unfold last_modified. rewrite (instant_ok_some _ (iw_modified _ Hwf)). cbn [expect_some mbind res_bind]. cbv zeta.
    assert (Hnow' : instant_ok (Z.max now (ei_last_modified ei))) by (destruct Hnow, (iw_modified _ Hwf); split; lia).
    rewrite std_time_ok by apply Hwf. cbn [mbind res_bind].
    destruct (expire_after_read_or_update_ok s (fun k v t d => expire_after_read_fn ex k v t d (clock_origin cfg + ei_last_modified ei))
      (kh_key (key_hash ei)) ve ei (time_to_live (expiration_policy cfg)) (time_to_idle (expiration_policy cfg))
      (Z.max now (ei_last_modified ei)) Hwf He Hnow') as (ei1 & b & -> & R1 & _ & M1).
    { intros k v t d0 d. by apply (uo_read _ Huser). }
    cbn [mbind res_bind]. by apply Hcont.
  - cbn [mbind res_bind]. destruct (Hcont ei now false) as (s' & now2 & b2 & E & Hs'); [by split|done..|].
    assert (Em : put_info (mem s) (info ve) ei = mem s).
    { unfold put_info. rewrite insert_id by done. by destruct (mem s). }
    rewrite Em in E. rewrite E. by exists s', now2, b2.
Qed.
End operations.
