(* ===== verification/System.v ===== *)
(** The cache as a state machine.  Several threads use one cache: a write updates
    the hash table first and sends its operation to the log later, so operations
    are in flight between the two, and any other event may come in between.  The
    reachable states satisfy the invariant, no event faults in them, and what the
    cache holds is always the last value written.

    An event is atomic here; FutureRunSys takes a maintenance run apart, with the
    other events between its steps. *)
From S2P Require Import Prelude Common FrequencySketch Deque Time Housekeeper EntryInfo Concurrent Deques.
From S2P Require Import TimerWheel Policy Invalidator Inner BaseCache InnerInv InnerRemove Admission Scan Maintenance Operations.

(** What a maintenance run promises to the operations that start it. *)
Record maintained {K V} `{Countable K} (cfg : Config K V) (s s' : Inner K V) : Prop := {
  ma_cache : cache s' ⊆ cache s;
  ma_notified : notified s s';
  ma_mem : mem_le (mem s) (mem s');
  ma_view : same_view (mem s) (mem s');
  ma_valid : valid_after s' = valid_after s;
  ma_enabled : is_Some (invalidator s') <-> is_Some (invalidator s);
  ma_entries : entry_bound s' <= entry_bound s;
  ma_weight : weight_bound s' <= weight_bound s;
  ma_drained : max_capacity cfg <> Some 0 -> read_op_ch s' = [] /\ write_op_ch s' = [];
  ma_disabled : max_capacity cfg = Some 0 -> s' = s
}.

Section system.
Context {K V : Type} `{Countable K}.
Variable cfg : Config K V.
Implicit Types (s : Inner K V) (b : BaseCache K V) (ve : ValueEntry V) (op : WriteOp K V).

Record Sys := mkSys { base : BaseCache K V; in_flight : list (WriteOp K V) }.

Inductive event :=
| EInsert (key : K) (v : V) (ts now : Instant)
| EInvalidate (key : K) (now : Instant)
| ESend (i : nat) (now : Instant) (env : HkEnv)
| EGet (key : K) (ignore_if : option (V -> bool)) (need_key : bool) (now : Instant) (record : option HkEnv)
| EInvalidateAll (now : Instant)
| EInvalidateIf (uuid : nat -> string) (f : K -> V -> bool) (now : Instant)
| ERun (env : HkEnv).

(** One attempt of [schedule_write_op] for the write [i] in flight. *)
Definition send_attempt (sys : Sys) (i : nat) (now : Instant) (env : HkEnv) : res Sys :=
  match in_flight sys !! i with
  | None => Ok sys
  | Some op =>
      b ← apply_reads_writes_if_needed cfg (base sys) now env;
      let s := inner b in
      if Z.of_nat (length (write_op_ch s)) <? channel_capacity cfg WRITE_LOG_CH_SIZE
      then Ok (mkSys (with_inner b (with_writes s (write_op_ch s ++ [op]))) (delete i (in_flight sys)))
      else Ok (mkSys b (in_flight sys))
  end.

Definition exec (sys : Sys) (e : event) : res (Sys * option (Entry K V)) :=
  let b := base sys in
  match e with
  | EInsert key v ts now =>
      if is_map_disabled cfg then Ok (sys, None)
      else
        '(s, op) ← do_insert_with_hash cfg (inner b) key (hasher cfg key) v ts now;
        Ok (mkSys (with_inner b s) (in_flight sys ++ [op]), None)
  | EInvalidate key now =>
      '(s, o) ← do_invalidate_with_hash cfg (inner b) key now;
      Ok (mkSys (with_inner b s) (in_flight sys ++ match o with Some (_, op) => [op] | None => [] end), None)
  | ESend i now env => sys ← send_attempt sys i now env; Ok (sys, None)
  | EGet key ignore_if need_key now record =>
      '(b, o) ← do_get_with_hash cfg b key (hasher cfg key) record ignore_if need_key now;
      Ok (mkSys b (in_flight sys), o)
  | EInvalidateAll now => s ← invalidate_all (inner b) now; Ok (mkSys (with_inner b s) (in_flight sys), None)
  | EInvalidateIf uuid f now =>
      '(s, _) ← invalidate_entries_if uuid (inner b) f now; Ok (mkSys (with_inner b s) (in_flight sys), None)
  | ERun env => b ← run_pending_tasks cfg b env; Ok (mkSys b (in_flight sys), None)
  end.

(** Clock readings are proper instants, and a fresh UUID is found in the tries the
    code makes. *)
Definition env_ok (env : HkEnv) : Prop := instant_ok (hk_now env).
Definition event_ok (sys : Sys) (e : event) : Prop :=
  match e with
  | EInsert _ _ ts _ => instant_ok ts
  | EInvalidate _ _ => True
  | ESend _ _ env => env_ok env
  | EGet _ _ _ now record => instant_ok now /\ forall env, record = Some env -> env_ok env
  | EInvalidateAll now => instant_ok now
  | EInvalidateIf uuid _ _ => forall i, invalidator (inner (base sys)) = Some i ->
      exists n, (n < MAX_RETRY)%nat /\ predicates i !! uuid n = None
  | ERun env => env_ok env
  end.

(** The writes of an execution are counted: they bound the cache's counters. *)
Definition writes_of (e : event) : Z := match e with EInsert _ _ _ _ => 1 | _ => 0 end.

(** What a perfect cache, one that forgets nothing, would hold: the last value
    written under each key, and when. *)
Definition spec_step (m : gmap K (V * Instant)) (e : event) : gmap K (V * Instant) :=
  match e with
  | EInsert key v ts _ => if is_map_disabled cfg then m else <[key := (v, ts)]> m
  | EInvalidate key _ => delete key m
  | _ => m
  end.

Inductive reachable (sys0 : Sys) : Z -> gmap K (V * Instant) -> Sys -> Prop :=
| reach_start : reachable sys0 0 ∅ sys0
| reach_step n m sys e sys' o :
    reachable sys0 n m sys -> event_ok sys e -> exec sys e = Ok (sys', o) ->
    reachable sys0 (n + writes_of e) (spec_step m e) sys'.

(** Running a sequence of events. *)
Fixpoint exec_all (sys : Sys) (es : list event) : res (Sys * list (option (Entry K V))) :=
  match es with
  | [] => Ok (sys, [])
  | e :: es' => '(sys, o) ← exec sys e; '(sys, os) ← exec_all sys es'; Ok (sys, o :: os)
  end.
Fixpoint all_ok (sys : Sys) (es : list event) : Prop :=
  match es with
  | [] => True
  | e :: es' => event_ok sys e /\ match exec sys e with Ok (sys, _) => all_ok sys es' | Fail _ => True end
  end.

(** The events whose side condition does not depend on the state. *)
Definition static_ok (e : event) : Prop :=
  match e with EInvalidateIf _ _ _ => False | _ => forall sys, event_ok sys e end.
Lemma static_all_ok : forall es sys, Forall static_ok es -> all_ok sys es.
Proof.
  induction es as [|e es IH]; intros sys Hes; [done|]. apply Forall_cons in Hes as [He Hes]. split; [destruct e; (exact (He sys) || done)|].
  destruct (exec sys e) as [[sys' o]|]; [by apply IH|done].
Qed.

Definition total_writes (n : Z) (es : list event) : Z := foldl (fun n e => n + writes_of e) n es.

Lemma exec_all_reachable sys0 : forall es n m sys sys' os,
  reachable sys0 n m sys -> all_ok sys es -> exec_all sys es = Ok (sys', os) ->
  reachable sys0 (total_writes n es) (foldl spec_step m es) sys'.
Proof.
  induction es as [|e es IH]; cbn; intros n m sys sys' os HR Hok E; [by injection E as <- <-|].
  destruct Hok as [He Hok]. destruct (exec sys e) as [[sys1 o]|] eqn:E1; [|done]. cbn in E.
  destruct (exec_all sys1 es) as [[sys2 os2]|] eqn:E2; [|done]. cbn in E. injection E as <- <-.
  eapply IH; [|done|done]. by eapply reach_step.
Qed.

(** ** The invariant *)

Definition bounded_by (n : Z) s (fl : list (WriteOp K V)) : Prop :=
  entry_bound s + log_entries fl <= n /\ weight_bound s + log_weight fl <= n * U32_MAX.

Definition never_lies (m : gmap K (V * Instant)) s : Prop :=
  forall k ve, cache s !! k = Some ve -> exists ei, infos (mem s) !! info ve = Some ei /\
    m !! k = Some (value ve, ei_last_modified ei) /\
    (expiry (expiration_policy cfg) = None -> fst (expiration_state ei) = None).

Record sys_inv (n : Z) (m : gmap K (V * Instant)) (sys : Sys) : Prop := {
  si_cache : cache_inv cfg (inner (base sys));
  si_hk : exists hk, housekeeper (base sys) = Some hk /\ hk_wf hk /\ auto_run_enabled hk = true;
  si_flight : forall op, op ∈ in_flight sys -> write_wf (mem (inner (base sys))) op;
  si_bounds : bounded_by n (inner (base sys)) (in_flight sys);
  si_reads : Z.of_nat (length (read_op_ch (inner (base sys)))) <= channel_capacity cfg READ_LOG_CH_SIZE;
  si_writes : Z.of_nat (length (write_op_ch (inner (base sys)))) <= channel_capacity cfg WRITE_LOG_CH_SIZE;
  si_spec : never_lies m (inner (base sys))
}.
End system.
Arguments mkSys {K V _ _} _ _.
Arguments base {K V _ _} _.
Arguments in_flight {K V _ _} _.
Arguments si_cache {K V _ _ cfg n m sys} _.
Arguments si_hk {K V _ _ cfg n m sys} _.
Arguments si_flight {K V _ _ cfg n m sys} _.
Arguments si_bounds {K V _ _ cfg n m sys} _.
Arguments si_reads {K V _ _ cfg n m sys} _.
Arguments si_writes {K V _ _ cfg n m sys} _.
Arguments si_spec {K V _ _ cfg n m sys} _.

Section safety.
Context {K V : Type} `{Countable K}.
Variable cfg : Config K V.
Context (Huser : user_ok cfg) (Hsafe : sketch_safe cfg).
Implicit Types (s : Inner K V) (b : BaseCache K V) (ve : ValueEntry V) (op : WriteOp K V)
  (sys : Sys (K := K) (V := V)) (m : gmap K (V * Instant)).

(** ** The cache keeps the promise of its interface to the housekeeper *)

Definition ready s : Prop := cache_inv cfg s /\ within_budget s.

#[export] Instance inner_sync_safe :
  InnerSyncSafe (H := inner_sync cfg) (Inner K V) ((nat -> Readings) * Instant) ready (maintained cfg).
Proof.
  split. intros [rd started] s timeout reps n [I Hb] Hr. cbn.
  destruct (run_pending_tasks_ok cfg Hsafe rd started s timeout reps (Z.to_nat n) I Hb Hr)
    as (s' & more & E & I' & Hc & Hn & Hm & Hv & Hva & Hen & He & Hw & Hd & Hz).
  exists s', more. split; [done|]. split; [split; [done|]|by split]. destruct Hb. split; lia.
Qed.

Definition base_ok b : Prop :=
  ready (inner b) /\ exists hk, housekeeper b = Some hk /\ hk_wf hk /\ auto_run_enabled hk = true.

(** The run of the maintenance task that an operation may start. *)
Definition maybe_maintained s s' : Prop := s' = s \/ maintained cfg s s'.

Lemma try_run_base hk b env :
  ready (inner b) -> hk_wf hk -> auto_run_enabled hk = true -> env_ok env ->
  exists b' ran, ('(hk, s, _) ← try_run_pending_tasks (H := inner_sync cfg) (hk_locked env) hk (hk_now env) (hk_readings env, hk_started env) (inner b);
      Ok (mkBaseCache s (Some hk))) = Ok b' /\ base_ok b' /\ ran = negb (hk_locked env) /\
    if (ran : bool) then maintained cfg (inner b) (inner b') else inner b' = inner b.
Proof.
  intros Hr Hhk Ha He.
  destruct (try_run_ok (H := inner_sync cfg) ready (maintained cfg) (hk_locked env) hk (hk_now env) (hk_readings env, hk_started env) (inner b) Hhk He Hr)
    as (hk' & s' & -> & Hhk' & Hr' & HR & Ha'). cbn [mbind res_bind].
  eexists _, _. split; [reflexivity|]. split; [split; [done|]; exists hk'; split; [done|]; split; [done|congruence]|].
  split; [done|]. by destruct (hk_locked env).
Qed.

Lemma apply_reads_if_needed_ok b now env :
  base_ok b -> env_ok env ->
  exists b', apply_reads_if_needed cfg b now env = Ok b' /\ base_ok b' /\ maybe_maintained (inner b) (inner b').
Proof.
  intros (Hr & hk & Hhk & Hwf & Ha) He. unfold apply_reads_if_needed. rewrite Hhk. unfold should_apply_reads.
  assert (Hb : exists due, (if more_to_evict hk then Ok true else should_apply hk (Z.of_nat (length (read_op_ch (inner b)))) READ_LOG_FLUSH_POINT now) = Ok due).
  { destruct (more_to_evict hk); [eauto|]. rewrite (should_apply_ok _ _ _ _ Hwf). eauto. }
  destruct Hb as [due ->]. cbn [mbind res_bind]. destruct due.
  - destruct (try_run_base hk b env Hr Hwf Ha He) as (b' & ran & -> & Hb' & _ & HR). exists b'. split; [done|]. split; [done|].
    destruct ran; [by right|by left].
  - exists b. split; [done|]. split; [split; [done|eauto]|by left].
Qed.

(** When the lock is free the log is below its flush point afterwards. *)
Lemma apply_writes_if_needed_ok b now env :
  base_ok b -> env_ok env ->
  exists b', apply_reads_writes_if_needed cfg b now env = Ok b' /\ base_ok b' /\ maybe_maintained (inner b) (inner b') /\
    (hk_locked env = false -> max_capacity cfg <> Some 0 -> Z.of_nat (length (write_op_ch (inner b'))) < WRITE_LOG_FLUSH_POINT).
Proof.
  intros (Hr & hk & Hhk & Hwf & Ha) He. unfold apply_reads_writes_if_needed. rewrite Hhk. unfold should_apply_writes.
  set (n := Z.of_nat (length (write_op_ch (inner b)))).
  assert (Hb : exists due, (if more_to_evict hk then Ok true else should_apply hk n WRITE_LOG_FLUSH_POINT now) = Ok due /\
    (due = false -> n < WRITE_LOG_FLUSH_POINT)).
  { destruct (more_to_evict hk); [by exists true|]. rewrite (should_apply_ok _ _ _ _ Hwf), Ha. eexists. split; [reflexivity|].
    cbn [andb]. intros [Hn _]%orb_false_iff. by apply Z.leb_gt in Hn. }
  destruct Hb as (due & -> & Hdue). cbn [mbind res_bind]. destruct due.
  - destruct (try_run_base hk b env Hr Hwf Ha He) as (b' & ran & -> & Hb' & Hran & HR). exists b'. split; [done|]. split; [done|].
    split; [destruct ran; [by right|by left]|]. intros Hl Hcap. rewrite Hran, Hl in HR.
    destruct (ma_drained _ _ _ HR Hcap) as [_ ->]. done.
  - exists b. split; [done|]. split; [split; [done|eauto]|]. split; [by left|]. intros _ _. by apply Hdue.
Qed.

(** ** What survives a maintenance run *)

Lemma maybe_mem s s' : maybe_maintained s s' -> mem_le (mem s) (mem s').
Proof. intros [->|M]; [done|apply M]. Qed.

Lemma maybe_bounds n s s' fl : maybe_maintained s s' -> bounded_by n s fl -> bounded_by n s' fl.
Proof. intros [->|M]; [done|]. intros [H1 H2]. pose proof (ma_entries _ _ _ M). pose proof (ma_weight _ _ _ M). split; lia. Qed.

Lemma never_lies_view m s s' :
  cache s' ⊆ cache s -> keeps_modified cfg (mem s) (mem s') -> never_lies cfg m s -> never_lies cfg m s'.
Proof.
  intros Hc Hv Hl k ve Hk. destruct (Hl k ve (lookup_weaken _ _ _ _ Hk Hc)) as (ei & He & Hm & Hx).
  destruct (Hv _ _ He) as (ei' & He' & Ho & Hy). exists ei'. rewrite Ho. do 2 (split; [done|]).
  intros Hex. rewrite <- (Hx Hex). unfold expiration_state. by rewrite (Hy Hex).
Qed.

Lemma same_view_modified (m m' : Mem K) : same_view m m' -> keeps_modified cfg m m'.
Proof. intros S e x Hx. destruct (S e x Hx) as (x' & Hx' & Ho). exists x'. split; [done|]. by injection Ho. Qed.

Lemma maybe_spec m s s' : maybe_maintained s s' -> never_lies cfg m s -> never_lies cfg m s'.
Proof. intros [->|M]; [done|]. apply never_lies_view; [apply M|apply same_view_modified, M]. Qed.

Lemma maybe_logs s s' : maybe_maintained s s' ->
  (length (read_op_ch s') <= length (read_op_ch s))%nat /\ (length (write_op_ch s') <= length (write_op_ch s))%nat.
Proof.
  intros [->|M]; [done|]. destruct (decide (max_capacity cfg = Some 0)) as [E|E]; [by rewrite (ma_disabled _ _ _ M E)|].
  destruct (ma_drained _ _ _ M E) as [-> ->]. cbn. lia.
Qed.

(** ** Every event keeps the invariant *)

(** The weights of [2^32] writes cannot overflow the counters. *)
Definition MAX_WRITES : Z := 2 ^ 32.

Lemma log_app fl1 fl2 : log_entries (K := K) (V := V) (fl1 ++ fl2) = log_entries fl1 + log_entries fl2 /\
  log_weight (fl1 ++ fl2) = log_weight fl1 + log_weight fl2.
Proof.
  unfold log_entries, log_weight. induction fl1 as [|op fl1 IH]; cbn [app foldr]; [lia|]. destruct IH as [-> ->]. lia.
Qed.

Lemma flight_ready n m sys : sys_inv cfg n m sys -> n <= MAX_WRITES -> base_ok (base sys).
Proof.
  intros [I Hhk Hf [Hb1 Hb2] _ _ _] Hn. split; [|done]. split; [done|].
  destruct (log_bounds _ _ Hf) as [L1 L2]. unfold within_budget, MAX_WRITES, U64_MAX, U32_MAX in *. lia.
Qed.

Lemma flight_le (m m' : Mem K) (fl : list (WriteOp K V)) : mem_le m m' -> (forall op, op ∈ fl -> write_wf (K := K) (V := V) m op) -> forall op, op ∈ fl -> write_wf m' op.
Proof. intros L Hf op Hop. eapply write_wf_le; [exact L|auto]. Qed.

(** A step of an operation on the table. *)
Lemma op_step_sys n n' m m' sys s' new :
  sys_inv cfg n m sys -> op_step cfg (inner (base sys)) s' -> never_lies cfg m' s' ->
  (forall op, op ∈ new -> write_wf (mem s') op) ->
  n + log_entries new <= n' -> n * U32_MAX + log_weight new <= n' * U32_MAX ->
  sys_inv cfg n' m' (mkSys (with_inner (base sys) s') (in_flight sys ++ new)).
Proof.
  intros [I Hhk Hf [Hb1 Hb2] Hr Hw Hs] Hop Hs' Hnew H1 H2. pose proof Hop as [_ HM _ [HL1 HL2] [C1 C2]].
  destruct (op_step_bounds cfg _ _ Hop) as [B1 B2]. destruct (log_app (in_flight sys) new) as [A1 A2].
  split; cbn; try done.
  - by eapply op_step_cache_inv.
  - intros op [Hin|Hin]%elem_of_app; [by eapply flight_le|by apply Hnew].
  - split; lia.
  - by rewrite HL1.
  - by rewrite HL2.
Qed.

(** The order of the writes in flight does not matter, nor do the calls made to the
    listener. *)
Lemma log_perm (fl fl' : list (WriteOp K V)) : fl ≡ₚ fl' -> log_entries fl = log_entries fl' /\ log_weight fl = log_weight fl'.
Proof. unfold log_entries, log_weight. induction 1 as [|x l l' _ [IH1 IH2]|x y l|l l' l'' _ [] _ []]; cbn; lia. Qed.
Lemma sys_inv_perm n m b fl fl' : fl ≡ₚ fl' -> sys_inv cfg n m (mkSys b fl) -> sys_inv cfg n m (mkSys b fl').
Proof.
  intros Hp [I Hhk Hf [Hb1 Hb2] Hr Hw Hs]. destruct (log_perm _ _ Hp) as [E1 E2]. split; cbn [base in_flight] in *; try done.
  - intros op. rewrite <- Hp. apply Hf.
  - split; lia.
Qed.
Lemma notifier_sys n m b fl x : sys_inv cfg n m (mkSys b fl) -> sys_inv cfg n m (mkSys (with_inner b (with_notifier (inner b) x)) fl).
Proof.
  intros S. rewrite <- (app_nil_r fl). eapply (op_step_sys n n m m (mkSys b fl)); [exact S|apply notifier_step|apply S| |cbn; lia|cbn; lia].
  intros op Hop. by apply elem_of_nil in Hop.
Qed.

(** An insertion, and a removal, up to the recording of the write. *)
Lemma insert_sys n m sys key v ts now :
  sys_inv cfg n m sys -> instant_ok ts ->
  exists s' op, do_insert_with_hash cfg (inner (base sys)) key (hasher cfg key) v ts now = Ok (s', op) /\
    mem_le (mem (inner (base sys))) (mem s') /\
    sys_inv cfg (n + 1) (<[key := (v, ts)]> m) (mkSys (with_inner (base sys) s') (in_flight sys ++ [op])).
Proof.
  intros S Hts. destruct (do_insert_ok cfg Huser (inner (base sys)) key (hasher cfg key) v ts now (si_cache S) Hts)
    as (s' & op & -> & Hop & Hwf & He & Hw & _ & _ & ve & ei & Hc & Hv & Hei & Hfr & Hla & Hlm & Hex).
  exists s', op. split; [done|]. split; [apply Hop|]. eapply op_step_sys; [exact S|exact Hop| | | |].
  - intros k ve' Hk. rewrite Hc in Hk. apply lookup_insert_Some in Hk as [[<- <-]|[Hne Hk]].
    + exists ei. rewrite lookup_insert_eq, Hv, Hlm. do 2 (split; [done|]). intros Hno. specialize (Hex Hno).
      destruct (cache (inner (base sys)) !! key) as [old|] eqn:Hold; [|done].
      destruct (si_spec S _ _ Hold) as (x & Hx & _ & Hxn). rewrite <- (Hxn Hno). unfold expiration_state. by rewrite (Hex _ Hx).
    + rewrite lookup_insert_ne by done. destruct (si_spec S _ _ Hk) as (x & Hx & Hm). exists x. split; [|done].
      apply Hfr; [|done]. intros E.
      destruct (op_step_cache_inv cfg _ _ Hop (si_cache S)) as (_ & P & Q & B & I).
      destruct (i_cache I k ve') as (_ & y & Hy & Hky & _); [by rewrite Hc, lookup_insert_ne|].
      destruct (i_cache I key ve) as (_ & z & Hz & Hkz & _); [by rewrite Hc, lookup_insert_eq|].
      rewrite E in Hy. congruence.
  - intros op' ->%list_elem_of_singleton. done.
  - cbn. lia.
  - cbn. pose proof (weigh_range cfg Huser key v). lia.
Qed.

Lemma exec_insert n m sys key v ts now :
  sys_inv cfg n m sys -> instant_ok ts ->
  exists sys' o, exec cfg sys (EInsert key v ts now) = Ok (sys', o) /\
    sys_inv cfg (n + 1) (spec_step cfg m (EInsert key v ts now)) sys'.
Proof.
  intros S Hts. cbn [exec spec_step]. destruct (is_map_disabled cfg).
  { exists sys, None. split; [done|]. destruct S as [I Hhk Hf [Hb1 Hb2] Hr Hw Hs]. split; try done. split; unfold U32_MAX in *; lia. }
  destruct (insert_sys n m sys key v ts now S Hts) as (s' & op & -> & _ & S'). cbn [mbind res_bind]. by eexists _, None.
Qed.

Lemma invalidate_sys n m sys key now :
  sys_inv cfg n m sys ->
  exists s' o, do_invalidate_with_hash cfg (inner (base sys)) key now = Ok (s', o) /\
    mem_le (mem (inner (base sys))) (mem s') /\
    sys_inv cfg n (delete key m) (mkSys (with_inner (base sys) s') (in_flight sys ++ match o with Some (_, op) => [op] | None => [] end)).
Proof.
  intros S. destruct (do_invalidate_ok cfg (inner (base sys)) key now (si_cache S)) as (s' & o & -> & Hop & Hc & _ & _ & Ho & Hfr).
  exists s', o. split; [done|]. split; [apply Hop|]. eapply op_step_sys; [exact S|exact Hop| | | |].
  - intros k ve Hk. rewrite Hc in Hk. apply lookup_delete_Some in Hk as [Hne Hk].
    destruct (si_spec S _ _ Hk) as (x & Hx & Hm). exists x. rewrite lookup_delete_ne by done.
    rewrite (Hfr k ve) by done. done.
  - destruct o as [[kv op]|]; intros op' Hop'; [|by apply elem_of_nil in Hop'].
    apply list_elem_of_singleton in Hop' as ->. apply Ho.
  - destruct o as [[kv op]|]; cbn; [|lia]. destruct Ho as (_ & _ & -> & _). lia.
  - destruct o as [[kv op]|]; cbn; [|lia]. destruct Ho as (_ & _ & _ & ->). lia.
Qed.

Lemma exec_invalidate n m sys key now :
  sys_inv cfg n m sys ->
  exists sys' o, exec cfg sys (EInvalidate key now) = Ok (sys', o) /\
    sys_inv cfg n (spec_step cfg m (EInvalidate key now)) sys'.
Proof.
  intros S. cbn [exec spec_step]. destruct (invalidate_sys n m sys key now S) as (s' & o & -> & _ & S'). cbn [mbind res_bind].
  by eexists _, None.
Qed.

(** The state after a run that an event may have started. *)
Lemma maintained_sys n m sys b' :
  sys_inv cfg n m sys -> base_ok b' -> maybe_maintained (inner (base sys)) (inner b') ->
  sys_inv cfg n m (mkSys b' (in_flight sys)).
Proof.
  intros [I Hhk Hf Hb Hr Hw Hs] [[I' _] Hhk'] M. destruct (maybe_logs _ _ M) as [L1 L2]. split; cbn; try done.
  - eapply flight_le; [by apply maybe_mem|done].
  - by eapply maybe_bounds.
  - lia.
  - lia.
  - by eapply maybe_spec.
Qed.

Lemma cache_inv_reads s (l : list (ReadOp V)) : cache_inv cfg s -> (forall o, o ∈ l -> read_wf (mem s) o) -> cache_inv cfg (with_reads s l).
Proof. intros (Hw & P & Q & B & I) Hl. split; [done|]. exists P, Q, B. by apply inv_reads. Qed.
Lemma cache_inv_writes s l : cache_inv cfg s -> (forall op, op ∈ l -> write_wf (mem s) op) -> cache_inv cfg (with_writes s l).
Proof. intros (Hw & P & Q & B & I) Hl. split; [done|]. exists P, Q, B. by apply inv_writes. Qed.

Lemma log_delete (fl : list (WriteOp K V)) i op :
  fl !! i = Some op -> log_entries (delete i fl) + op_entries op = log_entries fl /\
    log_weight (delete i fl) + op_weight op = log_weight fl.
Proof.
  intros Hi. rewrite delete_take_drop. rewrite <- (take_drop_middle fl i op Hi) at 3 6.
  destruct (log_app (take i fl) (drop (S i) fl)) as [-> ->]. destruct (log_app (take i fl) (op :: drop (S i) fl)) as [-> ->].
  cbn. unfold log_entries, log_weight. lia.
Qed.

(** A write leaves the flight and enters the log. *)
Lemma sent_sys n m sys i op :
  sys_inv cfg n m sys -> in_flight sys !! i = Some op ->
  Z.of_nat (length (write_op_ch (inner (base sys)))) < channel_capacity cfg WRITE_LOG_CH_SIZE ->
  sys_inv cfg n m (mkSys (with_inner (base sys) (with_writes (inner (base sys)) (write_op_ch (inner (base sys)) ++ [op])))
                     (delete i (in_flight sys))).
Proof.
  intros [I Hhk Hf [Hb1 Hb2] Hr Hw Hs] Hi Hlen. set (s := inner (base sys)) in *.
  destruct (log_delete _ _ _ Hi) as [D1 D2]. destruct (log_app (write_op_ch s) [op]) as [A1 A2].
  split; cbn; try done.
  - apply cache_inv_writes; [done|]. intros o [Ho|Ho%list_elem_of_singleton]%elem_of_app.
    + destruct I as (_ & P & Q & B & I). by apply (i_writes I).
    + subst o. apply Hf. by eapply list_elem_of_lookup_2.
  - intros o Ho. apply Hf. eapply elem_of_submseteq; [exact Ho|]. apply sublist_submseteq, sublist_delete.
  - unfold bounded_by, entry_bound, weight_bound in *. cbn [entry_count weighted_size write_op_ch with_writes with_inner inner base].
    rewrite A1, A2. cbn. lia.
  - rewrite length_app. cbn. lia.
Qed.

Lemma exec_send n m sys i now env :
  sys_inv cfg n m sys -> n <= MAX_WRITES -> env_ok env ->
  exists sys' o, exec cfg sys (ESend i now env) = Ok (sys', o) /\ sys_inv cfg n m sys'.
Proof.
  intros S Hn He. cbn [exec]. unfold send_attempt. destruct (in_flight sys !! i) as [op|] eqn:Hi.
  - destruct (apply_writes_if_needed_ok (base sys) now env (flight_ready _ _ _ S Hn) He) as (b' & -> & Hb' & M & _).
    cbn [mbind res_bind]. pose proof (maintained_sys _ _ _ _ S Hb' M) as S1.
    destruct (Z.ltb_spec (Z.of_nat (length (write_op_ch (inner b')))) (channel_capacity cfg WRITE_LOG_CH_SIZE)); cbn [mbind res_bind].
    + eexists _, None. split; [reflexivity|]. by apply (sent_sys n m _ i op S1).
    + by eexists _, None.
  - by exists sys, None.
Qed.

(** A read enters the log. *)
Lemma read_sent_sys n m sys (op : ReadOp V) :
  sys_inv cfg n m sys -> read_wf (mem (inner (base sys))) op ->
  Z.of_nat (length (read_op_ch (inner (base sys)))) < channel_capacity cfg READ_LOG_CH_SIZE ->
  sys_inv cfg n m (mkSys (with_inner (base sys) (with_reads (inner (base sys)) (read_op_ch (inner (base sys)) ++ [op]))) (in_flight sys)).
Proof.
  intros [I Hhk Hf Hb Hr Hw Hs] Hop Hlen. split; cbn; try done.
  - apply cache_inv_reads; [done|]. intros o [Ho|Ho%list_elem_of_singleton]%elem_of_app; [|by subst o].
    destruct I as (_ & P & Q & B & I). by apply (i_reads I).
  - rewrite length_app. cbn. lia.
Qed.

Lemma record_read_ok n m sys (op : ReadOp V) now env :
  sys_inv cfg n m sys -> n <= MAX_WRITES -> env_ok env -> read_wf (mem (inner (base sys))) op ->
  exists b', record_read_op cfg (base sys) op now env = Ok b' /\ sys_inv cfg n m (mkSys b' (in_flight sys)).
Proof.
  intros S Hn He Hop. unfold record_read_op.
  destruct (apply_reads_if_needed_ok (base sys) now env (flight_ready _ _ _ S Hn) He) as (b' & -> & Hb' & M).
  cbn [mbind res_bind]. pose proof (maintained_sys _ _ _ _ S Hb' M) as S1. eexists. split; [reflexivity|].
  destruct (Z.ltb_spec (Z.of_nat (length (read_op_ch (inner b')))) (channel_capacity cfg READ_LOG_CH_SIZE)); [|done].
  apply (read_sent_sys n m (mkSys b' (in_flight sys))); [done| |done]. eapply read_wf_le; [by apply maybe_mem|done].
Qed.

(** A lookup may answer with a value only if it is the last one written under the
    key, the entry that holds it has not expired by any of the three rules (its time
    to live since the write, its time to idle since the last access, its own
    expiration time), no [invalidate_all] came after, and no registered predicate
    accepts it. *)
Definition answer_ok m s (key : K) (now : Instant) (o : option (Entry K V)) : Prop :=
  match o with
  | None => True
  | Some en => exists ts ve ei, m !! key = Some (en_value en, ts) /\
      cache s !! key = Some ve /\ value ve = en_value en /\ infos (mem s) !! info ve = Some ei /\ last_modified ei = Some ts /\
      is_expired_by_ttl (time_to_live (expiration_policy cfg)) ts now = false /\
      (forall acc, last_accessed ei = Some acc ->
        is_expired_by_tti (time_to_idle (expiration_policy cfg)) acc now = false /\ is_invalid_entry (get_valid_after s) acc = false) /\
      (forall exp, fst (expiration_state ei) = Some exp -> now < exp) /\
      is_invalid_entry (get_valid_after s) ts = false /\
      forall i, invalidator s = Some i -> inv_is_empty i = false ->
        do_apply_predicates (pred_values i) key (en_value en) ts = false
  end.

Lemma not_hidden s key ve ei ts now :
  is_hidden cfg s key ve ei now = false -> last_modified ei = Some ts ->
  is_expired_by_ttl (time_to_live (expiration_policy cfg)) ts now = false /\
  (forall acc, last_accessed ei = Some acc ->
    is_expired_by_tti (time_to_idle (expiration_policy cfg)) acc now = false /\ is_invalid_entry (get_valid_after s) acc = false) /\
  (forall exp, fst (expiration_state ei) = Some exp -> now < exp) /\
  is_invalid_entry (get_valid_after s) ts = false /\
  forall i, invalidator s = Some i -> inv_is_empty i = false ->
    do_apply_predicates (pred_values i) key (value ve) ts = false.
Proof.
  unfold is_hidden. cbv zeta. intros [[[Hp Hw]%orb_false_iff Ha]%orb_false_iff Hi]%orb_false_iff Hlm.
  unfold is_expired_entry_wo in Hw. rewrite Hlm in Hw. apply orb_false_iff in Hw as [Hinv Httl].
  split; [done|]. split; [|split; [|split; [done|]]].
  - intros acc Hacc. unfold is_expired_entry_ao in Ha. rewrite Hacc in Ha. by apply orb_false_iff in Ha as [? ?].
  - intros exp He. unfold is_expired_by_per_entry_ttl in Hp. rewrite He in Hp. by apply Z.leb_gt in Hp.
  - intros i Ei He. unfold is_invalidated_entry in Hi. by rewrite Ei, He, Hlm in Hi.
Qed.

(** A hit: the entry is touched, and what is answered is the last value written. *)
Lemma touch_sys n m sys key ignore_if now ve :
  sys_inv cfg n m sys -> instant_ok now -> find_valid cfg (inner (base sys)) key ignore_if now = Ok (Some ve) ->
  exists s1 now1 x1, touch_entry cfg (inner (base sys)) ve now = Ok (s1, now1, x1) /\
    sys_inv cfg n m (mkSys (with_inner (base sys) s1) (in_flight sys)) /\ read_wf (mem s1) (Hit ve x1) /\
    mem_le (mem (inner (base sys))) (mem s1) /\
    forall k, answer_ok m (inner (base sys)) key now (Some (mkEntry k (value ve) false false)).
Proof.
  intros S Hnow E. destruct (find_valid_ok cfg (inner (base sys)) key ignore_if now (si_cache S)) as (o & Eo & Ho).
  rewrite E in Eo. injection Eo as <-. destruct Ho as (Hc & ei & He & Hh). destruct (si_cache S) as (_ & P & Q & B & I).
  destruct (touch_entry_ok cfg Huser (inner (base sys)) ve now (si_cache S) (cache_ent cfg _ _ _ _ _ _ _ _ I Hc) Hnow)
    as (s1 & now1 & x1 & E1 & Hs1 & Hve1 & _ & Hc1 & _ & _ & _ & Hkm). exists s1, now1, x1. split; [done|]. split.
  { rewrite <- (app_nil_r (in_flight sys)). eapply op_step_sys; [exact S|exact Hs1| | |cbn; lia|cbn; lia].
    - eapply never_lies_view; [by rewrite Hc1|exact Hkm|apply S].
    - intros op Hop. by apply elem_of_nil in Hop. }
  split; [done|]. split; [apply Hs1|]. intros k. cbn [answer_ok en_value].
  destruct (si_spec S _ _ Hc) as (x & Hx & Hm & _). assert (x = ei) as -> by congruence.
  assert (Hlm : last_modified ei = Some (ei_last_modified ei)) by apply instant_ok_some, (i_wf I _ _ He).
  exists (ei_last_modified ei), ve, ei. do 5 (split; [done|]). by apply not_hidden.
Qed.

Lemma exec_get n m sys key ignore_if need_key now record :
  sys_inv cfg n m sys -> n <= MAX_WRITES -> instant_ok now -> (forall env, record = Some env -> env_ok env) ->
  exists sys' o, exec cfg sys (EGet key ignore_if need_key now record) = Ok (sys', o) /\ sys_inv cfg n m sys' /\
    answer_ok m (inner (base sys)) key now o.
Proof.
  intros S Hn Hnow Henv. cbn [exec]. unfold do_get_with_hash. destruct (is_map_disabled cfg).
  { exists sys, None. split; [by destruct sys|done]. }
  assert (Hrec : forall sys1 (op : ReadOp V) t, sys_inv cfg n m sys1 -> read_wf (mem (inner (base sys1))) op ->
    exists b', match record with Some env => record_read_op cfg (base sys1) op t env | None => Ok (base sys1) end = Ok b' /\
      sys_inv cfg n m (mkSys b' (in_flight sys1))).
  { intros sys1 op t S1 Hop. destruct record as [env|]; [by apply record_read_ok; auto|]. exists (base sys1). by destruct sys1. }
  destruct (find_valid_ok cfg (inner (base sys)) key ignore_if now (si_cache S)) as (o & Eo & _). rewrite Eo. cbn [mbind res_bind].
  destruct o as [ve|].
  - destruct (touch_sys n m sys key ignore_if now ve S Hnow Eo) as (s1 & now1 & b1 & -> & S1 & Hwf & _ & Hans). cbn [mbind res_bind].
    destruct (Hrec _ (Hit ve b1) now1 S1) as (b' & E' & S'); [done|].
    cbn [base] in E'. rewrite E'. cbn [mbind res_bind]. eexists _, _. split; [reflexivity|]. split; [exact S'|]. apply Hans.
  - destruct (Hrec sys (Miss (hasher cfg key)) now S) as (b' & -> & S'); [done|]. cbn [mbind res_bind].
    eexists _, None. split; [reflexivity|]. split; [exact S'|done].
Qed.

Lemma exec_invalidate_all n m sys now :
  sys_inv cfg n m sys -> instant_ok now ->
  exists sys' o, exec cfg sys (EInvalidateAll now) = Ok (sys', o) /\ sys_inv cfg n m sys'.
Proof.
  intros S Hnow. cbn [exec]. unfold invalidate_all. destruct (set_instant_ok (valid_after (inner (base sys))) now Hnow) as [-> _].
  cbn [mbind res_bind]. eexists _, None. split; [reflexivity|].
  rewrite <- (app_nil_r (in_flight sys)). eapply op_step_sys; [exact S| |apply S| |cbn; lia|cbn; lia].
  - split; try done. intros P Q B O ec I. by destruct I.
  - intros op Hop. by apply elem_of_nil in Hop.
Qed.

Lemma register_finds uuid (i : Invalidator K V) f now : forall fuel tries n, (tries <= n < tries + fuel)%nat ->
  predicates i !! uuid n = None -> exists i' id, register_loop fuel tries uuid i f now = Ok (i', id).
Proof.
  induction fuel as [|fuel IH]; intros tries n Hn Hfree; [lia|]. cbn [register_loop]. cbv zeta.
  case_bool_decide as Hd; [|eauto]. apply (IH (S tries) n); [|done].
  destruct (decide (tries = n)) as [->|]; [|lia]. rewrite Hfree in Hd. by destruct Hd.
Qed.

Lemma exec_invalidate_if n m sys uuid f now :
  sys_inv cfg n m sys -> event_ok sys (EInvalidateIf uuid f now) ->
  exists sys' o, exec cfg sys (EInvalidateIf uuid f now) = Ok (sys', o) /\ sys_inv cfg n m sys'.
Proof.
  intros S Hid. cbn [exec event_ok] in *. unfold invalidate_entries_if.
  destruct (invalidator (inner (base sys))) as [i|] eqn:Hi; [|exists (mkSys (with_inner (base sys) (inner (base sys))) (in_flight sys)), None; split; [done|by destruct S; destruct sys as [[? ?] ?]; split]].
  destruct (Hid i eq_refl) as (k & Hk & Hfree).
  destruct (register_finds uuid i f now MAX_RETRY 0 k ltac:(lia) Hfree) as (i' & id & E).
  assert (E' : register_predicate uuid i f now = Ok (i', id)) by exact E.
  rewrite E'. cbn [mbind res_bind]. eexists _, None. split; [reflexivity|].
  destruct (register_predicate_wf uuid i f now i' id E') as [Hwf _].
  rewrite <- (app_nil_r (in_flight sys)). eapply op_step_sys; [exact S| |apply S| |cbn; lia|cbn; lia].
  - split; try done. intros P Q B O ec I. by eapply inv_invalidator.
  - intros op Hop. by apply elem_of_nil in Hop.
Qed.

Lemma run_maintained n m sys env :
  sys_inv cfg n m sys -> n <= MAX_WRITES -> env_ok env ->
  exists b', exec cfg sys (ERun env) = Ok (mkSys b' (in_flight sys), None) /\ base_ok b' /\
    maintained cfg (inner (base sys)) (inner b').
Proof.
  intros S Hn He. destruct (flight_ready _ _ _ S Hn) as (Hr & hk & Hhk & Hwf & Ha). cbn [exec]. unfold run_pending_tasks. rewrite Hhk.
  unfold hk_run_pending_tasks.
  destruct (hk_run_ok (H := inner_sync cfg) ready (maintained cfg) hk (hk_now env) (hk_readings env, hk_started env) (inner (base sys)) Hwf He Hr)
    as (hk' & s' & -> & Hwf' & Hr' & HR & _ & Ha' & _). cbn [mbind res_bind].
  eexists. split; [reflexivity|]. split; [|done]. split; [done|]. exists hk'. split; [done|]. split; [done|congruence].
Qed.

Lemma exec_run n m sys env :
  sys_inv cfg n m sys -> n <= MAX_WRITES -> env_ok env ->
  exists sys' o, exec cfg sys (ERun env) = Ok (sys', o) /\ sys_inv cfg n m sys'.
Proof.
  intros S Hn He. destruct (run_maintained n m sys env S Hn He) as (b' & E & Hb & M). eexists _, None. split; [exact E|].
  eapply maintained_sys; [exact S|exact Hb|by right].
Qed.

Lemma exec_step n m sys e :
  sys_inv cfg n m sys -> event_ok sys e -> n + writes_of e <= MAX_WRITES ->
  exists sys' o, exec cfg sys e = Ok (sys', o) /\ sys_inv cfg (n + writes_of e) (spec_step cfg m e) sys'.
Proof.
  intros S He Hn. destruct e; cbn [writes_of] in *; rewrite ?Z.add_0_r in *.
  - by apply exec_insert.
  - by apply exec_invalidate.
  - by apply exec_send.
  - destruct He as [Hnow Henv]. destruct (exec_get n m sys key ignore_if need_key now record S Hn Hnow Henv) as (sys' & o & E & S' & _).
    by exists sys', o.
  - by apply exec_invalidate_all.
  - by apply exec_invalidate_if.
  - by apply exec_run.
Qed.

(** ** The start *)

Lemma new_inner_inv listener inv_on now : inv cfg (new_inner listener inv_on now) [] [] (fun _ _ => []) [] 0.
Proof.
  split; cbn [new_inner mem deques timer_wheel cache frequency_sketch frequency_sketch_enabled read_op_ch write_op_ch invalidator empty_mem infos dnodes next_eid];
    try done.
  - apply default_inv; try done; intros e; unfold ao_of, wo_of; cbn; by rewrite lookup_empty.
  - apply empty_wheel_inv; [done|]. intros e. unfold tn_of. cbn. by rewrite lookup_empty.
  - intros e. rewrite !lookup_empty. split; intros [? ?]; done.
  - intros e [x Hx]. by rewrite lookup_empty in Hx.
  - intros e. unfold wo_of, ao_of. cbn. rewrite lookup_empty. cbn. split; [by intros [? ?]|by intros [_ [? ?]]].
  - split; [|done]. split; [apply default_sketch_shape|]. intros _. split; [apply default_sketch_wf|by left].
  - intros i. destruct inv_on; [|done]. intros [= <-]. apply new_invalidator_wf.
  - intros op Hop. by apply elem_of_nil in Hop.
  - intros op Hop. by apply elem_of_nil in Hop.
Qed.

Lemma start_inv listener config inv_on now :
  instant_ok now -> 0 <= cfg_max_log_sync_repeats config ->
  exists b, new_base_cache listener config inv_on now = Ok b /\ sys_inv cfg 0 ∅ (mkSys b []).
Proof.
  intros Hnow Hr. unfold new_base_cache. destruct (new_housekeeper_ok (bool_decide (is_Some listener)) config now Hnow Hr)
    as (hk & -> & Hwf & Ha). cbn [mbind res_bind]. eexists. split; [reflexivity|].
  assert (Hcap : forall x, 0 <= x -> 0 <= channel_capacity cfg x) by (intros x Hx; unfold channel_capacity; by case_match).
  split; cbn [base in_flight inner housekeeper].
  - split; [done|]. exists [], [], (fun _ _ => []). apply new_inner_inv.
  - by exists hk.
  - intros op Hop. by apply elem_of_nil in Hop.
  - unfold bounded_by, entry_bound, weight_bound, log_entries, log_weight. cbn. lia.
  - by apply Hcap.
  - by apply Hcap.
  - intros k ve Hk. cbn in Hk. by rewrite lookup_empty in Hk.
Qed.

Lemma reachable_inv sys0 n m sys :
  sys_inv cfg 0 ∅ sys0 -> reachable cfg sys0 n m sys -> n <= MAX_WRITES -> sys_inv cfg n m sys.
Proof.
  intros S0 HR. induction HR as [|n m sys e sys' o HR IH He E]; intros Hn; [done|].
  assert (Hpos : 0 <= writes_of e) by (by destruct e; cbn).
  destruct (exec_step n m sys e (IH ltac:(lia)) He Hn) as (sys2 & o2 & E2 & S2). rewrite E in E2. by injection E2 as <- <-.
Qed.
End safety.
