(* ===== verification/Guarantees.v ===== *)
(** What the cache guarantees to its users, in every state it can reach.  The
    proofs put together the lemmas of System and of the files below it. *)
From Stdlib Require Import String.
From S2P Require Import Prelude Common FrequencySketch Deque Time Housekeeper EntryInfo Concurrent Deques.
From S2P Require Import TimerWheel Policy Invalidator Inner BaseCache InnerInv InnerRemove Admission LruOrder Scan Maintenance.
From S2P Require Import Operations System.

(** ** A small cache to evaluate the statements on *)
Module Sample.
Definition config : Config Z Z :=
  mkConfig (Some 4) None TinyLfu (mkExpirationPolicy (Some 1000) (Some 900) None) (fun k => k mod 2 ^ 64) 0 true.
Definition start : BaseCache Z Z :=
  mkBaseCache (new_inner (Some (fun _ _ _ => false)) true 0)
    (Some (mkHousekeeper 300000000 (Some false) (Some (from_millis 100)) 4 1 true)).
Definition env (t : Instant) : HkEnv := mkHkEnv false t (fun _ => mkReadings t t t t) t.
Definition put (k v t : Z) : event (K := Z) (V := Z) := EInsert k v t t.
Definition look (k t : Z) : event (K := Z) (V := Z) := EGet k None true t (Some (env t)).
Definition send (t : Z) : event (K := Z) (V := Z) := ESend 0 t (env t).
(** A write and its recording. *)
Definition put_sent (k v t : Z) : list (event (K := Z) (V := Z)) := [put k v t; send t].

Definition state_of (b : BaseCache Z Z) (es : list event) : Sys :=
  match exec_all config (mkSys b []) es with Ok (sys, _) => sys | Fail _ => mkSys b [] end.

Definition quiet_listener : option (Z -> Z -> RemovalCause -> bool) := Some (fun _ _ _ => false).
Lemma start_ok : new_base_cache quiet_listener (mkHousekeeperConfig (from_millis 100) 4 1) true 0 = Ok start.
Proof. reflexivity. Qed.
(** The same without support for predicates and without a listener. *)
Definition plain : BaseCache Z Z :=
  mkBaseCache (new_inner None false 0) (Some (mkHousekeeper 300000000 None None 4 1 true)).
Lemma plain_ok : new_base_cache None (mkHousekeeperConfig (from_millis 100) 4 1) false 0 = Ok plain.
Proof. reflexivity. Qed.
Lemma user : user_ok config.
Proof. by split. Qed.
Lemma safe : sketch_safe config.
Proof. intros _ _. by split. Qed.

(** Two recorded writes, a read, and a third write still in flight. *)
Definition story : list (event (K := Z) (V := Z)) := put_sent 1 10 5 ++ put_sent 2 20 6 ++ [look 1 7; put 3 30 8].
Definition filled : Sys := state_of start story.
Definition held : gmap Z (Z * Instant) := foldl (spec_step config) ∅ story.

Lemma ok_at t : (0 <=? t) && (t <=? MAX_NANOS) = true -> instant_ok t.
Proof. intros [H1 H2]%andb_prop. by split; apply Z.leb_le. Qed.
Lemma env_at t e : (0 <=? t) && (t <=? MAX_NANOS) = true -> Some (env t) = Some e -> env_ok e.
Proof. intros Ht [= <-]. by apply ok_at. Qed.
Definition applied : list (event (K := Z) (V := Z)) := story ++ [send 9; ERun (env 10)].
Lemma stories_ok : Forall static_ok story /\ Forall static_ok applied.
Proof.
  assert (Hs : Forall static_ok story).
  { unfold story, put_sent, put, send, look. cbn [app].
    repeat (apply Forall_cons; split); [..|by apply Forall_nil]; intros sys; cbn [event_ok].
    5: { split; [by apply ok_at|]. intros e. by apply env_at. }
    all: by apply ok_at. }
  split; [done|]. apply Forall_app. split; [done|].
  repeat (apply Forall_cons; split); [..|by apply Forall_nil]; intros sys; by apply ok_at.
Qed.
Lemma reached_by b es : Forall static_ok es ->
  (exists os, exec_all config (mkSys b []) es = Ok (state_of b es, os)) ->
  reachable config (mkSys b []) (total_writes 0 es) (foldl (spec_step config) ∅ es) (state_of b es).
Proof.
  intros Hok [os E].
  exact (exec_all_reachable config (mkSys b []) es 0 ∅ _ _ _ (reach_start _ _) (static_all_ok _ _ _ Hok) E).
Qed.
Lemma filled_reached : reachable config (mkSys start []) 3 held filled.
Proof. apply (reached_by start story); [apply stories_ok|]. eexists. vm_compute. reflexivity. Qed.
Definition plain_filled : Sys := state_of plain story.
Lemma plain_reached : reachable config (mkSys plain []) 3 held plain_filled.
Proof. apply (reached_by plain story); [apply stories_ok|]. eexists. vm_compute. reflexivity. Qed.
Definition quiesced : Sys := state_of start applied.
Lemma quiesced_reached : reachable config (mkSys start []) 3 held quiesced.
Proof. apply (reached_by start applied); [apply stories_ok|]. eexists. vm_compute. reflexivity. Qed.
(** Two more uses of key 1, applied. *)
Definition uses : list (event (K := Z) (V := Z)) := applied ++ [look 1 11; look 1 12; ERun (env 13)].
Definition used : Sys := state_of start uses.
Lemma used_reached : reachable config (mkSys start []) 3 held used.
Proof.
  apply (reached_by start uses); [|eexists; vm_compute; reflexivity]. apply Forall_app. split; [apply stories_ok|]. unfold look.
  repeat (apply Forall_cons; split); [..|by apply Forall_nil]; intros sys; cbn [event_ok]; [| |by apply ok_at];
    (split; [by apply ok_at|]; intros e; by apply env_at).
Qed.
End Sample.

Section guarantees.
Context {K V : Type} `{Countable K}.
Variable cfg : Config K V.
Context (Huser : user_ok cfg) (Hsafe : sketch_safe cfg).
Variables (listener : option (K -> V -> RemovalCause -> bool)) (config : HousekeeperConfig) (inv_on : bool)
  (t0 : Instant) (b0 : BaseCache K V).
Context (Ht0 : instant_ok t0) (Hrep : 0 <= cfg_max_log_sync_repeats config)
  (Hnew : new_base_cache listener config inv_on t0 = Ok b0).
Notation reached := (reachable cfg (mkSys b0 [])).
Implicit Types (n : Z) (m : gmap K (V * Instant)) (sys : Sys (K := K) (V := V)).

Lemma reached_inv n m sys : reached n m sys -> n <= MAX_WRITES -> sys_inv cfg n m sys.
Proof.
  intros HR Hn. eapply reachable_inv; [exact Huser|exact Hsafe| |exact HR|exact Hn].
  destruct (start_inv cfg listener config inv_on t0 Ht0 Hrep) as (b & E & S). congruence.
Qed.


(** C2. The cache refines a map from keys to the last value written: a lookup
    that returns a value returns the last value inserted under the key (nothing
    inserted before an invalidation of the key), whose entry has not passed its time
    to live, its time to idle or an expiration time of its own, that is not older than
    the last [invalidate_all], and that no registered predicate rejects, whatever was
    evicted in between.  For every [sketch_safe] configuration. *)
Theorem lookup_never_stale n m sys key ignore_if need_key now record :
  reached n m sys -> n <= MAX_WRITES -> instant_ok now -> (forall env, record = Some env -> env_ok env) ->
  exists sys' o, exec cfg sys (EGet key ignore_if need_key now record) = Ok (sys', o) /\
    answer_ok cfg m (inner (base sys)) key now o.
Proof.
  intros HR Hn Hnow Henv.
  destruct (exec_get cfg Huser Hsafe n m sys key ignore_if need_key now record (reached_inv _ _ _ HR Hn) Hn Hnow Henv)
    as (sys' & o & E & _ & A). eauto.
Qed.


(** C9. A maintenance run tells the eviction listener of every entry it removes,
    with its key and value, and of nothing else: one call for each entry that left
    the table.  The listener is enabled and does not panic ([quiet]: a listener that
    panicked is not called again); the configuration is [sketch_safe]. *)
Theorem maintenance_notifies n m sys env nt :
  reached n m sys -> n <= MAX_WRITES -> env_ok env -> removal_notifier (inner (base sys)) = Some nt -> quiet nt ->
  exists sys' o nt' l, exec cfg sys (ERun env) = Ok (sys', o) /\
    removal_notifier (inner (base sys')) = Some nt' /\ nt_calls nt' = nt_calls nt ++ l /\
    (length l + size (cache (inner (base sys'))))%nat = size (cache (inner (base sys))) /\
    forall k v, (exists cause, (k, v, cause) ∈ l) <->
      exists ve, cache (inner (base sys)) !! k = Some ve /\ value ve = v /\ cache (inner (base sys')) !! k = None.
Proof.
  intros HR Hn He Hnt Hq. destruct (run_maintained cfg Hsafe n m sys env (reached_inv _ _ _ HR Hn) Hn He)
    as (b' & E & _ & M). pose proof (ma_notified _ _ _ M) as N. unfold notified in N. rewrite Hnt in N.
  destruct (removal_notifier (inner b')) as [nt'|] eqn:En; [|done].
  destruct (N Hq) as (_ & l & Hl & Hlen & Hrep'). by exists (mkSys b' (in_flight sys)), None, nt', l.
Qed.

(** ** What an operation leaves for the next lookup *)

Lemma get_visible s key ve ei now :
  cache s !! key = Some ve -> infos (mem s) !! info ve = Some ei ->
  scanning_get cfg s key now = Ok (if is_hidden cfg s key ve ei now then None else Some (value ve)).
Proof. intros Hc He. unfold scanning_get. by rewrite Hc, (get_info_ok _ _ _ He). Qed.

(** A lookup sees the table, the entry, [valid_after] and the predicates only. *)
Lemma get_same s s' key now :
  cache_inv cfg s -> cache s' !! key = cache s !! key -> valid_after s' = valid_after s ->
  (invalidator s' = invalidator s) ->
  (forall ve x, cache s !! key = Some ve -> infos (mem s) !! info ve = Some x ->
     exists x', infos (mem s') !! info ve = Some x' /\ observed x' = observed x) ->
  scanning_get cfg s' key now = scanning_get cfg s key now.
Proof.
  intros (_ & P & Q & B & I) Hc Hva Hi Hm. unfold scanning_get. rewrite Hc. destruct (cache s !! key) as [ve|] eqn:Hk; [|done].
  destruct (i_cache I _ _ Hk) as (_ & x & Hx & _). destruct (Hm ve x eq_refl Hx) as (x' & Hx' & Ho).
  rewrite (get_info_ok _ _ _ Hx), (get_info_ok _ _ _ Hx'). cbn [mbind res_bind]. injection Ho as _ E1 E2 E3 _.
  do 2 f_equal. unfold is_hidden, is_expired_by_per_entry_ttl, is_expired_entry_wo, is_expired_entry_ao, is_invalidated_entry,
    get_valid_after, last_accessed, last_modified, expiration_state. by rewrite E1, E2, E3, Hva, Hi.
Qed.

(** The conditions under which a value inserted at [ts] shows at [now]. *)
Record shows s (key : K) (v : V) (ts now : Instant) : Prop := {
  sh_ttl : is_expired_by_ttl (time_to_live (expiration_policy cfg)) ts now = false;
  sh_tti : is_expired_by_tti (time_to_idle (expiration_policy cfg)) ts now = false;
  sh_valid : is_invalid_entry (get_valid_after s) ts = false;
  sh_pred : forall i, invalidator s = Some i -> do_apply_predicates (pred_values i) key v ts = false
}.

(** C10. An inserted value is found: right after the insertion of [v] at time [ts]
    in any reachable state, a lookup of the key returns [v] at every time before
    its expiration, unless an [invalidate_all] of a later time or a predicate
    covers it ([shows]: an [invalidate_all] of the same time does not, against its
    documentation); the lookups of all other keys are unchanged.  For an enabled map
    without a per-entry expiry policy, of a [sketch_safe] configuration. *)
Theorem insert_visible n m sys key v ts tn now :
  reached n m sys -> n < MAX_WRITES -> instant_ok ts -> is_map_disabled cfg = false ->
  expiry (expiration_policy cfg) = None -> shows (inner (base sys)) key v ts now ->
  exists sys' o, exec cfg sys (EInsert key v ts tn) = Ok (sys', o) /\
    scanning_get cfg (inner (base sys')) key now = Ok (Some v) /\
    forall k t, k <> key ->
      scanning_get cfg (inner (base sys')) k t = scanning_get cfg (inner (base sys)) k t.
Proof.
  intros HR Hn Hts Hd Hex Hsh. pose proof (reached_inv _ _ _ HR ltac:(lia)) as S. cbn [exec]. rewrite Hd.
  destruct (do_insert_ok cfg Huser (inner (base sys)) key (hasher cfg key) v ts tn (si_cache S) Hts)
    as (s' & op & -> & Hop & _ & _ & _ & Hva & Hi & ve & ei & Hc & Hv & Hei & Hfr & Hla & Hlm & Hxp). cbn [mbind res_bind].
  eexists _, None. split; [reflexivity|]. cbn [base inner with_inner]. split.
  - assert (Hno : fst (expiration_state ei) = None).
    { specialize (Hxp Hex). destruct (cache (inner (base sys)) !! key) as [old|] eqn:Hold; [|done].
      destruct (si_spec S _ _ Hold) as (x & Hx & _ & Hxn). rewrite <- (Hxn Hex). unfold expiration_state. by rewrite (Hxp _ Hx). }
    rewrite (get_visible s' key ve ei now); [|by rewrite Hc, lookup_insert_eq|done]. rewrite Hv.
    assert (Hh : is_hidden cfg s' key ve ei now = false); [|by rewrite Hh]. destruct Hsh as [T1 T2 T3 T4].
    assert (Hi' : instant ts = Some ts) by (by apply instant_ok_some).
    unfold is_hidden, is_expired_by_per_entry_ttl, is_expired_entry_wo, is_expired_entry_ao, is_invalidated_entry, last_accessed, last_modified.
    rewrite Hno, Hla, Hlm, Hi', Hv, Hi. unfold get_valid_after in *. rewrite Hva, T1, T2, T3. cbn.
    destruct (invalidator (inner (base sys))) as [i|] eqn:Ei; [|done]. destruct (inv_is_empty i); [done|]. by apply T4.
  - intros k t Hk. apply get_same; [apply S|by rewrite Hc, lookup_insert_ne|done|done|].
    intros ve' x Hk' Hx. exists x. split; [|done]. apply Hfr; [|done]. intros E.
    destruct (op_step_cache_inv cfg _ _ Hop (si_cache S)) as (_ & P & Q & B & I).
    destruct (i_cache I k ve') as (_ & y & Hy & Hky & _); [by rewrite Hc, lookup_insert_ne|].
    destruct (i_cache I key ve) as (_ & z & Hz & Hkz & _); [by rewrite Hc, lookup_insert_eq|].
    rewrite E in Hy. congruence.
Qed.

(** C11. An invalidated key is gone at once: after [invalidate] in any reachable
    state of a [sketch_safe] configuration a lookup of the key returns nothing, at any
    time, and the lookups of all other keys are unchanged. *)
Theorem invalidate_hides n m sys key tn :
  reached n m sys -> n <= MAX_WRITES ->
  exists sys' o, exec cfg sys (EInvalidate key tn) = Ok (sys', o) /\
    (forall now, scanning_get cfg (inner (base sys')) key now = Ok None) /\
    forall k t, k <> key ->
      scanning_get cfg (inner (base sys')) k t = scanning_get cfg (inner (base sys)) k t.
Proof.
  intros HR Hn. pose proof (reached_inv _ _ _ HR Hn) as S. cbn [exec].
  destruct (do_invalidate_ok cfg (inner (base sys)) key tn (si_cache S)) as (s' & o & -> & Hop & Hc & Hva & Hi & _ & Hfr).
  cbn [mbind res_bind]. eexists _, None. split; [reflexivity|]. cbn [base inner with_inner]. split.
  - intros now. unfold scanning_get. by rewrite Hc, lookup_delete_eq.
  - intros k t Hk. apply get_same; [apply S|by rewrite Hc, lookup_delete_ne|done|done|].
    intros ve x Hk' Hx. exists x. by rewrite (Hfr k ve Hk Hk').
Qed.

(** After [invalidate_all] at time [t] a lookup returns a value only if it was
    written at [t] or later. *)
Theorem invalidate_all_hides n m sys t :
  reached n m sys -> n <= MAX_WRITES -> instant_ok t ->
  exists sys' o, exec cfg sys (EInvalidateAll t) = Ok (sys', o) /\
    forall key now v, scanning_get cfg (inner (base sys')) key now = Ok (Some v) ->
      exists ts, m !! key = Some (v, ts) /\ t <= ts.
Proof.
  intros HR Hn Ht. pose proof (reached_inv _ _ _ HR Hn) as S. cbn [exec]. unfold invalidate_all.
  destruct (set_instant_ok (valid_after (inner (base sys))) t Ht) as [-> _]. cbn [mbind res_bind].
  eexists _, None. split; [reflexivity|]. cbn [base inner with_inner]. intros key now v Hg.
  destruct (cache (inner (base sys)) !! key) as [ve|] eqn:Hc; [|unfold scanning_get in Hg; cbn in Hg; by rewrite Hc in Hg].
  destruct (si_cache S) as (_ & P & Q & B & I). destruct (si_spec S _ _ Hc) as (x & Hx & Hm & _).
  rewrite (get_visible _ key ve x now) in Hg; [|done|done]. destruct (is_hidden _ _ _ _ _ _) eqn:Hh; [done|]. injection Hg as <-.
  exists (ei_last_modified x). split; [done|]. pose proof (i_wf I _ _ Hx) as Hwf.
  destruct (not_hidden cfg _ _ _ _ _ _ Hh (instant_ok_some _ (iw_modified _ Hwf))) as (_ & _ & _ & Hv & _).
  unfold is_invalid_entry, get_valid_after in Hv. cbn in Hv. rewrite (instant_ok_some t Ht) in Hv. by apply Z.ltb_ge in Hv.
Qed.

(** A new predicate is asked like the registered ones. *)
Lemma apply_registered (ps : gmap string (Predicate K V)) id p key v ts :
  ps !! id = None ->
  existsb (fun p => is_applicable p ts && pred_f p key v) (map_to_list (<[id := p]> ps)).*2 =
  (is_applicable p ts && pred_f p key v) || existsb (fun p => is_applicable p ts && pred_f p key v) (map_to_list ps).*2.
Proof.
  intros Hid. apply eq_true_iff_eq. rewrite orb_true_iff, !existsb_exists.
  assert (Hp : forall x, In x (map_to_list (<[id := p]> ps)).*2 <-> x = p \/ In x (map_to_list ps).*2).
  { intros x. rewrite <- !list_elem_of_In. pose proof (map_to_list_insert ps id p Hid) as Hperm.
    apply (fmap_Permutation snd) in Hperm. rewrite Hperm. cbn. rewrite elem_of_cons. done. }
  split.
  - intros (x & [->|Hx]%Hp & Hb); [by left|right; eauto].
  - intros [Hb|(x & Hx & Hb)]; [exists p|exists x]; (split; [apply Hp; auto|done]).
Qed.

(** A predicate takes effect at once: after [invalidate_entries_if] at time [t]
    no lookup returns a value last written by then that the predicate accepts, and
    the lookups of keys whose value it rejects are unchanged. *)
Theorem predicate_hides n m sys uuid f t i :
  reached n m sys -> n <= MAX_WRITES -> event_ok sys (EInvalidateIf uuid f t) -> invalidator (inner (base sys)) = Some i ->
  exists sys' o, exec cfg sys (EInvalidateIf uuid f t) = Ok (sys', o) /\
    forall key v ts now, m !! key = Some (v, ts) ->
      (ts <= t -> f key v = true -> scanning_get cfg (inner (base sys')) key now = Ok None) /\
      (f key v = false -> scanning_get cfg (inner (base sys')) key now = scanning_get cfg (inner (base sys)) key now).
Proof.
  intros HR Hn Hid Hi. pose proof (reached_inv _ _ _ HR Hn) as S. destruct (si_cache S) as (_ & P & Q & B & I).
  cbn [exec event_ok] in *. destruct (Hid i Hi) as (j & Hj & Hfree). unfold invalidate_entries_if. rewrite Hi.
  destruct (register_finds uuid i f t MAX_RETRY 0 j ltac:(lia) Hfree) as (i' & id & E).
  assert (E' : register_predicate uuid i f t = Ok (i', id)) by exact E. rewrite E'. cbn [mbind res_bind].
  eexists _, None. split; [reflexivity|]. cbn [base inner with_inner]. intros key v ts now Hm.
  unfold register_predicate in E'. pose proof (register_loop_outcome uuid i f t MAX_RETRY 0) as Ho. rewrite E' in Ho.
  destruct Ho as (_ & _ & _ & Hnone & _ & Hpreds & Hflag).
  assert (Hh : forall ve x, cache (inner (base sys)) !! key = Some ve -> infos (mem (inner (base sys))) !! info ve = Some x ->
    value ve = v /\ is_hidden cfg (with_invalidator (inner (base sys)) (Some i')) key ve x now =
    is_hidden cfg (inner (base sys)) key ve x now || ((ts <=? t) && f key v)).
  { intros ve x Hc Hx. destruct (si_spec S _ _ Hc) as (y & Hy & Hmy & _). assert (y = x) as -> by congruence.
    assert (Ev : Some (v, ts) = Some (value ve, ei_last_modified x)) by (rewrite <- Hmy, <- Hm; done). injection Ev as -> ->. split; [done|]. unfold is_hidden. cbn [get_valid_after valid_after with_invalidator].
    rewrite <- !orb_assoc. do 3 f_equal. unfold is_invalidated_entry. cbn [invalidator with_invalidator]. rewrite Hi, Hflag.
    unfold last_modified. rewrite (instant_ok_some _ (iw_modified _ (i_wf I _ _ Hx))).
    unfold do_apply_predicates, pred_values. rewrite Hpreds, apply_registered by done. unfold is_applicable at 1. cbn [registered_at pred_f].
    rewrite orb_comm. destruct (inv_is_empty i) eqn:He; [|done].
    rewrite (proj1 (i_pred I i Hi) He). done. }
  unfold scanning_get. cbn [cache mem with_invalidator].
  destruct (cache (inner (base sys)) !! key) as [ve|] eqn:Hc; [|done].
  destruct (i_cache I _ _ Hc) as (_ & x & Hx & _). rewrite (get_info_ok _ _ _ Hx). cbn [mbind res_bind].
  destruct (Hh ve x eq_refl Hx) as [_ ->]. split.
  - intros Hle ->. rewrite (proj2 (Z.leb_le ts t) Hle). by rewrite orb_true_r.
  - intros ->. by rewrite andb_false_r, orb_false_r.
Qed.

(** ** The counters and the logs *)

(** The entries admitted to the cache's queues. *)
Definition admitted_entries (s : Inner K V) : gmap eid (EntryInfo K) := filter (fun p => is_admitted p.2 = true) (infos (mem s)).

Lemma admitted_size s P Q B O ec : inv cfg s P Q B O ec -> ec = Z.of_nat (size (admitted_entries s)).
Proof.
  intros I. pose proof (i_deqs I) as D. rewrite (i_count I). f_equal.
  assert (Hlen : length (queue (mem s) P) = length P).
  { unfold queue. assert (Hall : forall p, p ∈ P -> exists e, entry_at (kheap (mem s)) p = Some e).
    { intros p Hp. apply entry_at_is_some. by eapply dseg_lookup; [apply (repr_seg _ _ _ (di_prob _ _ _ _ D))|]. }
    clear -Hall. induction P as [|p P IH]; [done|]. cbn. destruct (Hall p (list_elem_of_here _ _)) as [e ->]. cbn.
    f_equal. apply IH. intros q Hq. apply Hall. by right. }
  rewrite <- Hlen, <- (size_dom (admitted_entries s)), <- (size_list_to_set (C := gset eid) (queue (mem s) P)).
  - f_equal. apply set_eq. intros e. rewrite elem_of_list_to_set, (ao_in_queue _ _ _ _ e D), elem_of_dom. unfold admitted_entries.
    split.
    + intros Ha. assert (Hd : is_Some (dnodes (mem s) !! e)).
      { destruct Ha as [x Hx]. unfold ao_of in Hx. by destruct (dnodes (mem s) !! e). }
      apply (i_nodes I) in Hd as [x Hx]. exists x. apply map_lookup_filter_Some. split; [done|]. by apply (i_admitted I e x Hx).
    + intros [x [Hx Ha]%map_lookup_filter_Some]. by apply (i_admitted I e x Hx).
  - apply queue_nodup; [by eapply inv_inj_ao|apply D].
Qed.

(** C4. The bookkeeping is exact in every reachable state: [entry_count] is the
    number of entries admitted to the queues, and the logs never outgrow the
    channels they are sent through; the weighted size is not negative and, like
    the entry count, is bounded by what was written.  For every [sketch_safe]
    configuration. *)
Theorem counters_exact n m sys :
  reached n m sys -> n <= MAX_WRITES ->
  let s := inner (base sys) in
  entry_count s = Z.of_nat (size (admitted_entries s)) /\ entry_count s <= n /\ 0 <= weighted_size s <= n * U32_MAX /\
  Z.of_nat (length (read_op_ch s)) <= channel_capacity cfg READ_LOG_CH_SIZE /\
  Z.of_nat (length (write_op_ch s)) <= channel_capacity cfg WRITE_LOG_CH_SIZE.
Proof.
  intros HR Hn. destruct (reached_inv _ _ _ HR Hn) as [(Hws & P & Q & B & I) _ Hf [Hb1 Hb2] Hr Hw _]. cbn [ec_weighted_size new_counters] in Hws.
  cbv zeta. split; [by eapply admitted_size|].
  destruct (log_bounds _ _ Hf) as [L1 L2]. destruct (log_bounds _ _ (i_writes I)) as [L3 L4].
  unfold entry_bound, weight_bound in *. repeat split; (done || lia).
Qed.

(** A writer does not wait for ever: recording a write in a reachable state
    returns with the write in the log as soon as one of its attempts finds the
    maintenance lock free, whatever the earlier attempts met. *)
Theorem write_recorded n m sys op now envs :
  reached n m sys -> n <= MAX_WRITES -> max_capacity cfg <> Some 0 -> Forall env_ok envs ->
  Exists (fun env => hk_locked env = false) envs ->
  exists b' log, schedule_write_op cfg (base sys) op now envs = Ok b' /\ write_op_ch (inner b') = log ++ [op].
Proof.
  intros HR Hn Hcap Hok Hfree. pose proof (flight_ready cfg _ _ _ (reached_inv _ _ _ HR Hn) Hn) as Hb. clear HR.
  revert Hb. generalize (base sys) as b. induction Hok as [|env envs He Hok IH]; intros b Hb; [by apply Exists_nil in Hfree|].
  cbn [schedule_write_op].
  destruct (apply_writes_if_needed_ok cfg Hsafe b now env Hb He) as (b' & -> & Hb' & _ & Hlow). cbn [mbind res_bind].
  destruct (Z.ltb_spec (Z.of_nat (length (write_op_ch (inner b')))) (channel_capacity cfg WRITE_LOG_CH_SIZE)) as [|Hfull].
  - eexists _, _. split; [reflexivity|done].
  - apply IH; [|done]. apply Exists_cons in Hfree as [Hf|Hf]; [|done]. specialize (Hlow Hf Hcap).
    unfold channel_capacity, is_map_disabled in Hfull. rewrite bool_decide_eq_false_2 in Hfull by done.
    change WRITE_LOG_CH_SIZE with (WRITE_LOG_FLUSH_POINT * 1 + (WRITE_LOG_CH_SIZE - WRITE_LOG_FLUSH_POINT)) in Hfull.
    assert (0 <= WRITE_LOG_CH_SIZE - WRITE_LOG_FLUSH_POINT) by (by vm_compute). lia.
Qed.

(** The three lookups of the source agree in every reachable state and never
    fault: [contains_key], the iterator's [scanning_get] and the search of [get]
    give the same answer. *)
Theorem lookups_agree n m sys key now :
  reached n m sys -> n <= MAX_WRITES ->
  exists o, find_valid cfg (inner (base sys)) key None now = Ok o /\
    scanning_get cfg (inner (base sys)) key now = Ok (option_map value o) /\
    contains_key_with_hash cfg (inner (base sys)) key now = Ok (bool_decide (is_Some o)).
Proof.
  intros HR Hn. destruct (reached_inv _ _ _ HR Hn) as [(_ & P & Q & B & I) _ _ _ _ _ _].
  unfold find_valid, scanning_get, contains_key_with_hash. destruct (cache (inner (base sys)) !! key) as [ve|] eqn:Hc; [|by exists None].
  destruct (i_cache I _ _ Hc) as (_ & x & Hx & _). rewrite (get_info_ok _ _ _ Hx). cbn [mbind res_bind].
  destruct (is_hidden cfg (inner (base sys)) key ve x now); [by exists None|by exists (Some ve)].
Qed.

(** Maintenance is invisible to lookups except for the entries it drops: in a
    cache without predicates, what a lookup returns after a run it also returned
    before. *)
Theorem maintenance_transparent n m sys env :
  reached n m sys -> n <= MAX_WRITES -> env_ok env -> invalidator (inner (base sys)) = None ->
  exists sys' o, exec cfg sys (ERun env) = Ok (sys', o) /\
    forall key now, cache (inner (base sys')) !! key = None \/
      scanning_get cfg (inner (base sys')) key now = scanning_get cfg (inner (base sys)) key now.
Proof.
  intros HR Hn He Hi. pose proof (reached_inv _ _ _ HR Hn) as S.
  destruct (run_maintained cfg Hsafe n m sys env S Hn He) as (b' & E & _ & M). eexists _, _. split; [exact E|]. cbn.
  intros key now. destruct (cache (inner b') !! key) as [ve|] eqn:Hc; [right|by left].
  pose proof (lookup_weaken _ _ _ _ Hc (ma_cache _ _ _ M)) as Hc0.
  apply get_same; [apply S|congruence|apply M| |].
  - rewrite Hi. destruct (invalidator (inner b')) eqn:Hi'; [|done].
    destruct (proj1 (ma_enabled _ _ _ M)); [by rewrite Hi'; eexists|congruence].
  - intros ve' x _ Hx. apply (ma_view _ _ _ M _ _ Hx).
Qed.

(** C12. Admission under TinyLFU: in a reachable state of a [sketch_safe]
    configuration a candidate is weighed against the victims at the front of the LRU
    queue and admitted exactly when they are together at least as heavy as it and
    together less often used, by the sketch's estimates; otherwise it is rejected.
    The victims are determined by the queue ([chosen]): its first entries that have no
    pending write, are not retired and are in the table, as long as they are too light
    and not used more often than the candidate, up to six entries in a row that are
    not such. *)
Theorem admission_fair n m sys candidate :
  reached n m sys -> n <= MAX_WRITES ->
  0 <= sf_policy_weight candidate <= U32_MAX -> 0 <= sf_freq candidate <= 15 ->
  let s := inner (base sys) in
  exists s' r keys, admit_candidate s candidate = Ok (s', r) /\ cache s' = cache s /\
    chosen s candidate (lru_order s) keys /\
    (forall keys', chosen s candidate (lru_order s) keys' -> keys' = keys) /\
    r = if bool_decide (sf_policy_weight candidate <= total_weight s keys /\ total_freq s keys < sf_freq candidate)
        then AdmitCandidate keys else RejectCandidate.
Proof.
  intros HR Hn Hw Hf. destruct (reached_inv _ _ _ HR Hn) as [(_ & P & Q & B & I) _ _ _ _ _ _]. cbv zeta.
  destruct (admit_candidate_spec cfg _ P Q B _ candidate I (conj Hw Hf)) as (s' & keys & P' & E & _ & [Hc _] & _ & Hch).
  rewrite (lru_order_queue cfg _ _ _ _ _ _ I). eexists s', _, keys. split; [exact E|]. split; [done|]. split; [done|].
  split; [intros keys' Hch'; by eapply chosen_unique|].
  case_bool_decide as Hb; destruct (Z.leb_spec (sf_policy_weight candidate) (total_weight (inner (base sys)) keys));
    destruct (Z.ltb_spec (total_freq (inner (base sys)) keys) (sf_freq candidate)); cbn [andb]; (done || lia).
Qed.

(** C24. Size eviction follows the LRU order exactly: in a reachable state (of a
    [sketch_safe] configuration) where every entry of the queue is settled, that is has
    no pending write and is not retired, [evict_lru_entries] removes the longest prefix
    of the access-order queue allowed by its batch size and needed to reach the target
    weight (it stops at the first entry that reaches it), and keeps all other entries,
    in their order. *)
Theorem eviction_in_lru_order n m sys batch w :
  reached n m sys -> n <= MAX_WRITES -> Forall (settled (inner (base sys))) (lru_order (inner (base sys))) ->
  let s := inner (base sys) in
  exists s' es', evict_lru_entries s batch w (new_eviction_state (entry_count s) (weighted_size s)) = Ok (s', es') /\
    let k := lru_prefix batch w 0 (info_weight s <$> lru_order s) in
    lru_order s' = drop k (lru_order s) /\ cache s' = drop_keys (omap (info_key s) (take k (lru_order s))) (cache s) /\
    ec_entry_count (counters es') = entry_count s - Z.of_nat k.
Proof.
  intros HR Hn Hset. destruct (reached_inv _ _ _ HR Hn) as [(_ & P & Q & B & I) _ _ _ _ _ _]. cbv zeta.
  pose proof (lru_order_queue cfg _ _ _ _ _ _ I) as Hq.
  destruct (lru_loop cfg w batch _ (new_eviction_state (entry_count (inner (base sys))) (weighted_size (inner (base sys))))
    P Q B true 0 _ I (eq_sym Hq) Hset) as (s' & es' & more & ev & P' & Q' & B' & E & I' & Hq' & Hc & Hec).
  unfold evict_lru_entries. rewrite E. cbn [mbind res_bind fst finish_more].
  eexists _, _. split; [reflexivity|]. rewrite (lru_order_queue cfg _ _ _ _ _ _ I'). split; [done|]. split; [done|].
  by destruct more.
Qed.
End guarantees.

(** ** The statements at the sample *)
Module Witnesses.
Import Sample.
Definition hk_config : HousekeeperConfig := mkHousekeeperConfig (from_millis 100) 4 1.
Lemma t0_ok : instant_ok 0.
Proof. by apply ok_at. Qed.
Lemma rep_ok : 0 <= cfg_max_log_sync_repeats hk_config.
Proof. done. Qed.
Lemma few : 3 <= MAX_WRITES.
Proof. done. Qed.
Lemma few_more e : 3 + writes_of (K := Z) (V := Z) e <= MAX_WRITES.
Proof. by destruct e; vm_compute. Qed.


Lemma lookup_never_stale_witness : exists sys' o, exec config filled (look 3 9) = Ok (sys', o) /\
  option_map en_value o = Some 30 /\ answer_ok config held (inner (base filled)) 3 9 o.
Proof.
  destruct (lookup_never_stale config user safe quiet_listener hk_config true 0 start t0_ok rep_ok start_ok 3 held filled 3 None true 9 (Some (env 9))
    filled_reached few) as (sys' & o & E & A); [by apply ok_at|intros e; by apply env_at|]. exists sys', o. split; [exact E|]. split; [|exact A].
  transitivity (match exec config filled (look 3 9) with Ok (_, o) => option_map en_value o | Fail _ => None end); [unfold look; by rewrite E|vm_compute; reflexivity].
Defined.


Definition quiet_notifier : RemovalNotifier Z Z := mkNotifier (fun _ _ _ => false) true [].
(** A run after the time to live: all three entries go, and the listener is told. *)
Lemma maintenance_notifies_witness : exists sys' o nt' l, exec config quiesced (ERun (env 2000)) = Ok (sys', o) /\
  removal_notifier (inner (base sys')) = Some nt' /\ nt_calls nt' = [] ++ l /\ length l = 3%nat /\
  forall k v, (exists cause, (k, v, cause) ∈ l) <->
    exists ve, cache (inner (base quiesced)) !! k = Some ve /\ value ve = v /\ cache (inner (base sys')) !! k = None.
Proof.
  destruct (maintenance_notifies config user safe quiet_listener hk_config true 0 start t0_ok rep_ok start_ok 3 held quiesced (env 2000) quiet_notifier
    quiesced_reached few) as (sys' & o & nt' & l & E & Hnt & Hl & Hlen & Hcalls); [by apply ok_at|vm_compute; reflexivity|done|].
  exists sys', o, nt', l. split; [exact E|]. split; [exact Hnt|]. split; [exact Hl|]. split; [|exact Hcalls].
  assert (E3 : size (cache (inner (base quiesced))) = 3%nat) by (vm_compute; reflexivity).
  assert (E0 : match exec config quiesced (ERun (env 2000)) with Ok (sys', _) => size (cache (inner (base sys'))) | Fail _ => 7%nat end = 0%nat)
    by (vm_compute; reflexivity).
  rewrite E in E0. rewrite E0, E3 in Hlen. clear -Hlen. lia.
Defined.

Lemma insert_visible_witness : exists sys' o, exec config filled (EInsert 7 70 9 9) = Ok (sys', o) /\
  scanning_get config (inner (base sys')) 7 50 = Ok (Some 70).
Proof.
  destruct (insert_visible config user safe quiet_listener hk_config true 0 start t0_ok rep_ok start_ok 3 held filled 7 70 9 9 50
    filled_reached) as (sys' & o & E & Hg & _); [done|by apply ok_at|done|done| |exists sys', o; exact (conj E Hg)].
  split; [done|done|vm_compute; reflexivity|]. intros i Hi. vm_compute in Hi. injection Hi as <-. vm_compute. reflexivity.
Defined.

Lemma invalidate_hides_witness : exists sys' o, exec config filled (EInvalidate 1 9) = Ok (sys', o) /\
  scanning_get config (inner (base sys')) 1 9 = Ok None.
Proof.
  destruct (invalidate_hides config user safe quiet_listener hk_config true 0 start t0_ok rep_ok start_ok 3 held filled 1 9 filled_reached few)
    as (sys' & o & E & Hg & _). exists sys', o. exact (conj E (Hg 9)).
Defined.

Lemma invalidate_all_hides_witness : exists sys' o, exec config filled (EInvalidateAll 8) = Ok (sys', o) /\
  forall key now v, scanning_get config (inner (base sys')) key now = Ok (Some v) -> exists ts, held !! key = Some (v, ts) /\ 8 <= ts.
Proof.
  apply (invalidate_all_hides config user safe quiet_listener hk_config true 0 start t0_ok rep_ok start_ok 3 held filled 8 filled_reached few).
  by apply ok_at.
Defined.

Lemma counters_exact_witness : entry_count (inner (base filled)) <= 3.
Proof.
  destruct (counters_exact config user safe quiet_listener hk_config true 0 start t0_ok rep_ok start_ok 3 held filled filled_reached few) as (_ & Hn & _).
  exact Hn.
Defined.

Definition op : WriteOp Z Z := Upsert (mkKeyHash 3 3) (mkValueEntry 30 3%positive 3%positive) 1 0 1.
Lemma write_recorded_witness :
  exists b' log, schedule_write_op config (base filled) op 9 [mkHkEnv true 9 (fun _ => mkReadings 9 9 9 9) 9; env 9] = Ok b' /\
    write_op_ch (inner b') = log ++ [op].
Proof.
  apply (write_recorded config user safe quiet_listener hk_config true 0 start t0_ok rep_ok start_ok 3 held filled op 9 _ filled_reached few).
  - done.
  - repeat (apply Forall_cons; split); [by apply ok_at|by apply ok_at|by apply Forall_nil].
  - apply Exists_cons. right. apply Exists_cons. by left.
Defined.

Lemma lookups_agree_witness : exists o, find_valid config (inner (base filled)) 2 None 9 = Ok o /\
  scanning_get config (inner (base filled)) 2 9 = Ok (option_map value o) /\
  contains_key_with_hash config (inner (base filled)) 2 9 = Ok (bool_decide (is_Some o)).
Proof.
  apply (lookups_agree config user safe quiet_listener hk_config true 0 start t0_ok rep_ok start_ok 3 held filled 2 9 filled_reached few).
Defined.

Lemma maintenance_transparent_witness : exists sys' o, exec config plain_filled (ERun (env 9)) = Ok (sys', o) /\
  forall key now, cache (inner (base sys')) !! key = None \/
    scanning_get config (inner (base sys')) key now = scanning_get config (inner (base plain_filled)) key now.
Proof.
  apply (maintenance_transparent config user safe None hk_config false 0 plain t0_ok rep_ok plain_ok 3 held plain_filled (env 9)
    plain_reached few); [by apply ok_at|vm_compute; reflexivity].
Defined.

(** The sketch is enabled and key 1 was used twice; the queue is 2, 3, 1.  A
    candidate of weight 2 used once is admitted over 2 and 3; one of weight 3 used
    twice is not, over all three. *)
Lemma admission_fair_witness : frequency_sketch_enabled (inner (base used)) = true /\ lru_order (inner (base used)) = [2; 3; 1]%positive /\
  (exists s' victims, admit_candidate (inner (base used)) (mkSizeFreq 2 1) = Ok (s', AdmitCandidate victims) /\
    (fun v => kh_key v.1) <$> victims = [2; 3] /\ chosen (inner (base used)) (mkSizeFreq 2 1) [2; 3; 1]%positive victims) /\
  exists s', admit_candidate (inner (base used)) (mkSizeFreq 3 2) = Ok (s', RejectCandidate).
Proof.
  split; [vm_compute; reflexivity|]. assert (El : lru_order (inner (base used)) = [2; 3; 1]%positive) by (vm_compute; reflexivity).
  split; [exact El|]. split.
  - destruct (admission_fair config user safe quiet_listener hk_config true 0 start t0_ok rep_ok start_ok 3 held used (mkSizeFreq 2 1)
      used_reached few) as (s' & r & keys & E & _ & Hch & _ & Hr); [cbn; unfold U32_MAX; lia|cbn; lia|]. rewrite El in Hch.
    assert (Ev : match admit_candidate (inner (base used)) (mkSizeFreq 2 1) with
      | Ok (_, AdmitCandidate l) => Some ((fun v => kh_key v.1) <$> l) | _ => None end = Some [2; 3]) by (vm_compute; reflexivity).
    rewrite E in Ev. case_bool_decide; subst r; [|discriminate Ev]. exists s', keys. split; [exact E|]. split; [injection Ev as ->; reflexivity|exact Hch].
  - destruct (admission_fair config user safe quiet_listener hk_config true 0 start t0_ok rep_ok start_ok 3 held used (mkSizeFreq 3 2)
      used_reached few) as (s' & r & keys & E & _ & _ & _ & Hr); [cbn; unfold U32_MAX; lia|cbn; lia|].
    assert (Ev : match admit_candidate (inner (base used)) (mkSizeFreq 3 2) with
      | Ok (_, RejectCandidate) => true | _ => false end = true) by (vm_compute; reflexivity).
    rewrite E in Ev. case_bool_decide; subst r; [discriminate Ev|]. exists s'. exact E.
Defined.

Lemma eviction_in_lru_order_witness : exists s' es',
  evict_lru_entries (inner (base quiesced)) 5 2 (new_eviction_state 3 3) = Ok (s', es') /\ lru_order s' = [3%positive].
Proof.
  destruct (eviction_in_lru_order config user safe quiet_listener hk_config true 0 start t0_ok rep_ok start_ok 3 held quiesced 5 2
    quiesced_reached few) as (s' & es' & E & Ho & _).
  - assert (El : lru_order (inner (base quiesced)) = [1; 2; 3]%positive) by (vm_compute; reflexivity). rewrite El.
    repeat (apply Forall_cons; split); [eexists; split; [vm_compute; reflexivity|by split]..|by apply Forall_nil].
  - exists s', es'. split; [exact E|]. rewrite Ho. vm_compute. reflexivity.
Defined.

Lemma predicate_hides_witness : exists sys' o, exec config filled (EInvalidateIf (fun _ => "a"%string) (fun k _ => k =? 1) 9) = Ok (sys', o) /\
  scanning_get config (inner (base sys')) 1 10 = Ok None.
Proof.
  destruct (predicate_hides config user safe quiet_listener hk_config true 0 start t0_ok rep_ok start_ok 3 held filled
    (fun _ => "a"%string) (fun k _ => k =? 1) 9 new_invalidator filled_reached few) as (sys' & o & E & Hh).
  - intros i Hi. exists 0%nat. vm_compute in Hi. injection Hi as <-. split; [unfold MAX_RETRY; lia|reflexivity].
  - vm_compute. reflexivity.
  - exists sys', o. split; [exact E|]. apply (Hh 1 10 5 10); [vm_compute; reflexivity|done|done].
Defined.
End Witnesses.
