(* ===== verification/Findings.v ===== *)
(** Executions in which the cache does not do what its documentation says.  Each
    theorem evaluates the definitions on one short sequence of events; none of
    them needs an event that the side conditions of System rule out. *)
From Stdlib Require Import String.
From S2P Require Import Prelude Common FrequencySketch Deque Time Housekeeper EntryInfo Concurrent Deques.
From S2P Require Import TimerWheel Policy Invalidator Inner BaseCache System Guarantees.
Import Sample.

(** Entries weigh their value. *)
Definition weighing : Config Z Z :=
  mkConfig (Some 100) (Some (fun _ v => v)) Lru default_expiration_policy (fun k => k) 0 true.
Definition unweighed : Config Z Z :=
  mkConfig (Some 100) None Lru default_expiration_policy (fun k => k) 0 true.

(** An entry of weight 5 is admitted, then updated to weight 2 and invalidated
    before the maintenance task has seen the update. *)
Definition update_then_invalidate : list (event (K := Z) (V := Z)) :=
  [put 1 5 5; send 5; ERun (env 6); put 1 2 7; EInvalidate 1 8; send 9; send 9; ERun (env 10)].

(** C34. The weighted size drifts: the pending update of an invalidated entry is
    skipped, so the old weight is never taken off, while the removal subtracts the
    new one.  In this run the cache ends up empty, with an entry count of 0 and
    both logs drained, but with a weighted size of 3, for good. *)
Theorem weighted_size_drifts :
  exists sys os, exec_all weighing (mkSys start []) update_then_invalidate = Ok (sys, os) /\
    let s := inner (base sys) in
    cache s = ∅ /\ write_op_ch s = [] /\ in_flight sys = [] /\ entry_count s = 0 /\ weighted_size s = 3.
Proof. eexists _, _. split; [vm_compute; reflexivity|]. vm_compute. repeat split. Qed.

(** Three entries; a predicate that accepts every entry is registered; lookups and
    runs of the maintenance task follow, with a batch of one candidate each. *)
Definition invalidate_three : list (event (K := Z) (V := Z)) :=
  put_sent 1 10 1 ++ put_sent 2 20 2 ++ put_sent 3 30 3 ++
  [ERun (env 4); EInvalidateIf (fun _ => "id"%string) (fun _ _ => true) 5; look 2 6;
   ERun (env 7); ERun (env 8); ERun (env 9); look 2 10].

(** C35. The predicate scan skips entries: [peek] on the iterator over the
    write-order queue advances the queue's cursor, and the node it read is lost
    between two batches.  In this run the lookup of key 2 finds nothing while the
    predicate is registered, and finds the value again after the scan, which
    removes keys 1 and 3 only, has declared the predicate finished. *)
Theorem predicate_scan_skips :
  exists sys os, exec_all unweighed (mkSys start []) invalidate_three = Ok (sys, os) /\
    os !! 8%nat = Some None /\ option_map (option_map en_value) (os !! 12%nat) = Some (Some 20) /\
    option_map predicates (invalidator (inner (base sys))) = Some ∅ /\ dom (cache (inner (base sys))) = {[2]}.
Proof. eexists _, _. split; [vm_compute; reflexivity|]. vm_compute. repeat split. Qed.

(** [invalidate_all] keeps the values written at the invalidation time itself,
    which its documentation says it discards: inserted and invalidated at time 5,
    the value is still returned at time 6. *)
Theorem invalidate_all_same_instant :
  exists sys os, exec_all unweighed (mkSys start []) [put 1 10 5; EInvalidateAll 5; look 1 6] = Ok (sys, os) /\
    option_map (option_map en_value) (os !! 2%nat) = Some (Some 10).
Proof. eexists _, _. split; [vm_compute; reflexivity|]. vm_compute. reflexivity. Qed.
