(* ===== verification/Probing.v ===== *)
(** Open addressing with linear probing and tombstones, on plain lists of cells:
    the reference that the bucket arrays of src/cht/map/bucket.rs implement.

    A cell is empty, or holds a key with its value, or a key without one (a
    tombstone).  A search for a key walks its probe sequence up to the first cell
    that is empty or holds the key.  A table is well-formed when every key in it is
    found where it stands. *)
From S2P Require Import Prelude.

(** The buckets in the order [Probe] visits them. *)
Definition probe (n : nat) (hash : Z) : list nat :=
  let offset := Z.land hash (Z.of_nat n - 1) in
  (fun i => Z.to_nat (Z.land (Z.of_nat i + offset) (Z.of_nat n - 1))) <$> seq 0 n.

Definition power_of_two (n : nat) : Prop := exists e : nat, n = (2 ^ e)%nat.

Lemma land_power n x : power_of_two n -> Z.land x (Z.of_nat n - 1) = x mod Z.of_nat n.
Proof.
  intros [e ->]. rewrite Nat2Z.inj_pow. change (Z.of_nat 2) with 2.
  replace (2 ^ Z.of_nat e - 1) with (Z.ones (Z.of_nat e)) by (rewrite Z.ones_equiv; lia).
  apply Z.land_ones. lia.
Qed.

Lemma power_pos n : power_of_two n -> (0 < n)%nat.
Proof. intros [e ->]. apply Nat.neq_0_lt_0, Nat.pow_nonzero. lia. Qed.

Lemma probe_range n hash i : power_of_two n -> i ∈ probe n hash -> (i < n)%nat.
Proof.
  intros Hn (j & -> & _)%list_elem_of_fmap. rewrite !land_power by done. pose proof (power_pos n Hn).
  pose proof (Z.mod_pos_bound (Z.of_nat j + hash mod Z.of_nat n) (Z.of_nat n)). lia.
Qed.

(** Every bucket is visited. *)
Lemma probe_all n hash j : power_of_two n -> (j < n)%nat -> j ∈ probe n hash.
Proof.
  intros Hn Hj. set (o := hash mod Z.of_nat n). apply list_elem_of_fmap.
  exists (Z.to_nat ((Z.of_nat j - o) mod Z.of_nat n)).
  pose proof (Z.mod_pos_bound (Z.of_nat j - o) (Z.of_nat n) ltac:(lia)). split; [|apply elem_of_seq; lia].
  rewrite !land_power, Z2Nat.id by (done || lia). fold o.
  rewrite Zplus_mod_idemp_l. replace (Z.of_nat j - o + o) with (Z.of_nat j) by lia. rewrite Z.mod_small by lia. lia.
Qed.

Section table.
Context {K V : Type} `{EqDecision K}.
Variable hash_of : K -> Z.

#[local] Notation cell := (option (K * option V)).
Implicit Types (cs : list cell) (c : cell) (k : K) (w : option V).

Definition stops k c : bool := match c with None => true | Some (k', _) => bool_decide (k' = k) end.

Fixpoint slot cs (idxs : list nat) k : option nat :=
  match idxs with
  | [] => None
  | i :: idxs' =>
      match cs !! i with
      | Some c => if stops k c then Some i else slot cs idxs' k
      | None => None
      end
  end.

Definition slot_of cs k : option nat := slot cs (probe (length cs) (hash_of k)) k.
Definition lookup_cell cs k : option V :=
  i ← slot_of cs k; c ← cs !! i; kw ← c; snd kw.
Definition table_ok cs : Prop := forall i k w, cs !! i = Some (Some (k, w)) -> slot_of cs k = Some i.

Lemma slot_some cs idxs k i : slot cs idxs k = Some i -> i ∈ idxs /\ exists c, cs !! i = Some c /\ stops k c = true.
Proof.
  induction idxs as [|j idxs IH]; [done|]. cbn. destruct (cs !! j) as [c|] eqn:Hc; [|done]. destruct (stops k c) eqn:Hs.
  - intros [= <-]. split; [left|eauto].
  - intros Hi. destruct (IH Hi) as [Hin Hex]. split; [by right|done].
Qed.

Lemma slot_exists cs idxs k j :
  (forall i, i ∈ idxs -> (i < length cs)%nat) -> j ∈ idxs -> cs !! j = Some None -> is_Some (slot cs idxs k).
Proof.
  intros Hr Hj Hc. induction idxs as [|i idxs IH]; [by apply elem_of_nil in Hj|]. cbn.
  destruct (cs !! i) as [c|] eqn:Hi; [|apply lookup_ge_None in Hi; specialize (Hr i (list_elem_of_here _ _)); lia].
  destruct (stops k c) eqn:Hs; [eauto|]. apply elem_of_cons in Hj as [->|Hj].
  - rewrite Hc in Hi. injection Hi as <-. done.
  - apply IH; [|done]. intros i' Hi'. apply Hr. by right.
Qed.

Lemma slot_insert_same cs idxs k i c :
  slot cs idxs k = Some i -> stops k c = true -> slot (<[i := c]> cs) idxs k = Some i.
Proof.
  intros Hs Hc. induction idxs as [|j idxs IH]; [done|]. cbn in *. destruct (cs !! j) as [cj|] eqn:Hj; [|done].
  destruct (decide (i = j)) as [->|Hne].
  - rewrite list_lookup_insert_eq by (by eapply lookup_lt_Some). by rewrite Hc.
  - rewrite list_lookup_insert_ne, Hj by done. destruct (stops k cj); [congruence|auto].
Qed.

(** Writing a cell of another key hides nothing and stops no search. *)
Lemma slot_insert_other cs idxs k k' w i j :
  k' <> k -> slot cs idxs k' = Some j -> j <> i -> slot (<[i := Some (k, w)]> cs) idxs k' = Some j.
Proof.
  intros Hk Hs Hj. induction idxs as [|x idxs IH]; [done|]. cbn in *. destruct (cs !! x) as [cx|] eqn:Hx; [|done].
  destruct (decide (i = x)) as [->|Hne].
  - rewrite list_lookup_insert_eq by (by eapply lookup_lt_Some). cbn. rewrite bool_decide_eq_false_2 by congruence.
    destruct (stops k' cx); [congruence|auto].
  - rewrite list_lookup_insert_ne, Hx by done. destruct (stops k' cx); [done|auto].
Qed.

Lemma slot_insert_none cs idxs k k' w i :
  k' <> k -> slot cs idxs k' = None -> slot (<[i := Some (k, w)]> cs) idxs k' = None.
Proof.
  intros Hk Hs. induction idxs as [|x idxs IH]; [done|]. cbn in *. destruct (decide (i = x)) as [->|Hne].
  - destruct (cs !! x) as [cx|] eqn:Hx.
    + rewrite list_lookup_insert_eq by (by eapply lookup_lt_Some). cbn. rewrite bool_decide_eq_false_2 by congruence.
      destruct (stops k' cx); [done|auto].
    + assert (Hge : <[x := Some (k, w)]> cs !! x = None); [|by rewrite Hge].
      rewrite list_insert_ge by (by apply lookup_ge_None). done.
  - rewrite list_lookup_insert_ne by done. destruct (cs !! x) as [cx|]; [|done]. destruct (stops k' cx); [done|auto].
Qed.

(** ** Writing the cell a search ends at *)
Lemma table_write cs k i w :
  table_ok cs -> slot_of cs k = Some i ->
  table_ok (<[i := Some (k, w)]> cs) /\
  forall k', lookup_cell (<[i := Some (k, w)]> cs) k' = if decide (k' = k) then w else lookup_cell cs k'.
Proof.
  intros Hok Hs. destruct (slot_some _ _ _ _ Hs) as (Hin & c & Hc & Hst).
  assert (Hi : <[i := Some (k, w)]> cs !! i = Some (Some (k, w))) by (apply list_lookup_insert_eq; by eapply lookup_lt_Some).
  assert (Hk : slot_of (<[i := Some (k, w)]> cs) k = Some i).
  { unfold slot_of. rewrite length_insert. apply slot_insert_same; [done|]. cbn. by apply bool_decide_eq_true. }
  assert (Hother : forall k' j w', k' <> k -> cs !! j = Some (Some (k', w')) -> j <> i).
  { intros k' j w' Hne Hj ->. rewrite Hc in Hj. injection Hj as ->. cbn in Hst. apply bool_decide_eq_true in Hst. congruence. }
  assert (Hok' : table_ok (<[i := Some (k, w)]> cs)).
  { intros j k' w' Hj. destruct (decide (k' = k)) as [->|Hne].
    - destruct (decide (i = j)) as [<-|Hij]; [done|]. rewrite list_lookup_insert_ne in Hj by done.
      specialize (Hok _ _ _ Hj). congruence.
    - assert (Hij : i <> j) by (intros <-; congruence). rewrite list_lookup_insert_ne in Hj by done.
      unfold slot_of. rewrite length_insert. apply slot_insert_other; [done|by eapply Hok|by eapply Hother]. }
  split; [done|]. intros k'. unfold lookup_cell. case_decide as Hd.
  { subst k'. rewrite Hk. cbn. by rewrite Hi. }
  destruct (slot_of cs k') as [j|] eqn:Hj; cbn.
  - destruct (decide (j = i)) as [->|Hne].
    + rewrite Hc. cbn. destruct (slot_some _ _ _ _ Hj) as (_ & c' & Hc' & Hst'). rewrite Hc in Hc'. injection Hc' as <-.
      destruct c as [[k0 w0]|]; [cbn in *; apply bool_decide_eq_true in Hst, Hst'; congruence|]. cbn.
      destruct (slot_of (<[i := Some (k, w)]> cs) k') as [j'|] eqn:Hj'; [|done]. cbn.
      destruct (slot_some _ _ _ _ Hj') as (_ & c' & Hc' & Hst'2). rewrite Hc'. cbn. destruct c' as [[k2 w2]|]; [|done].
      cbn in Hst'2. apply bool_decide_eq_true in Hst'2 as ->. assert (j' <> i) by (intros ->; congruence).
      rewrite list_lookup_insert_ne in Hc' by done. specialize (Hok _ _ _ Hc'). congruence.
    + unfold slot_of. rewrite length_insert, (slot_insert_other _ _ k k' w i j) by done. cbn. by rewrite list_lookup_insert_ne.
  - unfold slot_of. by rewrite length_insert, slot_insert_none.
Qed.

(** ** The keys of a table *)

Definition live_of (c : cell) : option (K * V) := kw ← c; v ← snd kw; Some (fst kw, v).
Definition live cs : list (K * V) := omap live_of cs.
Definition occupied cs : nat := length (omap (M := list) id cs).

Lemma live_elem cs k v : (k, v) ∈ live cs <-> exists i, cs !! i = Some (Some (k, Some v)).
Proof.
  unfold live. rewrite list_elem_of_omap. split.
  - intros (c & [i Hi]%list_elem_of_lookup & Hc). exists i. rewrite Hi. destruct c as [[k' [v'|]]|]; cbn in Hc; [|done..].
    by injection Hc as -> ->.
  - intros (i & Hi%list_elem_of_lookup_2). by exists (Some (k, Some v)).
Qed.

Lemma lookup_live cs k v : table_ok cs -> lookup_cell cs k = Some v <-> (k, v) ∈ live cs.
Proof.
  intros Hok. rewrite live_elem. unfold lookup_cell. split.
  - destruct (slot_of cs k) as [i|] eqn:Hs; [|done]. cbn. destruct (slot_some _ _ _ _ Hs) as (_ & c & Hc & Hst). rewrite Hc. cbn.
    destruct c as [[k' w]|]; [|done]. cbn in *. apply bool_decide_eq_true in Hst as ->. intros ->. eauto.
  - intros [i Hi]. rewrite (Hok _ _ _ Hi). cbn. by rewrite Hi.
Qed.

Lemma live_nodup cs : table_ok cs -> NoDup (live cs).*1.
Proof.
  intros Hok. assert (E : (live cs).*1 = omap (fun c => fst <$> live_of c) cs).
  { unfold live. clear Hok. induction cs as [|c cs IH]; [done|]. cbn. destruct (live_of c); cbn; by rewrite IH. }
  rewrite E. apply omap_nodup. intros i j x y k Hi Hj Hx Hy.
  destruct x as [[kx [vx|]]|], y as [[ky [vy|]]|]; cbn in *; simplify_eq. apply Hok in Hi, Hj. congruence.
Qed.

Lemma free_cell cs : (occupied cs < length cs)%nat -> exists j, cs !! j = Some None.
Proof.
  unfold occupied. induction cs as [|c cs IH]; cbn; [lia|]. destruct c as [kw|]; cbn; [|by exists O].
  intros Hlt. destruct IH as [j Hj]; [lia|]. by exists (S j).
Qed.

Lemma occupied_write cs i c kw : cs !! i = Some c ->
  occupied (<[i := Some kw]> cs) = match c with None => S (occupied cs) | Some _ => occupied cs end.
Proof.
  intros Hi. unfold occupied. rewrite insert_take_drop by (by eapply lookup_lt_Some). 
  assert (E : length (omap (M := list) id cs) = length (omap (M := list) id (take i cs ++ c :: drop (S i) cs))) by (by rewrite take_drop_middle).
  rewrite E, !omap_app, !length_app. cbn. destruct c; cbn; lia.
Qed.

(** A search in a table with an empty cell ends. *)
Lemma slot_ends cs k : power_of_two (length cs) -> (occupied cs < length cs)%nat -> is_Some (slot_of cs k).
Proof.
  intros Hn Hocc. destruct (free_cell cs Hocc) as [j Hj]. apply (slot_exists _ _ _ j); [|apply probe_all|]; try done.
  - intros i Hi. by eapply probe_range.
  - by eapply lookup_lt_Some.
Qed.

(** ** Rehashing *)

Definition put_cell cs (kv : K * V) : list cell :=
  match slot_of cs (fst kv) with Some i => <[i := Some (fst kv, Some (snd kv))]> cs | None => cs end.
Definition absent cs k : Prop := forall i w, cs !! i <> Some (Some (k, w)).

Lemma put_one cs k v :
  table_ok cs -> power_of_two (length cs) -> absent cs k -> (occupied cs < length cs)%nat ->
  table_ok (put_cell cs (k, v)) /\ length (put_cell cs (k, v)) = length cs /\
  occupied (put_cell cs (k, v)) = S (occupied cs) /\
  (forall k', k' <> k -> absent cs k' -> absent (put_cell cs (k, v)) k') /\
  forall k', lookup_cell (put_cell cs (k, v)) k' = if decide (k' = k) then Some v else lookup_cell cs k'.
Proof.
  intros Hok Hn Hab Hocc. destruct (slot_ends cs k Hn Hocc) as [i Hi]. unfold put_cell. cbn. rewrite Hi.
  destruct (table_write cs k i (Some v) Hok Hi) as [Hok' Hl']. split; [done|]. split; [apply length_insert|].
  destruct (slot_some _ _ _ _ Hi) as (_ & c & Hc & Hst). split.
  { rewrite (occupied_write _ _ _ _ Hc). destruct c as [[k' w]|]; [|done]. cbn in Hst. apply bool_decide_eq_true in Hst as ->.
    by destruct (Hab i w). }
  split; [|done]. intros k' Hne Hab' j w Hj. destruct (decide (i = j)) as [<-|Hij].
  - rewrite list_lookup_insert_eq in Hj by (by eapply lookup_lt_Some). congruence.
  - rewrite list_lookup_insert_ne in Hj by done. by apply (Hab' j w).
Qed.

Lemma put_all : forall l cs,
  table_ok cs -> power_of_two (length cs) -> NoDup l.*1 -> (forall k, k ∈ l.*1 -> absent cs k) ->
  (occupied cs + length l <= length cs)%nat ->
  let cs' := foldl put_cell cs l in
  table_ok cs' /\ length cs' = length cs /\ occupied cs' = (occupied cs + length l)%nat /\
  forall k v, lookup_cell cs' k = Some v <-> (k, v) ∈ l \/ (k ∉ l.*1 /\ lookup_cell cs k = Some v).
Proof.
  induction l as [|[k v] l IH]; cbn [foldl fmap list_fmap fst]; intros cs Hok Hn Hnd Hab Hocc.
  { split; [done|]. split; [done|]. split; [cbn; lia|]. intros k v. split; [intros H; right; split; [by apply not_elem_of_nil|done]|].
    intros [H|[_ H]]; [by apply elem_of_nil in H|done]. }
  apply NoDup_cons in Hnd as [Hni Hnd]. cbn in Hocc.
  destruct (put_one cs k v Hok Hn (Hab k (list_elem_of_here _ _)) ltac:(lia)) as (Hok1 & Hlen1 & Hocc1 & Hab1 & Hl1).
  destruct (IH (put_cell cs (k, v)) Hok1) as (Hok2 & Hlen2 & Hocc2 & Hl2); [by rewrite Hlen1|done| |lia|].
  { intros k' Hk'. apply Hab1; [by intros ->|]. apply Hab. by right. }
  split; [done|]. split; [congruence|]. split; [cbn; lia|]. intros k' v'. rewrite Hl2, Hl1, !elem_of_cons. case_decide as Hd.
  - subst k'. split.
    + intros [Hin|[_ [= ->]]]; [|by left; left]. exfalso. apply Hni, list_elem_of_fmap. by exists (k, v').
    + intros [[[= ->]|Hin]|[Hno _]]; [by right|by left|]. destruct Hno. by left.
  - split.
    + intros [Hin|[Hno Hl]]; [by left; right|]. right. split; [|done]. by intros [?|?].
    + intros [[[= -> ->]|Hin]|[Hno Hl]]; [done|by left|]. right. split; [|done]. intros ?. apply Hno. by right.
Qed.

Lemma empty_table n : table_ok (replicate n None) /\ occupied (replicate n None) = O /\
  (forall k, absent (replicate n None) k) /\ forall k, lookup_cell (replicate n None) k = None.
Proof.
  assert (Hnone : forall i c, replicate n (None : cell) !! i = Some c -> c = None) by (intros i c [-> _]%lookup_replicate; done).
  split; [intros i k w Hi; by apply Hnone in Hi|]. split.
  { unfold occupied. induction n as [|n IH]; [done|]. cbn. apply IH. intros i c Hi. by apply (Hnone (S i) c). }
  split; [intros k i w Hi; by apply Hnone in Hi|]. intros k. unfold lookup_cell. destruct (slot_of _ k) as [i|]; [|done]. cbn.
  destruct (replicate n None !! i) as [c|] eqn:Hi; [|done]. by rewrite (Hnone i c Hi).
Qed.

Definition rehashed cs (n : nat) : list cell := foldl put_cell (replicate n None) (live cs).

(** A table with room for its live keys keeps them, and only them. *)
Lemma rehashed_ok cs n : table_ok cs -> power_of_two n -> (length (live cs) <= n)%nat ->
  table_ok (rehashed cs n) /\ length (rehashed cs n) = n /\ occupied (rehashed cs n) = length (live cs) /\
  forall k, lookup_cell (rehashed cs n) k = lookup_cell cs k.
Proof.
  intros Hok Hn Hle. destruct (empty_table n) as (E1 & E2 & E3 & E4).
  destruct (put_all (live cs) (replicate n None) E1) as (H1 & H2 & H3 & H4);
    [by rewrite length_replicate|by apply live_nodup|auto|rewrite length_replicate, E2; lia|].
  unfold rehashed. split; [done|]. split; [by rewrite H2, length_replicate|]. split; [lia|]. intros k.
  apply option_eq. intros v. rewrite H4, E4, (lookup_live cs k v Hok). split; [intros [?|[_ ?]]; done|by left].
Qed.
End table.
