(* ===== verification/Bucket.v ===== *)
(** The bucket arrays of the concurrent hash table (src/cht/map/bucket.rs): open
    addressing over tagged pointers to heap-allocated buckets.

    An operation runs alone, as between two other operations on the table: it
    meets no bucket that changes under it.  A weak compare-and-exchange may still
    fail spuriously; the insertions take the number of such failures as an
    argument, since a failed attempt turns their state into another one, while the
    other loops only read the same bucket again.  What the source defers to the
    epoch collector happens at once.  A bucket's value is [None] once it has been
    moved out of it: reading it then, like reading a freed bucket, is the fault
    [Dangling]. *)
From S2P Require Import Prelude Probing.

Definition BUCKET_ARRAY_DEFAULT_LENGTH : nat := 128.
Definition SENTINEL_TAG : Z := 1.
Definition TOMBSTONE_TAG : Z := 2.
Definition BORROWED_TAG : Z := 4.

Record Bucket (K V : Type) := mkBucket { bk_key : K; maybe_value : option V }.
Arguments mkBucket {K V} _ _.
Arguments bk_key {K V} _.
Arguments maybe_value {K V} _.

(** A tagged pointer, [Shared] of crossbeam. *)
Record Shared := mkShared { sh_ptr : option positive; sh_tag : Z }.
#[export] Instance shared_eq_dec : EqDecision Shared.
Proof. solve_decision. Defined.

Definition null : Shared := mkShared None 0.
Definition is_null (p : Shared) : bool := bool_decide (sh_ptr p = None).
Definition with_tag (p : Shared) (tag : Z) : Shared := mkShared (sh_ptr p) tag.
Definition is_sentinel (p : Shared) : bool := negb (Z.land (sh_tag p) SENTINEL_TAG =? 0).
Definition is_tombstone (p : Shared) : bool := negb (Z.land (sh_tag p) TOMBSTONE_TAG =? 0).
Definition is_borrowed (p : Shared) : bool := negb (Z.land (sh_tag p) BORROWED_TAG =? 0).

(** [next] is always null in an array in use, and the rehash lock always free. *)
Record BucketArray := mkBucketArray { ba_buckets : list Shared; ba_epoch : Z; tombstone_count : Z }.

Definition is_power_of_two (n : Z) : bool := (0 <? n) && (2 ^ Z.log2 n =? n).

Definition with_length (epoch : Z) (length : nat) : res BucketArray :=
  _ ← assert_that (is_power_of_two (Z.of_nat length));
  Ok (mkBucketArray (replicate length null) epoch 0).
Definition default_array : res BucketArray := with_length 0 BUCKET_ARRAY_DEFAULT_LENGTH.

Definition array_len (ba : BucketArray) : nat := length (ba_buckets ba).
Definition array_capacity (ba : BucketArray) : res Z :=
  _ ← assert_that (is_power_of_two (Z.of_nat (array_len ba)));
  Ok (Z.of_nat (array_len ba) / 2).
Definition with_buckets (ba : BucketArray) (bs : list Shared) : BucketArray :=
  mkBucketArray bs (ba_epoch ba) (tombstone_count ba).

(** ** When to rehash *)
Inductive RehashOp := Expand | Shrink | GcOnly | Skip.

(** [RehashOp::new].  The source compares [f64]s; with counts below [2^53] and
    powers of two for capacities every operand is exact, so the comparisons are
    those of the rationals: 0.1 is [3602879701896397 / 2^55] and 0.7 is
    [6305039478318694 / 2^53].  (With a capacity of 0 the quotient is NaN for no
    tombstone, infinite for some.) *)
Definition rehash_op (cap tombstones len : Z) : RehashOp :=
  let real_cap := cap * 2 in
  let quarter_cap := real_cap / 4 in
  if (25000 <=? tombstones) || ((0 <? tombstones) && (3602879701896397 * real_cap <=? tombstones * 2 ^ 55)) then
    if (4 * (len - tombstones) <? real_cap) && (Z.of_nat BUCKET_ARRAY_DEFAULT_LENGTH <=? quarter_cap)
    then Shrink else GcOnly
  else if 6305039478318694 * real_cap <? len * 2 ^ 53 then Expand else Skip.
Definition is_skip (op : RehashOp) : bool := match op with Skip => true | _ => false end.
Definition new_len (op : RehashOp) (current_len : nat) : res nat :=
  match op with
  | Expand => Ok (current_len * 2)%nat
  | Shrink => Ok (current_len / 2)%nat
  | GcOnly => Ok current_len
  | Skip => Fail Unreachable
  end.

Section bucket.
Context {K V : Type} `{EqDecision K}.
(** The build hasher. *)
Variable hash_of : K -> Z.

#[local] Notation bheap := (gmap positive (Bucket K V)).
Implicit Types (h : bheap) (bs : list Shared) (p : Shared) (b : Bucket K V) (ba : BucketArray).

Definition bref h (a : positive) : res (Bucket K V) := expect_some Dangling (h !! a).
Definition value_ref b : res V := expect_some Dangling (maybe_value b).
(** A bucket that becomes reachable. *)
Definition balloc h b : bheap * positive := let a := fresh (dom h) in (<[a := b]> h, a).
Definition bfree h (a : positive) : res bheap := _ ← bref h a; Ok (delete a h).

Definition defer_destroy_bucket h p : res bheap :=
  match sh_ptr p with
  | None => Fail AssertFailed
  | Some a =>
      b ← bref h a;
      _ ← (if is_tombstone p then Ok tt else _ ← value_ref b; Ok tt);
      bfree h a
  end.
Definition defer_destroy_tombstone h p : res bheap :=
  match sh_ptr p with
  | None => Fail AssertFailed
  | Some a =>
      _ ← assert_that (is_tombstone p);
      b ← bref h a;
      _ ← value_ref b;
      Ok (<[a := mkBucket (bk_key b) None]> h)
  end.

(** ** The walk over the probe sequence *)

(** The loops over [probe]: a sentinel ends them, a bucket with another key is
    passed by, and [hit] is what they do at an empty bucket ([None]) or at one
    with the key. *)
Fixpoint search {A} h bs (idxs : list nat) (eq : K -> bool) (hit : nat -> Shared -> option (Bucket K V) -> res A)
    (exhausted relocated : A) : res A :=
  match idxs with
  | [] => Ok exhausted
  | i :: idxs' =>
      p ← expect_some OutOfBounds (bs !! i);
      if is_sentinel p then Ok relocated
      else match sh_ptr p with
           | None => hit i p None
           | Some a =>
               b ← bref h a;
               if eq (bk_key b) then hit i p (Some b) else search h bs idxs' eq hit exhausted relocated
           end
  end.

(** [None] is the source's [Err]. *)
Definition bucket_get h ba (hash : Z) (eq : K -> bool) : res (option Shared) :=
  search h (ba_buckets ba) (probe (array_len ba) hash) eq
    (fun _ p ob => Ok (Some match ob with None => null | Some _ => if is_tombstone p then null else p end))
    (Some null) None.

Definition bucket_remove_if h ba (hash : Z) (eq : K -> bool) (condition : K -> V -> bool)
    : res (option (BucketArray * Shared)) :=
  search h (ba_buckets ba) (probe (array_len ba) hash) eq
    (fun i p ob =>
       match ob with
       | None => Ok (Some (ba, null))
       | Some b =>
           if is_tombstone p then Ok (Some (ba, null))
           else
             v ← value_ref b;
             if condition (bk_key b) v then
               let new_ptr := with_tag p TOMBSTONE_TAG in
               Ok (Some (with_buckets ba (<[i := new_ptr]> (ba_buckets ba)), new_ptr))
             else Ok (Some (ba, null))
       end)
    (Some (ba, null)) None.

(** ** Insertions *)
Inductive ValueOrFunction := Value (v : V) | Function_ (f : unit -> V).
Definition into_value (vf : ValueOrFunction) : V := match vf with Value v => v | Function_ f => f tt end.

Inductive InsertOrModifyState :=
| New (k : K) (f : unit -> V)
| AttemptedInsertion (b : Bucket K V)
| AttemptedModification (b : Bucket K V) (vf : ValueOrFunction).

Definition from_bucket_value b (vf : option ValueOrFunction) : InsertOrModifyState :=
  match vf with Some vf => AttemptedModification b vf | None => AttemptedInsertion b end.
Definition state_key (st : InsertOrModifyState) : K :=
  match st with New k _ => k | AttemptedInsertion b | AttemptedModification b _ => bk_key b end.
Definition into_insert_bucket (st : InsertOrModifyState) : res (Bucket K V) :=
  match st with
  | New k f => Ok (mkBucket k (Some (f tt)))
  | AttemptedInsertion b => Ok b
  | AttemptedModification b vf => _ ← value_ref b; Ok (mkBucket (bk_key b) (Some (into_value vf)))
  end.
Definition into_modify_bucket (st : InsertOrModifyState) (v : V) : res (Bucket K V * ValueOrFunction) :=
  match st with
  | New k f => Ok (mkBucket k (Some v), Function_ f)
  | AttemptedInsertion b => v0 ← value_ref b; Ok (mkBucket (bk_key b) (Some v), Value v0)
  | AttemptedModification b vf => _ ← value_ref b; Ok (mkBucket (bk_key b) (Some v), vf)
  end.

(** The attempts at one bucket, [fails] of them in vain. *)
Fixpoint attempt_insert (fails : nat) (st : InsertOrModifyState) : res (Bucket K V) :=
  b ← into_insert_bucket st;
  match fails with O => Ok b | S fails' => attempt_insert fails' (from_bucket_value b None) end.
Fixpoint attempt_modify (fails : nat) (st : InsertOrModifyState) (v : V) : res (Bucket K V) :=
  '(b, vf) ← into_modify_bucket st v;
  match fails with O => Ok b | S fails' => attempt_modify fails' (from_bucket_value b (Some vf)) v end.

Inductive InsertionResult := AlreadyPresent (p : Shared) | Inserted | ReplacedTombstone (p : Shared).

(** The exchange that makes [b] reachable from bucket [i]. *)
Definition publish h ba (i : nat) b : bheap * BucketArray :=
  let '(h, a) := balloc h b in (h, with_buckets ba (<[i := mkShared (Some a) 0]> (ba_buckets ba))).

Definition bucket_insert_if_not_present (fails : nat) h ba (hash : Z) (st : InsertOrModifyState)
    : res (option (bheap * BucketArray * InsertionResult)) :=
  search h (ba_buckets ba) (probe (array_len ba) hash) (fun k => bool_decide (k = state_key st))
    (fun i p ob =>
       match ob with
       | Some _ =>
           if is_tombstone p then
             b ← attempt_insert fails st; Ok (Some (publish h ba i b, ReplacedTombstone p))
           else Ok (Some (h, ba, AlreadyPresent p))
       | None => b ← attempt_insert fails st; Ok (Some (publish h ba i b, Inserted))
       end)
    None None.

(** Returns the pointer that was replaced. *)
Definition bucket_insert_or_modify (fails : nat) h ba (hash : Z) (st : InsertOrModifyState) (modifier : K -> V -> V)
    : res (option (bheap * BucketArray * Shared)) :=
  search h (ba_buckets ba) (probe (array_len ba) hash) (fun k => bool_decide (k = state_key st))
    (fun i p ob =>
       new_bucket ←
         match ob with
         | Some b =>
             if is_tombstone p then attempt_insert fails st
             else v ← value_ref b; attempt_modify fails st (modifier (bk_key b) v)
         | None => attempt_insert fails st
         end;
       Ok (Some (publish h ba i new_bucket, p)))
    None None.

(** ** Rehashing *)
Definition insert_for_grow h ba (hash : Z) p : res (BucketArray * option nat) :=
  _ ← assert_that (negb (is_null p));
  _ ← assert_that (negb (is_sentinel p));
  _ ← assert_that (is_borrowed p);
  match sh_ptr p with
  | None => Fail Dangling
  | Some a =>
      b ← bref h a;
      search h (ba_buckets ba) (probe (array_len ba) hash) (fun k => bool_decide (k = bk_key b))
        (fun i this ob =>
           match ob with
           | Some _ =>
               if bool_decide (this = p) then Ok (ba, None)
               else if negb (is_borrowed this) then Ok (ba, None)
               else Ok (with_buckets ba (<[i := p]> (ba_buckets ba)), Some i)
           | None =>
               if is_tombstone p then Ok (ba, None)
               else Ok (with_buckets ba (<[i := p]> (ba_buckets ba)), Some i)
           end)
        (ba, None) (ba, None)
  end.

(** One bucket of the old array; it becomes a sentinel. *)
Definition relocate (a : bheap * BucketArray) p : res (bheap * BucketArray) :=
  let '(h, next) := a in
  if is_sentinel p then Ok (h, next)
  else
    let to_put_ptr := with_tag p (Z.lor (sh_tag p) BORROWED_TAG) in
    match sh_ptr p with
    | None => Ok (h, next)
    | Some a =>
        b ← bref h a;
        '(next, index) ← insert_for_grow h next (hash_of (bk_key b)) to_put_ptr;
        if is_tombstone p && bool_decide (index = None)
        then h ← defer_destroy_bucket h p; Ok (h, next)
        else Ok (h, next)
    end.

(** Returns the next array; the old one is left with sentinels only. *)
Definition rehash h ba (op : RehashOp) : res (bheap * BucketArray) :=
  len ← new_len op (array_len ba);
  next ← with_length (ba_epoch ba + 1) len;
  foldM relocate (h, next) (ba_buckets ba).

Definition bucket_keys h ba : res (option (list K)) :=
  foldM (fun acc p =>
           match acc with
           | None => Ok None
           | Some keys =>
               if is_sentinel p then Ok None
               else match sh_ptr p with
                    | Some a => b ← bref h a; Ok (Some (if is_tombstone p then keys else keys ++ [bk_key b]))
                    | None => Ok (Some keys)
                    end
           end) (Some []) (ba_buckets ba).
End bucket.
