(* ===== verification/BucketTable.v ===== *)
(** Bucket arrays implement the tables of Probing: no operation faults on a
    well-formed array, and each has the effect of its table counterpart. *)
From S2P Require Import Prelude Probing Bucket.

Section proofs.
Context {K V : Type} `{EqDecision K}.
Variable hash_of : K -> Z.
#[local] Notation bheap := (gmap positive (Bucket K V)).
Implicit Types (h : bheap) (bs : list Shared) (p : Shared) (b : Bucket K V) (ba : BucketArray).

(** ** What a tagged pointer stands for *)

Definition cell_of h p : option (K * option V) := a ← sh_ptr p; b ← h !! a; Some (bk_key b, maybe_value b).
Definition cells_of h bs : list (option (K * option V)) := cell_of h <$> bs.

Record ptr_ok h p : Prop := {
  po_sentinel : is_sentinel p = false;
  po_null : sh_ptr p = None -> p = null;
  po_bucket : forall a, sh_ptr p = Some a -> exists b, h !! a = Some b /\ (is_tombstone p = true <-> maybe_value b = None)
}.

(** The pointers are good and the keys stand where searches find them. *)
Record array_ok h bs : Prop := {
  ar_ptrs : forall i p, bs !! i = Some p -> ptr_ok h p;
  ar_table : table_ok hash_of (cells_of h bs);
  ar_power : power_of_two (length bs)
}.

(** No bucket is unreachable. *)
Definition owns h bs : Prop := forall a b, h !! a = Some b -> exists i p, bs !! i = Some p /\ sh_ptr p = Some a.

Lemma cells_lookup h bs i : cells_of h bs !! i = cell_of h <$> bs !! i.
Proof. apply list_lookup_fmap. Qed.
Lemma cells_length h bs : length (cells_of h bs) = length bs.
Proof. apply length_fmap. Qed.

Lemma cell_null h p : ptr_ok h p -> cell_of h p = None <-> p = null.
Proof.
  intros Hp. split; [|by intros ->]. unfold cell_of. destruct (sh_ptr p) as [a|] eqn:Ha; [|intros _; by apply (po_null _ _ Hp)].
  cbn. destruct (po_bucket _ _ Hp a Ha) as (b & Hb & _). by rewrite Hb.
Qed.

Lemma cell_bucket h p a b : sh_ptr p = Some a -> h !! a = Some b -> cell_of h p = Some (bk_key b, maybe_value b).
Proof. intros Ha Hb. unfold cell_of. rewrite Ha. cbn. by rewrite Hb. Qed.

(** Two buckets never share a pointer: their keys would be the same. *)
Lemma array_inj h bs i j p q a :
  array_ok h bs -> bs !! i = Some p -> bs !! j = Some q -> sh_ptr p = Some a -> sh_ptr q = Some a -> i = j.
Proof.
  intros Hok Hi Hj Hp Hq. destruct (po_bucket _ _ (ar_ptrs _ _ Hok _ _ Hi) a Hp) as (b & Hb & _).
  assert (Hcell : forall i p, bs !! i = Some p -> sh_ptr p = Some a -> slot_of hash_of (cells_of h bs) (bk_key b) = Some i).
  { intros i' p' Hi' Hp'. apply (ar_table _ _ Hok i' (bk_key b) (maybe_value b)). rewrite cells_lookup, Hi'. cbn.
    by rewrite (cell_bucket _ _ _ _ Hp' Hb). }
  pose proof (Hcell _ _ Hi Hp). pose proof (Hcell _ _ Hj Hq). congruence.
Qed.

(** ** Searching *)

(** What a search needs of the pointers it meets. *)
Definition readable h p : Prop :=
  is_sentinel p = false /\ (sh_ptr p = None -> p = null) /\ forall a, sh_ptr p = Some a -> is_Some (h !! a).
Lemma ptr_readable h p : ptr_ok h p -> readable h p.
Proof. intros [H1 H2 H3]. split; [done|]. split; [done|]. intros a Ha. destruct (H3 a Ha) as (b & Hb & _). eauto. Qed.

Lemma search_slot {A} h bs idxs k hit (exhausted relocated : A) :
  (forall i p, bs !! i = Some p -> readable h p) -> (forall i, i ∈ idxs -> (i < length bs)%nat) ->
  search h bs idxs (fun k' => bool_decide (k' = k)) hit exhausted relocated =
  match slot (cells_of h bs) idxs k with
  | None => Ok exhausted
  | Some i => match bs !! i with Some p => hit i p (a ← sh_ptr p; h !! a) | None => Fail OutOfBounds end
  end.
Proof.
  intros Hok. induction idxs as [|i idxs IH]; intros Hr; [done|]. cbn [search slot]. rewrite cells_lookup.
  destruct (bs !! i) as [p|] eqn:Hi; [|apply lookup_ge_None in Hi; specialize (Hr i (list_elem_of_here _ _)); lia].
  destruct (Hok _ _ Hi) as (Hs & Hn & Hb0). cbn [expect_some mbind res_bind fmap option_fmap option_map]. rewrite Hs.
  destruct (sh_ptr p) as [a|] eqn:Ha.
  - destruct (Hb0 a eq_refl) as [b Hb]. rewrite (cell_bucket _ _ _ _ Ha Hb). unfold bref. rewrite Hb.
    cbn [expect_some mbind res_bind stops]. destruct (bool_decide (bk_key b = k)).
    + rewrite Hi, Ha. cbn. by rewrite Hb.
    + apply IH. intros j Hj. apply Hr. by right.
  - rewrite (Hn eq_refl). cbn. by rewrite Hi, (Hn eq_refl).
Qed.

(** The search of an operation on a whole array. *)
Lemma array_search {A} h bs k hash hit (exhausted relocated : A) :
  array_ok h bs -> hash = hash_of k ->
  search h bs (probe (length bs) hash) (fun k' => bool_decide (k' = k)) hit exhausted relocated =
  match slot_of hash_of (cells_of h bs) k with
  | None => Ok exhausted
  | Some i => match bs !! i with Some p => hit i p (a ← sh_ptr p; h !! a) | None => Fail OutOfBounds end
  end.
Proof.
  intros Hok ->. rewrite search_slot; [|intros i p Hi; by apply ptr_readable, (ar_ptrs _ _ Hok i)|intros i Hi; eapply probe_range; [apply Hok|done]].
  unfold slot_of. by rewrite cells_length.
Qed.

(** Where a search ends: an empty bucket, or the bucket of the key. *)
Lemma slot_bucket h bs k i :
  array_ok h bs -> slot_of hash_of (cells_of h bs) k = Some i ->
  exists p, bs !! i = Some p /\
    ((p = null /\ lookup_cell hash_of (cells_of h bs) k = None) \/
     exists a b, sh_ptr p = Some a /\ h !! a = Some b /\ bk_key b = k /\ (is_tombstone p = true <-> maybe_value b = None) /\
       lookup_cell hash_of (cells_of h bs) k = maybe_value b).
Proof.
  intros Hok Hs. pose proof (slot_some _ _ _ _ Hs) as (_ & c & Hc & Hst). rewrite cells_lookup in Hc.
  destruct (bs !! i) as [p|] eqn:Hi; [|done]. cbn in Hc. injection Hc as <-. exists p. split; [done|].
  pose proof (ar_ptrs _ _ Hok _ _ Hi) as Hp. unfold lookup_cell. rewrite Hs. cbn. rewrite cells_lookup, Hi. cbn.
  destruct (sh_ptr p) as [a|] eqn:Ha.
  - right. destruct (po_bucket _ _ Hp a Ha) as (b & Hb & Ht). exists a, b. rewrite (cell_bucket _ _ _ _ Ha Hb) in *. cbn in *.
    apply bool_decide_eq_true in Hst. done.
  - left. rewrite (po_null _ _ Hp Ha). done.
Qed.

(** ** Writing a bucket *)

(** The bucket [i] gets the pointer [p'], and the heap changes at no address the
    others use. *)
Lemma array_write h h' bs i p' k w :
  array_ok h bs -> slot_of hash_of (cells_of h bs) k = Some i -> ptr_ok h' p' -> cell_of h' p' = Some (k, w) ->
  (forall j q a, j <> i -> bs !! j = Some q -> sh_ptr q = Some a -> h' !! a = h !! a) ->
  array_ok h' (<[i := p']> bs) /\ cells_of h' (<[i := p']> bs) = <[i := Some (k, w)]> (cells_of h bs) /\
  forall k', lookup_cell hash_of (cells_of h' (<[i := p']> bs)) k' =
    if decide (k' = k) then w else lookup_cell hash_of (cells_of h bs) k'.
Proof.
  intros Hok Hs Hp' Hc' Hsame. destruct (slot_some _ _ _ _ Hs) as (_ & c & Hc & _). rewrite cells_lookup in Hc.
  assert (Hlt : (i < length bs)%nat) by (apply lookup_lt_is_Some; destruct (bs !! i); [eauto|done]).
  assert (E : cells_of h' (<[i := p']> bs) = <[i := Some (k, w)]> (cells_of h bs)).
  { apply list_eq. intros j. rewrite cells_lookup. destruct (decide (i = j)) as [<-|Hne].
    - rewrite !list_lookup_insert_eq by (rewrite ?cells_length; done). cbn. by rewrite Hc'.
    - rewrite !list_lookup_insert_ne, cells_lookup by done. destruct (bs !! j) as [q|] eqn:Hj; [|done]. cbn. f_equal.
      unfold cell_of. destruct (sh_ptr q) as [a|] eqn:Ha; [|done]. cbn. by rewrite (Hsame j q a). }
  destruct (table_write hash_of _ _ _ w (ar_table _ _ Hok) Hs) as [Hok' Hl]. rewrite E. split; [|done]. split.
  - intros j q Hj. destruct (decide (i = j)) as [<-|Hne].
    + rewrite list_lookup_insert_eq in Hj by done. by injection Hj as <-.
    + rewrite list_lookup_insert_ne in Hj by done. destruct (ar_ptrs _ _ Hok _ _ Hj) as [H1 H2 H3]. split; [done..|].
      intros a Ha. rewrite (Hsame j q a); auto.
  - by rewrite E.
  - rewrite length_insert. apply Hok.
Qed.

(** ** Publishing a bucket *)

(** The heap once the bucket the pointer [p] leads to is gone. *)
Definition without h p : bheap := match sh_ptr p with Some a => delete a h | None => h end.

Lemma destroy_bucket h p : ptr_ok h p -> p <> null -> defer_destroy_bucket h p = Ok (without h p).
Proof.
  intros Hp Hn. unfold defer_destroy_bucket, without. destruct (sh_ptr p) as [a|] eqn:Ha; [|by destruct Hn; apply (po_null _ _ Hp)].
  destruct (po_bucket _ _ Hp a Ha) as (b & Hb & Ht). unfold bfree, bref. rewrite Hb. cbn. destruct (is_tombstone p); [done|].
  unfold value_ref. destruct (maybe_value b) eqn:Hv; [done|]. discriminate (proj2 Ht eq_refl).
Qed.

(** A new bucket for the key [k] takes the place of the one its search ends at,
    which is destroyed. *)
Lemma publish_ok h bs i p k v :
  array_ok h bs -> owns h bs -> slot_of hash_of (cells_of h bs) k = Some i -> bs !! i = Some p ->
  let a := fresh (dom h) in
  let h' := without (<[a := mkBucket k (Some v)]> h) p in
  let bs' := <[i := mkShared (Some a) 0]> bs in
  array_ok h' bs' /\ owns h' bs' /\ cells_of h' bs' = <[i := Some (k, Some v)]> (cells_of h bs) /\
  (forall k', lookup_cell hash_of (cells_of h' bs') k' = if decide (k' = k) then Some v else lookup_cell hash_of (cells_of h bs) k') /\
  (p <> null -> defer_destroy_bucket (<[a := mkBucket k (Some v)]> h) p = Ok h').
Proof.
  intros Hok Hown Hs Hi a h' bs'. assert (Hfr : h !! a = None) by (apply not_elem_of_dom, is_fresh).
  pose proof (ar_ptrs _ _ Hok _ _ Hi) as Hp.
  assert (Hna : forall q j (x : positive), bs !! j = Some q -> sh_ptr q = Some x -> x <> a).
  { intros q j x Hj Hq ->. destruct (po_bucket _ _ (ar_ptrs _ _ Hok _ _ Hj) a Hq) as (y & Hy & _). congruence. }
  assert (Hh' : forall x : positive, h' !! x = if decide (sh_ptr p = Some x) then None else if decide (x = a) then Some (mkBucket k (Some v)) else h !! x).
  { intros x. unfold h', without. destruct (sh_ptr p) as [x'|]; [destruct (decide (Some x' = Some x)) as [[= ->]|Hne]|].
    - by rewrite lookup_delete_eq.
    - rewrite lookup_delete_ne by congruence. case_decide; [subst; by rewrite lookup_insert_eq|by rewrite lookup_insert_ne].
    - rewrite decide_False by done. case_decide; [subst; by rewrite lookup_insert_eq|by rewrite lookup_insert_ne]. }
  assert (Ha : h' !! a = Some (mkBucket k (Some v))).
  { rewrite Hh', decide_False, decide_True; [done|done|]. intros Hpa. by apply (Hna p i a Hi Hpa). }
  destruct (array_write h h' bs i (mkShared (Some a) 0) k (Some v) Hok Hs) as (Hok' & Hcells & Hl).
  { split; [done|done|]. intros x [= <-]. eexists. split; [exact Ha|]. done. }
  { unfold cell_of. cbn. by rewrite Ha. }
  { intros j q x Hne Hj Hq. rewrite Hh', decide_False, decide_False; [done|by apply (Hna q j)|].
    intros Hpb. apply Hne. by eapply array_inj. }
  split; [done|]. split; [|split; [done|split; [done|]]].
  - intros x y Hx. rewrite Hh' in Hx. case_decide as H1; [done|]. case_decide as H2.
    + subst. exists i, (mkShared (Some a) 0). unfold bs'. rewrite list_lookup_insert_eq by (by eapply lookup_lt_Some). done.
    + destruct (Hown x y Hx) as (j & q & Hj & Hq). assert (j <> i) by (intros ->; congruence).
      exists j, q. unfold bs'. by rewrite list_lookup_insert_ne.
  - intros Hne. apply destroy_bucket; [|done]. destruct Hp as [P1 P2 P3]. split; [done|done|]. intros x Hx.
    destruct (P3 x Hx) as (y & Hy & Ht). exists y. split; [|done]. rewrite lookup_insert_ne; [done|].
    apply not_eq_sym. by apply (Hna p i).
Qed.

(** ** Leaving a tombstone *)
Lemma tombstone_ok h bs i p a k v :
  array_ok h bs -> owns h bs -> slot_of hash_of (cells_of h bs) k = Some i -> bs !! i = Some p -> sh_ptr p = Some a ->
  h !! a = Some (mkBucket k (Some v)) ->
  let p' := with_tag p TOMBSTONE_TAG in
  let h' := <[a := mkBucket k None]> h in
  defer_destroy_tombstone h p' = Ok h' /\ array_ok h' (<[i := p']> bs) /\ owns h' (<[i := p']> bs) /\
  cells_of h' (<[i := p']> bs) = <[i := Some (k, None)]> (cells_of h bs) /\
  forall k', lookup_cell hash_of (cells_of h' (<[i := p']> bs)) k' = if decide (k' = k) then None else lookup_cell hash_of (cells_of h bs) k'.
Proof.
  intros Hok Hown Hs Hi Ha Hb p' h'. assert (Ha' : h' !! a = Some (mkBucket k None)) by (unfold h'; by rewrite lookup_insert_eq).
  split; [unfold defer_destroy_tombstone; cbn; rewrite Ha; unfold bref; by rewrite Hb|].
  destruct (array_write h h' bs i p' k None Hok Hs) as (Hok' & Hcells & Hl).
  { split; [done|intros Hx; cbn in Hx; congruence|]. intros x Hx. cbn in Hx. rewrite Ha in Hx. injection Hx as <-. by eexists. }
  { unfold cell_of. cbn. rewrite Ha. cbn. by rewrite Ha'. }
  { intros j q x Hne Hj Hq. unfold h'. rewrite lookup_insert_ne; [done|]. intros <-. apply Hne. by eapply array_inj. }
  split; [done|]. split; [|done]. intros x y Hx. destruct (decide (x = a)) as [->|Hne].
  - exists i, p'. rewrite list_lookup_insert_eq by (by eapply lookup_lt_Some). done.
  - unfold h' in Hx. rewrite lookup_insert_ne in Hx by done. destruct (Hown x y Hx) as (j & q & Hj & Hq).
    assert (j <> i) by (intros ->; congruence). exists j, q. by rewrite list_lookup_insert_ne.
Qed.

(** ** Rehashing *)

Lemma live_cons h p bs : live (cells_of h (p :: bs)) =
  match live_of (cell_of h p) with Some kv => kv :: live (cells_of h bs) | None => live (cells_of h bs) end.
Proof. done. Qed.

(** The old pointers [bs] are still to be moved to the array [nbs]. *)
Record moving h bs nbs : Prop := {
  mv_old : forall p, p ∈ bs -> ptr_ok h p;
  mv_new : array_ok h nbs;
  mv_absent : forall p k w, p ∈ bs -> cell_of h p = Some (k, w) -> absent (cells_of h nbs) k;
  mv_nodup : NoDup (omap (fun p => fst <$> cell_of h p) bs);
  mv_owned : forall a b, h !! a = Some b ->
    (exists i q, nbs !! i = Some q /\ sh_ptr q = Some a) \/ exists p, p ∈ bs /\ sh_ptr p = Some a;
  mv_room : (occupied (cells_of h nbs) + length (live (cells_of h bs)) <= length nbs)%nat
}.

Definition borrow p : Shared := with_tag p (Z.lor (sh_tag p) BORROWED_TAG).

Lemma borrow_tags p : is_sentinel (borrow p) = is_sentinel p /\ is_tombstone (borrow p) = is_tombstone p /\ is_borrowed (borrow p) = true.
Proof.
  unfold is_sentinel, is_tombstone, is_borrowed, borrow. cbn [sh_tag with_tag]. rewrite !Z.land_lor_distr_l.
  change (Z.land BORROWED_TAG SENTINEL_TAG) with 0. change (Z.land BORROWED_TAG TOMBSTONE_TAG) with 0.
  change (Z.land BORROWED_TAG BORROWED_TAG) with 4. rewrite !Z.lor_0_r. split; [done|]. split; [done|].
  apply negb_true_iff, Z.eqb_neq. intros [_ E]%Z.lor_eq_0_iff. done.
Qed.

Lemma cell_borrow h p : cell_of h (borrow p) = cell_of h p.
Proof. done. Qed.

(** Moving a bucket into an array that does not hold its key. *)
Lemma insert_for_grow_ok h ba p a b :
  array_ok h (ba_buckets ba) -> ptr_ok h p -> sh_ptr p = Some a -> h !! a = Some b ->
  absent (cells_of h (ba_buckets ba)) (bk_key b) ->
  insert_for_grow h ba (hash_of (bk_key b)) (borrow p) =
  Ok match slot_of hash_of (cells_of h (ba_buckets ba)) (bk_key b) with
     | None => (ba, None)
     | Some i => if is_tombstone p then (ba, None) else (with_buckets ba (<[i := borrow p]> (ba_buckets ba)), Some i)
     end.
Proof.
  intros Hok Hp Ha Hb Hab. destruct (borrow_tags p) as (Hs & Ht & Hbo). unfold insert_for_grow.
  assert (Hnn : is_null (borrow p) = false) by (unfold is_null; cbn; by rewrite Ha).
  rewrite Hnn, Hs, (po_sentinel _ _ Hp), Hbo. cbn [negb assert_that mbind res_bind sh_ptr borrow with_tag]. rewrite Ha.
  unfold bref. rewrite Hb. cbn [expect_some mbind res_bind]. unfold array_len. rewrite (array_search _ _ (bk_key b)) by done.
  destruct (slot_of hash_of (cells_of h (ba_buckets ba)) (bk_key b)) as [i|] eqn:Hi; [|done].
  destruct (slot_bucket _ _ _ _ Hok Hi) as (q & Hq & [[-> _]|(a' & b' & Ha' & Hb' & Hk & _)]); rewrite Hq.
  - cbn [sh_ptr null mbind option_bind]. fold (borrow p). rewrite Ht. by destruct (is_tombstone p).
  - exfalso. apply (Hab i (maybe_value b')). rewrite cells_lookup, Hq. cbn. by rewrite (cell_bucket _ _ _ _ Ha' Hb'), Hk.
Qed.

(** The first of the remaining pointers shares its bucket with no other. *)
Lemma moving_apart h p bs nbs a b :
  moving h (p :: bs) nbs -> sh_ptr p = Some a -> h !! a = Some b ->
  (forall q, q ∈ bs -> sh_ptr q <> Some a) /\ (forall i q, nbs !! i = Some q -> sh_ptr q <> Some a) /\
  (forall q k w, q ∈ bs -> cell_of h q = Some (k, w) -> k <> bk_key b) /\ absent (cells_of h nbs) (bk_key b).
Proof.
  intros M Ha Hb. pose proof (cell_bucket _ _ _ _ Ha Hb) as Hc.
  pose proof (mv_absent _ _ _ M p _ _ (list_elem_of_here _ _) Hc) as Hab.
  assert (Hk : forall q k w, q ∈ bs -> cell_of h q = Some (k, w) -> k <> bk_key b).
  { intros q k w Hq Hcq ->. pose proof (mv_nodup _ _ _ M) as Hnd. cbn in Hnd. rewrite Hc in Hnd. cbn in Hnd.
    apply NoDup_cons in Hnd as [Hni _]. apply Hni, list_elem_of_omap. exists q. by rewrite Hcq. }
  split; [|split; [|done]].
  - intros q Hq Hqa. by apply (Hk q _ _ Hq (cell_bucket _ _ _ _ Hqa Hb)).
  - intros i q Hq Hqa. apply (Hab i (maybe_value b)). rewrite cells_lookup, Hq. cbn. by rewrite (cell_bucket _ _ _ _ Hqa Hb).
Qed.

(** The bucket of the first of the remaining pointers is freed. *)
Lemma moving_free h p bs nbs a b :
  moving h (p :: bs) nbs -> sh_ptr p = Some a -> h !! a = Some b -> maybe_value b = None ->
  moving (delete a h) bs nbs /\ cells_of (delete a h) nbs = cells_of h nbs /\ cells_of (delete a h) bs = cells_of h bs.
Proof.
  intros M Ha Hb Hv. destruct (moving_apart _ _ _ _ _ _ M Ha Hb) as (Hbs & Hnbs & _ & _).
  assert (Hc : forall q, sh_ptr q <> Some a -> cell_of (delete a h) q = cell_of h q).
  { intros q Hq. unfold cell_of. destruct (sh_ptr q) as [x|]; [|done]. cbn. rewrite lookup_delete_ne by congruence. done. }
  assert (Hpo : forall q, sh_ptr q <> Some a -> ptr_ok h q -> ptr_ok (delete a h) q).
  { intros q Hq [P1 P2 P3]. split; [done|done|]. intros x Hx. rewrite lookup_delete_ne by congruence. auto. }
  assert (E1 : cells_of (delete a h) nbs = cells_of h nbs).
  { apply list_fmap_ext. intros i q Hq. apply Hc. by eapply Hnbs. }
  assert (E2 : cells_of (delete a h) bs = cells_of h bs).
  { apply list_fmap_ext. intros i q Hq%list_elem_of_lookup_2. apply Hc. by apply Hbs. }
  split; [|done]. pose proof (cell_bucket _ _ _ _ Ha Hb) as Hcp. destruct M as [M1 [A1 A2 A3] M3 M4 M5 M6]. split.
  - intros q Hq. apply Hpo; [auto|]. apply M1. by right.
  - split; [intros i q Hq; apply Hpo; eauto|by rewrite E1|done].
  - intros q k w Hq. rewrite Hc, E1 by auto. apply M3. by right.
  - assert (E : omap (fun q => fst <$> cell_of (delete a h) q) bs = omap (fun q => fst <$> cell_of h q) bs).
    { clear -Hc Hbs. induction bs as [|q bs IH]; [done|]. cbn. rewrite Hc by (apply Hbs; left). rewrite IH; [done|].
      intros q' Hq'. apply Hbs. by right. }
    rewrite E. cbn in M4. rewrite Hcp in M4. by apply NoDup_cons in M4 as [_ M4].
  - intros x y Hx. apply lookup_delete_Some in Hx as [Hne Hx]. destruct (M5 x y Hx) as [?|(q & Hq & Hqa)]; [by left|].
    apply elem_of_cons in Hq as [->|Hq]; [congruence|right; eauto].
  - rewrite E1, E2. rewrite live_cons, Hcp, Hv in M6. done.
Qed.

(** A live bucket moves. *)
Lemma moving_put h p bs nbs a b v :
  moving h (p :: bs) nbs -> sh_ptr p = Some a -> h !! a = Some b -> maybe_value b = Some v -> is_tombstone p = false ->
  exists i, slot_of hash_of (cells_of h nbs) (bk_key b) = Some i /\ moving h bs (<[i := borrow p]> nbs) /\
    cells_of h (<[i := borrow p]> nbs) = put_cell hash_of (cells_of h nbs) (bk_key b, v).
Proof.
  intros M Ha Hb Hv Ht. destruct (moving_apart _ _ _ _ _ _ M Ha Hb) as (Hbs & Hnbs & Hk & Hab).
  pose proof (cell_bucket _ _ _ _ Ha Hb) as Hcp. rewrite Hv in Hcp. pose proof M as [M1 M2 M3 M4 M5 M6]. pose proof M2 as [A1 A2 A3].
  assert (Hroom : (occupied (cells_of h nbs) < length (cells_of h nbs))%nat).
  { rewrite cells_length. rewrite live_cons, Hcp in M6. cbn in M6. lia. }
  assert (Hpow : power_of_two (length (cells_of h nbs))) by (by rewrite cells_length).
  destruct (put_one hash_of (cells_of h nbs) (bk_key b) v A2 Hpow Hab Hroom) as (_ & _ & Hocc & Habs & _).
  destruct (slot_ends hash_of (cells_of h nbs) (bk_key b) Hpow Hroom) as [i Hi]. exists i. split; [done|].
  destruct (borrow_tags p) as (Hs1 & Ht1 & _). pose proof (M1 p (list_elem_of_here _ _)) as Hp.
  destruct (array_write h h nbs i (borrow p) (bk_key b) (Some v) M2 Hi) as (Hok & Hcells & _); [|done|done|].
  { destruct Hp as [P1 P2 P3]. split; [by rewrite Hs1|cbn; congruence|]. intros x Hx. rewrite Ht1. by apply P3. }
  assert (Hcs : cells_of h (<[i := borrow p]> nbs) = put_cell hash_of (cells_of h nbs) (bk_key b, v)).
  { rewrite Hcells. unfold put_cell. cbn [fst snd]. by rewrite Hi. }
  split; [|done]. destruct (slot_bucket _ _ _ _ M2 Hi) as (q & Hq & Hqn).
  assert (q = null) as ->.
  { destruct Hqn as [[? _]|(a' & b' & Ha' & Hb' & Hk' & _)]; [done|]. destruct (Hab i (maybe_value b')).
    rewrite cells_lookup, Hq. cbn. by rewrite (cell_bucket _ _ _ _ Ha' Hb'), Hk'. }
  split; [intros q Hq'; apply M1; by right|done| | | |].
  - intros q k w Hq' Hcq. rewrite Hcs. apply Habs; [by eapply Hk|]. eapply M3; [by right|done].
  - cbn in M4. rewrite Hcp in M4. by apply NoDup_cons in M4 as [_ M4].
  - intros x y Hx. destruct (M5 x y Hx) as [(j & q & Hj & Hqa)|(q & Hq' & Hqa)].
    + left. exists j, q. assert (j <> i) by (intros ->; rewrite Hq in Hj; by injection Hj as <-). by rewrite list_lookup_insert_ne.
    + apply elem_of_cons in Hq' as [->|Hq']; [|right; eauto]. left. exists i, (borrow p).
      rewrite list_lookup_insert_eq by (by eapply lookup_lt_Some). done.
  - rewrite Hcs, Hocc, length_insert. rewrite live_cons, Hcp in M6. cbn [live_of mbind option_bind fst snd length] in M6. lia.
Qed.

(** An empty bucket needs nothing. *)
Lemma moving_skip h p bs nbs : moving h (p :: bs) nbs -> sh_ptr p = None -> moving h bs nbs.
Proof.
  intros [M1 M2 M3 M4 M5 M6] Hp. assert (Hc : cell_of h p = None) by (unfold cell_of; by rewrite Hp).
  split; [intros q Hq; apply M1; by right|done|intros q k w Hq; apply M3; by right| | |].
  - cbn in M4. by rewrite Hc in M4.
  - intros a b Hb. destruct (M5 a b Hb) as [?|(q & Hq & Hqa)]; [by left|].
    apply elem_of_cons in Hq as [->|Hq]; [congruence|right; eauto].
  - by rewrite live_cons, Hc in M6.
Qed.

Lemma relocate_ok h p bs ba :
  moving h (p :: bs) (ba_buckets ba) ->
  exists h' ba', relocate hash_of (h, ba) p = Ok (h', ba') /\ moving h' bs (ba_buckets ba') /\
    ba_epoch ba' = ba_epoch ba /\ tombstone_count ba' = tombstone_count ba /\ cells_of h' bs = cells_of h bs /\
    cells_of h' (ba_buckets ba') =
      match live_of (cell_of h p) with
      | Some kv => put_cell hash_of (cells_of h (ba_buckets ba)) kv
      | None => cells_of h (ba_buckets ba)
      end.
Proof.
  intros M. pose proof (mv_old _ _ _ M p (list_elem_of_here _ _)) as Hp. unfold relocate. rewrite (po_sentinel _ _ Hp).
  destruct (sh_ptr p) as [a|] eqn:Ha.
  2: { exists h, ba. assert (Hc : cell_of h p = None) by (unfold cell_of; by rewrite Ha). rewrite Hc. cbn.
       split; [done|]. split; [by eapply moving_skip|done]. }
  destruct (po_bucket _ _ Hp a Ha) as (b & Hb & Ht). destruct (moving_apart _ _ _ _ _ _ M Ha Hb) as (_ & _ & _ & Hab).
  unfold bref. rewrite Hb. cbn [expect_some mbind res_bind]. fold (borrow p).
  rewrite (insert_for_grow_ok h ba p a b (mv_new _ _ _ M) Hp Ha Hb Hab). cbn [mbind res_bind]. rewrite (cell_bucket _ _ _ _ Ha Hb).
  destruct (is_tombstone p) eqn:Htomb.
  - assert (Hv : maybe_value b = None) by (by apply Ht). rewrite Hv. cbn [live_of mbind option_bind snd].
    destruct (moving_free h p bs (ba_buckets ba) a b M Ha Hb Hv) as (M' & E1 & E2).
    exists (delete a h), ba. split; [|done].
    destruct (slot_of _ _ _); cbn [andb]; rewrite bool_decide_eq_true_2, (destroy_bucket h p Hp) by (done || by intros ->);
      unfold without; by rewrite Ha.
  - destruct (maybe_value b) as [v|] eqn:Hv; [|discriminate (proj2 Ht eq_refl)]. cbn [live_of mbind option_bind snd fst].
    destruct (moving_put h p bs (ba_buckets ba) a b v M Ha Hb Hv Htomb) as (i & Hi & M' & E1). rewrite Hi.
    eexists _, _. split; [reflexivity|]. done.
Qed.

Lemma relocate_all : forall bs h ba,
  moving h bs (ba_buckets ba) ->
  exists h' ba', foldM (relocate hash_of) (h, ba) bs = Ok (h', ba') /\ moving h' [] (ba_buckets ba') /\
    ba_epoch ba' = ba_epoch ba /\ tombstone_count ba' = tombstone_count ba /\
    cells_of h' (ba_buckets ba') = foldl (put_cell hash_of) (cells_of h (ba_buckets ba)) (live (cells_of h bs)).
Proof.
  induction bs as [|p bs IH]; intros h ba M; [by exists h, ba|]. cbn [foldM].
  destruct (relocate_ok h p bs ba M) as (h1 & ba1 & -> & M1 & He1 & Ht1 & Hb1 & Hc1). cbn [mbind res_bind].
  destruct (IH h1 ba1 M1) as (h' & ba' & -> & M' & He' & Ht' & Hc'). exists h', ba'. split; [done|]. split; [done|].
  split; [congruence|]. split; [congruence|]. rewrite Hc', Hc1, Hb1, live_cons. by destruct (live_of (cell_of h p)).
Qed.

Lemma power_of_two_spec n : is_power_of_two (Z.of_nat n) = true <-> power_of_two n.
Proof.
  unfold is_power_of_two, power_of_two. rewrite andb_true_iff, Z.ltb_lt, Z.eqb_eq. split.
  - intros [Hpos E]. exists (Z.to_nat (Z.log2 (Z.of_nat n))). apply Nat2Z.inj. rewrite Nat2Z.inj_pow, Z2Nat.id by apply Z.log2_nonneg. done.
  - intros [e ->]. rewrite Nat2Z.inj_pow. change (Z.of_nat 2) with 2. rewrite Z.log2_pow2 by lia. split; [apply Z.pow_pos_nonneg; lia|done].
Qed.

Lemma with_length_ok epoch n : power_of_two n -> with_length epoch n = Ok (mkBucketArray (replicate n null) epoch 0).
Proof. intros Hn. unfold with_length. by rewrite (proj2 (power_of_two_spec n) Hn). Qed.

Lemma new_cells h n : cells_of h (replicate n null) = replicate n None.
Proof. unfold cells_of. by rewrite fmap_replicate. Qed.

Lemma new_array_ok h n : power_of_two n -> array_ok h (replicate n null).
Proof.
  intros Hn. split; [intros i p [-> _]%lookup_replicate; by split| |by rewrite length_replicate].
  rewrite new_cells. apply empty_table.
Qed.

(** Rehashing keeps the live keys, frees the tombstones and loses nothing, as long
    as the next array has room for the live keys. *)
Lemma rehash_ok h ba op n :
  array_ok h (ba_buckets ba) -> owns h (ba_buckets ba) -> new_len op (array_len ba) = Ok n -> power_of_two n ->
  (length (live (cells_of h (ba_buckets ba))) <= n)%nat ->
  exists h' ba', rehash hash_of h ba op = Ok (h', ba') /\ array_ok h' (ba_buckets ba') /\ owns h' (ba_buckets ba') /\
    ba_epoch ba' = ba_epoch ba + 1 /\ tombstone_count ba' = 0 /\
    cells_of h' (ba_buckets ba') = rehashed hash_of (cells_of h (ba_buckets ba)) n.
Proof.
  intros Hok Hown Hlen Hn Hroom. unfold rehash. rewrite Hlen. cbn [mbind res_bind]. rewrite with_length_ok by done. cbn [mbind res_bind].
  destruct (empty_table (K := K) (V := V) hash_of n) as (_ & Eocc & Eab & _).
  destruct (relocate_all (ba_buckets ba) h (mkBucketArray (replicate n null) (ba_epoch ba + 1) 0)) as (h' & ba' & -> & M & He & Ht & Hc).
  - cbn [ba_buckets]. split; rewrite ?new_cells.
    + intros p [i Hi]%list_elem_of_lookup. by eapply Hok.
    + by apply new_array_ok.
    + done.
    + apply omap_nodup. intros i j p q k Hi Hj Hp Hq.
      assert (Hslot : forall i p, ba_buckets ba !! i = Some p -> fst <$> cell_of h p = Some k ->
        slot_of hash_of (cells_of h (ba_buckets ba)) k = Some i).
      { intros i' p' Hi' Hp'. destruct (cell_of h p') as [[k' w]|] eqn:Hc'; [|done]. cbn in Hp'. injection Hp' as ->.
        apply (ar_table _ _ Hok i' k w). rewrite cells_lookup, Hi'. cbn. by rewrite Hc'. }
      pose proof (Hslot _ _ Hi Hp). pose proof (Hslot _ _ Hj Hq). congruence.
    + intros a b Hb. right. destruct (Hown a b Hb) as (i & p & Hi & Hp). exists p. split; [by eapply list_elem_of_lookup_2|done].
    + rewrite Eocc, length_replicate. lia.
  - cbn [ba_buckets] in *. rewrite new_cells in Hc. exists h', ba'. split; [done|]. split; [apply M|]. split.
    { intros a b Hb. destruct (mv_owned _ _ _ M a b Hb) as [?|(p & Hp & _)]; [done|by apply elem_of_nil in Hp]. }
    done.
Qed.
End proofs.
