(* ===== verification/HashTable.v ===== *)
(** The concurrent hash table (src/cht/map/bucket_array_ref.rs, src/cht/segment.rs)
    on top of the bucket arrays, one operation at a time.  [HashMap] splits the
    keys over segments by the high bits of their hash; each segment has its bucket
    array, allocated on first use, its length, and (a part of the model) the heap
    its buckets live in. *)
From S2P Require Import Prelude Probing Bucket.

Section ref.
Context {K V : Type} `{EqDecision K}.
Variable hash_of : K -> Z.
#[local] Notation bheap := (gmap positive (Bucket K V)).

Record Segment := mkSegment { seg_array : option BucketArray; seg_len : Z; seg_heap : bheap }.
Implicit Types (h : bheap) (ba : BucketArray) (seg : Segment).

(** [BucketArrayRef::get] *)
Definition array_ref seg : res BucketArray :=
  match seg_array seg with Some ba => Ok ba | None => default_array end.
(** The segment when an operation ends: [swing] has installed the array. *)
Definition swing h ba (len : Z) : Segment := mkSegment (Some ba) len h.

(** A run of rehashes is short: after two of them nothing is left to do. *)
Definition REHASH_FUEL : nat := 3.

(** The inner [loop] of the operations that write. *)
Fixpoint rehash_as_needed (fuel : nat) h ba (len : Z) : res (bheap * BucketArray) :=
  match fuel with
  | O => Fail Diverged
  | S fuel' =>
      cap ← array_capacity ba;
      let op := rehash_op cap (tombstone_count ba) len in
      if is_skip op then Ok (h, ba)
      else '(h, ba) ← rehash hash_of h ba op; rehash_as_needed fuel' h ba len
  end.

(** The outer [loop]s go around once more when the array turns out to be
    relocated or full. *)
Definition RETRY_FUEL : nat := 2.

Fixpoint get_loop (fuel : nat) h ba (hash : Z) (eq : K -> bool) : res (bheap * BucketArray * option (K * V)) :=
  match fuel with
  | O => Fail Diverged
  | S fuel' =>
      r ← bucket_get h ba hash eq;
      match r with
      | Some p =>
          match sh_ptr p with
          | Some a => b ← bref h a; v ← value_ref b; Ok (h, ba, Some (bk_key b, v))
          | None => Ok (h, ba, None)
          end
      | None => '(h, ba) ← rehash hash_of h ba Expand; get_loop fuel' h ba hash eq
      end
  end.
(** [get_key_value_and_then], with the entry found as its result. *)
Definition seg_get seg (hash : Z) (eq : K -> bool) : res (Segment * option (K * V)) :=
  ba ← array_ref seg;
  '(h, ba, r) ← get_loop RETRY_FUEL (seg_heap seg) ba hash eq;
  Ok (swing h ba (seg_len seg), r).

Fixpoint remove_loop (fuel : nat) h ba (len hash : Z) (eq : K -> bool) (condition : K -> V -> bool)
    : res (Segment * option (K * V)) :=
  match fuel with
  | O => Fail Diverged
  | S fuel' =>
      '(h, ba) ← rehash_as_needed REHASH_FUEL h ba len;
      r ← bucket_remove_if h ba hash eq condition;
      match r with
      | Some (ba, p) =>
          match sh_ptr p with
          | Some a =>
              b ← bref h a;
              v ← value_ref b;
              let ba := mkBucketArray (ba_buckets ba) (ba_epoch ba) (tombstone_count ba + 1) in
              h ← defer_destroy_tombstone h p;
              Ok (swing h ba (len - 1), Some (bk_key b, v))
          | None => Ok (swing h ba len, None)
          end
      | None => '(h, ba) ← rehash hash_of h ba Expand; remove_loop fuel' h ba len hash eq condition
      end
  end.
(** [remove_entry_if_and] *)
Definition seg_remove_entry_if seg (hash : Z) (eq : K -> bool) (condition : K -> V -> bool)
    : res (Segment * option (K * V)) :=
  ba ← array_ref seg;
  remove_loop RETRY_FUEL (seg_heap seg) ba (seg_len seg) hash eq condition.

Fixpoint insert_if_not_present_loop (fuel fails : nat) h ba (len hash : Z) (st : @InsertOrModifyState K V)
    : res (Segment * option (K * V)) :=
  match fuel with
  | O => Fail Diverged
  | S fuel' =>
      '(h, ba) ← rehash_as_needed REHASH_FUEL h ba len;
      r ← bucket_insert_if_not_present fails h ba hash st;
      match r with
      | Some (h, ba, AlreadyPresent p) =>
          a ← expect_some UnwrapNone (sh_ptr p);
          b ← bref h a;
          _ ← assert_that (negb (is_tombstone p));
          v ← value_ref b;
          Ok (swing h ba len, Some (bk_key b, v))
      | Some (h, ba, Inserted) => Ok (swing h ba (len + 1), None)
      | Some (h, ba, ReplacedTombstone p) =>
          _ ← assert_that (is_tombstone p);
          h ← defer_destroy_bucket h p;
          Ok (swing h ba (len + 1), None)
      | None => '(h, ba) ← rehash hash_of h ba Expand; insert_if_not_present_loop fuel' fails h ba len hash st
      end
  end.
(** [insert_if_not_present_and]; [fails] is the number of spurious failures of the
    exchange. *)
Definition seg_insert_if_not_present (fails : nat) seg (key : K) (hash : Z) (on_insert : unit -> V)
    : res (Segment * option (K * V)) :=
  ba ← array_ref seg;
  insert_if_not_present_loop RETRY_FUEL fails (seg_heap seg) ba (seg_len seg) hash (New key on_insert).

Fixpoint insert_or_modify_loop (fuel fails : nat) h ba (len hash : Z) (st : @InsertOrModifyState K V) (on_modify : K -> V -> V)
    : res (Segment * option (K * V)) :=
  match fuel with
  | O => Fail Diverged
  | S fuel' =>
      '(h, ba) ← rehash_as_needed REHASH_FUEL h ba len;
      r ← bucket_insert_or_modify fails h ba hash st on_modify;
      match r with
      | Some (h, ba, p) =>
          match sh_ptr p with
          | Some a =>
              b ← bref h a;
              '(len, old) ← (if is_tombstone p then Ok (len + 1, None)
                             else v ← value_ref b; Ok (len, Some (bk_key b, v)));
              h ← defer_destroy_bucket h p;
              Ok (swing h ba len, old)
          | None => Ok (swing h ba (len + 1), None)
          end
      | None => '(h, ba) ← rehash hash_of h ba Expand; insert_or_modify_loop fuel' fails h ba len hash st on_modify
      end
  end.
(** [insert_with_or_modify_entry_and] *)
Definition seg_insert_or_modify (fails : nat) seg (key : K) (hash : Z) (on_insert : unit -> V) (on_modify : K -> V -> V)
    : res (Segment * option (K * V)) :=
  ba ← array_ref seg;
  insert_or_modify_loop RETRY_FUEL fails (seg_heap seg) ba (seg_len seg) hash (New key on_insert) on_modify.

Fixpoint keys_loop (fuel : nat) h ba : res (bheap * BucketArray * list K) :=
  match fuel with
  | O => Fail Diverged
  | S fuel' =>
      r ← bucket_keys h ba;
      match r with
      | Some ks => Ok (h, ba, ks)
      | None => '(h, ba) ← rehash hash_of h ba Expand; keys_loop fuel' h ba
      end
  end.
Definition seg_keys seg : res (Segment * list K) :=
  ba ← array_ref seg;
  '(h, ba, ks) ← keys_loop RETRY_FUEL (seg_heap seg) ba;
  Ok (swing h ba (seg_len seg), ks).

(** ** The segmented map *)
Record HashMap := mkHashMap { hm_segments : list Segment; hm_len : Z; segment_shift : Z }.
Implicit Type hm : HashMap.

Definition with_num_segments_capacity (num_segments capacity : Z) : res HashMap :=
  _ ← assert_that (0 <? num_segments);
  actual_num_segments ← checked_next_power_of_two 64 num_segments;
  let shift := 64 - Z.log2 actual_num_segments in
  seg ← (if capacity =? 0 then Ok (mkSegment None 0 ∅)
         else
           twice ← checked_mul 64 capacity 2;
           actual_capacity ← checked_next_power_of_two 64 (twice / actual_num_segments);
           ba ← with_length 0 (Z.to_nat actual_capacity);
           Ok (mkSegment (Some ba) 0 ∅));
  Ok (mkHashMap (replicate (Z.to_nat actual_num_segments) seg) 0 shift).

Definition actual_num_segments hm : nat := length (hm_segments hm).
Definition hm_is_empty hm : bool := hm_len hm =? 0.
Definition segment_index_from_hash hm (hash : Z) : nat :=
  if segment_shift hm =? 64 then O else Z.to_nat (Z.shiftr hash (segment_shift hm)).

(** An operation on the segment of a hash ([bucket_array_ref]). *)
Definition in_segment {A} hm (hash : Z) (f : Segment -> res (Segment * A)) : res (HashMap * A) :=
  let i := segment_index_from_hash hm hash in
  seg ← expect_some OutOfBounds (hm_segments hm !! i);
  '(seg, r) ← f seg;
  Ok (mkHashMap (<[i := seg]> (hm_segments hm)) (hm_len hm) (segment_shift hm), r).
Definition add_len hm (d : Z) : HashMap := mkHashMap (hm_segments hm) (hm_len hm + d) (segment_shift hm).

Definition hm_get_key_value hm (hash : Z) (eq : K -> bool) : res (HashMap * option (K * V)) :=
  in_segment hm hash (fun seg => seg_get seg hash eq).
Definition hm_contains_key hm (hash : Z) (eq : K -> bool) : res (HashMap * bool) :=
  '(hm, r) ← hm_get_key_value hm hash eq; Ok (hm, bool_decide (is_Some r)).
Definition hm_get_key_value_and {T} hm (hash : Z) (eq : K -> bool) (with_entry : K -> V -> T) : res (HashMap * option T) :=
  '(hm, r) ← hm_get_key_value hm hash eq; Ok (hm, option_map (fun kv => with_entry (fst kv) (snd kv)) r).
Definition hm_get hm (hash : Z) (eq : K -> bool) : res (HashMap * option V) := hm_get_key_value_and hm hash eq (fun _ v => v).
Definition hm_remove_entry_if hm (hash : Z) (eq : K -> bool) (condition : K -> V -> bool) : res (HashMap * option (K * V)) :=
  '(hm, r) ← in_segment hm hash (fun seg => seg_remove_entry_if seg hash eq condition);
  Ok (if bool_decide (is_Some r) then add_len hm (-1) else hm, r).
Definition hm_remove hm (hash : Z) (eq : K -> bool) : res (HashMap * option V) :=
  '(hm, r) ← hm_remove_entry_if hm hash eq (fun _ _ => true); Ok (hm, option_map snd r).
Definition hm_remove_entry hm (hash : Z) (eq : K -> bool) : res (HashMap * option (K * V)) :=
  hm_remove_entry_if hm hash eq (fun _ _ => true).
Definition hm_remove_if hm (hash : Z) (eq : K -> bool) (condition : K -> V -> bool) : res (HashMap * option V) :=
  '(hm, r) ← hm_remove_entry_if hm hash eq condition; Ok (hm, option_map snd r).
Definition hm_insert_or_modify (fails : nat) hm (key : K) (hash : Z) (on_insert : unit -> V) (on_modify : K -> V -> V)
    : res (HashMap * option (K * V)) :=
  '(hm, r) ← in_segment hm hash (fun seg => seg_insert_or_modify fails seg key hash on_insert on_modify);
  Ok (if bool_decide (is_Some r) then hm else add_len hm 1, r).
Definition hm_insert_with_or_modify (fails : nat) hm (key : K) (hash : Z) (on_insert : unit -> V) (on_modify : K -> V -> V)
    : res (HashMap * option V) :=
  '(hm, r) ← hm_insert_or_modify fails hm key hash on_insert on_modify; Ok (hm, option_map snd r).
(** [insert_entry_and] *)
Definition hm_insert_entry (fails : nat) hm (key : K) (hash : Z) (v : V) : res (HashMap * option (K * V)) :=
  hm_insert_or_modify fails hm key hash (fun _ => v) (fun _ v => v).
Definition hm_insert_if_not_present (fails : nat) hm (key : K) (hash : Z) (v : V) : res (HashMap * option V) :=
  '(hm, r) ← in_segment hm hash (fun seg => seg_insert_if_not_present fails seg key hash (fun _ => v));
  Ok (if bool_decide (is_Some r) then hm else add_len hm 1, option_map snd r).
Definition hm_keys hm (segment : nat) : res (HashMap * option (list K)) :=
  match hm_segments hm !! segment with
  | None => Ok (hm, None)
  | Some seg =>
      '(seg, ks) ← seg_keys seg;
      Ok (mkHashMap (<[segment := seg]> (hm_segments hm)) (hm_len hm) (segment_shift hm), Some ks)
  end.

(** [Drop] of a segment: the buckets of its array, tombstones included; the heap
    that is left. *)
Definition drop_bucket h (p : Shared) : res bheap :=
  if is_null p then Ok h
  else if is_tombstone p then a ← expect_some Dangling (sh_ptr p); bfree h a
  else defer_destroy_bucket h p.
Definition drop_segment seg : res bheap :=
  match seg_array seg with
  | Some ba => foldM drop_bucket (seg_heap seg) (ba_buckets ba)
  | None => Ok (seg_heap seg)
  end.
Definition drop_map hm : res (list bheap) :=
  foldM (fun acc seg => h ← drop_segment seg; Ok (acc ++ [h])) [] (hm_segments hm).
End ref.
