(* ===== verification/HashTableMap.v ===== *)
(** The hash table implements a finite map: from an empty table, any sequence of
    operations gives the answers of the map and never faults, the rehashes it
    triggers included; dropping it frees every bucket. *)
From S2P Require Import Prelude Probing Bucket BucketTable HashTable.

(** ** The load of an array *)

(** After an operation: at most one key and one tombstone over the thresholds. *)
Record load_ok (n : nat) (tombs len : Z) : Prop := {
  lo_tombs : 0 <= tombs <= 25000;
  lo_ratio : tombs <= 1 \/ (tombs - 1) * 2 ^ 55 < 3602879701896397 * (Z.of_nat n / 2 * 2);
  lo_len : (len - 1) * 2 ^ 53 <= 6305039478318694 * (Z.of_nat n / 2 * 2)
}.
(** When an operation starts to write. *)
Record load_low (n : nat) (tombs len : Z) : Prop := {
  ll_tombs : 0 <= tombs < 25000;
  ll_ratio : tombs = 0 \/ tombs * 2 ^ 55 < 3602879701896397 * (Z.of_nat n / 2 * 2);
  ll_len : len * 2 ^ 53 <= 6305039478318694 * (Z.of_nat n / 2 * 2)
}.

Lemma power_even n : power_of_two n -> n = 1%nat \/ Z.of_nat n / 2 * 2 = Z.of_nat n.
Proof.
  intros [[|e] ->]; [by left|]. right. rewrite Nat.pow_succ_r'. generalize (2 ^ e)%nat. intros q. div_lia.
Qed.
Lemma power_half n : power_of_two n -> (1 < n)%nat -> power_of_two (n / 2) /\ (n / 2 * 2)%nat = n.
Proof.
  intros [[|e] ->] Hn; [cbn in Hn; lia|]. rewrite Nat.pow_succ_r', Nat.mul_comm, Nat.div_mul by lia. split; [by exists e|done].
Qed.
Lemma power_double n : power_of_two n -> power_of_two (n * 2).
Proof. intros [e ->]. exists (S e). rewrite Nat.pow_succ_r'. lia. Qed.

(** A lightly loaded array has an empty bucket. *)
Lemma low_room n tombs len : power_of_two n -> load_low n tombs len -> len + tombs < Z.of_nat n.
Proof. intros Hn [H1 H2 H3]. pose proof (power_pos n Hn). destruct (power_even n Hn) as [->|E]; [change (Z.of_nat 1 / 2 * 2) with 0 in *; lia|]. rewrite E in *. lia. Qed.

Lemma low_insert n tombs len : load_low n tombs len -> load_ok n tombs (len + 1) /\ load_ok n tombs len.
Proof. intros [H1 H2 H3]. split; split; lia. Qed.
Lemma low_remove n tombs len : load_low n tombs len -> load_ok n (tombs + 1) (len - 1).
Proof. intros [H1 H2 H3]. split; lia. Qed.

(** What [RehashOp::new] decides, and the length it asks for. *)
Lemma rehash_op_cases n tombs len :
  power_of_two n -> load_ok n tombs len -> 0 <= len ->
  match rehash_op (Z.of_nat n / 2) tombs len with
  | Skip => load_low n tombs len
  | op => exists n', new_len op n = Ok n' /\ power_of_two n' /\ len <= Z.of_nat n' /\ load_ok n' 0 len /\
      (tombs = 0 -> load_low n' 0 len)
  end.
Proof.
  intros Hn [H1 H2 H3] Hlen. pose proof (power_pos n Hn) as Hpos.
  assert (Hmid : load_ok n 0 len) by (split; lia).
  assert (Hfit : len <= Z.of_nat n).
  { destruct (power_even n Hn) as [->|E]; [change (Z.of_nat 1 / 2 * 2) with 0 in *; lia|]. rewrite E in H3. lia. }
  unfold rehash_op. destruct ((25000 <=? tombs) || _) eqn:Hb.
  - assert (Ht : tombs <> 0).
    { intros ->. cbn in Hb. discriminate. }
    destruct ((4 * (len - tombs) <? _) && _) eqn:Hs; cbv iota; [|exists n; split; [done|]; split; [done|]; split; [done|]; split; [done|lia]].
    apply andb_true_iff in Hs as [Hs1%Z.ltb_lt Hs2%Z.leb_le].
    assert (H512 : 512 <= Z.of_nat n / 2 * 2) by (change (Z.of_nat BUCKET_ARRAY_DEFAULT_LENGTH) with 128 in Hs2; div_lia).
    assert (H1n : (1 < n)%nat) by div_lia. destruct (power_half n Hn H1n) as [Hh He]. exists (n / 2)%nat. split; [done|]. split; [done|].
    assert (En : Z.of_nat n = 2 * Z.of_nat (n / 2)) by lia. assert (E2 : Z.of_nat n / 2 * 2 = 2 * Z.of_nat (n / 2)) by (rewrite En; div_lia).
    rewrite E2 in *. destruct (power_even _ Hh) as [E|E]; [lia|]. split; [lia|]. split; [|done]. split; [lia..|].
    rewrite E. destruct (Z.le_gt_cases (Z.of_nat (n / 2)) 200000); lia.
  - apply orb_false_iff in Hb as [Hb1%Z.leb_gt Hb2]. apply andb_false_iff in Hb2.
    assert (Hr : tombs = 0 \/ tombs * 2 ^ 55 < 3602879701896397 * (Z.of_nat n / 2 * 2)).
    { destruct Hb2 as [?%Z.ltb_ge|?%Z.leb_gt]; [left|right]; lia. }
    destruct (Z.ltb_spec (6305039478318694 * (Z.of_nat n / 2 * 2)) (len * 2 ^ 53)) as [Hl|Hl]; [|split; lia].
    cbv iota. exists (n * 2)%nat. pose proof (power_double n Hn) as Hd. split; [done|]. split; [done|]. split; [lia|].
    assert (E : Z.of_nat (n * 2) / 2 * 2 = Z.of_nat n * 2) by (destruct (power_even (n * 2) Hd); lia).
    assert (Hlow : load_low (n * 2) 0 len); [|split; [exact (proj2 (low_insert _ _ _ Hlow))|done]].
    split; [lia..|]. rewrite E. destruct (power_even n Hn) as [->|E']; [change (Z.of_nat 1 / 2 * 2) with 0 in *; lia|].
    rewrite E' in H3. lia.
Qed.

Lemma low_skip n tombs len : load_low n tombs len -> rehash_op (Z.of_nat n / 2) tombs len = Skip.
Proof.
  intros [H1 H2 H3]. unfold rehash_op. rewrite (proj2 (Z.leb_gt _ _)) by lia. cbn [orb].
  destruct (Z.ltb_spec 0 tombs); cbn [andb]; [rewrite (proj2 (Z.leb_gt _ _)) by lia|]; by rewrite (proj2 (Z.ltb_ge _ _)) by lia.
Qed.

Section map.
Context {K V : Type} `{Countable K}.
Variable hash_of : K -> Z.
#[local] Notation bheap := (gmap positive (Bucket K V)).
#[local] Notation cells := (list (option (K * option V))).
Implicit Types (h : bheap) (ba : BucketArray) (cs : cells) (m : gmap K V) (k : K) (v : V) (len : Z).

(** The cells hold the bindings of [m]. *)
Definition represents cs m : Prop := forall k, lookup_cell hash_of cs k = m !! k.

Lemma represents_live cs m : table_ok hash_of cs -> represents cs m -> live cs ≡ₚ map_to_list m.
Proof.
  intros Hok Hm. apply NoDup_Permutation; [by eapply NoDup_fmap_1, live_nodup|apply NoDup_map_to_list|].
  intros [k v]. by rewrite <- (lookup_live hash_of cs k v Hok), elem_of_map_to_list, Hm.
Qed.

(** The state between two operations. *)
Record holds h ba len m : Prop := {
  hd_array : array_ok hash_of h (ba_buckets ba);
  hd_owns : owns h (ba_buckets ba);
  hd_map : represents (cells_of h (ba_buckets ba)) m;
  hd_len : len = Z.of_nat (size m);
  hd_occ : Z.of_nat (occupied (cells_of h (ba_buckets ba))) <= len + tombstone_count ba;
  hd_load : load_ok (array_len ba) (tombstone_count ba) len
}.
(** When the operation starts to write. *)
Definition ready h ba len m : Prop := holds h ba len m /\ load_low (array_len ba) (tombstone_count ba) len.

Lemma holds_live h ba len m : holds h ba len m -> Z.of_nat (length (live (cells_of h (ba_buckets ba)))) = len.
Proof.
  intros Hh. rewrite (Permutation_length (represents_live _ m (ar_table _ _ _ (hd_array _ _ _ _ Hh)) (hd_map _ _ _ _ Hh))).
  rewrite length_map_to_list. by rewrite (hd_len _ _ _ _ Hh).
Qed.

(** A rehash to a length with room keeps the bindings. *)
Lemma rehash_holds h ba len m op n :
  holds h ba len m -> new_len op (array_len ba) = Ok n -> power_of_two n -> len <= Z.of_nat n -> load_ok n 0 len ->
  exists h' ba', rehash hash_of h ba op = Ok (h', ba') /\ holds h' ba' len m /\ array_len ba' = n /\ tombstone_count ba' = 0.
Proof.
  intros Hh Hop Hn Hle Hload. pose proof (holds_live _ _ _ _ Hh) as Hlive. destruct Hh as [Ha Ho Hm Hlen Hocc _].
  destruct (rehash_ok hash_of h ba op n Ha Ho Hop Hn ltac:(lia)) as (h' & ba' & E & Ha' & Ho' & _ & Ht & Hc).
  destruct (rehashed_ok hash_of _ n (ar_table _ _ _ Ha) Hn ltac:(lia)) as (_ & Hl' & Hocc' & Hlook). rewrite <- Hc in *.
  rewrite cells_length in Hl'. exists h', ba'. split; [done|]. split; [|done].
  split; [done|done| |done|rewrite Hocc', Ht; lia|unfold array_len; by rewrite Hl', Ht].
  intros k. by rewrite Hlook.
Qed.

Lemma capacity_ok h ba : array_ok hash_of h (ba_buckets ba) -> array_capacity ba = Ok (Z.of_nat (array_len ba) / 2).
Proof. intros Ha. unfold array_capacity, array_len. by rewrite (proj2 (power_of_two_spec _) (ar_power _ _ _ Ha)). Qed.

(** One turn of [rehash_as_needed]. *)
Lemma rehash_turn h ba len m fuel : holds h ba len m ->
  (ready h ba len m /\ rehash_as_needed hash_of (S fuel) h ba len = Ok (h, ba)) \/
  exists h' ba', rehash_as_needed hash_of (S fuel) h ba len = rehash_as_needed hash_of fuel h' ba' len /\
    holds h' ba' len m /\ tombstone_count ba' = 0 /\ (tombstone_count ba = 0 -> ready h' ba' len m).
Proof.
  intros Hh. cbn [rehash_as_needed]. rewrite (capacity_ok h ba (hd_array _ _ _ _ Hh)). cbn [mbind res_bind].
  pose proof (rehash_op_cases (array_len ba) (tombstone_count ba) len (ar_power _ _ _ (hd_array _ _ _ _ Hh)) (hd_load _ _ _ _ Hh)
    ltac:(rewrite (hd_len _ _ _ _ Hh); lia)) as Hc.
  destruct (is_skip (rehash_op (Z.of_nat (array_len ba) / 2) (tombstone_count ba) len)) eqn:Hs.
  { left. destruct rehash_op; try done. }
  right. assert (Hc' : exists n', new_len (rehash_op (Z.of_nat (array_len ba) / 2) (tombstone_count ba) len) (array_len ba) = Ok n' /\
    power_of_two n' /\ len <= Z.of_nat n' /\ load_ok n' 0 len /\ (tombstone_count ba = 0 -> load_low n' 0 len)) by (destruct rehash_op; done).
  destruct Hc' as (n & Hn & Hp & Hle & Hl & Hlow). destruct (rehash_holds h ba len m _ n Hh Hn Hp Hle Hl) as (h' & ba' & E & Hh' & Hlen & Ht).
  exists h', ba'. rewrite E. split; [done|]. split; [done|]. split; [done|]. intros Ht0. split; [done|]. rewrite Hlen, Ht. auto.
Qed.

Lemma rehash_as_needed_ok h ba len m : holds h ba len m ->
  exists h' ba', rehash_as_needed hash_of REHASH_FUEL h ba len = Ok (h', ba') /\ ready h' ba' len m.
Proof.
  intros Hh. unfold REHASH_FUEL. destruct (rehash_turn h ba len m 2 Hh) as [[Hr E]|(h1 & ba1 & E1 & Hh1 & Ht1 & _)]; [eauto|].
  destruct (rehash_turn h1 ba1 len m 1 Hh1) as [[Hr E]|(h2 & ba2 & E2 & Hh2 & Ht2 & Hr2)]; [exists h1, ba1; by rewrite E1|].
  specialize (Hr2 Ht1). destruct Hr2 as [_ Hlow].
  exists h2, ba2. split; [|by split]. rewrite E1, E2. cbn [rehash_as_needed]. rewrite (capacity_ok h2 ba2 (hd_array _ _ _ _ Hh2)).
  cbn [mbind res_bind]. by rewrite (low_skip _ _ _ Hlow).
Qed.

(** ** One operation on one array *)

Lemma slot_or_full h ba len m k : holds h ba len m ->
  match slot_of hash_of (cells_of h (ba_buckets ba)) k with
  | None => m !! k = None
  | Some i => exists p, ba_buckets ba !! i = Some p /\
      ((p = null /\ m !! k = None) \/
       exists a b, sh_ptr p = Some a /\ h !! a = Some b /\ bk_key b = k /\ (is_tombstone p = true <-> maybe_value b = None) /\
         m !! k = maybe_value b)
  end.
Proof.
  intros Hh. pose proof (hd_map _ _ _ _ Hh k) as Hm. destruct (slot_of hash_of _ k) as [i|] eqn:Hs.
  - rewrite <- Hm. exact (slot_bucket hash_of h _ k i (hd_array _ _ _ _ Hh) Hs).
  - rewrite <- Hm. unfold lookup_cell. by rewrite Hs.
Qed.

Lemma ready_slot h ba len m k : ready h ba len m ->
  exists i p, slot_of hash_of (cells_of h (ba_buckets ba)) k = Some i /\ ba_buckets ba !! i = Some p /\
      ((p = null /\ m !! k = None) \/
       exists a b, sh_ptr p = Some a /\ h !! a = Some b /\ bk_key b = k /\ (is_tombstone p = true <-> maybe_value b = None) /\
         m !! k = maybe_value b).
Proof.
  intros [Hh Hlow]. pose proof (low_room _ _ _ (ar_power _ _ _ (hd_array _ _ _ _ Hh)) Hlow) as Hroom. pose proof (hd_occ _ _ _ _ Hh) as Hocc.
  pose proof (slot_or_full h ba len m k Hh) as Hs.
  destruct (slot_ends hash_of (cells_of h (ba_buckets ba)) k) as [i Hi].
  - rewrite cells_length. apply (hd_array _ _ _ _ Hh).
  - rewrite cells_length. unfold array_len in Hroom. lia.
  - rewrite Hi in Hs. destruct Hs as (p & Hp & Hs). eauto 10.
Qed.

(** Making [k] map to [v] through bucket [i]. *)
Definition published h ba (i : nat) p k v : bheap * BucketArray :=
  let a := fresh (dom h) in
  (without (<[a := mkBucket k (Some v)]> h) p, with_buckets ba (<[i := mkShared (Some a) 0]> (ba_buckets ba))).

Lemma publish_holds h ba len m k v i p :
  ready h ba len m -> slot_of hash_of (cells_of h (ba_buckets ba)) k = Some i -> ba_buckets ba !! i = Some p ->
  let '(h', ba') := published h ba i p k v in
  holds h' ba' (len + (if m !! k then 0 else 1)) (<[k := v]> m) /\
  (p <> null -> defer_destroy_bucket (<[fresh (dom h) := mkBucket k (Some v)]> h) p = Ok h').
Proof.
  intros [Hh Hlow] Hi Hp. destruct Hh as [Ha Ho Hm Hlen Hocc _].
  destruct (publish_ok hash_of h (ba_buckets ba) i p k v Ha Ho Hi Hp) as (Ha' & Ho' & Hc & Hl & Hd). split; [|done].
  destruct (low_insert _ _ _ Hlow) as [Hl1 Hl0]. split; cbn [ba_buckets with_buckets tombstone_count]; [done|done| | | |].
  - intros k'. rewrite Hl, (Hm k'), lookup_insert. repeat case_decide; congruence.
  - rewrite map_size_insert. destruct (m !! k); cbn; lia.
  - rewrite Hc. destruct (slot_some _ _ _ _ Hi) as (_ & c & Hci & Hst). rewrite (occupied_write _ _ _ _ Hci).
    destruct c as [kw|]; [destruct (m !! k); lia|]. assert (Hno : m !! k = None); [|rewrite Hno; lia].
    rewrite <- (Hm k). unfold lookup_cell. rewrite Hi. cbn. by rewrite Hci.
  - unfold array_len in *. cbn [ba_buckets with_buckets]. rewrite length_insert. destruct (m !! k); [by rewrite Z.add_0_r|done].
Qed.
(** Marking the bucket of [k] a tombstone. *)
Lemma tombstone_holds h ba len m k v i p a :
  ready h ba len m -> slot_of hash_of (cells_of h (ba_buckets ba)) k = Some i -> ba_buckets ba !! i = Some p ->
  sh_ptr p = Some a -> h !! a = Some (mkBucket k (Some v)) -> m !! k = Some v ->
  let p' := with_tag p TOMBSTONE_TAG in
  let h' := <[a := mkBucket k None]> h in
  defer_destroy_tombstone h p' = Ok h' /\
  holds h' (mkBucketArray (<[i := p']> (ba_buckets ba)) (ba_epoch ba) (tombstone_count ba + 1)) (len - 1) (delete k m).
Proof.
  intros [Hh Hlow] Hi Hp Ha Hb Hmk. destruct Hh as [Har Ho Hm Hlen Hocc _].
  destruct (tombstone_ok hash_of h (ba_buckets ba) i p a k v Har Ho Hi Hp Ha Hb) as (Hd & Ha' & Ho' & Hc & Hl). split; [done|].
  split; cbn [ba_buckets tombstone_count]; [done|done| | | |].
  - intros k'. rewrite Hl, (Hm k'), lookup_delete. repeat case_decide; congruence.
  - rewrite map_size_delete_Some by eauto. assert (0 < size m)%nat; [|lia]. apply Nat.neq_0_lt_0. intros H0%map_size_empty_inv. by subst m.
  - rewrite Hc. destruct (slot_some _ _ _ _ Hi) as (_ & c & Hci & Hst). rewrite (occupied_write _ _ _ _ Hci).
    destruct c as [kw|]; [lia|]. rewrite cells_lookup, Hp in Hci. cbn in Hci. unfold cell_of in Hci. rewrite Ha in Hci. cbn in Hci.
    by rewrite Hb in Hci.
  - unfold array_len in *. cbn [ba_buckets]. rewrite length_insert. by apply low_remove.
Qed.

(** The attempts of an insertion end with the value asked for. *)
Lemma attempt_insert_ok fails k (f : unit -> V) : attempt_insert fails (New k f) = Ok (mkBucket k (Some (f tt))).
Proof. destruct fails as [|n]; [done|]. cbn. generalize (mkBucket k (Some (f tt))). induction n as [|n IH]; intros b; [done|]. cbn. apply IH. Qed.
Lemma attempt_modify_ok fails k (f : unit -> V) v : attempt_modify fails (New k f) v = Ok (mkBucket k (Some v)).
Proof.
  destruct fails as [|n]; [done|]. cbn. generalize (Function_ (V := V) f). induction n as [|n IH]; intros vf; [done|]. cbn. apply IH.
Qed.

(** ** Segments *)
Definition seg_ok (seg : Segment) m : Prop :=
  match seg_array seg with
  | Some ba => holds (seg_heap seg) ba (seg_len seg) m
  | None => m = ∅ /\ seg_len seg = 0 /\ seg_heap seg = ∅
  end.

Lemma fresh_holds n : power_of_two n -> holds ∅ (mkBucketArray (replicate n null) 0 0) 0 ∅.
Proof.
  intros Hn. destruct (empty_table hash_of (K := K) (V := V) n) as (Ht & Hocc & _ & Hl). split; cbn [ba_buckets tombstone_count].
  - by apply new_array_ok.
  - by intros a b.
  - intros k. by rewrite new_cells, Hl.
  - by rewrite map_size_empty.
  - rewrite new_cells, Hocc. done.
  - unfold array_len. cbn. rewrite length_replicate. pose proof (power_pos n Hn). split; div_lia.
Qed.

Lemma array_ref_ok (seg : Segment) m : seg_ok seg m -> exists ba, array_ref seg = Ok ba /\ holds (seg_heap seg) ba (seg_len seg) m.
Proof.
  unfold seg_ok, array_ref. destruct (seg_array seg) as [ba|]; [eauto|]. intros (-> & -> & ->).
  assert (Hp : power_of_two BUCKET_ARRAY_DEFAULT_LENGTH) by (by exists 7%nat).
  eexists. split; [unfold default_array; by rewrite with_length_ok|]. by apply fresh_holds.
Qed.

(** A write to the heap of another bucket is not seen by a pointer. *)
Lemma fresh_other h a b x : h !! a = Some b -> <[fresh (dom h) := x]> h !! a = Some b.
Proof. intros Ha. rewrite lookup_insert_ne; [done|]. intros <-. apply (is_fresh (dom h)), elem_of_dom. eauto. Qed.

Lemma value_of_live (b : Bucket K V) : (false = true <-> maybe_value b = None) -> exists v, maybe_value b = Some v /\ value_ref b = Ok v.
Proof. unfold value_ref. intros Ht. destruct (maybe_value b) as [v|]; [eauto|]. discriminate (proj2 Ht eq_refl). Qed.

#[local] Notation is_key k := (fun k' => bool_decide (k' = k)).

Lemma seg_get_ok (seg : Segment) m k : seg_ok seg m ->
  exists seg', seg_get hash_of seg (hash_of k) (is_key k) = Ok (seg', pair k <$> m !! k) /\ seg_ok seg' m.
Proof.
  intros Hs. destruct (array_ref_ok seg m Hs) as (ba & E & Hh). unfold seg_get. rewrite E. cbn [mbind res_bind].
  exists (swing (seg_heap seg) ba (seg_len seg)). split; [|done]. unfold RETRY_FUEL. cbn [get_loop]. unfold bucket_get, array_len.
  rewrite (array_search hash_of _ _ k) by (apply Hh || done). pose proof (slot_or_full _ _ _ _ k Hh) as Hsl.
  destruct (slot_of _ _ k) as [i|]; [|by rewrite Hsl]. destruct Hsl as (p & Hp & [[-> Hm]|(a & b & Ha & Hb & Hk & Ht & Hm)]).
  - rewrite Hp, Hm. done.
  - rewrite Hp, Ha. cbn. rewrite Hb. destruct (is_tombstone p) eqn:Hto; cbn.
    + rewrite Hm, (proj1 Ht eq_refl). done.
    + rewrite Ha. cbn. unfold bref. rewrite Hb. cbn. destruct (value_of_live b Ht) as (v & Hv & Ev). by rewrite Hm, Ev, Hv, Hk.
Qed.

Lemma seg_insert_or_modify_ok fails (seg : Segment) m k (f : unit -> V) (g : K -> V -> V) : seg_ok seg m ->
  exists seg', seg_insert_or_modify hash_of fails seg k (hash_of k) f g = Ok (seg', pair k <$> m !! k) /\
    seg_ok seg' (<[k := match m !! k with Some v => g k v | None => f tt end]> m).
Proof.
  intros Hs. destruct (array_ref_ok seg m Hs) as (ba0 & E0 & Hh0). unfold seg_insert_or_modify. rewrite E0. cbn [mbind res_bind].
  destruct (rehash_as_needed_ok _ _ _ _ Hh0) as (h & ba & E & Hr). unfold RETRY_FUEL. cbn [insert_or_modify_loop]. rewrite E. cbn [mbind res_bind].
  unfold bucket_insert_or_modify, array_len. cbn [state_key]. rewrite (array_search hash_of _ _ k) by (apply Hr || done).
  destruct (ready_slot _ _ _ _ k Hr) as (i & p & Hi & Hp & Hcase). rewrite Hi, Hp.
  set (v' := match m !! k with Some v => g k v | None => f tt end).
  pose proof (publish_holds h ba _ m k v' i p Hr Hi Hp) as Hpub. cbn [published] in Hpub. destruct Hpub as [Hh' Hd].
  destruct Hcase as [[-> Hm]|(a & b & Ha & Hb & Hk & Ht & Hm)].
  - cbn. rewrite attempt_insert_ok. cbn. rewrite Hm. subst v'. rewrite Hm in *. eexists. split; [done|]. exact Hh'.
  - rewrite Ha. cbn [mbind option_bind]. rewrite Hb. assert (Hnn : p <> null) by (intros ->; done).
    destruct (is_tombstone p) eqn:Hto.
    + rewrite (proj1 Ht eq_refl) in Hm. subst v'. rewrite Hm in *. rewrite attempt_insert_ok. cbn [mbind res_bind publish balloc]. rewrite Ha.
      unfold bref at 1. rewrite (fresh_other _ _ _ _ Hb). cbn [expect_some mbind res_bind]. rewrite Hto. cbn [mbind res_bind].
      rewrite (Hd Hnn). eexists. split; [done|]. exact Hh'.
    + destruct (value_of_live b Ht) as (v & Hv & Ev). rewrite Hv in Hm. subst v'. rewrite Hm in *.
      rewrite Ev. cbn [mbind res_bind]. rewrite attempt_modify_ok, Hk. cbn [mbind res_bind publish balloc]. rewrite Ha.
      unfold bref at 1. rewrite (fresh_other _ _ _ _ Hb). cbn [expect_some mbind res_bind]. rewrite Hto, Ev. cbn [mbind res_bind].
      rewrite (Hd Hnn), Hk. eexists. split; [done|]. rewrite Z.add_0_r in Hh'. exact Hh'.
Qed.

Lemma seg_insert_if_not_present_ok fails (seg : Segment) m k (f : unit -> V) : seg_ok seg m ->
  exists seg', seg_insert_if_not_present hash_of fails seg k (hash_of k) f = Ok (seg', pair k <$> m !! k) /\
    seg_ok seg' (match m !! k with Some _ => m | None => <[k := f tt]> m end).
Proof.
  intros Hs. destruct (array_ref_ok seg m Hs) as (ba0 & E0 & Hh0). unfold seg_insert_if_not_present. rewrite E0. cbn [mbind res_bind].
  destruct (rehash_as_needed_ok _ _ _ _ Hh0) as (h & ba & E & Hr). unfold RETRY_FUEL. cbn [insert_if_not_present_loop]. rewrite E. cbn [mbind res_bind].
  unfold bucket_insert_if_not_present, array_len. cbn [state_key]. rewrite (array_search hash_of _ _ k) by (apply Hr || done).
  destruct (ready_slot _ _ _ _ k Hr) as (i & p & Hi & Hp & Hcase). rewrite Hi, Hp.
  pose proof (publish_holds h ba _ m k (f tt) i p Hr Hi Hp) as Hpub. cbn [published] in Hpub. destruct Hpub as [Hh' Hd].
  destruct Hcase as [[-> Hm]|(a & b & Ha & Hb & Hk & Ht & Hm)].
  - cbn. rewrite attempt_insert_ok. cbn. rewrite Hm in *. eexists. split; [done|]. exact Hh'.
  - rewrite Ha. cbn [mbind option_bind]. rewrite Hb. assert (Hnn : p <> null) by (intros ->; done).
    destruct (is_tombstone p) eqn:Hto.
    + rewrite (proj1 Ht eq_refl) in Hm. rewrite Hm in *. rewrite attempt_insert_ok. cbn [mbind res_bind publish balloc].
      rewrite Hto. cbn [assert_that mbind res_bind]. rewrite (Hd Hnn). eexists. split; [done|]. exact Hh'.
    + destruct (value_of_live b Ht) as (v & Hv & Ev). rewrite Hv in Hm. rewrite Hm in *.
      cbn [mbind res_bind]. rewrite Ha. cbn [expect_some mbind res_bind]. unfold bref. rewrite Hb. cbn [expect_some mbind res_bind].
      rewrite Hto. cbn [negb assert_that mbind res_bind]. rewrite Ev, <- Hk. cbn [mbind res_bind]. eexists. split; [done|]. apply Hr.
Qed.

Lemma seg_remove_entry_if_ok (seg : Segment) m k (cond : K -> V -> bool) : seg_ok seg m ->
  let hit := match m !! k with Some v => cond k v | None => false end in
  exists seg', seg_remove_entry_if hash_of seg (hash_of k) (is_key k) cond = Ok (seg', if hit then pair k <$> m !! k else None) /\
    seg_ok seg' (if hit then delete k m else m).
Proof.
  intros Hs hit. destruct (array_ref_ok seg m Hs) as (ba0 & E0 & Hh0). unfold seg_remove_entry_if. rewrite E0. cbn [mbind res_bind].
  destruct (rehash_as_needed_ok _ _ _ _ Hh0) as (h & ba & E & Hr). unfold RETRY_FUEL. cbn [remove_loop]. rewrite E. cbn [mbind res_bind].
  unfold bucket_remove_if, array_len. rewrite (array_search hash_of _ _ k) by (apply Hr || done).
  destruct (ready_slot _ _ _ _ k Hr) as (i & p & Hi & Hp & Hcase). rewrite Hi, Hp. destruct Hr as [Hh Hlow].
  destruct Hcase as [[-> Hm]|(a & b & Ha & Hb & Hk & Ht & Hm)].
  - cbn. subst hit. rewrite Hm. eexists. split; [done|]. exact Hh.
  - rewrite Ha. cbn [mbind option_bind]. rewrite Hb. destruct (is_tombstone p) eqn:Hto.
    + rewrite (proj1 Ht eq_refl) in Hm. subst hit. rewrite Hm. eexists. split; [done|]. exact Hh.
    + destruct (value_of_live b Ht) as (v & Hv & Ev). rewrite Hv in Hm. subst hit. rewrite Ev. cbn [mbind res_bind]. rewrite Hm, Hk.
      destruct (cond k v) eqn:Hc; [|eexists; split; [done|]; exact Hh].
      assert (Hb' : h !! a = Some (mkBucket k (Some v))) by (destruct b; cbn in *; congruence).
      destruct (tombstone_holds h ba _ m k v i p a (conj Hh Hlow) Hi Hp Ha Hb' Hm) as [Hd Hh'].
      cbn [mbind res_bind sh_ptr with_tag]. rewrite Ha. unfold bref. rewrite Hb'. cbn [expect_some mbind res_bind value_ref maybe_value bk_key].
      rewrite Hd. eexists. split; [done|]. exact Hh'.
Qed.

Lemma bucket_keys_ok h bs epoch tombs : (forall p, p ∈ bs -> ptr_ok h p) ->
  bucket_keys h (mkBucketArray bs epoch tombs) = Ok (Some (live (cells_of h bs)).*1).
Proof.
  intros Hok. unfold bucket_keys. cbn [ba_buckets]. set (f := fun acc p => _). change (live (cells_of h bs)).*1 with ([] ++ (live (cells_of h bs)).*1).
  generalize (@nil K). induction bs as [|p bs IH]; intros acc; cbn [foldM]; [by rewrite app_nil_r|].
  specialize (IH (fun q Hq => Hok q (list_elem_of_further _ _ _ Hq))). destruct (Hok p (list_elem_of_here _ _)) as [Hs Hn Hb].
  rewrite live_cons. unfold f at 2; cbv beta iota. rewrite Hs. unfold cell_of. destruct (sh_ptr p) as [a|] eqn:Ha; [|cbn; apply IH].
  destruct (Hb a eq_refl) as (b & Eb & Ht). unfold bref, live_of. rewrite Eb. cbn [expect_some mbind res_bind option_bind snd fst]. rewrite Eb. cbn [mbind option_bind snd fst].
  destruct (is_tombstone p) eqn:Hto.
  - rewrite (proj1 Ht eq_refl). cbn. apply IH.
  - destruct (value_of_live b Ht) as (v & Hv & _). rewrite Hv. cbn. rewrite IH, <- app_assoc. done.
Qed.

Lemma seg_keys_ok (seg : Segment) m : seg_ok seg m ->
  exists seg' ks, seg_keys hash_of seg = Ok (seg', ks) /\ ks ≡ₚ (map_to_list m).*1 /\ seg_ok seg' m.
Proof.
  intros Hs. destruct (array_ref_ok seg m Hs) as ([bs epoch tombs] & E & Hh). unfold seg_keys. rewrite E. cbn [mbind res_bind].
  unfold RETRY_FUEL. cbn [keys_loop]. rewrite bucket_keys_ok; [|intros p [i Hi]%list_elem_of_lookup; by eapply (ar_ptrs _ _ _ (hd_array _ _ _ _ Hh))].
  eexists _, _. split; [done|]. split; [|exact Hh]. apply fmap_Permutation. exact (represents_live _ m (ar_table _ _ _ (hd_array _ _ _ _ Hh)) (hd_map _ _ _ _ Hh)).
Qed.

(** ** Dropping a segment *)
Lemma drop_bucket_ok h p : ptr_ok h p -> drop_bucket h p = Ok (without h p).
Proof.
  intros Hp. unfold drop_bucket, is_null, without. destruct (sh_ptr p) as [a|] eqn:Ha; [|by rewrite bool_decide_eq_true_2].
  rewrite bool_decide_eq_false_2 by done. assert (Hnn : p <> null) by (by intros ->).
  pose proof (destroy_bucket h p Hp Hnn) as Hd. unfold without in Hd. rewrite Ha in Hd. destruct (is_tombstone p) eqn:Ht; [|done]. cbn.
  destruct (po_bucket _ _ Hp a Ha) as (b & Hb & _). unfold bfree, bref. by rewrite Hb.
Qed.

Lemma drop_all_ok : forall bs h, (forall p, p ∈ bs -> ptr_ok h p) -> NoDup (omap sh_ptr bs) ->
  (forall a b, h !! a = Some b -> a ∈ omap sh_ptr bs) -> foldM drop_bucket h bs = Ok ∅.
Proof.
  induction bs as [|p bs IH]; intros h Hok Hnd Hown; cbn [foldM].
  { f_equal. apply map_empty. intros a. destruct (h !! a) as [b|] eqn:Ha; [|done]. by apply Hown, elem_of_nil in Ha. }
  rewrite drop_bucket_ok by (apply Hok; left). cbn [mbind res_bind]. unfold without. cbn in Hnd, Hown. destruct (sh_ptr p) as [a|] eqn:Ha.
  - apply NoDup_cons in Hnd as [Hni Hnd]. apply IH; [|done|].
    + intros q Hq. destruct (Hok q (list_elem_of_further _ _ _ Hq)) as [Hs Hn Hb]. split; [done|done|]. intros a' Ha'.
      rewrite lookup_delete_ne; [by apply Hb|]. intros <-. apply Hni, list_elem_of_omap. eauto.
    + intros a' b Hb. rewrite lookup_delete in Hb. case_decide; [done|]. specialize (Hown a' b Hb). apply elem_of_cons in Hown as [->|]; done.
  - apply IH; [|done|done]. intros q Hq. apply Hok. by right.
Qed.

Lemma drop_segment_ok (seg : Segment) m : seg_ok seg m -> drop_segment seg = Ok ∅.
Proof.
  unfold seg_ok, drop_segment. destruct (seg_array seg) as [ba|]; [|intros (_ & _ & ->); done]. intros [Ha Ho _ _ _ _]. apply drop_all_ok.
  - intros p [i Hi]%list_elem_of_lookup. by eapply ar_ptrs.
  - apply omap_nodup. intros i j p q a Hi Hj Hp Hq. by eapply array_inj.
  - intros a b (i & p & Hi%list_elem_of_lookup_2 & Hp)%Ho. apply list_elem_of_omap. eauto.
Qed.
End map.
