(* ===== verification/HashTableRefines.v ===== *)
(** The segmented table against its contract: from creation on, every sequence of
    operations gets the answers of one finite map, without a fault and with every
    loop ending; dropping the table frees every bucket it ever allocated. *)
From S2P Require Import Prelude Probing Bucket BucketTable HashTable HashTableMap.

Section hash_map.
Context {K V : Type} `{Countable K}.
Variable hash_of : K -> Z.
(** The build hasher gives a [u64]. *)
Hypothesis hash_u64 : forall k, 0 <= hash_of k < 2 ^ 64.
(** There are [2 ^ e] segments. *)
Variable e : nat.
Hypothesis e_64 : (e <= 64)%nat.
Implicit Types (hm : @HashMap K V) (m : gmap K V) (k : K) (v : V).

#[local] Notation is_key k := (fun k' => bool_decide (k' = k)).

(** ** The keys of a segment *)
Definition home (shift : Z) k : nat := if shift =? 64 then O else Z.to_nat (Z.shiftr (hash_of k) shift).
Definition part (shift : Z) (i : nat) m : gmap K V := filter (fun kv => home shift kv.1 = i) m.

Lemma part_lookup shift m k : part shift (home shift k) m !! k = m !! k.
Proof.
  unfold part. destruct (m !! k) as [v|] eqn:Hk.
  - by apply map_lookup_filter_Some.
  - apply map_lookup_filter_None. by left.
Qed.
Lemma part_insert shift m k v : part shift (home shift k) (<[k := v]> m) = <[k := v]> (part shift (home shift k) m).
Proof. by apply map_filter_insert_True. Qed.
Lemma part_insert_other shift m k v j : j <> home shift k -> part shift j (<[k := v]> m) = part shift j m.
Proof.
  intros Hj. apply map_eq. intros k'. unfold part. rewrite !map_lookup_filter. destruct (decide (k = k')) as [<-|Hne].
  - rewrite lookup_insert_eq. cbn. destruct (m !! k) as [x|]; cbn; [|by rewrite option_guard_False by (cbn; congruence)].
    by rewrite !option_guard_False by (cbn; congruence).
  - by rewrite lookup_insert_ne.
Qed.
Lemma part_delete shift m k j : part shift j (delete k m) = if decide (j = home shift k) then delete k (part shift j m) else part shift j m.
Proof.
  unfold part. rewrite map_filter_delete. case_decide as Hj; [done|]. apply delete_id. apply map_lookup_filter_None. right. cbn. congruence.
Qed.

(** ** The table holds a map *)
Record table_inv hm m : Prop := {
  ti_shape : length (hm_segments hm) = (2 ^ e)%nat /\ segment_shift hm = 64 - Z.of_nat e;
  ti_segs : forall i seg, hm_segments hm !! i = Some seg -> seg_ok hash_of seg (part (segment_shift hm) i m)
}.
Record table_holds hm m : Prop := {
  th_inv : table_inv hm m;
  th_len : hm_len hm = Z.of_nat (size m)
}.

Lemma home_index hm k : segment_index_from_hash hm (hash_of k) = home (segment_shift hm) k.
Proof. done. Qed.

Lemma home_lt k : (home (64 - Z.of_nat e) k < 2 ^ e)%nat.
Proof.
  unfold home. pose proof (Nat.pow_nonzero 2 e). destruct (Z.eqb_spec (64 - Z.of_nat e) 64); [lia|].
  rewrite Z.shiftr_div_pow2 by lia. specialize (hash_u64 k). apply Nat2Z.inj_lt. rewrite Nat2Z.inj_pow, Z2Nat.id by (apply Z.div_pos; lia).
  change (Z.of_nat 2) with 2. apply Z.div_lt_upper_bound; [lia|]. rewrite <- Z.pow_add_r by lia.
  replace (64 - Z.of_nat e + Z.of_nat e) with 64 by lia. lia.
Qed.
Lemma home_bound hm m k : table_inv hm m -> (home (segment_shift hm) k < length (hm_segments hm))%nat.
Proof. intros [(-> & ->) _]. apply home_lt. Qed.

(** An operation on the segment of [k], by its effect there. *)
Lemma in_segment_ok {A} hm m m' k (f : Segment -> res (Segment * A)) (r : A) :
  table_inv hm m ->
  (forall j, j <> home (segment_shift hm) k -> part (segment_shift hm) j m' = part (segment_shift hm) j m) ->
  (forall seg, seg_ok hash_of seg (part (segment_shift hm) (home (segment_shift hm) k) m) ->
    exists seg', f seg = Ok (seg', r) /\ seg_ok hash_of seg' (part (segment_shift hm) (home (segment_shift hm) k) m')) ->
  exists hm', in_segment hm (hash_of k) f = Ok (hm', r) /\ table_inv hm' m' /\ hm_len hm' = hm_len hm.
Proof.
  intros Hi Hother Hf. pose proof (home_bound hm m k Hi) as Hb. destruct (lookup_lt_is_Some_2 _ _ Hb) as [seg Hseg].
  destruct Hi as [Hsh Hsegs]. destruct (Hf seg (Hsegs _ _ Hseg)) as (seg' & E & Hs'). unfold in_segment.
  rewrite home_index, Hseg. cbn [expect_some mbind res_bind]. rewrite E. eexists. split; [done|]. split; [|done].
  split; cbn [hm_segments segment_shift]; [by rewrite length_insert|]. intros j s Hj.
  destruct (insert_cases _ _ _ _ _ Hj) as [[-> ->]|[Hne Hj']]; [done|]. rewrite Hother by done. by apply Hsegs.
Qed.

Lemma add_len_inv hm m d : table_inv hm m -> table_inv (add_len hm d) m.
Proof. intros [Hs Hi]. by split. Qed.

Lemma entry_value k (o : option V) : option_map snd (pair k <$> o) = o.
Proof. by destruct o. Qed.

(** ** The operations *)
Lemma hm_get_key_value_ok hm m k : table_holds hm m ->
  exists hm', hm_get_key_value hash_of hm (hash_of k) (is_key k) = Ok (hm', pair k <$> m !! k) /\ table_holds hm' m.
Proof.
  intros [Hi Hl]. destruct (in_segment_ok hm m m k (fun seg => seg_get hash_of seg (hash_of k) (is_key k)) (pair k <$> m !! k) Hi) as (hm' & E & Hi' & Hl').
  - done.
  - intros seg Hs. rewrite <- (part_lookup (segment_shift hm)). by apply seg_get_ok.
  - exists hm'. split; [exact E|]. split; [done|congruence].
Qed.

Lemma hm_remove_entry_if_ok hm m k cond : table_holds hm m ->
  let hit := match m !! k with Some v => cond k v | None => false end in
  exists hm', hm_remove_entry_if hash_of hm (hash_of k) (is_key k) cond = Ok (hm', if hit then pair k <$> m !! k else None) /\
    table_holds hm' (if hit then delete k m else m).
Proof.
  intros [Hi Hl] hit. unfold hm_remove_entry_if.
  destruct (in_segment_ok hm m (if hit then delete k m else m) k (fun seg => seg_remove_entry_if hash_of seg (hash_of k) (is_key k) cond)
    (if hit then pair k <$> m !! k else None) Hi) as (hm' & E & Hi' & Hl').
  - intros j Hj. destruct hit; [|done]. by rewrite part_delete, decide_False.
  - intros seg Hs. destruct (seg_remove_entry_if_ok hash_of seg _ k cond Hs) as (seg' & E & Hs'). rewrite part_lookup in E, Hs'. fold hit in E, Hs'.
    exists seg'. split; [exact E|]. destruct hit; [by rewrite part_delete, decide_True|done].
  - rewrite E. cbn [mbind res_bind]. eexists. split; [done|]. subst hit. destruct (m !! k) as [v|] eqn:Hk; [destruct (cond k v)|]; cbn; (split; [by try apply add_len_inv|]); cbn.
    + rewrite map_size_delete_Some by eauto. assert (0 < size m)%nat; [|lia]. apply Nat.neq_0_lt_0. intros H0%map_size_empty_inv. by subst m.
    + congruence.
    + congruence.
Qed.

Lemma insert_size m k v : Z.of_nat (size (<[k := v]> m)) = Z.of_nat (size m) + (if m !! k then 0 else 1).
Proof. rewrite map_size_insert. destruct (m !! k); cbn; lia. Qed.

Lemma hm_insert_or_modify_ok fails hm m k (f : unit -> V) (g : K -> V -> V) : table_holds hm m ->
  exists hm', hm_insert_or_modify hash_of fails hm k (hash_of k) f g = Ok (hm', pair k <$> m !! k) /\
    table_holds hm' (<[k := match m !! k with Some v => g k v | None => f tt end]> m).
Proof.
  intros [Hi Hl]. unfold hm_insert_or_modify. set (v' := match m !! k with Some v => g k v | None => f tt end).
  destruct (in_segment_ok hm m (<[k := v']> m) k (fun seg => seg_insert_or_modify hash_of fails seg k (hash_of k) f g)
    (pair k <$> m !! k) Hi) as (hm' & E & Hi' & Hl').
  - intros j Hj. by apply part_insert_other.
  - intros seg Hs. destruct (seg_insert_or_modify_ok hash_of fails seg _ k f g Hs) as (seg' & E & Hs'). rewrite part_lookup in E, Hs'.
    exists seg'. split; [exact E|]. by rewrite part_insert.
  - rewrite E. cbn [mbind res_bind]. eexists. split; [done|]. pose proof (insert_size m k v') as Hz.
    destruct (m !! k) as [v|] eqn:Hk; cbn; (split; [by try apply add_len_inv|]); cbn; lia.
Qed.

Lemma hm_insert_if_not_present_ok fails hm m k v : table_holds hm m ->
  exists hm', hm_insert_if_not_present hash_of fails hm k (hash_of k) v = Ok (hm', m !! k) /\
    table_holds hm' (match m !! k with Some _ => m | None => <[k := v]> m end).
Proof.
  intros [Hi Hl]. unfold hm_insert_if_not_present.
  destruct (in_segment_ok hm m (match m !! k with Some _ => m | None => <[k := v]> m end) k
    (fun seg => seg_insert_if_not_present hash_of fails seg k (hash_of k) (fun _ => v)) (pair k <$> m !! k) Hi) as (hm' & E & Hi' & Hl').
  - intros j Hj. destruct (m !! k); [done|]. by apply part_insert_other.
  - intros seg Hs. destruct (seg_insert_if_not_present_ok hash_of fails seg _ k (fun _ => v) Hs) as (seg' & E & Hs'). rewrite part_lookup in E, Hs'.
    exists seg'. split; [exact E|]. destruct (m !! k); [done|]. by rewrite part_insert.
  - rewrite E. cbn [mbind res_bind]. rewrite entry_value. eexists. split; [done|]. pose proof (insert_size m k v) as Hz.
    destruct (m !! k) as [v0|] eqn:Hk; cbn; (split; [by try apply add_len_inv|]); cbn; lia.
Qed.

(** [ks] lists the keys of [m] whose home is segment [i], each once. *)
Definition lists_keys (shift : Z) (i : nat) m (ks : list K) : Prop :=
  NoDup ks /\ forall k, k ∈ ks <-> is_Some (m !! k) /\ home shift k = i.

Lemma lists_part shift i m ks : ks ≡ₚ (map_to_list (part shift i m)).*1 -> lists_keys shift i m ks.
Proof.
  intros Hp. split; [rewrite Hp; apply NoDup_fst_map_to_list|]. intros k. rewrite Hp, list_elem_of_fmap. split.
  - intros ([k' v] & -> & [Hk Hh]%elem_of_map_to_list%map_lookup_filter_Some). eauto.
  - intros [[v Hv] Hh]. exists (k, v). split; [done|]. apply elem_of_map_to_list, map_lookup_filter_Some. done.
Qed.

Lemma hm_keys_ok hm m i : table_holds hm m ->
  exists hm' r, hm_keys hash_of hm i = Ok (hm', r) /\ table_holds hm' m /\
    if decide (i < 2 ^ e)%nat then exists ks, r = Some ks /\ lists_keys (64 - Z.of_nat e) i m ks else r = None.
Proof.
  intros [[[Hlen Hshift] Hsegs] Hl]. unfold hm_keys. rewrite <- Hlen, <- Hshift. destruct (hm_segments hm !! i) as [seg|] eqn:Hi.
  - destruct (seg_keys_ok hash_of seg _ (Hsegs _ _ Hi)) as (seg' & ks & E & Hks & Hs'). rewrite E. cbn [mbind res_bind].
    pose proof (lookup_lt_Some _ _ _ Hi) as Hlt. eexists _, _. split; [done|]. rewrite decide_True by done. split.
    { split; [|done]. split; cbn; [by rewrite length_insert|]. intros j s Hj.
      destruct (insert_cases _ _ _ _ _ Hj) as [[-> ->]|[Hne Hj']]; [done|by apply Hsegs]. }
    exists ks. split; [done|]. by apply lists_part.
  - exists hm, None. split; [done|]. split; [by split|].
    rewrite decide_False; [done|]. apply lookup_ge_None in Hi. lia.
Qed.

Lemma hm_drop_ok hm m : table_holds hm m -> drop_map hm = Ok (replicate (2 ^ e) ∅).
Proof.
  intros [[[Hlen _] Hsegs] _]. rewrite <- Hlen. unfold drop_map. assert (Hd : forall seg, seg ∈ hm_segments hm -> drop_segment seg = Ok ∅).
  { intros seg [i Hi]%list_elem_of_lookup. by eapply drop_segment_ok, Hsegs. }
  assert (Ha : forall segs acc, (forall seg, seg ∈ segs -> drop_segment seg = Ok ∅) ->
    foldM (fun acc seg => h ← drop_segment seg; Ok (acc ++ [h])) acc segs = Ok (acc ++ replicate (length segs) (∅ : gmap positive (Bucket K V)))).
  { induction segs as [|seg segs IH]; intros acc Hs; cbn [foldM length replicate]; [by rewrite app_nil_r|].
    rewrite (Hs seg) by left. cbn [mbind res_bind]. rewrite IH by (intros s Hin; apply Hs; by right). by rewrite <- app_assoc. }
  by rewrite Ha.
Qed.

(** ** Sequences of operations *)
Inductive table_op :=
| TGet (k : K)
| TContains (k : K)
| TRemove (k : K)
| TRemoveIf (k : K) (condition : K -> V -> bool)
| TInsertEntry (fails : nat) (k : K) (v : V)
| TInsertOrModify (fails : nat) (k : K) (on_insert : unit -> V) (on_modify : K -> V -> V)
| TInsertIfNotPresent (fails : nat) (k : K) (v : V)
| TRemoveEntry (k : K)
| TRemoveValueIf (k : K) (condition : K -> V -> bool)
| TInsertWithOrModify (fails : nat) (k : K) (on_insert : unit -> V) (on_modify : K -> V -> V)
| TIsEmpty
| TKeys (segment : nat).
Inductive answer := AValue (o : option V) | AFound (b : bool) | AEntry (o : option (K * V)) | AKeys (o : option (list K)).

Definition exec_op hm (op : table_op) : res (@HashMap K V * answer) :=
  match op with
  | TGet k => '(hm, r) ← hm_get hash_of hm (hash_of k) (is_key k); Ok (hm, AValue r)
  | TContains k => '(hm, r) ← hm_contains_key hash_of hm (hash_of k) (is_key k); Ok (hm, AFound r)
  | TRemove k => '(hm, r) ← hm_remove hash_of hm (hash_of k) (is_key k); Ok (hm, AValue r)
  | TRemoveIf k c => '(hm, r) ← hm_remove_entry_if hash_of hm (hash_of k) (is_key k) c; Ok (hm, AEntry r)
  | TInsertEntry n k v => '(hm, r) ← hm_insert_entry hash_of n hm k (hash_of k) v; Ok (hm, AEntry r)
  | TInsertOrModify n k f g => '(hm, r) ← hm_insert_or_modify hash_of n hm k (hash_of k) f g; Ok (hm, AEntry r)
  | TInsertIfNotPresent n k v => '(hm, r) ← hm_insert_if_not_present hash_of n hm k (hash_of k) v; Ok (hm, AValue r)
  | TRemoveEntry k => '(hm, r) ← hm_remove_entry hash_of hm (hash_of k) (is_key k); Ok (hm, AEntry r)
  | TRemoveValueIf k c => '(hm, r) ← hm_remove_if hash_of hm (hash_of k) (is_key k) c; Ok (hm, AValue r)
  | TInsertWithOrModify n k f g => '(hm, r) ← hm_insert_with_or_modify hash_of n hm k (hash_of k) f g; Ok (hm, AValue r)
  | TIsEmpty => Ok (hm, AFound (hm_is_empty hm))
  | TKeys i => '(hm, r) ← hm_keys hash_of hm i; Ok (hm, AKeys r)
  end.
Fixpoint exec_ops hm (ops : list table_op) : res (@HashMap K V * list answer) :=
  match ops with
  | [] => Ok (hm, [])
  | op :: ops' => '(hm, r) ← exec_op hm op; '(hm, rs) ← exec_ops hm ops'; Ok (hm, r :: rs)
  end.

(** What a finite map would do and answer.  [insert_entry_and] is in the source an
    [insert_with_or_modify_entry_and] whose modification returns the value that is
    there: a key that is present keeps its value (its documentation says that key and
    value are updated). *)
Definition map_op m (op : table_op) : gmap K V :=
  match op with
  | TRemove k | TRemoveEntry k => delete k m
  | TRemoveIf k c | TRemoveValueIf k c => if match m !! k with Some v => c k v | None => false end then delete k m else m
  | TInsertEntry _ k v | TInsertIfNotPresent _ k v => if m !! k then m else <[k := v]> m
  | TInsertOrModify _ k f g | TInsertWithOrModify _ k f g => <[k := match m !! k with Some v => g k v | None => f tt end]> m
  | _ => m
  end.
Definition answers m (op : table_op) (r : answer) : Prop :=
  match op with
  | TGet k | TRemove k | TInsertIfNotPresent _ k _ | TInsertWithOrModify _ k _ _ => r = AValue (m !! k)
  | TContains k => r = AFound (bool_decide (is_Some (m !! k)))
  | TRemoveIf k c => r = AEntry (if match m !! k with Some v => c k v | None => false end then pair k <$> m !! k else None)
  | TRemoveValueIf k c => r = AValue (if match m !! k with Some v => c k v | None => false end then m !! k else None)
  | TInsertEntry _ k _ | TInsertOrModify _ k _ _ | TRemoveEntry k => r = AEntry (pair k <$> m !! k)
  | TIsEmpty => r = AFound (bool_decide (m = ∅))
  | TKeys i =>
      if decide (i < 2 ^ e)%nat then exists ks, r = AKeys (Some ks) /\ lists_keys (64 - Z.of_nat e) i m ks else r = AKeys None
  end.
Fixpoint answers_all m (ops : list table_op) (rs : list answer) : Prop :=
  match ops, rs with
  | [], [] => True
  | op :: ops', r :: rs' => answers m op r /\ answers_all (map_op m op) ops' rs'
  | _, _ => False
  end.

Lemma exec_op_ok hm m op : table_holds hm m ->
  exists hm' r, exec_op hm op = Ok (hm', r) /\ answers m op r /\ table_holds hm' (map_op m op).
Proof.
  intros Hh. destruct op as [k|k|k|k c|n k v|n k f g|n k v|k|k c|n k f g| |i]; cbn [exec_op answers map_op].
  - destruct (hm_get_key_value_ok hm m k Hh) as (hm' & E & Hh'). unfold hm_get, hm_get_key_value_and. rewrite E. cbn [mbind res_bind].
    eexists _, _. split; [done|]. split; [|done]. by destruct (m !! k).
  - destruct (hm_get_key_value_ok hm m k Hh) as (hm' & E & Hh'). unfold hm_contains_key. rewrite E. cbn [mbind res_bind].
    eexists _, _. split; [done|]. split; [|done]. by destruct (m !! k).
  - destruct (hm_remove_entry_if_ok hm m k (fun _ _ => true) Hh) as (hm' & E & Hh'). unfold hm_remove. rewrite E. cbn [mbind res_bind].
    eexists _, _. split; [done|]. destruct (m !! k) as [v|] eqn:Hk; [done|]. by rewrite delete_id.
  - destruct (hm_remove_entry_if_ok hm m k c Hh) as (hm' & E & Hh'). rewrite E. eauto.
  - destruct (hm_insert_or_modify_ok n hm m k (fun _ => v) (fun _ v => v) Hh) as (hm' & E & Hh'). unfold hm_insert_entry. rewrite E.
    cbn [mbind res_bind]. eexists _, _. split; [done|]. split; [done|]. destruct (m !! k) as [v0|] eqn:Hk; [by rewrite insert_id in Hh'|done].
  - destruct (hm_insert_or_modify_ok n hm m k f g Hh) as (hm' & E & Hh'). rewrite E. eauto.
  - destruct (hm_insert_if_not_present_ok n hm m k v Hh) as (hm' & E & Hh'). rewrite E. cbn [mbind res_bind]. eauto.
  - destruct (hm_remove_entry_if_ok hm m k (fun _ _ => true) Hh) as (hm' & E & Hh'). unfold hm_remove_entry. rewrite E. cbn [mbind res_bind].
    eexists _, _. split; [done|]. destruct (m !! k) as [v|] eqn:Hk; [done|]. by rewrite delete_id.
  - destruct (hm_remove_entry_if_ok hm m k c Hh) as (hm' & E & Hh'). unfold hm_remove_if. rewrite E. cbn [mbind res_bind].
    eexists _, _. split; [done|]. split; [|done]. destruct (m !! k) as [v|]; [by destruct (c k v)|done].
  - destruct (hm_insert_or_modify_ok n hm m k f g Hh) as (hm' & E & Hh'). unfold hm_insert_with_or_modify. rewrite E. cbn [mbind res_bind]. rewrite entry_value. eauto.
  - eexists _, _. split; [done|]. split; [|done]. unfold hm_is_empty. rewrite (th_len _ _ Hh). f_equal. case_bool_decide as Hm; [by subst m|].
    apply Z.eqb_neq. intros Hz. apply Hm, map_size_empty_inv. lia.
  - destruct (hm_keys_ok hm m i Hh) as (hm' & r & E & Hh' & Hr). rewrite E. cbn [mbind res_bind]. eexists _, _. split; [done|]. split; [|done].
    case_decide; [destruct Hr as (ks & -> & Hks); eauto|by rewrite Hr].
Qed.

Lemma exec_ops_ok : forall ops hm m, table_holds hm m ->
  exists hm' rs, exec_ops hm ops = Ok (hm', rs) /\ answers_all m ops rs /\ table_holds hm' (foldl map_op m ops).
Proof.
  induction ops as [|op ops IH]; intros hm m Hh; cbn [exec_ops answers_all foldl]; [by exists hm, []|].
  destruct (exec_op_ok hm m op Hh) as (hm1 & r & -> & Hr & Hh1). cbn [mbind res_bind].
  destruct (IH hm1 _ Hh1) as (hm2 & rs & -> & Hrs & Hh2). exists hm2, (r :: rs). done.
Qed.
End hash_map.

(** ** Creation *)
Lemma next_power_nat x : power_of_two (Z.to_nat (next_power_of_two x)).
Proof. exists (Z.to_nat (Z.log2_up x)). unfold next_power_of_two. rewrite Z2Nat.inj_pow by (lia || apply Z.log2_up_nonneg). done. Qed.

Lemma create_ok {K V} `{Countable K} (hash_of : K -> Z) num_segments capacity :
  0 < num_segments <= 2 ^ 63 -> 0 <= capacity <= 2 ^ 62 ->
  exists hm : @HashMap K V, with_num_segments_capacity num_segments capacity = Ok hm /\
    table_holds hash_of (Z.to_nat (Z.log2_up num_segments)) hm ∅.
Proof.
  intros Hn Hcap. unfold with_num_segments_capacity. rewrite (proj2 (Z.ltb_lt _ _)) by lia. cbn [assert_that mbind res_bind].
  rewrite checked_next_power_of_two_ok by lia. cbn [mbind res_bind].
  assert (Hac : capacity * 2 / next_power_of_two num_segments <= 2 ^ 63).
  { pose proof (next_power_of_two_ge num_segments). apply Z.div_le_upper_bound; [lia|]. nia. }
  assert (Hseg : exists seg : @Segment K V, (if capacity =? 0 then Ok (mkSegment None 0 ∅)
         else twice ← checked_mul 64 capacity 2;
              actual_capacity ← checked_next_power_of_two 64 (twice / next_power_of_two num_segments);
              ba ← with_length 0 (Z.to_nat actual_capacity);
              Ok (mkSegment (Some ba) 0 ∅)) = Ok seg /\ seg_ok hash_of seg ∅).
  { destruct (capacity =? 0); [by eexists|]. rewrite checked_mul_ok by lia. cbn [mbind res_bind].
    rewrite checked_next_power_of_two_ok by (lia || done). cbn [mbind res_bind]. rewrite with_length_ok by apply next_power_nat. cbn [mbind res_bind].
    eexists. split; [done|]. apply fresh_holds, next_power_nat. }
  destruct Hseg as (seg & E & Hs). rewrite E. cbn [mbind res_bind]. eexists. split; [done|]. pose proof (Z.log2_up_nonneg num_segments).
  split; [|by rewrite map_size_empty]. split; cbn [hm_segments segment_shift].
  - split; [|unfold next_power_of_two; rewrite Z.log2_pow2; lia]. rewrite length_replicate. unfold next_power_of_two. by rewrite Z2Nat.inj_pow.
  - intros i s [-> _]%lookup_replicate. unfold part. by rewrite map_filter_empty.
Qed.

Lemma segments_64 n : 0 < n <= 2 ^ 63 -> (Z.to_nat (Z.log2_up n) <= 64)%nat.
Proof. intros [_ Hn]. apply Z.log2_up_le_mono in Hn. rewrite Z.log2_up_pow2 in Hn by lia. lia. Qed.

(** ** Claims *)

(** C6. The concurrent hash table implements a finite map.  From a table made by
    [with_num_segments_capacity_and_hasher] (at most [2^63] segments and a capacity of
    at most [2^62], whose rounding does not overflow), any sequence of lookups,
    insertions, conditional removals and key listings (with any number of spurious
    failures of the compare-and-exchange) runs without a fault, every loop and every
    rehash ends, each call returns what the map built by the calls before it says, and
    [len] is the number of keys.  In that map [insert_entry_and] leaves a key that is
    present with the value it has, as the code does and against its documentation
    ([insert_entry_keeps_value]). *)
Theorem hash_table_refines_map {K V} `{Countable K} (hash_of : K -> Z) (num_segments capacity : Z) (ops : list (@table_op K V)) :
  (forall k, 0 <= hash_of k < 2 ^ 64) -> 0 < num_segments <= 2 ^ 63 -> 0 <= capacity <= 2 ^ 62 ->
  exists hm0 hm rs,
    with_num_segments_capacity num_segments capacity = Ok hm0 /\
    exec_ops hash_of hm0 ops = Ok (hm, rs) /\
    answers_all hash_of (Z.to_nat (Z.log2_up num_segments)) ∅ ops rs /\
    hm_len hm = Z.of_nat (size (foldl map_op ∅ ops)).
Proof.
  intros Hh Hn Hcap. destruct (create_ok hash_of num_segments capacity (V := V) Hn Hcap) as (hm0 & E0 & Hh0).
  destruct (exec_ops_ok hash_of Hh _ (segments_64 _ Hn) ops hm0 ∅ Hh0) as (hm & rs & E & Ha & Hm).
  exists hm0, hm, rs. split; [done|]. split; [done|]. split; [done|]. apply Hm.
Qed.

(** C27. Dropping the table leaks nothing: after any sequence of operations [drop]
    succeeds (it frees no bucket twice and reads no value that was moved out), and
    no bucket of any segment is left, the tombstones of removed keys and the
    buckets replaced by later writes or by rehashes included. *)
Theorem hash_table_drop_frees_all {K V} `{Countable K} (hash_of : K -> Z) (num_segments capacity : Z) (ops : list (@table_op K V)) :
  (forall k, 0 <= hash_of k < 2 ^ 64) -> 0 < num_segments <= 2 ^ 63 -> 0 <= capacity <= 2 ^ 62 ->
  exists hm0 hm rs,
    with_num_segments_capacity num_segments capacity = Ok hm0 /\
    exec_ops hash_of hm0 ops = Ok (hm, rs) /\
    drop_map hm = Ok (replicate (actual_num_segments hm) ∅).
Proof.
  intros Hh Hn Hcap. destruct (create_ok hash_of num_segments capacity (V := V) Hn Hcap) as (hm0 & E0 & Hh0).
  destruct (exec_ops_ok hash_of Hh _ (segments_64 _ Hn) ops hm0 ∅ Hh0) as (hm & rs & E & _ & Hm).
  exists hm0, hm, rs. split; [done|]. split; [done|]. unfold actual_num_segments.
  rewrite (proj1 (ti_shape _ _ _ _ (th_inv _ _ _ _ Hm))). by eapply hm_drop_ok.
Qed.

(** [insert_entry_and] does not update the value of a key that is present: the
    second insertion reports the first value as the previous one, and a lookup
    still finds the first. *)
Theorem insert_entry_keeps_value {K V} `{Countable K} (hash_of : K -> Z) (num_segments capacity : Z) (k : K) (v1 v2 : V) :
  (forall k, 0 <= hash_of k < 2 ^ 64) -> 0 < num_segments <= 2 ^ 63 -> 0 <= capacity <= 2 ^ 62 ->
  exists hm0 hm,
    with_num_segments_capacity num_segments capacity = Ok hm0 /\
    exec_ops hash_of hm0 [TInsertEntry 0 k v1; TInsertEntry 0 k v2; TGet k] =
    Ok (hm, [AEntry None; AEntry (Some (k, v1)); AValue (Some v1)]).
Proof.
  intros Hh Hn Hcap. destruct (create_ok hash_of num_segments capacity (V := V) Hn Hcap) as (hm0 & E0 & Hh0).
  destruct (exec_ops_ok hash_of Hh _ (segments_64 _ Hn) [TInsertEntry 0 k v1; TInsertEntry 0 k v2; TGet k] hm0 ∅ Hh0) as (hm & rs & E & Ha & _).
  exists hm0, hm. split; [done|]. rewrite E. destruct rs as [|r1 [|r2 [|r3 [|? ?]]]]; cbn in Ha; try tauto. destruct Ha as (-> & -> & -> & _).
  rewrite lookup_empty, lookup_insert_eq, lookup_insert_eq. done.
Qed.

(** The load of a bucket array is restored before a write: from any state
    between operations at most two rehashes are made (the third test of
    [RehashOp] skips), no binding is lost or added by them, and the array they
    leave has a bucket that is empty, so that the write finds a place. *)
Theorem rehash_makes_room {K V} `{Countable K} (hash_of : K -> Z) h ba len (m : gmap K V) :
  holds hash_of h ba len m ->
  exists h' ba', rehash_as_needed hash_of REHASH_FUEL h ba len = Ok (h', ba') /\ holds hash_of h' ba' len m /\
    (occupied (cells_of h' (ba_buckets ba')) < array_len ba')%nat /\
    rehash_op (Z.of_nat (array_len ba') / 2) (tombstone_count ba') len = Skip.
Proof.
  intros Hh. destruct (rehash_as_needed_ok hash_of h ba len m Hh) as (h' & ba' & E & Hh' & Hlow). exists h', ba'. split; [done|]. split; [done|].
  split; [|by apply low_skip]. pose proof (hd_occ _ _ _ _ _ Hh'). pose proof (low_room _ _ _ (ar_power _ _ _ (hd_array _ _ _ _ _ Hh')) Hlow). unfold array_len in *. lia.
Qed.

(** ** Witnesses *)
Module Witnesses.
(** A table of integers. *)
Definition hash64 (k : Z) : Z := k mod 2 ^ 64.
Lemma hash64_range k : 0 <= hash64 k < 2 ^ 64.
Proof. by apply Z.mod_pos_bound. Qed.

(** One bucket, with a key in it. *)
Definition single : BucketArray := mkBucketArray [null] 0 0.
Definition single_full : gmap positive (Bucket Z Z) * BucketArray := published ∅ single 0 null 7 70.
Lemma single_ready : ready hash64 (∅ : gmap positive (Bucket Z Z)) single 0 ∅.
Proof. split; [by apply (fresh_holds hash64 1); exists O|]. split; vm_compute; try split; try (by left); done. Qed.
Lemma single_holds : holds hash64 (fst single_full) (snd single_full) 1 {[7 := 70]}.
Proof. exact (proj1 (publish_holds hash64 ∅ single 0 ∅ 7 70 0 null single_ready eq_refl eq_refl)). Qed.

Definition calls : list (@table_op Z Z) :=
  [TInsertIfNotPresent 1 1 10; TInsertOrModify 2 1 (fun _ => 0) (fun _ v => v + 1); TRemove 1; TIsEmpty; TInsertWithOrModify 1 3 (fun _ => 30) (fun _ v => v); TRemoveValueIf 3 (fun _ v => v =? 31);
   TRemoveEntry 3; TInsertEntry 0 (2 ^ 63) 5; TGet 1; TKeys 1].
Lemma hash_table_refines_map_witness : exists hm0 hm rs,
  with_num_segments_capacity 2 0 = Ok hm0 /\ exec_ops hash64 hm0 calls = Ok (hm, rs) /\
  answers_all hash64 1 ∅ calls rs /\ hm_len hm = 1.
Proof.
  destruct (hash_table_refines_map hash64 2 0 calls hash64_range ltac:(lia) ltac:(lia)) as (hm0 & hm & rs & E0 & E & Ha & Hl).
  exists hm0, hm, rs. split; [exact E0|]. split; [exact E|]. split; [exact Ha|]. rewrite Hl. vm_compute. reflexivity.
Defined.
Lemma hash_table_drop_frees_all_witness : exists hm0 hm rs,
  with_num_segments_capacity 2 0 = Ok hm0 /\ exec_ops hash64 hm0 calls = Ok (hm, rs) /\
  drop_map hm = Ok (replicate (actual_num_segments hm) ∅).
Proof. apply (hash_table_drop_frees_all hash64 2 0 calls hash64_range); lia. Defined.
Lemma insert_entry_keeps_value_witness : exists hm0 hm,
  with_num_segments_capacity 1 4 = Ok hm0 /\
  exec_ops hash64 hm0 [TInsertEntry 0 3 1; TInsertEntry 0 3 2; TGet 3] = Ok (hm, [AEntry None; AEntry (Some (3, 1)); AValue (Some 1)]).
Proof. apply (insert_entry_keeps_value hash64 1 4 3 1 2 hash64_range); lia. Defined.
Lemma rehash_makes_room_witness :
  exists h' ba', rehash_as_needed hash64 REHASH_FUEL (fst single_full) (snd single_full) 1 = Ok (h', ba') /\
    holds hash64 h' ba' 1 {[7 := 70]} /\ (occupied (cells_of h' (ba_buckets ba')) < array_len ba')%nat /\
    rehash_op (Z.of_nat (array_len ba') / 2) (tombstone_count ba') 1 = Skip.
Proof. apply (rehash_makes_room hash64). exact single_holds. Defined.
End Witnesses.
