(* ===== verification/TableRace.v ===== *)
(** The concurrent hash table under contention (src/cht/map/bucket.rs,
    src/cht/map/bucket_array_ref.rs): threads that look up, insert, modify and remove
    in one segment, and move its buckets to a larger or smaller array, interleaved at
    every load, compare-and-exchange, lock and counter.

    A thread makes one call.  The arrays are in the order in which they come to be:
    [next] of one is the one after it, and the epoch of an array is its position.  An
    array that is being filled belongs to the thread that holds the rehash lock of
    the one before, so the writes to it are single steps.  Memory is sequentially
    consistent, and the segment has its first array.  Weak exchanges may fail for no
    reason.  The epoch collector frees no bucket and no array that a thread
    may still read, so that addresses are not used again; [destroyed] are the arrays
    that were handed to it. *)
From S2P Require Import Prelude Probing Bucket.

(** The closures of a call are given by what they return. *)
Inductive TableOp (K V : Type) :=
| TGet (k : K)
| TRemoveIf (k : K) (condition : K -> V -> bool)
| TInsertIfNotPresent (k : K) (v : V)
| TInsertOrModify (k : K) (v : V) (modifier : K -> V -> V).
Arguments TGet {K V} _.
Arguments TRemoveIf {K V} _ _.
Arguments TInsertIfNotPresent {K V} _ _.
Arguments TInsertOrModify {K V} _ _ _.

Definition table_key {K V} (op : TableOp K V) : K :=
  match op with TGet k | TRemoveIf k _ | TInsertIfNotPresent k _ | TInsertOrModify k _ _ => k end.

(** Where a thread is.  [a] is the array it works on, [i] the number of buckets it has
    passed by, [j] the bucket it moves, [st] where the next array has the key of that
    bucket, if it was put there already. *)
Inductive TablePc (K V : Type) :=
| AtEnter
| AtCheck (a : nat)
| AtCheckLen (a : nat) (tbc : Z)
| AtBucket (a i : nat)
| AtExchange (a i : nat) (seen : Shared) (new_bucket : option (Bucket K V))
| AtCountLen (a : nat) (d : Z) (r : option V)
| AtCountTombstone (a : nat) (r : option V)
| AtRehash (a : nat) (op : RehashOp)
| AtWait (a : nat)
| AtMove (a j : nat) (st : option nat)
| AtPut (a j : nat) (st : option nat) (p : Shared)
| AtSeal (a j : nat) (st : option nat) (p : Shared)
| AtSwing (a : nat) (r : option V)
| TableReturned (r : option V).
Arguments AtEnter {K V}.
Arguments AtCheck {K V} _.
Arguments AtCheckLen {K V} _ _.
Arguments AtBucket {K V} _ _.
Arguments AtExchange {K V} _ _ _ _.
Arguments AtCountLen {K V} _ _ _.
Arguments AtCountTombstone {K V} _ _.
Arguments AtRehash {K V} _ _.
Arguments AtWait {K V} _.
Arguments AtMove {K V} _ _ _.
Arguments AtPut {K V} _ _ _ _.
Arguments AtSeal {K V} _ _ _ _.
Arguments AtSwing {K V} _ _.
Arguments TableReturned {K V} _.

(** A thread, with the array that was the current one when it last looked. *)
Record TableThread (K V : Type) := mkTableThread { tt_op : TableOp K V; tt_current : nat; tt_pc : TablePc K V }.
Arguments mkTableThread {K V} _ _ _.
Arguments tt_op {K V} _.
Arguments tt_current {K V} _.
Arguments tt_pc {K V} _.

Record RaceArray := mkRaceArray { ra_array : BucketArray; rehash_lock : option nat }.
Record RaceTable (K V : Type) := mkRaceTable {
  rt_heap : gmap positive (Bucket K V);
  rt_arrays : list RaceArray;
  rt_current : nat;
  rt_len : Z;
  destroyed : list nat;
  rt_threads : list (TableThread K V)
}.
Arguments mkRaceTable {K V} _ _ _ _ _ _.
Arguments rt_heap {K V} _.
Arguments rt_arrays {K V} _.
Arguments rt_current {K V} _.
Arguments rt_len {K V} _.
Arguments destroyed {K V} _.
Arguments rt_threads {K V} _.

Definition SENTINEL : Shared := with_tag null SENTINEL_TAG.

Section race.
Context {K V : Type} `{EqDecision K}.
Variable hash_of : K -> Z.
Implicit Types (s : RaceTable K V) (op : TableOp K V) (p : Shared) (r : option V) (t : TableThread K V).

(** What a step leaves behind: the thread, the table, and the result of the call if
    this is the step at which it takes effect. *)
Notation outcome := (res (RaceTable K V * option (option V))).

Definition with_heap s (h : gmap positive (Bucket K V)) : RaceTable K V := mkRaceTable h (rt_arrays s) (rt_current s) (rt_len s) (destroyed s) (rt_threads s).
Definition with_arrays s (l : list RaceArray) : RaceTable K V := mkRaceTable (rt_heap s) l (rt_current s) (rt_len s) (destroyed s) (rt_threads s).
Definition with_len s (n : Z) : RaceTable K V := mkRaceTable (rt_heap s) (rt_arrays s) (rt_current s) n (destroyed s) (rt_threads s).
Definition with_current s (a : nat) (gone : list nat) : RaceTable K V := mkRaceTable (rt_heap s) (rt_arrays s) a (rt_len s) gone (rt_threads s).

(** The thread goes to [pc]. *)
Definition goto s (i : nat) (pc : TablePc K V) : RaceTable K V :=
  mkRaceTable (rt_heap s) (rt_arrays s) (rt_current s) (rt_len s) (destroyed s)
    (alter (fun t => mkTableThread (tt_op t) (tt_current t) pc) i (rt_threads s)).
Definition see_current s (i a : nat) : RaceTable K V :=
  mkRaceTable (rt_heap s) (rt_arrays s) (rt_current s) (rt_len s) (destroyed s)
    (alter (fun t => mkTableThread (tt_op t) a (tt_pc t)) i (rt_threads s)).

Definition array_at s (a : nat) : res RaceArray := expect_some Dangling (rt_arrays s !! a).
Definition set_bucket (ra : RaceArray) (i : nat) p : RaceArray :=
  mkRaceArray (with_buckets (ra_array ra) (<[i := p]> (ba_buckets (ra_array ra)))) (rehash_lock ra).
Definition set_lock (ra : RaceArray) (l : option nat) : RaceArray := mkRaceArray (ra_array ra) l.
Definition put_array s (a : nat) (ra : RaceArray) : RaceTable K V := with_arrays s (<[a := ra]> (rt_arrays s)).

(** The head of the loop of a call: a lookup goes to the buckets at once. *)
Definition again op (a : nat) : TablePc K V := match op with TGet _ => AtBucket a 0 | _ => AtCheck a end.

Definition quiet s : outcome := Ok (s, None).
(** The call has its result, and takes effect here. *)
Definition effect s r : outcome := Ok (s, Some r).

(** What a call does with the bucket it has loaded: one with its key, or an empty
    one. *)
Definition at_hit s (n a i : nat) op p (ob : option (Bucket K V)) : outcome :=
  let insert k v := quiet (goto s n (AtExchange a i p (Some (mkBucket k (Some v))))) in
  let nothing := effect (goto s n (AtSwing a None)) None in
  match ob with
  | None => match op with TGet _ | TRemoveIf _ _ => nothing | TInsertIfNotPresent k v | TInsertOrModify k v _ => insert k v end
  | Some b =>
      if is_tombstone p then
        match op with TGet _ | TRemoveIf _ _ => nothing | TInsertIfNotPresent k v | TInsertOrModify k v _ => insert k v end
      else
        v ← value_ref b;
        match op with
        | TGet _ | TInsertIfNotPresent _ _ => effect (goto s n (AtSwing a (Some v))) (Some v)
        | TRemoveIf _ condition => if condition (bk_key b) v then quiet (goto s n (AtExchange a i p None)) else nothing
        | TInsertOrModify k _ modifier => insert k (modifier (bk_key b) v)
        end
  end.
(** It has passed by every bucket: an insertion asks for a larger array. *)
Definition at_end s (n a : nat) op : outcome :=
  match op with
  | TGet _ | TRemoveIf _ _ => effect (goto s n (AtSwing a None)) None
  | _ => quiet (goto s n (AtRehash a Expand))
  end.

(** The bucket that [Probe::next] loads after [i] others: the [i]-th of [probe]. *)
Definition probe_index (len : nat) (hash : Z) (i : nat) : nat :=
  let max := Z.of_nat len - 1 in Z.to_nat (Z.land (Z.of_nat i + Z.land hash max) max).

(** [Probe::next] and the body of the loop over it. *)
Definition step_bucket s (n a i : nat) op : outcome :=
  ra ← array_at s a;
  let bs := ba_buckets (ra_array ra) in
  p ← expect_some OutOfBounds (bs !! probe_index (length bs) (hash_of (table_key op)) i);
  if is_sentinel p then quiet (goto s n (AtRehash a Expand))
  else match sh_ptr p with
       | None => at_hit s n a i op p None
       | Some addr =>
           b ← bref (rt_heap s) addr;
           if bool_decide (bk_key b = table_key op) then at_hit s n a i op p (Some b)
           else if bool_decide (S i < length bs)%nat then quiet (goto s n (AtBucket a (S i))) else at_end s n a op
       end.

(** What the exchange replaced. *)
Definition old_value (h : gmap positive (Bucket K V)) p : res (option V) :=
  match sh_ptr p with
  | None => Ok None
  | Some addr => if is_tombstone p then Ok None else b ← bref h addr; v ← value_ref b; Ok (Some v)
  end.

(** The compare-and-exchange of an insertion ([Some]) or a removal ([None]). *)
Definition step_exchange s (n a i : nat) op (seen : Shared) (nb : option (Bucket K V)) (weak : bool) : outcome :=
  ra ← array_at s a;
  let bs := ba_buckets (ra_array ra) in
  let x := probe_index (length bs) (hash_of (table_key op)) i in
  p ← expect_some OutOfBounds (bs !! x);
  if weak || negb (bool_decide (p = seen)) then quiet (goto s n (AtBucket a i))
  else
    old ← old_value (rt_heap s) seen;
    match nb with
    | None => effect (goto (put_array s a (set_bucket ra x (with_tag seen TOMBSTONE_TAG))) n (AtCountLen a (-1) old)) old
    | Some b =>
        let '(h, addr) := balloc (rt_heap s) b in
        let s := put_array (with_heap s h) a (set_bucket ra x (mkShared (Some addr) 0)) in
        effect (goto s n (if bool_decide (is_Some old) then AtSwing a old else AtCountLen a 1 old)) old
    end.

(** [rehash] up to its loop: [try_lock] and [next_array]. *)
Definition step_rehash s (n a : nat) (rop : RehashOp) : outcome :=
  ra ← array_at s a;
  match rehash_lock ra with
  | Some _ => quiet (goto s n (AtWait a))
  | None =>
      let s := put_array s a (set_lock ra (Some n)) in
      if bool_decide (S a < length (rt_arrays s))%nat then quiet (goto s n (AtMove a 0 None))
      else
        len ← new_len rop (array_len (ra_array ra));
        next ← with_length (ba_epoch (ra_array ra) + 1) len;
        quiet (goto (with_arrays s (rt_arrays s ++ [mkRaceArray next None])) n (AtMove a 0 None))
  end.

(** The loop of [rehash] over the buckets of the old array: the load, the copy into the
    next array, and the exchange for a sentinel. *)
Definition step_move s (n a j : nat) (st : option nat) op : outcome :=
  ra ← array_at s a;
  match ba_buckets (ra_array ra) !! j with
  | None => quiet (goto (put_array s a (set_lock ra None)) n (again op (S a)))
  | Some p => quiet (goto s n (if is_sentinel p then AtMove a (S j) None else AtPut a j st p))
  end.
Definition step_put s (n a j : nat) (st : option nat) p : outcome :=
  next ← array_at s (S a);
  let to_put_ptr := with_tag p (Z.lor (sh_tag p) BORROWED_TAG) in
  match st with
  | Some index =>
      _ ← assert_that (negb (is_null p));
      q ← expect_some OutOfBounds (ba_buckets (ra_array next) !! index);
      quiet (goto (if is_borrowed q then put_array s (S a) (set_bucket next index to_put_ptr) else s) n (AtSeal a j st p))
  | None =>
      match sh_ptr p with
      | None => quiet (goto s n (AtSeal a j None p))
      | Some addr =>
          b ← bref (rt_heap s) addr;
          '(ba, index) ← insert_for_grow (rt_heap s) (ra_array next) (hash_of (bk_key b)) to_put_ptr;
          quiet (goto (put_array s (S a) (mkRaceArray ba (rehash_lock next))) n (AtSeal a j index p))
      end
  end.
Definition step_seal s (n a j : nat) (st : option nat) p (weak : bool) : outcome :=
  ra ← array_at s a;
  q ← expect_some OutOfBounds (ba_buckets (ra_array ra) !! j);
  if weak || negb (bool_decide (q = p)) then quiet (goto s n (AtMove a j st))
  else quiet (goto (put_array s a (set_bucket ra j SENTINEL)) n (AtMove a (S j) None)).

(** [swing], one exchange at a time. *)
Definition step_swing s (n a current : nat) r (weak : bool) : outcome :=
  if bool_decide (a <= current)%nat then quiet (goto s n (TableReturned r))
  else if weak || negb (bool_decide (rt_current s = current)) then quiet (see_current s n (rt_current s))
  else quiet (with_current s a (destroyed s ++ [current])).

Definition table_step s (n : nat) (weak : bool) : outcome :=
  match rt_threads s !! n with
  | None => quiet s
  | Some t =>
      let op := tt_op t in
      match tt_pc t with
      | AtEnter => quiet (goto (see_current s n (rt_current s)) n (again op (rt_current s)))
      | AtCheck a => ra ← array_at s a; quiet (goto s n (AtCheckLen a (tombstone_count (ra_array ra))))
      | AtCheckLen a tbc =>
          ra ← array_at s a;
          cap ← array_capacity (ra_array ra);
          let rop := rehash_op cap tbc (rt_len s) in
          quiet (goto s n (if is_skip rop then AtBucket a 0 else AtRehash a rop))
      | AtBucket a i => step_bucket s n a i op
      | AtExchange a i seen nb => step_exchange s n a i op seen nb weak
      | AtCountLen a d r =>
          quiet (goto (with_len s (wrapping_add 64 (rt_len s) d)) n (if d =? -1 then AtCountTombstone a r else AtSwing a r))
      | AtCountTombstone a r =>
          ra ← array_at s a;
          let ba := ra_array ra in
          let ba := mkBucketArray (ba_buckets ba) (ba_epoch ba) (wrapping_add 64 (tombstone_count ba) 1) in
          quiet (goto (put_array s a (mkRaceArray ba (rehash_lock ra))) n (AtSwing a r))
      | AtRehash a rop => step_rehash s n a rop
      | AtWait a => ra ← array_at s a; quiet (match rehash_lock ra with Some _ => s | None => goto s n (again op a) end)
      | AtMove a j st => step_move s n a j st op
      | AtPut a j st p => step_put s n a j st p
      | AtSeal a j st p => step_seal s n a j st p weak
      | AtSwing a r => step_swing s n a (tt_current t) r weak
      | TableReturned _ => quiet s
      end
  end.

Definition table_spawn s op : RaceTable K V :=
  mkRaceTable (rt_heap s) (rt_arrays s) (rt_current s) (rt_len s) (destroyed s) (rt_threads s ++ [mkTableThread op 0 AtEnter]).
(** A segment with an array of [len] buckets. *)
Definition new_table (len : nat) : res (RaceTable K V) :=
  ba ← with_length 0 len; Ok (mkRaceTable ∅ [mkRaceArray ba None] 0 0 [] []).

(** ** What the calls should do *)

(** A map, and the result of a call on it. *)
Definition table_spec `{Countable K} (m : gmap K V) op : gmap K V * option V :=
  match op with
  | TGet k => (m, m !! k)
  | TRemoveIf k condition =>
      match m !! k with Some v => if condition k v then (delete k m, Some v) else (m, None) | None => (m, None) end
  | TInsertIfNotPresent k v => match m !! k with Some v0 => (m, Some v0) | None => (<[k := v]> m, None) end
  | TInsertOrModify k v modifier => match m !! k with Some v0 => (<[k := modifier k v0]> m, Some v0) | None => (<[k := v]> m, None) end
  end.

(** The thread is about to seal a bucket whose entry the next array does not have. *)
Definition loses s (n : nat) (weak : bool) : bool :=
  match rt_threads s !! n with
  | Some t =>
      match tt_pc t with
      | AtSeal a j None p =>
          negb weak && negb (is_null p) && negb (is_tombstone p) &&
          match rt_arrays s !! a with Some ra => bool_decide (ba_buckets (ra_array ra) !! j = Some p) | None => false end
      | _ => false
      end
  | None => false
  end.
End race.
