(* ===== verification/TableRaceInv.v ===== *)
(** The invariant of the hash table under contention ([TableRace]).

    One array is the live one: those before it hold sentinels only, and the one after
    it, if there is one, is being filled by the holder of its rehash lock.  The cells
    of the live array, with the last contents of the buckets that are sentinels
    already, form a well-formed table in the sense of [Probing], and the abstract map
    is what that table holds. *)
From S2P Require Import Prelude Probing Bucket BucketTable TableRace.

Section cells.
Context {K V : Type} `{EqDecision K}.
Variable hash_of : K -> Z.
#[local] Notation bheap := (gmap positive (Bucket K V)).
#[local] Notation cell := (option (K * option V)).
Implicit Types (h : bheap) (bs : list Shared) (p : Shared) (cs : list cell) (k : K).

(** ** Pointers and the cells they stand for *)

(** A removed bucket keeps its value in memory, and its pointer carries the tag. *)
Definition rcell h p : cell := a ← sh_ptr p; b ← h !! a; Some (bk_key b, if is_tombstone p then None else maybe_value b).
Definition rcells h bs : list cell := rcell h <$> bs.

Record good h p : Prop := {
  gd_sentinel : is_sentinel p = false;
  gd_null : sh_ptr p = None -> p = null;
  gd_bucket : forall a, sh_ptr p = Some a -> exists k v, h !! a = Some (mkBucket k (Some v))
}.

Lemma rcells_lookup h bs i : rcells h bs !! i = rcell h <$> bs !! i.
Proof. apply list_lookup_fmap. Qed.
Lemma rcells_length h bs : length (rcells h bs) = length bs.
Proof. apply length_fmap. Qed.

Lemma good_null h : good h null.
Proof. by split. Qed.
Lemma good_not_sentinel h p : good h p -> p <> SENTINEL.
Proof. by intros [Hs _ _] ->. Qed.
Lemma rcell_null h p : good h p -> rcell h p = None -> p = null.
Proof.
  intros [_ Hn Hb]. unfold rcell. destruct (sh_ptr p) as [a|]; [|by intros _; apply Hn]. destruct (Hb a eq_refl) as (k & v & E). cbn. by rewrite E.
Qed.
Lemma rcell_bucket h p a k v : sh_ptr p = Some a -> h !! a = Some (mkBucket k (Some v)) ->
  rcell h p = Some (k, if is_tombstone p then None else Some v).
Proof. intros Ha Hb. unfold rcell. rewrite Ha. cbn. by rewrite Hb. Qed.

Lemma good_mono h h' p : h ⊆ h' -> good h p -> good h' p /\ rcell h' p = rcell h p.
Proof.
  intros Hh [H1 H2 H3]. split.
  - split; [done..|]. intros a Ha. destruct (H3 a Ha) as (k & v & E). exists k, v. by eapply lookup_weaken.
  - unfold rcell. destruct (sh_ptr p) as [a|] eqn:Ha; [|done]. destruct (H3 a eq_refl) as (k & v & E). cbn. rewrite E.
    by rewrite (lookup_weaken _ _ _ _ E Hh).
Qed.
Lemma rcells_mono h h' bs : h ⊆ h' -> (forall i p, bs !! i = Some p -> good h p) -> rcells h' bs = rcells h bs.
Proof.
  intros Hh Hg. apply list_eq. intros i. rewrite !rcells_lookup. destruct (bs !! i) as [p|] eqn:Hi; [|done]. cbn. f_equal.
  by apply good_mono, (Hg i).
Qed.

(** The pointers that the steps write. *)
Lemma good_new h b k v : b = mkBucket k (Some v) -> let '(h', a) := balloc h b in
  h ⊆ h' /\ good h' (mkShared (Some a) 0) /\ rcell h' (mkShared (Some a) 0) = Some (k, Some v).
Proof.
  intros ->. unfold balloc. set (a := fresh (dom h)). assert (Ha : h !! a = None) by (apply not_elem_of_dom, is_fresh).
  split; [by apply insert_subseteq|]. split.
  - split; [done..|]. cbn. intros ? [= <-]. exists k, v. apply lookup_insert_eq.
  - unfold rcell. cbn. by rewrite lookup_insert_eq.
Qed.
Lemma good_tombstone h p k w : good h p -> rcell h p = Some (k, w) ->
  good h (with_tag p TOMBSTONE_TAG) /\ rcell h (with_tag p TOMBSTONE_TAG) = Some (k, None).
Proof.
  intros [H1 H2 H3] Hc. unfold rcell in *. destruct (sh_ptr p) as [a|] eqn:Ha; [|done]. destruct (H3 a eq_refl) as (k' & v & E).
  cbn in *. rewrite Ha. cbn. rewrite E in *. cbn in *. injection Hc as -> _. split; [|done]. split; [done|cbn; congruence|].
  cbn. rewrite Ha. intros ? [= <-]. eauto.
Qed.
Lemma good_borrow h p : good h p -> p <> null ->
  good h (borrow p) /\ rcell h (borrow p) = rcell h p /\ is_borrowed (borrow p) = true /\ borrow p <> null.
Proof.
  intros [H1 H2 H3] Hne. destruct (borrow_tags p) as (T1 & T2 & T3). split; [|split; [|split; [done|]]].
  - split; [by rewrite T1| |exact H3]. cbn. intros E. by apply H2 in E.
  - unfold rcell. cbn [borrow with_tag sh_ptr]. fold (borrow p). by rewrite T2.
  - intros E. rewrite E in T3. done.
Qed.

(** ** Buckets a search has passed by *)

Definition passed cs k (i : nat) : Prop :=
  forall q x, (q < i)%nat -> probe (length cs) (hash_of k) !! q = Some x -> exists k' w, cs !! x = Some (Some (k', w)) /\ k' <> k.

Lemma slot_at cs k c x : forall idxs i,
  (forall q y, (q < i)%nat -> idxs !! q = Some y -> exists k' w, cs !! y = Some (Some (k', w)) /\ k' <> k) ->
  idxs !! i = Some x -> cs !! x = Some c -> stops k c = true -> slot cs idxs k = Some x.
Proof.
  induction idxs as [|y idxs IH]; intros [|i] Hp Hx Hc Hs; try done; cbn [slot] in *.
  - injection Hx as ->. by rewrite Hc, Hs.
  - destruct (Hp 0%nat y) as (k' & w & Hy & Hne); [lia|done|]. rewrite Hy. cbn. rewrite bool_decide_eq_false_2 by done.
    eapply (IH i); [|done..]. intros q z Hq. apply (Hp (S q)). lia.
Qed.
Lemma slot_never cs k : forall idxs, (forall q y, idxs !! q = Some y -> exists k' w, cs !! y = Some (Some (k', w)) /\ k' <> k) ->
  slot cs idxs k = None.
Proof.
  induction idxs as [|y idxs IH]; [done|]. intros Hp. cbn [slot]. destruct (Hp 0%nat y eq_refl) as (k' & w & Hy & Hne). rewrite Hy. cbn.
  rewrite bool_decide_eq_false_2 by done. apply IH. intros q z. apply (Hp (S q)).
Qed.
Lemma passed_slot cs k i x c :
  passed cs k i -> probe (length cs) (hash_of k) !! i = Some x -> cs !! x = Some c -> stops k c = true -> slot_of hash_of cs k = Some x.
Proof. intros Hp Hx Hc Hs. by eapply slot_at. Qed.
Lemma passed_zero cs k : passed cs k 0.
Proof. intros q x Hq. lia. Qed.
Lemma passed_next cs k i x k' w :
  passed cs k i -> probe (length cs) (hash_of k) !! i = Some x -> cs !! x = Some (Some (k', w)) -> k' <> k -> passed cs k (S i).
Proof.
  intros Hp Hx Hc Hne q y Hq Hy. destruct (decide (q = i)) as [->|Hqi]; [|apply (Hp q); [lia|done]].
  rewrite Hx in Hy. injection Hy as <-. eauto.
Qed.
Lemma passed_all cs k i : passed cs k i -> (length (probe (length cs) (hash_of k)) <= i)%nat -> lookup_cell hash_of cs k = None.
Proof.
  intros Hp Hi. unfold lookup_cell, slot_of. rewrite slot_never; [done|]. intros q y Hy. apply (Hp q); [|done]. apply lookup_lt_Some in Hy. lia.
Qed.
Lemma lookup_at cs k x c : slot_of hash_of cs k = Some x -> cs !! x = Some c -> lookup_cell hash_of cs k = kw ← c; snd kw.
Proof. intros Hs Hc. unfold lookup_cell. rewrite Hs. cbn. by rewrite Hc. Qed.
Lemma lookup_key cs i k w : table_ok hash_of cs -> cs !! i = Some (Some (k, w)) -> lookup_cell hash_of cs k = w.
Proof. intros Hok Hi. by rewrite (lookup_at cs k i _ (Hok _ _ _ Hi) Hi). Qed.
Lemma lookup_absent cs k : absent cs k -> lookup_cell hash_of cs k = None.
Proof.
  intros Hab. unfold lookup_cell. destruct (slot_of hash_of cs k) as [i|] eqn:E; [|done]. cbn.
  destruct (slot_some _ _ _ _ E) as (_ & c & Hc & Hs). rewrite Hc. cbn. destruct c as [[k' w]|]; [|done]. cbn in Hs.
  apply bool_decide_eq_true in Hs as ->. by apply Hab in Hc.
Qed.

(** A bucket that has a key keeps it. *)
Definition grows cs cs' : Prop :=
  length cs' = length cs /\ forall i k w, cs !! i = Some (Some (k, w)) -> exists w', cs' !! i = Some (Some (k, w')).
Lemma passed_grows cs cs' k i : grows cs cs' -> passed cs k i -> passed cs' k i.
Proof.
  intros [Hl Hg] Hp q x Hq Hx. rewrite Hl in Hx. destruct (Hp q x Hq Hx) as (k' & w & Hc & Hne). destruct (Hg _ _ _ Hc) as [w' Hw]. eauto.
Qed.
Lemma grows_refl cs : grows cs cs.
Proof. split; [done|]. eauto. Qed.
Lemma grows_write cs k i c w : cs !! i = Some c -> stops k c = true -> grows cs (<[i := Some (k, w)]> cs).
Proof.
  intros Hc Hs. split; [apply length_insert|]. intros j k' w' Hj. destruct (decide (i = j)) as [<-|Hne].
  - rewrite Hc in Hj. injection Hj as ->. cbn in Hs. apply bool_decide_eq_true in Hs as ->. rewrite list_lookup_insert_eq by (by eapply lookup_lt_Some). eauto.
  - rewrite list_lookup_insert_ne by done. eauto.
Qed.

(** Writing a key where a search for it ends. *)
Lemma absent_write cs k i w k' : k' <> k -> absent cs k' -> absent (<[i := Some (k, w)]> cs) k'.
Proof.
  intros Hne Hab j w' Hj. destruct (decide (i = j)) as [<-|Hij].
  - destruct (decide (i < length cs)%nat); [rewrite list_lookup_insert_eq in Hj by done; congruence|].
    rewrite list_insert_ge in Hj by lia. by apply Hab in Hj.
  - rewrite list_lookup_insert_ne in Hj by done. by apply Hab in Hj.
Qed.
Lemma rcells_write h bs i p : (i < length bs)%nat -> rcells h (<[i := p]> bs) = <[i := rcell h p]> (rcells h bs).
Proof. intros Hi. unfold rcells. by rewrite list_fmap_insert. Qed.
End cells.

(** ** Copying a bucket into the next array *)

Section moving.
Context {K V : Type} `{EqDecision K}.
Variable hash_of : K -> Z.
#[local] Notation bheap := (gmap positive (Bucket K V)).
#[local] Notation cell := (option (K * option V)).
Implicit Types (h : bheap) (bs nbs : list Shared) (p : Shared) (cs : list cell) (k : K).

Lemma good_readable h p : good h p -> readable h p.
Proof. intros [H1 H2 H3]. split; [done|]. split; [done|]. intros a Ha. destruct (H3 a Ha) as (k & v & E). eauto. Qed.

(** A search stops by the keys alone. *)
Lemma slot_cells h bs k : forall idxs, slot (cells_of h bs) idxs k = slot (rcells h bs) idxs k.
Proof.
  induction idxs as [|i idxs IH]; [done|]. cbn. rewrite cells_lookup, rcells_lookup. destruct (bs !! i) as [p|]; [|done]. cbn.
  assert (E : stops k (cell_of h p) = stops k (rcell h p)).
  { unfold cell_of, rcell. destruct (sh_ptr p) as [a|]; [|done]. cbn. by destruct (h !! a). }
  rewrite E. by destruct (stops k (rcell h p)).
Qed.

Lemma grow_ok h ba p a k v : (forall i q, ba_buckets ba !! i = Some q -> good h q) -> power_of_two (length (ba_buckets ba)) ->
  good h p -> sh_ptr p = Some a -> h !! a = Some (mkBucket k (Some v)) -> absent (rcells h (ba_buckets ba)) k ->
  insert_for_grow h ba (hash_of k) (borrow p) =
  Ok match slot_of hash_of (rcells h (ba_buckets ba)) k with
     | None => (ba, None)
     | Some i => if is_tombstone p then (ba, None) else (with_buckets ba (<[i := borrow p]> (ba_buckets ba)), Some i)
     end.
Proof.
  intros Hg Hn Hp Ha Hb Hab. destruct (borrow_tags p) as (Hs & Ht & Hbo). unfold insert_for_grow.
  assert (Hnn : is_null (borrow p) = false) by (unfold is_null; cbn; by rewrite Ha).
  rewrite Hnn, Hs, (gd_sentinel _ _ Hp), Hbo. cbn [negb assert_that mbind res_bind sh_ptr borrow with_tag]. rewrite Ha.
  unfold bref. rewrite Hb. cbn [expect_some mbind res_bind bk_key]. unfold array_len.
  rewrite (search_slot h (ba_buckets ba)); [|intros i q Hq; by apply good_readable, (Hg i)|intros i Hi; by eapply probe_range].
  unfold slot_of. rewrite rcells_length, slot_cells.
  destruct (slot (rcells h (ba_buckets ba)) _ k) as [i|] eqn:Hi; [|done].
  destruct (slot_some _ _ _ _ Hi) as (_ & c & Hc & Hst). rewrite rcells_lookup in Hc. destruct (ba_buckets ba !! i) as [q|] eqn:Hq; [|done].
  cbn in Hc. injection Hc as <-. assert (Hnull : rcell h q = None).
  { destruct (rcell h q) as [[k' w]|] eqn:Hcq; [|done]. cbn in Hst. apply bool_decide_eq_true in Hst as ->. exfalso. apply (Hab i w).
    rewrite rcells_lookup, Hq. cbn. by rewrite Hcq. }
  apply (rcell_null _ _ (Hg _ _ Hq)) in Hnull as ->. cbn [sh_ptr null mbind option_bind]. fold (borrow p). rewrite Ht. by destruct (is_tombstone p).
Qed.

(** The old array [bs] with its cells [cs] and the next one [nbs], with the buckets
    before [j] moved; [st] is where the key of bucket [j] was put. *)
Record move_ok h bs cs nbs (j : nat) (st : option nat) : Prop := {
  mv_sealed : forall i p, bs !! i = Some p -> p = SENTINEL <-> (i < j)%nat;
  mv_next : forall i q, nbs !! i = Some q -> good h q /\ (q <> null -> is_borrowed q = true);
  mv_power : power_of_two (length nbs);
  mv_table : table_ok hash_of (rcells h nbs);
  mv_from : forall i k w, rcells h nbs !! i = Some (Some (k, w)) ->
    exists i' w', cs !! i' = Some (Some (k, w')) /\ ((i' < j)%nat \/ i' = j /\ st = Some i);
  mv_moved : forall i k w, (i < j)%nat -> cs !! i = Some (Some (k, w)) -> lookup_cell hash_of (rcells h nbs) k = w;
  mv_state : forall x, st = Some x -> exists k w w', cs !! j = Some (Some (k, w)) /\ rcells h nbs !! x = Some (Some (k, w'));
  mv_room : (occupied (rcells h nbs) <= j + (if st then 1 else 0))%nat
}.

(** The pointer the mover has loaded from bucket [j]; its key is there to stay. *)
Definition loaded h cs (j : nat) (st : option nat) p : Prop :=
  good h p /\ match rcell h p with None => st = None | Some (k, _) => exists w, cs !! j = Some (Some (k, w)) end.
(** What it has put in the next array: its value, unless the array is full. *)
Definition copied h nbs (st : option nat) p : Prop :=
  match rcell h p with
  | None => True
  | Some (k, w) => lookup_cell hash_of (rcells h nbs) k = w \/
      (st = None /\ is_Some w /\ (length nbs <= occupied (rcells h nbs))%nat)
  end.

Lemma move_start h bs cs n : power_of_two n -> (forall i p, bs !! i = Some p -> p <> SENTINEL) -> move_ok h bs cs (replicate n null) 0 None.
Proof.
  intros Hn Hb. assert (E : rcells h (replicate n null) = replicate n None) by (unfold rcells; by rewrite fmap_replicate).
  destruct (empty_table (K := K) (V := V) hash_of n) as (T1 & T2 & T3 & _). split; rewrite ?E.
  - intros i p Hi. split; [by intros ->; destruct (Hb _ _ Hi)|lia].
  - intros i q [-> _]%lookup_replicate. split; [apply good_null|done].
  - by rewrite length_replicate.
  - exact T1.
  - intros i k w Hi. by apply T3 in Hi.
  - intros; lia.
  - done.
  - rewrite T2. lia.
Qed.

(** The live array changes at a bucket that is no sentinel. *)
Lemma move_live h h' bs cs nbs j st x p c k w : move_ok h bs cs nbs j st -> h ⊆ h' ->
  bs !! x = Some p -> p <> SENTINEL -> cs !! x = Some c -> stops k c = true -> forall p', p' <> SENTINEL ->
  move_ok h' (<[x := p']> bs) (<[x := Some (k, w)]> cs) nbs j st.
Proof.
  intros [M1 M2 M3 M4 M5 M6 M7 M8] Hh Hx Hp Hc Hs p' Hp'. destruct (grows_write cs k x c w Hc Hs) as [_ Hg].
  assert (E : rcells h' nbs = rcells h nbs) by (apply rcells_mono; [done|]; intros i q Hq; by apply (M2 i)).
  assert (Hxj : (j <= x)%nat) by (destruct (M1 _ _ Hx) as [_ Hl]; destruct (decide (x < j)%nat); [by apply Hl in l|lia]).
  split; rewrite ?E; try done.
  - intros i q Hi. destruct (decide (x = i)) as [<-|Hne].
    + rewrite list_lookup_insert_eq in Hi by (by eapply lookup_lt_Some). injection Hi as <-. split; [done|lia].
    + rewrite list_lookup_insert_ne in Hi by done. by apply M1.
  - intros i q Hq. destruct (M2 i q Hq) as [G B]. split; [by apply (good_mono h)|done].
  - intros i k' w' Hi. destruct (M5 _ _ _ Hi) as (i' & w0 & Hi' & Hor). destruct (Hg _ _ _ Hi') as [w1 Hw1]. eauto.
  - intros i k' w' Hi. rewrite list_lookup_insert_ne by lia. by apply M6.
  - intros y Hy. destruct (M7 y Hy) as (k' & w0 & w1 & Hj & Hy'). destruct (Hg _ _ _ Hj) as [w2 Hw2]. eauto.
Qed.
Lemma loaded_grows h h' cs cs' j st p : loaded h cs j st p -> h ⊆ h' -> grows cs cs' -> loaded h' cs' j st p.
Proof.
  intros [G L] Hh [_ Hg]. destruct (good_mono _ _ _ Hh G) as [G' E]. split; [done|]. rewrite E. destruct (rcell h p) as [[k w]|]; [|done].
  destruct L as [w' Hw]. by eapply Hg.
Qed.
Lemma copied_mono h h' nbs st p : copied h nbs st p -> h ⊆ h' -> good h p -> (forall i q, nbs !! i = Some q -> good h q) -> copied h' nbs st p.
Proof.
  intros C Hh G Hn. unfold copied. rewrite (proj2 (good_mono _ _ _ Hh G)), (rcells_mono _ _ _ Hh Hn). exact C.
Qed.

(** Two buckets of a table do not have the same key. *)
Lemma table_apart cs i j k w w' : table_ok hash_of cs -> cs !! i = Some (Some (k, w)) -> cs !! j = Some (Some (k, w')) -> i = j.
Proof. intros Hok Hi Hj. pose proof (Hok _ _ _ Hi). pose proof (Hok _ _ _ Hj). congruence. Qed.

(** A pointer written into the next array, where a search for its key ends. *)
Lemma next_write h nbs x p k w : (forall i q, nbs !! i = Some q -> good h q /\ (q <> null -> is_borrowed q = true)) ->
  table_ok hash_of (rcells h nbs) -> slot_of hash_of (rcells h nbs) k = Some x -> good h p -> rcell h p = Some (k, w) ->
  (forall i q, <[x := borrow p]> nbs !! i = Some q -> good h q /\ (q <> null -> is_borrowed q = true)) /\
  rcells h (<[x := borrow p]> nbs) = <[x := Some (k, w)]> (rcells h nbs) /\ table_ok hash_of (rcells h (<[x := borrow p]> nbs)) /\
  (forall k', lookup_cell hash_of (rcells h (<[x := borrow p]> nbs)) k' = if decide (k' = k) then w else lookup_cell hash_of (rcells h nbs) k').
Proof.
  intros Hg Hok Hs Hp Hc. assert (Hne : p <> null) by (by intros ->). destruct (good_borrow h p Hp Hne) as (B1 & B2 & B3 & _).
  destruct (slot_some _ _ _ _ Hs) as (_ & c & Hcx & _). pose proof (lookup_lt_Some _ _ _ Hcx) as Hlt. rewrite rcells_length in Hlt.
  assert (E : rcells h (<[x := borrow p]> nbs) = <[x := Some (k, w)]> (rcells h nbs)) by (by rewrite rcells_write, B2, Hc).
  rewrite E. split; [|split; [done|by apply table_write]]. intros i q Hi. destruct (decide (x = i)) as [<-|Hxi].
  - rewrite list_lookup_insert_eq in Hi by done. by injection Hi as <-.
  - rewrite list_lookup_insert_ne in Hi by done. by apply (Hg i).
Qed.

Lemma move_put_again h bs cs nbs j x p : move_ok h bs cs nbs j (Some x) -> table_ok hash_of cs -> loaded h cs j (Some x) p ->
  move_ok h bs cs (<[x := borrow p]> nbs) j (Some x) /\ copied h (<[x := borrow p]> nbs) (Some x) p.
Proof.
  intros [M1 M2 M3 M4 M5 M6 M7 M8] Hok [Hp Hl]. destruct (rcell h p) as [[k w]|] eqn:Hc; [|done]. destruct Hl as [w0 Hj].
  destruct (M7 x eq_refl) as (k' & w1 & w' & Hj' & Hx). rewrite Hj in Hj'. injection Hj' as <- <-.
  pose proof (M4 _ _ _ Hx) as Hs. destruct (next_write h nbs x p k w M2 M4 Hs Hp Hc) as (N1 & N2 & N3 & N4).
  assert (Hx' : <[x := Some (k, w)]> (rcells h nbs) !! x = Some (Some (k, w))) by (apply list_lookup_insert_eq; by eapply lookup_lt_Some).
  split; [|unfold copied; rewrite Hc; left; rewrite N4; by rewrite decide_True].
  split; try done.
  - by rewrite length_insert.
  - rewrite N2. intros i k' w2 Hi. destruct (decide (x = i)) as [<-|Hne].
    + rewrite Hx' in Hi. injection Hi as <- <-. exists j, w0. split; [done|]. by right.
    + rewrite list_lookup_insert_ne in Hi by done. by eapply M5.
  - intros i k' w2 Hi Hci. rewrite N4. rewrite decide_False; [by eapply M6|]. intros ->. pose proof (table_apart _ _ _ _ _ _ Hok Hci Hj). lia.
  - intros y [= <-]. rewrite N2. eauto 6.
  - rewrite N2, (occupied_write _ _ _ _ Hx). exact M8.
Qed.

Lemma move_absent h bs cs nbs j p k w : move_ok h bs cs nbs j None -> table_ok hash_of cs -> loaded h cs j None p -> rcell h p = Some (k, w) ->
  absent (rcells h nbs) k.
Proof.
  intros M Hok [_ Hl] Hc i w' Hi. rewrite Hc in Hl. destruct Hl as [w0 Hj].
  destruct (mv_from _ _ _ _ _ _ M _ _ _ Hi) as (i' & w1 & Hi' & [Hlt|[_ ?]]); [|done].
  pose proof (table_apart _ _ _ _ _ _ Hok Hi' Hj). lia.
Qed.

Lemma move_put_first h bs cs ba j p a k v : let nbs := ba_buckets ba in
  move_ok h bs cs nbs j None -> table_ok hash_of cs -> loaded h cs j None p -> sh_ptr p = Some a -> h !! a = Some (mkBucket k (Some v)) ->
  exists ba' st, insert_for_grow h ba (hash_of k) (borrow p) = Ok (ba', st) /\
    length (ba_buckets ba') = length nbs /\ move_ok h bs cs (ba_buckets ba') j st /\ loaded h cs j st p /\ copied h (ba_buckets ba') st p.
Proof.
  intros nbs M Hok Hl Ha Hb. pose proof (rcell_bucket h p a k v Ha Hb) as Hc. pose proof (move_absent _ _ _ _ _ _ _ _ M Hok Hl Hc) as Hab.
  pose proof Hl as [Hp Hj]. rewrite Hc in Hj. destruct M as [M1 M2 M3 M4 M5 M6 M7 M8].
  rewrite (grow_ok h ba p a k v) by (done || by intros i q Hq; apply (M2 i)). fold nbs.
  destruct (slot_of hash_of (rcells h nbs) k) as [x|] eqn:Hs.
  2: { exists ba, None. split; [done|]. split; [done|]. split; [by split|]. split; [done|]. unfold copied. rewrite Hc.
    destruct (is_tombstone p); [left; by apply lookup_absent|]. right. split; [done|]. split; [eauto|]. fold nbs.
    destruct (decide (occupied (rcells h nbs) < length nbs)%nat) as [Hroom|]; [|lia].
    destruct (slot_ends hash_of (rcells h nbs) k) as [x Hx]; [by rewrite rcells_length..|congruence]. }
  destruct (is_tombstone p).
  { exists ba, None. split; [done|]. split; [done|]. split; [by split|]. split; [done|]. unfold copied. rewrite Hc. left. by apply lookup_absent. }
  destruct (next_write h nbs x p k (Some v) M2 M4 Hs Hp Hc) as (N1 & N2 & N3 & N4).
  destruct (slot_some _ _ _ _ Hs) as (_ & c & Hcx & Hst).
  assert (Hx' : <[x := Some (k, Some v)]> (rcells h nbs) !! x = Some (Some (k, Some v))) by (apply list_lookup_insert_eq; by eapply lookup_lt_Some).
  destruct Hj as [w0 Hj]. eexists _, (Some x). split; [done|]. cbn [ba_buckets with_buckets]. split; [apply length_insert|]. split; [|split].
  - split; try done.
    + by rewrite length_insert.
    + rewrite N2. intros i k' w2 Hi. destruct (decide (x = i)) as [<-|Hne].
      * rewrite Hx' in Hi. injection Hi as <- <-. exists j, w0. split; [done|]. by right.
      * rewrite list_lookup_insert_ne in Hi by done. destruct (M5 _ _ _ Hi) as (i' & w1 & Hi' & [?|[_ ?]]); [|done]. eauto.
    + intros i k' w2 Hi Hci. rewrite N4. rewrite decide_False; [by eapply M6|]. intros ->. pose proof (table_apart _ _ _ _ _ _ Hok Hci Hj). lia.
    + intros y [= <-]. rewrite N2. eauto 6.
    + rewrite N2, (occupied_write _ _ _ _ Hcx). destruct c as [[k' w']|]; [|lia]. cbn in Hst. apply bool_decide_eq_true in Hst as ->.
      by apply Hab in Hcx.
  - split; [done|]. rewrite Hc. eauto.
  - unfold copied. rewrite Hc. left. rewrite N4. by rewrite decide_True.
Qed.

(** The bucket [j] becomes a sentinel, and the next array has what was in it. *)
Lemma move_seal h bs cs nbs j st p : move_ok h bs cs nbs j st -> bs !! j = Some p -> cs !! j = Some (rcell h p) ->
  (forall k w, rcell h p = Some (k, w) -> lookup_cell hash_of (rcells h nbs) k = w) ->
  move_ok h (<[j := SENTINEL]> bs) cs nbs (S j) None.
Proof.
  intros [M1 M2 M3 M4 M5 M6 M7 M8] Hj Hc Hcp. split; try done.
  - intros i q Hi. destruct (decide (j = i)) as [<-|Hne].
    + rewrite list_lookup_insert_eq in Hi by (by eapply lookup_lt_Some). injection Hi as <-. split; [lia|done].
    + rewrite list_lookup_insert_ne in Hi by done. rewrite (M1 _ _ Hi). lia.
  - intros i k w Hi. destruct (M5 _ _ _ Hi) as (i' & w' & Hi' & Hor). exists i', w'. split; [done|]. left. lia.
  - intros i k w Hi Hci. destruct (decide (i = j)) as [->|Hne].
    + rewrite Hc in Hci. injection Hci as Hci. by apply Hcp.
    + eapply M6; [|done]. lia.
  - destruct st; lia.
Qed.

(** When every bucket was moved, the next array is the table. *)
Lemma move_done h bs cs nbs : move_ok h bs cs nbs (length cs) None -> table_ok hash_of cs ->
  forall k, lookup_cell hash_of (rcells h nbs) k = lookup_cell hash_of cs k.
Proof.
  intros M Hok k. destruct (slot_of hash_of cs k) as [i|] eqn:Hs.
  - destruct (slot_some _ _ _ _ Hs) as (_ & [[k' w]|] & Hc & Hst).
    + cbn in Hst. apply bool_decide_eq_true in Hst as ->. rewrite (lookup_key hash_of cs i k w Hok Hc).
      eapply mv_moved; [done| |done]. by eapply lookup_lt_Some.
    + rewrite (lookup_at hash_of cs k i _ Hs Hc). cbn. apply lookup_absent. intros x w Hx.
      destruct (mv_from _ _ _ _ _ _ M _ _ _ Hx) as (i' & w' & Hi' & _). pose proof (Hok _ _ _ Hi'). congruence.
  - assert (E : lookup_cell hash_of cs k = None) by (unfold lookup_cell; by rewrite Hs). rewrite E. apply lookup_absent. intros x w Hx.
    destruct (mv_from _ _ _ _ _ _ M _ _ _ Hx) as (i' & w' & Hi' & _). pose proof (Hok _ _ _ Hi'). congruence.
Qed.
End moving.
