(* ===== verification/TableRaceSys.v ===== *)
(** Every interleaving of calls on the hash table ([TableRace]) keeps the invariant of
    [TableRaceInv], and the calls take effect one after the other as on a map. *)
From S2P Require Import Prelude Probing Bucket BucketTable TableRace TableRaceInv.

Section sys.
Context {K V : Type} `{Countable K}.
Variable hash_of : K -> Z.
#[local] Notation bheap := (gmap positive (Bucket K V)).
#[local] Notation cell := (option (K * option V)).
Implicit Types (h : bheap) (p : Shared) (cs : list cell) (k : K) (s : RaceTable K V) (t : TableThread K V) (op : TableOp K V) (m : gmap K V).
Implicit Types (l : list RaceArray) (ra : RaceArray) (L a i j n : nat).

Definition buckets_of ra : list Shared := ba_buckets (ra_array ra).

(** ** The invariant *)

(** The exchange a call is about to try is the one its closures ask for. *)
Definition wants h op (seen : Shared) (nb : option (Bucket K V)) : Prop :=
  good h seen /\ (rcell h seen = None \/ exists w, rcell h seen = Some (table_key op, w)) /\
  match op, (kw ← rcell h seen; snd kw) with
  | TRemoveIf k condition, Some v => nb = None /\ condition k v = true
  | TInsertIfNotPresent k v, None => nb = Some (mkBucket k (Some v))
  | TInsertOrModify k v modifier, w => nb = Some (mkBucket k (Some match w with Some v0 => modifier k v0 | None => v end))
  | _, _ => False
  end.

Definition in_range l a i : Prop := exists ra, l !! a = Some ra /\ (i < length (buckets_of ra))%nat.
Definition locked_by l a n : Prop := exists ra, l !! a = Some ra /\ rehash_lock ra = Some n.

Definition pc_fine h l L cs n op (pc : TablePc K V) : Prop :=
  match pc with
  | AtEnter | TableReturned _ => True
  | AtCheck a | AtCheckLen a _ | AtWait a | AtCountLen a _ _ | AtCountTombstone a _ | AtSwing a _ => (a <= L)%nat
  | AtRehash a rop => (a <= L)%nat /\ rop <> Skip /\ (rop = Shrink -> in_range l a 1)
  | AtBucket a i => (a <= L)%nat /\ in_range l a i /\ (a = L -> passed hash_of cs (table_key op) i)
  | AtExchange a i seen nb => (a <= L)%nat /\ in_range l a i /\ (a = L -> passed hash_of cs (table_key op) i) /\ wants h op seen nb
  | AtMove a j st => (a <= L)%nat /\ locked_by l a n /\ ((a < L)%nat -> st = None)
  | AtPut a _ _ _ | AtSeal a _ _ _ => a = L /\ locked_by l a n
  end.
Definition thread_fine h l L cs n t : Prop := (tt_current t <= L)%nat /\ pc_fine h l L cs n (tt_op t) (tt_pc t).

(** The holder of the lock of the live array is moving its buckets. *)
Definition mover_ok h (bs nbs : list Shared) cs L (pc : TablePc K V) : Prop :=
  match pc with
  | AtMove a j st => a = L /\ move_ok hash_of h bs cs nbs j st
  | AtPut a j st p => a = L /\ move_ok hash_of h bs cs nbs j st /\ (j < length bs)%nat /\ loaded h cs j st p
  | AtSeal a j st p => a = L /\ move_ok hash_of h bs cs nbs j st /\ (j < length bs)%nat /\ loaded h cs j st p /\ copied hash_of h nbs st p
  | _ => False
  end.

Record live_ok h (bs : list Shared) cs : Prop := {
  lv_len : length cs = length bs;
  lv_bucket : forall i p, bs !! i = Some p -> p <> SENTINEL -> good h p /\ cs !! i = Some (rcell h p);
  lv_table : table_ok hash_of cs;
  lv_left : exists i p, bs !! i = Some p /\ p <> SENTINEL
}.

Definition migration h l (ts : list (TableThread K V)) L cs ra : Prop :=
  match rehash_lock ra with
  | None => length l = S L /\ forall i p, buckets_of ra !! i = Some p -> p <> SENTINEL
  | Some n => exists t nx, ts !! n = Some t /\ l !! S L = Some nx /\ length l = S (S L) /\ rehash_lock nx = None /\
      mover_ok h (buckets_of ra) (buckets_of nx) cs L (tt_pc t)
  end.

Record rinv s m L cs : Prop := {
  ri_power : forall a ra, rt_arrays s !! a = Some ra -> power_of_two (length (buckets_of ra));
  ri_old : forall a, (a < L)%nat -> exists ra, rt_arrays s !! a = Some ra /\ forall i p, buckets_of ra !! i = Some p -> p = SENTINEL;
  ri_live : exists ra, rt_arrays s !! L = Some ra /\ live_ok (rt_heap s) (buckets_of ra) cs /\
    migration (rt_heap s) (rt_arrays s) (rt_threads s) L cs ra;
  ri_map : forall k, lookup_cell hash_of cs k = m !! k;
  ri_current : (rt_current s <= L)%nat;
  ri_threads : forall n t, rt_threads s !! n = Some t -> thread_fine (rt_heap s) (rt_arrays s) L cs n t
}.

(** ** How the world of the other threads changes *)

Record evolves h l L cs h' l' L' cs' (n : nat) : Prop := {
  ev_heap : h ⊆ h';
  ev_arrays : forall a ra, l !! a = Some ra -> exists ra', l' !! a = Some ra' /\ length (buckets_of ra') = length (buckets_of ra) /\
    forall n', n' <> n -> rehash_lock ra = Some n' -> rehash_lock ra' = Some n';
  ev_live : (L' = L /\ grows cs cs') \/ ((L < L')%nat /\ locked_by l L n)
}.

Lemma range_evolves h l L cs h' l' L' cs' n a i : evolves h l L cs h' l' L' cs' n -> in_range l a i -> in_range l' a i.
Proof. intros E (ra & Ha & Hi). destruct (ev_arrays _ _ _ _ _ _ _ _ _ E _ _ Ha) as (ra' & Ha' & Hl & _). exists ra'. by rewrite Hl. Qed.
Lemma locked_evolves h l L cs h' l' L' cs' n a n' : evolves h l L cs h' l' L' cs' n -> n' <> n -> locked_by l a n' -> locked_by l' a n'.
Proof. intros E Hne (ra & Ha & Hk). destruct (ev_arrays _ _ _ _ _ _ _ _ _ E _ _ Ha) as (ra' & Ha' & _ & Hl). exists ra'. auto. Qed.
Lemma locked_once l a n n' : locked_by l a n -> locked_by l a n' -> n = n'.
Proof. intros (ra & Ha & Hn) (ra' & Ha' & Hn'). congruence. Qed.
Lemma wants_mono h h' op seen nb : h ⊆ h' -> wants h op seen nb -> wants h' op seen nb.
Proof. intros Hh (G & C & W). destruct (good_mono _ _ _ Hh G) as [G' E]. split; [done|]. by rewrite E. Qed.

Lemma thread_evolves h l L cs h' l' L' cs' n n' t :
  evolves h l L cs h' l' L' cs' n -> n' <> n -> thread_fine h l L cs n' t -> thread_fine h' l' L' cs' n' t.
Proof.
  intros E Hne [Hc Hpc]. assert (HL : (L <= L')%nat) by (destruct (ev_live _ _ _ _ _ _ _ _ _ E) as [[-> _]|[]]; lia).
  assert (Hpass : forall a i, (a <= L)%nat -> (a = L -> passed hash_of cs (table_key (tt_op t)) i) -> a = L' -> passed hash_of cs' (table_key (tt_op t)) i).
  { intros a i Ha Hp ->. destruct (ev_live _ _ _ _ _ _ _ _ _ E) as [[-> Hg]|[]]; [|lia]. by eapply passed_grows, Hp. }
  assert (Hmine : forall a, (a <= L)%nat -> locked_by l a n' -> (a < L')%nat -> (a < L)%nat \/ L' = L).
  { intros a Ha Hl Hlt. destruct (ev_live _ _ _ _ _ _ _ _ _ E) as [[-> _]|[_ Hl']]; [by right|]. left.
    destruct (decide (a = L)) as [->|]; [|lia]. by destruct Hne, (locked_once l L n' n). }
  split; [lia|]. destruct (tt_pc t) as [|a|a tbc|a i|a i seen nb|a d r|a r|a rop|a|a j st|a j st p|a j st p|a r|r]; cbn in *; try done; try lia.
  - destruct Hpc as (H1 & H2 & H3). split; [lia|]. split; [by eapply range_evolves|eauto].
  - destruct Hpc as (H1 & H2 & H3 & H4). split; [lia|]. split; [by eapply range_evolves|]. split; [eauto|]. by eapply wants_mono; [apply E|].
  - destruct Hpc as (H1 & H2 & H3). split; [lia|]. split; [done|]. intros Hs. by eapply range_evolves, H3.
  - destruct Hpc as (H1 & H2 & H3). split; [lia|]. split; [by eapply locked_evolves|]. intros Hlt. apply H3.
    destruct (Hmine a H1 H2 Hlt) as [?| ->]; [done|]. done.
  - destruct Hpc as [-> H2]. split; [|by eapply locked_evolves]. destruct (ev_live _ _ _ _ _ _ _ _ _ E) as [[-> _]|[_ Hl]]; [done|].
    by destruct Hne, (locked_once l L n' n).
  - destruct Hpc as [-> H2]. split; [|by eapply locked_evolves]. destruct (ev_live _ _ _ _ _ _ _ _ _ E) as [[-> _]|[_ Hl]]; [done|].
    by destruct Hne, (locked_once l L n' n).
Qed.

(** The threads after a step of thread [n]. *)
Lemma threads_evolve h l L cs h' l' L' cs' n t' (ts : list (TableThread K V)) :
  evolves h l L cs h' l' L' cs' n -> (forall i t, ts !! i = Some t -> thread_fine h l L cs i t) -> thread_fine h' l' L' cs' n t' ->
  forall i t, <[n := t']> ts !! i = Some t -> thread_fine h' l' L' cs' i t.
Proof.
  intros E Hts Ht i t Hi. destruct (decide (i = n)) as [->|Hne].
  - apply list_lookup_insert_Some in Hi as [(_ & <- & _)|[? _]]; done.
  - rewrite list_lookup_insert_ne in Hi by done. by eapply thread_evolves, Hts.
Qed.

(** ** Steps that leave the buckets and the locks alone *)

Lemma alter_thread (f : TableThread K V -> TableThread K V) n t (ts : list (TableThread K V)) : ts !! n = Some t -> alter f n ts = <[n := f t]> ts.
Proof.
  intros Hn. apply list_eq. intros i. destruct (decide (n = i)) as [<-|Hne].
  - rewrite list_lookup_alter_eq, Hn, list_lookup_insert_eq by (by eapply lookup_lt_Some). done.
  - by rewrite list_lookup_alter_ne, list_lookup_insert_ne.
Qed.
Lemma goto_eq s n pc t : rt_threads s !! n = Some t ->
  goto s n pc = mkRaceTable (rt_heap s) (rt_arrays s) (rt_current s) (rt_len s) (destroyed s) (<[n := mkTableThread (tt_op t) (tt_current t) pc]> (rt_threads s)).
Proof. intros Hn. unfold goto. by rewrite (alter_thread _ _ _ _ Hn). Qed.

Definition same_arrays l l' : Prop :=
  length l' = length l /\ forall a ra, l !! a = Some ra -> exists ra', l' !! a = Some ra' /\ buckets_of ra' = buckets_of ra /\ rehash_lock ra' = rehash_lock ra.
Lemma same_refl l : same_arrays l l.
Proof. split; [done|]. eauto. Qed.
Lemma same_back l l' a ra' : same_arrays l l' -> l' !! a = Some ra' -> exists ra, l !! a = Some ra /\ buckets_of ra' = buckets_of ra /\ rehash_lock ra' = rehash_lock ra.
Proof.
  intros [Hl Hs] Ha. destruct (l !! a) as [ra|] eqn:E.
  - destruct (Hs _ _ E) as (ra2 & E2 & H1 & H2). rewrite Ha in E2. injection E2 as <-. eauto.
  - apply lookup_ge_None in E. apply lookup_lt_Some in Ha. lia.
Qed.
Lemma same_evolves h l l' L cs n : same_arrays l l' -> evolves h l L cs h l' L cs n.
Proof.
  intros [Hl Hs]. split; [done| |by left; split; [|apply grows_refl]]. intros a ra Ha. destruct (Hs _ _ Ha) as (ra' & Ha' & Hb & Hk). exists ra'.
  rewrite Hb. split; [done|]. split; [done|]. by rewrite Hk.
Qed.
Lemma pc_same h l l' L cs n op pc : same_arrays l l' -> pc_fine h l L cs n op pc -> pc_fine h l' L cs n op pc.
Proof.
  intros [Hl Hs] Hpc. assert (Hr : forall a i, in_range l a i -> in_range l' a i).
  { intros a i (ra & Ha & Hi). destruct (Hs _ _ Ha) as (ra' & Ha' & Hb & _). exists ra'. by rewrite Hb. }
  assert (Hk : forall a, locked_by l a n -> locked_by l' a n).
  { intros a (ra & Ha & Hi). destruct (Hs _ _ Ha) as (ra' & Ha' & _ & Hb). exists ra'. by rewrite Hb. }
  destruct pc; cbn in *; naive_solver.
Qed.

Lemma rinv_stay s s' m L cs n t t' :
  rinv s m L cs -> rt_threads s !! n = Some t -> rt_heap s' = rt_heap s -> same_arrays (rt_arrays s) (rt_arrays s') -> (rt_current s' <= L)%nat ->
  rt_threads s' = <[n := t']> (rt_threads s) -> thread_fine (rt_heap s) (rt_arrays s) L cs n t' ->
  (forall ra nx, rt_arrays s !! L = Some ra -> rehash_lock ra = Some n -> rt_arrays s !! S L = Some nx ->
     mover_ok (rt_heap s) (buckets_of ra) (buckets_of nx) cs L (tt_pc t')) ->
  rinv s' m L cs.
Proof.
  intros I Hn Eh Hs Hcur Et Ht Hm. destruct (ri_live _ _ _ _ I) as (ra & Hra & Hlive & Hmig). split; rewrite ?Eh, ?Et; try done.
  - intros a ra' Ha. destruct (same_back _ _ _ _ Hs Ha) as (ra0 & Ha0 & -> & _). by eapply (ri_power _ _ _ _ I).
  - intros a Ha. destruct (ri_old _ _ _ _ I a Ha) as (ra0 & Ha0 & Hall). destruct (proj2 Hs _ _ Ha0) as (ra' & Ha' & Hb & _). exists ra'. by rewrite Hb.
  - destruct (proj2 Hs _ _ Hra) as (ra' & Hra' & Hb & Hk). exists ra'. rewrite Hb. split; [done|]. split; [done|]. unfold migration in *. rewrite Hk, Hb.
    destruct Hs as [Hlen Hs]. rewrite Hlen. destruct (rehash_lock ra) as [n0|] eqn:Hlk; [|done].
    destruct Hmig as (t0 & nx & Ht0 & Hnx & Hl & Hnk & Hmov). destruct (Hs _ _ Hnx) as (nx' & Hnx' & Hbn & Hkn).
    destruct (decide (n0 = n)) as [->|Hne].
    + exists t', nx'. split; [apply list_lookup_insert_eq; by eapply lookup_lt_Some|]. rewrite Hbn, Hkn. split; [done|]. split; [done|]. split; [done|]. by apply (Hm ra nx).
    + exists t0, nx'. rewrite list_lookup_insert_ne by done. by rewrite Hbn, Hkn.
  - apply (ri_map _ _ _ _ I).
  - eapply threads_evolve; [by apply same_evolves|apply I|]. destruct Ht as [Ht1 Ht2]. split; [done|]. by eapply pc_same.
Qed.

(** A thread that is not moving buckets does not hold the lock of the live array. *)
Definition moves (pc : TablePc K V) : bool := match pc with AtMove _ _ _ | AtPut _ _ _ _ | AtSeal _ _ _ _ => true | _ => false end.
Lemma not_mover s m L cs n t ra : rinv s m L cs -> rt_threads s !! n = Some t -> moves (tt_pc t) = false -> rt_arrays s !! L = Some ra -> rehash_lock ra <> Some n.
Proof.
  intros I Hn Hm Hra Hk. destruct (ri_live _ _ _ _ I) as (ra' & Hra' & _ & Hmig). rewrite Hra in Hra'. injection Hra' as <-. unfold migration in Hmig.
  rewrite Hk in Hmig. destruct Hmig as (t' & nx & Ht' & _ & _ & _ & Hmov). rewrite Hn in Ht'. injection Ht' as <-. by destruct (tt_pc t).
Qed.

(** Only the program counter of a thread that moves no buckets changes. *)
Lemma rinv_goto s m L cs n t pc : rinv s m L cs -> rt_threads s !! n = Some t -> moves (tt_pc t) = false ->
  pc_fine (rt_heap s) (rt_arrays s) L cs n (tt_op t) pc -> rinv (goto s n pc) m L cs.
Proof.
  intros I Hn Hm Hpc. rewrite (goto_eq _ _ _ _ Hn).
  eapply (rinv_stay s _ m L cs n t (mkTableThread (tt_op t) (tt_current t) pc)); cbn; try done; [apply same_refl|apply I|split; [by apply (ri_threads _ _ _ _ I _ _ Hn)|done]|].
  intros ra nx Hra Hk. by destruct (not_mover _ _ _ _ _ _ _ I Hn Hm Hra).
Qed.
Lemma mover_goto s m L cs n t pc ra : rinv s m L cs -> rt_threads s !! n = Some t -> pc_fine (rt_heap s) (rt_arrays s) L cs n (tt_op t) pc ->
  rt_arrays s !! L = Some ra ->
  (forall nx, rehash_lock ra = Some n -> rt_arrays s !! S L = Some nx -> mover_ok (rt_heap s) (buckets_of ra) (buckets_of nx) cs L pc) -> rinv (goto s n pc) m L cs.
Proof.
  intros I Hn Hpc Hra Hm. rewrite (goto_eq _ _ _ _ Hn).
  eapply (rinv_stay s _ m L cs n t (mkTableThread (tt_op t) (tt_current t) pc)); cbn; try done; [apply same_refl|apply I|split; [by apply (ri_threads _ _ _ _ I _ _ Hn)|done]|].
  intros ra' nx Hra'. rewrite Hra in Hra'. injection Hra' as <-. auto.
Qed.

(** ** The buckets an operation looks at *)

Lemma array_there s m L cs a : rinv s m L cs -> (a <= L)%nat -> exists ra, rt_arrays s !! a = Some ra /\ power_of_two (length (buckets_of ra)).
Proof.
  intros I Ha. destruct (decide (a = L)) as [->|].
  - destruct (ri_live _ _ _ _ I) as (ra & Hra & _). exists ra. split; [done|]. by eapply ri_power.
  - destruct (ri_old _ _ _ _ I a) as (ra & Hra & _); [lia|]. exists ra. split; [done|]. by eapply ri_power.
Qed.
Lemma probe_length n (hash : Z) : length (probe n hash) = n.
Proof. unfold probe. by rewrite length_fmap, length_seq. Qed.
Lemma probe_at n (hash : Z) i : power_of_two n -> (i < n)%nat ->
  probe n hash !! i = Some (probe_index n hash i) /\ (probe_index n hash i < n)%nat.
Proof.
  intros Hn Hi. assert (Hx : probe n hash !! i = Some (probe_index n hash i)).
  { unfold probe. cbv zeta. by rewrite list_lookup_fmap, lookup_seq_lt by done. }
  split; [done|]. eapply probe_range; [done|]. by eapply list_elem_of_lookup_2.
Qed.

(** What a load of bucket [i] of the probe sequence finds, in the live array and in
    those before it. *)
Lemma load_bucket s m L cs a i op : rinv s m L cs -> (a <= L)%nat -> in_range (rt_arrays s) a i ->
  exists ra x p, rt_arrays s !! a = Some ra /\ power_of_two (length (buckets_of ra)) /\
    (x = probe_index (length (buckets_of ra)) (hash_of (table_key op)) i /\
     probe (length (buckets_of ra)) (hash_of (table_key op)) !! i = Some x) /\ buckets_of ra !! x = Some p /\
    (p = SENTINEL \/ a = L /\ p <> SENTINEL /\ length cs = length (buckets_of ra) /\ good (rt_heap s) p /\ cs !! x = Some (rcell (rt_heap s) p)).
Proof.
  intros I Ha (ra & Hra & Hi). pose proof (ri_power _ _ _ _ I _ _ Hra) as Hpow. destruct (probe_at _ (hash_of (table_key op)) i Hpow Hi) as (Hx & Hlt).
  destruct (lookup_lt_is_Some_2 _ _ Hlt) as [p Hp]. eexists ra, _, p. do 4 (split; [done|]). destruct (decide (a = L)) as [->|Hne].
  - destruct (ri_live _ _ _ _ I) as (ra' & Hra' & Hlive & _). rewrite Hra in Hra'. injection Hra' as <-.
    destruct (decide (p = SENTINEL)) as [->|Hs]; [by left|right]. destruct (lv_bucket _ _ _ Hlive _ _ Hp Hs). do 2 (split; [done|]). split; [apply Hlive|done].
  - left. destruct (ri_old _ _ _ _ I a) as (ra' & Hra' & Hall); [lia|]. rewrite Hra in Hra'. injection Hra' as <-. by eapply Hall.
Qed.

(** ** The outcome of a step *)

Definition step_fine s m L cs op (o : RaceTable K V * option (option V)) : Prop :=
  exists L' cs', rinv (fst o) (match snd o with Some _ => fst (table_spec m op) | None => m end) L' cs' /\
    forall r, snd o = Some r -> r = snd (table_spec m op).
Lemma fine_quiet s m L cs op s' L' cs' : rinv s' m L' cs' -> step_fine s m L cs op (s', None).
Proof. intros I. by exists L', cs'. Qed.
Lemma fine_effect s m L cs op s' L' cs' r m' : table_spec m op = (m', r) -> rinv s' m' L' cs' -> step_fine s m L cs op (s', Some r).
Proof. intros E I. exists L', cs'. cbn. rewrite E. split; [done|]. by intros ? [= ->]. Qed.

(** Thread [n] is at [t], in the call [op]. *)
Definition runs s n t op : Prop := rt_threads s !! n = Some t /\ tt_op t = op.

Lemma goto_quiet s m L cs n t op pc : rinv s m L cs -> runs s n t op -> moves (tt_pc t) = false ->
  pc_fine (rt_heap s) (rt_arrays s) L cs n op pc -> returns (quiet (goto s n pc)) (step_fine s m L cs op).
Proof. intros I [Hn Hop] Hm Hpc. apply returns_ok. eapply fine_quiet. eapply rinv_goto; [done..|]. by rewrite Hop. Qed.
Lemma goto_effect s m L cs n t op r pc : rinv s m L cs -> runs s n t op -> moves (tt_pc t) = false ->
  pc_fine (rt_heap s) (rt_arrays s) L cs n op pc -> table_spec m op = (m, r) -> returns (effect (goto s n pc) r) (step_fine s m L cs op).
Proof. intros I [Hn Hop] Hm Hpc E. apply returns_ok. eapply fine_effect; [exact E|]. eapply rinv_goto; [done..|]. by rewrite Hop. Qed.

(** ** Loading a bucket *)

Lemma hit_fine s m L cs n t op i p ob (key := table_key op) (I : rinv s m L cs) (R : runs s n t op) :
  moves (tt_pc t) = false -> in_range (rt_arrays s) L i -> passed hash_of cs key i -> good (rt_heap s) p ->
  match ob with
  | None => rcell (rt_heap s) p = None
  | Some b => exists v, b = mkBucket key (Some v) /\ rcell (rt_heap s) p = Some (key, if is_tombstone p then None else Some v)
  end ->
  m !! key = (kw ← rcell (rt_heap s) p; snd kw) -> returns (at_hit s n L i op p ob) (step_fine s m L cs op).
Proof.
  intros Hmv Hr Hp Hg Hob Hm. assert (Hinsert : forall nb, wants (rt_heap s) op p nb -> returns (quiet (goto s n (AtExchange L i p nb))) (step_fine s m L cs op)).
  { intros nb Hw. by eapply goto_quiet. }
  unfold at_hit. destruct ob as [b|].
  - destruct Hob as (v & -> & Hc). assert (Hkey : exists w, rcell (rt_heap s) p = Some (key, w)) by eauto. cbn [value_ref maybe_value expect_some mbind res_bind bk_key].
    rewrite Hc in Hm. cbn in Hm. destruct (is_tombstone p).
    + destruct op as [k|k condition|k v0|k v0 modifier]; unfold key in *; cbn [table_key] in *;
        [eapply goto_effect|eapply goto_effect|apply Hinsert|apply Hinsert]; cbn; rewrite ?Hm; try done;
        (split; [done|]; split; [by right; eauto|]; cbn; by rewrite Hc).
    + destruct op as [k|k condition|k v0|k v0 modifier]; unfold key in *; cbn [table_key] in *.
      * eapply goto_effect; cbn; rewrite ?Hm; done.
      * destruct (condition k v) eqn:Hcond.
        -- apply Hinsert. split; [done|]. split; [by right|]. by rewrite Hc.
        -- eapply goto_effect; cbn; rewrite ?Hm, ?Hcond; done.
      * eapply goto_effect; cbn; rewrite ?Hm; done.
      * apply Hinsert. split; [done|]. split; [by right|]. by rewrite Hc.
  - rewrite Hob in Hm. cbn in Hm.
    destruct op as [k|k condition|k v0|k v0 modifier]; unfold key in *; cbn [table_key] in *;
      [eapply goto_effect|eapply goto_effect|apply Hinsert|apply Hinsert]; cbn; rewrite ?Hm; try done;
      (split; [done|]; split; [by left|]; cbn; by rewrite Hob).
Qed.

Lemma end_fine s m L cs n t op (key := table_key op) (I : rinv s m L cs) (R : runs s n t op) :
  moves (tt_pc t) = false -> m !! key = None -> returns (at_end s n L op) (step_fine s m L cs op).
Proof.
  intros Hmv Hm. unfold at_end. destruct op as [k|k condition|k v0|k v0 modifier]; unfold key in *; cbn [table_key] in *.
  - eapply goto_effect; cbn; rewrite ?Hm; done.
  - eapply goto_effect; cbn; rewrite ?Hm; done.
  - by eapply goto_quiet.
  - by eapply goto_quiet.
Qed.

Lemma bucket_fine s m L cs n t op a i (key := table_key op) (I : rinv s m L cs) (R : runs s n t op) :
  tt_pc t = AtBucket a i -> returns (step_bucket hash_of s n a i op) (step_fine s m L cs op).
Proof.
  intros Epc. destruct R as [Hn Hop]. destruct (ri_threads _ _ _ _ I _ _ Hn) as [_ Hpc]. rewrite Epc, Hop in Hpc. pose proof (conj Hn Hop : runs s n t op) as R. destruct Hpc as (Ha & Hr & Hp).
  assert (Hmv : moves (tt_pc t) = false) by by rewrite Epc.
  destruct (load_bucket _ _ _ _ a i op I Ha Hr) as (ra & x & p & Hra & Hpow & [Ex Hx] & Hxp & Hor).
  unfold step_bucket, array_at. rewrite Hra. cbn [expect_some mbind res_bind]. cbv zeta. fold (buckets_of ra). rewrite <- Ex, Hxp. cbn [expect_some mbind res_bind]. destruct Hor as [->|(-> & Hs & Hlen & Hg & Hc)]; [by eapply goto_quiet|].
  specialize (Hp eq_refl). rewrite (gd_sentinel _ _ Hg). rewrite <- Hlen in Hx.
  assert (Hok : table_ok hash_of cs) by (destruct (ri_live _ _ _ _ I) as (ra' & _ & Hlive & _); apply Hlive).
  assert (Hat : stops key (rcell (rt_heap s) p) = true -> m !! key = (kw ← rcell (rt_heap s) p; snd kw)).
  { intros Hst. rewrite <- (ri_map _ _ _ _ I). eapply lookup_at; [|exact Hc]. by eapply passed_slot. }
  destruct (sh_ptr p) as [addr|] eqn:Ep.
  - destruct (gd_bucket _ _ Hg addr Ep) as (k & v & Hb). pose proof (rcell_bucket _ _ _ _ _ Ep Hb) as Hcell. unfold bref. rewrite Hb.
    cbn [expect_some mbind res_bind bk_key]. case_bool_decide as Hk.
    + subst k. eapply hit_fine; try done; [eauto|]. apply Hat. rewrite Hcell. cbn. by apply bool_decide_eq_true.
    + rewrite Hcell in Hc. assert (Hp' : passed hash_of cs key (S i)) by (by eapply passed_next).
      case_bool_decide as Hlast.
      * eapply goto_quiet; [done..|]. cbn. split; [done|]. split; [by exists ra|done].
      * eapply end_fine; [done..|]. rewrite <- (ri_map _ _ _ _ I). eapply passed_all; [exact Hp'|]. rewrite probe_length, Hlen. lia.
  - apply (gd_null _ _ Hg) in Ep as ->. eapply hit_fine; try done. by apply Hat.
Qed.

(** ** Exchanging a bucket *)

Lemma old_value_ok h p : good h p -> old_value h p = Ok (kw ← rcell h p; snd kw).
Proof.
  intros G. unfold old_value. destruct (sh_ptr p) as [a|] eqn:Ha; [|apply (gd_null _ _ G) in Ha as ->; done].
  destruct (gd_bucket _ _ G a Ha) as (k & v & Hb). rewrite (rcell_bucket _ _ _ _ _ Ha Hb). unfold bref. rewrite Hb. by destruct (is_tombstone p).
Qed.

Lemma mover_live h h' bs nbs cs L pc x p c k w p' : mover_ok h bs nbs cs L pc -> h ⊆ h' -> bs !! x = Some p -> p <> SENTINEL ->
  cs !! x = Some c -> stops k c = true -> p' <> SENTINEL -> mover_ok h' (<[x := p']> bs) nbs (<[x := Some (k, w)]> cs) L pc.
Proof.
  intros Hm Hh Hx Hp Hc Hs Hp'. pose proof (grows_write cs k x c w Hc Hs) as Hg.
  assert (Hmove : forall j st, move_ok hash_of h bs cs nbs j st -> move_ok hash_of h' (<[x := p']> bs) (<[x := Some (k, w)]> cs) nbs j st).
  { intros j st M. by eapply move_live. }
  destruct pc as [| | | | | | | | |a j st|a j st q|a j st q| |]; try done; cbn in *.
  - destruct Hm as [-> M]. auto.
  - destruct Hm as (-> & M & Hj & Hl). split; [done|]. split; [auto|]. split; [by rewrite length_insert|]. by eapply loaded_grows.
  - destruct Hm as (-> & M & Hj & Hl & Hcp). split; [done|]. split; [auto|]. split; [by rewrite length_insert|]. split; [by eapply loaded_grows|].
    eapply copied_mono; [done|done|apply Hl|]. intros y q' Hq. by apply (mv_next _ _ _ _ _ _ _ M y).
Qed.

(** The live array gets a pointer [p'] where a search for its key ends. *)
Lemma rinv_write s m L cs n t ra x p p' h' k w m' pc :
  rinv s m L cs -> rt_threads s !! n = Some t -> moves (tt_pc t) = false -> rt_arrays s !! L = Some ra -> buckets_of ra !! x = Some p -> p <> SENTINEL ->
  slot_of hash_of cs k = Some x -> rt_heap s ⊆ h' -> good h' p' -> rcell h' p' = Some (k, w) ->
  (forall k', m' !! k' = if decide (k' = k) then w else m !! k') ->
  (forall l cs', pc_fine h' l L cs' n (tt_op t) pc) ->
  rinv (goto (put_array (with_heap s h') L (set_bucket ra x p')) n pc) m' L (<[x := Some (k, w)]> cs).
Proof.
  intros I Hn Hmv Hra Hx Hp Hs Hh Hg Hc Hm' Hpc. destruct (ri_live _ _ _ _ I) as (ra' & Hra' & Hlive & Hmig). rewrite Hra in Hra'. injection Hra' as <-.
  destruct (slot_some _ _ _ _ Hs) as (_ & c & Hcx & Hst). destruct (table_write hash_of cs k x w (lv_table _ _ _ Hlive) Hs) as [Hok' Hlk].
  pose proof (good_not_sentinel _ _ Hg) as Hp'. set (ra' := set_bucket ra x p').
  assert (Hbs : buckets_of ra' = <[x := p']> (buckets_of ra)) by done.
  assert (Hlen : length (buckets_of ra') = length (buckets_of ra)) by apply length_insert.
  assert (HL : (L < length (rt_arrays s))%nat) by (by eapply lookup_lt_Some).
  rewrite (goto_eq _ _ _ _ (Hn : rt_threads (put_array (with_heap s h') L ra') !! n = Some t)).
  assert (E : evolves (rt_heap s) (rt_arrays s) L cs h' (<[L := ra']> (rt_arrays s)) L (<[x := Some (k, w)]> cs) n).
  { split; [done| |left; split; [done|by eapply grows_write]]. intros a ra0 Ha. destruct (decide (a = L)) as [->|Hne].
    - rewrite Hra in Ha. injection Ha as <-. exists ra'. by rewrite list_lookup_insert_eq.
    - exists ra0. by rewrite list_lookup_insert_ne. }
  split; cbn [rt_heap rt_arrays rt_current rt_threads put_array with_arrays with_heap].
  - intros a ra0 Ha. apply list_lookup_insert_Some in Ha as [(<- & <- & _)|[_ Ha]]; [rewrite Hlen|]; by eapply ri_power.
  - intros a Ha. rewrite list_lookup_insert_ne by lia. by apply (ri_old _ _ _ _ I).
  - exists ra'. split; [by apply list_lookup_insert_eq|]. split.
    + split; [rewrite length_insert, Hlen; apply Hlive| |exact Hok'|].
      * rewrite Hbs. intros i q Hi Hq. destruct (decide (x = i)) as [<-|Hne].
        -- rewrite list_lookup_insert_eq in Hi by (by eapply lookup_lt_Some). injection Hi as <-. split; [done|]. rewrite Hc.
           apply list_lookup_insert_eq. by eapply lookup_lt_Some.
        -- rewrite list_lookup_insert_ne in Hi by done.
           destruct (lv_bucket _ _ _ Hlive _ _ Hi Hq) as [G Gc]. destruct (good_mono _ _ _ Hh G) as [G' Er]. split; [done|].
           by rewrite list_lookup_insert_ne, Er.
      * exists x, p'. split; [|done]. rewrite Hbs. apply list_lookup_insert_eq. by eapply lookup_lt_Some.
    + unfold migration in *. change (rehash_lock ra') with (rehash_lock ra). rewrite length_insert.
      pose proof (not_mover _ _ _ _ _ _ _ I Hn Hmv Hra) as Hno. destruct (rehash_lock ra) as [n0|].
      * destruct Hmig as (t0 & nx & Ht0 & Hnx & Hl & Hnk & Hmov). exists t0, nx. rewrite list_lookup_insert_ne by congruence.
        rewrite list_lookup_insert_ne by lia. do 4 (split; [done|]). by eapply mover_live.
      * destruct Hmig as [Hl Hns]. split; [done|]. rewrite Hbs. intros i q Hi. destruct (decide (x = i)) as [<-|Hne].
        -- rewrite list_lookup_insert_eq in Hi by (by eapply lookup_lt_Some). by injection Hi as <-.
        -- rewrite list_lookup_insert_ne in Hi by done. by eapply Hns.
  - intros k'. by rewrite Hlk, Hm', (ri_map _ _ _ _ I).
  - apply I.
  - eapply threads_evolve; [exact E|apply I|]. split; [by apply (ri_threads _ _ _ _ I _ _ Hn)|]. apply Hpc.
Qed.

(** What the exchange of a call does to the map. *)
Definition new_value (nb : option (Bucket K V)) : option V := b ← nb; maybe_value b.
Lemma wants_spec h op seen nb m : wants h op seen nb -> m !! table_key op = (kw ← rcell h seen; snd kw) ->
  exists m', table_spec m op = (m', kw ← rcell h seen; snd kw) /\ (forall b, nb = Some b -> exists v, b = mkBucket (table_key op) (Some v)) /\
    (nb = None -> is_Some (rcell h seen)) /\
    forall k, m' !! k = if decide (k = table_key op) then new_value nb else m !! k.
Proof.
  intros (_ & _ & W) Hm. destruct op as [k|k condition|k v|k v modifier]; cbn [table_key] in *; [done|..]; cbn [table_spec]; rewrite Hm.
  - destruct (kw ← rcell h seen; snd kw) as [v0|] eqn:E; [|done]. destruct W as [-> Hcond]. rewrite Hcond. eexists. split; [done|]. split; [done|].
    split; [intros _; destruct (rcell h seen); [eauto|done]|]. intros k'. case_decide; [subst; by rewrite lookup_delete_eq|by rewrite lookup_delete_ne].
  - destruct (kw ← rcell h seen; snd kw) as [v0|] eqn:E; [done|]. subst nb. eexists. split; [done|]. split; [intros b [= <-]; eauto|].
    split; [done|]. intros k'. case_decide; [subst; by rewrite lookup_insert_eq|by rewrite lookup_insert_ne].
  - subst nb. destruct (kw ← rcell h seen; snd kw) as [v0|] eqn:E; eexists; (split; [done|]; split; [intros b [= <-]; eauto|];
      split; [done|]; intros k'; case_decide; [subst; by rewrite lookup_insert_eq|by rewrite lookup_insert_ne]).
Qed.

Lemma exchange_fine s m L cs n t op a i seen nb weak (I : rinv s m L cs) (R : runs s n t op) :
  tt_pc t = AtExchange a i seen nb -> returns (step_exchange hash_of s n a i op seen nb weak) (step_fine s m L cs op).
Proof.
  intros Epc. pose proof R as [Hn Hop]. destruct (ri_threads _ _ _ _ I _ _ Hn) as [_ Hpc]. rewrite Epc, Hop in Hpc. destruct Hpc as (Ha & Hr & Hp & Hw).
  assert (Hmv : moves (tt_pc t) = false) by by rewrite Epc.
  destruct (load_bucket _ _ _ _ a i op I Ha Hr) as (ra & x & p & Hra & Hpow & [Ex Hx] & Hxp & Hor).
  unfold step_exchange, array_at. rewrite Hra. cbn [expect_some mbind res_bind]. cbv zeta. fold (buckets_of ra). rewrite <- Ex, Hxp. cbn [expect_some mbind res_bind]. destruct (weak || _) eqn:Hf; [by eapply goto_quiet|].
  apply orb_false_iff in Hf as [_ Hf]. apply negb_false_iff, bool_decide_eq_true in Hf as ->.
  pose proof Hw as (Hg & Hkey & _). destruct Hor as [->|(-> & Hs & Hlen & _ & Hc)]; [by destruct (good_not_sentinel _ _ Hg)|]. specialize (Hp eq_refl).
  rewrite <- Hlen in Hx. rewrite (old_value_ok _ _ Hg). cbn [mbind res_bind].
  assert (Hslot : slot_of hash_of cs (table_key op) = Some x).
  { eapply passed_slot; [done..|]. destruct Hkey as [->|[w ->]]; [done|]. cbn. by apply bool_decide_eq_true. }
  assert (Hm : m !! table_key op = (kw ← rcell (rt_heap s) seen; snd kw)).
  { rewrite <- (ri_map _ _ _ _ I). by eapply lookup_at. }
  destruct (wants_spec _ _ _ _ m Hw Hm) as (m' & Espec & Hnb & Hrm & Hm'). destruct nb as [b|].
  - destruct (Hnb b eq_refl) as [v ->]. pose proof (good_new (rt_heap s) _ (table_key op) v eq_refl) as Hnew. destruct (balloc _ _) as [h' addr].
    destruct Hnew as (Hh & Hg' & Hc'). apply returns_ok. eapply fine_effect; [exact Espec|].
    eapply rinv_write; try done. intros l cs'. by destruct (bool_decide _).
  - destruct (Hrm eq_refl) as [[k w] Hck]. destruct Hkey as [?|[w' Hck']]; [congruence|]. rewrite Hck in Hck'. injection Hck' as -> <-.
    destruct (good_tombstone _ _ _ _ Hg Hck) as [Hg' Hc']. apply returns_ok. eapply fine_effect; [exact Espec|].
    assert (Eh : s = with_heap s (rt_heap s)) by (by destruct s). rewrite Eh at 1. eapply rinv_write; done.
Qed.

(** ** Taking and releasing the rehash lock *)

(** The lock of an array whose buckets were moved long ago. *)
Lemma rinv_old_lock s m L cs n t a ra lk pc :
  rinv s m L cs -> rt_threads s !! n = Some t -> (a < L)%nat -> rt_arrays s !! a = Some ra ->
  (rehash_lock ra = None \/ rehash_lock ra = Some n) -> (forall ra', rt_arrays s !! L = Some ra' -> rehash_lock ra' <> Some n) ->
  pc_fine (rt_heap s) (<[a := set_lock ra lk]> (rt_arrays s)) L cs n (tt_op t) pc ->
  rinv (goto (put_array s a (set_lock ra lk)) n pc) m L cs.
Proof.
  intros I Hn Ha Hra Hlk Hno Hpc. destruct (ri_live _ _ _ _ I) as (raL & HraL & Hlive & Hmig).
  rewrite (goto_eq _ _ _ _ (Hn : rt_threads (put_array s a (set_lock ra lk)) !! n = Some t)). set (ra' := set_lock ra lk) in *.
  assert (Hlt : (a < length (rt_arrays s))%nat) by (by eapply lookup_lt_Some).
  split; cbn [rt_heap rt_arrays rt_current rt_threads put_array with_arrays].
  - intros b ra0 Hb. apply list_lookup_insert_Some in Hb as [(<- & <- & _)|[_ Hb]]; [change (buckets_of ra') with (buckets_of ra)|]; by eapply ri_power.
  - intros b Hb. destruct (decide (a = b)) as [<-|Hne].
    + destruct (ri_old _ _ _ _ I a Ha) as (ra0 & Hra0 & Hall). rewrite Hra in Hra0. injection Hra0 as <-. exists ra'. by rewrite list_lookup_insert_eq.
    + rewrite list_lookup_insert_ne by done. by apply (ri_old _ _ _ _ I).
  - exists raL. rewrite list_lookup_insert_ne by lia. split; [done|]. split; [done|]. unfold migration in *. rewrite length_insert.
    specialize (Hno _ HraL). destruct (rehash_lock raL) as [n0|]; [|done]. destruct Hmig as (t0 & nx & Ht0 & Hnx & Hl & Hnk & Hmov).
    exists t0, nx. rewrite list_lookup_insert_ne by congruence. by rewrite list_lookup_insert_ne by lia.
  - apply I.
  - apply I.
  - eapply threads_evolve; [|apply I|]; [|split; [by apply (ri_threads _ _ _ _ I _ _ Hn)|exact Hpc]].
    split; [done| |left; split; [done|apply grows_refl]]. intros b ra0 Hb. destruct (decide (a = b)) as [<-|Hne].
    + rewrite Hra in Hb. injection Hb as <-. exists ra'. rewrite list_lookup_insert_eq by done. split; [done|]. split; [done|].
      intros n' Hn' Hk. destruct Hlk as [?|?]; congruence.
    + exists ra0. by rewrite list_lookup_insert_ne.
Qed.

Lemma new_len_ok rop ra : rop <> Skip -> power_of_two (length (buckets_of ra)) -> (rop = Shrink -> (1 < length (buckets_of ra))%nat) ->
  exists len, new_len rop (array_len (ra_array ra)) = Ok len /\ power_of_two len.
Proof.
  intros Hs [e He] Hsh. unfold array_len. fold (buckets_of ra). rewrite He in *. destruct rop; cbn [new_len].
  - eexists. split; [done|]. exists (S e). cbn. lia.
  - destruct e as [|e]; [specialize (Hsh eq_refl); cbn in Hsh; lia|]. eexists. split; [done|]. exists e. cbn [Nat.pow].
    by rewrite Nat.mul_comm, Nat.div_mul.
  - eexists. split; [done|]. by exists e.
  - done.
Qed.

(** The rehash of the live array begins. *)
Lemma rinv_begin s m L cs n t ra next pc :
  rinv s m L cs -> rt_threads s !! n = Some t -> rt_arrays s !! L = Some ra -> rehash_lock ra = None ->
  power_of_two (length (ba_buckets next)) -> ba_buckets next = replicate (length (ba_buckets next)) null -> pc = AtMove L 0 None ->
  rinv (goto (with_arrays s (<[L := set_lock ra (Some n)]> (rt_arrays s) ++ [mkRaceArray next None])) n pc) m L cs.
Proof.
  intros I Hn Hra Hlk Hpow Hnull ->. destruct (ri_live _ _ _ _ I) as (ra' & Hra' & Hlive & Hmig). rewrite Hra in Hra'. injection Hra' as <-.
  unfold migration in Hmig. rewrite Hlk in Hmig. destruct Hmig as [Hl Hns]. set (ra' := set_lock ra (Some n)). set (l' := <[L := ra']> (rt_arrays s) ++ _).
  rewrite (goto_eq _ _ _ _ (Hn : rt_threads (with_arrays s l') !! n = Some t)).
  assert (HL : l' !! L = Some ra') by (unfold l'; rewrite lookup_app_l by (rewrite length_insert; lia); by apply list_lookup_insert_eq; lia).
  assert (HN : l' !! S L = Some (mkRaceArray next None)) by (unfold l'; rewrite lookup_app_r by (rewrite length_insert; lia); by rewrite length_insert, Hl, Nat.sub_diag).
  assert (Hlt : forall b, (b < L)%nat -> l' !! b = rt_arrays s !! b).
  { intros b Hb. unfold l'. rewrite lookup_app_l by (rewrite length_insert; lia). by rewrite list_lookup_insert_ne by lia. }
  assert (Hlen : length l' = S (S L)) by (unfold l'; rewrite length_app, length_insert; cbn; lia).
  split; cbn [rt_heap rt_arrays rt_current rt_threads with_arrays].
  - intros b ra0 Hb. destruct (decide (b < L)%nat); [rewrite Hlt in Hb by done; by eapply ri_power|]. destruct (decide (b = L)) as [->|].
    + rewrite HL in Hb. injection Hb as <-. change (buckets_of ra') with (buckets_of ra). by eapply (ri_power _ _ _ _ I).
    + pose proof (lookup_lt_Some _ _ _ Hb). assert (b = S L) as -> by lia. rewrite HN in Hb. by injection Hb as <-.
  - intros b Hb. rewrite Hlt by done. by apply (ri_old _ _ _ _ I).
  - exists ra'. split; [done|]. split; [done|]. unfold migration. cbn [rehash_lock ra' set_lock].
    exists (mkTableThread (tt_op t) (tt_current t) (AtMove L 0 None)), (mkRaceArray next None). split; [apply list_lookup_insert_eq; by eapply lookup_lt_Some|].
    do 3 (split; [done|]). split; [done|]. unfold buckets_of at 2. cbn [ra_array]. rewrite Hnull. by apply move_start.
  - apply I.
  - apply I.
  - eapply threads_evolve; [|apply I|].
    + split; [done| |left; split; [done|apply grows_refl]]. intros b ra0 Hb. destruct (decide (b < L)%nat).
      * exists ra0. by rewrite Hlt.
      * pose proof (lookup_lt_Some _ _ _ Hb). assert (b = L) as -> by lia. rewrite Hra in Hb. injection Hb as <-. exists ra'. split; [done|]. split; [done|].
        intros n' _ Hk. congruence.
    + split; [by apply (ri_threads _ _ _ _ I _ _ Hn)|]. cbn. split; [done|]. split; [|lia]. by exists ra'.
Qed.

Lemma rehash_fine s m L cs n t op a rop (I : rinv s m L cs) (R : runs s n t op) :
  tt_pc t = AtRehash a rop -> returns (step_rehash s n a rop) (step_fine s m L cs op).
Proof.
  intros Epc. pose proof R as [Hn Hop]. destruct (ri_threads _ _ _ _ I _ _ Hn) as [_ Hpc]. rewrite Epc in Hpc. destruct Hpc as (Ha & Hskip & Hshrink).
  assert (Hmv : moves (tt_pc t) = false) by by rewrite Epc.
  destruct (array_there _ _ _ _ a I Ha) as (ra & Hra & Hpow). unfold step_rehash, array_at. rewrite Hra. cbn [expect_some mbind res_bind].
  destruct (rehash_lock ra) as [n0|] eqn:Hlk; [by eapply goto_quiet|]. cbv zeta. cbn [rt_arrays put_array with_arrays]. rewrite length_insert.
  destruct (ri_live _ _ _ _ I) as (raL & HraL & _ & Hmig). case_bool_decide as Hnext.
  - assert (Hlt : (a < L)%nat).
    { destruct (decide (a = L)) as [->|]; [|lia]. rewrite HraL in Hra. injection Hra as <-. unfold migration in Hmig. rewrite Hlk in Hmig. lia. }
    apply returns_ok. eapply fine_quiet. eapply rinv_old_lock; try done; [by left|by intros ra'; eapply not_mover|].
    cbn. split; [lia|]. split; [|done]. exists (set_lock ra (Some n)). split; [|done]. apply list_lookup_insert_eq. by eapply lookup_lt_Some.
  - assert (a = L) as -> by (pose proof (lookup_lt_Some _ _ _ HraL); lia). rewrite HraL in Hra. injection Hra as <-.
    destruct (new_len_ok rop raL Hskip Hpow) as (len & Elen & Hpl).
    { intros ->. destruct (Hshrink eq_refl) as (ra' & Hra' & Hlt). rewrite HraL in Hra'. by injection Hra' as <-. }
    rewrite Elen. cbn [mbind res_bind]. rewrite (with_length_ok _ _ Hpl). cbn [mbind res_bind]. apply returns_ok. eapply fine_quiet.
    refine (rinv_begin s m L cs n t raL _ _ I Hn HraL Hlk _ _ eq_refl); cbn; by rewrite length_replicate.
Qed.

(** ** Moving the buckets *)

Lemma live_mover s m L cs n t ra : rinv s m L cs -> rt_threads s !! n = Some t -> rt_arrays s !! L = Some ra -> rehash_lock ra = Some n ->
  live_ok (rt_heap s) (buckets_of ra) cs /\ length (rt_arrays s) = S (S L) /\
  exists nx, rt_arrays s !! S L = Some nx /\ rehash_lock nx = None /\ mover_ok (rt_heap s) (buckets_of ra) (buckets_of nx) cs L (tt_pc t).
Proof.
  intros I Hn Hra Hk. destruct (ri_live _ _ _ _ I) as (ra' & Hra' & Hlive & Hmig). rewrite Hra in Hra'. injection Hra' as <-. unfold migration in Hmig.
  rewrite Hk in Hmig. destruct Hmig as (t' & nx & Ht' & Hnx & Hl & Hnk & Hmov). rewrite Hn in Ht'. injection Ht' as <-. eauto 7.
Qed.
Lemma again_fine h l L cs n op a : (a <= L)%nat -> in_range l a 0 -> pc_fine h l L cs n op (again op a).
Proof. intros Ha Hr. destruct op; cbn; try done. split; [done|]. split; [done|]. intros _. apply passed_zero. Qed.

Lemma move_fine s m L cs n t op a j st (I : rinv s m L cs) (R : runs s n t op) :
  tt_pc t = AtMove a j st -> returns (step_move s n a j st op) (step_fine s m L cs op).
Proof.
  intros Epc. pose proof R as [Hn Hop]. destruct (ri_threads _ _ _ _ I _ _ Hn) as [_ Hpc]. rewrite Epc in Hpc. destruct Hpc as (Ha & (ra & Hra & Hk) & Hst).
  unfold step_move, array_at. rewrite Hra. cbn [expect_some mbind res_bind]. fold (buckets_of ra). destruct (ri_live _ _ _ _ I) as (raL & HraL & _).
  destruct (decide (a = L)) as [->|Hne].
  - rewrite HraL in Hra. injection Hra as <-. destruct (live_mover _ _ _ _ _ _ _ I Hn HraL Hk) as (Hlive & Hl & nx & Hnx & Hnk & Hmov).
    rewrite Epc in Hmov. destruct Hmov as [_ M]. destruct (lv_left _ _ _ Hlive) as (i & q & Hi & Hq).
    assert (Hj : (j <= i)%nat) by (destruct (decide (i < j)%nat) as [Hij|]; [by apply (mv_sealed _ _ _ _ _ _ _ M _ _ Hi) in Hij|lia]).
    destruct (lookup_lt_is_Some_2 (buckets_of raL) j) as [p Hp]; [apply lookup_lt_Some in Hi; lia|]. rewrite Hp.
    assert (Hps : p <> SENTINEL) by (intros ->; assert (j < j)%nat by (by apply (mv_sealed _ _ _ _ _ _ _ M _ _ Hp)); lia).
    destruct (lv_bucket _ _ _ Hlive _ _ Hp Hps) as [Hg Hc]. rewrite (gd_sentinel _ _ Hg). apply returns_ok. eapply fine_quiet.
    eapply mover_goto; try done; [by split; [|exists raL]|]. intros nx' _ Hnx'. rewrite Hnx in Hnx'. injection Hnx' as <-. cbn.
    split; [done|]. split; [done|]. split; [by eapply lookup_lt_Some|]. split; [done|]. destruct (rcell (rt_heap s) p) as [[k w]|]; [eauto|].
    destruct st as [x|]; [|done]. destruct (mv_state _ _ _ _ _ _ _ M x eq_refl) as (k & w & w' & Hcj & _). congruence.
  - assert (Hno : forall ra', rt_arrays s !! L = Some ra' -> rehash_lock ra' <> Some n).
    { intros ra' Hra' Hk'. destruct (live_mover _ _ _ _ _ _ _ I Hn Hra' Hk') as (_ & _ & nx & _ & _ & Hmov). rewrite Epc in Hmov. by destruct Hmov. }
    destruct (buckets_of ra !! j) as [p|] eqn:Hp.
    + destruct (ri_old _ _ _ _ I a) as (ra' & Hra' & Hall); [lia|]. rewrite Hra in Hra'. injection Hra' as <-. apply Hall in Hp as ->. cbn [is_sentinel].
      apply returns_ok. eapply fine_quiet. eapply mover_goto; try done; [cbn; split; [done|]; split; [by exists ra|done]|]. intros nx Hk'. by destruct (Hno _ HraL).
    + apply returns_ok. eapply fine_quiet. eapply rinv_old_lock; try done; [lia|by right|]. rewrite Hop. apply again_fine; [lia|].
      destruct (array_there _ _ _ _ (S a) I) as (ra' & Hra' & Hpow); [lia|]. exists ra'. rewrite list_lookup_insert_ne by lia. split; [done|]. by apply power_pos.
Qed.

(** The mover writes into the next array. *)
Lemma rinv_next s m L cs n t ra nx ba pc :
  rinv s m L cs -> rt_threads s !! n = Some t -> rt_arrays s !! L = Some ra -> rehash_lock ra = Some n -> rt_arrays s !! S L = Some nx ->
  length (ba_buckets ba) = length (buckets_of nx) -> mover_ok (rt_heap s) (buckets_of ra) (ba_buckets ba) cs L pc ->
  (forall l, locked_by l L n -> pc_fine (rt_heap s) l L cs n (tt_op t) pc) ->
  rinv (goto (put_array s (S L) (mkRaceArray ba (rehash_lock nx))) n pc) m L cs.
Proof.
  intros I Hn Hra Hk Hnx Hlen Hm Hpc. destruct (live_mover _ _ _ _ _ _ _ I Hn Hra Hk) as (Hlive & Hl & nx0 & Hnx0 & Hnk & _).
  rewrite Hnx in Hnx0. injection Hnx0 as <-. set (nx' := mkRaceArray ba (rehash_lock nx)).
  rewrite (goto_eq _ _ _ _ (Hn : rt_threads (put_array s (S L) nx') !! n = Some t)). assert (HSL : (S L < length (rt_arrays s))%nat) by (by eapply lookup_lt_Some).
  split; cbn [rt_heap rt_arrays rt_current rt_threads put_array with_arrays].
  - intros a ra0 Ha. apply list_lookup_insert_Some in Ha as [(<- & <- & _)|[_ Ha]]; [|by eapply ri_power].
    change (buckets_of nx') with (ba_buckets ba). rewrite Hlen. by eapply ri_power.
  - intros a Ha. rewrite list_lookup_insert_ne by lia. by apply (ri_old _ _ _ _ I).
  - exists ra. rewrite list_lookup_insert_ne by lia. split; [done|]. split; [done|]. unfold migration. rewrite Hk, length_insert.
    exists (mkTableThread (tt_op t) (tt_current t) pc), nx'. split; [apply list_lookup_insert_eq; by eapply lookup_lt_Some|].
    split; [by apply list_lookup_insert_eq|]. done.
  - apply I.
  - apply I.
  - eapply threads_evolve; [|apply I|].
    + split; [done| |left; split; [done|apply grows_refl]]. intros a ra0 Ha. destruct (decide (a = S L)) as [->|Hne].
      * rewrite Hnx in Ha. injection Ha as <-. exists nx'. by rewrite list_lookup_insert_eq.
      * exists ra0. by rewrite list_lookup_insert_ne.
    + split; [by apply (ri_threads _ _ _ _ I _ _ Hn)|]. apply Hpc. exists ra. by rewrite list_lookup_insert_ne by lia.
Qed.

Lemma put_fine s m L cs n t op a j st p (I : rinv s m L cs) (R : runs s n t op) :
  tt_pc t = AtPut a j st p -> returns (step_put hash_of s n a j st p) (step_fine s m L cs op).
Proof.
  intros Epc. pose proof R as [Hn Hop]. destruct (ri_threads _ _ _ _ I _ _ Hn) as [_ Hpc]. rewrite Epc in Hpc. destruct Hpc as (-> & (ra & Hra & Hk)).
  destruct (live_mover _ _ _ _ _ _ _ I Hn Hra Hk) as (Hlive & Hl & nx & Hnx & Hnk & Hmov). rewrite Epc in Hmov. destruct Hmov as (_ & M & Hj & Hld).
  pose proof (lv_table _ _ _ Hlive) as Hok. unfold step_put, array_at. rewrite Hnx. cbn [expect_some mbind res_bind]. cbv zeta. fold (borrow p). fold (buckets_of nx).
  assert (Hfine : forall l st', locked_by l L n -> pc_fine (rt_heap s) l L cs n (tt_op t) (AtSeal L j st' p)) by done.
  destruct st as [x|].
  - pose proof Hld as [Hg Hkey]. destruct (rcell (rt_heap s) p) as [[k w]|] eqn:Hc; [|done].
    assert (Hnn : is_null p = false). { unfold is_null. apply bool_decide_eq_false. intros E. apply (gd_null _ _ Hg) in E as ->. done. }
    rewrite Hnn. cbn [negb assert_that mbind res_bind]. destruct (mv_state _ _ _ _ _ _ _ M x eq_refl) as (k' & w0 & w' & Hcj & Hx).
    rewrite rcells_lookup in Hx. destruct (buckets_of nx !! x) as [q|] eqn:Hq; [|done]. cbn in Hx. cbn [expect_some mbind res_bind].
    destruct (mv_next _ _ _ _ _ _ _ M _ _ Hq) as [Hgq Hb]. rewrite Hb by (by intros ->). apply returns_ok. eapply fine_quiet.
    destruct (move_put_again hash_of _ _ _ _ _ _ _ M Hok Hld) as [M' Hcp].
    eapply rinv_next; try done. apply length_insert.
  - destruct (sh_ptr p) as [addr|] eqn:Ha.
    + destruct (gd_bucket _ _ (proj1 Hld) addr Ha) as (k & v & Hb). unfold bref. rewrite Hb. cbn [expect_some mbind res_bind bk_key].
      destruct (move_put_first hash_of _ _ _ (ra_array nx) _ _ _ _ _ M Hok Hld Ha Hb) as (ba & st & -> & Hlen & M' & Hld' & Hcp). cbn [mbind res_bind].
      apply returns_ok. eapply fine_quiet. eapply rinv_next; try done.
    + apply returns_ok. eapply fine_quiet. eapply mover_goto; try done; [by split; [|exists ra]|]. intros nx' _ Hnx'. rewrite Hnx in Hnx'. injection Hnx' as <-.
      cbn. do 4 (split; [done|]). apply (gd_null _ _ (proj1 Hld)) in Ha as ->. done.
Qed.

(** A bucket becomes a sentinel, and it is not the last one. *)
Lemma rinv_seal s m L cs n t ra nx j : rinv s m L cs -> rt_threads s !! n = Some t -> rt_arrays s !! L = Some ra -> rehash_lock ra = Some n ->
  rt_arrays s !! S L = Some nx -> move_ok hash_of (rt_heap s) (<[j := SENTINEL]> (buckets_of ra)) cs (buckets_of nx) (S j) None ->
  (S j < length (buckets_of ra))%nat -> rinv (goto (put_array s L (set_bucket ra j SENTINEL)) n (AtMove L (S j) None)) m L cs.
Proof.
  intros I Hn Hra Hk Hnx M Hj. destruct (live_mover _ _ _ _ _ _ _ I Hn Hra Hk) as (Hlive & Hl & nx0 & Hnx0 & Hnk & _).
  rewrite Hnx in Hnx0. injection Hnx0 as <-. set (ra' := set_bucket ra j SENTINEL). assert (Hbs : buckets_of ra' = <[j := SENTINEL]> (buckets_of ra)) by done.
  rewrite (goto_eq _ _ _ _ (Hn : rt_threads (put_array s L ra') !! n = Some t)). assert (HL : (L < length (rt_arrays s))%nat) by (by eapply lookup_lt_Some).
  split; cbn [rt_heap rt_arrays rt_current rt_threads put_array with_arrays].
  - intros a ra0 Ha. apply list_lookup_insert_Some in Ha as [(<- & <- & _)|[_ Ha]]; [rewrite Hbs, length_insert|]; by eapply ri_power.
  - intros a Ha. rewrite list_lookup_insert_ne by lia. by apply (ri_old _ _ _ _ I).
  - exists ra'. split; [by apply list_lookup_insert_eq|]. split.
    + split; [rewrite Hbs, length_insert; apply Hlive| |apply Hlive|].
      * rewrite Hbs. intros i q Hi Hq. destruct (decide (j = i)) as [<-|Hne]; [rewrite list_lookup_insert_eq in Hi by lia; by injection Hi as <-|].
        rewrite list_lookup_insert_ne in Hi by done. by apply (lv_bucket _ _ _ Hlive).
      * destruct (lookup_lt_is_Some_2 _ _ Hj) as [q Hq]. exists (S j), q. rewrite Hbs, list_lookup_insert_ne by lia. split; [done|]. intros ->.
        assert (S j < S j)%nat; [|lia]. apply (mv_sealed _ _ _ _ _ _ _ M (S j) SENTINEL); [by rewrite list_lookup_insert_ne by lia|done].
    + unfold migration. change (rehash_lock ra') with (rehash_lock ra). rewrite Hk, length_insert.
      exists (mkTableThread (tt_op t) (tt_current t) (AtMove L (S j) None)), nx. split; [apply list_lookup_insert_eq; by eapply lookup_lt_Some|].
      by rewrite list_lookup_insert_ne by lia.
  - apply I.
  - apply I.
  - eapply threads_evolve; [|apply I|].
    + split; [done| |left; split; [done|apply grows_refl]]. intros a ra0 Ha. destruct (decide (a = L)) as [->|Hne].
      * rewrite Hra in Ha. injection Ha as <-. exists ra'. rewrite list_lookup_insert_eq, Hbs, length_insert by done. done.
      * exists ra0. by rewrite list_lookup_insert_ne.
    + split; [by apply (ri_threads _ _ _ _ I _ _ Hn)|]. split; [done|]. split; [|lia]. exists ra'. by rewrite list_lookup_insert_eq.
Qed.

(** The last bucket becomes a sentinel: the next array is the live one. *)
Lemma rinv_switch s m L cs n t ra nx j : rinv s m L cs -> rt_threads s !! n = Some t -> rt_arrays s !! L = Some ra -> rehash_lock ra = Some n ->
  rt_arrays s !! S L = Some nx -> move_ok hash_of (rt_heap s) (<[j := SENTINEL]> (buckets_of ra)) cs (buckets_of nx) (S j) None ->
  S j = length (buckets_of ra) ->
  rinv (goto (put_array s L (set_bucket ra j SENTINEL)) n (AtMove L (S j) None)) m (S L) (rcells (rt_heap s) (buckets_of nx)).
Proof.
  intros I Hn Hra Hk Hnx M Hj. destruct (live_mover _ _ _ _ _ _ _ I Hn Hra Hk) as (Hlive & Hl & nx0 & Hnx0 & Hnk & _).
  rewrite Hnx in Hnx0. injection Hnx0 as <-. set (ra' := set_bucket ra j SENTINEL). assert (Hbs : buckets_of ra' = <[j := SENTINEL]> (buckets_of ra)) by done.
  rewrite (goto_eq _ _ _ _ (Hn : rt_threads (put_array s L ra') !! n = Some t)). assert (HL : (L < length (rt_arrays s))%nat) by (by eapply lookup_lt_Some).
  assert (Hns : forall i q, buckets_of nx !! i = Some q -> q <> SENTINEL) by (intros i q Hq; by eapply good_not_sentinel, (mv_next _ _ _ _ _ _ _ M)).
  split; cbn [rt_heap rt_arrays rt_current rt_threads put_array with_arrays].
  - intros a ra0 Ha. apply list_lookup_insert_Some in Ha as [(<- & <- & _)|[_ Ha]]; [rewrite Hbs, length_insert|]; by eapply ri_power.
  - intros a Ha. destruct (decide (L = a)) as [<-|Hne]; [|rewrite list_lookup_insert_ne by done; apply (ri_old _ _ _ _ I); lia].
    exists ra'. split; [by apply list_lookup_insert_eq|]. rewrite Hbs. intros i q Hi. apply (mv_sealed _ _ _ _ _ _ _ M _ _ Hi).
    apply lookup_lt_Some in Hi. rewrite length_insert in Hi. lia.
  - exists nx. rewrite list_lookup_insert_ne by lia. split; [done|]. split.
    + split; [apply rcells_length| |apply M|].
      * intros i q Hq _. split; [by apply (mv_next _ _ _ _ _ _ _ M i)|]. by rewrite rcells_lookup, Hq.
      * destruct (lookup_lt_is_Some_2 (buckets_of nx) 0) as [q Hq]; [apply power_pos, M|]. eauto.
    + unfold migration. rewrite Hnk, length_insert. done.
  - intros k. rewrite <- (ri_map _ _ _ _ I). rewrite Hj, <- (lv_len _ _ _ Hlive) in M. by apply (move_done hash_of _ _ _ _ M), Hlive.
  - pose proof (ri_current _ _ _ _ I). lia.
  - eapply (threads_evolve _ _ L cs); [|apply I|].
    + split; [done| |right; split; [lia|by exists ra]]. intros a ra0 Ha. destruct (decide (a = L)) as [->|Hne].
      * rewrite Hra in Ha. injection Ha as <-. exists ra'. rewrite list_lookup_insert_eq, Hbs, length_insert by done. done.
      * exists ra0. by rewrite list_lookup_insert_ne.
    + split; [pose proof (proj1 (ri_threads _ _ _ _ I _ _ Hn)); cbn; lia|]. split; [lia|]. split; [|done]. exists ra'. by rewrite list_lookup_insert_eq.
Qed.

Lemma seal_fine s m L cs n t op a j st p weak (I : rinv s m L cs) (R : runs s n t op) :
  tt_pc t = AtSeal a j st p -> loses s n weak = false -> returns (step_seal s n a j st p weak) (step_fine s m L cs op).
Proof.
  intros Epc Hno. pose proof R as [Hn Hop]. destruct (ri_threads _ _ _ _ I _ _ Hn) as [_ Hpc]. rewrite Epc in Hpc. destruct Hpc as (-> & (ra & Hra & Hk)).
  destruct (live_mover _ _ _ _ _ _ _ I Hn Hra Hk) as (Hlive & Hl & nx & Hnx & Hnk & Hmov). rewrite Epc in Hmov. destruct Hmov as (_ & M & Hj & Hld & Hcp).
  unfold step_seal, array_at. rewrite Hra. cbn [expect_some mbind res_bind]. fold (buckets_of ra).
  destruct (lookup_lt_is_Some_2 _ _ Hj) as [q Hq]. rewrite Hq. cbn [expect_some mbind res_bind]. destruct (weak || _) eqn:Hf.
  { apply returns_ok. eapply fine_quiet. eapply mover_goto; try done; [split; [done|]; split; [by exists ra|lia]|]. intros nx' _ Hnx'. rewrite Hnx in Hnx'. by injection Hnx' as <-. }
  apply orb_false_iff in Hf as [-> Hf]. apply negb_false_iff, bool_decide_eq_true in Hf as ->. pose proof Hld as [Hg _].
  destruct (lv_bucket _ _ _ Hlive _ _ Hq (good_not_sentinel _ _ Hg)) as [_ Hc].
  assert (Hcopy : forall k w, rcell (rt_heap s) p = Some (k, w) -> lookup_cell hash_of (rcells (rt_heap s) (buckets_of nx)) k = w).
  { intros k w Hkw. unfold copied in Hcp. rewrite Hkw in Hcp. destruct Hcp as [?|(-> & [v ->] & _)]; [done|]. exfalso. unfold loses in Hno.
    rewrite Hn, Epc, Hra in Hno. fold (buckets_of ra) in Hno. rewrite (bool_decide_eq_true_2 _ Hq) in Hno. unfold rcell in Hkw, Hno. unfold is_null in Hno.
    destruct (sh_ptr p) as [addr|]; [|done]. cbn in Hkw. destruct (rt_heap s !! addr); [|done]. cbn in Hkw. destruct (is_tombstone p); [by injection Hkw|done]. }
  pose proof (move_seal hash_of _ _ _ _ _ _ _ M Hq Hc Hcopy) as M'. apply returns_ok. destruct (decide (S j < length (buckets_of ra))%nat).
  - eapply fine_quiet. by eapply rinv_seal.
  - eapply fine_quiet. eapply rinv_switch; try done. lia.
Qed.

(** ** The other steps *)

Lemma check_fine s m L cs n t op a tbc (I : rinv s m L cs) (R : runs s n t op) :
  tt_pc t = AtCheckLen a tbc ->
  returns (ra ← array_at s a; cap ← array_capacity (ra_array ra);
           let rop := rehash_op cap tbc (rt_len s) in
           quiet (goto s n (if is_skip rop then AtBucket a 0 else AtRehash a rop))) (step_fine s m L cs op).
Proof.
  intros Epc. pose proof R as [Hn Hop]. destruct (ri_threads _ _ _ _ I _ _ Hn) as [_ Ha]. rewrite Epc in Ha. cbn in Ha.
  assert (Hmv : moves (tt_pc t) = false) by by rewrite Epc.
  destruct (array_there _ _ _ _ a I Ha) as (ra & Hra & Hpow). unfold array_at. rewrite Hra. cbn [expect_some mbind res_bind].
  unfold array_capacity, array_len. fold (buckets_of ra). rewrite (proj2 (power_of_two_spec _) Hpow). cbn [assert_that mbind res_bind]. cbv zeta.
  destruct (rehash_op _ _ _) eqn:Er; cbn [is_skip]; (eapply goto_quiet; [done..|]); try done.
  - split; [done|]. split; [done|]. intros _. exists ra. split; [done|]. unfold rehash_op in Er. destruct (_ || _); [|by destruct (_ <? _)].
    destruct (_ && _) eqn:Hq; [|done]. apply andb_true_iff in Hq as [_ Hq%Z.leb_le]. change (Z.of_nat BUCKET_ARRAY_DEFAULT_LENGTH) with 128 in Hq.
    Z.to_euclidean_division_equations; lia.
  - split; [done|]. split; [exists ra; split; [done|by apply power_pos]|]. intros _. apply passed_zero.
Qed.

Lemma count_fine s m L cs n t op a r (I : rinv s m L cs) (R : runs s n t op) :
  tt_pc t = AtCountTombstone a r ->
  returns (ra ← array_at s a; let ba := ra_array ra in
           let ba := mkBucketArray (ba_buckets ba) (ba_epoch ba) (wrapping_add 64 (tombstone_count ba) 1) in
           quiet (goto (put_array s a (mkRaceArray ba (rehash_lock ra))) n (AtSwing a r))) (step_fine s m L cs op).
Proof.
  intros Epc. pose proof R as [Hn Hop]. destruct (ri_threads _ _ _ _ I _ _ Hn) as [Hc Ha]. rewrite Epc in Ha. cbn in Ha.
  assert (Hmv : moves (tt_pc t) = false) by by rewrite Epc.
  destruct (array_there _ _ _ _ a I Ha) as (ra & Hra & Hpow). unfold array_at. rewrite Hra. cbn [expect_some mbind res_bind]. cbv zeta.
  set (ra' := mkRaceArray _ _). apply returns_ok. eapply fine_quiet. rewrite (goto_eq _ _ _ _ (Hn : rt_threads (put_array s a ra') !! n = Some t)).
  eapply (rinv_stay s _ m L cs n t (mkTableThread (tt_op t) (tt_current t) (AtSwing a r))); cbn; try done; [|apply I|].
  - split; [apply length_insert|]. intros b rb Hb. destruct (decide (a = b)) as [<-|Hne].
    + rewrite Hra in Hb. injection Hb as <-. exists ra'. split; [|done]. apply list_lookup_insert_eq. by eapply lookup_lt_Some.
    + exists rb. by rewrite list_lookup_insert_ne.
  - intros rb nx Hrb Hk. by destruct (not_mover _ _ _ _ _ _ _ I Hn Hmv Hrb).
Qed.

(** A step that changes neither heap nor buckets, of a thread that moves none. *)
Lemma stay_fine s s' m L cs n t t' op : rinv s m L cs -> runs s n t op -> moves (tt_pc t) = false ->
  rt_heap s' = rt_heap s -> rt_arrays s' = rt_arrays s -> (rt_current s' <= L)%nat -> rt_threads s' = <[n := t']> (rt_threads s) ->
  thread_fine (rt_heap s) (rt_arrays s) L cs n t' -> returns (quiet s') (step_fine s m L cs op).
Proof.
  intros I [Hn Hop] Hmv Eh Ea Hcur Et Ht. apply returns_ok. eapply fine_quiet. eapply rinv_stay; try done; [rewrite Ea; apply same_refl|].
  intros rb nx Hrb Hk. by destruct (not_mover _ _ _ _ _ _ _ I Hn Hmv Hrb).
Qed.
Lemma enter_fine s m L cs n t op (I : rinv s m L cs) (R : runs s n t op) : tt_pc t = AtEnter ->
  returns (quiet (goto (see_current s n (rt_current s)) n (again op (rt_current s)))) (step_fine s m L cs op).
Proof.
  intros Epc. pose proof R as [Hn Hop]. pose proof (ri_current _ _ _ _ I) as Hcur. destruct (array_there _ _ _ _ _ I Hcur) as (ra & Hra & Hpow).
  eapply (stay_fine s _ m L cs n t (mkTableThread op (rt_current s) (again op (rt_current s)))); try done; [by rewrite Epc| |].
  - cbn. rewrite (alter_thread _ _ _ _ Hn). erewrite alter_thread; [|apply list_lookup_insert_eq; by eapply lookup_lt_Some].
    cbn. rewrite list_insert_insert_eq. by rewrite Hop.
  - split; [done|]. apply again_fine; [done|]. exists ra. split; [done|]. by apply power_pos.
Qed.
Lemma swing_fine s m L cs n t op a r weak (I : rinv s m L cs) (R : runs s n t op) : tt_pc t = AtSwing a r ->
  returns (step_swing s n a (tt_current t) r weak) (step_fine s m L cs op).
Proof.
  intros Epc. pose proof R as [Hn Hop]. destruct (ri_threads _ _ _ _ I _ _ Hn) as [Hc Ha]. rewrite Epc in Ha. cbn in Ha.
  assert (Hmv : moves (tt_pc t) = false) by by rewrite Epc. pose proof (ri_current _ _ _ _ I) as Hcur.
  unfold step_swing. destruct (bool_decide _); [by eapply goto_quiet|]. destruct (weak || _).
  - eapply (stay_fine s _ m L cs n t (mkTableThread (tt_op t) (rt_current s) (tt_pc t))); try done.
    + cbn. by rewrite (alter_thread _ _ _ _ Hn).
    + split; [done|]. by rewrite Epc.
  - eapply (stay_fine s _ m L cs n t t); try done; [|by split; [|rewrite Epc]]. cbn. symmetry. by apply list_insert_id.
Qed.

(** Every step of every thread keeps the invariant, unless it loses an entry. *)
Lemma step_ok s m L cs n weak : rinv s m L cs -> loses s n weak = false ->
  returns (table_step hash_of s n weak) (fun o => match rt_threads s !! n with Some t => step_fine s m L cs (tt_op t) o | None => o = (s, None) end).
Proof.
  intros I Hno. unfold table_step. destruct (rt_threads s !! n) as [t|] eqn:Hn; [|by apply returns_ok]. cbv zeta.
  assert (R : runs s n t (tt_op t)) by done. destruct (ri_threads _ _ _ _ I _ _ Hn) as [Hc Hpc].
  destruct (tt_pc t) as [|a|a tbc|a i|a i seen nb|a d r|a r|a rop|a|a j st|a j st p|a j st p|a r|r] eqn:Epc.
  - by eapply enter_fine.
  - cbn in Hpc. destruct (array_there _ _ _ _ a I Hpc) as (ra & Hra & _). unfold array_at. rewrite Hra. cbn [expect_some mbind res_bind].
    eapply goto_quiet; [done..|by rewrite Epc|done].
  - by eapply check_fine.
  - by eapply bucket_fine.
  - by eapply exchange_fine.
  - rewrite (goto_eq _ _ _ _ (Hn : rt_threads (with_len s _) !! n = Some t)). eapply stay_fine; try done; [by rewrite Epc|apply I|].
    split; [done|]. cbn. by destruct (d =? -1).
  - by eapply count_fine.
  - by eapply rehash_fine.
  - cbn in Hpc. destruct (array_there _ _ _ _ a I Hpc) as (ra & Hra & Hpow). unfold array_at. rewrite Hra. cbn [expect_some mbind res_bind].
    destruct (rehash_lock ra); [apply returns_ok; by eapply fine_quiet|]. eapply goto_quiet; [done..|by rewrite Epc|].
    apply again_fine; [done|]. exists ra. split; [done|]. by apply power_pos.
  - by eapply move_fine.
  - by eapply put_fine.
  - by eapply seal_fine.
  - by eapply swing_fine.
  - apply returns_ok. by eapply fine_quiet.
Qed.
End sys.
