(* ===== verification/TableRaceLin.v ===== *)
(** Histories of the hash table under contention and their linearizations: whatever the
    calls and however their steps interleave, there is an order of the calls that
    respects which had returned before which was made, and in which they give the same
    results on a map. *)
From S2P Require Import Prelude Probing Bucket BucketTable TableRace TableRaceInv TableRaceSys.

(** ** Histories *)

Inductive TableEvent (K V : Type) :=
| EvCall (n : nat) (op : TableOp K V)
| EvReturn (n : nat) (r : option V).
Arguments EvCall {K V} _ _.
Arguments EvReturn {K V} _ _.

(** ** The branches of a step *)

Definition may {A} (x : res A) (P : A -> Prop) : Prop := match x with Ok a => P a | Fail _ => True end.
Lemma may_bind {A B} (x : res A) (f : A -> res B) (P : B -> Prop) : (forall a, x = Ok a -> may (f a) P) -> may (x ≫= f) P.
Proof. destruct x as [a|e]; cbn; auto. Qed.
Ltac branches := repeat first
  [ progress cbn [may fst snd]
  | progress unfold quiet, effect
  | apply may_bind; intros ? ?
  | match goal with
    | |- may (match ?x with _ => _ end) _ => destruct x eqn:?
    | |- context [(match ?x with _ => _ end, @None (option _))] => destruct x
    | |- context [goto _ _ (match ?x with _ => _ end)] => destruct x
    | |- context [goto (match ?x with _ => _ end) _ _] => destruct x
    end ].

Section lin.
Context {K V : Type} `{Countable K}.
Variable hash_of : K -> Z.
Implicit Types (s : RaceTable K V) (t : TableThread K V) (op : TableOp K V) (m : gmap K V) (n : nat) (r : option V) (pc : TablePc K V).
#[local] Notation event := (TableEvent K V).
#[local] Notation entry := (nat * TableOp K V * option V)%type.
Implicit Types (hist : list event) (log : list entry).

Definition returned pc : option (option V) := match pc with TableReturned r => Some r | _ => None end.
Definition now_returned n pc pc' : list event := match returned pc, returned pc' with None, Some r => [EvReturn n r] | _, _ => [] end.
(** The event of a step of thread [n] from [s] to [s']. *)
Definition return_event s s' n : list event :=
  match rt_threads s !! n, rt_threads s' !! n with Some t, Some t' => now_returned n (tt_pc t) (tt_pc t') | _, _ => [] end.

(** The executions in which no step is [bad], with their histories. *)
Inductive texec (bad : RaceTable K V -> nat -> bool -> bool) : RaceTable K V -> list event -> Prop :=
| tx_new len s : new_table len = Ok s -> texec bad s []
| tx_call s hist op : texec bad s hist -> texec bad (table_spawn s op) (hist ++ [EvCall (length (rt_threads s)) op])
| tx_step s hist n weak s' o : texec bad s hist -> bad s n weak = false -> table_step hash_of s n weak = Ok (s', o) ->
    texec bad s' (hist ++ return_event s s' n).

(** The thread begins to move the buckets to a smaller array. *)
Definition shrinks s n (weak : bool) : bool :=
  match rt_threads s !! n with
  | Some t =>
      match tt_pc t with
      | AtRehash a Shrink =>
          match rt_arrays s !! a with
          | Some ra => bool_decide (rehash_lock ra = None) && bool_decide (length (rt_arrays s) = S a)
          | None => false
          end
      | _ => false
      end
  | None => false
  end.

(** ** Linearizations *)

(** The results are those of the calls in this order on a map. *)
Fixpoint sequential m log : Prop :=
  match log with
  | [] => True
  | (_, op, r) :: log => r = snd (table_spec m op) /\ sequential (fst (table_spec m op)) log
  end.
Definition after m log : gmap K V := foldl (fun m e => fst (table_spec m (snd (fst e)))) m log.
Definition ids log : list nat := (fun e => fst (fst e)) <$> log.

(** Call [n] had returned when call [n'] was made. *)
Definition earlier hist n n' : Prop :=
  exists h1 h2, hist = h1 ++ h2 /\ (exists r, EvReturn n r ∈ h1) /\ (exists op, EvCall n' op ∈ h2).
Definition precedes log n n' : Prop := exists l1 l2, log = l1 ++ l2 /\ n ∈ ids l1 /\ n' ∈ ids l2.

Record linearizes hist log : Prop := {
  lz_sequential : sequential ∅ log;
  lz_once : NoDup (ids log);
  lz_called : forall n op r, (n, op, r) ∈ log -> EvCall n op ∈ hist;
  lz_returned : forall n r, EvReturn n r ∈ hist -> exists op, (n, op, r) ∈ log;
  lz_order : forall n n', earlier hist n n' -> n' ∈ ids log -> precedes log n n'
}.

(** ** What a step does to the threads *)

(** The result of a call, from the step at which it takes effect. *)
Definition result_of pc : option (option V) :=
  match pc with AtCountLen _ _ r | AtCountTombstone _ r | AtSwing _ r | TableReturned r => Some r | _ => None end.

Definition keeps s n t (o : RaceTable K V * option (option V)) : Prop :=
  exists t', rt_threads (fst o) = <[n := t']> (rt_threads s) /\ tt_op t' = tt_op t /\
    match snd o with
    | Some r => result_of (tt_pc t) = None /\ result_of (tt_pc t') = Some r /\ returned (tt_pc t') = None
    | None => result_of (tt_pc t') = result_of (tt_pc t)
    end.
Lemma keeps_goto s s1 n t pc e : rt_threads s !! n = Some t -> rt_threads s1 = rt_threads s ->
  match e with
  | Some r => result_of (tt_pc t) = None /\ result_of pc = Some r /\ returned pc = None
  | None => result_of pc = result_of (tt_pc t)
  end -> keeps s n t (goto s1 n pc, e).
Proof.
  intros Hn Es He. rewrite <- Es in Hn. exists (mkTableThread (tt_op t) (tt_current t) pc). rewrite (goto_eq _ _ _ _ Hn). cbn. by rewrite Es.
Qed.
Lemma keeps_self s n t : rt_threads s !! n = Some t -> keeps s n t (s, None).
Proof. intros Hn. exists t. cbn. by rewrite list_insert_id. Qed.

Lemma again_result op a : result_of (again op a) = None.
Proof. by destruct op. Qed.
Lemma step_thread s n weak t : rt_threads s !! n = Some t -> may (table_step hash_of s n weak) (keeps s n t).
Proof.
  intros Hn. unfold table_step. rewrite Hn. cbv zeta. assert (Hg : forall s1 pc e, _) by (intros s1 pc e; exact (keeps_goto s s1 n t pc e Hn)).
  destruct (tt_pc t) as [|a|a tbc|a i|a i seen nb|a d r|a r|a rop|a|a j st|a j st p|a j st p|a r|r] eqn:Epc;
    unfold step_bucket, at_hit, at_end, step_exchange, step_rehash, step_move, step_put, step_seal, step_swing; cbv zeta; branches;
    try (by apply Hg); try (by apply Hg; [done|apply again_result]); try (by apply keeps_self).
  - exists (mkTableThread (tt_op t) (rt_current s) (again (tt_op t) (rt_current s))). cbn. rewrite (alter_thread _ _ _ _ Hn).
    erewrite alter_thread; [|apply list_lookup_insert_eq; by eapply lookup_lt_Some]. cbn. rewrite list_insert_insert_eq, Epc. split; [done|]. split; [done|]. apply again_result.
  - exists (mkTableThread (tt_op t) (rt_current s) (tt_pc t)). cbn. by rewrite (alter_thread _ _ _ _ Hn).
  - exists t. cbn. by rewrite list_insert_id.
Qed.

(** ** The linearization grows with the execution *)

Lemma sequential_snoc n op log : forall m, sequential m log -> sequential m (log ++ [(n, op, snd (table_spec (after m log) op))]).
Proof. induction log as [|[[n' op'] r'] log IH]; intros m; cbn; [done|]. intros [-> Hl]. split; [done|]. by apply IH. Qed.
Lemma after_snoc m log n op r : after m (log ++ [(n, op, r)]) = fst (table_spec (after m log) op).
Proof. unfold after. by rewrite foldl_app. Qed.
Lemma ids_snoc log n op r : ids (log ++ [(n, op, r)]) = ids log ++ [n].
Proof. unfold ids. by rewrite fmap_app. Qed.
Lemma in_ids log n : n ∈ ids log <-> exists op r, (n, op, r) ∈ log.
Proof.
  unfold ids. rewrite list_elem_of_fmap. split.
  - intros ([[n' op] r] & -> & Hin). eauto.
  - intros (op & r & Hin). by exists (n, op, r).
Qed.

Record lin s hist log : Prop := {
  li_inv : exists L cs, rinv hash_of s (after ∅ log) L cs;
  li_sequential : sequential ∅ log;
  li_once : NoDup (ids log);
  li_logged : forall n op r, (n, op, r) ∈ log -> exists t, rt_threads s !! n = Some t /\ tt_op t = op /\ result_of (tt_pc t) = Some r;
  li_done : forall n t r, rt_threads s !! n = Some t -> result_of (tt_pc t) = Some r -> (n, tt_op t, r) ∈ log;
  li_calls : forall n op, EvCall n op ∈ hist <-> exists t, rt_threads s !! n = Some t /\ tt_op t = op;
  li_returns : forall n r, EvReturn n r ∈ hist <-> exists t, rt_threads s !! n = Some t /\ returned (tt_pc t) = Some r;
  li_order : forall n n', earlier hist n n' -> n' ∈ ids log -> precedes log n n'
}.

Lemma lin_linearizes s hist log : lin s hist log -> linearizes hist log.
Proof.
  intros [_ Hs Ho Hl Hd Hc Hr Hord]. split; try done.
  - intros n op r Hin. apply Hc. destruct (Hl _ _ _ Hin) as (t & Ht & Hop & _). eauto.
  - intros n r Hin. apply Hr in Hin as (t & Ht & Hret). exists (tt_op t). apply Hd; [done|]. by destruct (tt_pc t).
Qed.

(** A history that gets one more event. *)
Lemma earlier_snoc hist e n n' : earlier (hist ++ [e]) n n' -> earlier hist n n' \/ exists op r, e = EvCall n' op /\ EvReturn n r ∈ hist.
Proof.
  intros (h1 & h2 & E & (r & Hr) & op & Hop). destruct h2 as [|e' h2 _] using rev_ind; [by apply not_elem_of_nil in Hop|].
  rewrite app_assoc in E. apply app_inj_tail in E as [-> <-]. apply elem_of_app in Hop as [Hop|Hop].
  - left. exists h1, h2. eauto 6.
  - apply list_elem_of_singleton in Hop as <-. right. exists op, r. split; [done|]. apply elem_of_app. by left.
Qed.
Lemma precedes_snoc log e n n' : precedes log n n' -> precedes (log ++ [e]) n n'.
Proof.
  intros (l1 & l2 & -> & Hn & Hn'). exists l1, (l2 ++ [e]). rewrite app_assoc. split; [done|]. split; [done|]. unfold ids. rewrite fmap_app. apply elem_of_app. by left.
Qed.

Lemma new_inv len s : new_table (K := K) (V := V) len = Ok s -> rinv hash_of s ∅ 0 (replicate len None) /\ rt_threads s = [].
Proof.
  intros E. unfold new_table, with_length in E. destruct (is_power_of_two _) eqn:Hp; [|done]. cbn in E. injection E as <-. apply power_of_two_spec in Hp.
  destruct (empty_table (K := K) (V := V) hash_of len) as (T1 & _ & T3 & _). split; [|done]. split; cbn; try done.
  - intros [|a] ra Ha; [|done]. injection Ha as <-. unfold buckets_of. cbn. by rewrite length_replicate.
  - intros a Ha. lia.
  - eexists. split; [done|]. unfold buckets_of, migration. cbn. split.
    + split; [by rewrite !length_replicate| |done|].
      * intros i p [-> Hi]%lookup_replicate _. split; [apply good_null|]. by apply lookup_replicate_2.
      * exists 0%nat, null. split; [|done]. apply lookup_replicate_2. by apply power_pos.
    + split; [done|]. unfold buckets_of. cbn. by intros i p [-> _]%lookup_replicate.
  - intros k. rewrite lookup_empty. by apply lookup_absent.
Qed.
Lemma spawn_inv s m L cs op : rinv hash_of s m L cs -> rinv hash_of (table_spawn s op) m L cs.
Proof.
  intros I. destruct (ri_live _ _ _ _ _ I) as (ra & Hra & Hlive & Hmig). split; try apply I; cbn.
  - exists ra. split; [done|]. split; [done|]. unfold migration in *. destruct (rehash_lock ra); [|done].
    destruct Hmig as (t & nx & Ht & Hrest). exists t, nx. split; [by apply lookup_app_l_Some|done].
  - intros n t. rewrite lookup_app. destruct (rt_threads s !! n) eqn:Hn; [intros [= <-]; by eapply ri_threads|].
    destruct (_ - _)%nat; [|done]. intros [= <-]. split; cbn; [lia|done].
Qed.

Lemma lin_new len s : new_table len = Ok s -> lin s [] [].
Proof.
  intros E. destruct (new_inv _ _ E) as [I Et]. split; rewrite ?Et.
  - eauto.
  - done.
  - apply NoDup_nil_2.
  - by intros n op r ?%not_elem_of_nil.
  - done.
  - intros n op. split; [by intros ?%not_elem_of_nil|]. by intros (t & ? & _).
  - intros n r. split; [by intros ?%not_elem_of_nil|]. by intros (t & ? & _).
  - intros n n' _ ?%not_elem_of_nil. done.
Qed.

Lemma lin_call s hist log op : lin s hist log -> lin (table_spawn s op) (hist ++ [EvCall (length (rt_threads s)) op]) log.
Proof.
  intros [(L & cs & I) Hs Ho Hl Hd Hc Hr Hord]. set (t0 := mkTableThread op 0 AtEnter).
  assert (Hth : forall n t, rt_threads (table_spawn s op) !! n = Some t <-> rt_threads s !! n = Some t \/ n = length (rt_threads s) /\ t = t0).
  { intros n t. cbn. rewrite lookup_app_Some, list_lookup_singleton_Some. split; [|intros [?|[-> ->]]; [by left|right; split; [lia|split; [lia|done]]]].
    intros [?|(? & ? & <-)]; [by left|right; split; [lia|done]]. }
  split; try done.
  - exists L, cs. by apply spawn_inv.
  - intros n o r Hin. destruct (Hl _ _ _ Hin) as (t & Ht & Hrest). exists t. rewrite Hth. auto.
  - intros n t r Ht Hres. apply Hth in Ht as [Ht|[-> ->]]; [by apply Hd|done].
  - intros n o. rewrite elem_of_app, list_elem_of_singleton, Hc. setoid_rewrite Hth. split.
    + intros [(t & Ht & Hop)|[= -> ->]]; [eauto|]. exists t0. auto.
    + intros (t & [Ht|[-> ->]] & <-); [eauto|by right].
  - intros n r. rewrite elem_of_app, list_elem_of_singleton, Hr. setoid_rewrite Hth. split.
    + intros [(t & Ht & Hret)|?]; [eauto|done].
    + intros (t & [Ht|[-> ->]] & Hret); [eauto|done].
  - intros n n' [He|(op' & r & [= E _] & _)]%earlier_snoc Hin; [by apply Hord|]. apply in_ids in Hin as (o & r' & Hin).
    destruct (Hl _ _ _ Hin) as (t & Ht & _). apply lookup_lt_Some in Ht. lia.
Qed.

(** The threads and the history after a step of thread [n]. *)
Lemma step_threads s s' n t t' : rt_threads s !! n = Some t -> rt_threads s' = <[n := t']> (rt_threads s) ->
  (forall i u, rt_threads s' !! i = Some u <-> (i = n /\ u = t') \/ (i <> n /\ rt_threads s !! i = Some u)).
Proof.
  intros Hn -> i u. rewrite list_lookup_insert_Some. pose proof (lookup_lt_Some _ _ _ Hn). naive_solver.
Qed.
Lemma step_event s s' n t t' : rt_threads s !! n = Some t -> rt_threads s' = <[n := t']> (rt_threads s) ->
  return_event s s' n = now_returned n (tt_pc t) (tt_pc t').
Proof. intros Hn E. unfold return_event. rewrite Hn, E, list_lookup_insert_eq by (by eapply lookup_lt_Some). done. Qed.
Lemma returned_result pc r : returned pc = Some r -> result_of pc = Some r.
Proof. by destruct pc. Qed.

Lemma step_history s s' n t t' hist : rt_threads s !! n = Some t -> rt_threads s' = <[n := t']> (rt_threads s) -> tt_op t' = tt_op t ->
  (forall r, returned (tt_pc t) = Some r -> returned (tt_pc t') = Some r) ->
  (forall i op, EvCall i op ∈ hist <-> exists u, rt_threads s !! i = Some u /\ tt_op u = op) ->
  (forall i r, EvReturn i r ∈ hist <-> exists u, rt_threads s !! i = Some u /\ returned (tt_pc u) = Some r) ->
  let hist' := hist ++ return_event s s' n in
  (forall i op, EvCall i op ∈ hist' <-> exists u, rt_threads s' !! i = Some u /\ tt_op u = op) /\
  (forall i r, EvReturn i r ∈ hist' <-> exists u, rt_threads s' !! i = Some u /\ returned (tt_pc u) = Some r) /\
  (forall i j, earlier hist' i j -> earlier hist i j).
Proof.
  intros Hn E Hop Hret Hc Hr. rewrite (step_event _ _ _ _ _ Hn E). pose proof (step_threads _ _ _ _ _ Hn E) as Hth.
  set (ev := now_returned _ _ _). cbv zeta.
  assert (Hev : forall e, e ∈ ev <-> exists r, e = EvReturn n r /\ returned (tt_pc t) = None /\ returned (tt_pc t') = Some r).
  { intros e. unfold ev, now_returned. destruct (returned (tt_pc t)); [split; [by intros ?%not_elem_of_nil|naive_solver]|].
    destruct (returned (tt_pc t')); [rewrite list_elem_of_singleton; naive_solver|split; [by intros ?%not_elem_of_nil|naive_solver]]. }
  split; [|split].
  - intros i op. rewrite elem_of_app, Hev, Hc. setoid_rewrite Hth. destruct (decide (i = n)) as [->|Hne]; naive_solver.
  - intros i r. rewrite elem_of_app, Hev, Hr. setoid_rewrite Hth. destruct (decide (i = n)) as [->|Hne]; [|naive_solver]. split.
    + intros [(u & Hu & Hru)|(r' & [= <-] & _ & ?)]; [|eauto]. rewrite Hn in Hu. injection Hu as <-. exists t'. auto.
    + intros (u & [[_ ->]|[? _]] & Hru); [|done]. destruct (returned (tt_pc t)) as [r0|] eqn:E0; [|right; eauto]. left. exists t. split; [done|].
      rewrite (Hret _ eq_refl) in Hru. by rewrite E0.
  - intros i j. unfold ev, now_returned. destruct (returned (tt_pc t)), (returned (tt_pc t')); rewrite ?app_nil_r; try done. intros [?|(op & r & [=] & _)]%earlier_snoc. done.
Qed.

Lemma step_result s n weak t s' o : rt_threads s !! n = Some t -> table_step hash_of s n weak = Ok (s', o) ->
  exists t', rt_threads s' = <[n := t']> (rt_threads s) /\ tt_op t' = tt_op t /\ (forall r, returned (tt_pc t) = Some r -> returned (tt_pc t') = Some r) /\
    match o with
    | Some r => result_of (tt_pc t) = None /\ result_of (tt_pc t') = Some r
    | None => result_of (tt_pc t') = result_of (tt_pc t)
    end.
Proof.
  intros Hn Es. pose proof (step_thread s n weak t Hn) as Hk. rewrite Es in Hk. destruct Hk as (t' & Et & Hop & Ho). exists t'. split; [done|]. split; [done|].
  split; [|cbn in Ho; destruct o; naive_solver]. intros r Hr. unfold table_step in Es. rewrite Hn in Es. destruct (tt_pc t) eqn:Epc; try done.
  injection Es as <- _. cbn in Et. assert (E : rt_threads s !! n = Some t') by (rewrite Et; apply list_lookup_insert_eq; by eapply lookup_lt_Some).
  rewrite Hn in E. injection E as <-. by rewrite Epc.
Qed.

Lemma lin_step s hist log n weak s' o : lin s hist log -> loses s n weak = false -> table_step hash_of s n weak = Ok (s', o) ->
  exists log', lin s' (hist ++ return_event s s' n) log'.
Proof.
  intros Hlin Hno Es. destruct (li_inv _ _ _ Hlin) as (L & cs & I). destruct (step_ok hash_of _ _ _ _ _ _ I Hno) as (o' & Eo & Hf).
  rewrite Es in Eo. injection Eo as <-. destruct (rt_threads s !! n) as [t|] eqn:Hn.
  2: { injection Hf as -> ->. exists log. unfold return_event. by rewrite Hn, app_nil_r. }
  destruct Hf as (L' & cs' & I' & Hr). destruct (step_result _ _ _ _ _ _ Hn Es) as (t' & Et & Hop & Hret & Hres). pose proof (step_threads _ _ _ _ _ Hn Et) as Hth.
  destruct Hlin as [_ Hs Ho Hl Hd Hc Hrt Hord]. destruct (step_history _ _ _ _ _ _ Hn Et Hop Hret Hc Hrt) as (Hc' & Hrt' & Hord'). cbn in I', Hr.
  assert (Hold : forall i op r, (i, op, r) ∈ log -> exists u, rt_threads s' !! i = Some u /\ tt_op u = op /\ result_of (tt_pc u) = Some r).
  { intros i op r Hin. destruct (Hl _ _ _ Hin) as (u & Hu & Hopu & Hru). setoid_rewrite Hth. destruct (decide (i = n)) as [->|Hne]; [|eauto 6].
    rewrite Hn in Hu. injection Hu as <-. exists t'. split; [by left|]. destruct o; split; try congruence; destruct Hres; congruence. }
  destruct o as [r|].
  - destruct Hres as [Hnone Hres]. assert (Hnew : n ∉ ids log).
    { intros (op & r' & Hin)%in_ids. destruct (Hl _ _ _ Hin) as (u & Hu & _ & Hru). congruence. }
    rewrite (Hr r eq_refl) in *. exists (log ++ [(n, tt_op t, snd (table_spec (after ∅ log) (tt_op t)))]). split; try done.
    + exists L', cs'. by rewrite after_snoc.
    + by apply sequential_snoc.
    + rewrite ids_snoc. apply NoDup_app. split; [done|]. split; [|apply NoDup_singleton]. by intros x Hx ->%list_elem_of_singleton.
    + intros i op r' [Hin|E%list_elem_of_singleton]%elem_of_app; [by apply Hold|]. injection E as -> -> ->. exists t'. rewrite Hth. auto.
    + intros i u r' Hu Hru. apply elem_of_app. apply Hth in Hu as [[-> ->]|[_ Hu]]; [right|left; by apply Hd]. rewrite Hop. apply list_elem_of_singleton. congruence.
    + intros i j He. rewrite ids_snoc, elem_of_app, list_elem_of_singleton. intros [Hj| ->]; [by apply precedes_snoc, Hord; [apply Hord'|]|].
      exists log, [(n, tt_op t, snd (table_spec (after ∅ log) (tt_op t)))]. split; [done|]. split; [|by apply list_elem_of_singleton].
      apply Hord' in He as (h1 & h2 & -> & (ri & Hi) & _). assert (Hi' : EvReturn i ri ∈ h1 ++ h2) by (apply elem_of_app; by left).
      apply Hrt in Hi' as (u & Hu & Hru). apply in_ids. exists (tt_op u), ri. apply Hd; [done|]. by apply returned_result.
  - exists log. split; try done.
    + by exists L', cs'.
    + intros i u r' Hu Hru. apply Hth in Hu as [[-> ->]|[_ Hu]]; [|by apply Hd]. rewrite Hop. apply Hd; [done|]. congruence.
    + intros i j He. by apply Hord, Hord'.
Qed.

Lemma exec_lin s hist : texec loses s hist -> exists log, lin s hist log.
Proof.
  induction 1 as [len s E|s hist op _ [log IH]|s hist n weak s' o _ [log IH] Hno Es].
  - exists []. by eapply lin_new.
  - exists log. by apply lin_call.
  - by eapply lin_step.
Qed.

(** ** Playing an execution *)

Inductive TableAct :=
| Call (op : TableOp K V)
| Step (n : nat) (weak : bool).
Fixpoint play (bad : RaceTable K V -> nat -> bool -> bool) (acts : list TableAct) s hist : res (RaceTable K V * list event) :=
  match acts with
  | [] => Ok (s, hist)
  | Call op :: acts => play bad acts (table_spawn s op) (hist ++ [EvCall (length (rt_threads s)) op])
  | Step n weak :: acts =>
      if bad s n weak then Fail AssertFailed
      else '(s', _) ← table_step hash_of s n weak; play bad acts s' (hist ++ return_event s s' n)
  end.
Lemma play_exec bad acts : forall s hist s' hist', texec bad s hist -> play bad acts s hist = Ok (s', hist') -> texec bad s' hist'.
Proof.
  induction acts as [|[op|n weak] acts IH]; intros s hist s' hist' Hx E; cbn in E.
  - by injection E as <- <-.
  - eapply IH; [|exact E]. by apply tx_call.
  - destruct (bad s n weak) eqn:Hb; [done|]. destruct (table_step hash_of s n weak) as [[s1 o]|] eqn:Es; [|done]. cbn in E. eapply IH; [|exact E]. by eapply tx_step.
Qed.
Lemma play_hist bad acts : forall s h0 s' h', play bad acts s h0 = Ok (s', h') -> exists h, h' = h0 ++ h /\ forall g, play bad acts s g = Ok (s', g ++ h).
Proof.
  induction acts as [|[op|n weak] acts IH]; intros s h0 s' h' E; cbn [play] in *.
  - injection E as <- <-. exists []. rewrite app_nil_r. split; [done|]. intros g. by rewrite app_nil_r.
  - destruct (IH _ _ _ _ E) as (h & -> & Hg). exists ([EvCall (length (rt_threads s)) op] ++ h). split; [by rewrite app_assoc|]. intros g. by rewrite Hg, app_assoc.
  - destruct (bad s n weak); [done|]. destruct (table_step hash_of s n weak) as [[s1 o]|]; [|done]. cbn in *.
    destruct (IH _ _ _ _ E) as (h & -> & Hg). exists (return_event s s1 n ++ h). split; [by rewrite app_assoc|]. intros g. by rewrite Hg, app_assoc.
Qed.
Definition play_new (bad : RaceTable K V -> nat -> bool -> bool) (len : nat) (acts : list TableAct) : res (RaceTable K V * list event) :=
  s ← new_table len; play bad acts s [].
Lemma play_new_exec bad len acts s hist : play_new bad len acts = Ok (s, hist) -> texec bad s hist.
Proof. unfold play_new. destruct (new_table len) as [s0|] eqn:E; [|done]. cbn. apply play_exec. by eapply tx_new. Qed.
End lin.
Arguments Call {K V} _.
Arguments Step {K V} _ _.
