(* ===== verification/TableRaceShrink.v ===== *)
(** Moving the buckets of the hash table to a smaller array.

    The size of the next array is chosen before its owner takes the buckets over, and
    threads that have passed their own check go on inserting meanwhile.  If the next
    array is no smaller there is room for everything; if it is smaller, entries can be
    lost. *)
From S2P Require Import Prelude Probing Bucket BucketTable TableRace TableRaceInv TableRaceSys TableRaceLin.

Section sizes.
Context {K V : Type} `{Countable K}.
Variable hash_of : K -> Z.
Implicit Types (s : RaceTable K V) (t : TableThread K V) (ra : RaceArray) (a n : nat).

(** ** The sizes of the arrays *)

Definition sizes s : list nat := (fun ra => length (buckets_of ra)) <$> rt_arrays s.

(** What a step does to the sizes: nothing, unless it makes a new array. *)
Definition sized s n t (o : RaceTable K V * option (option V)) : Prop :=
  sizes (fst o) = sizes s \/
  exists a rop ra len, tt_pc t = AtRehash a rop /\ rt_arrays s !! a = Some ra /\ rehash_lock ra = None /\ (length (rt_arrays s) <= S a)%nat /\
    new_len rop (length (buckets_of ra)) = Ok len /\ sizes (fst o) = sizes s ++ [len].

Lemma sizes_put s s1 a ra ra' : rt_arrays s1 = rt_arrays s -> rt_arrays s !! a = Some ra -> length (buckets_of ra') = length (buckets_of ra) ->
  sizes (put_array s1 a ra') = sizes s.
Proof.
  intros Es Ha Hl. unfold sizes. cbn. rewrite Es. apply list_eq. intros i. rewrite !list_lookup_fmap. destruct (decide (a = i)) as [<-|Hne].
  - rewrite list_lookup_insert_eq by (by eapply lookup_lt_Some). rewrite Ha. cbn. by rewrite Hl.
  - by rewrite list_lookup_insert_ne.
Qed.
Lemma sizes_new s a ra ra' n pc next len epoch : rt_arrays s !! a = Some ra -> length (buckets_of ra') = length (buckets_of ra) -> with_length epoch len = Ok next ->
  sizes (goto (with_arrays (put_array s a ra') (<[a := ra']> (rt_arrays s) ++ [mkRaceArray next None])) n pc) = sizes s ++ [len].
Proof.
  intros Ha Hl E. unfold with_length in E. destruct (is_power_of_two _); [|done]. injection E as <-. rewrite <- (sizes_put s s a ra ra') by done.
  unfold sizes. cbn. rewrite fmap_app. cbn. unfold buckets_of at 2. cbn. by rewrite length_replicate.
Qed.
Lemma array_at_some s a ra : array_at s a = Ok ra -> rt_arrays s !! a = Some ra.
Proof. unfold array_at. by destruct (rt_arrays s !! a); cbn; [intros [= <-]|]. Qed.
Lemma search_may {A} (h : gmap positive (Bucket K V)) bs eq (hit : nat -> Shared -> option (Bucket K V) -> res A) x y (P : A -> Prop) :
  (forall i p ob, may (hit i p ob) P) -> P x -> P y -> forall idxs, may (search h bs idxs eq hit x y) P.
Proof. intros Hh Hx Hy. induction idxs as [|i idxs IH]; cbn [search]; branches; done. Qed.
Lemma grow_size (h : gmap positive (Bucket K V)) ba hash p :
  may (insert_for_grow h ba hash p) (fun r => length (ba_buckets (fst r)) = length (ba_buckets ba)).
Proof. unfold insert_for_grow. branches; try done. apply search_may; [|done..]. intros i q ob. branches; try done; apply length_insert. Qed.

Lemma step_sizes s n weak t : rt_threads s !! n = Some t -> may (table_step hash_of s n weak) (sized s n t).
Proof.
  intros Hn. unfold table_step. rewrite Hn. cbv zeta.
  assert (Hput : forall s1 a ra ra' pc e, rt_arrays s1 = rt_arrays s -> array_at s a = Ok ra -> length (buckets_of ra') = length (buckets_of ra) ->
    sized s n t (goto (put_array s1 a ra') n pc, e)).
  { intros s1 a ra ra' pc e Es Ha%array_at_some Hl. left. by apply (sizes_put s s1 a ra). }
  destruct (tt_pc t) as [|a|a tbc|a i|a i seen nb|a d r|a r|a rop|a|a j st|a j st p|a j st p|a r|r] eqn:Epc;
    unfold step_bucket, at_hit, at_end, step_exchange, step_rehash, step_move, step_put, step_seal, step_swing; cbv zeta; branches;
    try (by left); try (by eapply Hput; [|done|apply length_insert]); try (by eapply Hput).
  - right. repeat match goal with Ha : array_at _ _ = Ok _ |- _ => apply array_at_some in Ha | Hb : bool_decide _ = false |- _ => apply bool_decide_eq_false in Hb end.
    eexists a, rop, _, _. do 3 (split; [done|]). cbn [rt_arrays put_array with_arrays] in *. rewrite length_insert in *. split; [lia|]. split; [done|]. by eapply sizes_new.
  - match goal with E : insert_for_grow ?h ?ba ?hash ?p = _ |- _ => pose proof (grow_size h ba hash p) as Hg; rewrite E in Hg end. by eapply Hput.
Qed.

(** ** Without a shrink there is room *)

Definition rising s : Prop := forall a x y, sizes s !! a = Some x -> sizes s !! S a = Some y -> (x <= y)%nat.

Lemma rising_step s n weak s' o : rising s -> shrinks s n weak = false -> table_step hash_of s n weak = Ok (s', o) -> rising s'.
Proof.
  intros Hr Hno Es. destruct (rt_threads s !! n) as [t|] eqn:Hn; [|unfold table_step in Es; rewrite Hn in Es; by injection Es as <- _].
  pose proof (step_sizes s n weak t Hn) as Hs. rewrite Es in Hs. destruct Hs as [E|(a & rop & ra & len & Epc & Ha & Hk & Hlast & Hlen & E)]; cbn in E.
  { unfold rising. by rewrite E. }
  pose proof (lookup_lt_Some _ _ _ Ha) as Hlt. assert (Hl : length (sizes s) = S a) by (unfold sizes; rewrite length_fmap; lia).
  assert (Hge : (length (buckets_of ra) <= len)%nat).
  { unfold shrinks in Hno. rewrite Hn, Epc in Hno. destruct rop; cbn in Hlen; try done; [injection Hlen as <-; lia| |injection Hlen as <-; lia].
    rewrite Ha, Hk in Hno. rewrite !bool_decide_eq_true_2 in Hno by (done || lia). done. }
  unfold rising. rewrite E. intros b x y Hx Hy. destruct (decide (b = a)) as [->|Hne].
  - rewrite lookup_app_l in Hx by lia. rewrite lookup_app_r in Hy by lia. rewrite Hl, Nat.sub_diag in Hy. injection Hy as <-.
    unfold sizes in Hx. rewrite list_lookup_fmap, Ha in Hx. by injection Hx as <-.
  - pose proof (lookup_lt_Some _ _ _ Hy) as Hb. rewrite length_app, Hl in Hb. cbn in Hb.
    rewrite lookup_app_l in Hx by lia. rewrite lookup_app_l in Hy by lia. by eapply Hr.
Qed.

(** An entry is lost only if the next array is smaller. *)
Lemma loses_smaller s m L cs n weak : rinv hash_of s m L cs -> loses s n weak = true -> exists x y, sizes s !! L = Some x /\ sizes s !! S L = Some y /\ (y < x)%nat.
Proof.
  intros I Hl. unfold loses in Hl. destruct (rt_threads s !! n) as [t|] eqn:Hn; [|done]. destruct (tt_pc t) as [| | | | | | | | | | |a j [x|] p| |] eqn:Epc; try done.
  destruct (ri_threads _ _ _ _ _ I _ _ Hn) as [_ Hpc]. rewrite Epc in Hpc. destruct Hpc as (-> & ra & Hra & Hk).
  destruct (live_mover _ _ _ _ _ _ _ _ I Hn Hra Hk) as (Hlive & _ & nx & Hnx & _ & Hmov). rewrite Epc in Hmov. destruct Hmov as (_ & M & Hj & Hld & Hcp).
  rewrite !andb_true_iff, !negb_true_iff in Hl. destruct Hl as (((_ & Hnull) & Htomb) & _). exists (length (buckets_of ra)), (length (buckets_of nx)).
  unfold sizes. rewrite !list_lookup_fmap, Hra, Hnx. do 2 (split; [done|]). pose proof Hld as [Hg _]. destruct (sh_ptr p) as [addr|] eqn:Ep; [|by apply (gd_null _ _ Hg) in Ep as ->].
  destruct (gd_bucket _ _ Hg addr Ep) as (k & v & Hb). pose proof (rcell_bucket _ _ _ _ _ Ep Hb) as Hc. rewrite Htomb in Hc.
  pose proof (move_absent hash_of _ _ _ _ _ _ _ _ M (lv_table _ _ _ _ Hlive) Hld Hc) as Hab. unfold copied in Hcp. rewrite Hc in Hcp.
  rewrite (lookup_absent hash_of _ _ Hab) in Hcp. destruct Hcp as [?|(_ & _ & Hfull)]; [done|]. pose proof (mv_room _ _ _ _ _ _ _ M). cbn in *. lia.
Qed.

(** C18. Only shrinking endangers entries.  In an execution in which no thread ever begins
    to move the buckets to a smaller array, no step seals a bucket that the next array
    has no room for: the table is linearizable without further conditions. *)
Theorem only_shrinking_loses s hist : texec hash_of shrinks s hist -> texec hash_of loses s hist.
Proof.
  intros Hx. enough (texec hash_of loses s hist /\ rising s) by naive_solver.
  induction Hx as [len s E|s hist op _ [IH Hr]|s hist n weak s' o _ [IH Hr] Hno Es].
  - split; [by eapply tx_new|]. unfold new_table in E. destruct (with_length 0 len); [|done]. injection E as <-. by intros [|i] x y.
  - split; [by apply tx_call|]. exact Hr.
  - split; [|by eapply rising_step]. eapply tx_step; [done| |done]. destruct (loses s n weak) eqn:Hl; [|done].
    destruct (exec_lin hash_of _ _ IH) as [log Hlin]. destruct (li_inv _ _ _ _ Hlin) as (L & cs & I).
    destruct (loses_smaller _ _ _ _ _ _ I Hl) as (x & y & Hx & Hy & Hlt). specialize (Hr _ _ _ Hx Hy). lia.
Qed.
End sizes.

(** ** Histories that lose a key *)

Section lost.
Context {K V : Type} `{Countable K}.
Implicit Types (op : TableOp K V) (m : gmap K V) (k : K) (n i : nat).

Definition inserts k op : bool := match op with TInsertIfNotPresent k' _ | TInsertOrModify k' _ _ => bool_decide (k' = k) | _ => false end.
Definition removes k op : bool := match op with TRemoveIf k' _ => bool_decide (k' = k) | _ => false end.
Definition gets k op : bool := match op with TGet k' => bool_decide (k' = k) | _ => false end.

Lemma spec_keeps m op k : removes k op = false -> is_Some (m !! k) -> is_Some (fst (table_spec m op) !! k).
Proof.
  intros Hr Hm. destruct op as [k'|k' condition|k' v|k' v modifier]; cbn in *; [done|..]; destruct (m !! k') as [v0|] eqn:E; try done.
  - apply bool_decide_eq_false in Hr. destruct (condition k' v0); cbn; [by rewrite lookup_delete_ne|done].
  - cbn. rewrite lookup_insert. case_decide; eauto.
  - cbn. rewrite lookup_insert. case_decide; eauto.
  - cbn. rewrite lookup_insert. case_decide; eauto.
Qed.
Lemma spec_inserts m op k : inserts k op = true -> is_Some (fst (table_spec m op) !! k).
Proof.
  intros Hi. destruct op as [| |k' v|k' v modifier]; cbn in *; try done; apply bool_decide_eq_true in Hi as ->; destruct (m !! k) eqn:E; cbn; rewrite ?E, ?lookup_insert_eq; eauto.
Qed.

Lemma kept_after log k : (forall i op r, (i, op, r) ∈ log -> removes k op = false) -> forall m, is_Some (m !! k) -> is_Some (after m log !! k).
Proof.
  induction log as [|[[i op] r] log IH]; intros Hr m Hm; [done|]. cbn. apply IH; [intros i' op' r' Hin; eapply Hr; by apply elem_of_cons; right|].
  apply spec_keeps; [|done]. eapply (Hr i op r). apply elem_of_cons. by left.
Qed.
Lemma sequential_split l1 l2 m : sequential (K := K) (V := V) m (l1 ++ l2) -> sequential (after m l1) l2.
Proof. revert m. induction l1 as [|[[i op] r] l1 IH]; intros m; [done|]. cbn. intros [_ Hs]. by apply IH. Qed.

Lemma ids_app l1 l2 : ids (K := K) (V := V) (l1 ++ l2) = ids l1 ++ ids l2.
Proof. apply fmap_app. Qed.
Lemma inserted_after log k n op r m : (n, op, r) ∈ log -> inserts k op = true -> (forall i op r, (i, op, r) ∈ log -> removes k op = false) ->
  is_Some (after m log !! k).
Proof.
  intros (l1 & l2 & ->)%list_elem_of_split Hi Hr. unfold after. rewrite foldl_app. cbn. apply kept_after; [|by apply spec_inserts].
  intros i op' r' Hin. eapply Hr, elem_of_app. right. apply elem_of_cons. by right.
Qed.
Lemma get_after log k n r m : sequential m log -> (n, TGet k, r) ∈ log -> (forall i op r, (i, op, r) ∈ log -> removes k op = false) ->
  is_Some (m !! k) -> is_Some r.
Proof.
  intros Hs (l1 & l2 & ->)%list_elem_of_split Hr Hm. apply sequential_split in Hs as [-> _]. cbn. apply kept_after; [|done].
  intros i op' r' Hin. eapply Hr, elem_of_app. by left.
Qed.

(** A key was inserted, the insertion had returned, nobody removes the key, and then a
    lookup does not find it. *)
Definition loses_key (h1 h2 : list (TableEvent K V)) k n n' : bool :=
  forallb (fun e => match e with EvCall i op => if decide (i = n) then inserts k op else if decide (i = n') then gets k op else negb (removes k op) | _ => true end) (h1 ++ h2) &&
  existsb (fun e => match e with EvReturn i _ => bool_decide (i = n) | _ => false end) h1 &&
  existsb (fun e => match e with EvCall i _ => bool_decide (i = n') | _ => false end) h2 &&
  existsb (fun e => match e with EvReturn i None => bool_decide (i = n') | _ => false end) h2.

Lemma lost_not_linearizable h1 h2 k n n' log : loses_key h1 h2 k n n' = true -> ~ linearizes (h1 ++ h2) log.
Proof.
  unfold loses_key. rewrite !andb_true_iff. intros [[[Hall Hn] Hn'] Hnone] [Hseq Honce Hcalled Hret Hord]. rewrite forallb_forall in Hall.
  apply existsb_exists in Hn as ([|i r] & Hin & Hi); [done|]. apply bool_decide_eq_true in Hi as ->. apply list_elem_of_In in Hin.
  apply existsb_exists in Hn' as ([i op0|] & Hin' & Hi); [|done]. apply bool_decide_eq_true in Hi as ->. apply list_elem_of_In in Hin'.
  apply existsb_exists in Hnone as ([|i [?|]] & Hin2 & Hi); [done..|]. apply bool_decide_eq_true in Hi as ->. apply list_elem_of_In in Hin2.
  assert (Hops : forall i op r, (i, op, r) ∈ log -> if decide (i = n) then inserts k op = true else if decide (i = n') then gets k op = true else removes k op = false).
  { intros i op r' Hlog. apply Hcalled in Hlog. specialize (Hall _ (proj1 (list_elem_of_In _ _) Hlog)). cbn in Hall. repeat case_decide; try done. by apply negb_true_iff. }
  assert (Hkeep : forall i op r, (i, op, r) ∈ log -> removes k op = false).
  { intros i op r' Hlog. specialize (Hops _ _ _ Hlog). repeat case_decide; by destruct op. }
  destruct (Hret n' None) as [op' Hlog']; [apply elem_of_app; by right|].
  destruct (Hord n n') as (l1 & l2 & -> & Hl1 & Hl2); [exists h1, h2; eauto 6|apply in_ids; eauto|].
  rewrite ids_app in Honce. apply NoDup_app in Honce as (_ & Hapart & _). assert (Hne : n' <> n) by (intros ->; by apply (Hapart n)).
  apply elem_of_app in Hlog' as [Hlog'|Hlog']; [apply (Hapart n'); [apply in_ids; eauto|done]|].
  pose proof (Hops n' op' None) as Hg. rewrite decide_False, decide_True in Hg by done. destruct op' as [k'| | |]; try (by specialize (Hg (proj2 (elem_of_app _ _ _) (or_intror Hlog')))).
  specialize (Hg (proj2 (elem_of_app _ _ _) (or_intror Hlog'))). apply bool_decide_eq_true in Hg as ->.
  apply in_ids in Hl1 as (op & r' & Hl1). pose proof (Hops n op r' (proj2 (elem_of_app _ _ _) (or_introl Hl1))) as Hi. rewrite decide_True in Hi by done.
  assert (Hsome : is_Some (after ∅ l1 !! k)) by (eapply inserted_after; [done..|]; intros; eapply Hkeep; apply elem_of_app; by left).
  apply sequential_split in Hseq. apply (is_Some_None (A := V)). eapply (get_after l2); [done..| |exact Hsome]. intros; eapply Hkeep; apply elem_of_app; by right.
Qed.

(** An execution in two parts: does its history lose the key? *)
Definition lost_run (hash_of : K -> Z) bad (len : nat) acts1 acts2 k n n' : res bool :=
  '(s, h1) ← play_new hash_of bad len acts1; '(_, h2) ← play hash_of bad acts2 s []; Ok (loses_key h1 h2 k n n').
Lemma lost_run_exec hash_of bad len acts1 acts2 k n n' : lost_run hash_of bad len acts1 acts2 k n n' = Ok true ->
  exists s hist, texec hash_of bad s hist /\ forall log, ~ linearizes hist log.
Proof.
  unfold lost_run. destruct (play_new hash_of bad len acts1) as [[s h1]|] eqn:E1; [|done]. cbn [mbind res_bind].
  destruct (play hash_of bad acts2 s []) as [[s' h2]|] eqn:E2; [|done]. cbn [mbind res_bind]. intros [= Hl]. exists s', (h1 ++ h2). split.
  - apply play_new_exec in E1. apply play_hist in E2 as (h & Eh & Hg). cbn in Eh. subst h2. exact (play_exec _ _ _ _ _ _ _ E1 (Hg h1)).
  - intros log. by eapply lost_not_linearizable.
Qed.
End lost.

(** ** Who frees an array *)

Section freed.
Context {K V : Type} `{Countable K}.
Variable hash_of : K -> Z.
Implicit Types (s : RaceTable K V) (a n : nat).

Inductive later s : RaceTable K V -> Prop :=
| la_refl : later s s
| la_call s1 op : later s s1 -> later s (table_spawn s1 op)
| la_step s1 n weak s2 o : later s s1 -> table_step hash_of s1 n weak = Ok (s2, o) -> later s s2.

(** The arrays that the drop of the map frees: the current one and those after it. *)
Definition drop_arrays s : list nat := seq (rt_current s) (length (rt_arrays s) - rt_current s).

Lemma step_current s n weak : may (table_step hash_of s n weak) (fun o =>
  rt_current (fst o) = rt_current s /\ destroyed (fst o) = destroyed s \/
  (rt_current s < rt_current (fst o))%nat /\ destroyed (fst o) = destroyed s ++ [rt_current s]).
Proof.
  unfold table_step, step_bucket, at_hit, at_end, step_exchange, step_rehash, step_move, step_put, step_seal, step_swing. cbv zeta. branches; try done; try (by left).
  { left. by destruct (rehash_lock _). }
  right. cbn. repeat match goal with Hb : _ || _ = false |- _ => apply orb_false_iff in Hb as [_ Hb%negb_false_iff%bool_decide_eq_true]
    | Hb : bool_decide _ = false |- _ => apply bool_decide_eq_false in Hb end. split; [lia|congruence].
Qed.
Lemma skipped_stays s s' a : later s s' -> (a < rt_current s)%nat -> a ∉ destroyed s -> (a < rt_current s')%nat /\ a ∉ destroyed s'.
Proof.
  induction 1 as [|s1 op _ IH|s1 n weak s2 o _ IH Es]; intros Ha Hd; [done|by apply IH|]. destruct (IH Ha Hd) as [H1 H2].
  pose proof (step_current s1 n weak) as Hs. rewrite Es in Hs. destruct Hs as [[E1 E2]|[E1 E2]]; cbn in E1, E2; rewrite E2; [by rewrite E1|].
  split; [lia|]. intros [?| ->%list_elem_of_singleton]%elem_of_app; [done|lia].
Qed.
Lemma skipped_leaks s s' a : later s s' -> (a < rt_current s)%nat -> a ∉ destroyed s -> a ∉ destroyed s' ++ drop_arrays s'.
Proof. intros Hl Ha Hd. destruct (skipped_stays _ _ _ Hl Ha Hd). intros [?|?%elem_of_seq]%elem_of_app; [done|lia]. Qed.
End freed.

(** ** A shrink that loses an entry *)

Section shrink.
#[local] Notation acts := (list (TableAct (K := Z) (V := Z))).
Definition never (s : RaceTable Z Z) (n : nat) (weak : bool) : bool := false.
Definition steps (n count : nat) : acts := replicate count (Step n false).
Definition insert_key (k : Z) : TableOp Z Z := TInsertOrModify k k (fun _ _ => k).
Definition remove_key (k : Z) : TableOp Z Z := TRemoveIf k (fun _ _ => true).
(** The calls, each by a new thread that takes [count] steps at once. *)
Definition each (first count : nat) (ops : list (TableOp Z Z)) : acts :=
  concat (imap (fun i op => Call op :: steps (first + i) count) ops).
Definition keys (first count : nat) : list Z := Z.of_nat <$> seq first count.

(** Of 512 buckets 231 are taken; 78 threads have passed their check and are about to
    insert; 52 keys are removed.  One more thread finds that a tenth of the buckets are
    tombstones and less than a quarter holds entries, and makes an array of 256 buckets.
    The 78 insert.  The array of 256 takes the first 256 entries. *)
Definition crowd : acts :=
  each 0 7 (insert_key <$> keys 0 231) ++ each 231 3 (insert_key <$> (keys 0 52 ++ keys 231 26)) ++
  each 309 8 (remove_key <$> keys 0 52) ++ (Call (remove_key 500) :: steps 361 4) ++
  concat ((fun n => steps n 4) <$> seq 231 78) ++ steps 361 2600.
Definition then_get : acts := Call (TGet 256) :: steps 362 4.

Lemma crowd_loses : lost_run (fun k => k) never 512 crowd then_get 256 308 362 = Ok true.
Proof. vm_compute. reflexivity. Qed.

(** C39. A shrink can lose an entry.  [RehashOp::new] decides to halve an array of 512
    buckets by the counters alone, while 78 threads have passed the check and are about
    to insert.  The next array has no room for the last of the entries, and
    [insert_for_grow] gives up without a word: the insertion of a key returns, nobody
    removes the key, and a lookup made afterwards finds nothing.  The history is not
    linearizable. *)
Theorem shrink_loses : exists s hist, texec (fun k => k) never s hist /\ forall log, ~ linearizes hist log.
Proof. exact (lost_run_exec _ _ _ _ _ _ _ _ crowd_loses). Qed.

(** ** An array that nobody frees *)

(** Thread 2 has moved the two buckets to an array of four when thread 3 inserts there
    and stops short of [swing]; thread 2 now finds the four buckets too full as well,
    and moves on to eight. *)
Definition overtaking : acts :=
  each 0 7 [insert_key 0; insert_key 1] ++ (Call (insert_key 2) :: steps 2 11) ++ (Call (insert_key 3) :: steps 3 12) ++ steps 2 28 ++ steps 3 2.
#[local] Notation overtaken := (play_new (fun k => k) shrinks 2 overtaking).
Example overtaken_state : (r ← overtaken; Ok (tt_pc <$> rt_threads (fst r), rt_current (fst r), destroyed (fst r), sizes (fst r))) =
  Ok ([TableReturned None; TableReturned None; TableReturned None; TableReturned None], 2%nat, [0%nat], [2%nat; 4%nat; 8%nat]).
Proof. vm_compute. reflexivity. Qed.

Lemma overtaken_ok : exists s hist, overtaken = Ok (s, hist) /\ tt_pc <$> rt_threads s = replicate 4 (TableReturned None) /\
  rt_current s = 2%nat /\ destroyed s = [0%nat] /\ length (rt_arrays s) = 3%nat.
Proof.
  pose proof overtaken_state as Hs. destruct overtaken as [[s hist]|]; [|done]. exists s, hist. cbn [mbind res_bind fst] in Hs. injection Hs as Ht Hc Hd Hz.
  do 4 (split; [done|]). apply (f_equal length) in Hz. unfold sizes in Hz. by rewrite length_fmap in Hz.
Qed.
Lemma only_shrinking_loses_witness : exists s hist, texec (fun k => k) loses s hist /\ overtaken = Ok (s, hist).
Proof.
  destruct overtaken_ok as (s & hist & E & _). exists s, hist. refine (conj _ E). apply (only_shrinking_loses (fun k => k)).
  exact (play_new_exec (fun k => k) shrinks 2 overtaking s hist E).
Defined.

(** C40. An array can be left behind.  [swing] hands the array it replaces to the
    collector, and only that one: when a call has moved the buckets twice, it sets the
    current array from the first to the third, and the second is freed by nobody.  Here
    four insertions have returned, and whatever calls follow, one of the three arrays is
    not among those handed to the collector nor among those the drop of the map frees. *)
Theorem array_left_behind : exists (s : RaceTable Z Z) hist, texec (fun k => k) shrinks s hist /\ Forall (fun t => is_Some (returned (tt_pc t))) (rt_threads s) /\
  exists a, (a < length (rt_arrays s))%nat /\ forall s', later (fun k => k) s s' -> a ∉ destroyed s' ++ drop_arrays s'.
Proof.
  destruct overtaken_ok as (s & hist & E%play_new_exec & Ht & Hc & Hd & Hz). exists s, hist. split; [done|]. split.
  - assert (Hall : Forall (fun pc => is_Some (returned pc)) (tt_pc <$> rt_threads s)) by (rewrite Ht; repeat constructor; eauto).
    exact (proj1 (Forall_fmap _ _ _) Hall).
  - exists 1%nat. split; [lia|]. intros s' Hl. eapply skipped_leaks; [exact Hl|lia|]. rewrite Hd. by intros ?%list_elem_of_singleton.
Qed.
End shrink.
