(* ===== verification/TableRaceEnds.v ===== *)
(** The contract of the hash table under contention.  Besides the linearizations of
    [TableRaceLin]: while no other thread is moving buckets, a thread that keeps taking
    steps comes to the end of its call, over all rehashes and retries it may need. *)
From S2P Require Import Prelude Probing Bucket BucketTable TableRace TableRaceInv TableRaceSys TableRaceLin TableRaceShrink.

Section ends.
Context {K V : Type} `{Countable K}.
Variable hash_of : K -> Z.
Implicit Types (s : RaceTable K V) (t : TableThread K V) (op : TableOp K V) (m : gmap K V) (pc : TablePc K V) (ra : RaceArray) (a j n : nat).

(** ** Who holds a lock *)

Definition moves_at a pc : Prop := match pc with AtMove a' _ _ | AtPut a' _ _ _ | AtSeal a' _ _ _ => a' = a | _ => False end.
Definition lock_inv s : Prop :=
  forall a ra n, rt_arrays s !! a = Some ra -> rehash_lock ra = Some n -> exists t, rt_threads s !! n = Some t /\ moves_at a (tt_pc t).

Definition lock_step s n t (o : RaceTable K V * option (option V)) : Prop :=
  exists t', rt_threads (fst o) = <[n := t']> (rt_threads s) /\ forall a ra', rt_arrays (fst o) !! a = Some ra' ->
    rehash_lock ra' = None \/ (moves_at a (tt_pc t') /\ rehash_lock ra' = Some n) \/
    (exists ra, rt_arrays s !! a = Some ra /\ rehash_lock ra' = rehash_lock ra /\ (moves_at a (tt_pc t) -> moves_at a (tt_pc t'))).

Lemma lock_same s s1 n t t' e : rt_threads s1 = <[n := t']> (rt_threads s) -> rt_arrays s1 = rt_arrays s ->
  (forall a, moves_at a (tt_pc t) -> moves_at a (tt_pc t')) -> lock_step s n t (s1, e).
Proof. intros Et Ea Hm. exists t'. split; [done|]. cbn. rewrite Ea. intros a ra Ha. right. right. eauto. Qed.
Lemma lock_goto s s1 n t pc e : rt_threads s !! n = Some t -> rt_threads s1 = rt_threads s -> rt_arrays s1 = rt_arrays s ->
  (forall a, moves_at a (tt_pc t) -> moves_at a pc) -> lock_step s n t (goto s1 n pc, e).
Proof.
  intros Hn Et Ea Hm. eapply (lock_same _ _ _ _ (mkTableThread (tt_op t) (tt_current t) pc)); [|done..]. rewrite <- Et in Hn.
  rewrite (goto_eq _ _ _ _ Hn). cbn. by rewrite Et.
Qed.
Lemma lock_put s s1 n t a ra ra' pc e : rt_threads s !! n = Some t -> rt_threads s1 = rt_threads s -> rt_arrays s1 = rt_arrays s ->
  array_at s a = Ok ra -> (rehash_lock ra' = rehash_lock ra \/ rehash_lock ra' = None \/ rehash_lock ra' = Some n /\ moves_at a pc) ->
  (forall b, moves_at b (tt_pc t) -> moves_at b pc \/ b = a /\ rehash_lock ra' = None) -> lock_step s n t (goto (put_array s1 a ra') n pc, e).
Proof.
  intros Hn Et Ea Ha%array_at_some Hl Hm. exists (mkTableThread (tt_op t) (tt_current t) pc). rewrite <- Et in Hn.
  rewrite (goto_eq _ _ _ _ (Hn : rt_threads (put_array s1 a ra') !! n = Some t)). cbn. rewrite Et, Ea. split; [done|].
  intros b rb [(<- & <- & _)|[Hne Hb]]%list_lookup_insert_Some.
  - destruct (rehash_lock ra') as [n'|] eqn:E; [right|by left]. destruct Hl as [Hl|[?|[Hl Hmv]]]; [right|done|by left].
    exists ra. split; [done|]. split; [done|]. intros Hb. by destruct (Hm _ Hb) as [?|[_ ?]].
  - right. right. exists rb. split; [done|]. split; [done|]. intros Hb'. by destruct (Hm _ Hb') as [?|[-> _]].
Qed.

Lemma step_locks s n weak t : rt_threads s !! n = Some t -> may (table_step hash_of s n weak) (lock_step s n t).
Proof.
  intros Hn. unfold table_step. rewrite Hn. cbv zeta.
  destruct (tt_pc t) as [|a|a tbc|a i|a i seen nb|a d r|a r|a rop|a|a j st|a j st p|a j st p|a r|r] eqn:Epc;
    unfold step_bucket, at_hit, at_end, step_exchange, step_rehash, step_move, step_put, step_seal, step_swing; cbv zeta; branches;
    try done; try (by apply lock_goto; rewrite ?Epc).
  all: try (eapply lock_put; [done|done|done|done| |rewrite Epc]; cbn; solve [naive_solver]).
  all: try (eapply lock_same; [symmetry; apply list_insert_id; exact Hn|done|done]).
  - eapply (lock_same _ _ _ _ (mkTableThread (tt_op t) (rt_current s) (again (tt_op t) (rt_current s)))); [|done|by rewrite Epc]. cbn.
    rewrite (alter_thread _ _ _ _ Hn). erewrite alter_thread; [|apply list_lookup_insert_eq; by eapply lookup_lt_Some]. by rewrite list_insert_insert_eq.
  - match goal with Ha : array_at _ _ = Ok ?x |- _ => apply array_at_some in Ha; rename x into ra end.
    exists (mkTableThread (tt_op t) (tt_current t) (AtMove a 0 None)). split; [by rewrite (goto_eq _ _ _ t)|]. cbn. intros b rb Hb.
    apply lookup_app_Some in Hb as [[(<- & <- & _)|[Hne Hb]]%list_lookup_insert_Some|[_ Hb]].
    + right. by left.
    + right. right. exists rb. rewrite Epc. done.
    + apply list_lookup_singleton_Some in Hb as [_ <-]. by left.
  - eapply (lock_same _ _ _ _ (mkTableThread (tt_op t) (rt_current s) (tt_pc t))); [|done|done]. cbn. by rewrite (alter_thread _ _ _ _ Hn).
Qed.

Lemma exec_locks bad s hist : texec hash_of bad s hist -> lock_inv s.
Proof.
  induction 1 as [len s E|s hist op _ IH|s hist n weak s' o _ IH _ Es].
  - unfold new_table in E. destruct (with_length 0 len); [|done]. injection E as <-. intros [|i] ra n; cbn; [by intros [= <-]|done].
  - intros a ra n Ha Hk. destruct (IH a ra n Ha Hk) as (t & Ht & Hm). exists t. split; [|done]. cbn. by apply lookup_app_l_Some.
  - destruct (rt_threads s !! n) as [t|] eqn:Hn; [|unfold table_step in Es; rewrite Hn in Es; by injection Es as <- _].
    pose proof (step_locks s n weak t Hn) as Hs. rewrite Es in Hs. destruct Hs as (t' & Et & Hl). cbn in Et, Hl. intros a ra n' Ha Hk. rewrite Et.
    pose proof (lookup_lt_Some _ _ _ Hn) as Hlt. destruct (Hl a ra Ha) as [?|[[Hm Hk']|(ra0 & Ha0 & Hk0 & Hm)]].
    + congruence.
    + rewrite Hk in Hk'. injection Hk' as ->. exists t'. by rewrite list_lookup_insert_eq.
    + rewrite Hk in Hk0. destruct (IH a ra0 n' Ha0 (eq_sym Hk0)) as (t0 & Ht0 & Hm0). destruct (decide (n' = n)) as [->|Hne].
      * exists t'. rewrite list_lookup_insert_eq by done. split; [done|]. apply Hm. by rewrite Hn in Ht0; injection Ht0 as <-.
      * exists t0. by rewrite list_lookup_insert_ne.
Qed.

(** ** A thread that runs alone *)

Fixpoint alone (k : nat) s n : res (RaceTable K V) :=
  match k with O => Ok s | S k => '(s', _) ← table_step hash_of s n false; alone k s' n end.
(** It returns, or comes to a step that loses an entry. *)
Definition halts s n : Prop :=
  exists k s', alone k s n = Ok s' /\ ((exists t, rt_threads s' !! n = Some t /\ is_Some (returned (tt_pc t))) \/ loses s' n false = true).
Definition leads s n s' : Prop := exists k, alone k s n = Ok s'.

Lemma alone_app k1 : forall k2 s s' n, alone k1 s n = Ok s' -> alone (k1 + k2) s n = alone k2 s' n.
Proof.
  induction k1 as [|k1 IH]; intros k2 s s' n E; cbn in *; [by injection E as ->|]. destruct (table_step _ _ _ _) as [[s1 o]|]; [|done]. cbn in *. by apply IH.
Qed.
Lemma leads_refl s n : leads s n s.
Proof. by exists 0%nat. Qed.
Lemma leads_trans s1 s2 s3 n : leads s1 n s2 -> leads s2 n s3 -> leads s1 n s3.
Proof. intros [k1 E1] [k2 E2]. exists (k1 + k2)%nat. by rewrite (alone_app _ _ _ _ _ E1). Qed.
Lemma leads_step s n s' o : table_step hash_of s n false = Ok (s', o) -> leads s n s'.
Proof. intros E. exists 1%nat. cbn. by rewrite E. Qed.
Lemma halts_leads s s' n : leads s n s' -> halts s' n -> halts s n.
Proof. intros [k E] (k' & s1 & E1 & Hs1). exists (k + k')%nat, s1. by rewrite (alone_app _ _ _ _ _ E). Qed.

(** Thread [n] is at [pc] in its call [op]. *)
Definition at_pc s n op pc : Prop := exists cur, rt_threads s !! n = Some (mkTableThread op cur pc).

Record calm s n : Prop := {
  cm_inv : exists m L cs, rinv hash_of s m L cs;
  cm_locks : lock_inv s;
  cm_others : forall a ra n', rt_arrays s !! a = Some ra -> rehash_lock ra = Some n' -> n' = n
}.

Lemma calm_step s n op pc : calm s n -> at_pc s n op pc -> loses s n false = false ->
  exists s' o, table_step hash_of s n false = Ok (s', o) /\ calm s' n.
Proof.
  intros [(m & L & cs & I) Hl Ho] [cur Hn] Hno. destruct (step_ok hash_of _ _ _ _ _ _ I Hno) as ((s' & o) & Es & Hf). rewrite Hn in Hf.
  destruct Hf as (L' & cs' & I' & _). exists s', o. split; [done|]. pose proof (step_locks s n false _ Hn) as Hs. rewrite Es in Hs.
  destruct Hs as (t' & Et & Hs). cbn in Et, Hs. pose proof (lookup_lt_Some _ _ _ Hn) as Hlt.
  assert (Hothers : forall a ra n', rt_arrays s' !! a = Some ra -> rehash_lock ra = Some n' -> n' = n /\ moves_at a (tt_pc t')).
  { intros a ra n' Ha Hk. destruct (Hs a ra Ha) as [?|[[Hm Hk']|(ra0 & Ha0 & Hk0 & Hm)]]; [congruence|split; [congruence|done]|]. rewrite Hk in Hk0. symmetry in Hk0.
    pose proof (Ho _ _ _ Ha0 Hk0) as ->. split; [done|]. apply Hm. destruct (Hl _ _ _ Ha0 Hk0) as (t & Ht & Hmt). rewrite Hn in Ht. by injection Ht as <-. }
  split; [eauto| |].
  - intros a ra n' Ha Hk. destruct (Hothers _ _ _ Ha Hk) as [-> Hm]. exists t'. split; [|done]. by rewrite Et, list_lookup_insert_eq.
  - intros a ra n' Ha Hk. by apply (Hothers a ra).
Qed.

(** Nobody moves buckets. *)
Lemma calm_free s n op pc a ra : calm s n -> at_pc s n op pc -> moves pc = false -> rt_arrays s !! a = Some ra -> rehash_lock ra = None.
Proof.
  intros [_ Hl Ho] [cur Hn] Hm Ha. destruct (rehash_lock ra) as [n'|] eqn:Hk; [|done]. exfalso. pose proof (Ho _ _ _ Ha Hk) as ->.
  destruct (Hl _ _ _ Ha Hk) as (t & Ht & Hmt). rewrite Hn in Ht. injection Ht as <-. by destruct pc.
Qed.
(** The last array is the live one, with no sentinel in it. *)
Lemma calm_live s n op pc m L cs : calm s n -> at_pc s n op pc -> moves pc = false -> rinv hash_of s m L cs ->
  length (rt_arrays s) = S L /\ exists ra, rt_arrays s !! L = Some ra /\ live_ok hash_of (rt_heap s) (buckets_of ra) cs /\
    forall i p, buckets_of ra !! i = Some p -> p <> SENTINEL.
Proof.
  intros C Hpc Hm I. destruct (ri_live _ _ _ _ _ I) as (ra & Hra & Hlive & Hmig). unfold migration in Hmig.
  rewrite (calm_free _ _ _ _ _ _ C Hpc Hm Hra) in Hmig. destruct Hmig as [Hl Hns]. eauto.
Qed.

(** ** Moving the buckets *)

Definition tombs s : list Z := (fun ra => tombstone_count (ra_array ra)) <$> rt_arrays s.
Record stays s s' : Prop := {
  sy_heap : rt_heap s' = rt_heap s;
  sy_len : rt_len s' = rt_len s;
  sy_sizes : sizes s' = sizes s;
  sy_tombs : tombs s' = tombs s
}.
Lemma stays_refl s : stays s s.
Proof. done. Qed.
Lemma stays_trans s1 s2 s3 : stays s1 s2 -> stays s2 s3 -> stays s1 s3.
Proof. intros [? ? ? ?] [? ? ? ?]. split; congruence. Qed.

Lemma goto_at s s1 n op pc0 pc : at_pc s n op pc0 -> rt_threads s1 = rt_threads s -> at_pc (goto s1 n pc) n op pc.
Proof.
  intros [cur Hn] E. rewrite <- E in Hn. exists cur. rewrite (goto_eq _ _ _ _ Hn). cbn. apply list_lookup_insert_eq. by eapply lookup_lt_Some.
Qed.
Lemma tombs_put s a ra ra' : rt_arrays s !! a = Some ra -> tombstone_count (ra_array ra') = tombstone_count (ra_array ra) -> tombs (put_array s a ra') = tombs s.
Proof.
  intros Ha Hl. unfold tombs. cbn. apply list_eq. intros i. rewrite !list_lookup_fmap. destruct (decide (a = i)) as [<-|Hne].
  - rewrite list_lookup_insert_eq by (by eapply lookup_lt_Some). rewrite Ha. cbn. by rewrite Hl.
  - by rewrite list_lookup_insert_ne.
Qed.
Lemma stays_put s a ra ra' n pc : rt_arrays s !! a = Some ra -> length (buckets_of ra') = length (buckets_of ra) ->
  tombstone_count (ra_array ra') = tombstone_count (ra_array ra) -> stays s (goto (put_array s a ra') n pc).
Proof. intros Ha Hl Ht. split; [done|done|by apply (sizes_put s s a ra)|by apply (tombs_put s a ra)]. Qed.
Lemma grow_tombs (h : gmap positive (Bucket K V)) ba hash p : may (insert_for_grow h ba hash p) (fun r => tombstone_count (fst r) = tombstone_count ba).
Proof. unfold insert_for_grow. branches; try done. apply search_may; [|done..]. intros i q ob. branches; done. Qed.
Lemma size_at s a ra : rt_arrays s !! a = Some ra -> sizes s !! a = Some (length (buckets_of ra)).
Proof. intros Ha. unfold sizes. by rewrite list_lookup_fmap, Ha. Qed.
Lemma at_size s a N : sizes s !! a = Some N -> exists ra, rt_arrays s !! a = Some ra /\ length (buckets_of ra) = N.
Proof. unfold sizes. rewrite list_lookup_fmap. destruct (rt_arrays s !! a) as [ra|]; [|done]. cbn. intros [= <-]. eauto. Qed.

Lemma move_shape s n op a j st s' o : at_pc s n op (AtMove a j st) -> table_step hash_of s n false = Ok (s', o) ->
  stays s s' /\ exists ra, rt_arrays s !! a = Some ra /\
    match buckets_of ra !! j with
    | None => at_pc s' n op (again op (S a))
    | Some p => rt_arrays s' = rt_arrays s /\ (at_pc s' n op (AtMove a (S j) None) \/ at_pc s' n op (AtPut a j st p))
    end.
Proof.
  intros Hpc E. pose proof Hpc as [cur Hn]. unfold table_step in E. rewrite Hn in E. cbn [tt_pc tt_op] in E. unfold step_move in E.
  destruct (array_at s a) as [ra|] eqn:Ha; [|done]. apply array_at_some in Ha. cbn [mbind res_bind] in E. fold (buckets_of ra) in E.
  destruct (buckets_of ra !! j) as [p|] eqn:Hj; injection E as <- _.
  - split; [done|]. exists ra. split; [done|]. rewrite Hj. split; [done|]. destruct (is_sentinel p); [left|right]; by eapply goto_at.
  - split; [by apply (stays_put s a ra)|]. exists ra. split; [done|]. rewrite Hj. by eapply goto_at.
Qed.
Lemma put_shape s n op a j st p s' o : at_pc s n op (AtPut a j st p) -> table_step hash_of s n false = Ok (s', o) ->
  stays s s' /\ rt_arrays s' !! a = rt_arrays s !! a /\ exists st', at_pc s' n op (AtSeal a j st' p).
Proof.
  intros Hpc E. pose proof Hpc as [cur Hn]. unfold table_step in E. rewrite Hn in E. cbn [tt_pc tt_op] in E. unfold step_put in E.
  destruct (array_at s (S a)) as [nx|] eqn:Ha; [|done]. apply array_at_some in Ha. cbn [mbind res_bind] in E.
  assert (Hout : forall ba st', length (ba_buckets ba) = length (buckets_of nx) -> tombstone_count ba = tombstone_count (ra_array nx) ->
    s' = goto (put_array s (S a) (mkRaceArray ba (rehash_lock nx))) n (AtSeal a j st' p) ->
    stays s s' /\ rt_arrays s' !! a = rt_arrays s !! a /\ exists st', at_pc s' n op (AtSeal a j st' p)).
  { intros ba st' Hl Ht ->. split; [by apply (stays_put s (S a) nx)|]. split; [cbn; by rewrite list_lookup_insert_ne by lia|]. exists st'. by eapply goto_at. }
  assert (Hsame : forall st', s' = goto s n (AtSeal a j st' p) -> stays s s' /\ rt_arrays s' !! a = rt_arrays s !! a /\ exists st', at_pc s' n op (AtSeal a j st' p)).
  { intros st' ->. split; [done|]. split; [done|]. exists st'. by eapply goto_at. }
  destruct st as [x|].
  - destruct (assert_that _); [|done]. cbn in E. destruct (ba_buckets (ra_array nx) !! x); [|done]. cbn in E. injection E as <- _.
    destruct (is_borrowed _); [|by eapply Hsame]. eapply Hout; [..|reflexivity]; [apply length_insert|done].
  - destruct (sh_ptr p) as [addr|]; [|injection E as <- _; by eapply Hsame]. destruct (bref _ _) as [b|]; [|done]. cbn in E.
    destruct (insert_for_grow _ _ _ _) as [[ba st']|] eqn:Eg; [|done]. cbn in E. injection E as <- _.
    pose proof (grow_size (rt_heap s) (ra_array nx) (hash_of (bk_key b)) (with_tag p (Z.lor (sh_tag p) BORROWED_TAG))) as Hs. rewrite Eg in Hs.
    pose proof (grow_tombs (rt_heap s) (ra_array nx) (hash_of (bk_key b)) (with_tag p (Z.lor (sh_tag p) BORROWED_TAG))) as Ht. rewrite Eg in Ht. by eapply Hout.
Qed.
Lemma seal_shape s n op a j st p s' o : at_pc s n op (AtSeal a j st p) -> table_step hash_of s n false = Ok (s', o) ->
  stays s s' /\ exists ra, rt_arrays s !! a = Some ra /\ ((buckets_of ra !! j = Some p /\ at_pc s' n op (AtMove a (S j) None)) \/
    (buckets_of ra !! j <> Some p /\ at_pc s' n op (AtMove a j st))).
Proof.
  intros Hpc E. pose proof Hpc as [cur Hn]. unfold table_step in E. rewrite Hn in E. cbn [tt_pc tt_op] in E. unfold step_seal in E.
  destruct (array_at s a) as [ra|] eqn:Ha; [|done]. apply array_at_some in Ha. cbn [mbind res_bind orb] in E. fold (buckets_of ra) in E.
  destruct (buckets_of ra !! j) as [q|] eqn:Hj; [|done]. cbn [expect_some mbind res_bind] in E. case_bool_decide as Hq; cbn [negb] in E; injection E as <- _.
  - subst q. split; [apply (stays_put s a ra); [done|apply length_insert|done]|]. exists ra. split; [done|]. left. split; [done|]. by eapply goto_at.
  - split; [done|]. exists ra. split; [done|]. right. split; [congruence|]. by eapply goto_at.
Qed.

Lemma try_step s n op pc : calm s n -> at_pc s n op pc -> halts s n \/ exists s' o, table_step hash_of s n false = Ok (s', o) /\ calm s' n.
Proof.
  intros C Hpc. destruct (loses s n false) eqn:Hl; [left; exists 0%nat, s; by split; [|right]|right]. by eapply calm_step.
Qed.
(** The thread comes to the next array, and the lock is free. *)
Definition moved s n op a : Prop := halts s n \/ exists s', leads s n s' /\ calm s' n /\ stays s s' /\ at_pc s' n op (again op (S a)).
Lemma moved_step s s' o n op a : table_step hash_of s n false = Ok (s', o) -> stays s s' -> moved s' n op a -> moved s n op a.
Proof.
  intros E Hs [Hh|(s2 & Hl & C & Hs' & Hpc)]; [left; eapply halts_leads; [by eapply leads_step|done]|right]. exists s2.
  split; [eapply leads_trans; [by eapply leads_step|done]|]. split; [done|]. split; [by eapply stays_trans|done].
Qed.

Lemma move_ends k : forall s n op a j st N, calm s n -> at_pc s n op (AtMove a j st) -> sizes s !! a = Some N -> (N - j <= k)%nat -> moved s n op a.
Proof.
  induction k as [|k IH]; intros s n op a j st N C Hpc HN Hk; (destruct (try_step _ _ _ _ C Hpc) as [?|(s1 & o1 & E1 & C1)]; [by left|]);
    destruct (move_shape _ _ _ _ _ _ _ _ Hpc E1) as (St1 & ra & Hra & Hm); pose proof (size_at _ _ _ Hra) as HN'; rewrite HN in HN'; injection HN' as ->;
    (destruct (buckets_of ra !! j) as [p|] eqn:Hj; [apply lookup_lt_Some in Hj as Hlt|right; exists s1; split; [by eapply leads_step|done]]).
  { lia. }
  eapply moved_step; [exact E1|done|]. destruct Hm as [Ea1 [Hpc1|Hpc1]]; [eapply IH; [done..|by rewrite (sy_sizes _ _ St1)|lia]|].
  destruct (try_step _ _ _ _ C1 Hpc1) as [?|(s2 & o2 & E2 & C2)]; [by left|]. destruct (put_shape _ _ _ _ _ _ _ _ _ Hpc1 E2) as (St2 & Ea2 & st' & Hpc2).
  eapply moved_step; [exact E2|done|]. destruct (try_step _ _ _ _ C2 Hpc2) as [?|(s3 & o3 & E3 & C3)]; [by left|].
  destruct (seal_shape _ _ _ _ _ _ _ _ _ Hpc2 E3) as (St3 & ra' & Hra' & Hor). rewrite Ea2, Ea1, Hra in Hra'. injection Hra' as <-.
  eapply moved_step; [exact E3|done|]. destruct Hor as [[_ Hpc3]|[? _]]; [|done].
  eapply IH; [done..| |]; [by rewrite (sy_sizes _ _ St3), (sy_sizes _ _ St2), (sy_sizes _ _ St1)|lia].
Qed.
Lemma moving_ends s n op pc a : calm s n -> at_pc s n op pc -> moves_at a pc -> moved s n op a.
Proof.
  intros C Hpc Hm. assert (HAtMove : forall s j st, calm s n -> at_pc s n op (AtMove a j st) -> moved s n op a).
  { intros s0 j st C0 Hpc0. destruct (try_step _ _ _ _ C0 Hpc0) as [?|(s1 & o1 & E1 & _)]; [by left|]. destruct (move_shape _ _ _ _ _ _ _ _ Hpc0 E1) as (_ & ra & Hra & _).
    eapply move_ends; [done..|by apply size_at|reflexivity]. }
  assert (HAtSeal : forall s j st p, calm s n -> at_pc s n op (AtSeal a j st p) -> moved s n op a).
  { intros s0 j st p C0 Hpc0. destruct (try_step _ _ _ _ C0 Hpc0) as [?|(s1 & o1 & E1 & C1)]; [by left|].
    destruct (seal_shape _ _ _ _ _ _ _ _ _ Hpc0 E1) as (St1 & ra & _ & [[_ Hpc1]|[_ Hpc1]]); (eapply moved_step; [exact E1|done|]); by eapply HAtMove. }
  destruct pc; try done; cbn in Hm; subst; [by eapply HAtMove| |by eapply HAtSeal].
  destruct (try_step _ _ _ _ C Hpc) as [?|(s1 & o1 & E1 & C1)]; [by left|]. destruct (put_shape _ _ _ _ _ _ _ _ _ Hpc E1) as (St1 & _ & st' & Hpc1).
  eapply moved_step; [exact E1|done|]. by eapply HAtSeal.
Qed.

(** ** The end of a call *)

Lemma halts_returned s n op r : at_pc s n op (TableReturned r) -> halts s n.
Proof. intros [cur Hn]. exists 0%nat, s. split; [done|]. left. eexists. split; [done|]. eauto. Qed.
Lemma swing_ends s n op a r : at_pc s n op (AtSwing a r) -> halts s n.
Proof.
  intros Hpc. assert (Hone : forall s cur, rt_threads s !! n = Some (mkTableThread op cur (AtSwing a r)) -> (a <= cur)%nat -> halts s n).
  { intros s0 cur Hn Hle. eapply halts_leads; [eapply (leads_step _ _ (goto s0 n (TableReturned r)))|].
    - unfold table_step. rewrite Hn. cbn. unfold step_swing. by rewrite bool_decide_eq_true_2.
    - eapply halts_returned, goto_at; [by eexists|done]. }
  assert (Hsee : forall s cur, rt_threads s !! n = Some (mkTableThread op cur (AtSwing a r)) -> (a <= rt_current s)%nat -> halts s n).
  { intros s0 cur Hn Hle. destruct (decide (a <= cur)%nat); [by eapply Hone|]. eapply halts_leads; [eapply (leads_step _ _ (see_current s0 n (rt_current s0)))|].
    - unfold table_step. rewrite Hn. cbn. unfold step_swing. rewrite bool_decide_eq_false_2 by lia. cbn. by rewrite bool_decide_eq_false_2 by lia.
    - eapply Hone; [|exact Hle]. cbn. rewrite (alter_thread _ _ _ _ Hn). apply list_lookup_insert_eq. by eapply lookup_lt_Some. }
  assert (Hcas : forall s, rt_threads s !! n = Some (mkTableThread op (rt_current s) (AtSwing a r)) -> halts s n).
  { intros s0 Hn. destruct (decide (a <= rt_current s0)%nat); [by eapply Hone|]. eapply halts_leads; [eapply (leads_step _ _ (with_current s0 a (destroyed s0 ++ [rt_current s0])))|].
    - unfold table_step. rewrite Hn. cbn. unfold step_swing. rewrite bool_decide_eq_false_2 by lia. cbn. by rewrite bool_decide_eq_true_2.
    - by eapply Hsee. }
  destruct Hpc as [cur Hn]. destruct (decide (a <= cur)%nat); [by eapply Hone|]. destruct (decide (rt_current s = cur)) as [<-|Hne]; [by apply Hcas|].
  eapply halts_leads; [eapply (leads_step _ _ (see_current s n (rt_current s)))|].
  - unfold table_step. rewrite Hn. cbn. unfold step_swing. rewrite bool_decide_eq_false_2 by lia. cbn. by rewrite bool_decide_eq_false_2.
  - apply Hcas. cbn. rewrite (alter_thread _ _ _ _ Hn). apply list_lookup_insert_eq. by eapply lookup_lt_Some.
Qed.

Lemma result_ends s n op pc : calm s n -> at_pc s n op pc -> is_Some (result_of pc) -> halts s n.
Proof.
  intros C Hpc [r Hr]. assert (Htomb : forall s a, calm s n -> at_pc s n op (AtCountTombstone a r) -> halts s n).
  { intros s0 a C0 Hpc0. destruct (try_step _ _ _ _ C0 Hpc0) as [?|(s1 & o & E & _)]; [done|]. eapply halts_leads; [by eapply leads_step|].
    pose proof Hpc0 as [cur Hn]. unfold table_step in E. rewrite Hn in E. cbn in E. destruct (array_at s0 a); [|done]. injection E as <- _.
    by eapply swing_ends, goto_at. }
  destruct pc; try done; cbn in Hr; injection Hr as ->; [|by eapply Htomb|by eapply swing_ends|by eapply halts_returned].
  destruct (try_step _ _ _ _ C Hpc) as [?|(s1 & o & E & C1)]; [done|]. eapply halts_leads; [by eapply leads_step|].
  pose proof Hpc as [cur Hn]. unfold table_step in E. rewrite Hn in E. cbn in E. injection E as <- _.
  pose proof (goto_at s (with_len s (wrapping_add 64 (rt_len s) d)) n op _ (if d =? -1 then AtCountTombstone a r else AtSwing a r) Hpc eq_refl) as Hpc1.
  destruct (d =? -1); [by eapply Htomb|by eapply swing_ends].
Qed.

(** ** Looking for the key *)

(** An array without an empty bucket has no more buckets than there are on the heap. *)
Lemma full_heap (h : gmap positive (Bucket K V)) bs cs : live_ok hash_of h bs cs -> (forall i p, bs !! i = Some p -> p <> SENTINEL /\ is_Some (sh_ptr p)) ->
  (length bs <= size h)%nat.
Proof.
  intros Hlive Hall. set (addrs := (fun p => default 1%positive (sh_ptr p)) <$> bs).
  assert (Hat : forall i x, addrs !! i = Some x -> exists p k w, bs !! i = Some p /\ is_Some (h !! x) /\ cs !! i = Some (Some (k, w)) /\ (bk_key <$> h !! x) = Some k).
  { intros i x Hi. unfold addrs in Hi. rewrite list_lookup_fmap in Hi. destruct (bs !! i) as [p|] eqn:Hp; [|done]. cbn in Hi. injection Hi as <-.
    destruct (Hall _ _ Hp) as [Hs [x Hx]]. rewrite Hx. cbn. destruct (lv_bucket _ _ _ _ Hlive _ _ Hp Hs) as [G Hc]. destruct (gd_bucket _ _ G x Hx) as (k & v & Hb).
    rewrite (rcell_bucket _ _ _ _ _ Hx Hb) in Hc. exists p, k, (if is_tombstone p then None else Some v). rewrite Hb. eauto 6. }
  assert (Hnd : NoDup addrs).
  { apply NoDup_alt. intros i j x Hi Hj. destruct (Hat _ _ Hi) as (p & k & w & _ & _ & Hci & Hki), (Hat _ _ Hj) as (q & k' & w' & _ & _ & Hcj & Hkj).
    rewrite Hki in Hkj. injection Hkj as <-. eapply (table_apart hash_of); [apply Hlive|done..]. }
  assert (Hsub : (list_to_set addrs : gset positive) ⊆ dom h).
  { intros x Hx. apply elem_of_list_to_set, list_elem_of_lookup in Hx as [i Hi]. destruct (Hat _ _ Hi) as (_ & _ & _ & _ & Hh & _). by apply elem_of_dom. }
  apply subseteq_size in Hsub. rewrite size_list_to_set, size_dom in Hsub by done. unfold addrs in Hsub. by rewrite length_fmap in Hsub.
Qed.

Definition bucket_next s op a i ra (p : Shared) pc : Prop :=
  match pc with
  | AtSwing _ _ => True
  | AtExchange a' i' seen _ => a' = a /\ i' = i /\ seen = p
  | AtBucket a' i' => a' = a /\ i' = S i /\ (S i < length (buckets_of ra))%nat
  | AtRehash a' rop => a' = a /\ rop = Expand /\
      (is_sentinel p = true \/ exists addr b, sh_ptr p = Some addr /\ rt_heap s !! addr = Some b /\ bk_key b <> table_key op /\ (length (buckets_of ra) <= S i)%nat)
  | _ => False
  end.
Lemma bucket_shape s n op a i s' o : at_pc s n op (AtBucket a i) -> table_step hash_of s n false = Ok (s', o) ->
  exists ra p pc, rt_arrays s !! a = Some ra /\ buckets_of ra !! probe_index (length (buckets_of ra)) (hash_of (table_key op)) i = Some p /\ s' = goto s n pc /\
    bucket_next s op a i ra p pc.
Proof.
  intros [cur Hn] E. unfold table_step in E. rewrite Hn in E. cbn [tt_pc tt_op] in E. unfold step_bucket in E.
  destruct (array_at s a) as [ra|] eqn:Ha; [|done]. apply array_at_some in Ha. cbn [mbind res_bind] in E. cbv zeta in E. fold (buckets_of ra) in E.
  destruct (buckets_of ra !! _) as [p|] eqn:Hp; [|done]. cbn [expect_some mbind res_bind] in E.
  enough (Hout : exists pc, s' = goto s n pc /\ bucket_next s op a i ra p pc) by (destruct Hout as (pc & Es & Hm); by exists ra, p, pc). clear Ha Hp Hn.
  destruct (is_sentinel p) eqn:Hs; [injection E as <- _; eexists; split; [done|]; cbn; auto|]. destruct (sh_ptr p) as [addr|] eqn:Hptr.
  - unfold bref in E. destruct (rt_heap s !! addr) as [b|] eqn:Hb; [|done]. cbn [expect_some mbind res_bind] in E. case_bool_decide as Hk.
    + unfold at_hit, value_ref in E. destruct (is_tombstone p); [|destruct (maybe_value b) as [v|]; [|done]; cbn [expect_some mbind res_bind] in E];
        destruct op; try destruct (condition _ _); injection E as <- _; eexists; (split; [done|]; cbn; done).
    + case_bool_decide as Hi; [injection E as <- _; eexists; split; [done|]; cbn; done|]. unfold at_end in E. destruct op; injection E as <- _; (eexists; split; [done|]); cbn; try done;
        (split; [done|]; split; [done|]; right; exists addr, b; do 3 (split; [done|]); lia).
  - unfold at_hit in E. destruct op; injection E as <- _; eexists; (split; [done|]; cbn; done).
Qed.
Lemma exchange_shape s n op a i seen nb s' o : at_pc s n op (AtExchange a i seen nb) -> table_step hash_of s n false = Ok (s', o) ->
  (exists pc, is_Some (result_of pc) /\ at_pc s' n op pc) \/
  (exists ra, rt_arrays s !! a = Some ra /\ buckets_of ra !! probe_index (length (buckets_of ra)) (hash_of (table_key op)) i <> Some seen /\ s' = goto s n (AtBucket a i)).
Proof.
  intros Hpc E. pose proof Hpc as [cur Hn]. unfold table_step in E. rewrite Hn in E. cbn [tt_pc tt_op] in E. unfold step_exchange in E.
  destruct (array_at s a) as [ra|] eqn:Ha; [|done]. apply array_at_some in Ha. cbn [mbind res_bind orb] in E. cbv zeta in E. fold (buckets_of ra) in E.
  destruct (buckets_of ra !! _) as [p|] eqn:Hp; [|done]. cbn [expect_some mbind res_bind] in E. case_bool_decide as Hq; cbn [negb] in E.
  - left. destruct (old_value _ _) as [old|]; [|done]. cbn [mbind res_bind] in E. destruct nb as [b|].
    + destruct (balloc _ _) as [h addr]. injection E as <- _. eexists. split; [|by eapply goto_at]. destruct (bool_decide _); eauto.
    + injection E as <- _. eexists. split; [|by eapply goto_at]. eauto.
  - right. injection E as <- _. exists ra. split; [done|]. split; [congruence|done].
Qed.

(** The last array is full. *)
Definition full s a : Prop := S a = length (rt_arrays s) -> forall N, sizes s !! a = Some N -> (N <= size (rt_heap s))%nat.
Lemma bucket_full s n op a i ra p : calm s n -> at_pc s n op (AtBucket a i) -> rt_arrays s !! a = Some ra ->
  buckets_of ra !! probe_index (length (buckets_of ra)) (hash_of (table_key op)) i = Some p -> bucket_next s op a i ra p (AtRehash a Expand) -> full s a.
Proof.
  intros C Hpc Hra Hp (_ & _ & Hor) Hlast N HN. destruct (cm_inv _ _ C) as (m & L & cs & I). destruct (calm_live _ _ _ _ _ _ _ C Hpc eq_refl I) as (Hlen & ra' & Hra' & Hlive & Hns).
  assert (a = L) as -> by lia. rewrite Hra in Hra'. injection Hra' as <-. rewrite (size_at _ _ _ Hra) in HN. injection HN as <-.
  destruct Hpc as [cur Hn]. destruct (ri_threads _ _ _ _ _ I _ _ Hn) as [_ Hfine]. cbn in Hfine. destruct Hfine as (_ & _ & Hpass). specialize (Hpass eq_refl).
  destruct (lv_bucket _ _ _ _ Hlive _ _ Hp (Hns _ _ Hp)) as [G _]. rewrite (gd_sentinel _ _ G) in Hor. destruct Hor as [?|(addr & b & Hptr & _ & _ & Hi)]; [done|].
  eapply full_heap; [exact Hlive|]. intros x q Hx. split; [by eapply Hns|]. pose proof (ri_power _ _ _ _ _ I _ _ Hra) as Hpow.
  pose proof (probe_all (length (buckets_of ra)) (hash_of (table_key op)) x Hpow (lookup_lt_Some _ _ _ Hx)) as [y Hy]%list_elem_of_lookup.
  pose proof (lookup_lt_Some _ _ _ Hy) as Hly. rewrite probe_length in Hly. destruct (decide (y = i)) as [->|Hne].
  - destruct (probe_at _ (hash_of (table_key op)) i Hpow Hly) as [Hy' _]. rewrite Hy in Hy'. injection Hy' as ->. rewrite Hp in Hx. injection Hx as <-. eauto.
  - rewrite <- (lv_len _ _ _ _ Hlive) in Hy. destruct (Hpass y x ltac:(lia) Hy) as (k' & w & Hc & _).
    destruct (lv_bucket _ _ _ _ Hlive _ _ Hx (Hns _ _ Hx)) as [Gq Hcq]. rewrite Hc in Hcq. destruct (sh_ptr q) eqn:Eq; [eauto|]. by apply (gd_null _ _ Gq) in Eq as ->.
Qed.

Definition wants_room s n op a : Prop :=
  halts s n \/ exists s', leads s n s' /\ calm s' n /\ stays s s' /\ at_pc s' n op (AtRehash a Expand) /\ full s' a.
Lemma room_step s s' n op a : leads s n s' -> stays s s' -> wants_room s' n op a -> wants_room s n op a.
Proof.
  intros Hl Hs [Hh|(s2 & Hl' & C & Hs' & Hpc)]; [left; by eapply halts_leads|right]. exists s2.
  split; [by eapply leads_trans|]. split; [done|]. split; [by eapply stays_trans|done].
Qed.
Lemma scan_ends k : forall s n op a i N, calm s n -> at_pc s n op (AtBucket a i) -> sizes s !! a = Some N -> (N - i <= k)%nat -> wants_room s n op a.
Proof.
  induction k as [|k IH]; intros s n op a i N C Hpc HN Hk; (destruct (try_step _ _ _ _ C Hpc) as [?|(s1 & o1 & E1 & C1)]; [by left|]);
    destruct (bucket_shape _ _ _ _ _ _ _ Hpc E1) as (ra & p & pc & Hra & Hp & -> & Hnext); pose proof (size_at _ _ _ Hra) as HN'; rewrite HN in HN'; injection HN' as ->;
    pose proof (goto_at s s n op _ pc Hpc eq_refl) as Hpc1; pose proof (leads_step _ _ _ _ E1) as Hl1.
  all: destruct pc as [| | |a' i'|a' i' seen nb| | |a' rop| | | | |a' r| ]; try done.
  all: try (left; eapply halts_leads; [exact Hl1|by eapply swing_ends]).
  all: try (destruct Hnext as (-> & -> & Hor); right; exists (goto s n (AtRehash a Expand)); do 4 (split; [done|]); exact (bucket_full s n op a i ra p C Hpc Hra Hp (conj eq_refl (conj eq_refl Hor)))).
  all: try (destruct Hnext as (-> & -> & Hlt)).
  all: try lia.
  all: try (eapply room_step; [exact Hl1|done|]; eapply IH; [done|done|exact HN|lia]).
  all: left; eapply halts_leads; [exact Hl1|]; destruct (try_step _ _ _ _ C1 Hpc1) as [?|(s2 & o2 & E2 & C2)]; [done|];
    (eapply halts_leads; [by eapply leads_step|]); destruct (exchange_shape _ _ _ _ _ _ _ _ _ Hpc1 E2) as [(pc & Hr & Hpc2)|(ra' & Hra' & Hne & _)];
    [by eapply result_ends|]; cbn in Hra'; rewrite Hra in Hra'; injection Hra' as <-; subst seen; done.
Qed.
Lemma bucket_ends s n op a i : calm s n -> at_pc s n op (AtBucket a i) -> wants_room s n op a.
Proof.
  intros C Hpc. destruct (try_step _ _ _ _ C Hpc) as [?|(s1 & o1 & E1 & _)]; [by left|]. destruct (bucket_shape _ _ _ _ _ _ _ Hpc E1) as (ra & _ & _ & Hra & _).
  eapply scan_ends; [done..|by apply size_at|reflexivity].
Qed.
Lemma exchange_ends s n op a i seen nb : calm s n -> at_pc s n op (AtExchange a i seen nb) -> wants_room s n op a.
Proof.
  intros C Hpc. destruct (try_step _ _ _ _ C Hpc) as [?|(s1 & o1 & E1 & C1)]; [by left|]. pose proof (leads_step _ _ _ _ E1) as Hl1.
  destruct (exchange_shape _ _ _ _ _ _ _ _ _ Hpc E1) as [(pc & Hr & Hpc1)|(ra & _ & _ & ->)].
  - left. eapply halts_leads; [exact Hl1|]. by eapply result_ends.
  - eapply room_step; [exact Hl1|done|]. eapply bucket_ends; [done|]. by eapply goto_at.
Qed.

(** ** From one array to the next *)

(** The thread has returned, or it is at the head of its loop at the next array, which
    was there or which it has made; [Q] is the reason why it made one. *)
Definition round s n op a (Q : RehashOp -> Prop) : Prop :=
  halts s n \/ exists s', leads s n s' /\ calm s' n /\ rt_heap s' = rt_heap s /\ rt_len s' = rt_len s /\ at_pc s' n op (again op (S a)) /\
    ((S a < length (rt_arrays s))%nat /\ sizes s' = sizes s /\ tombs s' = tombs s \/
     S a = length (rt_arrays s) /\ exists rop N len, Q rop /\ sizes s !! a = Some N /\ new_len rop N = Ok len /\ sizes s' = sizes s ++ [len] /\ tombs s' = tombs s ++ [0]).

Lemma sizes_length s : length (sizes s) = length (rt_arrays s).
Proof. apply length_fmap. Qed.
Lemma round_mono s n op a (Q Q' : RehashOp -> Prop) : (forall rop, Q rop -> Q' rop) -> round s n op a Q -> round s n op a Q'.
Proof. intros HQ [?|(s' & H1 & H2 & H3 & H4 & H5 & Hor)]; [by left|right]. exists s'. do 5 (split; [done|]). destruct Hor as [?|(Hl & rop & N & len & Hr & Hrest)]; [by left|right]. eauto 8. Qed.
Lemma round_step s s' n op a Q : leads s n s' -> stays s s' -> round s' n op a Q -> round s n op a Q.
Proof.
  intros Hl [E1 E2 E3 E4] [Hh|(s2 & H1 & H2 & H3 & H4 & H5 & Hor)]; [left; by eapply halts_leads|right]. exists s2. split; [by eapply leads_trans|]. split; [done|].
  split; [congruence|]. split; [congruence|]. split; [done|]. rewrite <- (sizes_length s), <- E3, (sizes_length s'), <- E4. done.
Qed.
Lemma full_stays s s' a : stays s s' -> full s' a -> full s a.
Proof. intros [E1 E2 E3 E4] Hf Hl N HN. rewrite <- E1. apply Hf; [by rewrite <- sizes_length, E3, sizes_length|by rewrite E3]. Qed.

Lemma rehash_round s n op a rop : calm s n -> at_pc s n op (AtRehash a rop) -> round s n op a (eq rop).
Proof.
  intros C Hpc. destruct (try_step _ _ _ _ C Hpc) as [?|(s1 & o1 & E1 & C1)]; [by left|]. pose proof (leads_step _ _ _ _ E1) as Hl1.
  pose proof Hpc as [cur Hn]. unfold table_step in E1. rewrite Hn in E1. cbn [tt_pc tt_op] in E1. unfold step_rehash in E1.
  destruct (array_at s a) as [ra|] eqn:Ha; [|done]. apply array_at_some in Ha. cbn [mbind res_bind] in E1.
  rewrite (calm_free _ _ _ _ _ _ C Hpc eq_refl Ha) in E1. cbv zeta in E1. cbn [rt_arrays put_array with_arrays] in E1. rewrite length_insert in E1.
  pose proof (lookup_lt_Some _ _ _ Ha) as Hlt. case_bool_decide as Hnext.
  - injection E1 as <- _. destruct (moving_ends _ n op (AtMove a 0 None) a C1) as [?|(s2 & Hl2 & C2 & St2 & Hpc2)]; [by eapply goto_at|done|left; by eapply halts_leads|].
    right. exists s2. split; [by eapply leads_trans|]. split; [done|]. assert (St1 : stays s s2) by (eapply stays_trans; [|exact St2]; by apply (stays_put s a ra)).
    do 2 (split; [apply St1|]). split; [done|]. left. split; [done|]. split; apply St1.
  - destruct (new_len rop (array_len (ra_array ra))) as [len|] eqn:Hlen; [|done]. cbn [mbind res_bind] in E1.
    destruct (with_length _ len) as [next|] eqn:Hw; [|done]. cbn [mbind res_bind] in E1. injection E1 as <- _. set (s1 := goto _ _ _) in *.
    assert (Hs1 : sizes s1 = sizes s ++ [len]) by (by eapply sizes_new). assert (Ht1 : tombs s1 = tombs s ++ [0]).
    { unfold with_length in Hw. destruct (is_power_of_two _); [|done]. injection Hw as <-. rewrite <- (tombs_put s a ra (set_lock ra (Some n))) by done. unfold tombs. cbn. by rewrite fmap_app. }
    destruct (moving_ends s1 n op (AtMove a 0 None) a C1) as [?|(s2 & Hl2 & C2 & St2 & Hpc2)]; [by eapply goto_at|done|left; by eapply halts_leads|].
    right. exists s2. split; [by eapply leads_trans|]. split; [done|]. do 2 (split; [apply St2|]). split; [done|]. right. split; [lia|].
    exists rop, (length (buckets_of ra)), len. split; [done|]. split; [by apply size_at|]. split; [done|]. rewrite (sy_sizes _ _ St2), (sy_tombs _ _ St2). done.
Qed.
Lemma room_round s n op a : wants_room s n op a -> round s n op a (fun rop => rop = Expand /\ full s a).
Proof.
  intros [?|(s' & Hl & C & St & Hpc & Hf)]; [by left|]. eapply round_step; [done..|]. eapply round_mono; [|by eapply rehash_round].
  intros rop <-. split; [done|]. by eapply full_stays.
Qed.

(** Why a call makes a new array, having seen [tbc] tombstones. *)
Definition reason s a (tbc : Z) (rop : RehashOp) : Prop :=
  (rop = Expand /\ full s a) \/ exists N, sizes s !! a = Some N /\ rop = rehash_op (Z.of_nat N / 2) tbc (rt_len s).
Lemma check_len_round s n op a tbc : calm s n -> at_pc s n op (AtCheckLen a tbc) -> round s n op a (reason s a tbc).
Proof.
  intros C Hpc. destruct (try_step _ _ _ _ C Hpc) as [?|(s1 & o1 & E1 & C1)]; [by left|]. pose proof (leads_step _ _ _ _ E1) as Hl1.
  pose proof Hpc as [cur Hn]. unfold table_step in E1. rewrite Hn in E1. cbn [tt_pc tt_op] in E1. destruct (array_at s a) as [ra|] eqn:Ha; [|done]. apply array_at_some in Ha.
  cbn [mbind res_bind] in E1. unfold array_capacity in E1. destruct (is_power_of_two _); [|done]. cbn [assert_that mbind res_bind] in E1. cbv zeta in E1. injection E1 as <- _.
  eapply round_step; [exact Hl1|done|]. unfold array_len in *. fold (buckets_of ra) in *. set (rop := rehash_op _ _ _) in *. destruct (is_skip rop).
  - eapply round_mono; [|eapply room_round, bucket_ends; [done|by eapply goto_at]]. intros rop' [-> Hf]. left. by split; [|eapply full_stays].
  - eapply round_mono; [|eapply rehash_round; [done|by eapply goto_at]]. intros rop' <-. right. exists (length (buckets_of ra)). split; [by apply size_at|done].
Qed.
Lemma check_round s n op a : calm s n -> at_pc s n op (AtCheck a) -> round s n op a (fun rop => exists tbc, tombs s !! a = Some tbc /\ reason s a tbc rop).
Proof.
  intros C Hpc. destruct (try_step _ _ _ _ C Hpc) as [?|(s1 & o1 & E1 & C1)]; [by left|]. pose proof (leads_step _ _ _ _ E1) as Hl1.
  pose proof Hpc as [cur Hn]. unfold table_step in E1. rewrite Hn in E1. cbn [tt_pc tt_op] in E1. destruct (array_at s a) as [ra|] eqn:Ha; [|done]. apply array_at_some in Ha.
  cbn [mbind res_bind] in E1. injection E1 as <- _. eapply round_step; [exact Hl1|done|]. eapply round_mono; [|eapply check_len_round; [done|by eapply goto_at]].
  intros rop Hr. exists (tombstone_count (ra_array ra)). split; [|exact Hr]. unfold tombs. by rewrite list_lookup_fmap, Ha.
Qed.
Lemma again_round s n op a : calm s n -> at_pc s n op (again op a) -> round s n op a (fun rop => (rop = Expand /\ full s a) \/ exists tbc, tombs s !! a = Some tbc /\ reason s a tbc rop).
Proof.
  intros C Hpc. destruct op; cbn [again] in Hpc; try (eapply round_mono; [|by eapply check_round]; intros rop Hr; by right).
  eapply round_mono; [|eapply room_round; by eapply bucket_ends]. intros rop Hr. by left.
Qed.

(** ** The loop ends *)

(** No array that is made for want of room, or because the counter of entries is high,
    comes from one with more buckets. *)
Definition bound s : nat := size (rt_heap s) + Z.to_nat (2 * rt_len s) + 2.

Lemma zero_reason s a N rop len : reason s a 0 rop -> S a = length (rt_arrays s) -> sizes s !! a = Some N -> new_len rop N = Ok len ->
  rop = Expand /\ (N <= bound s)%nat.
Proof.
  unfold bound. intros [[-> Hf]|(N' & HN' & ->)] Hlast HN Hlen; [split; [done|]; specialize (Hf Hlast N HN); lia|]. rewrite HN in HN'. injection HN' as <-.
  unfold rehash_op in *. cbn [Z.leb Z.ltb orb andb Z.compare] in *. destruct (_ <? _) eqn:E in Hlen |- *; [|done]. split; [done|]. apply Z.ltb_lt in E.
  Z.to_euclidean_division_equations. lia.
Qed.

Lemma again_array s n op a : calm s n -> at_pc s n op (again op a) -> (a < length (rt_arrays s))%nat /\ exists N, sizes s !! a = Some N /\ (0 < N)%nat.
Proof.
  intros C [cur Hn]. destruct (cm_inv _ _ C) as (m & L & cs & I). destruct (ri_threads _ _ _ _ _ I _ _ Hn) as [_ Hf].
  assert (Ha : (a <= L)%nat) by (destruct op; cbn in Hf; lia). destruct (array_there _ _ _ _ _ _ I Ha) as (ra & Hra & Hpow). split; [by eapply lookup_lt_Some|].
  exists (length (buckets_of ra)). split; [by apply size_at|]. by apply power_pos.
Qed.
Lemma snoc_last {A} (l : list A) x : (l ++ [x]) !! length l = Some x.
Proof. rewrite lookup_app_r by done. by rewrite Nat.sub_diag. Qed.

(** The last array, without tombstones. *)
Lemma zero_ends u : forall s n op a N, calm s n -> at_pc s n op (again op a) -> S a = length (rt_arrays s) -> sizes s !! a = Some N -> tombs s !! a = Some 0 ->
  (S (bound s) - N <= u)%nat -> halts s n.
Proof.
  induction u as [|u IH]; intros s n op a N C Hpc Hlast HN HT Hu;
    (destruct (again_round _ _ _ _ C Hpc) as [?|(s' & Hl & C' & Eh & El & Hpc' & [[? _]|(_ & rop & N' & len & Hr & HN' & Hlen & Es & Et)])]; [done|lia|]);
    rewrite HN in HN'; injection HN' as <-; (assert (Hx : rop = Expand /\ (N <= bound s)%nat)
      by (eapply zero_reason; [|done..]; destruct Hr as [Hr|(tbc & Ht & Hr)]; [by left|rewrite HT in Ht; by injection Ht as <-]));
    destruct Hx as [-> Hb]; [lia|].
  eapply halts_leads; [exact Hl|]. cbn in Hlen. injection Hlen as <-. assert (Hlen' : length (sizes s) = S a) by (by rewrite sizes_length).
  assert (Hlt : length (tombs s) = S a) by (unfold tombs; by rewrite length_fmap). destruct (again_array _ _ _ _ C Hpc) as [_ (N0 & HN0 & Hpos)].
  rewrite HN in HN0. injection HN0 as <-. eapply (IH s' n op (S a) (N * 2)%nat); [done..| | | |].
  - by rewrite <- sizes_length, Es, length_app, Hlen', Nat.add_1_r.
  - rewrite Es, <- Hlen'. apply snoc_last.
  - rewrite Et, <- Hlt. apply snoc_last.
  - unfold bound in *. rewrite Eh, El. lia.
Qed.
Lemma last_ends s n op a : calm s n -> at_pc s n op (again op a) -> S a = length (rt_arrays s) -> halts s n.
Proof.
  intros C Hpc Hlast. destruct (again_round _ _ _ _ C Hpc) as [?|(s' & Hl & C' & _ & _ & Hpc' & [[? _]|(_ & rop & N' & len & _ & _ & _ & Es & Et)])]; [done|lia|].
  eapply halts_leads; [exact Hl|]. assert (Hlen' : length (sizes s) = S a) by (by rewrite sizes_length).
  assert (Hlt : length (tombs s) = S a) by (unfold tombs; by rewrite length_fmap). eapply (zero_ends _ s' n op (S a) len); [done..| | | |reflexivity].
  - by rewrite <- sizes_length, Es, length_app, Hlen', Nat.add_1_r.
  - rewrite Es, <- Hlen'. apply snoc_last.
  - rewrite Et, <- Hlt. apply snoc_last.
Qed.
Lemma again_ends d : forall s n op a, calm s n -> at_pc s n op (again op a) -> (length (rt_arrays s) - a <= d)%nat -> halts s n.
Proof.
  induction d as [|d IH]; intros s n op a C Hpc Hd; destruct (again_array _ _ _ _ C Hpc) as [Ha _]; [lia|].
  destruct (decide (S a = length (rt_arrays s))) as [|Hne]; [by eapply last_ends|].
  destruct (again_round _ _ _ _ C Hpc) as [?|(s' & Hl & C' & _ & _ & Hpc' & [(_ & Es & _)|[? _]])]; [done| |lia].
  eapply halts_leads; [exact Hl|]. eapply IH; [done..|]. rewrite <- sizes_length, Es, sizes_length. lia.
Qed.
Lemma round_halts s n op a Q : round s n op a Q -> halts s n.
Proof. intros [?|(s' & Hl & C' & _ & _ & Hpc' & _)]; [done|]. eapply halts_leads; [exact Hl|]. by eapply again_ends. Qed.

Lemma alone_ends s n op pc : calm s n -> at_pc s n op pc -> halts s n.
Proof.
  intros C Hpc. assert (Hmoved : forall a, moves_at a pc -> halts s n).
  { intros a Hm. destruct (moving_ends _ _ _ _ _ C Hpc Hm) as [?|(s' & Hl & C' & _ & Hpc')]; [done|]. eapply halts_leads; [exact Hl|]. by eapply again_ends. }
  destruct pc as [|a|a tbc|a i|a i seen nb|a d r|a r|a rop|a|a j st|a j st p|a j st p|a r|r];
    try (by eapply Hmoved); try (by eapply result_ends; [..|eauto]).
  - destruct (try_step _ _ _ _ C Hpc) as [?|(s1 & o1 & E1 & C1)]; [done|]. eapply halts_leads; [by eapply leads_step|].
    eapply (again_ends _ _ _ op (rt_current s)); [done| |reflexivity]. destruct Hpc as [cur Hn]. unfold table_step in E1. rewrite Hn in E1. cbn in E1. injection E1 as <- _.
    eapply (goto_at (see_current s n (rt_current s))); [|done]. eexists. cbn. rewrite (alter_thread _ _ _ _ Hn). apply list_lookup_insert_eq. by eapply lookup_lt_Some.
  - eapply round_halts. by eapply check_round.
  - eapply round_halts. by eapply check_len_round.
  - eapply round_halts, room_round. by eapply bucket_ends.
  - eapply round_halts, room_round. by eapply exchange_ends.
  - eapply round_halts. by eapply rehash_round.
  - destruct (try_step _ _ _ _ C Hpc) as [?|(s1 & o1 & E1 & C1)]; [done|]. eapply halts_leads; [by eapply leads_step|].
    eapply (again_ends _ _ _ op a); [done| |reflexivity]. pose proof Hpc as [cur Hn]. unfold table_step in E1. rewrite Hn in E1. cbn in E1.
    destruct (array_at s a) as [ra|] eqn:Ha; [|done]. apply array_at_some in Ha. cbn in E1. rewrite (calm_free _ _ _ _ _ _ C Hpc eq_refl Ha) in E1. injection E1 as <- _. by eapply goto_at.
Qed.

(** C7. The hash table is linearizable.  Take any calls of [get], [remove_if],
    [insert_if_not_present] and [insert_or_modify], made by any number of threads at any
    time, their steps interleaved in any way, weak exchanges failing at will, buckets
    moved to other arrays meanwhile, as long as no step seals a bucket that the next
    array has no room for.  Then there is an order of the calls that took effect, which
    has every call that returned, with the result it returned; on a map, the calls in
    this order give these results; a call that had returned before another was made
    comes before it.  No thread is ever stuck: none follows a dangling pointer, fails an
    assertion or goes out of bounds.  And while no other thread is moving buckets, a
    thread that keeps taking steps (its exchanges not failing for no reason) returns,
    unless it comes to such a bucket itself. *)
Theorem table_linearizable s hist : texec hash_of loses s hist ->
  (exists log, linearizes hist log) /\
  (forall n weak, loses s n weak = false -> returns (table_step hash_of s n weak) (fun _ => True)) /\
  (forall n t, rt_threads s !! n = Some t -> (forall n' t', n' <> n -> rt_threads s !! n' = Some t' -> moves (tt_pc t') = false) -> halts s n).
Proof.
  intros Hx. destruct (exec_lin hash_of _ _ Hx) as [log Hlin]. destruct (li_inv _ _ _ _ Hlin) as (L & cs & I). split; [exists log; by eapply lin_linearizes|]. split.
  - intros n weak Hno. destruct (step_ok hash_of _ _ _ _ _ _ I Hno) as (o & Eo & _). by exists o.
  - intros n [op cur pc] Hn Hothers. eapply (alone_ends s n op pc); [|by exists cur]. pose proof (exec_locks _ _ _ Hx) as Hl. split; [eauto|done|].
    intros a ra n' Ha Hk. destruct (decide (n' = n)) as [|Hne]; [done|]. destruct (Hl _ _ _ Ha Hk) as (t' & Ht' & Hm). specialize (Hothers _ _ Hne Ht'). by destruct (tt_pc t').
Qed.
End ends.

(** Two threads that insert the same key meet at its bucket: the second finds the
    exchange refused, and returns the value of the first. *)
Definition meeting : list (TableAct (K := Z) (V := Z)) :=
  [Call (TInsertIfNotPresent 7 70); Call (TInsertOrModify 7 71 (fun _ v => v + 1)); Call (TGet 7)] ++
  Step 0 false :: Step 1 false :: Step 0 false :: Step 1 false :: Step 0 false :: Step 1 false :: Step 0 false :: Step 1 false :: Step 0 true :: Step 1 false ::
  Step 0 false :: Step 2 false :: Step 2 false :: Step 2 false :: Step 1 false :: Step 1 false :: Step 0 false :: Step 0 false :: [].
#[local] Notation met := (play_new (fun k => k) loses 2 meeting).
(** What the three calls return. *)
Example met_results : (r ← met; Ok (snd r)) = Ok [
  EvCall 0 (TInsertIfNotPresent 7 70); EvCall 1 (TInsertOrModify 7 71 (fun _ v => v + 1)); EvCall 2 (TGet 7);
  EvReturn 2 (Some 71); EvReturn 1 None; EvReturn 0 (Some 71)].
Proof. vm_compute. reflexivity. Qed.
Lemma met_ok : exists s hist, met = Ok (s, hist).
Proof. pose proof met_results as Hr. destruct met as [[s hist]|]; [eauto|done]. Qed.
Lemma table_linearizable_witness : exists s hist, met = Ok (s, hist) /\
  (exists log, linearizes hist log) /\
  (forall n weak, loses s n weak = false -> returns (table_step (fun k => k) s n weak) (fun _ => True)) /\
  (forall n t, rt_threads s !! n = Some t -> (forall n' t', n' <> n -> rt_threads s !! n' = Some t' -> moves (tt_pc t') = false) -> halts (fun k => k) s n).
Proof.
  destruct met_ok as (s & hist & E). exists s, hist. split; [exact E|]. apply (table_linearizable (fun k => k)). by eapply play_new_exec.
Defined.
