(* ===== verification/CacheIter.v ===== *)
(** The iterator over the caches of a segmented cache, or over a single one
    (src/common/iter.rs), written against the [ScanningGet] interface that the
    caches implement.  The
    caches may change between two calls of [next]; each call takes them as they
    are at that time. *)
From S2P Require Import Prelude Probing HashTableRefines Common Time Concurrent EntryInfo Policy Housekeeper Inner BaseCache InnerInv Maintenance Operations System Guarantees.

(** [trait ScanningGet] *)
Class ScanningGet (C K V : Type) := {
  num_cht_segments : C -> nat;
  sg_scanning_get : C -> K -> res (option V);
  sg_keys : C -> nat -> option (list K)
}.

Section iter.
Context {C K V : Type} `{ScanningGet C K V}.

(** [cache_segments] is an argument of the methods. *)
Record Iter := mkIter {
  it_keys : option (list K);
  it_num_cht_segments : nat;
  cache_seg_index : nat;
  cht_seg_index : nat;
  it_is_done : bool
}.
Implicit Types (it : Iter) (caches : list C).

Definition with_cache_segments (num : nat) : Iter := mkIter None num 0 0 false.
Definition no_keys it : bool := match it_keys it with Some (_ :: _) => false | _ => true end.

(** [Vec::pop] *)
Definition pop {A} (l : list A) : option (A * list A) := match rev l with x :: l' => Some (x, rev l') | [] => None end.

(** Whether there are keys left. *)
Fixpoint current_keys (fuel : nat) caches it : res (Iter * bool) :=
  match fuel with
  | O => Fail Diverged
  | S fuel' =>
      if no_keys it then
        let '(ci, hi) := if bool_decide (it_num_cht_segments it <= cht_seg_index it)%nat
                         then (S (cache_seg_index it), O) else (cache_seg_index it, cht_seg_index it) in
        if bool_decide (it_num_cht_segments it <= cht_seg_index it /\ length caches <= ci)%nat
        then Ok (mkIter (it_keys it) (it_num_cht_segments it) ci hi (it_is_done it), false)
        else
          cache_segment ← expect_some OutOfBounds (caches !! ci);
          current_keys fuel' caches (mkIter (sg_keys cache_segment hi) (num_cht_segments cache_segment) ci (S hi) (it_is_done it))
      else Ok (it, true)
  end.

Fixpoint next_key (fuel : nat) caches it : res (Iter * option K) :=
  match fuel with
  | O => Fail Diverged
  | S fuel' =>
      '(it, more) ← current_keys fuel caches it;
      if (more : bool) then
        keys ← expect_some UnwrapNone (it_keys it);
        match pop keys with
        | Some (key, keys) =>
            Ok (mkIter (Some keys) (it_num_cht_segments it) (cache_seg_index it) (cht_seg_index it) (it_is_done it), Some key)
        | None => next_key fuel' caches it
        end
      else Ok (it, None)
  end.

Fixpoint next_loop (fuel : nat) caches it : res (Iter * option (K * V)) :=
  match fuel with
  | O => Fail Diverged
  | S fuel' =>
      '(it, o) ← next_key fuel caches it;
      match o with
      | Some key =>
          c ← expect_some OutOfBounds (caches !! cache_seg_index it);
          r ← sg_scanning_get c key;
          match r with
          | Some v => Ok (it, Some (key, v))
          | None => next_loop fuel' caches it
          end
      | None => Ok (mkIter (it_keys it) (it_num_cht_segments it) (cache_seg_index it) (cht_seg_index it) true, None)
      end
  end.
Definition next (fuel : nat) caches it : res (Iter * option (K * V)) :=
  if it_is_done it then Ok (it, None) else next_loop fuel caches it.

(** The consumer's loop: [next] until it returns [None], at most [n] times. *)
Fixpoint drain (n fuel : nat) caches it : res (Iter * list (K * V)) :=
  match n with
  | O => Fail Diverged
  | S n' =>
      '(it, o) ← next fuel caches it;
      match o with
      | Some kv => '(it, kvs) ← drain n' fuel caches it; Ok (it, kv :: kvs)
      | None => Ok (it, [])
      end
  end.

(** ** What is left to visit *)

(** The keys of a segment, in the order they are popped. *)
Definition batch (o : option (list K)) : list K := rev (default [] o).
(** The segments of [c] from [hi] on. *)
Definition rest_keys (c : C) (hi : nat) : list K := flat_map (fun j => batch (sg_keys c j)) (seq hi (num_cht_segments c - hi)).
Definition all_keys (c : C) : list K := rest_keys c 0.
Definition tagged (i : nat) (ks : list K) : list (nat * K) := (fun k => (i, k)) <$> ks.
Fixpoint later (i : nat) caches : list (nat * K) :=
  match caches with [] => [] | c :: cs => tagged i (all_keys c) ++ later (S i) cs end.

(** The keys with the index of their cache. *)
Definition pending caches it : list (nat * K) :=
  let ci := cache_seg_index it in
  tagged ci (batch (it_keys it)) ++
  match caches !! ci with Some c => tagged ci (rest_keys c (cht_seg_index it)) | None => [] end ++
  later (S ci) (drop (S ci) caches).

(** The loads still to come, and the keys. *)
Definition loads caches it : nat :=
  let ci := cache_seg_index it in
  (match caches !! ci with Some c => num_cht_segments c - cht_seg_index it | None => 0 end +
   sum_list_with num_cht_segments (drop (S ci) caches))%nat.

(** Between calls. *)
Record it_ok caches it : Prop := {
  io_num : forall c, caches !! cache_seg_index it = Some c -> it_num_cht_segments it = num_cht_segments c;
  io_pos : forall c, c ∈ caches -> (0 < num_cht_segments c)%nat;
  io_end : (cache_seg_index it < length caches)%nat
}.

Lemma rest_cons c hi : (hi < num_cht_segments c)%nat -> rest_keys c hi = batch (sg_keys c hi) ++ rest_keys c (S hi).
Proof. intros Hlt. unfold rest_keys. replace (num_cht_segments c - hi)%nat with (S (num_cht_segments c - S hi)) by lia. done. Qed.
Lemma rest_nil c hi : (num_cht_segments c <= hi)%nat -> rest_keys c hi = [].
Proof. intros Hle. unfold rest_keys. by replace (num_cht_segments c - hi)%nat with O by lia. Qed.
Lemma later_cons caches i c : caches !! i = Some c -> later i (drop i caches) = tagged i (all_keys c) ++ later (S i) (drop (S i) caches).
Proof. intros Hi. by rewrite (drop_S _ _ _ Hi). Qed.
Lemma batch_nil it : no_keys it = true -> batch (it_keys it) = [].
Proof. unfold no_keys, batch. destruct (it_keys it) as [[|k ks]|]; done. Qed.

(** Loading segment [hi] of cache [ci]. *)
Lemma load_segment caches ci hi c done keys num :
  caches !! ci = Some c -> (hi < num_cht_segments c)%nat -> (forall c, c ∈ caches -> (0 < num_cht_segments c)%nat) -> batch keys = [] ->
  let it' := mkIter (sg_keys c hi) (num_cht_segments c) ci (S hi) done in
  it_ok caches it' /\ loads caches (mkIter keys num ci hi done) = S (loads caches it') /\
  pending caches it' = pending caches (mkIter keys num ci hi done).
Proof.
  intros Hc Hhi Hpos Hk it'. subst it'. split; [|split].
  - split; cbn; [|done|by eapply lookup_lt_Some]. intros c' Hc'. congruence.
  - unfold loads. cbn. rewrite Hc. lia.
  - unfold pending. cbn [it_keys cache_seg_index cht_seg_index]. rewrite Hc, Hk, (rest_cons c hi) by done. unfold tagged. by rewrite fmap_app, <- app_assoc.
Qed.

Lemma current_keys_ok : forall fuel caches it, it_ok caches it -> (loads caches it < fuel)%nat ->
  exists it' more, current_keys fuel caches it = Ok (it', more) /\ it_is_done it' = it_is_done it /\
    if (more : bool) then it_ok caches it' /\ no_keys it' = false /\ pending caches it' = pending caches it /\ (loads caches it' <= loads caches it)%nat
    else pending caches it = [].
Proof.
  induction fuel as [|fuel IH]; intros caches it Hok Hf; [lia|]. cbn [current_keys]. destruct (no_keys it) eqn:Hk; [|by exists it, true].
  apply batch_nil in Hk. destruct Hok as [Hnum Hpos Hend]. destruct (lookup_lt_is_Some_2 _ _ Hend) as [c Hc]. specialize (Hnum c Hc) as Hn.
  assert (Hstep : forall ci hi c' num, caches !! ci = Some c' -> (hi < num_cht_segments c')%nat ->
    pending caches (mkIter (it_keys it) num ci hi (it_is_done it)) = pending caches it ->
    (loads caches (mkIter (it_keys it) num ci hi (it_is_done it)) <= loads caches it)%nat ->
    let it1 := mkIter (sg_keys c' hi) (num_cht_segments c') ci (S hi) (it_is_done it) in
    exists it' more, current_keys fuel caches it1 = Ok (it', more) /\ it_is_done it' = it_is_done it /\
    if (more : bool) then it_ok caches it' /\ no_keys it' = false /\ pending caches it' = pending caches it /\ (loads caches it' <= loads caches it)%nat
    else pending caches it = []).
  { intros ci hi c' num Hc' Hhi Hp Hl it1. destruct (load_segment caches ci hi c' (it_is_done it) (it_keys it) num Hc' Hhi Hpos Hk) as (H1 & H2 & H3).
    fold it1 in H1, H2, H3. destruct (IH caches it1 H1 ltac:(lia)) as (it' & more & E & Hd & Hm). exists it', more. split; [done|]. split; [done|].
    destruct more; [|congruence]. destruct Hm as (Ha & Hb & Hcc & Hdd). split; [done|]. split; [done|]. split; [congruence|lia]. }
  destruct (decide (it_num_cht_segments it <= cht_seg_index it)%nat) as [Hle|Hlt].
  - rewrite bool_decide_eq_true_2 by done. assert (Hr : rest_keys c (cht_seg_index it) = []) by (apply rest_nil; lia).
    assert (Hpend : pending caches it = later (S (cache_seg_index it)) (drop (S (cache_seg_index it)) caches)).
    { unfold pending. by rewrite Hk, Hc, Hr. }
    destruct (decide (length caches <= S (cache_seg_index it))%nat) as [Hl|Hl].
    + rewrite bool_decide_eq_true_2 by done. eexists _, false. split; [done|]. split; [done|]. rewrite Hpend, drop_ge by done. done.
    + rewrite bool_decide_eq_false_2 by (intros [_ ?]; done). destruct (lookup_lt_is_Some_2 caches (S (cache_seg_index it)) ltac:(lia)) as [c' Hc'].
      rewrite Hc'. cbn [expect_some mbind res_bind]. apply (Hstep _ _ _ (it_num_cht_segments it)); [done|by apply Hpos, (list_elem_of_lookup_2 _ (S (cache_seg_index it)))| |].
      * rewrite Hpend, (later_cons _ _ _ Hc'). unfold pending. cbn [it_keys cache_seg_index cht_seg_index]. by rewrite Hk, Hc'.
      * unfold loads. cbn. rewrite Hc, Hc', (drop_S _ _ _ Hc'). cbn. lia.
  - rewrite bool_decide_eq_false_2 by done. rewrite bool_decide_eq_false_2 by (intros [? _]; done). rewrite Hc. cbn [expect_some mbind res_bind].
    apply (Hstep _ _ _ (it_num_cht_segments it)); [done|lia|by destruct it|by destruct it].
Qed.

Lemma pop_batch it : no_keys it = false -> exists ks k ks', it_keys it = Some ks /\ pop ks = Some (k, ks') /\ batch (it_keys it) = k :: batch (Some ks').
Proof.
  unfold no_keys, batch, pop. destruct (it_keys it) as [ks|]; [|done]. intros Hne. cbn. destruct (rev ks) as [|k l] eqn:Hr.
  - apply (f_equal (@rev K)) in Hr. rewrite rev_involutive in Hr. by rewrite Hr in Hne.
  - exists ks, k, (rev l). rewrite Hr. split; [done|]. split; [done|]. cbn. by rewrite rev_involutive.
Qed.

Lemma next_key_ok fuel caches it : it_ok caches it -> (loads caches it < fuel)%nat ->
  exists it' o, next_key fuel caches it = Ok (it', o) /\ it_is_done it' = it_is_done it /\
  match pending caches it with
  | [] => o = None
  | (ci, k) :: l => o = Some k /\ cache_seg_index it' = ci /\ it_ok caches it' /\ pending caches it' = l /\ (loads caches it' <= loads caches it)%nat
  end.
Proof.
  intros Hok Hf. destruct fuel as [|fuel]; [lia|]. cbn [next_key]. destruct (current_keys_ok (S fuel) caches it Hok Hf) as (it1 & more & -> & Hd & Hm).
  cbn [mbind res_bind]. destruct more; [|rewrite Hm; eauto]. destruct Hm as (Hok1 & Hk & Hp & Hl). destruct (pop_batch it1 Hk) as (ks & k & ks' & E1 & E2 & E3).
  rewrite E1. cbn [expect_some mbind res_bind]. rewrite E2. eexists _, _. split; [done|]. split; [done|]. rewrite <- Hp. unfold pending at 1. rewrite E3.
  cbn [tagged fmap list_fmap app]. split; [done|]. split; [done|]. split; [|split; [done|exact Hl]].
  destruct Hok1 as [H1 H2 H3]. by split.
Qed.

Section quiet.
Variable caches : list C.
(** A lookup of the caches returns. *)
Hypothesis lookups : forall c k, c ∈ caches -> exists o, sg_scanning_get c k = Ok o.

(** What is found for a pending key. *)
Definition found (ik : nat * K) : option (K * V) :=
  c ← caches !! fst ik; match sg_scanning_get c (snd ik) with Ok (Some v) => Some (snd ik, v) | _ => None end.

Lemma next_loop_ok : forall fuel it, it_ok caches it -> (loads caches it + length (pending caches it) < fuel)%nat ->
  exists it', match omap found (pending caches it) with
  | [] => next_loop fuel caches it = Ok (it', None) /\ it_is_done it' = true
  | kv :: l => next_loop fuel caches it = Ok (it', Some kv) /\ it_ok caches it' /\ omap found (pending caches it') = l /\
      (loads caches it' + length (pending caches it') < loads caches it + length (pending caches it))%nat /\ it_is_done it' = it_is_done it
  end.
Proof.
  induction fuel as [|fuel IH]; intros it Hok Hf; [lia|]. cbn [next_loop].
  destruct (next_key_ok (S fuel) caches it Hok ltac:(lia)) as (it1 & o & -> & Hd & Hm). cbn [mbind res_bind].
  destruct (pending caches it) as [|[ci k] l] eqn:Hp; [rewrite Hm; cbn; eauto|]. destruct Hm as (-> & Hci & Hok1 & Hp1 & Hl1).
  cbn [omap list_omap]. unfold found at 1. cbn [fst snd]. rewrite <- Hci.
  destruct (lookup_lt_is_Some_2 _ _ (io_end _ _ Hok1)) as [c Hc]. rewrite Hc. cbn [expect_some mbind res_bind option_bind].
  destruct (lookups c k) as [[v|] E]; [by eapply list_elem_of_lookup_2| |]; rewrite E; cbn [mbind res_bind].
  - exists it1. rewrite Hp1. cbn. repeat (split; [done || lia|]). done.
  - destruct (IH it1 Hok1) as [it' Hit']; [rewrite Hp1; cbn in Hf; lia|]. exists it'. rewrite Hp1 in Hit'. destruct (omap found l); [done|].
    destruct Hit' as (? & ? & ? & ? & ?). repeat (split; [done|]). split; [cbn; lia|congruence].
Qed.

Lemma drain_ok : forall n fuel it, it_ok caches it -> it_is_done it = false -> (loads caches it + length (pending caches it) < fuel)%nat ->
  (loads caches it + length (pending caches it) < n)%nat ->
  exists it', drain n fuel caches it = Ok (it', omap found (pending caches it)) /\ it_is_done it' = true.
Proof.
  induction n as [|n IH]; intros fuel it Hok Hd Hf Hn; [lia|]. cbn [drain]. unfold next. rewrite Hd.
  destruct (next_loop_ok fuel it Hok Hf) as [it1 H1]. destruct (omap found (pending caches it)) as [|kv l].
  - destruct H1 as [-> Hd1]. cbn. eauto.
  - destruct H1 as (-> & Hok1 & Hp1 & Hl1 & Hd1). cbn [mbind res_bind]. destruct (IH fuel it1 Hok1) as (it' & E & Hd'); [congruence|lia|lia|].
    rewrite E. cbn [mbind res_bind]. rewrite Hp1. eauto.
Qed.
End quiet.

Lemma later_elem caches : forall i j k, (j, k) ∈ later i caches <-> exists c, (i <= j)%nat /\ caches !! (j - i)%nat = Some c /\ k ∈ all_keys c.
Proof.
  induction caches as [|c caches IH]; intros i j k; cbn [later].
  - split; [by intros ?%elem_of_nil|]. by intros (c & _ & Hc & _).
  - rewrite elem_of_app, IH. unfold tagged. rewrite list_elem_of_fmap. split.
    + intros [(k' & [= -> ->] & Hk)|(c' & Hle & Hc & Hk)]; [exists c; by rewrite Nat.sub_diag|].
      exists c'. split; [lia|]. split; [|done]. by replace (j - i)%nat with (S (j - S i)) by lia.
    + intros (c' & Hle & Hc & Hk). destruct (j - i)%nat as [|d] eqn:Hd.
      * injection Hc as ->. left. exists k. by replace j with i by lia.
      * right. exists c'. split; [lia|]. split; [|done]. cbn in Hc. by replace (j - S i)%nat with d by lia.
Qed.

Lemma later_nodup caches : (forall c, c ∈ caches -> NoDup (all_keys c)) -> forall i, NoDup (later i caches).
Proof.
  induction caches as [|c caches IH]; intros Hnd i; cbn [later]; [constructor|]. apply NoDup_app. split; [|split].
  - apply NoDup_fmap_2; [by intros x y [= ->]|]. apply Hnd. left.
  - intros [j k] (k' & [= -> ->] & _)%list_elem_of_fmap (c' & Hle & _)%later_elem. lia.
  - apply IH. intros c' Hc'. apply Hnd. by right.
Qed.

Lemma found_spec caches ik k v : found caches ik = Some (k, v) <->
  snd ik = k /\ exists c, caches !! fst ik = Some c /\ sg_scanning_get c k = Ok (Some v).
Proof.
  unfold found. destruct (caches !! fst ik) as [c|]; cbn; [|split; [done|by intros (_ & c & ? & _)]].
  destruct ik as [i k']; cbn. split.
  - destruct (sg_scanning_get c k') as [[v'|]|] eqn:E; intros [= <- <-]. eauto.
  - intros (-> & c' & [= <-] & ->). done.
Qed.

(** What a cache promises to its iterators. *)
Class ScanningGetLaws (valid : C -> Prop) : Prop := {
  sg_segments : forall c, valid c -> (0 < num_cht_segments c)%nat;
  sg_total : forall c k, valid c -> exists o, sg_scanning_get c k = Ok o;
  sg_covers : forall c k v, valid c -> sg_scanning_get c k = Ok (Some v) -> k ∈ all_keys c;
  sg_once : forall c, valid c -> NoDup (all_keys c)
}.

Definition visits caches : nat := (sum_list_with num_cht_segments caches + length (later 0 caches))%nat.

(** Over caches that do not change, the iterator returns what lookups return, then
    ends for good. *)
Lemma drain_visible (valid : C -> Prop) `{ScanningGetLaws valid} c0 caches fuel :
  Forall valid (c0 :: caches) -> (visits (c0 :: caches) < fuel)%nat ->
  exists it' kvs, drain fuel fuel (c0 :: caches) (with_cache_segments (num_cht_segments c0)) = Ok (it', kvs) /\
    next fuel (c0 :: caches) it' = Ok (it', None) /\
    (forall k v, (k, v) ∈ kvs <-> exists c, c ∈ c0 :: caches /\ sg_scanning_get c k = Ok (Some v)) /\
    ((forall i j ci cj k, (c0 :: caches) !! i = Some ci -> (c0 :: caches) !! j = Some cj -> k ∈ all_keys ci -> k ∈ all_keys cj -> i = j) ->
     NoDup kvs.*1).
Proof.
  intros Hv Hf. rewrite Forall_forall in Hv. set (it := with_cache_segments _).
  assert (Hp : pending (c0 :: caches) it = later 0 (c0 :: caches)) by done.
  assert (Hl : loads (c0 :: caches) it = sum_list_with num_cht_segments (c0 :: caches)) by (unfold loads; cbn; by rewrite Nat.sub_0_r, drop_0).
  assert (Hok : it_ok (c0 :: caches) it).
  { split; [by intros c [= ->]| |cbn; lia]. intros c Hc. by eapply sg_segments, Hv. }
  destruct (drain_ok (c0 :: caches)) with (n := fuel) (fuel := fuel) (it := it) as (it' & E & Hd); [|done|done|unfold visits in Hf; rewrite Hl, Hp; lia..|].
  { intros c k Hc. by eapply sg_total, Hv. }
  rewrite Hp in E. eexists it', _. split; [exact E|]. split; [unfold next; by rewrite Hd|]. split.
  - intros k v. rewrite list_elem_of_omap. split.
    + intros ([i k'] & _ & (_ & c & Hc & Hg)%found_spec). exists c. split; [|done]. by eapply list_elem_of_lookup_2.
    + intros (c & [i Hi]%list_elem_of_lookup & Hg). exists (i, k). split; [|apply found_spec; eauto].
      apply later_elem. exists c. rewrite Nat.sub_0_r. split; [lia|]. split; [done|]. eapply sg_covers; [|done]. by eapply Hv, list_elem_of_lookup_2.
  - intros Hdis. assert (E' : forall l, (omap (found (c0 :: caches)) l).*1 = omap (fun ik => fst <$> found (c0 :: caches) ik) l).
    { induction l as [|x l IH]; [done|]. cbn. destruct (found (c0 :: caches) x); cbn; by rewrite IH. }
    rewrite E'. apply omap_nodup. intros a b [i k] [j k'] k0 Ha Hb Hx Hy.
    destruct (found _ (i, k)) as [[k1 v1]|] eqn:F1; [|done]. destruct (found _ (j, k')) as [[k2 v2]|] eqn:F2; [|done]. cbn in Hx, Hy.
    apply found_spec in F1 as [E1 _], F2 as [E2 _]. cbn in E1, E2. simplify_eq.
    destruct (proj1 (later_elem _ _ _ _) (list_elem_of_lookup_2 _ _ _ Ha)) as (ci & _ & Hci & Hki).
    destruct (proj1 (later_elem _ _ _ _) (list_elem_of_lookup_2 _ _ _ Hb)) as (cj & _ & Hcj & Hkj).
    rewrite Nat.sub_0_r in Hci, Hcj. assert (i = j) as <- by (by eapply Hdis). eapply NoDup_lookup; [|exact Ha|exact Hb].
    apply later_nodup. intros c Hc. by eapply sg_once, Hv.
Qed.
End iter.

(** ** The iterator of the cache *)
Section cache.
Context {K V : Type} `{Countable K}.
Variable cfg : Config K V.
(** The hash table under the cache has [2 ^ e] segments; [cht_keys] is the listing
    of one of them ([hm_keys]), in an order that depends on its history. *)
Variable e : nat.
Variable cht_keys : gmap K (ValueEntry V) -> nat -> list K.

(** [impl ScanningGet for BaseCache], at a clock reading. *)
#[export] Instance cache_scanning_get : ScanningGet (Inner K V * Instant) K V := {
  num_cht_segments _ := (2 ^ e)%nat;
  sg_scanning_get c k := scanning_get cfg (fst c) k (snd c);
  sg_keys c j := if decide (j < 2 ^ e)%nat then Some (cht_keys (cache (fst c)) j) else None
}.

Context (Hhash : forall k, 0 <= hasher cfg k < 2 ^ 64) (He : (e <= 64)%nat).
(** What the hash table promises of its listings. *)
Context (Hkeys : forall m i, (i < 2 ^ e)%nat -> lists_keys (hasher cfg) (64 - Z.of_nat e) i m (cht_keys m i)).

Definition linked (c : Inner K V * Instant) : Prop :=
  forall k ve, cache (fst c) !! k = Some ve -> exists ei, get_info (mem (fst c)) (info ve) = Ok ei.

Lemma all_keys_elem c k : k ∈ all_keys c <-> is_Some (cache (fst c) !! k).
Proof.
  unfold all_keys, rest_keys. cbn [num_cht_segments cache_scanning_get]. rewrite Nat.sub_0_r.
  rewrite list_elem_of_In, in_flat_map. split.
  - intros (j & [_ Hj]%in_seq & Hk). cbn in Hj, Hk. rewrite decide_True in Hk by done. unfold batch in Hk. cbn in Hk.
    apply in_rev, list_elem_of_In in Hk. by apply (Hkeys _ j Hj) in Hk as [? _].
  - intros Hk. pose proof (home_lt (hasher cfg) Hhash e He k) as Hlt. exists (home (hasher cfg) (64 - Z.of_nat e) k).
    split; [apply in_seq; lia|]. cbn. rewrite decide_True by done. unfold batch. cbn. apply in_rev. rewrite rev_involutive.
    apply list_elem_of_In. by apply (Hkeys _ _ Hlt).
Qed.

Lemma all_keys_nodup c : NoDup (all_keys c).
Proof.
  unfold all_keys, rest_keys. cbn [num_cht_segments cache_scanning_get]. rewrite Nat.sub_0_r.
  assert (Hg : forall n i, (i + n <= 2 ^ e)%nat -> NoDup (flat_map (fun j => batch (sg_keys c j)) (seq i n)) /\
    forall k, k ∈ flat_map (fun j => batch (sg_keys c j)) (seq i n) -> (i <= home (hasher cfg) (64 - Z.of_nat e) k)%nat).
  { induction n as [|n IH]; intros i Hi; cbn [seq flat_map].
    - split; [constructor|]. by intros k ?%elem_of_nil.
    - destruct (IH (S i) ltac:(lia)) as [IH1 IH2]. destruct (Hkeys (cache (fst c)) i ltac:(lia)) as [Hnd Hin].
      assert (Hb : batch (sg_keys c i) = rev (cht_keys (cache (fst c)) i)) by (cbn; rewrite decide_True by lia; done). rewrite Hb.
      assert (Hh : forall k, k ∈ rev (cht_keys (cache (fst c)) i) -> home (hasher cfg) (64 - Z.of_nat e) k = i).
      { intros k Hk. apply list_elem_of_In, in_rev, list_elem_of_In, Hin in Hk. apply Hk. }
      split.
      + apply NoDup_app. split; [|split; [|done]].
        * by rewrite <- Permutation_rev.
        * intros k Hk1%Hh Hk2%IH2. lia.
      + intros k [Hk%Hh|Hk%IH2]%elem_of_app; lia. }
  by apply Hg.
Qed.

#[export] Instance cache_scanning_laws : ScanningGetLaws linked.
Proof.
  split.
  - intros c _. cbn. pose proof (Nat.pow_nonzero 2 e). lia.
  - intros c k Hl. cbn. unfold scanning_get. destruct (cache (fst c) !! k) as [ve|] eqn:Hc; [|eauto].
    destruct (Hl k ve Hc) as [ei ->]. cbn. eauto.
  - intros c k v _ Hg. apply all_keys_elem. cbn in Hg. unfold scanning_get in Hg. destruct (cache (fst c) !! k); [eauto|done].
  - intros c _. apply all_keys_nodup.
Qed.
End cache.

(** Iterating over a cache that is not written to meanwhile returns every
    binding that a lookup finds, each once and nothing else, then [None] for good;
    in any reachable state, at any time, whatever the hash table's listings are
    ordered like.  The loops of [next] end within the segments and keys there are
    to visit. *)
Theorem iter_yields_lookups {K V} `{Countable K} (cfg : Config K V) (Huser : user_ok cfg) (Hsafe : sketch_safe cfg)
    listener config inv_on t0 b0 (Ht0 : instant_ok t0) (Hrep : 0 <= cfg_max_log_sync_repeats config)
    (Hnew : new_base_cache listener config inv_on t0 = Ok b0)
    e cht_keys (Hhash : forall k, 0 <= hasher cfg k < 2 ^ 64) (He : (e <= 64)%nat)
    (Hkeys : forall m i, (i < 2 ^ e)%nat -> lists_keys (hasher cfg) (64 - Z.of_nat e) i m (cht_keys m i)) n m sys now fuel :
  let c := (inner (base sys), now) in
  let _ := cache_scanning_get cfg e cht_keys in
  reachable cfg (mkSys b0 []) n m sys -> n <= MAX_WRITES -> (visits [c] < fuel)%nat ->
  exists it' kvs, drain fuel fuel [c] (with_cache_segments (2 ^ e)) = Ok (it', kvs) /\ next fuel [c] it' = Ok (it', None) /\
    NoDup kvs.*1 /\ forall k v, (k, v) ∈ kvs <-> scanning_get cfg (inner (base sys)) k now = Ok (Some v).
Proof.
  intros c inst HR Hn Hf. destruct (reached_inv cfg Huser Hsafe listener config inv_on t0 b0 Ht0 Hrep Hnew n m sys HR Hn) as [(_ & P & Q & B & I) _ _ _ _ _ _].
  assert (Hl : Forall linked [c]).
  { apply Forall_singleton. intros k ve Hc. destruct (i_cache I _ _ Hc) as (_ & x & Hx & _). exists x. exact (get_info_ok _ _ _ Hx). }
  destruct (@drain_visible _ _ _ inst linked (cache_scanning_laws cfg e cht_keys Hhash He Hkeys) c [] fuel Hl Hf) as (it' & kvs & E & E' & Hin & Hnd).
  exists it', kvs. split; [exact E|]. split; [exact E'|]. split.
  - apply Hnd. intros [|i] [|j] ci cj k; done.
  - intros k v. rewrite Hin. split.
    + intros (c' & ->%list_elem_of_singleton & Hg). exact Hg.
    + intros Hg. exists c. split; [by left|exact Hg].
Qed.

Module Witnesses.
Definition listing (m : gmap Z (ValueEntry Z)) (i : nat) : list Z := (map_to_list (part (hasher Sample.config) 62 i m)).*1.
Lemma listing_ok m i : (i < 2 ^ 2)%nat -> lists_keys (hasher Sample.config) (64 - Z.of_nat 2) i m (listing m i).
Proof. intros _. by apply lists_part. Qed.
Lemma iter_yields_lookups_witness :
  let c := (inner (base Sample.filled), 9) in
  let _ := cache_scanning_get Sample.config 2 listing in
  exists it' kvs, drain 50 50 [c] (with_cache_segments 4) = Ok (it', kvs) /\ next 50 [c] it' = Ok (it', None) /\
    NoDup kvs.*1 /\ forall k v, (k, v) ∈ kvs <-> scanning_get Sample.config (inner (base Sample.filled)) k 9 = Ok (Some v).
Proof.
  apply (iter_yields_lookups Sample.config Sample.user Sample.safe Sample.quiet_listener (mkHousekeeperConfig (from_millis 100) 4 1) true 0
    Sample.start) with (n := 3) (m := Sample.held).
  - by apply Sample.ok_at.
  - done.
  - exact Sample.start_ok.
  - intros k. by apply Z.mod_pos_bound.
  - lia.
  - exact listing_ok.
  - exact Sample.filled_reached.
  - done.
  - apply Nat.ltb_lt. vm_compute. reflexivity.
Defined.
End Witnesses.
