(* ===== verification/ChtIter.v ===== *)
(** The iterator of the hash table (src/cht/iter.rs): the loop of the cache's
    iterator over one table.  It yields what the cache's iterator yields on a single
    cache, so what [CacheIter] shows of that one holds of it. *)
From S2P Require Import Prelude CacheIter.

Section iter.
Context {C K V : Type} `{ScanningGet C K V}.

(** [map] is an argument of the methods. *)
Record ChtIter := mkChtIter {
  ht_keys : option (list K);
  ht_num_segments : nat;
  ht_seg_index : nat;
  ht_is_done : bool
}.
Implicit Types (it : ChtIter) (c : C).

Definition with_single_cache_segment (num_segments : nat) : ChtIter := mkChtIter None num_segments 0 false.

Definition ht_no_keys it : bool := match ht_keys it with Some (_ :: _) => false | _ => true end.

Fixpoint cht_current_keys (fuel : nat) c it : res (ChtIter * bool) :=
  match fuel with
  | O => Fail Diverged
  | S fuel' =>
      if ht_no_keys it then
        if bool_decide (ht_num_segments it <= ht_seg_index it)%nat then Ok (it, false)
        else cht_current_keys fuel' c (mkChtIter (sg_keys c (ht_seg_index it)) (ht_num_segments it) (S (ht_seg_index it)) (ht_is_done it))
      else Ok (it, true)
  end.

Fixpoint cht_next_key (fuel : nat) c it : res (ChtIter * option K) :=
  match fuel with
  | O => Fail Diverged
  | S fuel' =>
      '(it, more) ← cht_current_keys fuel c it;
      if (more : bool) then
        keys ← expect_some UnwrapNone (ht_keys it);
        match pop keys with
        | Some (key, keys) => Ok (mkChtIter (Some keys) (ht_num_segments it) (ht_seg_index it) (ht_is_done it), Some key)
        | None => cht_next_key fuel' c it
        end
      else Ok (it, None)
  end.

Fixpoint cht_next_loop (fuel : nat) c it : res (ChtIter * option (K * V)) :=
  match fuel with
  | O => Fail Diverged
  | S fuel' =>
      '(it, o) ← cht_next_key fuel c it;
      match o with
      | Some key =>
          r ← sg_scanning_get c key;
          match r with
          | Some v => Ok (it, Some (key, v))
          | None => cht_next_loop fuel' c it
          end
      | None => Ok (mkChtIter (ht_keys it) (ht_num_segments it) (ht_seg_index it) true, None)
      end
  end.
Definition cht_next (fuel : nat) c it : res (ChtIter * option (K * V)) :=
  if ht_is_done it then Ok (it, None) else cht_next_loop fuel c it.

(** The consumer's loop. *)
Fixpoint cht_drain (n fuel : nat) c it : res (ChtIter * list (K * V)) :=
  match n with
  | O => Fail Diverged
  | S n' =>
      '(it, o) ← cht_next fuel c it;
      match o with
      | Some kv => '(it, kvs) ← cht_drain n' fuel c it; Ok (it, kv :: kvs)
      | None => Ok (it, [])
      end
  end.

(** ** The two iterators in step *)

(** The cache's iterator on the cache [c] alone. *)
Definition as_iter it : Iter := mkIter (ht_keys it) (ht_num_segments it) 0 (ht_seg_index it) (ht_is_done it).
(** What it has become when the keys have run out. *)
Definition past it : Iter := mkIter (ht_keys it) (ht_num_segments it) 1 0 (ht_is_done it).

Definition in_step {A} (r : res (ChtIter * A)) (ended : A -> bool) (r' : res (Iter * A)) : Prop :=
  match r, r' with
  | Ok (it, a), Ok (it', a') => a = a' /\ it' = (if ended a then past it else as_iter it)
  | Fail e, Fail e' => e = e'
  | _, _ => False
  end.

(** The part of the state that the loops keep. *)
Definition kept_by c it it' : Prop := ht_num_segments it' = num_cht_segments c /\ ht_is_done it' = ht_is_done it.

Lemma current_in_step c : forall fuel it, ht_num_segments it = num_cht_segments c ->
  in_step (cht_current_keys fuel c it) negb (current_keys fuel [c] (as_iter it)) /\
  forall it' b, cht_current_keys fuel c it = Ok (it', b) -> kept_by c it it'.
Proof.
  induction fuel as [|fuel IH]; intros it Hn; [done|]. cbn [cht_current_keys current_keys].
  change (no_keys (as_iter it)) with (ht_no_keys it). cbn [as_iter it_num_cht_segments cht_seg_index cache_seg_index it_is_done it_keys].
  destruct (ht_no_keys it); [|split; [done|by intros ? ? [= <- <-]]].
  destruct (bool_decide (ht_num_segments it <= ht_seg_index it)%nat) eqn:Hb.
  - rewrite bool_decide_eq_true in Hb. rewrite bool_decide_eq_true_2 by (cbn; lia). split; [done|by intros ? ? [= <- <-]].
  - rewrite bool_decide_eq_false in Hb. rewrite bool_decide_eq_false_2 by lia. cbn [lookup list_lookup expect_some mbind res_bind].
    destruct (IH (mkChtIter (sg_keys c (ht_seg_index it)) (ht_num_segments it) (S (ht_seg_index it)) (ht_is_done it)) Hn) as [IH1 IH2].
    split; [|exact IH2]. rewrite <- Hn. exact IH1.
Qed.

Lemma key_in_step c : forall fuel it, ht_num_segments it = num_cht_segments c ->
  in_step (cht_next_key fuel c it) (fun o => if o then false else true) (next_key fuel [c] (as_iter it)) /\
  forall it' o, cht_next_key fuel c it = Ok (it', o) -> kept_by c it it'.
Proof.
  induction fuel as [|fuel IH]; intros it Hn; [done|]. cbn [cht_next_key next_key].
  destruct (current_in_step c (S fuel) it Hn) as [Hs Hk]. unfold in_step in Hs.
  destruct (cht_current_keys (S fuel) c it) as [[it1 more]|], (current_keys (S fuel) [c] (as_iter it)) as [[it2 more2]|]; try done.
  destruct Hs as [<- ->]. destruct (Hk _ _ eq_refl) as [K1 K2]. cbn [mbind res_bind]. destruct more; [|by split; [|intros ? ? [= <- <-]]].
  cbn [negb]. change (it_keys (as_iter it1)) with (ht_keys it1). destruct (ht_keys it1) as [ks|]; [|done]. cbn [expect_some mbind res_bind].
  destruct (pop ks) as [[k ks']|]; [by split; [|intros ? ? [= <- <-]]|]. destruct (IH it1 K1) as [IH1 IH2]. split; [done|].
  intros it' o Ho. destruct (IH2 _ _ Ho). split; congruence.
Qed.

Lemma loop_in_step c : forall fuel it, ht_num_segments it = num_cht_segments c ->
  in_step (cht_next_loop fuel c it) (fun o => if o then false else true) (next_loop fuel [c] (as_iter it)) /\
  forall it' kv, cht_next_loop fuel c it = Ok (it', Some kv) -> kept_by c it it'.
Proof.
  induction fuel as [|fuel IH]; intros it Hn; [done|]. cbn [cht_next_loop next_loop].
  destruct (key_in_step c (S fuel) it Hn) as [Hs Hk]. unfold in_step in Hs.
  destruct (cht_next_key (S fuel) c it) as [[it1 o]|], (next_key (S fuel) [c] (as_iter it)) as [[it2 o2]|]; try done.
  destruct Hs as [<- ->]. destruct (Hk _ _ eq_refl) as [K1 K2]. cbn [mbind res_bind]. destruct o as [k|]; [|done].
  cbn [cache_seg_index as_iter lookup list_lookup expect_some mbind res_bind].
  destruct (sg_scanning_get c k) as [[v|]|]; cbn [mbind res_bind]; [by split; [|intros ? ? [= <- <-]]| |done].
  destruct (IH it1 K1) as [IH1 IH2]. split; [done|]. intros it' o Ho. destruct (IH2 _ _ Ho). split; congruence.
Qed.

(** The same outcome: the same list, or the same fault. *)
Definition same_yield {A A' B} (r : res (A * B)) (r' : res (A' * B)) : Prop :=
  match r, r' with
  | Ok (_, kvs), Ok (_, kvs') => kvs = kvs'
  | Fail e, Fail e' => e = e'
  | _, _ => False
  end.

Lemma drain_in_step c fuel : forall n it, ht_num_segments it = num_cht_segments c -> ht_is_done it = false ->
  same_yield (cht_drain n fuel c it) (drain n fuel [c] (as_iter it)).
Proof.
  induction n as [|n IH]; intros it Hn Hd; [done|]. cbn [cht_drain drain]. unfold cht_next, next.
  change (it_is_done (as_iter it)) with (ht_is_done it). rewrite Hd.
  destruct (loop_in_step c fuel it Hn) as [Hs Hk]. unfold in_step in Hs.
  destruct (cht_next_loop fuel c it) as [[it1 o]|], (next_loop fuel [c] (as_iter it)) as [[it2 o2]|]; [|done..].
  destruct Hs as [<- ->]. cbn [mbind res_bind]. destruct o as [kv|]; [|done]. destruct (Hk _ _ eq_refl) as [K1 K2]. rewrite Hd in K2.
  specialize (IH it1 K1 K2). destruct (cht_drain n fuel c it1) as [[? ?]|], (drain n fuel [c] (as_iter it1)) as [[? ?]|]; cbn in *; congruence.
Qed.

(** The iterator of the hash table yields, entry by entry, what the cache's
    iterator yields on a single cache. *)
Theorem cht_iter_agrees (c : C) n fuel :
  same_yield (cht_drain n fuel c (with_single_cache_segment (num_cht_segments c)))
    (drain n fuel [c] (with_cache_segments (num_cht_segments c))).
Proof. by apply (drain_in_step c fuel n (with_single_cache_segment (num_cht_segments c))). Qed.
End iter.
