(* ===== verification/ValueInitializer.v ===== *)
(** The coalescing of concurrent initialisations and computations on one key
    (src/sync/value_initializer.rs and src/future/value_initializer.rs), as a
    machine of interleaved calls.

    Each call in progress is a thread at some point of [try_init_or_read] or
    [try_compute]; a step of the machine takes one thread from one access of the
    shared state to the next.  The shared state is the waiter map (a concurrent
    hash table, by HashTableRefines a map), the waiters with their write locks,
    and the cache, here the map from keys to values that lookups see.  Other
    users of the cache may change it at any time (insertions, evictions,
    expirations); that is the step [EnvStep].  A waiter is named by the thread that
    made it, and its write lock is held until that thread is done.

    The machine has two flavours.  In the asynchronous one ([async]) a call is a
    future that may be dropped at any of its await points ([abort]); its guard then
    gives the waiter the value [EnclosingFutureAborted] and removes it.  There is
    also one more kind of call, [and_try_compute_if_nobody_else]. *)
From S2P Require Import Prelude BaseCache.

Definition MAX_RETRIES : nat := 200.

(** The type identifiers of the source's own types; those of the users' error
    types are other numbers, or that of the unit type. *)
Definition TYPE_UNIT : Z := 0.
Definition TYPE_OPTIONALLY_NONE : Z := 1.
Definition TYPE_COMPUTE_NONE : Z := 2.
Definition TYPE_ARC_OPTIONALLY_NONE : Z := 3.

Inductive Op (V : Type) := Nop | Put (v : V) | RemoveOp.
Arguments Nop {V}.
Arguments Put {V} _.
Arguments RemoveOp {V}.

Inductive CompResult (K V : Type) :=
| StillNone (key : K)
| Unchanged (e : Entry K V)
| CompInserted (e : Entry K V)
| ReplacedWith (e : Entry K V)
| CompRemoved (e : Entry K V).
Arguments StillNone {K V} _.
Arguments Unchanged {K V} _.
Arguments CompInserted {K V} _.
Arguments ReplacedWith {K V} _.
Arguments CompRemoved {K V} _.
(** [into_entry] and [unwrap] of the result. *)
Definition into_entry {K V} (r : CompResult K V) : option (Entry K V) :=
  match r with
  | StillNone _ => None
  | Unchanged e | CompInserted e | ReplacedWith e | CompRemoved e => Some e
  end.
Definition comp_unwrap {K V} (r : CompResult K V) : res (Entry K V) :=
  match r with
  | StillNone _ => Fail UnwrapNone
  | Unchanged e | CompInserted e | ReplacedWith e | CompRemoved e => Ok e
  end.

Inductive InitResult (V E : Type) := Initialized (v : V) | ReadExisting (v : V) | InitErr (e : E).
Arguments Initialized {V E} _.
Arguments ReadExisting {V E} _.
Arguments InitErr {V E} _.

(** An error object remembers its type. *)
Inductive WaiterValue (V E : Type) := Computing | WReady (r : V + Z * E) | ReadyNone | InitClosurePanicked | EnclosingFutureAborted.
Arguments Computing {V E}.
Arguments WReady {V E} _.
Arguments ReadyNone {V E}.
Arguments InitClosurePanicked {V E}.
Arguments EnclosingFutureAborted {V E}.

Inductive PanicCause := ClosurePanicked | TooManyRetries | UnexpectedState | BadDowncast.

Section init.
Context {K V E : Type} `{Countable K}.
(** What [OptionallyNone] is among the errors. *)
Variable optionally_none : E.
(** The calls are futures. *)
Variable async : bool.

Definition post_init_for_get_with (v : V) : V + E := inl v.
Definition post_init_for_optionally_get_with (o : option V) : V + E :=
  match o with Some v => inl v | None => inr optionally_none end.
Definition post_init_for_try_get_with (r : V + E) : V + E := r.
Definition post_init_for_upsert_with (v : V) : Op V + E := inl (Put v).
Definition post_init_for_compute_with (op : Op V) : Op V + E := inl op.
Definition post_init_for_try_compute_with (r : Op V + E) : Op V + E := r.

(** The calls, with what their closure returns ([None]: it panics). *)
Inductive Call :=
| GetWith (init : option V) (replace_if : V -> bool)
| OptionallyGetWith (init : option (option V))
| TryGetWith (error_type : Z) (init : option (V + E))
| ComputeWith (f : option V -> option (Op V))
| TryComputeWith (f : option V -> option (Op V + E))
| UpsertWith (f : option V -> option V)
| TryComputeIfNobodyElse (f : option V -> option (Op V + E)).

Definition type_id (c : Call) : Z :=
  match c with
  | GetWith _ _ => TYPE_UNIT
  | OptionallyGetWith _ => TYPE_OPTIONALLY_NONE
  | TryGetWith ty _ => ty
  | ComputeWith _ | TryComputeWith _ | UpsertWith _ | TryComputeIfNobodyElse _ => TYPE_COMPUTE_NONE
  end.
(** The concrete type of the errors of a call. *)
Definition error_type (c : Call) : Z :=
  match c with
  | OptionallyGetWith _ => TYPE_ARC_OPTIONALLY_NONE
  | c => type_id c
  end.
Definition is_compute (c : Call) : bool :=
  match c with ComputeWith _ | TryComputeWith _ | UpsertWith _ | TryComputeIfNobodyElse _ => true | _ => false end.
(** The calls a program can make: the private types cannot be named. *)
Definition call_ok (c : Call) : Prop :=
  match c with TryGetWith ty _ => ty <> TYPE_OPTIONALLY_NONE /\ ty <> TYPE_COMPUTE_NONE | _ => True end.

(** [get]: what the call accepts of the cache. *)
Definition accepts (c : Call) (v : V) : bool := match c with GetWith _ replace_if => negb (replace_if v) | _ => true end.
(** [post_init] of the closure's result. *)
Definition init_output (c : Call) : option (V + E) :=
  match c with
  | GetWith init _ => post_init_for_get_with <$> init
  | OptionallyGetWith init => post_init_for_optionally_get_with <$> init
  | TryGetWith _ init => post_init_for_try_get_with <$> init
  | _ => None
  end.
Definition compute_output (c : Call) (seen : option V) : option (Op V + E) :=
  match c with
  | ComputeWith f => post_init_for_compute_with <$> f seen
  | TryComputeWith f | TryComputeIfNobodyElse f => post_init_for_try_compute_with <$> f seen
  | UpsertWith f => post_init_for_upsert_with <$> f seen
  | _ => None
  end.
Definition allow_nop (c : Call) : bool := match c with UpsertWith _ => false | _ => true end.

Inductive Outcome :=
| Inited (r : InitResult V E)
| Computed (r : CompResult K V + E)
| Panicked (p : PanicCause)
| Dropped.

(** Where a call is: about to insert its waiter, about to look what is there because
    somebody else computes, waiting for the write lock of another's, about to look in the cache, to evaluate its closure, to change the
    cache, to remove its waiter, to return (and release the lock), returned. *)
Inductive Pc :=
| AtInsertWaiter
| AtPeek
| Waiting (j : nat)
| AtGet
| AtInit
| AtInsert (v : V)
| AtCompute (seen : option V)
| AtApply (seen : option V) (op : Op V)
| AtRemoveWaiter (o : Outcome)
| AtReturn (o : Outcome)
| Done (o : Outcome).

Record Thread := mkThread { th_key : K; th_call : Call; th_pc : Pc; retries : nat; th_waiter : WaiterValue V E }.
Implicit Type t : Thread.
Definition new_thread (key : K) (c : Call) : Thread := mkThread key c AtInsertWaiter 0 Computing.
Definition waiter_key t : K * Z := (th_key t, type_id (th_call t)).
Definition at_pc t (pc : Pc) : Thread := mkThread (th_key t) (th_call t) pc (retries t) (th_waiter t).
Definition set_waiter t (w : WaiterValue V E) : Thread := mkThread (th_key t) (th_call t) (th_pc t) (retries t) w.

Record State := mkState { store : gmap K V; waiters : gmap (K * Z) nat; threads : list Thread }.
Implicit Type s : State.
Definition with_thread s (i : nat) t : State := mkState (store s) (waiters s) (<[i := t]> (threads s)).
Definition with_store s (m : gmap K V) : State := mkState m (waiters s) (threads s).

(** What a waiting call makes of the value of the waiter it waited for. *)
Definition downcast t (e : Z * E) : Outcome :=
  if fst e =? error_type (th_call t) then Inited (InitErr (snd e)) else Panicked BadDowncast.
Definition read_waiter t (w : WaiterValue V E) : Thread :=
  if is_compute (th_call t) then
    match w with
    | Computing => at_pc t (Done (Panicked UnexpectedState))
    | _ => at_pc t AtInsertWaiter
    end
  else
    match w with
    | WReady (inl v) => at_pc t (Done (Inited (ReadExisting v)))
    | WReady (inr e) => at_pc t (Done (downcast t e))
    | InitClosurePanicked | EnclosingFutureAborted =>
        let t := mkThread (th_key t) (th_call t) (th_pc t) (S (retries t)) (th_waiter t) in
        if bool_decide (retries t < MAX_RETRIES)%nat then at_pc t AtInsertWaiter else at_pc t (Done (Panicked TooManyRetries))
    | Computing | ReadyNone => at_pc t (Done (Panicked UnexpectedState))
    end.

Definition apply_op s (key : K) (c : Call) (seen : option V) (op : Op V) : gmap K V * CompResult K V :=
  match op with
  | Nop => (store s, match (if allow_nop c then seen else None) with
                     | Some v => Unchanged (mkEntry (Some key) v false false)
                     | None => StillNone key
                     end)
  | Put v => (<[key := v]> (store s), match seen with
                                      | Some _ => ReplacedWith (mkEntry (Some key) v true true)
                                      | None => CompInserted (mkEntry (Some key) v true false)
                                      end)
  | RemoveOp => (delete key (store s), match store s !! key with
                                       | Some v => CompRemoved (mkEntry (Some key) v false false)
                                       | None => StillNone key
                                       end)
  end.

(** The closure is evaluated and the waiter gets its value, except that a value is
    first inserted into the cache; for a computation that changes the cache the
    asynchronous flavour sets the waiter after the change. *)
Definition evaluate_init t : Thread :=
  match init_output (th_call t) with
  | Some (inl v) => at_pc t (AtInsert v)
  | Some (inr e) => at_pc (set_waiter t (WReady (inr (error_type (th_call t), e)))) (AtRemoveWaiter (Inited (InitErr e)))
  | None => at_pc (set_waiter t InitClosurePanicked) (AtRemoveWaiter (Panicked ClosurePanicked))
  end.
Definition evaluate_compute t (seen : option V) : Thread :=
  match compute_output (th_call t) seen with
  | Some (inl op) => at_pc (if async then t else set_waiter t ReadyNone) (AtApply seen op)
  | Some (inr e) => at_pc (set_waiter t ReadyNone) (AtRemoveWaiter (Computed (inr e)))
  | None => at_pc (set_waiter t InitClosurePanicked) (AtRemoveWaiter (Panicked ClosurePanicked))
  end.

(** The next step of thread [i]; [None] when it is blocked or has returned. *)
Definition step s (i : nat) : option State :=
  t ← threads s !! i;
  match th_pc t with
  | AtInsertWaiter =>
      match waiters s !! waiter_key t with
      | None => Some (with_thread (mkState (store s) (<[waiter_key t := i]> (waiters s)) (threads s)) i (at_pc t AtGet))
      | Some j => Some (with_thread s i (at_pc t (match th_call t with TryComputeIfNobodyElse _ => AtPeek | _ => Waiting j end)))
      end
  | AtPeek =>
      Some (with_thread s i (at_pc t (Done (Computed (inl match store s !! th_key t with
                                                          | Some v => Unchanged (mkEntry (Some (th_key t)) v false false)
                                                          | None => StillNone (th_key t)
                                                          end)))))
  | Waiting j =>
      tj ← threads s !! j;
      match th_pc tj with
      | Done _ => Some (with_thread s i (read_waiter t (th_waiter tj)))
      | _ => None
      end
  | AtGet =>
      if is_compute (th_call t) then Some (with_thread s i (at_pc t (AtCompute (store s !! th_key t))))
      else match store s !! th_key t with
           | Some v =>
               if accepts (th_call t) v
               then Some (with_thread s i (at_pc (set_waiter t (WReady (inl v))) (AtRemoveWaiter (Inited (ReadExisting v)))))
               else Some (with_thread s i (at_pc t AtInit))
           | None => Some (with_thread s i (at_pc t AtInit))
           end
  | AtInit => Some (with_thread s i (evaluate_init t))
  | AtInsert v =>
      Some (with_thread (with_store s (<[th_key t := v]> (store s))) i
              (at_pc (set_waiter t (WReady (inl v))) (AtRemoveWaiter (Inited (Initialized v)))))
  | AtCompute seen => Some (with_thread s i (evaluate_compute t seen))
  | AtApply seen op =>
      let '(m, r) := apply_op s (th_key t) (th_call t) seen op in
      Some (with_thread (with_store s m) i (at_pc (set_waiter t ReadyNone) (AtRemoveWaiter (Computed (inl r)))))
  | AtRemoveWaiter o =>
      Some (with_thread (mkState (store s) (delete (waiter_key t) (waiters s)) (threads s)) i (at_pc t (AtReturn o)))
  | AtReturn o => Some (with_thread s i (at_pc t (Done o)))
  | Done _ => None
  end.

(** The future of call [i] is dropped at an await point; [late] when it was waiting
    in a call that changes the cache, after the change.  Once the waiter has its
    value there is no await point left. *)
Definition drop_guard t : Thread := at_pc (set_waiter t EnclosingFutureAborted) (AtRemoveWaiter Dropped).
Definition abort s (i : nat) (late : bool) : option State :=
  t ← threads s !! i;
  match th_pc t with
  | AtInsertWaiter | AtPeek | Waiting _ => Some (with_thread s i (at_pc t (Done Dropped)))
  | AtGet | AtInit | AtCompute _ => Some (with_thread s i (drop_guard t))
  | AtInsert v => Some (with_thread (with_store s (if late then <[th_key t := v]> (store s) else store s)) i (drop_guard t))
  | AtApply seen (Put _ as op) | AtApply seen (RemoveOp as op) =>
      Some (with_thread (with_store s (if late then fst (apply_op s (th_key t) (th_call t) seen op) else store s)) i (drop_guard t))
  | _ => None
  end.

(** What [Cache] makes of the results (src/sync/cache.rs); [k] is the key of the
    entry when the caller needs it. *)
Definition finish_get_with (k : option K) (r : InitResult V E) : res (Entry K V) :=
  match r with
  | Initialized v => Ok (mkEntry k v true false)
  | ReadExisting v => Ok (mkEntry k v false false)
  | InitErr _ => Fail Unreachable
  end.
Definition finish_optionally_get_with (k : option K) (r : InitResult V E) : option (Entry K V) :=
  match r with
  | Initialized v => Some (mkEntry k v true false)
  | ReadExisting v => Some (mkEntry k v false false)
  | InitErr _ => None
  end.
Definition finish_try_get_with (k : option K) (r : InitResult V E) : Entry K V + E :=
  match r with
  | Initialized v => inl (mkEntry k v true false)
  | ReadExisting v => inl (mkEntry k v false false)
  | InitErr e => inr e
  end.

(** All calls start together; the interleavings include those where some start
    later. *)
Definition start (m : gmap K V) (calls : list (K * Call)) : State :=
  mkState m ∅ ((fun kc => new_thread (fst kc) (snd kc)) <$> calls).

(** Executions; [quiet] ones are those in which only the calls change the cache. *)
Inductive reach (quiet : bool) (s0 : State) : State -> Prop :=
| reach_refl : reach quiet s0 s0
| reach_step s i s' : reach quiet s0 s -> step s i = Some s' -> reach quiet s0 s'
| reach_abort s i late s' : async = true -> reach quiet s0 s -> abort s i late = Some s' -> reach quiet s0 s'
| EnvStep s m : quiet = false -> reach quiet s0 s -> reach quiet s0 (with_store s m).

(** A schedule of the calls, for concrete executions. *)
Fixpoint run s (is_ : list nat) : option State :=
  match is_ with [] => Some s | i :: is_' => s' ← step s i; run s' is_' end.

(** ** The invariant *)

(** Between the insertion of its waiter and the removal. *)
Definition owner t : bool :=
  match th_pc t with AtGet | AtInit | AtInsert _ | AtCompute _ | AtApply _ _ | AtRemoveWaiter _ => true | _ => false end.
(** The waiter has a value that the calls waiting for it know what to do with. *)
Definition resolved t : Prop :=
  match th_waiter t with
  | Computing => False
  | ReadyNone => is_compute (th_call t) = true
  | WReady (inl _) => is_compute (th_call t) = false
  | WReady (inr e) => is_compute (th_call t) = false /\ fst e = error_type (th_call t)
  | InitClosurePanicked | EnclosingFutureAborted => True
  end.
Definition expected_outcome (o : Outcome) : Prop := o <> Panicked UnexpectedState /\ o <> Panicked BadDowncast.
Definition pc_ok t : Prop :=
  match th_pc t with
  | AtInit | AtInsert _ => is_compute (th_call t) = false
  | AtPeek | AtCompute _ | AtApply _ _ => is_compute (th_call t) = true
  | AtRemoveWaiter o | AtReturn o => resolved t /\ expected_outcome o
  | Done o => expected_outcome o
  | _ => True
  end.
Definition is_done t : bool := match th_pc t with Done _ => true | _ => false end.
Definition over t : Prop := match th_pc t with AtReturn _ | Done _ => resolved t | _ => False end.
(** Its lock will be, or has been, released with a value. *)
Definition waitable t : Prop := owner t = true \/ over t.

Record inv s : Prop := {
  iv_waiters : forall wk j, waiters s !! wk = Some j -> exists t, threads s !! j = Some t /\ waiter_key t = wk /\ owner t = true;
  iv_owner : forall i t, threads s !! i = Some t -> owner t = true -> waiters s !! waiter_key t = Some i;
  iv_pc : forall i t, threads s !! i = Some t -> pc_ok t;
  iv_wait : forall i t j, threads s !! i = Some t -> th_pc t = Waiting j ->
    exists tj, threads s !! j = Some tj /\ waiter_key tj = waiter_key t /\ waitable tj;
  iv_calls : forall i t, threads s !! i = Some t -> call_ok (th_call t)
}.

(** A step of thread [i] that keeps what others rely on. *)
Lemma inv_update s i t t' m ws :
  inv s -> threads s !! i = Some t -> th_key t' = th_key t -> th_call t' = th_call t -> pc_ok t' ->
  (waitable t -> waitable t') ->
  (forall j, th_pc t' = Waiting j -> exists tj, threads s !! j = Some tj /\ waiter_key tj = waiter_key t /\ waitable tj) ->
  (ws = waiters s /\ owner t' = owner t \/
   ws = <[waiter_key t := i]> (waiters s) /\ waiters s !! waiter_key t = None /\ owner t' = true \/
   ws = delete (waiter_key t) (waiters s) /\ owner t = true /\ owner t' = false) ->
  inv (mkState m ws (<[i := t']> (threads s))).
Proof.
  intros I Hi Hk Hc Hpc Hw Hwait Hws. assert (Hwk : waiter_key t' = waiter_key t) by (unfold waiter_key; congruence).
  pose proof (lookup_lt_Some _ _ _ Hi) as Hlt. pose proof (iv_owner _ I) as Ho. pose proof (iv_waiters _ I) as Hm.
  split; cbn [waiters threads].
  - intros wk j Hj. assert (Hcase : j <> i /\ waiters s !! wk = Some j \/ j = i /\ wk = waiter_key t /\ owner t' = true).
    { destruct Hws as [[-> Hoo]|[(-> & Hnone & Hot)|(-> & Hot & _)]].
      - destruct (decide (j = i)) as [->|]; [right|by left]. destruct (Hm _ _ Hj) as (u & Hu & Hkk & Houu). rewrite Hi in Hu. injection Hu as <-.
        split; [done|]. split; [done|congruence].
      - rewrite lookup_insert in Hj. case_decide as Hd; [right; injection Hj as <-; done|]. left. split; [|done]. intros ->.
        destruct (Hm _ _ Hj) as (u & Hu & Hkk & Houu). rewrite Hi in Hu. injection Hu as <-. done.
      - rewrite lookup_delete in Hj. case_decide as Hd; [done|]. left. split; [|done]. intros ->.
        destruct (Hm _ _ Hj) as (u & Hu & Hkk & Houu). rewrite Hi in Hu. injection Hu as <-. done. }
    destruct Hcase as [[Hne Hs]|(-> & -> & Hot)].
    + destruct (Hm _ _ Hs) as (u & Hu & Hrest). exists u. by rewrite list_lookup_insert_ne.
    + exists t'. by rewrite list_lookup_insert_eq.
  - intros j u Hj Hou. destruct (insert_cases _ _ _ _ _ Hj) as [[-> ->]|[Hne Hu]].
    + rewrite Hwk. destruct Hws as [[-> Hoo]|[(-> & Hnone & Hot)|(-> & _ & Hot)]]; [|by rewrite lookup_insert_eq|congruence].
      apply Ho; [done|congruence].
    + specialize (Ho j u Hu Hou). destruct Hws as [[-> Hoo]|[(-> & Hnone & Hot)|(-> & Hot & _)]]; [done| |].
      * rewrite lookup_insert_ne; [done|]. intros Eq. congruence.
      * rewrite lookup_delete_ne; [done|]. intros Eq. rewrite <- Eq, (iv_owner _ I i t Hi Hot) in Ho. congruence.
  - intros j u Hj. destruct (insert_cases _ _ _ _ _ Hj) as [[-> ->]|[Hne Hu]]; [done|by eapply iv_pc].
  - intros j u x Hj Hx. assert (Hold : exists tx, threads s !! x = Some tx /\ waiter_key tx = waiter_key u /\ waitable tx).
    { destruct (insert_cases _ _ _ _ _ Hj) as [[-> ->]|[Hne Hu]]; [rewrite Hwk; auto|by eapply (iv_wait _ I)]. }
    destruct Hold as (tx & Htx & Hkx & Hwx). destruct (decide (i = x)) as [<-|Hne].
    + rewrite list_lookup_insert_eq by done. exists t'. rewrite Htx in Hi. injection Hi as ->. split; [done|]. split; [congruence|auto].
    + rewrite list_lookup_insert_ne by done. eauto.
  - intros j u Hj. destruct (insert_cases _ _ _ _ _ Hj) as [[-> ->]|[Hne Hu]]; [rewrite Hc|]; by eapply (iv_calls _ I).
Qed.

Lemma inv_env s m : inv s -> inv (with_store s m).
Proof. intros [H1 H2 H3 H4 H5]. by split. Qed.

Lemma inv_start m calls : Forall (fun kc => call_ok (snd kc)) calls -> inv (start m calls).
Proof.
  intros Hc. assert (Ht : forall i t, threads (start m calls) !! i = Some t -> th_pc t = AtInsertWaiter /\ call_ok (th_call t)).
  { intros i t Hi. cbn in Hi. rewrite list_lookup_fmap in Hi. destruct (calls !! i) as [kc|] eqn:Hk; [|done]. injection Hi as <-.
    split; [done|]. exact (Forall_lookup_1 _ _ _ _ Hc Hk). }
  split; cbn [waiters].
  - intros wk j Hj. unfold start in Hj. cbn [waiters] in Hj. by rewrite lookup_empty in Hj.
  - intros i t Hi Ho. unfold owner in Ho. by rewrite (proj1 (Ht i t Hi)) in Ho.
  - intros i t Hi. unfold pc_ok. by rewrite (proj1 (Ht i t Hi)).
  - intros i t j Hi Hw. by rewrite (proj1 (Ht i t Hi)) in Hw.
  - intros i t Hi. apply (Ht i t Hi).
Qed.

(** Calls that share a waiter agree on what it may hold. *)
Lemma same_kind (c c' : Call) : call_ok c -> call_ok c' -> type_id c = type_id c' ->
  is_compute c = is_compute c' /\ error_type c = error_type c'.
Proof.
  unfold TYPE_UNIT, TYPE_COMPUTE_NONE in *.
  destruct c, c'; cbn; unfold TYPE_UNIT, TYPE_OPTIONALLY_NONE, TYPE_COMPUTE_NONE; intros H1 H2 Ht; (split; [done || lia|done || lia]).
Qed.

Lemma read_waiter_ok t tj : call_ok (th_call t) -> call_ok (th_call tj) -> waiter_key tj = waiter_key t -> resolved tj ->
  let t' := read_waiter t (th_waiter tj) in
  th_key t' = th_key t /\ th_call t' = th_call t /\ pc_ok t' /\ owner t' = false /\ forall j, th_pc t' <> Waiting j.
Proof.
  intros H1 H2 Hk Hr. assert (Ht : type_id (th_call tj) = type_id (th_call t)) by (unfold waiter_key in Hk; congruence).
  destruct (same_kind _ _ H2 H1 Ht) as [Hkind Herr]. unfold read_waiter, resolved in *. rewrite Hkind, Herr in Hr.
  destruct (is_compute (th_call t)) eqn:Hc, (th_waiter tj) as [|[v|[ty e]]| | |]; try done; try (by destruct Hr).
  - destruct Hr as [_ Hty]. cbn in Hty. unfold downcast. cbn [fst snd]. rewrite (proj2 (Z.eqb_eq _ _) Hty). done.
  - cbn. case_bool_decide; done.
  - cbn. case_bool_decide; done.
Qed.

Lemma inv_step s i s' : inv s -> step s i = Some s' -> inv s'.
Proof.
  intros I Hs. unfold step, evaluate_init, evaluate_compute in Hs. destruct (threads s !! i) as [t|] eqn:Hi; [|done]. cbn [mbind option_bind] in Hs.
  pose proof (iv_pc _ I i t Hi) as Hpc. unfold pc_ok in Hpc.
  assert (Hloc : forall t' m, th_key t' = th_key t -> th_call t' = th_call t -> pc_ok t' -> owner t = true -> owner t' = true ->
    inv (mkState m (waiters s) (<[i := t']> (threads s)))).
  { intros t' m Hk Hc Hp Ho Ho'. apply (inv_update s i t); try done; [by left| |left; split; [done|congruence]].
    intros j Hw. unfold owner in Ho'. by rewrite Hw in Ho'. }
  unfold owner in Hloc at 1. destruct (th_pc t) as [| |j| | |v|seen|seen op|o|o|o] eqn:Et; cbn [mbind option_bind] in Hs.
  - destruct (waiters s !! waiter_key t) as [j|] eqn:Hw; injection Hs as <-.
    + destruct (iv_waiters _ I _ _ Hw) as (tj & Htj & Hkj & Hoj). apply (inv_update s i t); try done.
      * unfold pc_ok. by destruct (th_call t) eqn:Hc; cbn; rewrite ?Hc.
      * unfold waitable, owner, over. rewrite Et. by intros [?|?].
      * intros j' Hj. exists tj. destruct (th_call t); cbn in Hj; try discriminate Hj; injection Hj as <-; (split; [done|]; split; [done|by left]).
      * left. split; [done|]. unfold owner. rewrite Et. by destruct (th_call t).
    + apply (inv_update s i t); try done; [by left|]. right. left. done.
  - injection Hs as <-. apply (inv_update s i t); try done.
    + unfold waitable, owner, over. rewrite Et. by intros [?|?].
    + left. split; [done|]. unfold owner. by rewrite Et.
  - destruct (threads s !! j) as [tj|] eqn:Hj; [|done]. cbn in Hs. destruct (th_pc tj) as [| | | | | | | | | |oj] eqn:Ej; try done. injection Hs as <-.
    destruct (iv_wait _ I i t j Hi Et) as (tj' & Htj & Hkj & Hwj). rewrite Hj in Htj. injection Htj as <-.
    assert (Hr : resolved tj) by (destruct Hwj as [Ho|Ho]; [unfold owner in Ho; by rewrite Ej in Ho|unfold over in Ho; by rewrite Ej in Ho]).
    destruct (read_waiter_ok t tj (iv_calls _ I _ _ Hi) (iv_calls _ I _ _ Hj) Hkj Hr) as (Hk' & Hc' & Hp' & Ho' & Hw').
    apply (inv_update s i t); try done.
    + unfold waitable, owner, over. rewrite Et. by intros [?|?].
    + intros j' E'. by destruct (Hw' j').
    + left. split; [done|]. rewrite Ho'. unfold owner. by rewrite Et.
  - destruct (is_compute (th_call t)) eqn:Hc; [injection Hs as <-; by apply Hloc|]. destruct (store s !! th_key t) as [v|]; [|injection Hs as <-; by apply Hloc].
    destruct (accepts (th_call t) v); injection Hs as <-; apply Hloc; done.
  - destruct (init_output (th_call t)) as [[v|e]|]; injection Hs as <-; apply Hloc; done.
  - injection Hs as <-. apply Hloc; done.
  - destruct (compute_output (th_call t) seen) as [[op|e]|]; injection Hs as <-; apply Hloc; try done; by destruct async.
  - destruct (apply_op s (th_key t) (th_call t) seen op) as [m r]. injection Hs as <-. by apply Hloc.
  - injection Hs as <-. apply (inv_update s i t); try done.
    + intros _. right. apply Hpc.
    + right. right. split; [done|]. unfold owner. by rewrite Et.
  - injection Hs as <-. apply (inv_update s i t); try done.
    + apply Hpc.
    + intros _. right. apply Hpc.
    + left. split; [done|]. unfold owner. by rewrite Et.
  - done.
Qed.

(** What dropping a call does: nothing to others before its waiter is inserted;
    after, the guard is dropped, and the change to the cache may have been made. *)
Lemma abort_cases s i late s' : abort s i late = Some s' ->
  exists t t' m, threads s !! i = Some t /\ s' = mkState m (waiters s) (<[i := t']> (threads s)) /\
    (t' = at_pc t (Done Dropped) /\ m = store s /\ owner t = false /\ is_done t = false /\ ~ over t \/
     t' = drop_guard t /\ owner t = true /\
     (m = store s \/ (exists v, th_pc t = AtInsert v /\ m = <[th_key t := v]> (store s)) \/
      exists seen op, th_pc t = AtApply seen op /\ m = fst (apply_op s (th_key t) (th_call t) seen op)) /\
     match th_pc t with AtRemoveWaiter _ => False | _ => True end).
Proof.
  unfold abort. destruct (threads s !! i) as [t|] eqn:Hi; [|done]. cbn [mbind option_bind]. intros Hs. exists t. unfold owner, is_done, over.
  destruct (th_pc t) as [| |j| | |v|seen|seen [|v|]|o|o|o]; try done; injection Hs as <-; eexists _, _; (split; [done|]); (split; [reflexivity|]).
  1-3: left; repeat split; intros [].
  all: right; split; [done|]; split; [done|]; split; [|done]; try (by left); destruct late; eauto 6.
Qed.

Lemma inv_abort s i late s' : inv s -> abort s i late = Some s' -> inv s'.
Proof.
  intros I Ha. destruct (abort_cases s i late s' Ha) as (t & t' & m & Hi & -> & Hc).
  destruct Hc as [(-> & -> & Ho & Hd & Hno)|(-> & Ho & _ & _)].
  - apply (inv_update s i t); try done.
    + intros [Hw|Hw]; [congruence|done].
    + left. split; [done|]. by rewrite Ho.
  - apply (inv_update s i t); try done; [by left|]. left. split; [done|]. by rewrite Ho.
Qed.

Lemma reach_inv quiet s0 s : inv s0 -> reach quiet s0 s -> inv s.
Proof.
  intros I Hr. induction Hr as [|s i s' _ IH Hs|s i late s' _ _ IH Hs|s m _ _ IH]; [done|by eapply inv_step|by eapply inv_abort|by apply inv_env].
Qed.

(** ** Termination *)
Definition done_at s (j : nat) : bool := match threads s !! j with Some t => is_done t | None => false end.

(** The steps left to a thread, when [n] threads run and [d] tells which are done;
    a wait that is over counts more than one that is not, so that each end of a
    call pays for the waits it ends. *)
Definition weight (n : nat) (d : nat -> bool) t : nat :=
  match th_pc t with
  | Done _ => 0
  | Waiting j => 2 * n + (if d j then 10 else 8)
  | AtInsertWaiter => 2 * n + 9
  | AtGet => 2 * n + 6
  | AtInit | AtCompute _ => 2 * n + 5
  | AtInsert _ | AtApply _ _ => 2 * n + 4
  | AtRemoveWaiter _ => 2 * n + 3
  | AtReturn _ => 2 * n + 2
  | AtPeek => 2 * n + 1
  end.
Definition steps_left s : nat := sum_list_with (weight (length (threads s)) (done_at s)) (threads s).

Lemma weight_le n d d' t : (weight n d t <= weight n d' t + 2)%nat.
Proof. unfold weight. destruct (th_pc t); try lia. destruct (d j), (d' j); lia. Qed.
Lemma weight_ext n d d' t : (forall j, d j = d' j) -> weight n d t = weight n d' t.
Proof. intros Hd. unfold weight. destruct (th_pc t); try done. by rewrite Hd. Qed.
Lemma weight_pos n d t : is_done t = false -> (2 * n < weight n d t)%nat.
Proof. unfold is_done, weight. destruct (th_pc t); try done; intros _; try lia. destruct (d j); lia. Qed.

Lemma done_at_update s i t t' m ws : threads s !! i = Some t -> forall j,
  done_at (mkState m ws (<[i := t']> (threads s))) j = if decide (j = i) then is_done t' else done_at s j.
Proof.
  intros Hi j. unfold done_at. cbn. case_decide as Hd; [subst j; by rewrite list_lookup_insert_eq by (by eapply lookup_lt_Some)|].
  by rewrite list_lookup_insert_ne.
Qed.

Lemma steps_left_update s i t t' m ws : threads s !! i = Some t -> is_done t = false ->
  (is_done t' = false -> weight (length (threads s)) (done_at s) t' < weight (length (threads s)) (done_at s) t)%nat ->
  (steps_left (mkState m ws (<[i := t']> (threads s))) < steps_left s)%nat.
Proof.
  intros Hi Hnd Hlt. unfold steps_left. set (d' := done_at _). cbn [threads]. rewrite length_insert. set (n := length (threads s)) in *.
  pose proof (done_at_update s i t t' m ws Hi) as Hd. fold d' in Hd. clearbody d'.
  pose proof (sum_insert (weight n (done_at s)) (threads s) i t t' Hi) as Hsum. destruct (is_done t') eqn:Hd'.
  - pose proof (sum_le (weight n d') (weight n (done_at s)) (<[i := t']> (threads s)) 2 (weight_le n d' (done_at s))) as Hle.
    rewrite length_insert in Hle. fold n in Hle. pose proof (weight_pos n (done_at s) t Hnd).
    assert (Hz : weight n (done_at s) t' = O) by (unfold is_done in Hd'; unfold weight; by destruct (th_pc t')). lia.
  - specialize (Hlt eq_refl). assert (He : forall j, d' j = done_at s j).
    { intros j. rewrite Hd. case_decide as Hj; [|done]. subst j. unfold done_at. by rewrite Hi, Hnd. }
    assert (Hs : sum_list_with (weight n d') (<[i := t']> (threads s)) = sum_list_with (weight n (done_at s)) (<[i := t']> (threads s))).
    { clear -He. induction (<[i := t']> (threads s)) as [|x l IH]; [done|]. cbn. by rewrite IH, (weight_ext n d' (done_at s)). }
    lia.
Qed.

Lemma step_decreases s i s' : inv s -> step s i = Some s' -> (steps_left s' < steps_left s)%nat.
Proof.
  intros I Hs. unfold step, evaluate_init, evaluate_compute in Hs. destruct (threads s !! i) as [t|] eqn:Hi; [|done]. cbn [mbind option_bind] in Hs.
  assert (Hloc : forall t' m ws, is_done t = false ->
    (is_done t' = false -> weight (length (threads s)) (done_at s) t' < weight (length (threads s)) (done_at s) t)%nat ->
    (steps_left (mkState m ws (<[i := t']> (threads s))) < steps_left s)%nat).
  { intros t' m ws Hd Hw. by eapply steps_left_update. }
  unfold is_done in Hloc at 1. unfold weight in Hloc at 2. destruct (th_pc t) as [| |j| | |v|seen|seen op|o|o|o] eqn:Et; cbn [mbind option_bind] in Hs.
  - destruct (waiters s !! waiter_key t) as [j|] eqn:Hw; injection Hs as <-; apply Hloc; try done; intros _; [|cbn; lia].
    destruct (iv_waiters _ I _ _ Hw) as (tj & Htj & _ & Hoj). assert (Hdj : done_at s j = false).
    { unfold done_at. rewrite Htj. unfold is_done, owner in *. by destruct (th_pc tj). }
    destruct (th_call t); cbn; rewrite ?Hdj; lia.
  - injection Hs as <-. by apply Hloc.
  - destruct (threads s !! j) as [tj|] eqn:Hj; [|done]. cbn in Hs. destruct (th_pc tj) as [| | | | | | | | | |oj] eqn:Ej; try done. injection Hs as <-.
    apply Hloc; [done|]. intros Hnd. assert (Hdj : done_at s j = true) by (unfold done_at, is_done; by rewrite Hj, Ej). rewrite Hdj.
    assert (Hpc : th_pc (read_waiter t (th_waiter tj)) = AtInsertWaiter).
    { unfold is_done, read_waiter in *. destruct (is_compute (th_call t)), (th_waiter tj) as [|[?|?]| | |]; cbn in *; try done; by case_bool_decide. }
    unfold weight. rewrite Hpc. lia.
  - destruct (is_compute (th_call t)) eqn:Hc; [injection Hs as <-; apply Hloc; [done|cbn; lia]|]. destruct (store s !! th_key t) as [v|].
    + destruct (accepts (th_call t) v); injection Hs as <-; (apply Hloc; [done|cbn; lia]).
    + injection Hs as <-. apply Hloc; [done|cbn; lia].
  - destruct (init_output (th_call t)) as [[v|e]|]; injection Hs as <-; (apply Hloc; [done|cbn; lia]).
  - injection Hs as <-. apply Hloc; [done|cbn; lia].
  - destruct (compute_output (th_call t) seen) as [[op|e]|]; injection Hs as <-; (apply Hloc; [done|cbn; lia]).
  - destruct (apply_op s (th_key t) (th_call t) seen op) as [m r]. injection Hs as <-. apply Hloc; [done|cbn; lia].
  - injection Hs as <-. apply Hloc; [done|cbn; lia].
  - injection Hs as <-. apply Hloc; [done|cbn; done].
  - done.
Qed.

Lemma abort_decreases s i late s' : abort s i late = Some s' -> (steps_left s' < steps_left s)%nat.
Proof.
  intros Ha. destruct (abort_cases s i late s' Ha) as (t & t' & m & Hi & -> & Hc). destruct Hc as [(-> & _ & _ & Hd & _)|(-> & Ho & _ & Hnr)].
  - by apply (steps_left_update s i t).
  - apply (steps_left_update s i t); [done| |].
    + unfold owner, is_done in *. by destruct (th_pc t).
    + intros _. unfold owner, weight in *. cbn. destruct (th_pc t); done || lia.
Qed.

(** A thread that neither waits nor has returned can go on. *)
Lemma can_step s i t : threads s !! i = Some t -> is_done t = false -> (forall j, th_pc t <> Waiting j) -> is_Some (step s i).
Proof.
  intros Hi Hd Hw. unfold step. rewrite Hi. cbn [mbind option_bind]. unfold is_done in Hd. destruct (th_pc t) as [| |j| | |v|seen|seen op|o|o|o] eqn:Et; try done.
  - destruct (waiters s !! waiter_key t); eauto.
  - by destruct (Hw j).
  - destruct (is_compute (th_call t)); [eauto|]. destruct (store s !! th_key t) as [v|]; [destruct (accepts (th_call t) v)|]; eauto.
  - destruct (apply_op s (th_key t) (th_call t) seen op); eauto.
Qed.

Lemma not_stuck s i t : inv s -> threads s !! i = Some t -> is_done t = false -> exists j s', step s j = Some s'.
Proof.
  intros I Hi Hd. assert (Hcase : (forall j, th_pc t <> Waiting j) \/ exists j, th_pc t = Waiting j) by (destruct (th_pc t); eauto).
  destruct Hcase as [Hnw|[j Hj]]; [destruct (can_step s i t Hi Hd Hnw); eauto|].
  destruct (iv_wait _ I i t j Hi Hj) as (tj & Htj & _ & Hw). destruct (is_done tj) eqn:Hdj.
  - exists i. unfold step. rewrite Hi. cbn [mbind option_bind]. rewrite Hj, Htj. cbn [mbind option_bind]. unfold is_done in Hdj. destruct (th_pc tj); try done. eauto.
  - destruct (can_step s j tj Htj Hdj) as [s' Hs']; [|eauto]. intros x Hx. unfold waitable, owner, over in Hw. rewrite Hx in Hw. by destruct Hw.
Qed.

(** ** Executions in which only the calls change the cache *)
Definition value_of (o : Outcome) : option V :=
  match o with Inited (Initialized v) | Inited (ReadExisting v) => Some v | _ => None end.
Definition initialized t : bool := match th_pc t with AtRemoveWaiter (Inited (Initialized _)) | AtReturn (Inited (Initialized _)) | Done (Inited (Initialized _)) => true | _ => false end.

(** An initialising thread against the value its key has in the cache. *)
Definition coherent (sk : option V) t : Prop :=
  (forall v, th_waiter t = WReady (inl v) -> sk = Some v) /\
  match th_pc t with
  | AtInit | AtInsert _ => sk = None
  | AtRemoveWaiter o | AtReturn o | Done o => forall v, value_of o = Some v -> sk = Some v
  | _ => True
  end.
(** A computing thread: what its closure was given is still there. *)
Definition current (sk : option V) t : Prop :=
  match th_pc t with AtCompute seen | AtApply seen _ => sk = seen | _ => True end.

Lemma apply_op_frame s key c seen op k : k <> key -> fst (apply_op s key c seen op) !! k = store s !! k.
Proof. intros Hk. destruct op; cbn; [done|by rewrite lookup_insert_ne|by rewrite lookup_delete_ne]. Qed.

(** A call takes a step, or is dropped. *)
Definition moves s i s' : Prop := step s i = Some s' \/ async = true /\ exists late, abort s i late = Some s'.

(** What a step does, its own thread apart. *)
Lemma step_frame s i s' : step s i = Some s' ->
  exists t t' m ws, threads s !! i = Some t /\ s' = mkState m ws (<[i := t']> (threads s)) /\ th_key t' = th_key t /\ th_call t' = th_call t /\
    forall k, k <> th_key t -> m !! k = store s !! k.
Proof.
  unfold step, evaluate_init, evaluate_compute. destruct (threads s !! i) as [t|] eqn:Hi; [|done]. cbn [mbind option_bind]. intros Hs. exists t.
  assert (Hg : forall t' m ws, th_key t' = th_key t -> th_call t' = th_call t -> (forall k, k <> th_key t -> m !! k = store s !! k) ->
    Some (mkState m ws (<[i := t']> (threads s))) = Some s' ->
    exists t' m ws, Some t = Some t /\ s' = mkState m ws (<[i := t']> (threads s)) /\ th_key t' = th_key t /\ th_call t' = th_call t /\
      forall k, k <> th_key t -> m !! k = store s !! k) by (intros t' m ws H1 H2 H3 [= <-]; exists t', m, ws; done).
  destruct (th_pc t) as [| |j| | |v|seen|seen op|o|o|o].
  - destruct (waiters s !! waiter_key t); (eapply Hg; [..|exact Hs]; done).
  - eapply Hg; [..|exact Hs]; done.
  - destruct (threads s !! j) as [tj|]; [|done]. cbn in Hs. destruct (th_pc tj); try done. eapply Hg; [..|exact Hs]; try done;
      unfold read_waiter; destruct (is_compute (th_call t)), (th_waiter tj) as [|[?|?]| | |]; cbn; try done; by case_bool_decide.
  - destruct (is_compute (th_call t)); [|destruct (store s !! th_key t) as [v|]; [destruct (accepts (th_call t) v)|]]; (eapply Hg; [..|exact Hs]; done).
  - destruct (init_output (th_call t)) as [[v|e]|]; (eapply Hg; [..|exact Hs]; done).
  - eapply Hg; [..|exact Hs]; try done. intros k Hk. cbn. by rewrite lookup_insert_ne.
  - destruct (compute_output (th_call t) seen) as [[op|e]|]; (eapply Hg; [..|exact Hs]; try done); by destruct async.
  - pose proof (apply_op_frame s (th_key t) (th_call t) seen op) as Hf.
    destruct (apply_op s (th_key t) (th_call t) seen op) as [m r]. eapply Hg; [..|exact Hs]; done.
  - eapply Hg; [..|exact Hs]; done.
  - eapply Hg; [..|exact Hs]; done.
  - done.
Qed.

Lemma moves_frame s i s' : moves s i s' ->
  exists t t' m ws, threads s !! i = Some t /\ s' = mkState m ws (<[i := t']> (threads s)) /\ th_key t' = th_key t /\ th_call t' = th_call t /\
    forall k, k <> th_key t -> m !! k = store s !! k.
Proof.
  intros [Hs|(_ & late & Ha)]; [by apply step_frame|]. destruct (abort_cases s i late s' Ha) as (t & t' & m & Hi & -> & Hc).
  exists t, t', m, (waiters s). destruct Hc as [(-> & -> & _)|(-> & _ & Hm & _)]; [done|]. do 4 (split; [done|]). intros k Hk.
  destruct Hm as [->|[(v & _ & ->)|(seen & op & _ & ->)]]; [done|by rewrite lookup_insert_ne|by apply apply_op_frame].
Qed.
Lemma moves_inv s i s' : inv s -> moves s i s' -> inv s'.
Proof. intros I [Hs|(_ & late & Ha)]; [by eapply inv_step|by eapply inv_abort]. Qed.

Section key.
Variables (k : K) (allowed : Call -> Prop) (ty : Z).
(** The calls on [k] are of one type. *)
Hypothesis allowed_type : forall c, allowed c -> type_id c = ty.
Definition on_key s (P : Thread -> Prop) : Prop := forall i t, threads s !! i = Some t -> th_key t = k -> P t.

Lemma one_owner s i j t u : inv s -> on_key s (fun t => allowed (th_call t)) ->
  threads s !! i = Some t -> threads s !! j = Some u -> th_key t = k -> th_key u = k -> owner t = true -> owner u = true -> i = j.
Proof.
  intros I Ha Hi Hj Hk Hk' Ho Ho'. pose proof (iv_owner _ I i t Hi Ho) as H1. pose proof (iv_owner _ I j u Hj Ho') as H2.
  unfold waiter_key in *. rewrite Hk, (allowed_type _ (Ha i t Hi Hk)) in H1. rewrite Hk', (allowed_type _ (Ha j u Hj Hk')) in H2. congruence.
Qed.

(** To keep a property of the threads on [k], look at the thread that moves, and at
    those that hold no waiter when the value changes. *)
Lemma on_key_step (P : option V -> Thread -> Prop) s i s' :
  inv s -> on_key s (fun t => allowed (th_call t)) -> on_key s (P (store s !! k)) -> moves s i s' ->
  (forall t t', threads s !! i = Some t -> threads s' !! i = Some t' -> th_key t = k -> P (store s' !! k) t') ->
  (forall t, threads s !! i = Some t -> th_key t = k ->
     store s' !! k = store s !! k \/ owner t = true /\ forall u, owner u = false -> P (store s !! k) u -> P (store s' !! k) u) ->
  on_key s' (P (store s' !! k)).
Proof.
  intros I Ha HP Hs Hown Hch. destruct (moves_frame s i s' Hs) as (t & t' & m & ws & Hi & -> & Hk & Hc & Hm). cbn [store threads] in *.
  intros j u Hj Hu. cbn [threads] in Hj. destruct (insert_cases _ _ _ _ _ Hj) as [[-> ->]|[Hne Hj']]; [apply (Hown t t'); congruence|].
  specialize (HP j u Hj' Hu). destruct (decide (k = th_key t)) as [Hkt|Hkt].
  - destruct (Hch t Hi (eq_sym Hkt)) as [->|[Ho Hkeep]]; [done|]. apply Hkeep; [|done]. destruct (owner u) eqn:Hou; [|done].
    by destruct Hne; apply (one_owner s j i u t).
  - by rewrite Hm.
Qed.

Lemma allowed_step s i s' : on_key s (fun t => allowed (th_call t)) -> moves s i s' -> on_key s' (fun t => allowed (th_call t)).
Proof.
  intros Ha Hs. destruct (moves_frame s i s' Hs) as (t & t' & m & ws & Hi & -> & Hk & Hc & _). intros j u Hj Hu. cbn [threads] in Hj.
  destruct (insert_cases _ _ _ _ _ Hj) as [[-> ->]|[Hne Hj']]; [|by eapply Ha]. rewrite Hc. eapply Ha; [exact Hi|congruence].
Qed.

Lemma allowed_start m calls : (forall c, (k, c) ∈ calls -> allowed c) -> on_key (start m calls) (fun t => allowed (th_call t)).
Proof.
  intros Hc i t Hi Hk. cbn in Hi. rewrite list_lookup_fmap in Hi. destruct (calls !! i) as [[k' c]|] eqn:Hl; [|done]. injection Hi as <-. cbn in *. subst k'.
  apply Hc. by eapply list_elem_of_lookup_2.
Qed.

Lemma reach_on_key (P : option V -> Thread -> Prop) s0 s :
  inv s0 -> on_key s0 (fun t => allowed (th_call t)) -> on_key s0 (P (store s0 !! k)) ->
  (forall s i s', inv s -> on_key s (fun t => allowed (th_call t)) -> on_key s (P (store s !! k)) -> moves s i s' -> on_key s' (P (store s' !! k))) ->
  reach true s0 s -> inv s /\ on_key s (fun t => allowed (th_call t)) /\ on_key s (P (store s !! k)).
Proof.
  intros I Ha HP Hstep Hr.
  assert (Hm : forall s i s', inv s /\ on_key s (fun t => allowed (th_call t)) /\ on_key s (P (store s !! k)) -> moves s i s' ->
    inv s' /\ on_key s' (fun t => allowed (th_call t)) /\ on_key s' (P (store s' !! k))).
  { intros s1 i s' (I' & Ha' & HP') Hs. split; [by eapply moves_inv|]. split; [by eapply allowed_step|]. by eapply Hstep. }
  induction Hr as [|s i s' _ IH Hs|s i late s' Hy _ IH Hs|s m Hq _ IH]; [done| | |done].
  - eapply Hm; [exact IH|by left].
  - eapply Hm; [exact IH|right; eauto].
Qed.
End key.

(** Only two steps write to the cache. *)
Lemma store_step s i s' t : step s i = Some s' -> threads s !! i = Some t ->
  match th_pc t with AtInsert _ | AtApply _ _ => True | _ => store s' = store s end.
Proof.
  intros Hs Hi. unfold step, evaluate_init, evaluate_compute in Hs. rewrite Hi in Hs. cbn [mbind option_bind] in Hs. destruct (th_pc t) as [| |j| | |v|seen|seen op|o|o|o]; cbn [mbind option_bind] in Hs.
  - destruct (waiters s !! waiter_key t); by injection Hs as <-.
  - by injection Hs as <-.
  - destruct (threads s !! j) as [tj|]; [|done]. cbn in Hs. destruct (th_pc tj); try done; by injection Hs as <-.
  - destruct (is_compute (th_call t)); [by injection Hs as <-|]. destruct (store s !! th_key t) as [v|]; [destruct (accepts (th_call t) v)|]; by injection Hs as <-.
  - destruct (init_output (th_call t)) as [[v|e]|]; by injection Hs as <-.
  - done.
  - destruct (compute_output (th_call t) seen) as [[op|e]|]; by injection Hs as <-.
  - done.
  - by injection Hs as <-.
  - by injection Hs as <-.
  - done.
Qed.

Lemma moves_store s i s' t : moves s i s' -> threads s !! i = Some t ->
  match th_pc t with AtInsert _ | AtApply _ _ => True | _ => store s' = store s end.
Proof.
  intros [Hs|(_ & late & Ha)] Hi; [by eapply store_step|]. destruct (abort_cases s i late s' Ha) as (u & t' & m & Hu & -> & Hc).
  rewrite Hi in Hu. injection Hu as <-. destruct Hc as [(_ & -> & _)|(_ & _ & Hm & _)]; [by destruct (th_pc t)|].
  destruct Hm as [->|[(v & -> & _)|(seen & op & -> & _)]]; [by destruct (th_pc t)|done|done].
Qed.

(** The thread that is dropped. *)
Lemma abort_thread s i late s' t t' : abort s i late = Some s' -> threads s !! i = Some t -> threads s' !! i = Some t' ->
  t' = at_pc t (Done Dropped) \/ t' = drop_guard t.
Proof.
  intros Ha Hi Hi'. destruct (abort_cases s i late s' Ha) as (u & u' & m & Hu & -> & Hc). rewrite Hi in Hu. injection Hu as <-.
  cbn [threads] in Hi'. rewrite list_lookup_insert_eq in Hi' by (by eapply lookup_lt_Some). injection Hi' as <-.
  by destruct Hc as [[-> _]|[-> _]]; [left|right].
Qed.

(** The thread that moved. *)
Ltac moved Hs Ht' Hi :=
  injection Hs as <-; cbn [threads with_thread with_store store] in *;
  rewrite list_lookup_insert_eq in Ht' by (by eapply lookup_lt_Some; exact Hi); injection Ht' as <-.

(** Initialising calls of one type that accept what they find. *)
Definition plain_init (ty : Z) (c : Call) : Prop := is_compute c = false /\ type_id c = ty /\ forall v, accepts c v = true.

Lemma coherent_step k ty s i s' :
  inv s -> on_key k s (fun t => plain_init ty (th_call t)) -> on_key k s (coherent (store s !! k)) -> moves s i s' ->
  on_key k s' (coherent (store s' !! k)).
Proof.
  intros I Ha HP Hs. apply (on_key_step k (plain_init ty) ty (fun c Hc => proj1 (proj2 Hc)) coherent s i); try done.
  - intros t t' Hi Ht' Hk. destruct (HP i t Hi Hk) as [Hw Hpc]. destruct (Ha i t Hi Hk) as (Hkind & _ & Hacc).
    pose proof (moves_store s i s' t Hs Hi) as Hst.
    destruct Hs as [Hs|(_ & late & Hs)].
    2:{ destruct (abort_cases s i late s' Hs) as (u & u' & m & Hu & -> & Hc). rewrite Hi in Hu. injection Hu as <-. cbn [threads store] in *.
        rewrite list_lookup_insert_eq in Ht' by (by eapply lookup_lt_Some). injection Ht' as <-.
        destruct Hc as [(-> & -> & _)|(-> & _)]; done. }
    clear Hst. unfold step, evaluate_init, evaluate_compute in Hs. rewrite Hi in Hs. cbn [mbind option_bind] in Hs. unfold coherent.
    destruct (th_pc t) as [| |j| | |v|seen|seen op|o|o|o] eqn:Et; cbn [mbind option_bind] in Hs.
    + destruct (waiters s !! waiter_key t) as [j|]; moved Hs Ht' Hi; (split; [done|]); by destruct (th_call t).
    + pose proof (iv_pc _ I i t Hi) as Hpk. unfold pc_ok in Hpk. rewrite Et in Hpk. congruence.
    + destruct (threads s !! j) as [tj|] eqn:Hj; [|done]. cbn in Hs. destruct (th_pc tj) eqn:Ej; try done. moved Hs Ht' Hi.
      destruct (iv_wait _ I i t j Hi Et) as (tj' & Htj & Hkj & _). rewrite Hj in Htj. injection Htj as <-. injection Hkj as Hkj _.
      destruct (HP j tj Hj ltac:(congruence)) as [Hwj _]. unfold read_waiter. rewrite Hkind. destruct (th_waiter tj) as [|[v|e]| | |]; cbn; try done.
      * split; [done|]. intros v' [= <-]. auto.
      * split; [done|]. unfold downcast. by destruct (_ =? _).
      * by case_bool_decide.
      * by case_bool_decide.
    + rewrite Hkind in Hs. rewrite Hk in Hs. destruct (store s !! k) as [v|] eqn:Hst; [rewrite Hacc in Hs|]; moved Hs Ht' Hi; rewrite Hst; cbn; [|done].
      split; [by intros v' [= <-]|by intros v' [= <-]].
    + destruct (init_output (th_call t)) as [[v|e]|]; moved Hs Ht' Hi; done.
    + moved Hs Ht' Hi. rewrite Hk, lookup_insert_eq. cbn. split; by intros v' [= <-].
    + pose proof (iv_pc _ I i t Hi) as Hpk. unfold pc_ok in Hpk. rewrite Et in Hpk. congruence.
    + pose proof (iv_pc _ I i t Hi) as Hpk. unfold pc_ok in Hpk. rewrite Et in Hpk. congruence.
    + moved Hs Ht' Hi. done.
    + moved Hs Ht' Hi. done.
    + done.
  - intros t Hi Hk. destruct (th_pc t) as [| |j| | |v|seen|seen op|o|o|o] eqn:Et.
    6: { right. split; [unfold owner; by rewrite Et|]. destruct (HP i t Hi Hk) as [_ Hpc]. rewrite Et in Hpc. rewrite Hpc.
      intros u Ho [Hw Hpu]. split; [by intros v' ?%Hw|]. unfold owner in Ho. destruct (th_pc u); try done; by intros v' ?%Hpu. }
    7: { pose proof (iv_pc _ I i t Hi) as Hpk. unfold pc_ok in Hpk. rewrite Et in Hpk. destruct (Ha i t Hi Hk) as [Hkind _]. congruence. }
    all: left; pose proof (moves_store s i s' t Hs Hi) as Hst; rewrite Et in Hst; by rewrite Hst.
Qed.

Lemma current_step k s i s' :
  inv s -> on_key k s (fun t => is_compute (th_call t) = true) -> on_key k s (current (store s !! k)) -> moves s i s' ->
  on_key k s' (current (store s' !! k)).
Proof.
  intros I Ha HP Hs. assert (Hty : forall c : Call, is_compute c = true -> type_id c = TYPE_COMPUTE_NONE) by (by intros []).
  apply (on_key_step k (fun c => is_compute c = true) TYPE_COMPUTE_NONE Hty current s i); try done.
  - intros t t' Hi Ht' Hk. specialize (HP i t Hi Hk). specialize (Ha i t Hi Hk). cbn in Ha. pose proof (iv_pc _ I i t Hi) as Hpk. unfold pc_ok in Hpk.
    destruct Hs as [Hs|(_ & late & Hs)]; [|by destruct (abort_thread s i late s' t t' Hs Hi Ht') as [->| ->]].
    unfold step, evaluate_init, evaluate_compute in Hs. rewrite Hi in Hs. cbn [mbind option_bind] in Hs. unfold current in *.
    destruct (th_pc t) as [| |j| | |v|seen|seen op|o|o|o] eqn:Et; cbn [mbind option_bind] in Hs.
    + destruct (waiters s !! waiter_key t) as [j|]; moved Hs Ht' Hi; [|done]. by destruct (th_call t).
    + by moved Hs Ht' Hi.
    + destruct (threads s !! j) as [tj|]; [|done]. cbn in Hs. destruct (th_pc tj); try done. moved Hs Ht' Hi. unfold read_waiter. rewrite Ha. by destruct (th_waiter tj).
    + rewrite Ha in Hs. moved Hs Ht' Hi. cbn. congruence.
    + congruence.
    + congruence.
    + destruct (compute_output (th_call t) seen) as [[op|e]|]; moved Hs Ht' Hi; done.
    + destruct (apply_op s (th_key t) (th_call t) seen op) as [m r]. moved Hs Ht' Hi. done.
    + moved Hs Ht' Hi. done.
    + moved Hs Ht' Hi. done.
    + done.
  - intros t Hi Hk. pose proof (moves_store s i s' t Hs Hi) as Hst. destruct (th_pc t) as [| |j| | |v|seen|seen op|o|o|o] eqn:Et.
    6, 8: right; split; [unfold owner; by rewrite Et|]; unfold owner, current; intros u Ho _; by destruct (th_pc u).
    all: left; by rewrite Hst.
Qed.
(** At most one call has put a value of its own under [k]. *)
Lemma initialized_step s i s' t t' : step s i = Some s' -> threads s !! i = Some t -> threads s' !! i = Some t' ->
  initialized t' = match th_pc t with AtInsert _ => true | _ => initialized t end.
Proof.
  intros Hs Hi Ht'. unfold step, evaluate_init, evaluate_compute in Hs. rewrite Hi in Hs. cbn [mbind option_bind] in Hs.
  assert (Hold : initialized t = match th_pc t with AtRemoveWaiter (Inited (Initialized _)) | AtReturn (Inited (Initialized _)) | Done (Inited (Initialized _)) => true | _ => false end) by done.
  destruct (th_pc t) as [| |j| | |v|seen|seen op|o|o|o]; cbn [mbind option_bind] in Hs; rewrite ?Hold.
  - destruct (waiters s !! waiter_key t); moved Hs Ht' Hi; [|done]. by destruct (th_call t).
  - by moved Hs Ht' Hi.
  - destruct (threads s !! j) as [tj|]; [|done]. cbn in Hs. destruct (th_pc tj); try done. moved Hs Ht' Hi.
    unfold read_waiter, downcast. destruct (is_compute (th_call t)), (th_waiter tj) as [|[?|?]| | |]; cbn; try done; repeat case_match; by simplify_eq/=.
  - destruct (is_compute (th_call t)); [by moved Hs Ht' Hi|]. destruct (store s !! th_key t) as [v|]; [destruct (accepts (th_call t) v)|]; by moved Hs Ht' Hi.
  - destruct (init_output (th_call t)) as [[v|e]|]; by moved Hs Ht' Hi.
  - by moved Hs Ht' Hi.
  - destruct (compute_output (th_call t) seen) as [[op|e]|]; by moved Hs Ht' Hi.
  - destruct (apply_op s (th_key t) (th_call t) seen op) as [m r]. by moved Hs Ht' Hi.
  - by moved Hs Ht' Hi.
  - by moved Hs Ht' Hi.
  - done.
Qed.

Lemma initialized_moves s i s' t t' : moves s i s' -> threads s !! i = Some t -> threads s' !! i = Some t' ->
  initialized t' = true -> initialized t = true \/ exists v, th_pc t = AtInsert v.
Proof.
  intros [Hs|(_ & late & Hs)] Hi Hi' Hin.
  - rewrite (initialized_step s i s' t t' Hs Hi Hi') in Hin. destruct (th_pc t); eauto.
  - by destruct (abort_thread s i late s' t t' Hs Hi Hi') as [->| ->].
Qed.

Definition once k s : Prop := forall i j t u, threads s !! i = Some t -> threads s !! j = Some u -> th_key t = k -> th_key u = k ->
  initialized t = true -> initialized u = true -> i = j.

Lemma initialized_value sk t : coherent sk t -> initialized t = true -> is_Some sk.
Proof.
  unfold coherent, initialized. intros [_ Hv] Hi.
  destruct (th_pc t) as [| | | | | | | |[[v|v|e]|r|p|]|[[v|v|e]|r|p|]|[[v|v|e]|r|p|]]; try done; exists v; by apply Hv.
Qed.

Lemma once_step k s i s' : on_key k s (coherent (store s !! k)) -> once k s -> moves s i s' -> once k s'.
Proof.
  intros HP Ho Hs. pose proof (fun t t' => initialized_moves s i s' t t' Hs) as Hi.
  destruct (moves_frame s i s' Hs) as (t & t' & m & ws & Ht & -> & Hk & Hc & _). specialize (Hi t t' Ht (list_lookup_insert_eq _ _ _ (lookup_lt_Some _ _ _ Ht))).
  assert (Hnew : forall j u, threads s !! j = Some u -> th_key u = k -> initialized u = true -> th_key t' = k -> initialized t' = true -> j = i).
  { intros j u Hj Hu Hiu Hkt Hit. destruct (Hi Hit) as [Hin|[v Et]]; [by apply (Ho j i u t); congruence|].
    destruct (HP i t Ht ltac:(congruence)) as [_ Hn]. rewrite Et in Hn. destruct (initialized_value _ u (HP j u Hj Hu) Hiu). congruence. }
  intros j1 j2 u1 u2 H1 H2 Hk1 Hk2 Hi1 Hi2. cbn [threads] in H1, H2.
  destruct (insert_cases _ _ _ _ _ H1) as [[-> ->]|[Hn1 H1']], (insert_cases _ _ _ _ _ H2) as [[-> ->]|[Hn2 H2']]; [done| | |].
  - symmetry. by eapply Hnew.
  - by eapply Hnew.
  - by eapply Ho.
Qed.

Lemma start_threads m (calls : list (K * Call)) i t : threads (start m calls) !! i = Some t -> th_pc t = AtInsertWaiter /\ th_waiter t = Computing.
Proof. intros Hi. cbn in Hi. rewrite list_lookup_fmap in Hi. destruct (calls !! i); [|done]. by injection Hi as <-. Qed.

Lemma reach_coherent k ty m calls s :
  Forall (fun kc => call_ok (snd kc)) calls -> (forall c, (k, c) ∈ calls -> plain_init ty c) -> reach true (start m calls) s ->
  inv s /\ on_key k s (fun t => plain_init ty (th_call t)) /\ on_key k s (coherent (store s !! k)) /\ once k s.
Proof.
  intros Hc Hk Hr.
  assert (Hm : forall s i s', moves s i s' ->
    inv s /\ on_key k s (fun t => plain_init ty (th_call t)) /\ on_key k s (coherent (store s !! k)) /\ once k s ->
    inv s' /\ on_key k s' (fun t => plain_init ty (th_call t)) /\ on_key k s' (coherent (store s' !! k)) /\ once k s').
  { intros s1 i s' Hs (I & Ha & HP & Ho). split; [by eapply moves_inv|]. split; [by eapply (allowed_step k (plain_init ty))|].
    split; [by eapply coherent_step|by eapply once_step]. }
  induction Hr as [|s i s' _ IH Hs|s i late s' Hy _ IH Hs|s m' Hq _ IH]; [| | |done].
  - split; [by apply inv_start|]. split; [by apply allowed_start|]. split.
    + intros i t Hi _. destruct (start_threads m calls i t Hi) as [Ep Ew]. split; [by rewrite Ew|by rewrite Ep].
    + intros i j t u Hi _ _ _ Hn. unfold initialized in Hn. by rewrite (proj1 (start_threads m calls i t Hi)) in Hn.
  - eapply Hm; [by left|exact IH].
  - eapply Hm; [right; eauto|exact IH].
Qed.
End init.

Section claims.
Context {K V E : Type} `{Countable K}.
Variables (none : E) (async : bool).
Implicit Types (m : gmap K V) (calls : list (K * @Call V E)) (k : K).

(** Single flight: whatever the interleaving, whichever futures are dropped and
    whatever else happens to the cache, at most one call per key and type is between the insertion of its
    waiter and its removal (in particular evaluates its closure), and no call ever
    meets a waiter in an unexpected state or an error of another type. *)
Theorem init_single_flight m calls s :
  Forall (fun kc => call_ok (snd kc)) calls -> reach none async false (start m calls) s ->
  (forall i j t u, threads s !! i = Some t -> threads s !! j = Some u -> waiter_key t = waiter_key u ->
     owner t = true -> owner u = true -> i = j) /\
  (forall i t o, threads s !! i = Some t -> th_pc t = Done o -> o <> Panicked UnexpectedState /\ o <> Panicked BadDowncast).
Proof.
  intros Hc Hr. pose proof (reach_inv none async false _ s (inv_start m calls Hc) Hr) as I. split.
  - intros i j t u Hi Hj Hk Ho Ho'. pose proof (iv_owner _ I i t Hi Ho). pose proof (iv_owner _ I j u Hj Ho'). congruence.
  - intros i t o Hi Hd. pose proof (iv_pc _ I i t Hi) as Hp. unfold pc_ok in Hp. by rewrite Hd in Hp.
Qed.

(** C28. Every call returns: in any state of any execution, each step of a call, and
    each drop of one that is a future, brings all calls closer to their end by a
    fixed measure, so that no execution runs for ever; as long as a call has not
    returned some call can take a step, so that none is stuck: no deadlock, no
    livelock, whatever panics or is dropped; and when all are over no waiter is
    left behind. *)
Theorem calls_return m calls s :
  Forall (fun kc => call_ok (snd kc)) calls -> reach none async false (start m calls) s ->
  (forall i s', moves none async s i s' -> (steps_left s' < steps_left s)%nat) /\
  ((exists i t, threads s !! i = Some t /\ is_done t = false) -> exists i s', step none async s i = Some s') /\
  ((forall i t, threads s !! i = Some t -> is_done t = true) -> waiters s = ∅).
Proof.
  intros Hc Hr. pose proof (reach_inv none async false _ s (inv_start m calls Hc) Hr) as I. split; [|split].
  - intros i s' [Hs|(_ & late & Ha)]; [by eapply step_decreases|by eapply abort_decreases].
  - intros (i & t & Hi & Hd). by eapply not_stuck.
  - intros Hd. apply map_empty. intros wk. destruct (waiters s !! wk) as [j|] eqn:Hw; [|done].
    destruct (iv_waiters _ I wk j Hw) as (t & Hj & _ & Ho). specialize (Hd j t Hj). unfold is_done, owner in *. by destruct (th_pc t).
Qed.

(** C29. Coalescing: when the calls on a key are initialising calls of one type and
    nothing else changes the key, at most one of them puts a value of its own in
    the cache and returns it, and all that return a value return that one (or the
    one that was there, or that a dropped call had inserted). *)
Theorem init_coalesced k ty m calls s i j t u oi oj :
  Forall (fun kc => call_ok (snd kc)) calls -> (forall c, (k, c) ∈ calls -> plain_init ty c) -> reach none async true (start m calls) s ->
  threads s !! i = Some t -> threads s !! j = Some u -> th_key t = k -> th_key u = k -> th_pc t = Done oi -> th_pc u = Done oj ->
  (forall v w, value_of oi = Some v -> value_of oj = Some w -> v = w /\ store s !! k = Some v) /\
  (forall v w, oi = Inited (Initialized v) -> oj = Inited (Initialized w) -> i = j).
Proof.
  intros Hc Hk Hr Hi Hj Hkt Hku Hdi Hdj. destruct (reach_coherent none async k ty m calls s Hc Hk Hr) as (_ & _ & HP & Ho).
  destruct (HP i t Hi Hkt) as [_ Hti], (HP j u Hj Hku) as [_ Htj]. rewrite Hdi in Hti. rewrite Hdj in Htj. split.
  - intros v w Hv Hw. specialize (Hti v Hv). specialize (Htj w Hw). split; [congruence|done].
  - intros v w -> ->. apply (Ho i j t u); try done; unfold initialized; [by rewrite Hdi|by rewrite Hdj].
Qed.

(** C30. Computations on a key are serialised: when the calls on a key are computing
    calls and nothing else changes the key, the entry given to a closure is still
    the cached one when its decision is applied, so that no update is lost. *)
Theorem compute_no_lost_update k m calls s i t seen :
  Forall (fun kc => call_ok (snd kc)) calls -> (forall c, (k, c) ∈ calls -> is_compute c = true) -> reach none async true (start m calls) s ->
  threads s !! i = Some t -> th_key t = k -> (th_pc t = AtCompute seen \/ exists op, th_pc t = AtApply seen op) ->
  store s !! k = seen.
Proof.
  intros Hc Hk Hr Hi Hkt Hp.
  destruct (reach_on_key none async k (fun c => is_compute c = true) current (start m calls) s) as (_ & _ & HP); try done.
  - by apply inv_start.
  - exact (allowed_start k (fun c => is_compute c = true) m calls Hk).
  - intros i' t' Hi' _. unfold current. by rewrite (proj1 (start_threads m calls i' t' Hi')).
  - apply current_step.
  - specialize (HP i t Hi Hkt). unfold current in HP. destruct Hp as [Ep|[op Ep]]; rewrite Ep in HP; exact HP.
Qed.
End claims.

(** ** Concrete executions *)
Module Witnesses.
Definition to_state (m : gmap Z Z) (calls : list (Z * @Call Z Z)) (is_ : list nat) : @State Z Z Z _ _ :=
  match run 0 false (start m calls) is_ with Some s => s | None => start m calls end.
Lemma run_reach (quiet : bool) s0 : forall is_ s s', reach 0 false quiet s0 s -> run (K := Z) (V := Z) (E := Z) 0 false s is_ = Some s' -> reach 0 false quiet s0 s'.
Proof.
  induction is_ as [|i is_ IH]; cbn; intros s s' Hr; [by intros [= <-]|]. destruct (step 0 false s i) as [s1|] eqn:Hs; [|done].
  apply IH. by eapply reach_step.
Qed.

(** Two initialisations of key 1, the second waiting for the first. *)
Definition never (v : Z) : bool := false.
Definition two_gets : list (Z * @Call Z Z) := [(1, GetWith (Some 10) never); (1, GetWith (Some 20) never)].
Definition wait_order : list nat := [0; 1; 0; 0; 0; 0; 0; 1]%nat.
Definition both_done : State := to_state ∅ two_gets wait_order.
Lemma two_gets_ok : Forall (fun kc => call_ok (snd kc)) two_gets.
Proof. by repeat constructor. Qed.
Lemma both_done_reach quiet : reach 0 false quiet (start ∅ two_gets) both_done.
Proof. apply (run_reach quiet _ wait_order (start ∅ two_gets)); [constructor|]. vm_compute. reflexivity. Qed.
Lemma two_gets_plain c : (1, c) ∈ two_gets -> plain_init TYPE_UNIT c.
Proof. intros [[= ->]|[[= ->]|[]%elem_of_nil]%elem_of_cons]%elem_of_cons; done. Qed.

Lemma init_single_flight_witness : exists t u,
  threads both_done !! 0%nat = Some t /\ th_pc t = Done (Inited (Initialized 10)) /\
  threads both_done !! 1%nat = Some u /\ th_pc u = Done (Inited (ReadExisting 10)) /\
  (forall i t o, threads both_done !! i = Some t -> th_pc t = Done o -> o <> Panicked UnexpectedState /\ o <> Panicked BadDowncast).
Proof.
  eexists _, _. split; [vm_compute; reflexivity|]. split; [reflexivity|]. split; [vm_compute; reflexivity|]. split; [reflexivity|].
  apply (init_single_flight 0 false ∅ two_gets both_done two_gets_ok (both_done_reach false)).
Defined.

Definition half_way : State := to_state ∅ two_gets [0; 1]%nat.
Lemma half_way_reach : reach 0 false false (start ∅ two_gets) half_way.
Proof. apply (run_reach false _ [0; 1]%nat (start ∅ two_gets)); [constructor|]. vm_compute. reflexivity. Qed.
Lemma calls_return_witness : exists i s', step 0 false half_way i = Some s'.
Proof.
  apply (proj1 (proj2 (calls_return 0 false ∅ two_gets half_way two_gets_ok half_way_reach))). eexists 1%nat, _. split; [vm_compute; reflexivity|]. reflexivity.
Defined.

Lemma init_coalesced_witness : store both_done !! 1 = Some 10.
Proof.
  assert (Hc := init_coalesced 0 false 1 TYPE_UNIT ∅ two_gets both_done 0 1 _ _ _ _ two_gets_ok two_gets_plain (both_done_reach true)
    eq_refl eq_refl eq_refl eq_refl eq_refl eq_refl).
  apply (proj1 Hc 10 10 eq_refl eq_refl).
Defined.

(** Two increments of a counter. *)
Definition incr (o : option Z) : option (Op Z) := Some (Put (default 0 o + 1)).
Definition two_incrs : list (Z * @Call Z Z) := [(1, ComputeWith incr); (1, ComputeWith incr)].
Definition incr_order : list nat := [0; 1; 0; 0; 0; 0; 0; 1; 1; 1; 1]%nat.
Definition second_applies : State := to_state {[1 := 5]} two_incrs incr_order.
Lemma compute_no_lost_update_witness : store second_applies !! 1 = Some 6.
Proof.
  apply (compute_no_lost_update 0 false 1 {[1 := 5]} two_incrs second_applies 1 (mkThread 1 (ComputeWith incr) (AtApply (Some 6) (Put 7)) 0 ReadyNone)).
  - by repeat constructor.
  - intros c [[= ->]|[[= ->]|[]%elem_of_nil]%elem_of_cons]%elem_of_cons; done.
  - apply (run_reach true _ incr_order (start {[1 := 5]} two_incrs)); [constructor|]. vm_compute. reflexivity.
  - vm_compute. reflexivity.
  - reflexivity.
  - right. by eexists.
Defined.

(** The first of two futures is dropped after it inserted its value; the second finds
    the waiter gone, retries, and returns that value. *)
Example dropped_then_found :
  exists s1 s2 s3 t, run 0 true (start (K := Z) (V := Z) (E := Z) ∅ two_gets) [0; 1; 0; 0]%nat = Some s1 /\
    abort s1 0%nat true = Some s2 /\ run 0 true s2 [0; 0; 1; 1; 1; 1; 1]%nat = Some s3 /\ threads s3 !! 1%nat = Some t /\
    th_pc t = Done (Inited (ReadExisting 10)) /\ waiters s3 = ∅.
Proof. eexists _, _, _, _. repeat (split; [vm_compute; reflexivity|]). vm_compute. reflexivity. Qed.
End Witnesses.

(** ** A flaw *)

(** [get_with] can run into its [unreachable!()]: it shares the waiter of a
    concurrent [try_get_with] on the same key whose error type is the unit type,
    and when that call fails it is handed the error. *)
Theorem get_with_unreachable_reached :
  let calls := [(1, TryGetWith TYPE_UNIT (Some (inr 0))); (1, GetWith (Some 10) Witnesses.never)] in
  exists s t r, Forall (fun kc => call_ok (snd kc)) calls /\
    run 0 false (start (K := Z) (V := Z) (E := Z) ∅ calls) [0; 1; 0; 0; 0; 0; 1]%nat = Some s /\
    threads s !! 1%nat = Some t /\ th_pc t = Done (Inited r) /\ finish_get_with (K := Z) None r = Fail Unreachable.
Proof.
  intros calls. eexists _, _, _. split; [by repeat constructor|]. split; [vm_compute; reflexivity|]. split; [reflexivity|]. split; reflexivity.
Qed.
