(* ===== verification/KeyLock.v ===== *)
(** The locks on keys (src/sync/key_lock.rs): a map from keys to reference-counted
    mutexes, whose entries are removed by the last user, as a machine of
    interleaved users.

    A step goes from one access of the shared state to the next.  The hash table's
    [insert_if_not_present] finds the bucket of a lock before it clones the lock,
    and its [remove_if] evaluates the condition before it replaces the bucket by a
    tombstone (src/cht/map/bucket.rs), so these are two steps each.  The value of a
    removed bucket is dropped by the epoch collector some time later, the step
    [collect]. *)
From S2P Require Import Prelude.

Section key_lock.
Context {K : Type} `{Countable K}.

(** A mutex, by its number. *)
Inductive LockPc :=
| AtKeyLock
| Found (l : nat)
| Have (l : nat)
| Holding (l : nat)
| AtDrop (l : nat)
| AtRemoveIf (l : nat)
| AtTombstone (l : nat) (found : nat)
| AtRelease (l : nat)
| Finished.

Record LockState := mkLockState {
  locks : gmap K nat;
  counts : gmap nat nat;
  held_by : gmap nat nat;
  garbage : list nat;
  next_lock : nat;
  users : list (K * LockPc)
}.
Implicit Type s : LockState.

Definition count s (l : nat) : nat := default 0%nat (counts s !! l).
Definition add_count s (l : nat) (up : bool) : gmap nat nat := <[l := (if up then S (count s l) else Nat.pred (count s l))]> (counts s).
Definition move s (i : nat) (key : K) (pc : LockPc) : list (K * LockPc) := <[i := (key, pc)]> (users s).

(** One step of user [i] of [key_lock], [lock], the drop of the guard and the drop of
    the [KeyLock]; [None] when it is blocked or finished. *)
Definition lock_step s (i : nat) : option LockState :=
  '(key, pc) ← users s !! i;
  match pc with
  | AtKeyLock =>
      match locks s !! key with
      | None =>
          let l := next_lock s in
          Some (mkLockState (<[key := l]> (locks s)) (<[l := 2%nat]> (counts s)) (held_by s) (garbage s) (S l) (move s i key (Have l)))
      | Some l => Some (mkLockState (locks s) (counts s) (held_by s) (garbage s) (next_lock s) (move s i key (Found l)))
      end
  | Found l => Some (mkLockState (locks s) (add_count s l true) (held_by s) (garbage s) (next_lock s) (move s i key (Have l)))
  | Have l =>
      match held_by s !! l with
      | Some _ => None
      | None => Some (mkLockState (locks s) (counts s) (<[l := i]> (held_by s)) (garbage s) (next_lock s) (move s i key (Holding l)))
      end
  | Holding l => Some (mkLockState (locks s) (counts s) (delete l (held_by s)) (garbage s) (next_lock s) (move s i key (AtDrop l)))
  | AtDrop l =>
      Some (mkLockState (locks s) (counts s) (held_by s) (garbage s) (next_lock s)
              (move s i key (if bool_decide (count s l <= 2)%nat then AtRemoveIf l else AtRelease l)))
  | AtRemoveIf l =>
      Some (mkLockState (locks s) (counts s) (held_by s) (garbage s) (next_lock s)
              (move s i key match locks s !! key with
                            | Some l' => if bool_decide (count s l' <= 2)%nat then AtTombstone l l' else AtRelease l
                            | None => AtRelease l
                            end))
  | AtTombstone l l' =>
      if bool_decide (locks s !! key = Some l')
      then Some (mkLockState (delete key (locks s)) (counts s) (held_by s) (l' :: garbage s) (next_lock s) (move s i key (AtRelease l)))
      else Some (mkLockState (locks s) (counts s) (held_by s) (garbage s) (next_lock s) (move s i key (AtRemoveIf l)))
  | AtRelease l => Some (mkLockState (locks s) (add_count s l false) (held_by s) (garbage s) (next_lock s) (move s i key Finished))
  | Finished => None
  end.
Definition collect s : LockState :=
  match garbage s with
  | [] => s
  | l :: g => mkLockState (locks s) (add_count s l false) (held_by s) g (next_lock s) (users s)
  end.

Definition lock_start (keys : list K) : LockState := mkLockState ∅ ∅ ∅ [] 0 ((fun k => (k, AtKeyLock)) <$> keys).
Fixpoint lock_run s (is_ : list nat) : option LockState :=
  match is_ with [] => Some s | i :: is_' => s' ← lock_step s i; lock_run s' is_' end.

Inductive lock_reach (s0 : LockState) : LockState -> Prop :=
| lr_refl : lock_reach s0 s0
| lr_step s i s' : lock_reach s0 s -> lock_step s i = Some s' -> lock_reach s0 s'
| lr_collect s : lock_reach s0 s -> lock_reach s0 (collect s).

Definition holding (u : K * LockPc) : option nat := match snd u with Holding l => Some l | _ => None end.

(** The table of holders is exact: a mutex is held by at most one user. *)
Definition holders_ok s : Prop := forall i l, (exists u, users s !! i = Some u /\ holding u = Some l) <-> held_by s !! l = Some i.

Lemma holders_move s i key pc pc' m c g n h : users s !! i = Some (key, pc) -> holders_ok s ->
  (forall j l, h !! l = Some j <-> (j = i /\ holding (key, pc') = Some l) \/ (j <> i /\ held_by s !! l = Some j)) ->
  holders_ok (mkLockState m c h g n (move s i key pc')).
Proof.
  intros Hi Hok Hh j l. cbn. unfold move. rewrite Hh. pose proof (lookup_lt_Some _ _ _ Hi) as Hlt. destruct (decide (i = j)) as [<-|Hne].
  - rewrite list_lookup_insert_eq by done. split.
    + intros (u & [= <-] & Hu). by left.
    + intros [[_ Hu]|[? _]]; [eauto|done].
  - rewrite list_lookup_insert_ne by done. rewrite (Hok j l). split; [by right|]. intros [[-> _]|[_ ?]]; done.
Qed.

Lemma holders_same s i key pc pc' m c g n : users s !! i = Some (key, pc) -> holders_ok s -> holding (key, pc) = None -> holding (key, pc') = None ->
  holders_ok (mkLockState m c (held_by s) g n (move s i key pc')).
Proof.
  intros Hi Hok H1 H2. apply (holders_move s i key pc); [done..|]. intros j l. rewrite H2. split.
  - intros Hj. right. split; [|done]. intros ->. apply Hok in Hj as (u & Hu & Hl). rewrite Hi in Hu. injection Hu as <-. congruence.
  - by intros [[_ ?]|[_ ?]].
Qed.

Lemma holders_step s i s' : holders_ok s -> lock_step s i = Some s' -> holders_ok s'.
Proof.
  intros Hok Hs. unfold lock_step in Hs. destruct (users s !! i) as [[key pc]|] eqn:Hi; [|done]. cbn [mbind option_bind] in Hs.
  assert (Hsame : forall pc' m c g n, holding (key, pc) = None -> holding (key, pc') = None -> holders_ok (mkLockState m c (held_by s) g n (move s i key pc'))).
  { intros pc' m c g n. by apply holders_same with (pc := pc). }
  destruct pc as [|l|l|l|l|l|l l'|l|].
  - destruct (locks s !! key); injection Hs as <-; by apply Hsame.
  - injection Hs as <-. by apply Hsame.
  - destruct (held_by s !! l) eqn:Hl; [done|]. injection Hs as <-. apply (holders_move s i key (Have l)); [done..|]. intros j l'. rewrite lookup_insert.
    case_decide as Hd; [subst l'; split; [intros [= <-]; by left|intros [[-> _]|[_ ?]]; congruence]|]. split.
    + intros Hj. right. split; [|done]. intros ->. apply Hok in Hj as (u & Hu & Hul). rewrite Hi in Hu. by injection Hu as <-.
    + intros [[_ [= ?]]|[_ ?]]; done.
  - injection Hs as <-. apply (holders_move s i key (Holding l)); [done..|]. intros j l'. rewrite lookup_delete.
    assert (Hil : held_by s !! l = Some i) by (apply Hok; eauto). case_decide as Hd.
    + subst l'. split; [done|]. intros [[_ ?]|[Hj ?]]; [done|congruence].
    + split; [|intros [[_ ?]|[_ ?]]; done]. intros Hj. right. split; [|done]. intros ->. apply Hok in Hj as (u & Hu & Hul). rewrite Hi in Hu.
      injection Hu as <-. by injection Hul.
  - injection Hs as <-. apply Hsame; [done|]. by case_bool_decide.
  - injection Hs as <-. apply Hsame; [done|]. destruct (locks s !! key); [by case_bool_decide|done].
  - case_bool_decide; injection Hs as <-; by apply Hsame.
  - injection Hs as <-. by apply Hsame.
  - done.
Qed.

Lemma holders_collect s : holders_ok s -> holders_ok (collect s).
Proof. intros Hok. unfold collect. by destruct (garbage s). Qed.

Lemma holders_start (keys : list K) : holders_ok (lock_start keys).
Proof.
  intros i l. cbn. rewrite lookup_empty. split; [|done]. intros (u & Hu & Hl). rewrite list_lookup_fmap in Hu. destruct (keys !! i); [|done].
  by injection Hu as <-.
Qed.

(** A mutex of the map is held by one user at a time. *)
Lemma mutex_exclusive keys s i j ui uj l : lock_reach (lock_start keys) s ->
  users s !! i = Some ui -> users s !! j = Some uj -> holding ui = Some l -> holding uj = Some l -> i = j.
Proof.
  intros Hr Hi Hj Hl Hl'. assert (Hok : holders_ok s).
  { clear -Hr. induction Hr as [|s i s' _ IH Hs|s _ IH]; [apply holders_start|by eapply holders_step|by apply holders_collect]. }
  assert (H1 : held_by s !! l = Some i) by (apply Hok; eauto). assert (H2 : held_by s !! l = Some j) by (apply Hok; eauto). congruence.
Qed.
End key_lock.

(** C36. The lock of a key does not exclude: an execution in which two users hold
    locks of the same key.  The first user's [drop] finds the count at 2 and
    removes the map's entry while the second has found the bucket and not yet
    cloned the lock; the third gets a new lock. *)
Theorem key_lock_not_exclusive :
  exists s, lock_run (lock_start [1; 1; 1]) [0; 0; 0; 0; 0; 1; 0; 1; 1; 2; 2]%nat = Some s /\
    users s !! 1%nat = Some (1, Holding 0) /\ users s !! 2%nat = Some (1, Holding 1).
Proof. eexists. split; [vm_compute; reflexivity|]. split; reflexivity. Qed.

(** A single user leaves no trace. *)
Example lock_alone : exists s, lock_run (lock_start [1]) [0; 0; 0; 0; 0; 0; 0]%nat = Some s /\ locks s = ∅ /\ held_by s = ∅ /\
  counts (collect s) !! 0%nat = Some 0%nat.
Proof. eexists. split; [vm_compute; reflexivity|]. split; [done|]. split; [done|]. reflexivity. Qed.
