(* ===== verification/PredicateRace.v ===== *)
(** The registry of predicates (src/sync/invalidator.rs, src/future/invalidator.rs)
    shared by threads that register predicates and a maintenance run that removes
    the finished ones.

    The registry and its [is_empty] flag are two shared objects, and each step of a
    thread accesses one of them once: [register_predicate] inserts and then lowers
    the flag, [remove_predicates] and [remove_predicates_registered_before] remove,
    look whether the map is empty, and then raise the flag. *)
From S2P Require Import Prelude Common Time EntryInfo Concurrent Invalidator Inner BaseCache.

Section registry.
Context {K V : Type}.
Implicit Types (inv : Invalidator K V).

(** A registration draws its ids from [uuid]; a removal has the ids left to remove. *)
Inductive RegistryPc :=
| AtContains (tries : nat)
| AtInsert (id : string)
| AtLower (id : string)
| Registered (id : string)
| RegisterPanicked
| AtCollect (ts : Instant)
| AtRemove (ids : list string)
| AtIsEmpty
| AtRaise
| Removed.

Record RegistryThread := mkRegistryThread {
  rt_uuid : nat -> string;
  rt_pred : K -> V -> bool;
  rt_at : Instant;
  rt_pc : RegistryPc
}.
Implicit Type t : RegistryThread.

Definition goto t pc : RegistryThread := mkRegistryThread (rt_uuid t) (rt_pred t) (rt_at t) pc.
Definition with_predicates inv m : Invalidator K V := mkInvalidator m (inv_is_empty inv) (scan_context inv).
Definition with_flag inv b : Invalidator K V := mkInvalidator (predicates inv) b (scan_context inv).

(** One access of the shared state; [None] when the thread has ended. *)
Definition registry_step inv t : option (Invalidator K V * RegistryPc) :=
  match rt_pc t with
  | AtContains tries =>
      if bool_decide (tries < MAX_RETRY)%nat then
        let id := rt_uuid t tries in
        Some (inv, if bool_decide (is_Some (predicates inv !! id)) then AtContains (S tries) else AtInsert id)
      else Some (inv, RegisterPanicked)
  | AtInsert id => Some (with_predicates inv (<[id := mkPredicate id (rt_pred t) (rt_at t)]> (predicates inv)), AtLower id)
  | AtLower id => Some (with_flag inv false, Registered id)
  | AtCollect ts =>
      Some (inv, AtRemove (map fst (List.filter (fun '(_, p) => registered_at p <=? ts) (map_to_list (predicates inv)))))
  | AtRemove [] => Some (inv, AtIsEmpty)
  | AtRemove (id :: ids) => Some (with_predicates inv (delete id (predicates inv)), AtRemove ids)
  | AtIsEmpty => Some (inv, if map_is_empty (predicates inv) then AtRaise else Removed)
  | AtRaise => Some (with_flag inv true, Removed)
  | Registered _ | RegisterPanicked | Removed => None
  end.

(** The threads in any order. *)
Fixpoint registry_run inv (ts : list RegistryThread) (order : list nat) : option (Invalidator K V * list RegistryThread) :=
  match order with
  | [] => Some (inv, ts)
  | i :: order =>
      t ← ts !! i;
      '(inv, pc) ← registry_step inv t;
      registry_run inv (<[i := goto t pc]> ts) order
  end.

(** ** A thread alone *)

Inductive alone : Invalidator K V -> RegistryThread -> Invalidator K V -> RegistryThread -> Prop :=
| alone_refl inv t : alone inv t inv t
| alone_step inv t inv1 pc1 inv' t' :
    registry_step inv t = Some (inv1, pc1) -> alone inv1 (goto t pc1) inv' t' -> alone inv t inv' t'.

Lemma alone_goto inv t inv1 pc1 inv' pc' :
  registry_step inv t = Some (inv1, pc1) -> alone inv1 (goto t pc1) inv' (goto (goto t pc1) pc') -> alone inv t inv' (goto t pc').
Proof. intros E A. by eapply alone_step. Qed.

(** An uninterrupted registration is [register_predicate], its panic included. *)
Lemma register_loop_alone inv t : forall fuel tries, (tries + fuel = MAX_RETRY)%nat -> rt_pc t = AtContains tries ->
  match register_loop fuel tries (rt_uuid t) inv (rt_pred t) (rt_at t) with
  | Ok (inv', id) => alone inv t inv' (goto t (Registered id))
  | Fail _ => alone inv t inv (goto t RegisterPanicked)
  end.
Proof.
  intros fuel. revert t. induction fuel as [|fuel IH]; intros t tries Hf Hpc.
  - eapply alone_step; [unfold registry_step; rewrite Hpc, bool_decide_eq_false_2 by lia; reflexivity|apply alone_refl].
  - cbn [register_loop]. cbv zeta.
    assert (E : registry_step inv t = Some (inv, if bool_decide (is_Some (predicates inv !! rt_uuid t tries)) then AtContains (S tries) else AtInsert (rt_uuid t tries)))
      by (unfold registry_step; rewrite Hpc, bool_decide_eq_true_2 by lia; done).
    case_bool_decide as Hd.
    + specialize (IH (goto t (AtContains (S tries))) (S tries) ltac:(lia) eq_refl). cbn [goto rt_uuid rt_pred rt_at] in IH.
      destruct (register_loop fuel (S tries) _ _ _ _) as [[inv' id]|]; by eapply alone_step.
    + eapply alone_step; [exact E|]. do 2 (eapply alone_step; [reflexivity|]). apply alone_refl.
Qed.

Lemma remove_loop_alone ids : forall inv t, rt_pc t = AtRemove ids ->
  alone inv t (with_predicates inv (foldl (fun m id => delete id m) (predicates inv) ids)) (goto t AtIsEmpty).
Proof.
  induction ids as [|id ids IH]; intros inv t Hpc.
  - eapply alone_step; [unfold registry_step; by rewrite Hpc|]. destruct inv. apply alone_refl.
  - eapply alone_step; [unfold registry_step; by rewrite Hpc|]. exact (IH (with_predicates inv (delete id (predicates inv))) (goto t (AtRemove ids)) eq_refl).
Qed.

Lemma alone_trans inv1 t1 inv2 t2 inv3 t3 : alone inv1 t1 inv2 t2 -> alone inv2 t2 inv3 t3 -> alone inv1 t1 inv3 t3.
Proof. induction 1; [done|]. intros. eapply alone_step; eauto. Qed.

(** An uninterrupted removal is [remove_ids]. *)
Lemma remove_ids_alone inv t ids : rt_pc t = AtRemove ids -> alone inv t (remove_ids inv ids) (goto t Removed).
Proof.
  intros Hpc. eapply alone_trans; [by apply remove_loop_alone|]. unfold remove_ids. set (m := foldl _ _ _).
  eapply alone_step; [reflexivity|]. cbn [predicates with_predicates]. destruct (map_is_empty m); [|apply alone_refl].
  eapply alone_step; [reflexivity|]. apply alone_refl.
Qed.
End registry.
Arguments RegistryThread : clear implicits.

(** Without interference the steps are the operations of [Invalidator]: a
    registration is [register_predicate] with its thousand tries and its panic, and
    the removal of old predicates is [remove_predicates_registered_before]. *)
Theorem registry_alone {K V} (inv : Invalidator K V) (uuid : nat -> string) (f : K -> V -> bool) (now ts : Instant) :
  match register_predicate uuid inv f now with
  | Ok (inv', id) => alone inv (mkRegistryThread uuid f now (AtContains 0)) inv' (mkRegistryThread uuid f now (Registered id))
  | Fail _ => alone inv (mkRegistryThread uuid f now (AtContains 0)) inv (mkRegistryThread uuid f now RegisterPanicked)
  end /\
  alone inv (mkRegistryThread uuid f now (AtCollect ts)) (remove_predicates_registered_before inv ts) (mkRegistryThread uuid f now Removed).
Proof.
  split; [exact (register_loop_alone inv (mkRegistryThread uuid f now (AtContains 0)) MAX_RETRY 0 eq_refl eq_refl)|].
  eapply alone_step; [reflexivity|]. exact (remove_ids_alone inv (goto (mkRegistryThread uuid f now (AtCollect ts)) _) _ eq_refl).
Qed.

(** C38. A predicate can be lost.  A removal finds the registry empty; before it raises
    the flag, [invalidate_entries_if] registers a predicate, lowers the flag and
    returns its id.  Then the flag is raised over a registry that holds the
    predicate: lookups do not apply it ([is_empty] is true), nor does the
    maintenance scan for it, until another registration lowers the flag. *)
Theorem predicate_lost {K V} `{Countable K} (id : string) (f : K -> V -> bool) (now ts : Instant) (uuid : nat -> string) :
  exists inv t1 t2,
    registry_run new_invalidator [mkRegistryThread (fun _ => id) f now (AtContains 0); mkRegistryThread uuid f ts (AtRemove [])]
      [1; 1; 0; 0; 0; 1]%nat = Some (inv, [t1; t2]) /\
    rt_pc t1 = Registered id /\ rt_pc t2 = Removed /\
    predicates inv = {[ id := mkPredicate id f now ]} /\ inv_is_empty inv = true /\
    forall (s : Inner K V) key ve ei, invalidator s = Some inv -> is_invalidated_entry s key ve ei = false.
Proof.
  eexists _, _, _. split; [reflexivity|]. do 4 (split; [done|]). intros s key ve ei Hi. unfold is_invalidated_entry. by rewrite Hi.
Qed.
