(* ===== verification/MiniArc.v ===== *)
(** The reference counter of the entries (src/common/concurrent/arc.rs, [MiniArc]):
    threads that hold pointers to one allocation, clone them, read through them and
    drop them, as a machine of interleaved steps.

    A step is one access of the allocation.  [clone] adds one to the counter and
    then looks at what it was; [drop] subtracts one, and the thread that found one
    frees the allocation.  The counter has 32 bits and wraps around; accesses are
    sequentially consistent.  An access after the allocation is freed is a fault. *)
From S2P Require Import Prelude.

Definition MAX_REFCOUNT : Z := I32_MAX.

(** A pointer, between two accesses: held; in [clone], with what the counter was; in
    [drop], about to free; dropped. *)
Inductive ArcPc := ArcHeld | InClone (old : Z) | InFree | ArcGone.
#[export] Instance arc_pc_eq_dec : EqDecision ArcPc.
Proof. solve_decision. Defined.

Record ArcState := mkArcState { ref_count : Z; allocated : bool; handles : list ArcPc; process_aborted : bool }.

(** [MiniArc::new] *)
Definition arc_new : ArcState := mkArcState 1 true [ArcHeld] false.

Inductive ArcOp := OpClone | OpDrop | OpCount | OpDeref.

Section ops.
Implicit Type s : ArcState.

(** An access of the allocation. *)
Definition touch {A} s (a : A) : res A := if allocated s then Ok a else Fail Dangling.
Definition with_handle s (i : nat) (pc : ArcPc) : list ArcPc := <[i := pc]> (handles s).

(** The access that begins an operation on pointer [i], or the next one of the
    operation it is in; the number is what [count] returns. *)
Definition arc_step s (i : nat) (op : ArcOp) : res (ArcState * option Z) :=
  if process_aborted s then Ok (s, None)
  else
    match handles s !! i with
    | Some ArcHeld =>
        match op with
        | OpClone =>
            old ← touch s (ref_count s);
            Ok (mkArcState (wrapping_add 32 old 1) (allocated s) (with_handle s i (InClone old)) false, None)
        | OpDrop =>
            old ← touch s (ref_count s);
            Ok (mkArcState (wrapping_sub 32 old 1) (allocated s) (with_handle s i (if old =? 1 then InFree else ArcGone)) false, None)
        | OpCount => n ← touch s (ref_count s); Ok (s, Some n)
        | OpDeref => _ ← touch s tt; Ok (s, None)
        end
    | Some (InClone old) =>
        if MAX_REFCOUNT <? old then Ok (mkArcState (ref_count s) (allocated s) (handles s) true, None)
        else Ok (mkArcState (ref_count s) (allocated s) (with_handle s i ArcHeld ++ [ArcHeld]) false, None)
    | Some InFree =>
        _ ← touch s (ref_count s);
        Ok (mkArcState (ref_count s) false (with_handle s i ArcGone) false, None)
    | Some ArcGone | None => Ok (s, None)
    end.
End ops.

(** ** The count *)

(** The references a pointer stands for: one in [clone] has made a second already. *)
Definition refs (pc : ArcPc) : nat := match pc with ArcHeld => 1 | InClone _ => 2 | InFree | ArcGone => 0 end.
(** In a [clone] that will be refused. *)
Definition refused (pc : ArcPc) : nat := match pc with InClone old => if MAX_REFCOUNT <? old then 1 else 0 | _ => 0 end.
Definition freeing (pc : ArcPc) : nat := match pc with InFree => 1 | _ => 0 end.
Definition in_clone (pc : ArcPc) : nat := match pc with InClone _ => 1 | _ => 0 end.
Notation total h s := (sum_list_with h (handles s)).

(** While a pointer is left the counter is the number of references, and the
    allocation is there; when none is left exactly one thread frees it. *)
Record arc_inv (s : ArcState) : Prop := {
  ai_count : ref_count s = Z.of_nat (total refs s);
  ai_limit : ref_count s <= MAX_REFCOUNT + 1 + Z.of_nat (total refused s);
  ai_free : (if allocated s then if decide (total refs s = 0) then total freeing s = 1 else total freeing s = 0
             else total refs s = 0 /\ total freeing s = 0)%nat
}.

(** Fewer than [2^31 - 1] threads are between the two steps of a [clone]. *)
Definition few_clones (s : ArcState) : Prop := Z.of_nat (total in_clone s) < 2 ^ 31 - 1.

Inductive arc_reach : ArcState -> Prop :=
| arc_start : arc_reach arc_new
| arc_next s i op s' o : arc_reach s -> few_clones s -> arc_step s i op = Ok (s', o) -> arc_reach s'.

Lemma sum_app {A} (h : A -> nat) (l l' : list A) : sum_list_with h (l ++ l') = (sum_list_with h l + sum_list_with h l')%nat.
Proof. induction l as [|x l IH]; cbn; [done|]. rewrite IH. lia. Qed.
Lemma sum_elem {A} (h : A -> nat) (l : list A) i x : l !! i = Some x -> (h x <= sum_list_with h l)%nat.
Proof. revert i. induction l as [|y l IH]; intros [|i] Hi; [done|done|injection Hi as ->; cbn; lia|]. specialize (IH i Hi). cbn. lia. Qed.
Lemma refused_le s : (total refused s <= total in_clone s)%nat.
Proof. induction (handles s) as [|pc l IH]; cbn; [done|]. destruct pc; cbn; try lia. destruct (MAX_REFCOUNT <? old); lia. Qed.

(** What a change of one pointer does to the sums. *)
Lemma totals_insert s i pc pc' : handles s !! i = Some pc ->
  (sum_list_with refs (with_handle s i pc') + refs pc = total refs s + refs pc' /\
   sum_list_with refused (with_handle s i pc') + refused pc = total refused s + refused pc' /\
   sum_list_with freeing (with_handle s i pc') + freeing pc = total freeing s + freeing pc')%nat.
Proof. intros Hi. repeat split; by apply sum_insert. Qed.

Lemma arc_step_ok s i op : arc_inv s -> few_clones s -> exists s' o, arc_step s i op = Ok (s', o) /\ arc_inv s'.
Proof.
  intros I Hfew. pose proof I as [Hc Hl Hf]. unfold arc_step. destruct (process_aborted s); [by exists s, None|].
  destruct (handles s !! i) as [pc|] eqn:Hi; [|by exists s, None].
  pose proof (sum_elem refs _ _ _ Hi) as Hr. pose proof (sum_elem freeing _ _ _ Hi) as Hfr. pose proof (refused_le s) as Hle.
  assert (Ha : (refs pc = 0 /\ freeing pc = 0)%nat \/ allocated s = true).
  { destruct (allocated s); [by right|]. left. lia. }
  assert (Hbig : MAX_REFCOUNT = 2 ^ 31 - 1) by done. unfold few_clones in Hfew. set (N := total refs s) in *.
  destruct pc as [|old| |]; cbn [refs freeing] in *.
  - destruct Ha as [[? _]|Ha]; [lia|]. unfold touch. rewrite Ha in *. cbn [mbind res_bind]. rewrite decide_False in Hf by lia.
    destruct op; [| |by eexists _, _|by eexists _, _]; eexists _, _; (split; [reflexivity|]).
    + destruct (totals_insert s i _ (InClone (ref_count s)) Hi) as (T1 & T2 & T3). cbn [refs refused freeing] in *. fold N in T1.
      assert (Hw : wrapping_add 32 (ref_count s) 1 = ref_count s + 1) by (apply Z.mod_small; lia). rewrite Hw.
      split; cbn [ref_count allocated handles]; [lia|destruct (Z.ltb_spec MAX_REFCOUNT (ref_count s)); lia|rewrite decide_False; lia].
    + destruct (totals_insert s i _ (if ref_count s =? 1 then InFree else ArcGone) Hi) as (T1 & T2 & T3). fold N in T1.
      assert (Hw : wrapping_sub 32 (ref_count s) 1 = ref_count s - 1) by (apply Z.mod_small; lia). rewrite Hw.
      destruct (Z.eqb_spec (ref_count s) 1); cbn [refs refused freeing] in *; split; cbn [ref_count allocated handles]; try lia.
      * rewrite decide_True; lia.
      * rewrite decide_False; lia.
  - destruct (Z.ltb_spec MAX_REFCOUNT old) as [Hlt|Hge]; eexists _, _; (split; [reflexivity|]); [by destruct I; split|].
    destruct (totals_insert s i _ ArcHeld Hi) as (T1 & T2 & T3). cbn [refs refused freeing] in *. fold N in T1.
    rewrite (proj2 (Z.ltb_ge _ _) Hge) in T2.
    split; cbn [ref_count allocated handles]; rewrite !sum_app; cbn [sum_list_with refs refused freeing]; [lia|lia|].
    destruct (allocated s); [|lia]. rewrite decide_False in Hf by lia. rewrite decide_False; lia.
  - destruct Ha as [[_ ?]|Ha]; [lia|]. unfold touch. rewrite Ha in *. cbn [mbind res_bind]. eexists _, _. split; [reflexivity|].
    destruct (totals_insert s i _ ArcGone Hi) as (T1 & T2 & T3). cbn [refs refused freeing] in *. fold N in T1.
    destruct (decide (N = 0%nat)) as [Hz|]; [|lia]. split; cbn [ref_count allocated handles]; lia.
  - by exists s, None.
Qed.

Lemma arc_reach_inv s : arc_reach s -> arc_inv s.
Proof.
  induction 1 as [|s i op s' o _ IH Hfew E]; [by split; vm_compute|].
  destruct (arc_step_ok s i op IH Hfew) as (s2 & o2 & E2 & I2). rewrite E in E2. by injection E2 as <- <-.
Qed.

Lemma sum_zero {A} (h : A -> nat) (l : list A) : sum_list_with h l = 0%nat <-> forall x, x ∈ l -> h x = 0%nat.
Proof.
  induction l as [|x l IH]; cbn; [split; [by intros _ x ?%elem_of_nil|done]|]. rewrite Nat.eq_add_0, IH. split.
  - by intros [Hx Hl] y [->|Hy]%elem_of_cons; auto.
  - intros Hl. split; [apply Hl; left|]. intros y Hy. apply Hl. by right.
Qed.

(** C22. The reference counting is safe and leaks nothing: whatever the
    interleaving of clones, reads and drops, no access comes after the allocation
    is freed and it is freed once; it is freed exactly when every pointer is
    dropped; and outside of a [clone] the counter is the number of pointers, as
    long as fewer than [2^31 - 1] threads are in a [clone] at once. *)
Theorem arc_safe s i op :
  arc_reach s -> few_clones s ->
  (exists s' o, arc_step s i op = Ok (s', o)) /\
  (allocated s = false <-> forall pc, pc ∈ handles s -> pc = ArcGone) /\
  ((forall pc old, pc ∈ handles s -> pc <> InClone old) -> ref_count s = Z.of_nat (length (filter (fun pc => pc = ArcHeld) (handles s)))).
Proof.
  intros HR Hfew. pose proof (arc_reach_inv s HR) as I. split; [|split].
  - destruct (arc_step_ok s i op I Hfew) as (s' & o & E & _). eauto.
  - destruct I as [Hc _ Hf]. split.
    + intros Ha. rewrite Ha in Hf. destruct Hf as [H1 H2]. intros pc Hpc. rewrite sum_zero in H1, H2. specialize (H1 pc Hpc). specialize (H2 pc Hpc). by destruct pc.
    + intros Hg. destruct (allocated s); [|done]. assert (Hz : forall h, h ArcGone = 0%nat -> total h s = 0%nat).
      { intros h Hh. apply sum_zero. intros pc Hpc. by rewrite (Hg pc Hpc). }
      rewrite (Hz refs), (Hz freeing) in Hf by done. done.
  - intros Hno. rewrite (ai_count _ I). f_equal. clear -Hno. induction (handles s) as [|pc l IH]; [done|].
    cbn [sum_list_with]. rewrite IH by (intros p o Hp; apply Hno; by right). rewrite filter_cons.
    destruct pc; [done| |done|done]. by destruct (Hno (InClone old) old ltac:(left)).
Qed.

(** Two pointers, of which one is dropped. *)
Definition one_left : ArcState := mkArcState 1 true [ArcGone; ArcHeld] false.
Lemma one_left_reach : arc_reach one_left.
Proof.
  assert (H1 : arc_reach (mkArcState 2 true [InClone 1] false)) by (eapply (arc_next arc_new 0 OpClone); [constructor|done|reflexivity]).
  assert (H2 : arc_reach (mkArcState 2 true [ArcHeld; ArcHeld] false)) by (eapply (arc_next _ 0 OpClone); [exact H1|done|reflexivity]).
  eapply (arc_next _ 0 OpDrop); [exact H2|done|reflexivity].
Qed.
Lemma arc_safe_witness : exists s' o, arc_step one_left 1 OpDrop = Ok (s', o).
Proof. exact (proj1 (arc_safe one_left 1 OpDrop one_left_reach ltac:(vm_compute; reflexivity))). Defined.
