(* ===== verification/DebugCounters.v ===== *)
(** The global counters of the debug statistics (common/concurrent/debug_counters.rs):
    threads that count creations and drops, each [fetch_add] a step, and a thread that
    reads the counters one after the other. *)
From S2P Require Import Prelude.

Inductive DebugCell :=
| bucket_array_creation_count | bucket_array_allocation_bytes | bucket_array_drop_count | bucket_array_release_bytes
| bucket_creation_count | bucket_drop_count
| value_entry_creation_count | value_entry_drop_count
| entry_info_creation_count | entry_info_drop_count
| deq_node_creation_count | deq_node_drop_count.
#[global] Instance DebugCell_eq_dec : EqDecision DebugCell.
Proof. solve_decision. Defined.

Definition COUNTERS : DebugCell -> Z := fun _ => 0.
Definition fetch_add (c : DebugCell -> Z) (x : DebugCell) (n : Z) : DebugCell -> Z :=
  fun y => if decide (y = x) then wrapping_add 64 (c y) n else c y.

Inductive DebugCall :=
| bucket_array_created (byte_size : Z) | bucket_array_dropped (byte_size : Z)
| bucket_created | bucket_dropped
| value_entry_created | value_entry_dropped
| entry_info_created | entry_info_dropped
| deq_node_created | deq_node_dropped.
(** The additions of a call, in order. *)
Definition call_adds (c : DebugCall) : list (DebugCell * Z) :=
  match c with
  | bucket_array_created byte_size => [(bucket_array_creation_count, 1); (bucket_array_allocation_bytes, byte_size)]
  | bucket_array_dropped byte_size => [(bucket_array_drop_count, 1); (bucket_array_release_bytes, byte_size)]
  | bucket_created => [(bucket_creation_count, 1)]
  | bucket_dropped => [(bucket_drop_count, 1)]
  | value_entry_created => [(value_entry_creation_count, 1)]
  | value_entry_dropped => [(value_entry_drop_count, 1)]
  | entry_info_created => [(entry_info_creation_count, 1)]
  | entry_info_dropped => [(entry_info_drop_count, 1)]
  | deq_node_created => [(deq_node_creation_count, 1)]
  | deq_node_dropped => [(deq_node_drop_count, 1)]
  end.
(** [current] loads the counters in this order. *)
Definition current_loads : list DebugCell :=
  [bucket_array_creation_count; bucket_array_allocation_bytes; bucket_array_drop_count; bucket_array_release_bytes;
   bucket_creation_count; bucket_drop_count; value_entry_creation_count; value_entry_drop_count;
   entry_info_creation_count; entry_info_drop_count; deq_node_creation_count; deq_node_drop_count].

(** The counters, what each call that was begun has still to add, and what [current]
    has loaded. *)
Record DebugState := mkDebugState { counters : DebugCell -> Z; callers : list (list (DebugCell * Z)); loaded : list (DebugCell * Z) }.
Inductive DebugAct := DebugBegin (c : DebugCall) | DebugAdd (i : nat) | DebugLoad.

Definition debug_act (s : DebugState) (a : DebugAct) : DebugState :=
  match a with
  | DebugBegin c => mkDebugState (counters s) (callers s ++ [call_adds c]) (loaded s)
  | DebugAdd i =>
      match callers s !! i with
      | Some ((x, n) :: rest) => mkDebugState (fetch_add (counters s) x n) (<[i := rest]> (callers s)) (loaded s)
      | _ => s
      end
  | DebugLoad =>
      match current_loads !! length (loaded s) with
      | Some x => mkDebugState (counters s) (callers s) (loaded s ++ [(x, counters s x)])
      | None => s
      end
  end.
Definition debug_start : DebugState := mkDebugState COUNTERS [] [].
Definition debug_run (acts : list DebugAct) : DebugState := foldl debug_act debug_start acts.

(** ** What the counters count *)

Definition sum_of (x : DebugCell) (l : list (DebugCell * Z)) : Z := foldr (fun e acc => (if decide (e.1 = x) then e.2 else 0) + acc) 0 l.
Lemma sum_cons x y n l : sum_of x ((y, n) :: l) = (if decide (y = x) then n else 0) + sum_of x l.
Proof. done. Qed.
#[local] Arguments sum_of _ _ : simpl never.
Definition pending (x : DebugCell) (s : DebugState) : Z := foldr (fun l acc => sum_of x l + acc) 0 (callers s).
(** What the calls begun so far add to [x] in all. *)
Definition begun (x : DebugCell) (acts : list DebugAct) : Z :=
  foldr (fun a acc => match a with DebugBegin c => sum_of x (call_adds c) | _ => 0 end + acc) 0 acts.

Lemma begun_snoc x acts a : begun x (acts ++ [a]) = begun x acts + match a with DebugBegin c => sum_of x (call_adds c) | _ => 0 end.
Proof. unfold begun. rewrite foldr_app. cbn. set (d := match a with DebugBegin c => _ | _ => 0 end). clearbody d. induction acts as [|b acts IH]; cbn; lia. Qed.
Lemma pending_app x (ls : list (list (DebugCell * Z))) l :
  foldr (fun l acc => sum_of x l + acc) 0 (ls ++ [l]) = foldr (fun l acc => sum_of x l + acc) 0 ls + sum_of x l.
Proof. induction ls as [|l' ls IH]; cbn; lia. Qed.
Lemma pending_insert x (ls : list (list (DebugCell * Z))) i l l' : ls !! i = Some l ->
  foldr (fun l acc => sum_of x l + acc) 0 (<[i := l']> ls) = foldr (fun l acc => sum_of x l + acc) 0 ls - sum_of x l + sum_of x l'.
Proof.
  revert i. induction ls as [|l0 ls IH]; intros [|i] Hi; try done; cbn in *; [injection Hi as ->; lia|]. etransitivity; [exact (f_equal (Z.add (sum_of x l0)) (IH i Hi))|lia].
Qed.

Lemma run_counts x acts : (counters (debug_run acts) x + pending x (debug_run acts)) mod 2 ^ 64 = begun x acts mod 2 ^ 64.
Proof.
  induction acts as [|a acts IH] using rev_ind; [done|]. unfold debug_run in *. rewrite foldl_app, begun_snoc. cbn [foldl].
  set (s := foldl debug_act debug_start acts) in *. rewrite <- (Z.add_mod_idemp_l (begun x acts)), <- IH, Z.add_mod_idemp_l by lia. destruct a as [c|i|]; unfold debug_act, pending in *.
  - cbn. rewrite pending_app. f_equal. lia.
  - rewrite Z.add_0_r. destruct (callers s !! i) as [[|[y n] rest]|] eqn:Hi; try done. cbn [counters callers]. rewrite (pending_insert x _ _ _ rest Hi).
    rewrite sum_cons. unfold fetch_add, wrapping_add, wrap. destruct (decide (x = y)) as [->|Hne].
    + rewrite decide_True by done. rewrite Z.add_mod_idemp_l by lia. f_equal. lia.
    + rewrite decide_False by congruence. f_equal. lia.
  - rewrite Z.add_0_r. by destruct (current_loads !! _).
Qed.

(** When every call that was begun has ended, each counter is the sum of what they
    counted, however their additions were interleaved (modulo the width). *)
Theorem debug_counters_exact x acts : Forall (fun l => l = []) (callers (debug_run acts)) ->
  counters (debug_run acts) x mod 2 ^ 64 = begun x acts mod 2 ^ 64.
Proof.
  intros Hall. rewrite <- run_counts. assert (E : pending x (debug_run acts) = 0); [|by rewrite E, Z.add_0_r].
  unfold pending. by induction Hall as [|l ls -> _ IH].
Qed.

(** A snapshot is not a state of the counters: [current] loads the creations before the
    drops, and a node that is made and dropped in between shows as a drop only. *)
Theorem snapshot_drops_lead : exists acts made dropped,
  length (loaded (debug_run acts)) = length current_loads /\
  (deq_node_creation_count, made) ∈ loaded (debug_run acts) /\ (deq_node_drop_count, dropped) ∈ loaded (debug_run acts) /\ made < dropped.
Proof.
  exists (replicate 11 DebugLoad ++ [DebugBegin deq_node_created; DebugAdd 0; DebugBegin deq_node_dropped; DebugAdd 1; DebugLoad]), 0, 1.
  split; [done|]. split; [|split; [|lia]]; vm_compute; repeat constructor.
Qed.
