(* ===== verification/SegmentedCache.v ===== *)
(** The segmented cache (src/sync/segment.rs): a power of two of caches, each with
    its share of the capacity, among which the high bits of the hash choose.  A
    call on a key goes to one segment; a call on the whole cache goes through the
    segments in order. *)
From Stdlib Require Import String.
From S2P Require Import Prelude Common Time Housekeeper EntryInfo Concurrent Policy Invalidator Inner BaseCache InnerInv Maintenance Operations System.
From S2P Require Import HashTableRefines Guarantees CacheIter.

(** [(n as f64 / segments as f64).ceil()]: exact for capacities up to [2^53], as the
    number of segments is a power of two. *)
Definition ceil_div (n a : Z) : Z := - (- n / a).

(** [Inner] of src/sync/segment.rs, over the states [S] of its segments. *)
Record SegmentedOf (S : Type) := mkSegmented { desired_capacity : option Z; segments : list S; sc_shift : Z }.
Arguments mkSegmented {S} _ _ _.
Arguments desired_capacity {S} _.
Arguments segments {S} _.
Arguments sc_shift {S} _.
Notation Segmented K V := (SegmentedOf (Sys (K := K) (V := V))).

Definition select_index {S} (sc : SegmentedOf S) (hash : Z) : nat :=
  if sc_shift sc =? 64 then O else Z.to_nat (Z.shiftr hash (sc_shift sc)).

Section segmented.
Context {K V : Type} `{Countable K}.
Variable cfg : Config K V.
Implicit Type sc : Segmented K V.

(** The configuration of each segment. *)
Definition segment_config (actual_num_segments : Z) : Config K V :=
  mkConfig ((fun n => ceil_div n actual_num_segments) <$> max_capacity cfg) (weigher cfg) (eviction_policy cfg) (expiration_policy cfg)
    (hasher cfg) (clock_origin cfg) (overflow_checks cfg).

(** [Inner::new]; [make i] creates segment [i]. *)
Definition new_segmented {S} (num_segments : Z) (make : nat -> res S) : res (SegmentedOf S) :=
  _ ← assert_that (0 <? num_segments);
  actual_num_segments ← checked_next_power_of_two 64 num_segments;
  segs ← foldM (fun acc i => c ← make i; Ok (acc ++ [c])) [] (seq 0 (Z.to_nat actual_num_segments));
  Ok (mkSegmented (max_capacity cfg) segs (64 - Z.log2 actual_num_segments)).

(** [SegmentedCache::with_everything]; segment [i] reads the clock at [t0 i]. *)
Definition segmented_with_everything (num_segments : Z) (listener : option (K -> V -> RemovalCause -> bool)) (config : HousekeeperConfig)
    (invalidator_enabled : bool) (t0 : nat -> Instant) : res (Segmented K V) :=
  new_segmented num_segments (fun i => b ← new_base_cache listener config invalidator_enabled (t0 i); Ok (mkSys b [])).

Definition sc_entry_count sc : Z := foldr Z.add 0 ((fun sys => entry_count (inner (base sys))) <$> segments sc).
Definition sc_weighted_size sc : Z := foldr Z.add 0 ((fun sys => weighted_size (inner (base sys))) <$> segments sc).

Lemma segments_made {S} (make : nat -> res S) : forall l acc segs,
  foldM (fun acc i => c ← make i; Ok (acc ++ [c])) acc l = Ok segs ->
  exists new, segs = acc ++ new /\ length new = length l /\
    forall j i c, l !! j = Some i -> new !! j = Some c -> make i = Ok c.
Proof.
  induction l as [|i l IH]; cbn [foldM]; intros acc segs E.
  { injection E as <-. exists []. by rewrite app_nil_r. }
  destruct (make i) as [c|] eqn:Ec; [|done]. cbn [mbind res_bind] in E.
  destruct (IH _ _ E) as (new & -> & Hlen & Hnew'). exists (c :: new). rewrite <- app_assoc. split; [done|]. split; [cbn; by rewrite Hlen|].
  intros [|j] i' c' Hi Hj; cbn in Hi, Hj; [|by eapply Hnew']. injection Hi as <-. by injection Hj as <-.
Qed.

Lemma new_segmented_spec {S} num_segments (make : nat -> res S) (sc : SegmentedOf S) :
  0 < num_segments -> new_segmented num_segments make = Ok sc ->
  length (segments sc) = (2 ^ Z.to_nat (Z.log2_up num_segments))%nat /\ sc_shift sc = 64 - Z.of_nat (Z.to_nat (Z.log2_up num_segments)) /\
  forall i c, segments sc !! i = Some c -> make i = Ok c.
Proof.
  intros Hnum E. unfold new_segmented in E. rewrite (proj2 (Z.ltb_lt _ _)) in E by lia. cbn [assert_that mbind res_bind] in E.
  unfold checked_next_power_of_two in E. case_match; [|done]. cbn [mbind res_bind] in E.
  destruct (foldM _ [] _) as [segs|] eqn:Ef; [|done]. cbn in E. injection E as <-. destruct (segments_made _ _ _ _ Ef) as (new & -> & Hlen & Hall).
  pose proof (Z.log2_up_nonneg num_segments). cbn [segments sc_shift app]. split.
  { rewrite Hlen, length_seq. unfold next_power_of_two. by rewrite Z2Nat.inj_pow. }
  split; [unfold next_power_of_two; rewrite Z.log2_pow2; lia|].
  intros i c Hi. pose proof (lookup_lt_Some _ _ _ Hi) as Hlt. rewrite Hlen in Hlt. rewrite length_seq in Hlt.
  apply (Hall i i c); [|done]. apply lookup_seq. lia.
Qed.
End segmented.

(** ** Calls *)
Section calls.
Context {K V : Type} `{Countable K}.
(** The configuration of the segments. *)
Variable scfg : Config K V.
Implicit Type sc : Segmented K V.

(** The calls, split as those of System: a write is recorded by the attempts of
    [SSend]. *)
Inductive seg_event :=
| SInsert (key : K) (v : V) (ts now : Instant)
| SInvalidate (key : K) (now : Instant)
| SGet (key : K) (ignore_if : option (V -> bool)) (need_key : bool) (now : Instant) (record : option HkEnv)
| SSend (segment i : nat) (now : Instant) (env : HkEnv)
| SInvalidateAll (now : nat -> Instant)
| SInvalidateIf (uuid : nat -> nat -> string) (f : K -> V -> bool) (now : nat -> Instant)
| SRun (env : nat -> HkEnv).

(** What segment [i] is asked to do. *)
Definition segment_event (e : seg_event) (i : nat) : event :=
  match e with
  | SInsert key v ts now => EInsert key v ts now
  | SInvalidate key now => EInvalidate key now
  | SGet key ig need now record => EGet key ig need now record
  | SSend _ j now env => ESend j now env
  | SInvalidateAll now => EInvalidateAll (now i)
  | SInvalidateIf uuid f now => EInvalidateIf (uuid i) f (now i)
  | SRun env => ERun (env i)
  end.

(** The call of one segment. *)
Definition on_segment sc (i : nat) (e : event) : res (Segmented K V * option (Entry K V)) :=
  sys ← expect_some OutOfBounds (segments sc !! i);
  '(sys, o) ← exec scfg sys e;
  Ok (mkSegmented (desired_capacity sc) (<[i := sys]> (segments sc)) (sc_shift sc), o).
Definition each_segment sc (f : nat -> event) : res (Segmented K V) :=
  foldM (fun sc i => '(sc, _) ← on_segment sc i (f i); Ok sc) sc (seq 0 (length (segments sc))).

Definition seg_exec sc (e : seg_event) : res (Segmented K V * option (Entry K V)) :=
  match e with
  | SInsert key _ _ _ | SInvalidate key _ | SGet key _ _ _ _ => on_segment sc (select_index sc (hasher scfg key)) (segment_event e 0)
  | SSend segment _ _ _ => on_segment sc segment (segment_event e 0)
  | SInvalidateAll _ | SInvalidateIf _ _ _ | SRun _ => sc ← each_segment sc (segment_event e); Ok (sc, None)
  end.

(** ** Executions *)
Definition seg_event_ok sc (e : seg_event) : Prop := forall i sys, segments sc !! i = Some sys -> event_ok sys (segment_event e i).
Definition seg_spec (m : gmap K (V * Instant)) (e : seg_event) : gmap K (V * Instant) := spec_step scfg m (segment_event e 0).
Definition seg_writes (e : seg_event) : Z := writes_of (segment_event e 0).

Inductive seg_reachable (sc0 : Segmented K V) : Z -> gmap K (V * Instant) -> Segmented K V -> Prop :=
| seg_reach_start : seg_reachable sc0 0 ∅ sc0
| seg_reach_step n m sc e sc' o :
    seg_reachable sc0 n m sc -> seg_event_ok sc e -> seg_exec sc e = Ok (sc', o) ->
    seg_reachable sc0 (n + seg_writes e) (seg_spec m e) sc'.
End calls.

(** ** Every segment is a cache on its own keys *)
Section proofs.
Context {K V : Type} `{Countable K}.
Variable scfg : Config K V.
Context (Hhash : forall k, 0 <= hasher scfg k < 2 ^ 64).
Variable e : nat.
Context (He : (e <= 64)%nat).
(** How segment [i] may have been created. *)
Variable born : nat -> BaseCache K V -> Prop.
Implicit Types (sc : Segmented K V) (m : gmap K (V * Instant)) (n : Z).

#[local] Notation shift := (64 - Z.of_nat e).
#[local] Notation part_of i m := (part (hasher scfg) shift i m).

Record seg_inv n m sc : Prop := {
  sv_len : length (segments sc) = (2 ^ e)%nat;
  sv_shift : sc_shift sc = shift;
  sv_segs : forall i sys, segments sc !! i = Some sys ->
    exists b n', born i b /\ n' <= n /\ reachable scfg (mkSys b []) n' (part_of i m) sys
}.

Lemma select_home sc n m k : seg_inv n m sc -> select_index sc (hasher scfg k) = home (hasher scfg) shift k /\
  (home (hasher scfg) shift k < length (segments sc))%nat.
Proof. intros [Hl Hs _]. unfold select_index. rewrite Hs, Hl. split; [done|by apply home_lt]. Qed.

(** A call on one segment, by its effect on the map. *)
Lemma on_segment_inv n n' m m' sc i ev sc' o :
  seg_inv n m sc -> on_segment scfg sc i ev = Ok (sc', o) -> (forall sys, segments sc !! i = Some sys -> event_ok sys ev) ->
  n + writes_of ev <= n' -> n <= n' -> part_of i m' = spec_step scfg (part_of i m) ev -> (forall j, j <> i -> part_of j m' = part_of j m) ->
  seg_inv n' m' sc'.
Proof.
  intros [Hl Hs Hseg] E Hok Hn Hnn Hi Hj. unfold on_segment in E. destruct (segments sc !! i) as [sys|] eqn:Hsys; [|done]. cbn in E.
  destruct (exec scfg sys ev) as [[sys' o']|] eqn:Ex; [|done]. cbn in E. injection E as <- <-. split; cbn; [by rewrite length_insert|done|].
  intros j sys1 Hj1. destruct (insert_cases _ _ _ _ _ Hj1) as [[-> ->]|[Hne Hj2]].
  - destruct (Hseg _ _ Hsys) as (b & n1 & Hb & Hn1 & HR).
    exists b, (n1 + writes_of ev). split; [done|]. split; [lia|]. rewrite Hi. eapply reach_step; [exact HR|by apply Hok|exact Ex].
  - rewrite Hj by done. destruct (Hseg _ _ Hj2) as (b & n1 & Hb & Hn1 & HR). exists b, n1. split; [done|]. split; [lia|done].
Qed.

(** Going through the segments: the call on [i] finds it as it was. *)
Lemma each_segment_inv n m sc (f : nat -> event) sc' :
  seg_inv n m sc -> each_segment scfg sc f = Ok sc' -> (forall i, writes_of (f i) = 0) -> (forall i m, spec_step scfg m (f i) = m) ->
  (forall i sys, segments sc !! i = Some sys -> event_ok sys (f i)) -> seg_inv n m sc'.
Proof.
  intros I E Hw Hsp Hok. unfold each_segment in E.
  assert (Hg : forall l sc1, seg_inv n m sc1 -> NoDup l -> (forall i, i ∈ l -> segments sc1 !! i = segments sc !! i) ->
    foldM (fun sc i => '(sc, _) ← on_segment scfg sc i (f i); Ok sc) sc1 l = Ok sc' -> seg_inv n m sc').
  { induction l as [|i l IH]; cbn [foldM]; intros sc1 I1 Hnd Hsame E1; [by injection E1 as <-|]. apply NoDup_cons in Hnd as [Hni Hnd].
    destruct (on_segment scfg sc1 i (f i)) as [[sc2 o]|] eqn:E2; [|done]. cbn [mbind res_bind] in E1. apply (IH sc2); [| |  |exact E1]; [|done|].
    - eapply (on_segment_inv n n m m sc1 i (f i)); [exact I1|exact E2| |rewrite Hw; lia|lia|by rewrite Hsp|done].
      intros sys Hsys. apply Hok. rewrite <- Hsame; [done|left].
    - intros j Hj. rewrite <- Hsame by (by right). unfold on_segment in E2. destruct (segments sc1 !! i) as [sys|] eqn:Hsys; [|done]. cbn in E2.
      destruct (exec scfg sys (f i)) as [[sys' o']|]; [|done]. cbn in E2. injection E2 as <- <-. cbn. rewrite list_lookup_insert_ne; [done|]. by intros ->. }
  eapply Hg; [exact I|apply NoDup_seq|done|exact E].
Qed.

Lemma seg_step n m sc ev sc' o : seg_inv n m sc -> seg_event_ok sc ev -> seg_exec scfg sc ev = Ok (sc', o) ->
  seg_inv (n + seg_writes ev) (seg_spec scfg m ev) sc'.
Proof.
  intros I Hok E. assert (Hw : 0 <= seg_writes ev) by (by destruct ev).
  destruct ev as [k v ts now|k now|k ig nk now record|seg j now env|now|uuid f now|env]; cbn [seg_exec segment_event] in E; unfold seg_spec; cbn [segment_event spec_step].
  1, 2: destruct (select_home sc n m k I) as [Hsel _]; rewrite Hsel in E.
  - eapply on_segment_inv; [exact I|exact E|intros sys Hsys; exact (Hok _ _ Hsys)|done|lia| |].
    + cbn. destruct (is_map_disabled scfg); [done|]. apply part_insert.
    + intros j Hj. destruct (is_map_disabled scfg); [done|]. by apply part_insert_other.
  - eapply on_segment_inv; [exact I|exact E|intros sys Hsys; exact (Hok _ _ Hsys)|done|lia| |].
    + cbn. by rewrite part_delete, decide_True.
    + intros j Hj. by rewrite part_delete, decide_False.
  - eapply on_segment_inv; [exact I|exact E|intros sys Hsys; exact (Hok _ _ Hsys)|done|lia|done|done].
  - eapply on_segment_inv; [exact I|exact E|intros sys Hsys; exact (Hok _ _ Hsys)|done|lia|done|done].
  - destruct (each_segment scfg sc _) as [sc1|] eqn:E1; [|done]. cbn in E. injection E as <- <-. cbn. rewrite Z.add_0_r. by eapply each_segment_inv.
  - destruct (each_segment scfg sc _) as [sc1|] eqn:E1; [|done]. cbn in E. injection E as <- <-. cbn. rewrite Z.add_0_r. by eapply each_segment_inv.
  - destruct (each_segment scfg sc _) as [sc1|] eqn:E1; [|done]. cbn in E. injection E as <- <-. cbn. rewrite Z.add_0_r. by eapply each_segment_inv.
Qed.

Lemma seg_reach_inv sc0 n m sc : seg_inv 0 ∅ sc0 -> seg_reachable scfg sc0 n m sc -> seg_inv n m sc.
Proof. intros I Hr. induction Hr as [|n m sc ev sc' o _ IH Hok E]; [done|]. by eapply seg_step. Qed.

(** The keys of a segment are those it is the home of. *)
Lemma segment_keys sc n m i sys k ve :
  (forall i b, born i b -> forall n m sys, reachable scfg (mkSys b []) n m sys -> n <= MAX_WRITES -> sys_inv scfg n m sys) ->
  seg_inv n m sc -> n <= MAX_WRITES -> segments sc !! i = Some sys -> cache (inner (base sys)) !! k = Some ve -> home (hasher scfg) shift k = i.
Proof.
  intros Hborn I Hn Hi Hc. destruct (sv_segs _ _ _ I i sys Hi) as (b & n' & Hb & Hn' & HR).
  destruct (si_spec (Hborn i b Hb _ _ _ HR ltac:(lia)) k ve Hc) as (ei & _ & Hk & _). unfold part in Hk.
  by apply map_lookup_filter_Some in Hk as [_ Hh].
Qed.
End proofs.

(** ** Claims *)
Section claims.
Context {K V : Type} `{Countable K}.
Variable cfg : Config K V.
Variables (num_segments : Z) (listener : option (K -> V -> RemovalCause -> bool)) (config : HousekeeperConfig) (inv_on : bool)
  (t0 : nat -> Instant) (sc0 : Segmented K V).
#[local] Notation scfg := (segment_config cfg (next_power_of_two num_segments)).
#[local] Notation e := (Z.to_nat (Z.log2_up num_segments)).
Context (Hhash : forall k, 0 <= hasher cfg k < 2 ^ 64) (Hnum : 0 < num_segments <= 2 ^ 63) (Huser : user_ok scfg) (Hsafe : sketch_safe scfg)
  (Ht0 : forall i, instant_ok (t0 i)) (Hrep : 0 <= cfg_max_log_sync_repeats config)
  (Hnew : segmented_with_everything cfg num_segments listener config inv_on t0 = Ok sc0).

Definition created (i : nat) (b : BaseCache K V) : Prop := new_base_cache listener config inv_on (t0 i) = Ok b.

Lemma created_inv i b : created i b -> forall n m sys, reachable scfg (mkSys b []) n m sys -> n <= MAX_WRITES -> sys_inv scfg n m sys.
Proof. intros Hb n m sys. by apply (reached_inv scfg Huser Hsafe listener config inv_on (t0 i)). Qed.

Lemma created_seg_inv : seg_inv scfg e created 0 ∅ sc0.
Proof.
  destruct (new_segmented_spec cfg num_segments _ sc0 (proj1 Hnum) Hnew) as (Hl & Hs & Hm). split; [done|done|].
  intros i sys Hi. apply Hm, bind_Ok in Hi as (b & Hb & [= <-]). exists b, 0. split; [done|]. split; [done|].
  unfold part. rewrite map_filter_empty. constructor.
Qed.

Lemma seg_reached n m sc : seg_reachable scfg sc0 n m sc -> seg_inv scfg e created n m sc.
Proof. apply seg_reach_inv; [done|by apply segments_64|apply created_seg_inv]. Qed.

(** The segmented cache never lies: after any sequence of calls, spread over the
    segments by the hash of their keys, a lookup returns, without a fault, only the
    last value written under its key in the whole cache, that is neither expired
    nor invalidated. *)
Theorem segmented_never_stale n m sc key ignore_if need_key now record :
  seg_reachable scfg sc0 n m sc -> n <= MAX_WRITES -> instant_ok now -> (forall env, record = Some env -> env_ok env) ->
  exists sys sc' o, segments sc !! select_index sc (hasher cfg key) = Some sys /\
    seg_exec scfg sc (SGet key ignore_if need_key now record) = Ok (sc', o) /\ answer_ok scfg m (inner (base sys)) key now o.
Proof.
  intros HR Hn Hnow Henv. pose proof (seg_reached n m sc HR) as I.
  destruct (select_home scfg Hhash e (segments_64 _ Hnum) created sc n m key I) as [Hsel Hlt]. cbn [hasher segment_config] in Hsel, Hlt.
  rewrite Hsel. destruct (lookup_lt_is_Some_2 _ _ Hlt) as [sys Hsys]. destruct (sv_segs _ _ _ _ _ _ I _ _ Hsys) as (b & n' & Hb & Hn' & HR').
  destruct (exec_get scfg Huser Hsafe n' _ sys key ignore_if need_key now record (created_inv _ b Hb _ _ _ HR' ltac:(lia)) ltac:(lia) Hnow Henv)
    as (sys' & o & E & _ & A).
  eexists sys, _, o. split; [done|]. cbn [seg_exec segment_event]. cbn [hasher segment_config]. rewrite Hsel. unfold on_segment. rewrite Hsys. cbn [expect_some mbind res_bind].
  rewrite E. split; [done|]. unfold answer_ok in *. destruct o as [en|]; [|done]. destruct A as (ts & ve & ei & Hm & Hrest). exists ts, ve, ei. split; [|done].
  rewrite <- Hm. cbn [hasher segment_config]. by rewrite part_lookup.
Qed.

(** Iterating over a segmented cache that is not written to meanwhile visits the
    segments one after the other and returns, each once, exactly the bindings that
    lookups find in the segments of their keys. *)
Theorem segmented_iter_complete ce cht_keys (Hce : (ce <= 64)%nat)
    (Hkeys : forall m i, (i < 2 ^ ce)%nat -> lists_keys (hasher cfg) (64 - Z.of_nat ce) i m (cht_keys m i)) n m sc now fuel :
  let _ := cache_scanning_get scfg ce cht_keys in
  let caches := (fun sys => (inner (base sys), now)) <$> segments sc in
  seg_reachable scfg sc0 n m sc -> n <= MAX_WRITES -> (visits caches < fuel)%nat ->
  exists it' kvs, drain fuel fuel caches (with_cache_segments (2 ^ ce)) = Ok (it', kvs) /\ next fuel caches it' = Ok (it', None) /\
    NoDup kvs.*1 /\
    forall k v, (k, v) ∈ kvs <-> exists sys, segments sc !! select_index sc (hasher cfg k) = Some sys /\
      scanning_get scfg (inner (base sys)) k now = Ok (Some v).
Proof.
  intros inst caches HR Hn Hf. pose proof (seg_reached n m sc HR) as I. pose proof (segments_64 _ Hnum) as He.
  assert (Hkey : forall i sys k ve, segments sc !! i = Some sys -> cache (inner (base sys)) !! k = Some ve -> select_index sc (hasher cfg k) = i).
  { intros i sys k ve Hi Hc. transitivity (home (hasher cfg) (64 - Z.of_nat e) k); [exact (proj1 (select_home scfg Hhash e He created sc n m k I))|].
    by apply (segment_keys scfg e He created sc n m i sys k ve created_inv I Hn Hi Hc). }
  assert (Hl : Forall linked caches).
  { apply Forall_fmap, Forall_forall. intros sys [i Hi]%list_elem_of_lookup k ve Hc. destruct (sv_segs _ _ _ _ _ _ I _ _ Hi) as (b & n' & Hb & Hn' & HR').
    destruct (created_inv _ b Hb _ _ _ HR' ltac:(lia)) as [(_ & P & Q & B & Iv) _ _ _ _ _ _].
    destruct (i_cache Iv _ _ Hc) as (_ & x & Hx & _). exists x. exact (get_info_ok _ _ _ Hx). }
  assert (Hlaws := cache_scanning_laws scfg ce cht_keys Hhash Hce Hkeys).
  assert (Hlook : forall i c, caches !! i = Some c -> exists sys, segments sc !! i = Some sys /\ c = (inner (base sys), now)).
  { intros i c Hi. unfold caches in Hi. rewrite list_lookup_fmap in Hi. destruct (segments sc !! i) as [sys|]; [|done]. injection Hi as <-. eauto. }
  assert (Hcs : caches = (fun sys => (inner (base sys), now)) <$> segments sc) by done. clearbody caches. destruct caches as [|c0 cs].
  { apply (f_equal length) in Hcs. rewrite length_fmap, (sv_len _ _ _ _ _ _ I) in Hcs. symmetry in Hcs. by apply Nat.pow_nonzero in Hcs. }
  destruct (@drain_visible _ _ _ inst linked Hlaws c0 cs fuel Hl Hf) as (it' & kvs & E & E' & Hin & Hnd).
  exists it', kvs. split; [exact E|]. split; [exact E'|]. split.
  - apply Hnd. intros i j ci cj k Hi Hj Hki Hkj. destruct (Hlook i ci Hi) as (si & Hsi & ->), (Hlook j cj Hj) as (sj & Hsj & ->).
    apply (all_keys_elem scfg ce cht_keys Hhash Hce Hkeys) in Hki as [vi Hvi]. apply (all_keys_elem scfg ce cht_keys Hhash Hce Hkeys) in Hkj as [vj Hvj].
    rewrite <- (Hkey i si k vi Hsi Hvi). by apply (Hkey j sj k vj).
  - intros k v. rewrite Hin. split.
    + intros (c & [i Hi]%list_elem_of_lookup & Hg). destruct (Hlook i c Hi) as (sys & Hsys & ->). exists sys. split; [|exact Hg]. rewrite <- Hsys. f_equal.
      cbn in Hg. unfold scanning_get in Hg. destruct (cache (inner (base sys)) !! k) as [ve|] eqn:Hc; [|done]. by eapply Hkey.
    + intros (sys & Hsys & Hg). exists (inner (base sys), now). split; [|exact Hg]. rewrite Hcs. apply list_elem_of_fmap. exists sys. split; [done|].
      by eapply list_elem_of_lookup_2.
Qed.
End claims.

(** ** A cache of two segments *)
Module Witnesses.
Definition seg0 : Segmented Z Z := mkSegmented (Some 4) [mkSys Sample.start []; mkSys Sample.start []] 63.
Definition hk_config : HousekeeperConfig := mkHousekeeperConfig (from_millis 100) 4 1.
Lemma seg0_ok : segmented_with_everything Sample.config 2 Sample.quiet_listener hk_config true (fun _ => 0) = Ok seg0.
Proof. reflexivity. Qed.
Definition half : Config Z Z := segment_config Sample.config (next_power_of_two 2).

(** A key in each segment. *)
Definition calls : list (seg_event (K := Z) (V := Z)) := [SInsert 1 10 5 5; SSend 0 0 5 (Sample.env 5); SInsert (2 ^ 63) 20 6 6; SRun (fun _ => Sample.env 7)].
Fixpoint seg_run (sc : Segmented Z Z) (es : list seg_event) : res (Segmented Z Z) :=
  match es with [] => Ok sc | e :: es' => '(sc, _) ← seg_exec half sc e; seg_run sc es' end.
Definition filled : Segmented Z Z := match seg_run seg0 calls with Ok sc => sc | Fail _ => seg0 end.
Definition held : gmap Z (Z * Instant) := foldl (seg_spec half) ∅ calls.

Lemma seg_run_reach : forall es n m sc sc', seg_reachable half seg0 n m sc -> Forall (fun e => forall sc, seg_event_ok sc e) es ->
  seg_run sc es = Ok sc' -> seg_reachable half seg0 (foldl (fun n e => n + seg_writes e) n es) (foldl (seg_spec half) m es) sc'.
Proof.
  induction es as [|e es IH]; cbn [seg_run foldl]; intros n m sc sc' HR Hok E; [by injection E as <-|]. apply Forall_cons in Hok as [He Hok].
  destruct (seg_exec half sc e) as [[sc1 o]|] eqn:E1; [|done]. cbn in E. eapply IH; [|done|exact E]. by eapply seg_reach_step.
Qed.
Lemma seg_filled_reached : seg_reachable half seg0 2 held filled.
Proof.
  apply (seg_run_reach calls 0 ∅ seg0); [constructor| |vm_compute; reflexivity].
  repeat (apply Forall_cons; split); [..|by apply Forall_nil]; intros sc i sys _; by apply Sample.ok_at.
Qed.
Lemma half_user : user_ok half.
Proof. by split. Qed.
Lemma half_safe : sketch_safe half.
Proof. intros _ _. by split. Qed.
Lemma half_hash k : 0 <= hasher Sample.config k < 2 ^ 64.
Proof. by apply Z.mod_pos_bound. Qed.
Lemma zero_ok (i : nat) : instant_ok 0.
Proof. by apply Sample.ok_at. Qed.

Lemma segmented_never_stale_witness : exists sys sc' o, segments filled !! 1%nat = Some sys /\
  seg_exec half filled (SGet (2 ^ 63) None false 8 None) = Ok (sc', o) /\ answer_ok half held (inner (base sys)) (2 ^ 63) 8 o /\ is_Some o.
Proof.
  destruct (segmented_never_stale Sample.config 2 Sample.quiet_listener hk_config true (fun _ => 0) seg0 half_hash ltac:(lia) half_user half_safe
    zero_ok ltac:(done) seg0_ok 2 held filled (2 ^ 63) None false 8 None seg_filled_reached ltac:(done) (Sample.ok_at 8 eq_refl) ltac:(done))
    as (sys & sc' & o & Hsys & E & A).
  exists sys, sc', o. split; [exact Hsys|]. split; [exact E|]. split; [exact A|].
  vm_compute in E. injection E as _ <-. by eexists.
Defined.

Lemma segmented_iter_complete_witness :
  let _ := cache_scanning_get half 2 CacheIter.Witnesses.listing in
  let caches := (fun sys => (inner (base sys), 8)) <$> segments filled in
  exists it' kvs, drain 60 60 caches (with_cache_segments 4) = Ok (it', kvs) /\ next 60 caches it' = Ok (it', None) /\ NoDup kvs.*1 /\
    forall k v, (k, v) ∈ kvs <-> exists sys, segments filled !! select_index filled (hasher Sample.config k) = Some sys /\
      scanning_get half (inner (base sys)) k 8 = Ok (Some v).
Proof.
  apply (segmented_iter_complete Sample.config 2 Sample.quiet_listener hk_config true (fun _ => 0) seg0 half_hash ltac:(lia) half_user half_safe
    zero_ok ltac:(done) seg0_ok 2 CacheIter.Witnesses.listing ltac:(lia) CacheIter.Witnesses.listing_ok 2 held filled 8 60 seg_filled_reached ltac:(done)).
  apply Nat.ltb_lt. vm_compute. reflexivity.
Defined.
End Witnesses.
