(* ===== verification/CacheApi.v ===== *)
(** The public cache (src/sync/cache.rs, [Cache]; src/sync/entry_selector.rs) as one
    thread uses it: lookups, writes, the initialising and computing calls and the
    entry selectors, each call run from its first access of the cache to its
    return.  ValueInitializer treats the calls of several threads on one key; here
    they are composed with the real cache of BaseCache.

    A closure of the user is given by its result, [None] when it panics; the panic
    then unwinds through the call ([Unwound]) and the cache lives on.  A borrowed
    key ([&Q]) is the owned key it is equivalent to, and [Arc] is left out. *)
From S2P Require Import Prelude Common FrequencySketch Deque Time Housekeeper EntryInfo Concurrent Deques.
From S2P Require Import TimerWheel Policy Invalidator Inner BaseCache ValueInitializer.

(** What a call reads from outside: the clock at its lookup and at the lookup made
    under its waiter, at its write and at the notification of the write; the
    environments of the read recorder and of the attempts to record the write. *)
Record CallEnv := mkCallEnv {
  get_now : Instant;
  get_env : HkEnv;
  reget_now : Instant;
  write_now : Instant;
  notify_now : Instant;
  write_envs : list HkEnv
}.

Inductive unwind (R : Type) := Returned (r : R) | Unwound.
Arguments Returned {R} _.
Arguments Unwound {R}.
Definition map_unwind {R S} (f : R -> S) (u : unwind R) : unwind S :=
  match u with Returned r => Returned (f r) | Unwound => Unwound end.
(** [Result::map] *)
Definition map_ok {A B E} (f : A -> B) (r : A + E) : B + E := match r with inl a => inl (f a) | inr e => inr e end.

(** The keys of the waiter map: the waiters of calls in progress. *)
Record Cache (K V : Type) `{Countable K} := mkCache { c_base : BaseCache K V; waiting : gset (K * Z) }.
Arguments mkCache {K V _ _} _ _.
Arguments c_base {K V _ _} _.
Arguments waiting {K V _ _} _.

Section api.
Context {K V : Type} `{Countable K}.
Variable cfg : Config K V.
Implicit Types (c : Cache K V) (b : BaseCache K V).

Definition with_base c b : Cache K V := mkCache b (waiting c).
Definition hash_of (key : K) : Z := hasher cfg key.

(** [Cache::with_everything] *)
Definition cache_with_everything (listener : option (K -> V -> RemovalCause -> bool)) (config : HousekeeperConfig)
    (invalidator_enabled : bool) (now : Instant) : res (Cache K V) :=
  b ← new_base_cache listener config invalidator_enabled now; Ok (mkCache b ∅).

(** ** Lookups and writes *)

Definition cache_get_with_hash c (ce : CallEnv) (key : K) (hash : Z) (need_key : bool) : res (Cache K V * option (Entry K V)) :=
  '(b, o) ← get_with_hash cfg (c_base c) key hash need_key (get_now ce) (get_env ce); Ok (with_base c b, o).
Definition cache_insert_with_hash c (ce : CallEnv) (key : K) (hash : Z) (v : V) : res (Cache K V) :=
  b ← insert_with_hash cfg (c_base c) key hash v (write_now ce) (notify_now ce) (write_envs ce); Ok (with_base c b).
Definition cache_invalidate_with_hash c (ce : CallEnv) (key : K) (need_value : bool) : res (Cache K V * option V) :=
  '(b, o) ← invalidate_with_hash cfg (c_base c) key need_value (write_now ce) (notify_now ce) (write_envs ce);
  Ok (with_base c b, o).

Definition contains_key c (ce : CallEnv) (key : K) : res bool := contains_key_with_hash cfg (inner (c_base c)) key (get_now ce).
Definition get c (ce : CallEnv) (key : K) : res (Cache K V * option V) :=
  '(c, o) ← cache_get_with_hash c ce key (hash_of key) false; Ok (c, option_map en_value o).
Definition insert c (ce : CallEnv) (key : K) (v : V) : res (Cache K V) := cache_insert_with_hash c ce key (hash_of key) v.
Definition invalidate c (ce : CallEnv) (key : K) : res (Cache K V) :=
  '(c, _) ← cache_invalidate_with_hash c ce key false; Ok c.
Definition remove c (ce : CallEnv) (key : K) : res (Cache K V * option V) := cache_invalidate_with_hash c ce key true.

(** ** The waiters ([ValueInitializer]) *)

Definition remove_waiter c (w_key : K * Z) : Cache K V := mkCache (c_base c) (waiting c ∖ {[w_key]}).
(** [try_insert_waiter]; [None] when the map has a waiter under the key. *)
Definition try_insert_waiter c (w_key : K * Z) : option (Cache K V) :=
  if bool_decide (w_key ∈ waiting c) then None else Some (mkCache (c_base c) ({[w_key]} ∪ waiting c)).

(** The waiter a call finds when no other thread is running belongs to a call that
    encloses it, made by its own thread: its lock is never released. *)
Definition try_init_or_read {O E} c (w_key : K * Z) (lookup : Cache K V -> res (Cache K V * option V)) (init : option O)
    (store : Cache K V -> V -> res (Cache K V)) (post_init : O -> V + E) : res (Cache K V * unwind (InitResult V E)) :=
  match try_insert_waiter c w_key with
  | None => Fail Diverged
  | Some c =>
      '(c, existing) ← lookup c;
      match existing with
      | Some value => Ok (remove_waiter c w_key, Returned (ReadExisting value))
      | None =>
          match init with
          | Some value =>
              match post_init value with
              | inl value => c ← store c value; Ok (remove_waiter c w_key, Returned (Initialized value))
              | inr e => Ok (remove_waiter c w_key, Returned (InitErr e))
              end
          | None => Ok (remove_waiter c w_key, Unwound)
          end
      end
  end.

Definition try_compute {O E} c (ce : CallEnv) (c_key : K) (c_hash : Z) (f : option (Entry K V) -> option O)
    (post_init : O -> Op V + E) (allow_nop : bool) : res (Cache K V * unwind (CompResult K V + E)) :=
  let w_key := (c_key, TYPE_COMPUTE_NONE) in
  match try_insert_waiter c w_key with
  | None => Fail Diverged
  | Some c =>
      '(b, maybe_entry) ← get_with_hash_and_ignore_if cfg (c_base c) c_key c_hash None true (get_now ce) (get_env ce);
      let c := with_base c b in
      let maybe_value := if allow_nop then option_map en_value maybe_entry else None in
      let entry_existed := bool_decide (is_Some maybe_entry) in
      match f maybe_entry with
      | None => Ok (remove_waiter c w_key, Unwound)
      | Some output =>
          match post_init output with
          | inr e => Ok (remove_waiter c w_key, Returned (inr e))
          | inl op =>
              '(c, result) ←
                match op with
                | Nop => Ok (c, match maybe_value with
                                | Some value => Unchanged (mkEntry (Some c_key) value false false)
                                | None => StillNone c_key
                                end)
                | Put value =>
                    c ← cache_insert_with_hash c ce c_key c_hash value;
                    Ok (c, if entry_existed then ReplacedWith (mkEntry (Some c_key) value true true)
                           else CompInserted (mkEntry (Some c_key) value true false))
                | RemoveOp =>
                    '(c, maybe_prev_v) ← cache_invalidate_with_hash c ce c_key true;
                    Ok (c, match maybe_prev_v with
                           | Some prev_v => CompRemoved (mkEntry (Some c_key) prev_v false false)
                           | None => StillNone c_key
                           end)
                end;
              Ok (remove_waiter c w_key, Returned (inl result))
          end
      end
  end.

(** ** Initialising calls *)

Definition lookup_without_recording (ce : CallEnv) (key : K) (hash : Z) (ignore_if : option (V -> bool)) c
    : res (Cache K V * option V) :=
  '(b, o) ← get_with_hash_without_recording cfg (c_base c) key hash ignore_if (reget_now ce); Ok (with_base c b, o).
Definition key_if (need_key : bool) (key : K) : option K := if need_key then Some key else None.

Definition insert_with_hash_and_fun c (ce : CallEnv) (key : K) (hash : Z) (init : option V) (replace_if : option (V -> bool))
    (need_key : bool) : res (Cache K V * unwind (Entry K V)) :=
  '(c, r) ← try_init_or_read (E := unit) c (key, TYPE_UNIT) (lookup_without_recording ce key hash replace_if) init
              (fun c v => cache_insert_with_hash c ce key hash v) post_init_for_get_with;
  match r with
  | Returned (Initialized v) => Ok (c, Returned (mkEntry (key_if need_key key) v true false))
  | Returned (ReadExisting v) => Ok (c, Returned (mkEntry (key_if need_key key) v false false))
  | Returned (InitErr _) => Fail Unreachable
  | Unwound => Ok (c, Unwound)
  end.
Definition get_or_insert_with_hash_and_fun c (ce : CallEnv) (key : K) (hash : Z) (init : option V)
    (replace_if : option (V -> bool)) (need_key : bool) : res (Cache K V * unwind (Entry K V)) :=
  '(b, o) ← get_with_hash_and_ignore_if cfg (c_base c) key hash replace_if need_key (get_now ce) (get_env ce);
  match o with
  | Some entry => Ok (with_base c b, Returned entry)
  | None => insert_with_hash_and_fun (with_base c b) ce key hash init replace_if need_key
  end.
Definition get_or_insert_with_hash_by_ref_and_fun c (ce : CallEnv) (key : K) (hash : Z) (init : option V)
    (replace_if : option (V -> bool)) (need_key : bool) : res (Cache K V * unwind (Entry K V)) :=
  '(b, o) ← get_with_hash_and_ignore_if cfg (c_base c) key hash replace_if need_key (get_now ce) (get_env ce);
  match o with
  | Some entry => Ok (with_base c b, Returned entry)
  | None => insert_with_hash_and_fun (with_base c b) ce key hash init replace_if need_key
  end.

Definition get_or_insert_with_hash c (ce : CallEnv) (key : K) (hash : Z) (init : option V) : res (Cache K V * unwind (Entry K V)) :=
  '(c, o) ← cache_get_with_hash c ce key hash true;
  match o with
  | Some entry => Ok (c, Returned entry)
  | None =>
      match init with
      | Some value => c ← cache_insert_with_hash c ce key hash value; Ok (c, Returned (mkEntry (Some key) value true false))
      | None => Ok (c, Unwound)
      end
  end.
Definition get_or_insert_with_hash_by_ref c (ce : CallEnv) (key : K) (hash : Z) (init : option V)
    : res (Cache K V * unwind (Entry K V)) :=
  '(c, o) ← cache_get_with_hash c ce key hash true;
  match o with
  | Some entry => Ok (c, Returned entry)
  | None =>
      match init with
      | Some value => c ← cache_insert_with_hash c ce key hash value; Ok (c, Returned (mkEntry (Some key) value true false))
      | None => Ok (c, Unwound)
      end
  end.

Definition optionally_insert_with_hash_and_fun c (ce : CallEnv) (key : K) (hash : Z) (init : option (option V)) (need_key : bool)
    : res (Cache K V * unwind (option (Entry K V))) :=
  '(c, r) ← try_init_or_read c (key, TYPE_OPTIONALLY_NONE) (lookup_without_recording ce key hash None) init
              (fun c v => cache_insert_with_hash c ce key hash v) (post_init_for_optionally_get_with tt);
  match r with
  | Returned (Initialized v) => Ok (c, Returned (Some (mkEntry (key_if need_key key) v true false)))
  | Returned (ReadExisting v) => Ok (c, Returned (Some (mkEntry (key_if need_key key) v false false)))
  | Returned (InitErr _) => Ok (c, Returned None)
  | Unwound => Ok (c, Unwound)
  end.
Definition get_or_optionally_insert_with_hash_and_fun c (ce : CallEnv) (key : K) (hash : Z) (init : option (option V))
    (need_key : bool) : res (Cache K V * unwind (option (Entry K V))) :=
  '(c, entry) ← cache_get_with_hash c ce key hash need_key;
  if bool_decide (is_Some entry) then Ok (c, Returned entry)
  else optionally_insert_with_hash_and_fun c ce key hash init need_key.
Definition get_or_optionally_insert_with_hash_by_ref_and_fun c (ce : CallEnv) (key : K) (hash : Z) (init : option (option V))
    (need_key : bool) : res (Cache K V * unwind (option (Entry K V))) :=
  '(c, entry) ← cache_get_with_hash c ce key hash need_key;
  if bool_decide (is_Some entry) then Ok (c, Returned entry)
  else optionally_insert_with_hash_and_fun c ce key hash init need_key.

(** [ty] is the type identifier of the error type. *)
Definition try_insert_with_hash_and_fun {E} (ty : Z) c (ce : CallEnv) (key : K) (hash : Z) (init : option (V + E)) (need_key : bool)
    : res (Cache K V * unwind (Entry K V + E)) :=
  '(c, r) ← try_init_or_read c (key, ty) (lookup_without_recording ce key hash None) init
              (fun c v => cache_insert_with_hash c ce key hash v) post_init_for_try_get_with;
  match r with
  | Returned (Initialized v) => Ok (c, Returned (inl (mkEntry (key_if need_key key) v true false)))
  | Returned (ReadExisting v) => Ok (c, Returned (inl (mkEntry (key_if need_key key) v false false)))
  | Returned (InitErr e) => Ok (c, Returned (inr e))
  | Unwound => Ok (c, Unwound)
  end.
Definition get_or_try_insert_with_hash_and_fun {E} (ty : Z) c (ce : CallEnv) (key : K) (hash : Z) (init : option (V + E))
    (need_key : bool) : res (Cache K V * unwind (Entry K V + E)) :=
  '(c, o) ← cache_get_with_hash c ce key hash need_key;
  match o with
  | Some entry => Ok (c, Returned (inl entry))
  | None => try_insert_with_hash_and_fun ty c ce key hash init need_key
  end.
(** The lookup is made without the key, whatever [need_key] says. *)
Definition get_or_try_insert_with_hash_by_ref_and_fun {E} (ty : Z) c (ce : CallEnv) (key : K) (hash : Z) (init : option (V + E))
    (need_key : bool) : res (Cache K V * unwind (Entry K V + E)) :=
  '(c, o) ← cache_get_with_hash c ce key hash false;
  match o with
  | Some entry => Ok (c, Returned (inl entry))
  | None => try_insert_with_hash_and_fun ty c ce key hash init need_key
  end.

Definition get_with c (ce : CallEnv) (key : K) (init : option V) : res (Cache K V * unwind V) :=
  '(c, r) ← get_or_insert_with_hash_and_fun c ce key (hash_of key) init None false; Ok (c, map_unwind en_value r).
Definition get_with_by_ref c (ce : CallEnv) (key : K) (init : option V) : res (Cache K V * unwind V) :=
  '(c, r) ← get_or_insert_with_hash_by_ref_and_fun c ce key (hash_of key) init None false; Ok (c, map_unwind en_value r).
Definition get_with_if c (ce : CallEnv) (key : K) (init : option V) (replace_if : V -> bool) : res (Cache K V * unwind V) :=
  '(c, r) ← get_or_insert_with_hash_and_fun c ce key (hash_of key) init (Some replace_if) false; Ok (c, map_unwind en_value r).
Definition optionally_get_with c (ce : CallEnv) (key : K) (init : option (option V)) : res (Cache K V * unwind (option V)) :=
  '(c, r) ← get_or_optionally_insert_with_hash_and_fun c ce key (hash_of key) init false;
  Ok (c, map_unwind (option_map en_value) r).
Definition optionally_get_with_by_ref c (ce : CallEnv) (key : K) (init : option (option V)) : res (Cache K V * unwind (option V)) :=
  '(c, r) ← get_or_optionally_insert_with_hash_by_ref_and_fun c ce key (hash_of key) init false;
  Ok (c, map_unwind (option_map en_value) r).
Definition try_get_with {E} (ty : Z) c (ce : CallEnv) (key : K) (init : option (V + E)) : res (Cache K V * unwind (V + E)) :=
  '(c, r) ← get_or_try_insert_with_hash_and_fun ty c ce key (hash_of key) init false; Ok (c, map_unwind (map_ok en_value) r).
Definition try_get_with_by_ref {E} (ty : Z) c (ce : CallEnv) (key : K) (init : option (V + E)) : res (Cache K V * unwind (V + E)) :=
  '(c, r) ← get_or_try_insert_with_hash_by_ref_and_fun ty c ce key (hash_of key) init false;
  Ok (c, map_unwind (map_ok en_value) r).

(** ** Computing calls *)

Definition compute_with_hash_and_fun c (ce : CallEnv) (key : K) (hash : Z) (f : option (Entry K V) -> option (Op V))
    : res (Cache K V * unwind (CompResult K V)) :=
  '(c, r) ← try_compute (E := unit) c ce key hash f post_init_for_compute_with true;
  match r with
  | Returned (inl result) => Ok (c, Returned result)
  | Returned (inr _) => Fail Unreachable
  | Unwound => Ok (c, Unwound)
  end.
Definition try_compute_with_hash_and_fun {E} c (ce : CallEnv) (key : K) (hash : Z) (f : option (Entry K V) -> option (Op V + E))
    : res (Cache K V * unwind (CompResult K V + E)) :=
  try_compute c ce key hash f post_init_for_try_compute_with true.
Definition upsert_with_hash_and_fun c (ce : CallEnv) (key : K) (hash : Z) (f : option (Entry K V) -> option V)
    : res (Cache K V * unwind (Entry K V)) :=
  '(c, r) ← try_compute (E := unit) c ce key hash f post_init_for_upsert_with false;
  match r with
  | Returned (inl (CompInserted entry)) | Returned (inl (ReplacedWith entry)) => Ok (c, Returned entry)
  | Returned _ => Fail Unreachable
  | Unwound => Ok (c, Unwound)
  end.
End api.
