(* ===== verification/EntrySelector.v ===== *)
(** The entry selectors (src/sync/entry_selector.rs): [Cache::entry] and
    [Cache::entry_by_ref] remember the key, its hash and the cache; the methods of
    a selector are the initialising and computing calls that return entries. *)
From S2P Require Import Prelude Common Time Policy Inner BaseCache ValueInitializer CacheApi.

Record OwnedKeyEntrySelector (K V : Type) `{Countable K} := mkOwned { owned_key : K; owned_hash : Z; owned_cache : Cache K V }.
Record RefKeyEntrySelector (K V : Type) `{Countable K} := mkRef { ref_key : K; ref_hash : Z; ref_cache : Cache K V }.
Arguments mkOwned {K V _ _} _ _ _.
Arguments owned_key {K V _ _} _.
Arguments owned_hash {K V _ _} _.
Arguments owned_cache {K V _ _} _.
Arguments mkRef {K V _ _} _ _ _.
Arguments ref_key {K V _ _} _.
Arguments ref_hash {K V _ _} _.
Arguments ref_cache {K V _ _} _.

Section selectors.
Context {K V : Type} `{Countable K}.
Variable cfg : Config K V.
(** [V::default()] *)
Variable default : V.

Definition entry (c : Cache K V) (key : K) : OwnedKeyEntrySelector K V := mkOwned key (hash_of cfg key) c.
Definition entry_by_ref (c : Cache K V) (key : K) : RefKeyEntrySelector K V := mkRef key (hash_of cfg key) c.

Section owned.
Implicit Type self : OwnedKeyEntrySelector K V.
Definition and_compute_with self (ce : CallEnv) (f : option (Entry K V) -> option (Op V)) :=
  compute_with_hash_and_fun cfg (owned_cache self) ce (owned_key self) (owned_hash self) f.
Definition and_try_compute_with {E} self (ce : CallEnv) (f : option (Entry K V) -> option (Op V + E)) :=
  try_compute_with_hash_and_fun cfg (owned_cache self) ce (owned_key self) (owned_hash self) f.
Definition and_upsert_with self (ce : CallEnv) (f : option (Entry K V) -> option V) :=
  upsert_with_hash_and_fun cfg (owned_cache self) ce (owned_key self) (owned_hash self) f.
Definition or_default self (ce : CallEnv) :=
  get_or_insert_with_hash cfg (owned_cache self) ce (owned_key self) (owned_hash self) (Some default).
Definition or_insert self (ce : CallEnv) (v : V) :=
  get_or_insert_with_hash cfg (owned_cache self) ce (owned_key self) (owned_hash self) (Some v).
Definition or_insert_with self (ce : CallEnv) (init : option V) :=
  get_or_insert_with_hash_and_fun cfg (owned_cache self) ce (owned_key self) (owned_hash self) init None true.
Definition or_insert_with_if self (ce : CallEnv) (init : option V) (replace_if : V -> bool) :=
  get_or_insert_with_hash_and_fun cfg (owned_cache self) ce (owned_key self) (owned_hash self) init (Some replace_if) true.
Definition or_optionally_insert_with self (ce : CallEnv) (init : option (option V)) :=
  get_or_optionally_insert_with_hash_and_fun cfg (owned_cache self) ce (owned_key self) (owned_hash self) init true.
Definition or_try_insert_with {E} (ty : Z) self (ce : CallEnv) (init : option (V + E)) :=
  get_or_try_insert_with_hash_and_fun cfg ty (owned_cache self) ce (owned_key self) (owned_hash self) init true.
End owned.

Section by_ref.
Implicit Type self : RefKeyEntrySelector K V.
Definition ref_and_compute_with self (ce : CallEnv) (f : option (Entry K V) -> option (Op V)) :=
  compute_with_hash_and_fun cfg (ref_cache self) ce (ref_key self) (ref_hash self) f.
Definition ref_and_try_compute_with {E} self (ce : CallEnv) (f : option (Entry K V) -> option (Op V + E)) :=
  try_compute_with_hash_and_fun cfg (ref_cache self) ce (ref_key self) (ref_hash self) f.
Definition ref_and_upsert_with self (ce : CallEnv) (f : option (Entry K V) -> option V) :=
  upsert_with_hash_and_fun cfg (ref_cache self) ce (ref_key self) (ref_hash self) f.
Definition ref_or_default self (ce : CallEnv) :=
  get_or_insert_with_hash_by_ref cfg (ref_cache self) ce (ref_key self) (ref_hash self) (Some default).
Definition ref_or_insert self (ce : CallEnv) (v : V) :=
  get_or_insert_with_hash_by_ref cfg (ref_cache self) ce (ref_key self) (ref_hash self) (Some v).
Definition ref_or_insert_with self (ce : CallEnv) (init : option V) :=
  get_or_insert_with_hash_by_ref_and_fun cfg (ref_cache self) ce (ref_key self) (ref_hash self) init None true.
Definition ref_or_insert_with_if self (ce : CallEnv) (init : option V) (replace_if : V -> bool) :=
  get_or_insert_with_hash_by_ref_and_fun cfg (ref_cache self) ce (ref_key self) (ref_hash self) init (Some replace_if) true.
Definition ref_or_optionally_insert_with self (ce : CallEnv) (init : option (option V)) :=
  get_or_optionally_insert_with_hash_by_ref_and_fun cfg (ref_cache self) ce (ref_key self) (ref_hash self) init true.
Definition ref_or_try_insert_with {E} (ty : Z) self (ce : CallEnv) (init : option (V + E)) :=
  get_or_try_insert_with_hash_by_ref_and_fun cfg ty (ref_cache self) ce (ref_key self) (ref_hash self) init true.
End by_ref.

(** ** What one thread asks of a cache, one call after the other *)

Inductive selection (E : Type) :=
| AndComputeWith (f : option (Entry K V) -> option (Op V))
| AndTryComputeWith (f : option (Entry K V) -> option (Op V + E))
| AndUpsertWith (f : option (Entry K V) -> option V)
| OrDefault
| OrInsert (v : V)
| OrInsertWith (init : option V)
| OrInsertWithIf (init : option V) (replace_if : V -> bool)
| OrOptionallyInsertWith (init : option (option V))
| OrTryInsertWith (ty : Z) (init : option (V + E)).

Inductive request (E : Type) :=
| QContains (key : K)
| QGet (key : K)
| QInsert (key : K) (v : V)
| QInvalidate (key : K)
| QRemove (key : K)
| QInvalidateAll
| QRunPendingTasks
| QGetWith (by_ref : bool) (key : K) (init : option V)
| QGetWithIf (key : K) (init : option V) (replace_if : V -> bool)
| QOptionallyGetWith (by_ref : bool) (key : K) (init : option (option V))
| QTryGetWith (by_ref : bool) (ty : Z) (key : K) (init : option (V + E))
| QEntry (by_ref : bool) (key : K) (q : selection E).

Inductive reply (E : Type) :=
| AUnit
| ABool (b : bool)
| AValue (o : option V)
| AEntry (o : option (Entry K V))
| AComp (r : CompResult K V)
| AError (e : E)
| AUnwound.
End selectors.
Arguments AndComputeWith {K V E} _.
Arguments AndTryComputeWith {K V E} _.
Arguments AndUpsertWith {K V E} _.
Arguments OrDefault {K V E}.
Arguments OrInsert {K V E} _.
Arguments OrInsertWith {K V E} _.
Arguments OrInsertWithIf {K V E} _ _.
Arguments OrOptionallyInsertWith {K V E} _.
Arguments OrTryInsertWith {K V E} _ _.
Arguments QContains {K V E} _.
Arguments QGet {K V E} _.
Arguments QInsert {K V E} _ _.
Arguments QInvalidate {K V E} _.
Arguments QRemove {K V E} _.
Arguments QInvalidateAll {K V E}.
Arguments QRunPendingTasks {K V E}.
Arguments QGetWith {K V E} _ _ _.
Arguments QGetWithIf {K V E} _ _ _.
Arguments QOptionallyGetWith {K V E} _ _ _.
Arguments QTryGetWith {K V E} _ _ _ _.
Arguments QEntry {K V E} _ _ _.
Arguments AUnit {K V E}.
Arguments ABool {K V E} _.
Arguments AValue {K V E} _.
Arguments AEntry {K V E} _.
Arguments AComp {K V E} _.
Arguments AError {K V E} _.
Arguments AUnwound {K V E}.

Section client.
Context {K V E : Type} `{Countable K}.
Variable cfg : Config K V.
Variable default : V.
Implicit Type c : Cache K V.

Definition answer {R} (f : R -> reply E) (m : res (Cache K V * unwind R)) : res (Cache K V * reply (K := K) (V := V) E) :=
  '(c, u) ← m; Ok (c, match u with Returned r => f r | Unwound => AUnwound end).
Definition sum_reply {R} (f : R -> reply E) (r : R + E) : reply (K := K) (V := V) E := match r with inl a => f a | inr e => AError e end.
Definition some_entry (e : Entry K V) : reply (K := K) (V := V) E := AEntry (Some e).

Definition select c (ce : CallEnv) (by_ref : bool) (key : K) (q : selection (K := K) (V := V) E) : res (Cache K V * reply E) :=
  let o := entry cfg c key in
  let r := entry_by_ref cfg c key in
  match q with
  | AndComputeWith f => answer AComp (if by_ref then ref_and_compute_with cfg r ce f else and_compute_with cfg o ce f)
  | AndTryComputeWith f =>
      answer (sum_reply AComp) (if by_ref then ref_and_try_compute_with cfg r ce f else and_try_compute_with cfg o ce f)
  | AndUpsertWith f => answer some_entry (if by_ref then ref_and_upsert_with cfg r ce f else and_upsert_with cfg o ce f)
  | OrDefault => answer some_entry (if by_ref then ref_or_default cfg default r ce else or_default cfg default o ce)
  | OrInsert v => answer some_entry (if by_ref then ref_or_insert cfg r ce v else or_insert cfg o ce v)
  | OrInsertWith init => answer some_entry (if by_ref then ref_or_insert_with cfg r ce init else or_insert_with cfg o ce init)
  | OrInsertWithIf init p =>
      answer some_entry (if by_ref then ref_or_insert_with_if cfg r ce init p else or_insert_with_if cfg o ce init p)
  | OrOptionallyInsertWith init =>
      answer AEntry (if by_ref then ref_or_optionally_insert_with cfg r ce init else or_optionally_insert_with cfg o ce init)
  | OrTryInsertWith ty init =>
      answer (sum_reply some_entry) (if by_ref then ref_or_try_insert_with cfg ty r ce init else or_try_insert_with cfg ty o ce init)
  end.

Definition serve c (ce : CallEnv) (q : request (K := K) (V := V) E) : res (Cache K V * reply E) :=
  match q with
  | QContains key => b ← contains_key cfg c ce key; Ok (c, ABool b)
  | QGet key => '(c, o) ← get cfg c ce key; Ok (c, AValue o)
  | QInsert key v => c ← insert cfg c ce key v; Ok (c, AUnit)
  | QInvalidate key => c ← invalidate cfg c ce key; Ok (c, AUnit)
  | QRemove key => '(c, o) ← remove cfg c ce key; Ok (c, AValue o)
  | QInvalidateAll =>
      s ← invalidate_all (inner (c_base c)) (write_now ce); Ok (with_base c (with_inner (c_base c) s), AUnit)
  | QRunPendingTasks => b ← run_pending_tasks cfg (c_base c) (get_env ce); Ok (with_base c b, AUnit)
  | QGetWith by_ref key init =>
      answer (fun v => AValue (Some v)) (if by_ref then get_with_by_ref cfg c ce key init else get_with cfg c ce key init)
  | QGetWithIf key init p => answer (fun v => AValue (Some v)) (get_with_if cfg c ce key init p)
  | QOptionallyGetWith by_ref key init =>
      answer AValue (if by_ref then optionally_get_with_by_ref cfg c ce key init else optionally_get_with cfg c ce key init)
  | QTryGetWith by_ref ty key init =>
      answer (sum_reply (fun v => AValue (Some v)))
        (if by_ref then try_get_with_by_ref cfg ty c ce key init else try_get_with cfg ty c ce key init)
  | QEntry by_ref key q => select c ce by_ref key q
  end.

Fixpoint serve_all c (qs : list (CallEnv * request (K := K) (V := V) E)) : res (Cache K V * list (reply E)) :=
  match qs with
  | [] => Ok (c, [])
  | (ce, q) :: qs => '(c, a) ← serve c ce q; '(c, l) ← serve_all c qs; Ok (c, a :: l)
  end.
End client.
