(* ===== verification/Client.v ===== *)
(** What a thread that uses the cache alone may rely on.  The abstract cache is the
    map of the last values written, and may forget any of them; [allowed] says which
    replies a request may have.  Every request to the modelled cache returns, with a
    reply the abstract cache allows.  The proofs are a small program logic: a lemma
    per call of CacheApi, from those of the operations in System. *)
From S2P Require Import Prelude Common FrequencySketch Deque Time Housekeeper EntryInfo Concurrent Deques.
From S2P Require Import TimerWheel Policy Invalidator Inner BaseCache InnerInv InnerRemove Admission Scan Maintenance Operations System.
From S2P Require Import Guarantees ValueInitializer CacheApi EntrySelector.

Section spec.
Context {K V : Type} `{Countable K}.
Variable cfg : Config K V.
Implicit Types (m : gmap K (V * Instant)) (ce : CallEnv).

Definition put m (key : K) (v : V) (ts : Instant) : gmap K (V * Instant) :=
  if is_map_disabled cfg then m else <[key := (v, ts)]> m.
(** [v] is the last value written under the key, and its time to live has not passed. *)
Definition current m (key : K) (v : V) (now : Instant) : Prop :=
  exists ts, m !! key = Some (v, ts) /\ is_expired_by_ttl (time_to_live (expiration_policy cfg)) ts now = false.
Definition rejects (ignore_if : option (V -> bool)) (v : V) : bool := match ignore_if with Some f => f v | None => false end.

(** An initialising call whose closure gives [out]: it returns a current value with
    no change, at the lookup or under the waiter, or what the closure gives.  An
    entry found by the lookup has the key [khit], any other [k]. *)
Inductive init_allowed {E} m ce (key : K) (ignore_if : option (V -> bool)) (khit k : option K) (out : option (V + E))
    : unwind (Entry K V + E) -> gmap K (V * Instant) -> Prop :=
| init_hit v : current m key v (get_now ce) -> rejects ignore_if v = false ->
    init_allowed m ce key ignore_if khit k out (Returned (inl (mkEntry khit v false false))) m
| init_read v : current m key v (reget_now ce) -> rejects ignore_if v = false ->
    init_allowed m ce key ignore_if khit k out (Returned (inl (mkEntry k v false false))) m
| init_fresh v : out = Some (inl v) ->
    init_allowed m ce key ignore_if khit k out (Returned (inl (mkEntry k v true false))) (put m key v (write_now ce))
| init_error e : out = Some (inr e) -> init_allowed m ce key ignore_if khit k out (Returned (inr e)) m
| init_panic : out = None -> init_allowed m ce key ignore_if khit k out Unwound m.

(** A computing call gives its closure [None] or a current value, and does what the
    closure decides. *)
Definition seen_entry (key : K) (seen : option V) : option (Entry K V) := (fun v => mkEntry (Some key) v false false) <$> seen.
Inductive compute_allowed {E} m ce (key : K) (f : option (Entry K V) -> option (Op V + E)) (seen : option V)
    : unwind (CompResult K V + E) -> gmap K (V * Instant) -> Prop :=
| compute_panic : f (seen_entry key seen) = None -> compute_allowed m ce key f seen Unwound m
| compute_error e : f (seen_entry key seen) = Some (inr e) -> compute_allowed m ce key f seen (Returned (inr e)) m
| compute_nop : f (seen_entry key seen) = Some (inl Nop) ->
    compute_allowed m ce key f seen
      (Returned (inl match seen_entry key seen with Some e => Unchanged e | None => StillNone key end)) m
| compute_put v : f (seen_entry key seen) = Some (inl (Put v)) ->
    compute_allowed m ce key f seen
      (Returned (inl match seen with
                     | Some _ => ReplacedWith (mkEntry (Some key) v true true)
                     | None => CompInserted (mkEntry (Some key) v true false)
                     end)) (put m key v (write_now ce))
| compute_remove o : f (seen_entry key seen) = Some (inl RemoveOp) ->
    (forall v, o = Some v -> exists ts, m !! key = Some (v, ts)) ->
    compute_allowed m ce key f seen
      (Returned (inl match seen_entry key o with Some e => CompRemoved e | None => StillNone key end)) (delete key m).
Definition compute_spec {E} m ce (key : K) (f : option (Entry K V) -> option (Op V + E))
    (u : unwind (CompResult K V + E)) (m' : gmap K (V * Instant)) : Prop :=
  exists seen, (forall v, seen = Some v -> current m key v (get_now ce)) /\ compute_allowed m ce key f seen u m'.

(** What the user gets out of the result of a computation: [unwrap] panics if and only
    if [into_entry] gives nothing; an entry it gives has its key, and a fresh one has
    the value that is now in the map. *)
Lemma computed_entry {E} m ce key (f : option (Entry K V) -> option (Op V + E)) r m' :
  compute_spec m ce key f (Returned (inl r)) m' ->
  match into_entry r with
  | Some e => comp_unwrap r = Ok e /\ entry_key e = Ok key /\
      (is_fresh e = true -> is_map_disabled cfg = false -> m' !! key = Some (en_value e, write_now ce))
  | None => comp_unwrap r = Fail UnwrapNone
  end.
Proof.
  intros (seen & _ & Hr). inversion Hr as [| |Ho|v Ho|o Ho Ho']; subst; unfold seen_entry; cbn.
  - by destruct seen.
  - destruct seen; cbn; (do 2 (split; [done|])); intros _ Hd; unfold put; rewrite Hd; apply lookup_insert_eq.
  - by destruct o.
Qed.

(** What the replies show of an outcome. *)
Definition reply_with {R S E} (f : R -> reply (K := K) (V := V) E) (g : S -> reply E) (u : unwind (R + S)) : reply E :=
  match u with Returned (inl r) => f r | Returned (inr e) => g e | Unwound => AUnwound end.
(** For a closure that gives no error. *)
Definition plain_reply {R E} (f : R -> reply (K := K) (V := V) E) : unwind (R + unit) -> reply E := reply_with f (fun _ => AUnwound).
(** For a closure that gives [None]. *)
Definition option_reply {E} (f : option (Entry K V) -> reply (K := K) (V := V) E) : unwind (Entry K V + unit) -> reply E :=
  reply_with (fun e => f (Some e)) (fun _ => f None).
Definition value_reply {E} (e : Entry K V) : reply (K := K) (V := V) E := AValue (Some (en_value e)).
Definition upserted {E} (r : CompResult K V) : reply (K := K) (V := V) E :=
  AEntry match r with CompInserted e | ReplacedWith e => Some e | _ => None end.
Definition plain_out (init : option V) : option (V + unit) := inl <$> init.
Definition option_out (init : option (option V)) : option (V + unit) :=
  (fun o => match o with Some v => inl v | None => inr tt end) <$> init.

Variable default : V.
Definition select_allowed {E} m ce (by_ref : bool) (key : K) (q : selection (K := K) (V := V) E) (a : reply E) m' : Prop :=
  let k := Some key in
  match q with
  | AndComputeWith f => exists u, compute_spec (E := unit) m ce key (fun o => inl <$> f o) u m' /\ a = plain_reply AComp u
  | AndTryComputeWith f => exists u, compute_spec m ce key f u m' /\ a = reply_with AComp AError u
  | AndUpsertWith f =>
      exists u, compute_spec (E := unit) m ce key (fun o => inl ∘ Put <$> f o) u m' /\ a = plain_reply upserted u
  | OrDefault => exists u, init_allowed m ce key None k k (plain_out (Some default)) u m' /\ a = plain_reply some_entry u
  | OrInsert v => exists u, init_allowed m ce key None k k (plain_out (Some v)) u m' /\ a = plain_reply some_entry u
  | OrInsertWith init => exists u, init_allowed m ce key None k k (plain_out init) u m' /\ a = plain_reply some_entry u
  | OrInsertWithIf init p =>
      exists u, init_allowed m ce key (Some p) k k (plain_out init) u m' /\ a = plain_reply some_entry u
  | OrOptionallyInsertWith init =>
      exists u, init_allowed m ce key None k k (option_out init) u m' /\ a = option_reply AEntry u
  | OrTryInsertWith _ init =>
      exists u, init_allowed m ce key None (if by_ref then None else k) k init u m' /\ a = reply_with some_entry AError u
  end.

Definition allowed {E} m ce (q : request (K := K) (V := V) E) (a : reply E) m' : Prop :=
  match q with
  | QContains key => m' = m /\ exists b, a = ABool b /\ (b = true -> exists v, current m key v (get_now ce))
  | QGet key => m' = m /\ exists o, a = AValue o /\ (forall v, o = Some v -> current m key v (get_now ce))
  | QInsert key v => m' = put m key v (write_now ce) /\ a = AUnit
  | QInvalidate key => m' = delete key m /\ a = AUnit
  | QRemove key => m' = delete key m /\ exists o, a = AValue o /\ (forall v, o = Some v -> exists ts, m !! key = Some (v, ts))
  | QInvalidateAll | QRunPendingTasks => m' = m /\ a = AUnit
  | QGetWith _ key init => exists u, init_allowed m ce key None None None (plain_out init) u m' /\ a = plain_reply value_reply u
  | QGetWithIf key init p =>
      exists u, init_allowed m ce key (Some p) None None (plain_out init) u m' /\ a = plain_reply value_reply u
  | QOptionallyGetWith _ key init =>
      exists u, init_allowed m ce key None None None (option_out init) u m' /\ a = option_reply (fun o => AValue (option_map en_value o)) u
  | QTryGetWith _ _ key init =>
      exists u, init_allowed m ce key None None None init u m' /\ a = reply_with value_reply AError u
  | QEntry by_ref key q => select_allowed m ce by_ref key q a m'
  end.

(** The replies to a sequence of requests. *)
Fixpoint all_allowed {E} m (qs : list (CallEnv * request (K := K) (V := V) E)) (l : list (reply E)) m' : Prop :=
  match qs, l with
  | [], [] => m' = m
  | (ce, q) :: qs, a :: l => exists m1, allowed m ce q a m1 /\ all_allowed m1 qs l m'
  | _, _ => False
  end.

(** Clock readings are proper instants, and the maintenance lock is found free by
    one of the attempts to record a write. *)
Record call_env_ok ce : Prop := {
  ok_get : instant_ok (get_now ce);
  ok_get_env : env_ok (get_env ce);
  ok_reget : instant_ok (reget_now ce);
  ok_write : instant_ok (write_now ce);
  ok_envs : Forall env_ok (write_envs ce);
  ok_free : Exists (fun env => hk_locked env = false) (write_envs ce)
}.
End spec.

Section client.
Context {K V : Type} `{Countable K}.
Variable cfg : Config K V.
Context (Huser : user_ok cfg) (Hsafe : sketch_safe cfg).
Implicit Types (m : gmap K (V * Instant)) (ce : CallEnv) (b : BaseCache K V) (c : Cache K V) (w : gset (K * Z)).

(** ** The operations of the cache *)

Definition base_inv (n : Z) m b : Prop := sys_inv cfg n m (mkSys b []) /\ (is_map_disabled cfg = true -> m = ∅).

Lemma sys_inv_mono n n' m sys : n <= n' -> sys_inv cfg n m sys -> sys_inv cfg n' m sys.
Proof. intros Hn [I Hhk Hf [Hb1 Hb2] Hr Hw Hs]. split; try done. split; unfold U32_MAX in *; nia. Qed.
Lemma base_inv_mono n n' m b : n <= n' -> base_inv n m b -> base_inv n' m b.
Proof. intros Hn [S Hd]. split; [by eapply sys_inv_mono|done]. Qed.

Definition hit m (key : K) (ignore_if : option (V -> bool)) (need_key : bool) (now : Instant) (o : option (Entry K V)) : Prop :=
  forall e, o = Some e -> exists v, e = mkEntry (key_if need_key key) v false false /\ current cfg m key v now /\
    rejects ignore_if v = false.

(** A lookup returns what its search finds. *)
Lemma get_found b key hash record ignore_if need_key now b' o :
  do_get_with_hash cfg b key hash record ignore_if need_key now = Ok (b', o) ->
  if is_map_disabled cfg then o = None
  else exists found, find_valid cfg (inner b) key ignore_if now = Ok found /\
    o = (fun ve => mkEntry (key_if need_key key) (value ve) false false) <$> found.
Proof.
  unfold do_get_with_hash. destruct (is_map_disabled cfg); [congruence|]. intros (found & Ef & E)%bind_Ok.
  exists found. split; [done|]. destruct found as [ve|].
  - apply bind_Ok in E as ([[s t] x] & _ & E). apply bind_Ok in E as (b1 & _ & E). by injection E as <- <-.
  - apply bind_Ok in E as (b1 & _ & E). by injection E as <- <-.
Qed.
Lemma find_valid_accepts s key ignore_if now ve :
  find_valid cfg s key ignore_if now = Ok (Some ve) -> rejects ignore_if (value ve) = false.
Proof.
  unfold find_valid. destruct (cache s !! key) as [ve'|]; [|done]. fold (rejects ignore_if (value ve')).
  destruct (rejects ignore_if (value ve')) eqn:Hr; [done|]. intros (ei & _ & E)%bind_Ok. destruct (is_hidden _ _ _ _ _ _); [done|].
  by injection E as <-.
Qed.

Lemma get_returns n m b key record ignore_if need_key now :
  base_inv n m b -> n <= MAX_WRITES -> instant_ok now -> (forall env, record = Some env -> env_ok env) ->
  returns (do_get_with_hash cfg b key (hash_of cfg key) record ignore_if need_key now)
    (fun r => base_inv n m (fst r) /\ hit m key ignore_if need_key now (snd r)).
Proof.
  intros [S Hd] Hn Hnow Henv.
  destruct (exec_get cfg Huser Hsafe n m _ key ignore_if need_key now record S Hn Hnow Henv) as (sys' & o & E & S' & Ho).
  apply bind_Ok in E as ([b' o'] & E & E'). injection E' as <- <-. exists (b', o'). split; [exact E|]. split; [by split|].
  intros e He. cbn in He. subst o'. pose proof (get_found _ _ _ _ _ _ _ _ _ E) as Hg.
  destruct (is_map_disabled cfg); [done|]. destruct Hg as ([ve|] & Hf & [= ->]).
  exists (value ve). split; [done|]. destruct Ho as (ts & _ & _ & Hm & _ & _ & _ & _ & Hex & _). split; [by exists ts|by eapply find_valid_accepts].
Qed.

(** A lookup finds what [scanning_get] finds. *)
Lemma get_finds n m b key record need_key now v :
  base_inv n m b -> n <= MAX_WRITES -> instant_ok now -> (forall env, record = Some env -> env_ok env) ->
  scanning_get cfg (inner b) key now = Ok (Some v) ->
  exists b', do_get_with_hash cfg b key (hash_of cfg key) record None need_key now = Ok (b', Some (mkEntry (key_if need_key key) v false false)).
Proof.
  intros I Hn Hnow Henv Hv. destruct (get_returns n m b key record None need_key now I Hn Hnow Henv) as ([b' o] & E & _).
  exists b'. rewrite E. do 2 f_equal. pose proof (get_found _ _ _ _ _ _ _ _ _ E) as Hg. destruct I as [S Hd].
  unfold scanning_get in Hv. destruct (cache (inner b) !! key) as [ve|] eqn:Hc; [|done].
  destruct (is_map_disabled cfg).
  { destruct (si_spec S _ _ Hc) as (ei & _ & Hm & _). rewrite Hd in Hm by done. by rewrite lookup_empty in Hm. }
  destruct Hg as (found & Hf & ->). unfold find_valid in Hf. rewrite Hc in Hf.
  destruct (get_info (mem (inner b)) (info ve)) as [ei|]; [|done]. cbn in Hf, Hv.
  destruct (is_hidden _ _ _ _ _ _); [done|]. injection Hf as <-. injection Hv as <-. done.
Qed.

Lemma log_room b : is_map_disabled cfg = false -> Z.of_nat (length (write_op_ch (inner b))) < WRITE_LOG_FLUSH_POINT ->
  Z.of_nat (length (write_op_ch (inner b))) < channel_capacity cfg WRITE_LOG_CH_SIZE.
Proof.
  intros Hd Hl. unfold channel_capacity. rewrite Hd. assert (WRITE_LOG_FLUSH_POINT <= WRITE_LOG_CH_SIZE) by (by vm_compute). lia.
Qed.

(** The write of an operation is recorded: the operation is in flight until then. *)
Lemma schedule_returns n m op now envs : forall b,
  sys_inv cfg n m (mkSys b [op]) -> n <= MAX_WRITES -> is_map_disabled cfg = false -> Forall env_ok envs ->
  Exists (fun env => hk_locked env = false) envs ->
  returns (schedule_write_op cfg b op now envs) (fun b' => sys_inv cfg n m (mkSys b' [])).
Proof.
  intros b S Hn Hd Hok Hfree. revert b S. induction Hok as [|env envs He Hok IH]; intros b S; [by apply Exists_nil in Hfree|].
  cbn [schedule_write_op].
  destruct (apply_writes_if_needed_ok cfg Hsafe b now env (flight_ready cfg _ _ _ S Hn) He) as (b' & -> & Hb' & M & Hlow).
  cbn [mbind res_bind]. pose proof (maintained_sys cfg _ _ _ _ S Hb' M) as S'. cbn [in_flight] in S'.
  destruct (Z.ltb_spec (Z.of_nat (length (write_op_ch (inner b')))) (channel_capacity cfg WRITE_LOG_CH_SIZE)) as [Hr|Hfull].
  - apply returns_ok. by apply (sent_sys cfg n m _ 0 op S').
  - apply IH; [|done]. apply Exists_cons in Hfree as [Hf|Hf]; [|done].
    assert (Hc : max_capacity cfg <> Some 0) by (by apply bool_decide_eq_false in Hd).
    pose proof (log_room b' Hd (Hlow Hf Hc)). lia.
Qed.

Lemma put_returns n m b ce key v :
  base_inv n m b -> n < MAX_WRITES -> call_env_ok ce ->
  returns (insert_with_hash cfg b key (hash_of cfg key) v (write_now ce) (notify_now ce) (write_envs ce))
    (base_inv (n + 1) (put cfg m key v (write_now ce))).
Proof.
  intros [S Hd] Hn Hce. destruct (exec_insert cfg Huser n m _ key v (write_now ce) (notify_now ce) S (ok_write _ Hce)) as (sys' & o & E & S').
  unfold insert_with_hash, put, base_inv. cbn [exec spec_step base in_flight] in E, S'. destruct (is_map_disabled cfg) eqn:Hdis.
  - apply returns_ok. by injection E as <- <-.
  - apply bind_Ok in E as ([s op] & E & E'). injection E' as <- <-. unfold hash_of. rewrite E. cbn [mbind res_bind].
    eapply returns_mono; [eapply schedule_returns; [exact S'|lia|done|apply Hce|apply Hce]|by intros].
Qed.

Lemma invalidate_returns n m b ce key need_value :
  base_inv n m b -> n <= MAX_WRITES -> call_env_ok ce ->
  returns (invalidate_with_hash cfg b key need_value (write_now ce) (notify_now ce) (write_envs ce))
    (fun r => base_inv n (delete key m) (fst r) /\ forall v, snd r = Some v -> exists ts, m !! key = Some (v, ts)).
Proof.
  intros [S Hd] Hn Hce. destruct (exec_invalidate cfg n m _ key (notify_now ce) S) as (sys' & o & E & S').
  apply bind_Ok in E as ([s r] & E & E'). injection E' as <- <-. unfold invalidate_with_hash. cbn [base] in E. rewrite E.
  cbn [mbind res_bind].
  destruct (do_invalidate_ok cfg (inner b) key (notify_now ce) (si_cache S)) as (s1 & r1 & E1 & _ & _ & _ & _ & Ho & _).
  rewrite E in E1. injection E1 as <- <-.
  assert (Hd' : is_map_disabled cfg = true -> delete key m = ∅) by (intros; rewrite Hd by done; apply delete_empty).
  destruct r as [[kv op]|]; [|by apply returns_ok; split].
  destruct Ho as (Hc & _). destruct (si_spec S _ _ Hc) as (ei & _ & Hm & _).
  eapply returns_bind; [eapply schedule_returns; [exact S'|done| |apply Hce|apply Hce]|].
  - destruct (is_map_disabled cfg); [|done]. rewrite Hd in Hm by done. by rewrite lookup_empty in Hm.
  - intros b' S1. apply returns_ok. split; [by split|]. cbn. intros v Hv. destruct need_value; [injection Hv as <-; eauto|done].
Qed.

(** ** The calls *)

Definition client_inv (n : Z) m w c : Prop := base_inv n m (c_base c) /\ waiting c = w.

Lemma cache_get_returns n m w c ce key need_key :
  client_inv n m w c -> n <= MAX_WRITES -> call_env_ok ce ->
  returns (cache_get_with_hash cfg c ce key (hash_of cfg key) need_key)
    (fun r => client_inv n m w (fst r) /\ hit m key None need_key (get_now ce) (snd r)).
Proof.
  intros [I Hw] Hn Hce. eapply returns_bind.
  - apply (get_returns n m _ key (Some (get_env ce)) None need_key (get_now ce) I Hn (ok_get _ Hce)).
    intros env [= <-]. apply Hce.
  - intros [b o] [I' Ho]. by apply returns_ok.
Qed.

Lemma get_ignoring_returns n m w c ce key ignore_if need_key :
  client_inv n m w c -> n <= MAX_WRITES -> call_env_ok ce ->
  returns (get_with_hash_and_ignore_if cfg (c_base c) key (hash_of cfg key) ignore_if need_key (get_now ce) (get_env ce))
    (fun r => client_inv n m w (with_base c (fst r)) /\ hit m key ignore_if need_key (get_now ce) (snd r)).
Proof.
  intros [I Hw] Hn Hce. eapply returns_mono.
  - apply (get_returns n m _ key (Some (get_env ce)) ignore_if need_key (get_now ce) I Hn (ok_get _ Hce)).
    intros env [= <-]. apply Hce.
  - by intros [b o] [I' Ho].
Qed.

Lemma reget_returns n m w c ce key ignore_if :
  client_inv n m w c -> n <= MAX_WRITES -> call_env_ok ce ->
  returns (lookup_without_recording cfg ce key (hash_of cfg key) ignore_if c)
    (fun r => client_inv n m w (fst r) /\ forall v, snd r = Some v -> current cfg m key v (reget_now ce) /\ rejects ignore_if v = false).
Proof.
  intros [I Hw] Hn Hce. unfold lookup_without_recording, get_with_hash_without_recording.
  destruct (get_returns n m _ key None ignore_if false (reget_now ce) I Hn (ok_reget _ Hce)) as ([b o] & -> & I' & Ho); [done|].
  apply returns_ok. split; [by split|]. cbn. intros v Hv. destruct o as [e|]; [|done].
  destruct (Ho e eq_refl) as (v' & -> & Hc & Hr). by injection Hv as <-.
Qed.

Lemma cache_insert_returns n m w c ce key v :
  client_inv n m w c -> n < MAX_WRITES -> call_env_ok ce ->
  returns (cache_insert_with_hash cfg c ce key (hash_of cfg key) v) (client_inv (n + 1) (put cfg m key v (write_now ce)) w).
Proof. intros [I Hw] Hn Hce. eapply returns_bind; [by apply put_returns|]. intros b I'. by apply returns_ok. Qed.

Lemma cache_invalidate_returns n m w c ce key need_value :
  client_inv n m w c -> n <= MAX_WRITES -> call_env_ok ce ->
  returns (cache_invalidate_with_hash cfg c ce key need_value)
    (fun r => client_inv n (delete key m) w (fst r) /\ forall v, snd r = Some v -> exists ts, m !! key = Some (v, ts)).
Proof. intros [I Hw] Hn Hce. eapply returns_bind; [by eapply invalidate_returns|]. intros [b o] [I' Ho]. by apply returns_ok. Qed.

Lemma client_inv_mono n m w c : client_inv n m w c -> client_inv (n + 1) m w c.
Proof. intros [I Hw]. split; [eapply base_inv_mono; [|exact I]; lia|done]. Qed.

(** A waiter is inserted for the time of a call. *)
Lemma waiter_inserted n m w c w_key :
  client_inv n m w c -> w_key ∉ w ->
  exists c', try_insert_waiter c w_key = Some c' /\ client_inv n m ({[w_key]} ∪ w) c'.
Proof.
  intros [I Hw] Hk. unfold try_insert_waiter. rewrite bool_decide_eq_false_2 by (by rewrite Hw).
  eexists. split; [reflexivity|]. split; [done|]. cbn. by rewrite Hw.
Qed.
Lemma waiter_removed n m w c w_key :
  client_inv n m ({[w_key]} ∪ w) c -> w_key ∉ w -> client_inv n m w (remove_waiter c w_key).
Proof. intros [I Hw] Hk. split; [done|]. cbn. rewrite Hw. set_solver. Qed.

(** The outcome of a call that returns an entry. *)
Definition init_outcome {E} (k : option K) : unwind (InitResult V E) -> unwind (Entry K V + E) :=
  map_unwind (fun r => match r with
                       | Initialized v => inl (mkEntry k v true false)
                       | ReadExisting v => inl (mkEntry k v false false)
                       | InitErr e => inr e
                       end).

Lemma try_init_or_read_returns {O E} n m w c ce key ty ignore_if khit k (init : option O) (post_init : O -> V + E) :
  client_inv n m w c -> n < MAX_WRITES -> call_env_ok ce -> (key, ty) ∉ w ->
  returns (try_init_or_read c (key, ty) (lookup_without_recording cfg ce key (hash_of cfg key) ignore_if) init
             (fun c v => cache_insert_with_hash cfg c ce key (hash_of cfg key) v) post_init)
    (fun r => exists m', client_inv (n + 1) m' w (fst r) /\
       init_allowed cfg m ce key ignore_if khit k (post_init <$> init) (init_outcome k (snd r)) m').
Proof.
  intros I Hn Hce Hk. unfold try_init_or_read. destruct (waiter_inserted _ _ _ _ _ I Hk) as (c1 & -> & I1).
  eapply returns_bind; [eapply (reget_returns n m); [exact I1|lia|done]|]. intros [c2 o] [I2 Ho]. cbn [fst snd] in *. destruct o as [v|].
  { apply returns_ok. exists m. split; [by apply waiter_removed, Hk; apply client_inv_mono|]. by apply init_read; apply Ho. }
  destruct init as [out|].
  2:{ apply returns_ok. exists m. split; [by apply waiter_removed, Hk; apply client_inv_mono|]. by apply init_panic. }
  destruct (post_init out) as [v|e] eqn:Hp.
  - eapply returns_bind; [by eapply cache_insert_returns|]. intros c3 I3. apply returns_ok.
    eexists. split; [by apply waiter_removed, Hk|]. apply init_fresh. cbn. by rewrite Hp.
  - apply returns_ok. exists m. split; [by apply waiter_removed, Hk; apply client_inv_mono|]. apply init_error. cbn. by rewrite Hp.
Qed.

Lemma try_compute_returns {O E} n m w c ce key (f : option (Entry K V) -> option O) (post_init : O -> Op V + E) allow_nop :
  client_inv n m w c -> n < MAX_WRITES -> call_env_ok ce -> (key, TYPE_COMPUTE_NONE) ∉ w ->
  (forall x, post_init x = inl Nop -> allow_nop = true) ->
  returns (try_compute cfg c ce key (hash_of cfg key) f post_init allow_nop)
    (fun r => exists m', client_inv (n + 1) m' w (fst r) /\ compute_spec cfg m ce key (fun o => post_init <$> f o) (snd r) m').
Proof.
  intros I Hn Hce Hk Hnop. unfold try_compute. destruct (waiter_inserted _ _ _ _ _ I Hk) as (c1 & -> & I1).
  eapply returns_bind; [eapply (get_ignoring_returns n m); [exact I1|lia|done]|]. intros [b1 o] [I2 Ho]. cbn [fst snd] in *.
  assert (Hseen : exists seen, o = seen_entry key seen /\ forall v, seen = Some v -> current cfg m key v (get_now ce)).
  { destruct o as [e|]; [|by exists None]. destruct (Ho e eq_refl) as (v & -> & Hc & _). exists (Some v).
    split; [done|]. by intros ? [= <-]. }
  destruct Hseen as (seen & -> & Hseen). set (c2 := with_base c1 b1) in *.
  destruct (f (seen_entry key seen)) as [out|] eqn:Hf.
  2:{ apply returns_ok. exists m. split; [by apply waiter_removed, Hk; apply client_inv_mono|]. exists seen. split; [done|].
      apply compute_panic. by rewrite Hf. }
  destruct (post_init out) as [op|e] eqn:Hp.
  2:{ apply returns_ok. exists m. split; [by apply waiter_removed, Hk; apply client_inv_mono|]. exists seen. split; [done|].
      apply compute_error. rewrite Hf. cbn. by rewrite Hp. }
  assert (Hout : post_init <$> f (seen_entry key seen) = Some (inl op)) by (rewrite Hf; cbn; by rewrite Hp).
  eapply (returns_bind _ _ (fun r => exists m', client_inv (n + 1) m' ({[(key, TYPE_COMPUTE_NONE)]} ∪ w) (fst r) /\
    compute_allowed cfg m ce key (fun o => post_init <$> f o) seen (Returned (inl (snd r))) m')).
  2:{ intros [c3 r] (m' & I3 & Hr). apply returns_ok. exists m'. split; [by apply waiter_removed|]. by exists seen. }
  destruct op as [|v|].
  - apply returns_ok. exists m. split; [by apply client_inv_mono|]. rewrite (Hnop _ Hp).
    replace (match option_map en_value (seen_entry key seen) with Some value => _ | None => _ end)
      with (match seen_entry key seen with Some e => Unchanged e | None => StillNone key end) by (by destruct seen).
    by apply compute_nop.
  - eapply returns_bind; [by eapply cache_insert_returns|]. intros c3 I3. apply returns_ok. eexists. split; [exact I3|].
    replace (if bool_decide (is_Some (seen_entry key seen)) then _ else _)
      with (match seen with Some _ => ReplacedWith (mkEntry (Some key) v true true) | None => CompInserted (mkEntry (Some key) v true false) end)
      by (by destruct seen). by apply compute_put.
  - eapply returns_bind; [eapply (cache_invalidate_returns n m); [exact I2|lia|done]|]. intros [c3 o] [I3 Ho3]. apply returns_ok.
    eexists. split; [by apply client_inv_mono|].
    replace (match o with Some prev_v => _ | None => _ end)
      with (match seen_entry key o with Some e => CompRemoved e | None => StillNone key end) by (by destruct o).
    by apply compute_remove.
Qed.

(** The state and the outcome of a call that no other encloses. *)
Definition outcome_ok {R} n (P : R -> gmap K (V * Instant) -> Prop) (r : Cache K V * R) : Prop :=
  exists m', client_inv (n + 1) m' ∅ (fst r) /\ P (snd r) m'.
Lemma outcome_mono {R} n (P Q : R -> gmap K (V * Instant) -> Prop) r :
  outcome_ok n P r -> (forall u m', P u m' -> Q u m') -> outcome_ok n Q r.
Proof. intros (m' & I & HP) HQ. exists m'. auto. Qed.
Lemma outcome_same {R} n m c (P : R -> gmap K (V * Instant) -> Prop) u : client_inv n m ∅ c -> P u m -> outcome_ok n P (c, u).
Proof. intros I HP. exists m. split; [by apply client_inv_mono|done]. Qed.

Section calls.
Context (n : Z) (m : gmap K (V * Instant)) (ce : CallEnv) (key : K).
Context (Hn : n < MAX_WRITES) (Hce : call_env_ok ce).
#[local] Notation hash := (hash_of cfg key).

Lemma hit_allowed {E} c need_key ignore_if khit k (out : option (V + E)) e :
  client_inv n m ∅ c -> hit m key ignore_if need_key (get_now ce) (Some e) -> khit = key_if need_key key ->
  outcome_ok n (init_allowed cfg m ce key ignore_if khit k out) (c, Returned (inl e)).
Proof.
  intros I Hh ->. eapply outcome_same; [done|]. destruct (Hh e eq_refl) as (v & -> & Hc & Hr). by apply init_hit.
Qed.

(** The entry a lookup finds is returned, with the key that was asked for. *)
Definition returned {E} (u : unwind (Entry K V)) : unwind (Entry K V + E) := map_unwind inl u.

Lemma insert_fun_returns c init replace_if khit need_key :
  client_inv n m ∅ c ->
  returns (insert_with_hash_and_fun cfg c ce key hash init replace_if need_key)
    (outcome_ok n (fun u => init_allowed cfg m ce key replace_if khit (key_if need_key key) (plain_out init) (returned u))).
Proof.
  intros I. eapply returns_bind.
  { by apply (try_init_or_read_returns n m ∅ c ce key TYPE_UNIT replace_if khit (key_if need_key key) init post_init_for_get_with). }
  intros [c' r] (m' & I' & Hr). cbn [fst snd] in *.
  destruct r as [[v|v|e]|]; try (apply returns_ok; exists m'; by split).
  exfalso. inversion Hr as [| | |? Ho|]. by destruct init.
Qed.

Lemma get_or_insert_fun_returns c init replace_if need_key :
  client_inv n m ∅ c ->
  returns (get_or_insert_with_hash_and_fun cfg c ce key hash init replace_if need_key)
    (outcome_ok n (fun u => init_allowed cfg m ce key replace_if (key_if need_key key) (key_if need_key key) (plain_out init) (returned u))).
Proof.
  intros I. eapply returns_bind; [eapply (get_ignoring_returns n m); [exact I|lia|done]|]. intros [b [e|]] [I' Hh].
  - apply returns_ok. by destruct (hit_allowed (E := unit) _ _ _ _ (key_if need_key key) (plain_out init) _ I' Hh eq_refl) as (m' & HI & Ha); exists m'.
  - by apply insert_fun_returns.
Qed.

Lemma get_or_insert_returns c init :
  client_inv n m ∅ c ->
  returns (get_or_insert_with_hash cfg c ce key hash init)
    (outcome_ok n (fun u => init_allowed cfg m ce key None (Some key) (Some key) (plain_out init) (returned u))).
Proof.
  intros I. eapply returns_bind; [eapply (cache_get_returns n m ∅); [exact I|lia|done]|]. intros [c' [e|]] [I' Hh]; cbn [fst snd] in *.
  - apply returns_ok. by destruct (hit_allowed (E := unit) _ true _ _ (Some key) (plain_out init) _ I' Hh eq_refl) as (m' & HI & Ha); exists m'.
  - destruct init as [v|].
    + eapply returns_bind; [by eapply cache_insert_returns|]. intros c2 I2. apply returns_ok. eexists. split; [exact I2|]. by apply init_fresh.
    + apply returns_ok. eapply outcome_same; [done|]. by apply init_panic.
Qed.

Definition optional (u : unwind (option (Entry K V))) : unwind (Entry K V + unit) :=
  map_unwind (fun o => match o with Some e => inl e | None => inr tt end) u.
Lemma get_or_optionally_returns c init need_key :
  client_inv n m ∅ c ->
  returns (get_or_optionally_insert_with_hash_and_fun cfg c ce key hash init need_key)
    (outcome_ok n (fun u => init_allowed cfg m ce key None (key_if need_key key) (key_if need_key key) (option_out init) (optional u))).
Proof.
  intros I. eapply returns_bind; [eapply (cache_get_returns n m ∅); [exact I|lia|done]|]. intros [c' [e|]] [I' Hh]; cbn [fst snd] in *.
  - apply returns_ok. by destruct (hit_allowed (E := unit) _ need_key _ _ (key_if need_key key) (option_out init) _ I' Hh eq_refl) as (m' & HI & Ha); exists m'.
  - eapply returns_bind.
    { by apply (try_init_or_read_returns n m ∅ c' ce key TYPE_OPTIONALLY_NONE None (key_if need_key key) (key_if need_key key) init
        (post_init_for_optionally_get_with tt)). }
    intros [c2 r] (m' & I2 & Hr). cbn [fst snd] in *.
    destruct r as [[v|v|[]]|]; apply returns_ok; exists m'; (split; [done|]); exact Hr.
Qed.

Lemma try_insert_returns {E} c ty khit (init : option (V + E)) need_key :
  client_inv n m ∅ c ->
  returns (try_insert_with_hash_and_fun cfg ty c ce key hash init need_key)
    (outcome_ok n (init_allowed cfg m ce key None khit (key_if need_key key) init)).
Proof.
  intros I. eapply returns_bind.
  { by apply (try_init_or_read_returns n m ∅ c ce key ty None khit (key_if need_key key) init post_init_for_try_get_with). }
  intros [c2 r] (m' & I2 & Hr). cbn [fst snd] in *. replace (post_init_for_try_get_with <$> init) with init in Hr by (by destruct init).
  destruct r as [[v|v|e]|]; apply returns_ok; exists m'; (split; [done|]); exact Hr.
Qed.
Lemma get_or_try_returns {E} c ty (init : option (V + E)) need_key :
  client_inv n m ∅ c ->
  returns (get_or_try_insert_with_hash_and_fun cfg ty c ce key hash init need_key)
    (outcome_ok n (init_allowed cfg m ce key None (key_if need_key key) (key_if need_key key) init)).
Proof.
  intros I. eapply returns_bind; [eapply (cache_get_returns n m ∅); [exact I|lia|done]|]. intros [c' [e|]] [I' Hh]; cbn [fst snd] in *.
  - apply returns_ok. by eapply hit_allowed.
  - by apply try_insert_returns.
Qed.
Lemma get_or_try_by_ref_returns {E} c ty (init : option (V + E)) need_key :
  client_inv n m ∅ c ->
  returns (get_or_try_insert_with_hash_by_ref_and_fun cfg ty c ce key hash init need_key)
    (outcome_ok n (init_allowed cfg m ce key None None (key_if need_key key) init)).
Proof.
  intros I. eapply returns_bind; [eapply (cache_get_returns n m ∅); [exact I|lia|done]|]. intros [c' [e|]] [I' Hh]; cbn [fst snd] in *.
  - apply returns_ok. by eapply (hit_allowed _ false).
  - by apply try_insert_returns.
Qed.

Lemma compute_returns c f :
  client_inv n m ∅ c ->
  returns (compute_with_hash_and_fun cfg c ce key hash f)
    (outcome_ok n (fun u => compute_spec cfg (E := unit) m ce key (fun o => inl <$> f o) (map_unwind inl u))).
Proof.
  intros I. eapply returns_bind; [by apply (try_compute_returns n m ∅ c ce key f (post_init_for_compute_with (E := unit)) true)|].
  intros [c' r] (m' & I' & Hr). cbn [fst snd] in *. destruct r as [[r|e]|]; try (apply returns_ok; exists m'; by split).
  exfalso. destruct Hr as (seen & _ & Hr). inversion Hr as [|? Ho| | |]. by destruct (f _).
Qed.
Lemma try_compute_fun_returns {E} c (f : option (Entry K V) -> option (Op V + E)) :
  client_inv n m ∅ c ->
  returns (try_compute_with_hash_and_fun cfg c ce key hash f) (outcome_ok n (compute_spec cfg m ce key f)).
Proof.
  intros I. eapply returns_mono; [by apply (try_compute_returns n m ∅ c ce key f post_init_for_try_compute_with true)|].
  intros r (m' & I' & seen & Hs & Hr). exists m'. split; [done|]. exists seen. split; [done|].
  assert (Hf : post_init_for_try_compute_with <$> f (seen_entry key seen) = f (seen_entry key seen)) by (by destruct (f _)).
  destruct Hr as [Ho|? Ho|Ho|? Ho|? Ho Hp]; rewrite Hf in Ho; by constructor.
Qed.
Lemma upsert_returns c f :
  client_inv n m ∅ c ->
  returns (upsert_with_hash_and_fun cfg c ce key hash f)
    (outcome_ok n (fun u m' => exists u', compute_spec cfg (E := unit) m ce key (fun o => inl ∘ Put <$> f o) u' m' /\
       plain_reply (E := unit) upserted u' = match u with Returned e => AEntry (Some e) | Unwound => AUnwound end)).
Proof.
  intros I. eapply returns_bind; [by apply (try_compute_returns n m ∅ c ce key f (post_init_for_upsert_with (E := unit)) false)|].
  intros [c' r] (m' & I' & Hr). cbn [fst snd] in *.
  assert (Hr' := Hr). destruct Hr' as (seen & _ & Ha). inversion Ha as [Ho|? Ho|Ho|v Ho|? Ho]; subst; try (by destruct (f _)).
  - apply returns_ok. exists m'. split; [done|]. by exists Unwound.
  - destruct seen; apply returns_ok; (eexists; split; [exact I'|]); (eexists; split; [exact Hr|done]).
Qed.
End calls.

(** ** The requests *)

Lemma contains_returns n m w c ce key :
  client_inv n m w c ->
  returns (contains_key cfg c ce key) (fun found : bool => found = true -> exists v, current cfg m key v (get_now ce)).
Proof.
  intros [[S _] _]. unfold contains_key, contains_key_with_hash.
  destruct (cache (inner (c_base c)) !! key) as [ve|] eqn:Hc; [|by apply returns_ok].
  destruct (si_spec S _ _ Hc) as (ei & He & Hm & _). cbn [base] in He. rewrite (get_info_ok _ _ _ He). apply returns_ok.
  intros Hh%negb_true_iff. exists (value ve), (ei_last_modified ei). split; [done|].
  destruct (si_cache S) as (_ & P & Q & B & I). eapply not_hidden; [done|].
  unfold last_modified. apply instant_ok_some, (i_wf I _ _ He).
Qed.

Section requests.
Context {E : Type} (default : V) (n : Z) (m : gmap K (V * Instant)) (ce : CallEnv).
Context (Hn : n < MAX_WRITES) (Hce : call_env_ok ce).
Implicit Types (P : gmap K (V * Instant) -> Prop) (a : reply (K := K) (V := V) E).

Lemma answer_returns {R} (f : R -> reply E) M (P : unwind R -> gmap K (V * Instant) -> Prop) (Q : reply E -> gmap K (V * Instant) -> Prop) :
  returns M (outcome_ok n P) ->
  (forall u m', P u m' -> Q (match u with Returned r => f r | Unwound => AUnwound end) m') ->
  returns (answer f M) (outcome_ok n Q).
Proof. intros HM HQ. eapply returns_bind; [exact HM|]. intros [c u] (m' & I & HP). apply returns_ok. exists m'. split; [exact I|by apply HQ]. Qed.

(** The call returns by [L]; its outcome is read off with [f]. *)
#[local] Ltac serves L f :=
  eapply answer_returns; [by apply L|]; intros u m' Hu; exists (f u); split; [exact Hu|by destruct u as [[]|] || by destruct u].

Lemma select_returns c by_ref key q :
  client_inv n m ∅ c -> returns (select cfg default c ce by_ref key q) (outcome_ok n (select_allowed cfg default (E := E) m ce by_ref key q)).
Proof.
  intros I. destruct q as [f|f|f| |v|init|init p|init|ty init], by_ref; cbn [select].
  1,2: serves (compute_returns n m) (map_unwind (R := CompResult K V) (S := CompResult K V + unit) inl).
  1,2: serves (@try_compute_fun_returns n m) (fun u : unwind (CompResult K V + E) => u).
  1,2: eapply answer_returns; [by apply (upsert_returns n m)|]; intros u m' (u' & Hu & Hr); exists u'; split; [exact Hu|];
    destruct u, u' as [[]|]; cbn in Hr |- *; unfold upserted, some_entry in *; congruence.
  1-4: serves (get_or_insert_returns n m) (returned (E := unit)).
  1-4: serves (get_or_insert_fun_returns n m) (returned (E := unit)).
  1,2: serves (get_or_optionally_returns n m) optional.
  - serves (@get_or_try_by_ref_returns n m) (fun u : unwind (Entry K V + E) => u).
  - serves (@get_or_try_returns n m) (fun u : unwind (Entry K V + E) => u).
Qed.

(** The same for a call that returns the value of the entry. *)
Lemma answer_value_returns {R S} (g : R -> S) (f : S -> reply E) M (P : unwind R -> gmap K (V * Instant) -> Prop)
    (Q : reply E -> gmap K (V * Instant) -> Prop) :
  returns M (outcome_ok n P) ->
  (forall u m', P u m' -> Q (match map_unwind g u with Returned r => f r | Unwound => AUnwound end) m') ->
  returns (answer f ('(c, r) ← M; Ok (c, map_unwind g r))) (outcome_ok n Q).
Proof.
  intros HM HQ. eapply answer_returns; [|exact (fun u m' HP => HP)]. eapply returns_bind; [exact HM|].
  intros [c u] (m' & I & HP). apply returns_ok. exists m'. split; [exact I|]. cbn. exact (HQ u m' HP).
Qed.
#[local] Ltac serves_value L f :=
  eapply answer_value_returns; [by apply L|]; intros u m' Hu; exists (f u); split; [exact Hu|by destruct u as [[]|] || by destruct u].

(** The requests on the whole cache. *)
Lemma whole_returns c (q : request E) :
  client_inv n m ∅ c -> n <= MAX_WRITES -> q = QInvalidateAll \/ q = QRunPendingTasks ->
  returns (serve cfg default c ce q) (fun r => client_inv n m ∅ (fst r) /\ snd r = AUnit).
Proof.
  intros [[S Hd] Hw] Hn' [-> | ->]; cbn [serve].
  - destruct (exec_invalidate_all cfg n m _ (write_now ce) S (ok_write _ Hce)) as (sys' & o & E1 & S').
    apply bind_Ok in E1 as (s & E1 & E2). injection E2 as <- <-. cbn [base] in E1. rewrite E1. apply returns_ok. split; [split; [by split|done]|done].
  - destruct (exec_run cfg Hsafe n m _ (get_env ce) S Hn' (ok_get_env _ Hce)) as (sys' & o & E1 & S').
    apply bind_Ok in E1 as (b & E1 & E2). injection E2 as <- <-. cbn [base] in E1. rewrite E1. apply returns_ok. split; [split; [by split|done]|done].
Qed.

Lemma serve_returns c q :
  client_inv n m ∅ c -> returns (serve cfg default c ce q) (outcome_ok n (allowed cfg default (E := E) m ce q)).
Proof.
  intros I. assert (Hn' : n <= MAX_WRITES) by lia.
  destruct q as [key|key|key v|key|key| | |by_ref key init|key init p|by_ref key init|by_ref ty key init|by_ref key q]; cbn [serve].
  - eapply returns_bind; [by eapply contains_returns|]. intros found Hf. apply returns_ok.
    eapply outcome_same; [done|]. split; [done|]. by exists found.
  - unfold get. destruct (cache_get_returns n m ∅ c ce key false I Hn' Hce) as ([c' o] & -> & I' & Ho). cbn [mbind res_bind fst snd] in *.
    apply returns_ok. eapply outcome_same; [done|]. split; [done|]. eexists. split; [reflexivity|]. intros v Hv.
    destruct o as [e|]; [|done]. destruct (Ho e eq_refl) as (v' & -> & Hc & _). by injection Hv as <-.
  - eapply returns_bind; [by eapply cache_insert_returns|]. intros c' I'. apply returns_ok. by eexists.
  - unfold invalidate. destruct (cache_invalidate_returns n m ∅ c ce key false I Hn' Hce) as ([c' o] & -> & I' & _). apply returns_ok.
    exists (delete key m). split; [by apply client_inv_mono|done].
  - unfold remove. destruct (cache_invalidate_returns n m ∅ c ce key true I Hn' Hce) as ([c' o] & -> & I' & Ho). apply returns_ok.
    exists (delete key m). split; [by apply client_inv_mono|]. split; [done|]. by exists o.
  - eapply returns_mono; [apply (whole_returns c QInvalidateAll I Hn'); by left|]. intros [c' a] [I' Ha]. by eapply outcome_same.
  - eapply returns_mono; [apply (whole_returns c QRunPendingTasks I Hn'); by right|]. intros [c' a] [I' Ha]. by eapply outcome_same.
  - destruct by_ref; serves_value (get_or_insert_fun_returns n m) (returned (E := unit)).
  - serves_value (get_or_insert_fun_returns n m) (returned (E := unit)).
  - destruct by_ref; serves_value (get_or_optionally_returns n m) optional.
  - destruct by_ref.
    + serves_value (@get_or_try_by_ref_returns n m) (fun u : unwind (Entry K V + E) => u).
    + serves_value (@get_or_try_returns n m) (fun u : unwind (Entry K V + E) => u).
  - by apply select_returns.
Qed.
End requests.
End client.

(** ** The promises to a client *)

(** A call that initialises the key, whatever its closure, and the reply it has when
    a lookup finds [v]. *)
Definition initialises {K V E} (q : request (K := K) (V := V) E) (key : K) : Prop :=
  match q with
  | QGetWith _ k _ | QOptionallyGetWith _ k _ | QTryGetWith _ _ k _ => k = key
  | QEntry _ k (OrDefault | OrInsert _ | OrInsertWith _ | OrOptionallyInsertWith _ | OrTryInsertWith _ _) => k = key
  | _ => False
  end.
Definition hit_reply {K V E} (q : request (K := K) (V := V) E) (v : V) : reply (K := K) (V := V) E :=
  match q with
  | QEntry true _ (OrTryInsertWith _ _) => AEntry (Some (mkEntry None v false false))
  | QEntry _ k _ => AEntry (Some (mkEntry (Some k) v false false))
  | _ => AValue (Some v)
  end.

Section promises.
Context {K V E : Type} `{Countable K}.
Variable cfg : Config K V.
Context (Huser : user_ok cfg) (Hsafe : sketch_safe cfg).
Context (default : V) (listener : option (K -> V -> RemovalCause -> bool)) (config : HousekeeperConfig) (inv_on : bool) (t0 : Instant).
Context (Ht0 : instant_ok t0) (Hrep : 0 <= cfg_max_log_sync_repeats config).

Definition start : res (Cache K V) := cache_with_everything listener config inv_on t0.
(** Requests with the environments they run in. *)
Definition script_ok (qs : list (CallEnv * request (K := K) (V := V) E)) : Prop :=
  Forall (fun q => call_env_ok (fst q)) qs /\ Z.of_nat (length qs) < MAX_WRITES.

Lemma start_client : returns start (client_inv cfg 0 ∅ ∅).
Proof.
  destruct (start_inv cfg listener config inv_on t0 Ht0 Hrep) as (b & E1 & S). unfold start, cache_with_everything. rewrite E1.
  apply returns_ok. by split; [split|].
Qed.

Lemma serve_all_returns : forall (qs : list (CallEnv * request E)) n m c,
  client_inv cfg n m ∅ c -> n + Z.of_nat (length qs) <= MAX_WRITES -> Forall (fun q => call_env_ok (fst q)) qs ->
  returns (serve_all cfg default c qs) (fun r => exists m', client_inv cfg (n + Z.of_nat (length qs)) m' ∅ (fst r) /\
    all_allowed cfg default m qs (snd r) m').
Proof.
  induction qs as [|[ce q] qs IH]; intros n m c I Hn Hqs; cbn [serve_all length] in *.
  { apply returns_ok. exists m. rewrite Z.add_0_r. done. }
  apply Forall_cons in Hqs as [Hq Hqs].
  eapply returns_bind; [apply (serve_returns cfg Huser Hsafe default n m ce); [lia|exact Hq|exact I]|].
  intros [c1 a] (m1 & I1 & Ha). cbn [fst snd] in *. eapply returns_bind; [apply (IH _ _ _ I1); [lia|done]|].
  intros [c2 l] (m2 & I2 & Hl). cbn [fst snd] in *. apply returns_ok. exists m2.
  replace (n + Z.of_nat (S (length qs))) with (n + 1 + Z.of_nat (length qs)) by lia. split; [done|]. by exists m1.
Qed.

Lemma served_inv c0 qs c l :
  start = Ok c0 -> script_ok qs -> serve_all cfg default c0 qs = Ok (c, l) ->
  exists n m, client_inv cfg n m ∅ c /\ n < MAX_WRITES.
Proof.
  intros E0 [Hqs Hn] E1. destruct start_client as (c0' & E0' & I). rewrite E0 in E0'. injection E0' as <-.
  destruct (serve_all_returns qs 0 ∅ c0 I) as ([c' l'] & E1' & m & I' & _); [lia|done|].
  rewrite E1 in E1'. injection E1' as <- <-. eauto with lia.
Qed.

Lemma lookup_finds n m c ce key v need_key :
  base_inv cfg n m (c_base c) -> n < MAX_WRITES -> call_env_ok ce -> scanning_get cfg (inner (c_base c)) key (get_now ce) = Ok (Some v) ->
  exists b', do_get_with_hash cfg (c_base c) key (hash_of cfg key) (Some (get_env ce)) None need_key (get_now ce) =
    Ok (b', Some (mkEntry (key_if need_key key) v false false)).
Proof.
  intros I Hn Hce Hv. eapply (get_finds cfg Huser Hsafe n m); [exact I|lia|apply Hce| |done]. intros env [= <-]. apply Hce.
Qed.


(** An initialising call evaluates its closure only on a miss: when a lookup
    at the time of the call finds a value, the call returns that value, not fresh,
    whatever the closure would give, an error or a panic included. *)
Theorem found_not_initialised c0 qs c l ce q key v :
  start = Ok c0 -> script_ok qs -> serve_all cfg default c0 qs = Ok (c, l) ->
  call_env_ok ce -> initialises q key -> scanning_get cfg (inner (c_base c)) key (get_now ce) = Ok (Some v) ->
  exists c', serve cfg default c ce q = Ok (c', hit_reply (E := E) q v).
Proof.
  intros E0 Hqs E1 Hce Hq Hv. destruct (served_inv _ _ _ _ E0 Hqs E1) as (n & m & [I _] & Hn).
  destruct (lookup_finds n m c ce key v true I Hn Hce Hv) as [bt Et], (lookup_finds n m c ce key v false I Hn Hce Hv) as [bf Ef].
  destruct q as [k|k|k x|k|k| | |by_ref k init|k init p|by_ref k init|by_ref ty k init|by_ref k [f|f|f| |x|init|init p|init|ty init]];
    try done; cbn in Hq; subst k; try (destruct by_ref); eexists; cbn [serve select hit_reply];
    cbv [answer get_with get_with_by_ref optionally_get_with optionally_get_with_by_ref try_get_with try_get_with_by_ref
         or_default ref_or_default or_insert ref_or_insert or_insert_with ref_or_insert_with or_optionally_insert_with
         ref_or_optionally_insert_with or_try_insert_with ref_or_try_insert_with
         get_or_insert_with_hash_and_fun get_or_insert_with_hash_by_ref_and_fun get_or_insert_with_hash
         get_or_insert_with_hash_by_ref get_or_optionally_insert_with_hash_and_fun
         get_or_optionally_insert_with_hash_by_ref_and_fun get_or_try_insert_with_hash_and_fun
         get_or_try_insert_with_hash_by_ref_and_fun cache_get_with_hash get_with_hash get_with_hash_and_ignore_if
         entry entry_by_ref owned_cache owned_key owned_hash ref_cache ref_key ref_hash];
    rewrite ?Et, ?Ef; reflexivity.
Qed.

(** The entry that [entry_by_ref(..).or_try_insert_with(..)] returns for a key that
    is present has no key: asking for it panics.  The entry that the same call on
    [entry(..)] returns has its key. *)
Theorem ref_or_try_insert_with_no_key c0 qs c l ce key ty (init : option (V + E)) v :
  start = Ok c0 -> script_ok qs -> serve_all cfg default c0 qs = Ok (c, l) ->
  call_env_ok ce -> scanning_get cfg (inner (c_base c)) key (get_now ce) = Ok (Some v) ->
  (exists c' e, ref_or_try_insert_with cfg ty (entry_by_ref cfg c key) ce init = Ok (c', Returned (inl e)) /\
     en_value e = v /\ entry_key e = Fail UnwrapNone) /\
  exists c' e, or_try_insert_with cfg ty (entry cfg c key) ce init = Ok (c', Returned (inl e)) /\
     en_value e = v /\ entry_key e = Ok key.
Proof.
  intros E0 Hqs E1 Hce Hv. destruct (served_inv _ _ _ _ E0 Hqs E1) as (n & m & [I _] & Hn).
  destruct (lookup_finds n m c ce key v false I Hn Hce Hv) as [bf Ef], (lookup_finds n m c ce key v true I Hn Hce Hv) as [bt Et].
  split.
  - unfold ref_or_try_insert_with, get_or_try_insert_with_hash_by_ref_and_fun, cache_get_with_hash, get_with_hash.
    cbn [ref_cache ref_key ref_hash entry_by_ref]. rewrite Ef. cbn. by eexists _, _.
  - unfold or_try_insert_with, get_or_try_insert_with_hash_and_fun, cache_get_with_hash, get_with_hash.
    cbn [owned_cache owned_key owned_hash entry]. rewrite Et. cbn. by eexists _, _.
Qed.
End promises.

Module Witnesses.
Definition config := mkHousekeeperConfig (from_millis 100) 4 1.
Definition at_time (t : Instant) : CallEnv := mkCallEnv t (Sample.env t) t t t [mkHkEnv true t (fun _ => mkReadings t t t t) t; Sample.env t].
Definition fresh : Cache Z Z := mkCache Sample.start ∅.
(** A closure that panics, an initialisation, an error, an upsert, a removal. *)
Definition script : list (CallEnv * request (K := Z) (V := Z) string) :=
  [(at_time 1, QGetWith false 1 None); (at_time 2, QGetWith true 1 (Some 10)); (at_time 3, QTryGetWith false 7 2 (Some (inr "no"%string)));
   (at_time 4, QEntry false 1 (AndUpsertWith (fun o => match o with Some e => Some (en_value e + 1) | None => Some 0 end)));
   (at_time 5, QInsert 3 30); (at_time 6, QRemove 3)].
Definition replies : list (reply (K := Z) (V := Z) string) :=
  [AUnwound; AValue (Some 10); AError "no"%string; AEntry (Some (mkEntry (Some 1) 11 true true)); AUnit; AValue (Some 30)].
Definition served : Cache Z Z := match serve_all Sample.config 0 fresh script with Ok (c, _) => c | Fail _ => fresh end.
Lemma started : start Sample.quiet_listener config true 0 = Ok fresh.
Proof. reflexivity. Qed.
Lemma served_ok : serve_all Sample.config 0 fresh script = Ok (served, replies).
Proof. vm_compute. reflexivity. Qed.
Lemma at_ok t : (0 <=? t) && (t <=? MAX_NANOS) = true -> call_env_ok (at_time t).
Proof.
  intros Ht. pose proof (Sample.ok_at t Ht). split; try done.
  - cbn. by repeat (apply Forall_cons; split).
  - apply Exists_cons. right. apply Exists_cons. by left.
Qed.
Lemma script_fine : script_ok script.
Proof. split; [|done]. repeat (apply Forall_cons; split); [by apply at_ok..|by apply Forall_nil]. Qed.
Lemma client_t0_ok : instant_ok 0.
Proof. by apply Sample.ok_at. Qed.
Lemma client_rep_ok : 0 <= cfg_max_log_sync_repeats config.
Proof. done. Qed.


Lemma found_not_initialised_witness :
  exists c', serve Sample.config 0 served (at_time 9) (QGetWith false 1 None) = Ok (c', AValue (E := string) (Some 11)).
Proof.
  apply (found_not_initialised Sample.config Sample.user Sample.safe 0 Sample.quiet_listener config true 0 client_t0_ok client_rep_ok fresh script served replies
    (at_time 9) (QGetWith false 1 None) 1 11 started script_fine served_ok); [by apply at_ok|done|vm_compute; reflexivity].
Defined.

Lemma ref_or_try_insert_with_no_key_witness :
  (exists c' e, ref_or_try_insert_with Sample.config 7 (entry_by_ref Sample.config served 1) (at_time 9) (Some (inr "no"%string)) =
     Ok (c', Returned (inl e)) /\ en_value e = 11 /\ entry_key e = Fail UnwrapNone) /\
  exists c' e, or_try_insert_with Sample.config 7 (entry Sample.config served 1) (at_time 9) (Some (inr "no"%string)) =
     Ok (c', Returned (inl e)) /\ en_value e = 11 /\ entry_key e = Ok 1.
Proof.
  apply (ref_or_try_insert_with_no_key Sample.config Sample.user Sample.safe 0 Sample.quiet_listener config true 0 client_t0_ok client_rep_ok fresh script served
    replies (at_time 9) 1 7 (Some (inr "no"%string)) 11 started script_fine served_ok); [by apply at_ok|vm_compute; reflexivity].
Defined.
End Witnesses.
