(* ===== verification/SegmentedClient.v ===== *)
(** A thread that uses a segmented cache alone (src/sync/segment.rs): the methods of
    [SegmentedCache] hash the key, select its segment and make there the call that
    the method of the same name of [Cache] makes; those on the whole cache go
    through the segments.  The segmented cache refines the same abstract cache as
    one [Cache] does. *)
From S2P Require Import Prelude Common FrequencySketch Deque Time Housekeeper EntryInfo Concurrent Deques.
From S2P Require Import TimerWheel Policy Invalidator Inner BaseCache InnerInv InnerRemove Admission Scan Maintenance Operations System.
From S2P Require Import HashTableRefines Guarantees ValueInitializer SegmentedCache CacheApi EntrySelector Client.

Section segmented_api.
Context {K V E : Type} `{Countable K}.
(** The configuration of the segments. *)
Variable scfg : Config K V.
Variable default : V.
Implicit Type sc : SegmentedOf (Cache K V).

(** The key a request is about; [None] for those on the whole cache. *)
Definition request_key (q : request (K := K) (V := V) E) : option K :=
  match q with
  | QContains key | QGet key | QInsert key _ | QInvalidate key | QRemove key | QGetWith _ key _ | QGetWithIf key _ _
  | QOptionallyGetWith _ key _ | QTryGetWith _ _ key _ | QEntry _ key _ => Some key
  | QInvalidateAll | QRunPendingTasks => None
  end.

Definition on_cache sc (i : nat) (f : Cache K V -> res (Cache K V * reply (K := K) (V := V) E)) : res (SegmentedOf (Cache K V) * reply E) :=
  c ← expect_some OutOfBounds (segments sc !! i);
  '(c, a) ← f c;
  Ok (mkSegmented (desired_capacity sc) (<[i := c]> (segments sc)) (sc_shift sc), a).

(** A call on the whole cache runs in segment [i] with [ces i], one on a key with
    [ces 0]. *)
Definition sc_serve sc (ces : nat -> CallEnv) (q : request E) : res (SegmentedOf (Cache K V) * reply E) :=
  match request_key q with
  | Some key => on_cache sc (select_index sc (hash_of scfg key)) (fun c => serve scfg default c (ces O) q)
  | None =>
      sc ← foldM (fun sc i => '(sc, _) ← on_cache sc i (fun c => serve scfg default c (ces i) q); Ok sc) sc (seq 0 (length (segments sc)));
      Ok (sc, AUnit)
  end.

Fixpoint sc_serve_all sc (qs : list ((nat -> CallEnv) * request E)) : res (SegmentedOf (Cache K V) * list (reply E)) :=
  match qs with
  | [] => Ok (sc, [])
  | (ces, q) :: qs => '(sc, a) ← sc_serve sc ces q; '(sc, l) ← sc_serve_all sc qs; Ok (sc, a :: l)
  end.
End segmented_api.

Definition segmented_caches {K V} `{Countable K} (cfg : Config K V) (num_segments : Z) (listener : option (K -> V -> RemovalCause -> bool))
    (config : HousekeeperConfig) (invalidator_enabled : bool) (t0 : nat -> Instant) : res (SegmentedOf (Cache K V)) :=
  new_segmented cfg num_segments (fun i => cache_with_everything listener config invalidator_enabled (t0 i)).

(** ** What the abstract cache allows depends on the binding of the key only *)
Section locality.
Context {K V : Type} `{Countable K}.
Variables (cfg : Config K V) (shift : Z).
Implicit Types (m : gmap K (V * Instant)) (ce : CallEnv).
#[local] Notation home_of key := (home (hasher cfg) shift key).
#[local] Notation part_of i m := (part (hasher cfg) shift i m).

(** [m'] is [m] with the part of segment [i] replaced. *)
Definition changes_part (i : nat) m m1 m' : Prop := part_of i m' = m1 /\ forall j, j <> i -> part_of j m' = part_of j m.
Lemma part_same i m : changes_part i m (part_of i m) m.
Proof. by split. Qed.
Lemma part_put m key v ts : changes_part (home_of key) m (put cfg (part_of (home_of key) m) key v ts) (put cfg m key v ts).
Proof.
  unfold put. destruct (is_map_disabled cfg); [apply part_same|]. split; [apply part_insert|]. intros j Hj. by apply part_insert_other.
Qed.
Lemma part_forget m key : changes_part (home_of key) m (delete key (part_of (home_of key) m)) (delete key m).
Proof. split; [by rewrite part_delete, decide_True|]. intros j Hj. by rewrite part_delete, decide_False. Qed.
Lemma part_current m key v now : current cfg (part_of (home_of key) m) key v now -> current cfg m key v now.
Proof. unfold current. by rewrite part_lookup. Qed.
Hint Resolve part_same part_put part_forget part_current : core.

Lemma init_local {E} m ce key ignore_if khit k (out : option (V + E)) u m1 :
  init_allowed cfg (part_of (home_of key) m) ce key ignore_if khit k out u m1 ->
  exists m', init_allowed cfg m ce key ignore_if khit k out u m' /\ changes_part (home_of key) m m1 m'.
Proof. intros [v Hc Hr|v Hc Hr|v Ho|e Ho|Ho]; eexists; (split; [|by auto]); constructor; auto. Qed.

Lemma compute_local {E} m ce key (f : option (Entry K V) -> option (Op V + E)) u m1 :
  compute_spec cfg (part_of (home_of key) m) ce key f u m1 ->
  exists m', compute_spec cfg m ce key f u m' /\ changes_part (home_of key) m m1 m'.
Proof.
  intros (seen & Hs & Ha). assert (Hs' : forall v, seen = Some v -> current cfg m key v (get_now ce)) by auto.
  destruct Ha as [Ho|e Ho|Ho|v Ho|o Ho Hv]; eexists; (split; [exists seen; split; [exact Hs'|]|by auto]); constructor; try done.
  by rewrite part_lookup in Hv.
Qed.

Lemma allowed_local {E} default m ce (q : request E) key a m1 :
  request_key q = Some key -> allowed cfg default (part_of (home_of key) m) ce q a m1 ->
  exists m', allowed cfg default m ce q a m' /\ changes_part (home_of key) m m1 m'.
Proof.
  intros Hq Ha.
  assert (Hinit : forall E' ignore_if khit k (out : option (V + E')) (f : unwind (Entry K V + E') -> reply E),
    (exists u, init_allowed cfg (part_of (home_of key) m) ce key ignore_if khit k out u m1 /\ a = f u) ->
    exists m', (exists u, init_allowed cfg m ce key ignore_if khit k out u m' /\ a = f u) /\ changes_part (home_of key) m m1 m').
  { intros E' ignore_if khit k out f (u & Hu & ->). apply init_local in Hu as (m' & Hu & Hm). eauto. }
  assert (Hcomp : forall E' (g : option (Entry K V) -> option (Op V + E')) (f : unwind (CompResult K V + E') -> reply E),
    (exists u, compute_spec cfg (part_of (home_of key) m) ce key g u m1 /\ a = f u) ->
    exists m', (exists u, compute_spec cfg m ce key g u m' /\ a = f u) /\ changes_part (home_of key) m m1 m').
  { intros E' g f (u & Hu & ->). apply compute_local in Hu as (m' & Hu & Hm). eauto. }
  destruct q as [k|k|k v|k|k| | |by_ref k init|k init p|by_ref k init|by_ref ty k init|by_ref k [f|f|f| |x|init|init p|init|ty init]];
    try done; cbn in Hq; injection Hq as ->; cbn [allowed select_allowed] in Ha |- *; try (by apply Hinit); try (by apply Hcomp).
  - destruct Ha as (-> & b & -> & Hb). exists m. split; [|done]. split; [done|]. exists b. split; [done|].
    intros Ht. destruct (Hb Ht) as [v Hv]. eauto.
  - destruct Ha as (-> & o & -> & Hb). exists m. split; [|done]. split; [done|]. exists o. eauto.
  - destruct Ha as (-> & ->). eauto.
  - destruct Ha as (-> & ->). eauto.
  - destruct Ha as (-> & o & -> & Hb). exists (delete key m). split; [|done]. split; [done|]. exists o. by rewrite part_lookup in Hb.
Qed.
End locality.

(** ** Every segment serves its keys *)
Section segmented_client.
Context {K V E : Type} `{Countable K}.
Variable scfg : Config K V.
Context (Huser : user_ok scfg) (Hsafe : sketch_safe scfg) (Hhash : forall k, 0 <= hasher scfg k < 2 ^ 64).
Variables (default : V) (e : nat).
Context (He : (e <= 64)%nat).
Implicit Types (m : gmap K (V * Instant)) (n : Z) (sc : SegmentedOf (Cache K V)).
#[local] Notation shift := (64 - Z.of_nat e).
#[local] Notation part_of i m := (part (hasher scfg) shift i m).
#[local] Notation home_of key := (home (hasher scfg) shift key).

Record sc_inv n m sc : Prop := {
  sci_len : length (segments sc) = (2 ^ e)%nat;
  sci_shift : sc_shift sc = shift;
  sci_segs : forall i c, segments sc !! i = Some c -> client_inv scfg n (part_of i m) ∅ c
}.

(** A request to one segment, by what it changes in the map. *)
Lemma on_cache_returns n m sc i ce (q : request E) :
  sc_inv n m sc -> n < MAX_WRITES -> call_env_ok ce -> (i < 2 ^ e)%nat ->
  returns (on_cache sc i (fun c => serve scfg default c ce q)) (fun r => exists m1,
    allowed scfg default (part_of i m) ce q (snd r) m1 /\
    forall m', changes_part scfg shift i m m1 m' -> sc_inv (n + 1) m' (fst r)).
Proof.
  intros [Hl Hs Hseg] Hn Hce Hi. unfold on_cache. rewrite <- Hl in Hi. destruct (lookup_lt_is_Some_2 _ _ Hi) as [c Hc]. rewrite Hc. cbn [expect_some mbind res_bind].
  eapply returns_bind; [by apply (serve_returns scfg Huser Hsafe default n (part_of i m) ce Hn Hce c q), Hseg|].
  intros [c' a] (m1 & I & Ha). apply returns_ok. exists m1. split; [exact Ha|]. intros m' [Hi' Hj'].
  split; cbn [segments sc_shift fst]; [by rewrite length_insert|done|].
  intros j c1 Hj. destruct (insert_cases _ _ _ _ _ Hj) as [[-> ->]|[Hne Hj2]].
  - by rewrite Hi'.
  - rewrite Hj' by done. by apply client_inv_mono, Hseg.
Qed.

Lemma sc_inv_mono n m sc : sc_inv n m sc -> sc_inv (n + 1) m sc.
Proof. intros [Hl Hs Hseg]. split; [done..|]. intros i c Hc. by apply client_inv_mono, Hseg. Qed.

Lemma whole_segments_returns n m ces (q : request E) : forall l sc,
  sc_inv n m sc -> n <= MAX_WRITES -> (forall i, call_env_ok (ces i)) -> q = QInvalidateAll \/ q = QRunPendingTasks ->
  Forall (fun i => (i < 2 ^ e)%nat) l ->
  returns (foldM (fun sc i => '(sc, _) ← on_cache sc i (fun c => serve scfg default c (ces i) q); Ok sc) sc l) (sc_inv n m).
Proof.
  induction l as [|i l IH]; intros sc I Hn Hce Hq Hl; cbn [foldM]; [by apply returns_ok|]. apply Forall_cons in Hl as [Hi Hl].
  destruct I as [Hlen Hs Hseg]. assert (Hi' : (i < length (segments sc))%nat) by (by rewrite Hlen).
  destruct (lookup_lt_is_Some_2 _ _ Hi') as [c Hc].
  destruct (whole_returns scfg Hsafe default n (part_of i m) (ces i) (Hce i) c q (Hseg _ _ Hc) Hn Hq) as ([c' a] & E1 & I' & _).
  assert (Ho : on_cache sc i (fun c => serve scfg default c (ces i) q) = Ok (mkSegmented (desired_capacity sc) (<[i := c']> (segments sc)) (sc_shift sc), a))
    by (unfold on_cache; rewrite Hc; cbn [expect_some mbind res_bind]; by rewrite E1).
  rewrite Ho. cbn [mbind res_bind]. apply IH; try done. split; cbn [segments sc_shift]; [by rewrite length_insert|done|].
  intros j c1 Hj. destruct (insert_cases _ _ _ _ _ Hj) as [[-> ->]|[Hne Hj2]]; [done|by apply Hseg].
Qed.

Lemma sc_serve_returns n m sc ces (q : request E) :
  sc_inv n m sc -> n < MAX_WRITES -> (forall i, call_env_ok (ces i)) ->
  returns (sc_serve scfg default sc ces q) (fun r => exists m', sc_inv (n + 1) m' (fst r) /\ allowed scfg default m (ces O) q (snd r) m').
Proof.
  intros I Hn Hce. unfold sc_serve. destruct (request_key q) as [key|] eqn:Hq.
  - assert (Hsel : select_index sc (hash_of scfg key) = home_of key) by (unfold select_index; by rewrite (sci_shift _ _ _ I)).
    rewrite Hsel. eapply returns_mono; [apply (on_cache_returns n m sc _ (ces O) q I Hn (Hce O)); by apply home_lt|].
    intros [sc' a] (m1 & Ha & I'). destruct (allowed_local scfg shift default m _ q key a m1 Hq Ha) as (m' & Ha' & Hm'). eauto.
  - assert (Hq' : q = QInvalidateAll \/ q = QRunPendingTasks) by (destruct q; auto; done).
    eapply returns_bind; [apply (whole_segments_returns n m ces q); [done|lia|done|done|]|].
    + apply Forall_forall. intros i [_ Hi]%elem_of_seq. rewrite (sci_len _ _ _ I) in Hi. exact Hi.
    + intros sc' I'. apply returns_ok. exists m. split; [by apply sc_inv_mono|]. by destruct Hq' as [-> | ->].
Qed.

Lemma sc_serve_all_returns : forall (qs : list ((nat -> CallEnv) * request E)) n m sc,
  sc_inv n m sc -> n + Z.of_nat (length qs) <= MAX_WRITES -> Forall (fun q => forall i, call_env_ok (fst q i)) qs ->
  returns (sc_serve_all scfg default sc qs) (fun r => exists m', sc_inv (n + Z.of_nat (length qs)) m' (fst r) /\
    all_allowed scfg default m ((fun q => (fst q O, snd q)) <$> qs) (snd r) m').
Proof.
  induction qs as [|[ces q] qs IH]; intros n m sc I Hn Hqs; cbn [sc_serve_all length] in *.
  { apply returns_ok. exists m. rewrite Z.add_0_r. done. }
  apply Forall_cons in Hqs as [Hq Hqs]. eapply returns_bind; [apply (sc_serve_returns n m sc ces q I); [lia|exact Hq]|].
  intros [sc1 a] (m1 & I1 & Ha). cbn [fst snd] in *. eapply returns_bind; [apply (IH _ _ _ I1); [lia|done]|].
  intros [sc2 l] (m2 & I2 & Hl). cbn [fst snd] in *. apply returns_ok. exists m2.
  replace (n + Z.of_nat (S (length qs))) with (n + 1 + Z.of_nat (length qs)) by lia. split; [done|]. by exists m1.
Qed.
End segmented_client.

Section claim.
Context {K V E : Type} `{Countable K}.
Variables (cfg : Config K V) (default : V) (num_segments : Z) (listener : option (K -> V -> RemovalCause -> bool)) (config : HousekeeperConfig)
  (inv_on : bool) (t0 : nat -> Instant).
#[local] Notation scfg := (segment_config cfg (next_power_of_two num_segments)).
Context (Hhash : forall k, 0 <= hasher cfg k < 2 ^ 64) (Hnum : 0 < num_segments <= 2 ^ 63) (Huser : user_ok scfg) (Hsafe : sketch_safe scfg)
  (Ht0 : forall i, instant_ok (t0 i)) (Hrep : 0 <= cfg_max_log_sync_repeats config).

End claim.

(** Two segments, a key in each. *)
Module Witnesses.
Definition seg_start : SegmentedOf (Cache Z Z) := mkSegmented (Some 4) [mkCache Sample.start ∅; mkCache Sample.start ∅] 63.
Definition seg_script : list ((nat -> CallEnv) * request (K := Z) (V := Z) string) :=
  [(fun _ => Client.Witnesses.at_time 1, QInsert 1 10); (fun _ => Client.Witnesses.at_time 2, QGetWith false (2 ^ 63) (Some 20));
   (fun _ => Client.Witnesses.at_time 3, QRunPendingTasks); (fun _ => Client.Witnesses.at_time 4, QRemove (2 ^ 63))].
(** The value is found in its segment and removed from it. *)
Example segmented_script_runs :
  snd <$> sc_serve_all SegmentedCache.Witnesses.half 0 seg_start seg_script = Ok [AUnit; AValue (Some 20); AUnit; AValue (Some 20)].
Proof. vm_compute. reflexivity. Qed.
End Witnesses.
