(* ===== verification/Builder.v ===== *)
(** The builders of the caches (src/sync/builder.rs, src/future/builder.rs) and the
    policy a cache reports (src/policy.rs, [Policy]).

    A builder collects settings and gives them to [with_everything] at the end; the
    name and the initial capacity have no effect on the behaviour that is modelled.
    The hasher, the overflow checks of the build and the clock reading at the creation
    are arguments. *)
From Stdlib Require Import String.
From S2P Require Import Prelude Common FrequencySketch Deque Time Housekeeper EntryInfo Concurrent Deques.
From S2P Require Import TimerWheel Policy Invalidator Inner BaseCache InnerInv Maintenance Operations System Guarantees SegmentedCache CacheApi.

(** [Policy] of src/policy.rs *)
Record Policy := mkPolicy {
  p_max_capacity : option Z;
  p_num_segments : Z;
  p_time_to_live : option Duration;
  p_time_to_idle : option Duration
}.

Record CacheBuilder (K V : Type) := mkCacheBuilder {
  bd_name : option string;
  bd_max_capacity : option Z;
  bd_initial_capacity : option Z;
  bd_num_segments : option Z;
  bd_weigher : option (K -> V -> Z);
  bd_eviction_policy : EvictionPolicyConfig;
  bd_eviction_listener : option (K -> V -> RemovalCause -> bool);
  bd_expiration_policy : ExpirationPolicy K V;
  bd_housekeeper_config : HousekeeperConfig;
  bd_invalidator_enabled : bool;
  bd_clock : StdInstant
}.
Arguments mkCacheBuilder {K V} _ _ _ _ _ _ _ _ _ _ _.
Arguments bd_name {K V} _.
Arguments bd_max_capacity {K V} _.
Arguments bd_initial_capacity {K V} _.
Arguments bd_num_segments {K V} _.
Arguments bd_weigher {K V} _.
Arguments bd_eviction_policy {K V} _.
Arguments bd_eviction_listener {K V} _.
Arguments bd_expiration_policy {K V} _.
Arguments bd_housekeeper_config {K V} _.
Arguments bd_invalidator_enabled {K V} _.
Arguments bd_clock {K V} _.

Section builder.
Context {K V : Type} `{Countable K}.
Implicit Types (bd : CacheBuilder K V) (cfg : Config K V).

(** [Default::default] and [CacheBuilder::new]; [clock] is when the clock starts. *)
Definition default_builder (clock : StdInstant) : CacheBuilder K V :=
  mkCacheBuilder None None None None None TinyLfu None default_expiration_policy default_housekeeper_config false clock.
Definition new_builder (clock : StdInstant) (max_capacity : Z) : CacheBuilder K V :=
  mkCacheBuilder None (Some max_capacity) None None None TinyLfu None default_expiration_policy default_housekeeper_config false clock.

(** ** The settings *)

Inductive Setting :=
| SName (name : string)
| SMaxCapacity (max_capacity : Z)
| SInitialCapacity (number_of_entries : Z)
| SEvictionPolicy (policy : EvictionPolicyConfig)
| SWeigher (weigher : K -> V -> Z)
| SEvictionListener (listener : K -> V -> RemovalCause -> bool)
| STimeToLive (duration : Duration)
| STimeToIdle (duration : Duration)
| SExpireAfter (expiry : Expiry K V)
| SSupportInvalidationClosures.

Definition apply_setting bd (x : Setting) : CacheBuilder K V :=
  let 'mkCacheBuilder name max_cap init_cap segs weigher policy listener exp hk inv clock := bd in
  match x with
  | SName n => mkCacheBuilder (Some n) max_cap init_cap segs weigher policy listener exp hk inv clock
  | SMaxCapacity n => mkCacheBuilder name (Some n) init_cap segs weigher policy listener exp hk inv clock
  | SInitialCapacity n => mkCacheBuilder name max_cap (Some n) segs weigher policy listener exp hk inv clock
  | SEvictionPolicy p => mkCacheBuilder name max_cap init_cap segs weigher p listener exp hk inv clock
  | SWeigher w => mkCacheBuilder name max_cap init_cap segs (Some w) policy listener exp hk inv clock
  | SEvictionListener l => mkCacheBuilder name max_cap init_cap segs weigher policy (Some l) exp hk inv clock
  | STimeToLive d => mkCacheBuilder name max_cap init_cap segs weigher policy listener (set_time_to_live exp d) hk inv clock
  | STimeToIdle d => mkCacheBuilder name max_cap init_cap segs weigher policy listener (set_time_to_idle exp d) hk inv clock
  | SExpireAfter e => mkCacheBuilder name max_cap init_cap segs weigher policy listener (set_expiry exp e) hk inv clock
  | SSupportInvalidationClosures => mkCacheBuilder name max_cap init_cap segs weigher policy listener exp hk true clock
  end.

(** [CacheBuilder::segments] *)
Definition builder_segments bd (num_segments : Z) : res (CacheBuilder K V) :=
  _ ← assert_that (negb (num_segments =? 0));
  Ok (mkCacheBuilder (bd_name bd) (bd_max_capacity bd) (bd_initial_capacity bd) (Some num_segments) (bd_weigher bd) (bd_eviction_policy bd)
        (bd_eviction_listener bd) (bd_expiration_policy bd) (bd_housekeeper_config bd) (bd_invalidator_enabled bd) (bd_clock bd)).

(** ** Building *)

(** What [with_everything] is given of the settings. *)
Definition builder_config bd (hasher : K -> Z) (checks : bool) : Config K V :=
  mkConfig (bd_max_capacity bd) (bd_weigher bd) (bd_eviction_policy bd) (bd_expiration_policy bd) hasher (bd_clock bd) checks.

(** [build] and [build_with_hasher] *)
Definition build_with_hasher bd (hasher : K -> Z) (checks : bool) (now : Instant) : res (Config K V * Cache K V) :=
  let exp := bd_expiration_policy bd in
  _ ← ensure_expirations_or_panic (time_to_live exp) (time_to_idle exp);
  let cfg := builder_config bd hasher checks in
  c ← cache_with_everything (bd_eviction_listener bd) (bd_housekeeper_config bd) (bd_invalidator_enabled bd) now;
  Ok (cfg, c).

(** The same of a segmented cache; segment [i] reads the clock at [t0 i]. *)
Definition build_segmented_with_hasher bd (hasher : K -> Z) (checks : bool) (t0 : nat -> Instant) : res (Config K V * Segmented K V) :=
  let exp := bd_expiration_policy bd in
  _ ← ensure_expirations_or_panic (time_to_live exp) (time_to_idle exp);
  num_segments ← expect_some UnwrapNone (bd_num_segments bd);
  let cfg := builder_config bd hasher checks in
  sc ← segmented_with_everything cfg num_segments (bd_eviction_listener bd) (bd_housekeeper_config bd) (bd_invalidator_enabled bd) t0;
  Ok (segment_config cfg (next_power_of_two num_segments), sc).

(** ** The policy a cache reports *)

(** [Inner::policy] and [SegmentedCache::policy] *)
Definition cache_policy cfg : Policy :=
  mkPolicy (max_capacity cfg) 1 (time_to_live (expiration_policy cfg)) (time_to_idle (expiration_policy cfg)).
Definition sc_policy cfg (sc : Segmented K V) : Policy :=
  let policy := cache_policy cfg in
  mkPolicy (desired_capacity sc) (Z.of_nat (length (segments sc))) (p_time_to_live policy) (p_time_to_idle policy).

(** ** Properties *)

(** The last setting of each kind is the one that counts. *)
Definition last_setting {A} (pick : Setting -> option A) (init : option A) (l : list Setting) : option A :=
  foldl (fun acc x => match pick x with Some a => Some a | None => acc end) init l.

Definition pick_name (x : Setting) : option string := match x with SName n => Some n | _ => None end.
Definition pick_capacity (x : Setting) : option Z := match x with SMaxCapacity n => Some n | _ => None end.
Definition pick_initial (x : Setting) : option Z := match x with SInitialCapacity n => Some n | _ => None end.
Definition pick_eviction (x : Setting) : option EvictionPolicyConfig := match x with SEvictionPolicy p => Some p | _ => None end.
Definition pick_weigher (x : Setting) : option (K -> V -> Z) := match x with SWeigher w => Some w | _ => None end.
Definition pick_listener (x : Setting) : option (K -> V -> RemovalCause -> bool) := match x with SEvictionListener f => Some f | _ => None end.
Definition pick_ttl (x : Setting) : option Duration := match x with STimeToLive d => Some d | _ => None end.
Definition pick_tti (x : Setting) : option Duration := match x with STimeToIdle d => Some d | _ => None end.
Definition pick_expiry (x : Setting) : option (Expiry K V) := match x with SExpireAfter e => Some e | _ => None end.
Definition supports_closures (l : list Setting) : bool :=
  existsb (fun x => match x with SSupportInvalidationClosures => true | _ => false end) l.

(** What the policy, the configuration and the builder itself should say, by the
    settings alone. *)
Definition settings_policy (init : option Z) (num : Z) (l : list Setting) : Policy :=
  mkPolicy (last_setting pick_capacity init l) num (last_setting pick_ttl None l) (last_setting pick_tti None l).
Definition settings_expiration (l : list Setting) : ExpirationPolicy K V :=
  mkExpirationPolicy (last_setting pick_ttl None l) (last_setting pick_tti None l) (last_setting pick_expiry None l).
Definition settings_config (clock : StdInstant) (init : option Z) (hasher : K -> Z) (checks : bool) (l : list Setting) : Config K V :=
  mkConfig (last_setting pick_capacity init l) (last_setting pick_weigher None l) (default TinyLfu (last_setting pick_eviction None l))
    (settings_expiration l) hasher clock checks.
Definition settings_builder (clock : StdInstant) (init : option Z) (l : list Setting) : CacheBuilder K V :=
  mkCacheBuilder (last_setting pick_name None l) (last_setting pick_capacity init l) (last_setting pick_initial None l) None
    (last_setting pick_weigher None l) (default TinyLfu (last_setting pick_eviction None l)) (last_setting pick_listener None l)
    (settings_expiration l) default_housekeeper_config (supports_closures l) clock.

Lemma last_snoc_setting {A} (pick : Setting -> option A) init l x :
  last_setting pick init (l ++ [x]) = match pick x with Some a => Some a | None => last_setting pick init l end.
Proof. unfold last_setting. by rewrite foldl_app. Qed.

Lemma settings_ok clock cap : forall l, foldl apply_setting (new_builder clock cap) l = settings_builder clock (Some cap) l.
Proof.
  induction l as [|x l IH] using rev_ind; [done|]. rewrite foldl_app, IH. cbn [foldl]. unfold settings_builder, settings_expiration, supports_closures.
  rewrite existsb_app, !last_snoc_setting. destruct x; cbn; by rewrite ?orb_false_r, ?orb_true_r.
Qed.

(** Longer than a thousand years. *)
Definition too_long (d : option Duration) : bool := match d with Some d => from_secs (1000 * YEAR_SECONDS) <? d | None => false end.
Definition policy_too_long (p : Policy) : bool := too_long (p_time_to_live p) || too_long (p_time_to_idle p).

Lemma ensure_expirations_spec ttl tti :
  ensure_expirations_or_panic ttl tti = if too_long ttl || too_long tti then Fail AssertFailed else Ok tt.
Proof.
  unfold ensure_expirations_or_panic, too_long. cbv zeta.
  destruct ttl as [d|], tti as [d'|]; cbn [mbind res_bind]; rewrite ?(Z.ltb_antisym d), ?(Z.ltb_antisym d'); unfold assert_that;
    try destruct (d <=? _); try destruct (d' <=? _); done.
Qed.

Lemma segmented_created cfg num listener config inv_on now :
  0 < num <= 2 ^ 63 -> instant_ok now -> 0 <= cfg_max_log_sync_repeats config ->
  exists sc, segmented_with_everything cfg num listener config inv_on (fun _ => now) = Ok sc /\ desired_capacity sc = max_capacity cfg.
Proof.
  intros Hnum Hnow Hrep. unfold segmented_with_everything, new_segmented. rewrite (proj2 (Z.ltb_lt _ _) (proj1 Hnum)). cbn [assert_that mbind res_bind].
  rewrite checked_next_power_of_two_ok by lia. cbn [mbind res_bind].
  destruct (foldM_inv (fun _ => True) (fun acc (i : nat) => c ← (b ← new_base_cache listener config inv_on now; Ok (mkSys b [])); Ok (acc ++ [c]))
    (seq 0 (Z.to_nat (next_power_of_two num))) []) as (segs & E & _); [done| |cbn [mbind res_bind]; rewrite E; by eexists].
  intros acc i _ _. destruct (start_inv cfg listener config inv_on now Hnow Hrep) as (b & -> & _). by eexists.
Qed.

End builder.

