(* ===== verification/FutureOps.v ===== *)
(** The asynchronous cache (src/future.rs, src/future/base_cache.rs,
    src/future/cache.rs, src/future/housekeeper.rs, src/future/notifier.rs): its
    operations are futures, polled by tasks that may be dropped at any await point.

    The table, the logs and the maintenance are those of the synchronous cache (the
    two sources differ there in the awaits only), so the state is that of
    [BaseCache] with what the asynchronous one adds: the channel of interrupted
    operations, the shared futures of the notifications, the lock and the
    suspended run of the housekeeper, and the event the writers wait for.

    A step of a task goes from one await point, or one access of the shared state,
    to the next.  The notification of a removal is a future of its own, that may
    stay pending over many polls.  A run of the maintenance may be suspended before
    it starts (while it waits for its locks) and is one step from then on; FutureRun
    has the steps inside it.  The locks on keys only forbid interleavings: without them
    the machine has more behaviours than the code. *)
From S2P Require Import Prelude Common FrequencySketch Deque Time Housekeeper EntryInfo Concurrent Deques.
From S2P Require Import TimerWheel Policy Invalidator Inner BaseCache.

(** ** The event the writers wait for *)

(** [event_listener::Event], a third-party type: what the code uses of it.  A
    listener is named by its task. *)
Class ReadyEvent (Ev : Type) := {
  ev_default : Ev;
  ev_listen : nat -> Ev -> Ev;
  ev_notify_all : Ev -> Ev;
  ev_discard : nat -> Ev -> Ev;
  ev_listening : nat -> Ev -> bool;
  ev_notified : nat -> Ev -> bool
}.

(** Its documented behaviour: a new listener is not notified yet; a notification
    reaches the registered listeners, and no later ones. *)
Class ReadyEventLaws (Ev : Type) `{ReadyEvent Ev} := {
  default_silent : forall i, ev_listening i ev_default = false;
  listen_fresh : forall i e, ev_listening i (ev_listen i e) = true /\ ev_notified i (ev_listen i e) = false;
  listen_other : forall i j e, i <> j ->
    ev_listening j (ev_listen i e) = ev_listening j e /\ ev_notified j (ev_listen i e) = ev_notified j e;
  notify_reaches : forall i e, ev_listening i e = true ->
    ev_listening i (ev_notify_all e) = true /\ ev_notified i (ev_notify_all e) = true;
  notify_no_other : forall i e, ev_listening i e = false -> ev_listening i (ev_notify_all e) = false;
  discard_self : forall i e, ev_listening i (ev_discard i e) = false;
  discard_other : forall i j e, i <> j ->
    ev_listening j (ev_discard i e) = ev_listening j e /\ ev_notified j (ev_discard i e) = ev_notified j e
}.

(** ** Notifications as shared futures *)

Inductive FutureState := NotPolled | Suspended | Completed.
#[export] Instance future_state_eq_dec : EqDecision FutureState.
Proof. solve_decision. Defined.

(** [Shared<BoxFuture<()>>] around a call of [RemovalNotifier::notify]: its clones
    share one state. *)
Record NotifyFuture (K V : Type) := mkNotifyFuture {
  nf_key : K;
  nf_value : V;
  nf_cause : RemovalCause;
  nf_state : FutureState
}.
Arguments mkNotifyFuture {K V} _ _ _ _.
Arguments nf_key {K V} _.
Arguments nf_value {K V} _.
Arguments nf_cause {K V} _.
Arguments nf_state {K V} _.

Section notify.
Context {K V : Type}.
Implicit Types (n : RemovalNotifier K V) (f : NotifyFuture K V).

Definition nf_with f (st : FutureState) : NotifyFuture K V := mkNotifyFuture (nf_key f) (nf_value f) (nf_cause f) st.

(** The listener's future ends; a panic, in the call or in the future, is caught and
    disables the listener. *)
Definition nf_finish n f : RemovalNotifier K V :=
  if listener_panics n (nf_key f) (nf_value f) (nf_cause f)
  then mkNotifier (listener_panics n) false (nt_calls n) else n.

(** One poll of the asynchronous [notify]; [ready] tells whether the listener's
    future is ready at this poll. *)
Definition poll_notify n f (ready : bool) : RemovalNotifier K V * NotifyFuture K V :=
  match nf_state f with
  | Completed => (n, f)
  | NotPolled =>
      if negb (nt_is_enabled n) then (n, nf_with f Completed)
      else
        let n := mkNotifier (listener_panics n) (nt_is_enabled n) (nt_calls n ++ [(nf_key f, nf_value f, nf_cause f)]) in
        if ready then (nf_finish n f, nf_with f Completed) else (n, nf_with f Suspended)
  | Suspended => if ready then (nf_finish n f, nf_with f Completed) else (n, f)
  end.
End notify.

(** A poll that finds the listener's future ready. *)
Definition notify_now {K V} `{Countable K} (s : Inner K V) (f : NotifyFuture K V) : Inner K V :=
  match removal_notifier s with Some n => with_notifier s (Some (fst (poll_notify n f true))) | None => s end.

(** ** Interrupted operations *)

(** [future] is the number of a shared future. *)
Inductive InterruptedOp (K V : Type) :=
| CallEvictionListener (ts : Instant) (future : nat) (op : WriteOp K V)
| SendWriteOp (ts : Instant) (op : WriteOp K V).
Arguments CallEvictionListener {K V} _ _ _.
Arguments SendWriteOp {K V} _ _.

Record CancelGuard (K V : Type) := mkCancelGuard {
  cg_ts : Instant;
  cg_future : option nat;
  cg_op : option (WriteOp K V)
}.
Arguments mkCancelGuard {K V} _ _ _.
Arguments cg_ts {K V} _.
Arguments cg_future {K V} _.
Arguments cg_op {K V} _.

Section guard.
Context {K V : Type}.
Implicit Types (g : CancelGuard K V) (op : WriteOp K V).

Definition new_cancel_guard (ts : Instant) : CancelGuard K V := mkCancelGuard ts None None.
Definition set_future_and_op g (future : nat) op : CancelGuard K V := mkCancelGuard (cg_ts g) (Some future) (Some op).
Definition set_op g op : CancelGuard K V := mkCancelGuard (cg_ts g) (cg_future g) (Some op).
Definition unset_future g : CancelGuard K V := mkCancelGuard (cg_ts g) None (cg_op g).
Definition clear g : CancelGuard K V := mkCancelGuard (cg_ts g) None None.

(** What the drop of the guard sends to the channel. *)
Definition drop_cancel_guard g : list (InterruptedOp K V) :=
  match cg_future g, cg_op g with
  | Some future, Some op => [CallEvictionListener (cg_ts g) future op]
  | None, Some op => [SendWriteOp (cg_ts g) op]
  | _, _ => []
  end.
End guard.

(** ** Tasks *)

(** The operations a task may await. *)
Inductive AsyncCall (K V : Type) :=
| AInsert (key : K) (v : V)
| AInvalidate (key : K) (need_value : bool)
| AGet (key : K) (ignore_if : option (V -> bool)) (need_key record_read : bool)
| ARunPendingTasks.
Arguments AInsert {K V} _ _.
Arguments AInvalidate {K V} _ _.
Arguments AGet {K V} _ _ _ _.
Arguments ARunPendingTasks {K V}.

(** Where [schedule_write_op] returns to: the loop of [retry_interrupted_ops], or
    the operation, with its result. *)
Inductive SendBack (V : Type) := ToRetry | ToCaller (v : option V).
Arguments ToRetry {V}.
Arguments ToCaller {V} _.

(** Where a maintenance run returns to. *)
Inductive RunBack (K V : Type) :=
| BackToSend (a : SendBack V) (g : CancelGuard K V) (spins : nat)
| BackToRead (op : ReadOp V) (ent : option (Entry K V))
| BackToCaller.
Arguments BackToSend {K V} _ _ _.
Arguments BackToRead {K V} _ _.
Arguments BackToCaller {K V}.

Inductive TaskPc (K V : Type) :=
| AtStart
| AtRetry
| AtRetryNotify (g : CancelGuard K V)
| AtBody
| AtNotify (g : CancelGuard K V) (ret : option V)
| AtAttempt (a : SendBack V) (g : CancelGuard K V) (spins : nat)
| AtTrySend (a : SendBack V) (g : CancelGuard K V) (spins : nat)
| AtListen (a : SendBack V) (g : CancelGuard K V)
| Listening (a : SendBack V) (g : CancelGuard K V)
| AtRecordRead (op : ReadOp V) (now : Instant) (ent : option (Entry K V))
| AtReadSend (op : ReadOp V) (ent : option (Entry K V))
| AtRunLock
| InRun (now : Instant) (back : RunBack K V)
| TaskDone (v : option V) (ent : option (Entry K V))
| TaskDropped.
Arguments AtStart {K V}.
Arguments AtRetry {K V}.
Arguments AtRetryNotify {K V} _.
Arguments AtBody {K V}.
Arguments AtNotify {K V} _ _.
Arguments AtAttempt {K V} _ _ _.
Arguments AtTrySend {K V} _ _ _.
Arguments AtListen {K V} _ _.
Arguments Listening {K V} _ _.
Arguments AtRecordRead {K V} _ _ _.
Arguments AtReadSend {K V} _ _.
Arguments AtRunLock {K V}.
Arguments InRun {K V} _ _.
Arguments TaskDone {K V} _ _.
Arguments TaskDropped {K V}.

Record Task (K V : Type) := mkTask { tk_call : AsyncCall K V; tk_pc : TaskPc K V }.
Arguments mkTask {K V} _ _.
Arguments tk_call {K V} _.
Arguments tk_pc {K V} _.

(** What a poll reads from outside: the clock at the operation, at its
    notification and at the start of a run, whether the awaited future is ready,
    and the clock of a run. *)
Record PollInput := mkPollInput {
  pi_now : Instant;
  pi_notify_now : Instant;
  pi_ready : bool;
  pi_readings : nat -> Readings;
  pi_started : Instant
}.

(** What a poll does that others can see. *)
Inductive Label (K V : Type) :=
| LInserted (key : K) (v : V) (ts : Instant) (op : WriteOp K V)
| LInvalidated (key : K) (op : option (WriteOp K V))
| LSent (op : WriteOp K V)
| LFuture (future : nat)
| LNotified (future : nat).
Arguments LInserted {K V} _ _ _ _.
Arguments LInvalidated {K V} _ _.
Arguments LSent {K V} _.
Arguments LFuture {K V} _.
Arguments LNotified {K V} _.

(** What the tasks share.  [current_task] is the suspended maintenance run, by its
    arguments; [lock_holder] the task that holds the lock around it.
    [start_count] and [complete_count] are the counters the source keeps when it is
    tested. *)
Record Shared (K V Ev : Type) `{Countable K} := mkShared {
  sh_base : BaseCache K V;
  sh_futures : list (NotifyFuture K V);
  interrupted_op_ch : list (InterruptedOp K V);
  lock_holder : option nat;
  current_task : option (option Duration * Z * Z);
  write_op_ch_ready_event : Ev;
  start_count : Z;
  complete_count : Z
}.
Arguments mkShared {K V Ev _ _} _ _ _ _ _ _ _ _.
Arguments sh_base {K V Ev _ _} _.
Arguments sh_futures {K V Ev _ _} _.
Arguments interrupted_op_ch {K V Ev _ _} _.
Arguments lock_holder {K V Ev _ _} _.
Arguments current_task {K V Ev _ _} _.
Arguments write_op_ch_ready_event {K V Ev _ _} _.
Arguments start_count {K V Ev _ _} _.
Arguments complete_count {K V Ev _ _} _.

Record FSys (K V Ev : Type) `{Countable K} := mkFSys { shared : Shared K V Ev; tasks : list (Task K V) }.
Arguments mkFSys {K V Ev _ _} _ _.
Arguments shared {K V Ev _ _} _.
Arguments tasks {K V Ev _ _} _.

Section future.
Context {K V Ev : Type} `{Countable K} `{ReadyEvent Ev}.
Variable cfg : Config K V.
Implicit Types (s : Inner K V) (b : BaseCache K V) (sh : Shared K V Ev) (ve : ValueEntry V) (op : WriteOp K V)
  (g : CancelGuard K V) (f : FSys K V Ev).

Definition sh_inner sh : Inner K V := inner (sh_base sh).
Definition sh_with_base sh b : Shared K V Ev :=
  mkShared b (sh_futures sh) (interrupted_op_ch sh) (lock_holder sh) (current_task sh) (write_op_ch_ready_event sh)
    (start_count sh) (complete_count sh).
Definition sh_with_inner sh s : Shared K V Ev := sh_with_base sh (with_inner (sh_base sh) s).
Definition sh_with_futures sh fs : Shared K V Ev :=
  mkShared (sh_base sh) fs (interrupted_op_ch sh) (lock_holder sh) (current_task sh) (write_op_ch_ready_event sh)
    (start_count sh) (complete_count sh).
Definition sh_with_interrupted sh l : Shared K V Ev :=
  mkShared (sh_base sh) (sh_futures sh) l (lock_holder sh) (current_task sh) (write_op_ch_ready_event sh)
    (start_count sh) (complete_count sh).
Definition sh_with_event sh e : Shared K V Ev :=
  mkShared (sh_base sh) (sh_futures sh) (interrupted_op_ch sh) (lock_holder sh) (current_task sh) e
    (start_count sh) (complete_count sh).
Definition sh_with_lock sh l : Shared K V Ev :=
  mkShared (sh_base sh) (sh_futures sh) (interrupted_op_ch sh) l (current_task sh) (write_op_ch_ready_event sh)
    (start_count sh) (complete_count sh).

(** ** Notifications *)

(** [Inner::notify_upsert] and [Inner::notify_invalidate] make the future of the
    notification; nothing happens before it is polled. *)
Definition async_notify_upsert s (key : K) ve (la lm : option Instant) (now : Instant) : NotifyFuture K V :=
  mkNotifyFuture key (value ve) (upsert_cause cfg s la lm now) NotPolled.
Definition async_notify_invalidate s (key : K) ve (now : Instant) : res (NotifyFuture K V) :=
  ei ← get_info (mem s) (info ve); Ok (mkNotifyFuture key (value ve) (invalidate_cause cfg ei now) NotPolled).

(** One poll of the shared future [fid]; the result tells whether it has completed. *)
Definition poll_shared sh (fid : nat) (ready : bool) : res (Shared K V Ev * bool * list (Label K V)) :=
  f ← expect_some Unreachable (sh_futures sh !! fid);
  let s := sh_inner sh in
  let '(nt, f') := match removal_notifier s with
                   | Some n => let '(n, f') := poll_notify n f ready in (Some n, f')
                   | None => (None, nf_with f Completed)
                   end in
  Ok (sh_with_futures (sh_with_inner sh (with_notifier s nt)) (<[fid := f']> (sh_futures sh)),
      bool_decide (nf_state f' = Completed),
      if bool_decide (nf_state f = NotPolled) then [LNotified fid] else []).

(** A new future is shared between the operation and its guard. *)
Definition share sh (f : NotifyFuture K V) : Shared K V Ev * nat :=
  (sh_with_futures sh (sh_futures sh ++ [f]), length (sh_futures sh)).

(** ** The updates of the table *)

(** [do_post_update_steps], up to its await. *)
Definition async_do_post_update_steps s (ts now : Instant) (key : K) (old : OldEntryInfo V) ve
    : res (Inner K V * option (NotifyFuture K V)) :=
  m ← post_update_expiration cfg s ts key old ve;
  let s := with_mem s m in
  Ok (s, if is_removal_notifier_enabled s
         then Some (async_notify_upsert s key (oei_entry old) (oei_last_accessed old) (oei_last_modified old) now) else None).

(** [BaseCache::do_insert_with_hash] after the retry of the interrupted operations,
    up to the await of the notification. *)
Definition async_do_insert_with_hash s (key : K) (hash : Z) (v : V) (ts now : Instant)
    : res (Inner K V * WriteOp K V * option (NotifyFuture K V)) :=
  let weight := weigh cfg key v in
  match cache s !! key with
  | None =>
      '(m, ve, gen) ← new_value_entry (mem s) key hash v ts weight;
      let s := with_cache (with_mem s m) (<[key := ve]> (cache s)) in
      s ← do_post_insert_steps cfg s ts key ve;
      Ok (s, new_upsert key hash ve gen 0 weight, None)
  | Some old =>
      old_ei ← get_info (mem s) (info old);
      let old_weight := policy_weight old_ei in
      old_info ← new_old_entry_info (mem s) old;
      '(m, ve, gen) ← new_value_entry_from (mem s) v ts weight old;
      let s := with_cache (with_mem s m) (<[key := ve]> (cache s)) in
      '(s, future) ← async_do_post_update_steps s ts now key old_info ve;
      Ok (s, new_upsert key hash ve gen old_weight weight, future)
  end.

(** [Cache::invalidate_with_hash] after the retry, up to the await of the
    notification. *)
Definition async_do_invalidate_with_hash s (key : K) (notify_now : Instant)
    : res (Inner K V * option (KvEntry K V * WriteOp K V * option (NotifyFuture K V))) :=
  '(s, removed) ← remove_entry s key;
  match removed with
  | None => Ok (s, None)
  | Some kv =>
      ei ← get_info (mem s) (info (kv_entry kv));
      let '(ei, entry_gen) := incr_entry_gen ei in
      let s := with_mem s (put_info (mem s) (info (kv_entry kv)) ei) in
      future ← (if is_removal_notifier_enabled s
                then f ← async_notify_invalidate s (kv_key kv) (kv_entry kv) notify_now; Ok (Some f) else Ok None);
      Ok (s, Some (kv, Remove kv entry_gen, future))
  end.

(** The await of the notification, if there is one, under the guard; then the
    operation is scheduled. *)
Definition await_notification sh (ts : Instant) op (future : option (NotifyFuture K V)) (ret : option V)
    : Shared K V Ev * TaskPc K V * list (Label K V) :=
  match future with
  | Some f =>
      let '(sh, fid) := share sh f in
      (sh, AtNotify (set_future_and_op (new_cancel_guard ts) fid op) ret, [LFuture fid])
  | None => (sh, AtAttempt (ToCaller ret) (set_op (new_cancel_guard ts) op) 0, [])
  end.

Definition poll_insert sh (key : K) (v : V) (inp : PollInput) : res (Shared K V Ev * TaskPc K V * list (Label K V)) :=
  '(s, op, future) ← async_do_insert_with_hash (sh_inner sh) key (hasher cfg key) v (pi_now inp) (pi_notify_now inp);
  let '(sh, pc, ls) := await_notification (sh_with_inner sh s) (pi_now inp) op future None in
  Ok (sh, pc, LInserted key v (pi_now inp) op :: ls).

Definition poll_invalidate sh (key : K) (need_value : bool) (inp : PollInput) : res (Shared K V Ev * TaskPc K V * list (Label K V)) :=
  '(s, removed) ← async_do_invalidate_with_hash (sh_inner sh) key (pi_notify_now inp);
  let sh := sh_with_inner sh s in
  match removed with
  | None => Ok (sh, TaskDone None None, [LInvalidated key None])
  | Some (kv, op, future) =>
      let maybe_v := if need_value then Some (value (kv_entry kv)) else None in
      let '(sh, pc, ls) := await_notification sh (pi_now inp) op future maybe_v in
      Ok (sh, pc, LInvalidated key (Some op) :: ls)
  end.

(** [BaseCache::get_with_hash] after the retry, up to the recording of the read. *)
Definition poll_get sh (key : K) (ignore_if : option (V -> bool)) (need_key record_read : bool) (inp : PollInput)
    : res (Shared K V Ev * TaskPc K V) :=
  found ← find_valid cfg (sh_inner sh) key ignore_if (pi_now inp);
  match found with
  | Some ve =>
      '(s, now, is_expiry_modified) ← touch_entry cfg (sh_inner sh) ve (pi_now inp);
      let ent := mkEntry (if need_key then Some key else None) (value ve) false false in
      Ok (sh_with_inner sh s,
          if record_read then AtRecordRead (Hit ve is_expiry_modified) now (Some ent) else TaskDone None (Some ent))
  | None =>
      Ok (sh, if record_read then AtRecordRead (Miss (hasher cfg key)) (pi_now inp) None else TaskDone None None)
  end.

(** ** The housekeeper *)

(** [Housekeeper::do_run_pending_tasks] with the lock taken: the suspended run, if
    there is one, is the run to poll; a new one is made otherwise. *)
Definition begin_run sh (i : nat) (hk : Housekeeper) : Shared K V Ev :=
  let '(task, starts) := match current_task sh with
                         | Some task => (task, start_count sh)
                         | None => ((maintenance_task_timeout hk, max_log_sync_repeats hk, eviction_batch_size hk), start_count sh + 1)
                         end in
  mkShared (sh_base sh) (sh_futures sh) (interrupted_op_ch sh) (Some i) (Some task) (write_op_ch_ready_event sh)
    starts (complete_count sh).

(** The run has completed: the lock is released, and the writers that wait are
    notified (the run itself notifies some of them before). *)
Definition complete_run sh (now : Instant) (hk : Housekeeper) (inp : PollInput) : res (Shared K V Ev) :=
  '(timeout, repeats, batch_size) ← expect_some Unreachable (current_task sh);
  '(s, more) ← inner_run_pending_tasks (InnerSync := inner_sync cfg) (pi_readings inp, pi_started inp) (sh_inner sh) timeout repeats batch_size;
  after ← set_instant (run_after hk) (sync_after now);
  let hk := set_more_entries_to_evict (set_run_after hk after) more in
  Ok (mkShared (mkBaseCache s (Some hk)) (sh_futures sh) (interrupted_op_ch sh) None None
        (ev_notify_all (write_op_ch_ready_event sh)) (start_count sh) (complete_count sh + 1)).

Definition after_run (back : RunBack K V) : TaskPc K V :=
  match back with
  | BackToSend a g spins => AtTrySend a g spins
  | BackToRead op ent => AtReadSend op ent
  | BackToCaller => TaskDone None None
  end.

(** [apply_reads_writes_if_needed] and [apply_reads_if_needed] with
    [Housekeeper::try_run_pending_tasks]: the run starts if it is due and the lock
    is free. *)
Definition try_begin_run sh (i : nat) (due : Housekeeper -> res bool) (now : Instant) (back : RunBack K V)
    : res (Shared K V Ev * TaskPc K V) :=
  match housekeeper (sh_base sh) with
  | Some hk =>
      due ← due hk;
      match lock_holder sh with
      | None => Ok (if (due : bool) then (begin_run sh i hk, InRun now back) else (sh, after_run back))
      | Some _ => Ok (sh, after_run back)
      end
  | None => Ok (sh, after_run back)
  end.

(** ** One poll *)

Definition silent (r : Shared K V Ev * TaskPc K V) : Shared K V Ev * TaskPc K V * list (Label K V) := (fst r, snd r, []).

(** [try_send] of [schedule_write_op]: five attempts fail before the task listens. *)
Definition poll_try_send sh (a : SendBack V) g (spins : nat) : res (Shared K V Ev * TaskPc K V * list (Label K V)) :=
  op ← expect_some UnwrapNone (cg_op g);
  let s := sh_inner sh in
  if Z.of_nat (length (write_op_ch s)) <? channel_capacity cfg WRITE_LOG_CH_SIZE
  then Ok (sh_with_inner sh (with_writes s (write_op_ch s ++ [op])),
           match a with ToRetry => AtRetry | ToCaller v => TaskDone v None end, [LSent op])
  else Ok (sh, if bool_decide (spins < 4)%nat then AtAttempt a g (S spins) else AtListen a g, []).

(** The first check of each operation, before it retries. *)
Definition poll_start sh (c : AsyncCall K V) : TaskPc K V :=
  match c with
  | AInsert _ _ => if is_map_disabled cfg then TaskDone None None else AtRetry
  | AInvalidate _ _ => AtRetry
  | AGet _ _ _ record_read =>
      if is_map_disabled cfg then TaskDone None None else if record_read then AtRetry else AtBody
  | ARunPendingTasks => match housekeeper (sh_base sh) with Some _ => AtRetry | None => TaskDone None None end
  end.

(** The head of the loop of [retry_interrupted_ops]: the next interrupted operation
    is put under a guard of its own. *)
Definition poll_retry sh : Shared K V Ev * TaskPc K V :=
  match interrupted_op_ch sh with
  | [] => (sh, AtBody)
  | CallEvictionListener ts future op :: rest =>
      (sh_with_interrupted sh rest, AtRetryNotify (set_future_and_op (new_cancel_guard ts) future op))
  | SendWriteOp ts op :: rest =>
      (sh_with_interrupted sh rest, AtAttempt ToRetry (set_op (new_cancel_guard ts) op) 0)
  end.

(** [record_read_op] after the run: a read that finds its channel full is dropped. *)
Definition poll_read_send sh (op : ReadOp V) : Shared K V Ev :=
  let s := sh_inner sh in
  if Z.of_nat (length (read_op_ch s)) <? channel_capacity cfg READ_LOG_CH_SIZE
  then sh_with_inner sh (with_reads s (read_op_ch s ++ [op])) else sh.

(** [Housekeeper::run_pending_tasks], which waits for the lock. *)
Definition poll_run_lock sh (i : nat) (now : Instant) : Shared K V Ev * TaskPc K V :=
  match housekeeper (sh_base sh), lock_holder sh with
  | Some hk, None => (begin_run sh i hk, InRun now BackToCaller)
  | _, _ => (sh, AtRunLock)
  end.

Definition poll sh (i : nat) (c : AsyncCall K V) (pc : TaskPc K V) (inp : PollInput)
    : res (Shared K V Ev * TaskPc K V * list (Label K V)) :=
  match pc with
  | AtStart => Ok (sh, poll_start sh c, [])
  | AtRetry => Ok (silent (poll_retry sh))
  | AtRetryNotify g =>
      fid ← expect_some UnwrapNone (cg_future g);
      '(sh, ready, ls) ← poll_shared sh fid (pi_ready inp);
      Ok (sh, if (ready : bool) then AtAttempt ToRetry (unset_future g) 0 else AtRetryNotify g, ls)
  | AtBody =>
      match c with
      | AInsert key v => poll_insert sh key v inp
      | AInvalidate key need_value => poll_invalidate sh key need_value inp
      | AGet key ignore_if need_key record_read =>
          r ← poll_get sh key ignore_if need_key record_read inp; Ok (silent r)
      | ARunPendingTasks => Ok (sh, AtRunLock, [])
      end
  | AtNotify g ret =>
      fid ← expect_some UnwrapNone (cg_future g);
      '(sh, ready, ls) ← poll_shared sh fid (pi_ready inp);
      Ok (sh, if (ready : bool) then AtAttempt (ToCaller ret) (unset_future g) 0 else AtNotify g ret, ls)
  | AtAttempt a g spins =>
      r ← try_begin_run sh i (fun hk => should_apply_writes hk (Z.of_nat (length (write_op_ch (sh_inner sh)))) (cg_ts g))
            (pi_now inp) (BackToSend a g spins);
      Ok (silent r)
  | AtTrySend a g spins => poll_try_send sh a g spins
  | AtListen a g => Ok (sh_with_event sh (ev_listen i (write_op_ch_ready_event sh)), Listening a g, [])
  | Listening a g =>
      Ok (if ev_notified i (write_op_ch_ready_event sh)
          then (sh_with_event sh (ev_discard i (write_op_ch_ready_event sh)), AtAttempt a g 0, [])
          else (sh, pc, []))
  | AtRecordRead op now ent =>
      r ← try_begin_run sh i (fun hk => should_apply_reads hk (Z.of_nat (length (read_op_ch (sh_inner sh)))) now)
            (pi_now inp) (BackToRead op ent);
      Ok (silent r)
  | AtReadSend op ent => Ok (poll_read_send sh op, TaskDone None ent, [])
  | AtRunLock => Ok (silent (poll_run_lock sh i (pi_now inp)))
  | InRun now back =>
      if pi_ready inp then
        hk ← expect_some UnwrapNone (housekeeper (sh_base sh));
        sh ← complete_run sh now hk inp; Ok (sh, after_run back, [])
      else Ok (sh, pc, [])
  | TaskDone _ _ | TaskDropped => Ok (sh, pc, [])
  end.

(** A task polled [k] times, and no other in between. *)
Fixpoint solo (k : nat) sh (i : nat) (c : AsyncCall K V) (pc : TaskPc K V) (inps : nat -> PollInput)
    : res (Shared K V Ev * TaskPc K V * list (Label K V)) :=
  match k with
  | O => Ok (sh, pc, [])
  | S k =>
      '(sh, pc, ls) ← poll sh i c pc (inps 0%nat);
      '(sh, pc, ls') ← solo k sh i c pc (fun j => inps (S j));
      Ok (sh, pc, ls ++ ls')
  end.

(** ** Dropping a task *)

(** The guard a task holds at an await point. *)
Definition pc_guard (pc : TaskPc K V) : option (CancelGuard K V) :=
  match pc with
  | AtRetryNotify g | AtNotify g _ | AtAttempt _ g _ | AtTrySend _ g _ | AtListen _ g | Listening _ g
  | InRun _ (BackToSend _ g _) => Some g
  | _ => None
  end.

(** The future is dropped, with its guard, its listener and its lock. *)
Definition drop_task sh (i : nat) (pc : TaskPc K V) : Shared K V Ev * TaskPc K V :=
  let sh := match pc_guard pc with
            | Some g => sh_with_interrupted sh (interrupted_op_ch sh ++ drop_cancel_guard g)
            | None => sh
            end in
  match pc with
  | Listening _ _ => (sh_with_event sh (ev_discard i (write_op_ch_ready_event sh)), TaskDropped)
  | InRun _ _ => (sh_with_lock sh None, TaskDropped)
  | TaskDone _ _ => (sh, pc)
  | _ => (sh, TaskDropped)
  end.

(** ** The system *)

Definition poll_step f (i : nat) (inp : PollInput) : res (FSys K V Ev * list (Label K V)) :=
  match tasks f !! i with
  | None => Ok (f, [])
  | Some t =>
      '(sh, pc, ls) ← poll (shared f) i (tk_call t) (tk_pc t) inp;
      Ok (mkFSys sh (<[i := mkTask (tk_call t) pc]> (tasks f)), ls)
  end.

Definition drop_step f (i : nat) : FSys K V Ev :=
  match tasks f !! i with
  | None => f
  | Some t =>
      let '(sh, pc) := drop_task (shared f) i (tk_pc t) in
      mkFSys sh (<[i := mkTask (tk_call t) pc]> (tasks f))
  end.

(** [Cache::invalidate_all] and [Cache::invalidate_entries_if], which are not
    asynchronous. *)
Definition invalidate_all_step f (now : Instant) : res (FSys K V Ev) :=
  s ← invalidate_all (sh_inner (shared f)) now; Ok (mkFSys (sh_with_inner (shared f) s) (tasks f)).
Definition invalidate_if_step f (uuid : nat -> string) (p : K -> V -> bool) (now : Instant) : res (FSys K V Ev) :=
  '(s, _) ← invalidate_entries_if uuid (sh_inner (shared f)) p now; Ok (mkFSys (sh_with_inner (shared f) s) (tasks f)).

(** A new task. *)
Definition spawn f (c : AsyncCall K V) : FSys K V Ev := mkFSys (shared f) (tasks f ++ [mkTask c AtStart]).

Definition fsys_start b : FSys K V Ev := mkFSys (mkShared b [] [] None None ev_default 0 0) [].
End future.
