(* ===== verification/FutureInv.v ===== *)
(** The invariant of the asynchronous cache ([FutureOps]): the synchronous cache's
    invariant, with the writes the tasks and the channel of interrupted operations
    hold as the writes in flight, and the books of the writes and of the
    notifications. *)
From S2P Require Import Prelude Common FrequencySketch Deque Time Housekeeper EntryInfo Concurrent Deques.
From S2P Require Import TimerWheel Policy Invalidator Inner BaseCache InnerInv InnerRemove Admission Scan Maintenance Operations System FutureOps.

(** ** The asynchronous updates and the synchronous ones *)

Section equivalence.
Context {K V : Type} `{Countable K}.
Variable cfg : Config K V.
Implicit Types (s : Inner K V) (n : RemovalNotifier K V).

Lemma poll_notify_ready n key v cause : fst (poll_notify n (mkNotifyFuture key v cause NotPolled) true) = notify n key v cause.
Proof.
  unfold poll_notify, notify, nf_finish. cbn. destruct (nt_is_enabled n) eqn:E; [|done]. cbn. by destruct (listener_panics n key v cause).
Qed.

Lemma notify_now_single s key ve cause :
  notify_now s (mkNotifyFuture key (value ve) cause NotPolled) = notify_single_removal s key ve cause.
Proof. unfold notify_now, notify_single_removal. destruct (removal_notifier s); [|done]. by rewrite poll_notify_ready. Qed.

Lemma insert_sync s key hash v ts now :
  do_insert_with_hash cfg s key hash v ts now =
  ('(s, op, future) ← async_do_insert_with_hash cfg s key hash v ts now; Ok (from_option (notify_now s) s future, op)).
Proof.
  unfold do_insert_with_hash, async_do_insert_with_hash. destruct (cache s !! key) as [old|].
  - destruct (get_info (mem s) (info old)) as [ei|]; [|done]. cbn [mbind res_bind].
    destruct (new_old_entry_info (mem s) old) as [oi|]; [|done]. cbn [mbind res_bind].
    destruct (new_value_entry_from (mem s) v ts (weigh cfg key v) old) as [[[m ve] gen]|]; [|done]. cbn [mbind res_bind].
    unfold do_post_update_steps, async_do_post_update_steps.
    destruct (post_update_expiration _ _ _ _ _ _) as [m'|]; [|done]. cbn [mbind res_bind]. cbv zeta.
    set (s1 := with_mem _ m'). destruct (is_removal_notifier_enabled s1); [|done]. cbn [from_option].
    unfold async_notify_upsert. by rewrite notify_now_single.
  - destruct (new_value_entry (mem s) key hash v ts (weigh cfg key v)) as [[[m ve] gen]|]; [|done]. cbn [mbind res_bind].
    by destruct (do_post_insert_steps _ _ _ _ _).
Qed.

Lemma invalidate_sync s key now :
  do_invalidate_with_hash cfg s key now =
  ('(s, removed) ← async_do_invalidate_with_hash cfg s key now;
   Ok (match removed with
       | Some (kv, op, future) => (from_option (notify_now s) s future, Some (kv, op))
       | None => (s, None)
       end)).
Proof.
  unfold do_invalidate_with_hash, async_do_invalidate_with_hash. destruct (remove_entry s key) as [[s1 [kv|]]|]; [|done|done].
  cbn [mbind res_bind]. destruct (get_info (mem s1) (info (kv_entry kv))) as [ei|]; [|done]. cbn [mbind res_bind].
  destruct (incr_entry_gen ei) as [ei2 g]. set (s2 := with_mem s1 _).
  destruct (is_removal_notifier_enabled s2); [|done]. unfold notify_invalidate, async_notify_invalidate.
  destruct (get_info (mem s2) (info (kv_entry kv))) as [ei3|]; [|done]. cbn [mbind res_bind from_option]. by rewrite notify_now_single.
Qed.

(** The two states differ in the listener only. *)
Lemma notify_now_undo s future : s = with_notifier (from_option (notify_now s) s future) (removal_notifier s).
Proof. destruct future as [f|]; cbn; [unfold notify_now; destruct (removal_notifier s) eqn:E; cbn|]; destruct s; cbn in *; by subst. Qed.
End equivalence.

(** ** What the tasks hold *)

Section held.
Context {K V : Type}.
Implicit Types (pc : TaskPc K V) (ls : list (Label K V)) (l : list nat).

Definition pc_ops pc : list (WriteOp K V) := match pc_guard pc with Some g => option_list (cg_op g) | None => [] end.
Definition pc_futs pc : list nat := match pc_guard pc with Some g => option_list (cg_future g) | None => [] end.
Definition iop_op (o : InterruptedOp K V) : WriteOp K V :=
  match o with CallEvictionListener _ _ op | SendWriteOp _ op => op end.
Definition iop_futs (o : InterruptedOp K V) : list nat :=
  match o with CallEvictionListener _ f _ => [f] | SendWriteOp _ _ => [] end.

Definition is_running pc : bool := match pc with InRun _ _ => true | _ => false end.

(** The writes made and the writes sent to the log, the notifications asked for and
    the calls begun. *)
Definition issued ls : list (WriteOp K V) :=
  ls ≫= fun x => match x with LInserted _ _ _ op => [op] | LInvalidated _ (Some op) => [op] | _ => [] end.
Definition sent ls : list (WriteOp K V) := ls ≫= fun x => match x with LSent op => [op] | _ => [] end.
Definition created ls : list nat := ls ≫= fun x => match x with LFuture f => [f] | _ => [] end.
Definition notified_futs ls : list nat := ls ≫= fun x => match x with LNotified f => [f] | _ => [] end.

(** What a perfect cache holds after the events, and how many writes there were. *)
Definition spec_label `{Countable K} (m : gmap K (V * Instant)) (x : Label K V) : gmap K (V * Instant) :=
  match x with
  | LInserted key v ts _ => <[key := (v, ts)]> m
  | LInvalidated key _ => delete key m
  | _ => m
  end.
Definition count_label (n : Z) (x : Label K V) : Z := match x with LInserted _ _ _ _ => n + 1 | _ => n end.

(** The owners of the futures that are not completed: every such future has exactly
    one. *)
Definition owned (fs : list (NotifyFuture K V)) (l : list nat) : Prop :=
  NoDup l /\ forall i, i ∈ l <-> exists f, fs !! i = Some f /\ nf_state f <> Completed.

(** The futures whose call has begun, once each. *)
Definition begun (fs : list (NotifyFuture K V)) (l : list nat) : Prop :=
  NoDup l /\ forall i, i ∈ l <-> exists f, fs !! i = Some f /\ nf_state f <> NotPolled.

Lemma owned_perm fs l l' : l ≡ₚ l' -> owned fs l -> owned fs l'.
Proof. intros Hp [Hn Ho]. split; [by rewrite <- Hp|]. intros i. by rewrite <- Hp. Qed.

Lemma owned_share fs l k v c : owned fs l -> owned (fs ++ [mkNotifyFuture k v c NotPolled]) (length fs :: l).
Proof.
  intros [Hn Ho]. split.
  - constructor; [|done]. intros (f & Hf & _)%Ho. apply lookup_lt_Some in Hf. lia.
  - intros i. rewrite elem_of_cons, Ho. split.
    + intros [->|(f & Hf & Hs)]; [eexists; split; [by apply list_lookup_middle|done]|]. exists f. by rewrite lookup_app_l by by eapply lookup_lt_Some.
    + intros (f & Hf & Hs). apply lookup_app_Some in Hf as [Hf|[Hle Hf]]; [by right; exists f|]. left.
      apply list_lookup_singleton_Some in Hf as [? _]. lia.
Qed.

Lemma begun_share fs l k v c : begun fs l -> begun (fs ++ [mkNotifyFuture k v c NotPolled]) l.
Proof.
  intros [Hn Ho]. split; [done|]. intros i. rewrite Ho. split.
  - intros (f & Hf & Hs). exists f. by rewrite lookup_app_l by by eapply lookup_lt_Some.
  - intros (f & Hf & Hs). apply lookup_app_Some in Hf as [Hf|[Hle Hf]]; [by exists f|].
    apply list_lookup_singleton_Some in Hf as [_ <-]. done.
Qed.

Lemma owned_poll fs l i f f' : fs !! i = Some f -> owned fs (i :: l) ->
  owned (<[i := f']> fs) (if bool_decide (nf_state f' = Completed) then l else i :: l).
Proof.
  intros Hi [[Hni Hn]%NoDup_cons Ho].
  assert (Hlt : (i < length fs)%nat) by by eapply lookup_lt_Some.
  assert (Hrest : forall j, j <> i -> (exists g, <[i := f']> fs !! j = Some g /\ nf_state g <> Completed) <-> j ∈ l).
  { intros j Hj. rewrite list_lookup_insert_ne by done. rewrite <- Ho, elem_of_cons. naive_solver. }
  case_bool_decide as Hc.
  - split; [done|]. intros j. destruct (decide (j = i)) as [->|Hj]; [|by rewrite Hrest].
    rewrite list_lookup_insert_eq by done. split; [done|]. intros (g & [= <-] & Hg). done.
  - split; [by constructor|]. intros j. rewrite elem_of_cons. destruct (decide (j = i)) as [->|Hj]; [|rewrite Hrest; naive_solver].
    split; [|auto]. intros _. exists f'. by rewrite list_lookup_insert_eq.
Qed.

Lemma begun_poll fs l i f f' : fs !! i = Some f -> begun fs l -> nf_state f' <> NotPolled ->
  begun (<[i := f']> fs) (l ++ if bool_decide (nf_state f = NotPolled) then [i] else []).
Proof.
  intros Hi [Hn Ho] Hf'. assert (Hlt : (i < length fs)%nat) by by eapply lookup_lt_Some.
  assert (Hrest : forall j, j <> i -> (exists g, <[i := f']> fs !! j = Some g /\ nf_state g <> NotPolled) <-> j ∈ l).
  { intros j Hj. rewrite list_lookup_insert_ne by done. by rewrite <- Ho. }
  assert (Hii : i ∈ l <-> nf_state f <> NotPolled) by (rewrite Ho; naive_solver).
  split.
  - case_bool_decide as Hc; [|by rewrite app_nil_r]. apply NoDup_app. split; [done|]. split; [|apply NoDup_singleton].
    intros j Hj ->%list_elem_of_singleton. by apply Hii in Hj.
  - intros j. rewrite elem_of_app. destruct (decide (j = i)) as [->|Hj].
    + rewrite list_lookup_insert_eq by done. split; [naive_solver|]. intros _.
      case_bool_decide as Hc; [right; by apply list_elem_of_singleton|]. left. by apply Hii.
    + rewrite Hrest by done. case_bool_decide; [rewrite list_elem_of_singleton; naive_solver|]. rewrite elem_of_nil. naive_solver.
Qed.
End held.

(** ** One task and what it shares *)

Section local.
Context {K V Ev : Type} `{Countable K} `{ReadyEvent Ev}.
Variable cfg : Config K V.
Context (Huser : user_ok cfg) (Hsafe : sketch_safe cfg).
Implicit Types (s : Inner K V) (b : BaseCache K V) (sh : Shared K V Ev) (pc : TaskPc K V) (g : CancelGuard K V)
  (ls : list (Label K V)) (m : gmap K (V * Instant)) (rest : list (WriteOp K V)) (rfuts : list nat).

Definition int_ops sh : list (WriteOp K V) := iop_op <$> interrupted_op_ch sh.
Definition int_futs sh : list nat := interrupted_op_ch sh ≫= iop_futs.
Definition sh_mem sh : Mem K := mem (sh_inner sh).

Definition holds_op g : Prop := cg_future g = None /\ is_Some (cg_op g).
Definition holds_both g : Prop := is_Some (cg_future g) /\ is_Some (cg_op g).

(** What a task at this point holds. *)
Definition pc_ok (mm : Mem K) pc : Prop :=
  match pc with
  | AtRetryNotify g | AtNotify g _ => holds_both g
  | AtAttempt _ g _ | AtTrySend _ g _ | AtListen _ g | Listening _ g => holds_op g
  | AtRecordRead op _ _ | AtReadSend op _ => read_wf mm op
  | InRun now back => instant_ok now /\ match back with
                                        | BackToSend _ g _ => holds_op g
                                        | BackToRead op _ => read_wf mm op
                                        | BackToCaller => True
                                        end
  | _ => True
  end.

Definition pending_run sh : Z := if current_task sh then 1 else 0.

Record local n m sh (i : nat) pc rest rfuts : Prop := {
  lo_sys : sys_inv cfg n m (mkSys (sh_base sh) (pc_ops pc ++ int_ops sh ++ rest));
  lo_futs : owned (sh_futures sh) (pc_futs pc ++ int_futs sh ++ rfuts);
  lo_pc : pc_ok (sh_mem sh) pc;
  lo_lock : is_running pc = true <-> lock_holder sh = Some i;
  lo_current : is_Some (lock_holder sh) -> is_Some (current_task sh);
  lo_repeats : forall t r n, current_task sh = Some (t, r, n) -> 0 <= r;
  lo_counts : start_count sh = complete_count sh + pending_run sh
}.

(** What a poll changes, and what its labels account for. *)
Record moved sh (i : nat) pc sh' pc' ls : Prop := {
  mv_mem : mem_le (sh_mem sh) (sh_mem sh');
  mv_lock : lock_holder sh' = lock_holder sh \/ lock_holder sh = None /\ lock_holder sh' = Some i \/
            lock_holder sh = Some i /\ lock_holder sh' = None;
  mv_ops : pc_ops pc ++ int_ops sh ++ issued ls ≡ₚ pc_ops pc' ++ int_ops sh' ++ sent ls;
  mv_created : created ls = seq (length (sh_futures sh)) (length (sh_futures sh') - length (sh_futures sh)) /\
               (length (sh_futures sh) <= length (sh_futures sh'))%nat;
  mv_begun : forall l, begun (sh_futures sh) l -> begun (sh_futures sh') (l ++ notified_futs ls)
}.

Definition poll_post n m sh (i : nat) pc rest rfuts (r : Shared K V Ev * TaskPc K V * list (Label K V)) : Prop :=
  let '(sh', pc', ls) := r in
  local (foldl count_label n ls) (foldl spec_label m ls) sh' i pc' rest rfuts /\ moved sh i pc sh' pc' ls.

(** Labels and futures as before. *)
Lemma moved_silent sh i pc sh' pc' :
  mem_le (sh_mem sh) (sh_mem sh') ->
  lock_holder sh' = lock_holder sh \/ lock_holder sh = None /\ lock_holder sh' = Some i \/
            lock_holder sh = Some i /\ lock_holder sh' = None ->
  pc_ops pc ++ int_ops sh ≡ₚ pc_ops pc' ++ int_ops sh' -> sh_futures sh' = sh_futures sh ->
  moved sh i pc sh' pc' [].
Proof.
  intros Hm Hl Hp Hf. split; [done|done|by rewrite !app_nil_r|rewrite Hf, Nat.sub_diag; cbn; done|].
  intros l Hb. by rewrite Hf, app_nil_r.
Qed.

(** A task moves on, and nothing else changes. *)
Lemma local_goto n m sh i pc pc' rest rfuts :
  local n m sh i pc rest rfuts -> pc_ops pc' = pc_ops pc -> pc_futs pc' = pc_futs pc ->
  pc_ok (sh_mem sh) pc' -> is_running pc' = is_running pc ->
  poll_post n m sh i pc rest rfuts (sh, pc', []).
Proof.
  intros L Ho Hf Hpc Hr. split; [|by apply moved_silent; [done|left|rewrite Ho|]]. destruct L. cbn [foldl].
  split; rewrite ?Ho, ?Hf, ?Hr; done.
Qed.

(** The inner cache changes in what the books do not count. *)
Lemma local_inner n m sh i pc pc' s rest rfuts :
  local n m sh i pc rest rfuts ->
  sys_inv cfg n m (mkSys (with_inner (sh_base sh) s) (pc_ops pc ++ int_ops sh ++ rest)) -> mem_le (sh_mem sh) (mem s) ->
  pc_ops pc' = pc_ops pc -> pc_futs pc' = pc_futs pc -> pc_ok (mem s) pc' -> is_running pc' = is_running pc ->
  poll_post n m sh i pc rest rfuts (sh_with_inner sh s, pc', []).
Proof.
  intros [Hs Hf Hp Hl Hc Hr Hn] Hs' Hm Ho Hfu Hpc Hrun. split; [|by apply moved_silent; [done|left|rewrite Ho|]].
  cbn [foldl]. split; cbn; try done.
  - by rewrite Ho.
  - by rewrite Hfu.
  - by rewrite Hrun.
Qed.

Lemma poll_shared_ok sh fid f ready :
  sh_futures sh !! fid = Some f ->
  exists nt f', poll_shared (K := K) (V := V) sh fid ready =
    Ok (sh_with_futures (sh_with_inner sh (with_notifier (sh_inner sh) nt)) (<[fid := f']> (sh_futures sh)),
        bool_decide (nf_state f' = Completed), if bool_decide (nf_state f = NotPolled) then [LNotified fid] else []) /\
    (nf_state f <> Completed -> nf_state f' <> NotPolled) /\ (ready = true -> nf_state f' = Completed).
Proof.
  intros Hf. unfold poll_shared. rewrite Hf. cbn [mbind res_bind expect_some]. cbv zeta.
  destruct (removal_notifier (sh_inner sh)) as [nt|].
  - destruct (poll_notify nt f ready) as [nt' f'] eqn:E. eexists _, f'. split; [reflexivity|].
    unfold poll_notify in E. destruct (nf_state f) eqn:Es.
    + destruct (negb (nt_is_enabled nt)); [by injection E as <- <-|]. by destruct ready; injection E as <- <-.
    + by destruct ready; injection E as <- <-; cbn; rewrite ?Es.
    + injection E as <- <-. by rewrite Es.
  - eexists _, _. by split.
Qed.

(** ** Awaiting a notification *)

Lemma owner_not_completed sh g fid (l rfuts : list nat) : cg_future g = Some fid ->
  owned (sh_futures sh) (option_list (cg_future g) ++ l ++ rfuts) ->
  exists f, sh_futures sh !! fid = Some f /\ nf_state f <> Completed.
Proof. intros -> [_ Ho]. apply Ho. left. Qed.

Lemma await_ok n m sh i pc pc' g ready rest rfuts :
  local n m sh i pc rest rfuts -> pc_guard pc = Some g -> pc_guard pc' = Some (unset_future g) -> holds_both g ->
  is_running pc = false -> is_running pc' = false -> (forall mm, pc_ok mm pc' <-> holds_op (unset_future g)) ->
  returns (fid ← expect_some UnwrapNone (cg_future g);
           '(sh, ready, ls) ← poll_shared sh fid ready;
           Ok (sh, if (ready : bool) then pc' else pc, ls)) (poll_post n m sh i pc rest rfuts).
Proof.
  intros [Hs Hf Hp Hl Hc Hr Hn] Hg Hg' [[fid Hfid] Hop] Hrun Hrun' Hok'. rewrite Hfid. cbn [mbind res_bind expect_some].
  unfold pc_ops, pc_futs in *. rewrite Hg in *. cbn [cg_op cg_future unset_future] in *.
  destruct (owner_not_completed sh g fid _ _ Hfid Hf) as (f & Hi & Hnc).
  destruct (poll_shared_ok sh fid f ready Hi) as (nt & f' & -> & Hnp & _). cbn [mbind res_bind]. apply returns_ok. rewrite Hfid in Hf.
  pose proof (owned_poll _ _ _ _ f' Hi Hf) as Hf'. pose proof (notifier_sys cfg n m _ _ nt Hs) as Hs'.
  assert (Hlab : forall ls, ls = (if bool_decide (nf_state f = NotPolled) then [@LNotified K V fid] else []) ->
    foldl count_label n ls = n /\ foldl spec_label m ls = m /\ issued ls = [] /\ sent ls = [] /\ created ls = [] /\
    notified_futs ls = if bool_decide (nf_state f = NotPolled) then [fid] else []).
  { intros ls ->. destruct (bool_decide (nf_state f = NotPolled)); repeat split; reflexivity. }
  destruct (Hlab _ eq_refl) as (L1 & L2 & L3 & L4 & L5 & L6). unfold poll_post. rewrite L1, L2.
  set (sh' := sh_with_futures _ _).
  set (pc1 := if bool_decide (nf_state f' = Completed) then pc' else pc).
  assert (Hpc1 : pc_ops pc1 = option_list (cg_op g) /\ is_running pc1 = is_running pc /\ pc_ok (sh_mem sh') pc1 /\
    pc_futs pc1 ++ int_futs sh ++ rfuts = if bool_decide (nf_state f' = Completed) then int_futs sh ++ rfuts else fid :: int_futs sh ++ rfuts).
  { unfold pc1, pc_ops, pc_futs. destruct (bool_decide (nf_state f' = Completed)); rewrite ?Hg, ?Hg', ?Hrun'; cbn [unset_future cg_op cg_future].
    - split; [done|]. split; [done|]. split; [by apply Hok'|done].
    - by rewrite Hfid. }
  destruct Hpc1 as (Hops & Hrun1 & Hok1 & Hfut1). split.
  - split; try done.
    + by rewrite Hops.
    + cbn [sh_futures sh' sh_with_futures]. change (int_futs sh') with (int_futs sh). by rewrite Hfut1.
    + by rewrite Hrun1.
  - split; [done|by left| | |].
    + by rewrite Hops, L3, L4; unfold pc_ops; rewrite Hg.
    + rewrite L5. cbn [sh_futures sh' sh_with_futures]. by rewrite length_insert, Nat.sub_diag.
    + intros l Hb. rewrite L6. by apply begun_poll; [|done|apply Hnp].
Qed.

(** ** The retry of an interrupted operation *)

Lemma retry_ok n m sh i c rest rfuts inp :
  local n m sh i AtRetry rest rfuts -> returns (poll cfg sh i c AtRetry inp) (poll_post n m sh i AtRetry rest rfuts).
Proof.
  intros L. cbn [poll]. apply returns_ok. unfold poll_retry, silent. destruct (interrupted_op_ch sh) as [|o l] eqn:Hi; [by apply local_goto|].
  assert (HP : forall o l pc', interrupted_op_ch sh = o :: l -> pc_ops pc' = [iop_op o] -> pc_futs pc' = iop_futs o ->
    is_running pc' = false -> (forall mm, pc_ok mm pc') -> poll_post n m sh i AtRetry rest rfuts (sh_with_interrupted sh l, pc', [])).
  { clear o l Hi. intros o l pc' Hi Ho Hf Hr Hok. destruct L as [Hs Hfu Hp Hl Hc Hre Hn]. unfold int_ops, int_futs in *. rewrite Hi in *.
    split; [split; cbn [foldl]; try done|].
    - rewrite Ho. exact Hs.
    - rewrite Hf. unfold int_futs. cbn [interrupted_op_ch sh_with_interrupted]. cbn in Hfu. by rewrite <- app_assoc in Hfu.
    - by rewrite Hr.
    - apply moved_silent; [done|by left| |done]. rewrite Ho. unfold int_ops. by rewrite Hi. }
  destruct o as [ts fut op|ts op]; (eapply HP; [exact Hi|done|done|done|]); intros mm; cbn; unfold holds_both, holds_op; cbn; eauto.
Qed.

(** ** The updates of the table *)

(** A write was made; it is held by the task that made it, in its guard. *)
Lemma await_notification_ok n n' m m' sh i s ts op future ret rest rfuts x :
  local n m sh i AtBody rest rfuts -> mem_le (sh_mem sh) (mem s) ->
  sys_inv cfg n' m' (mkSys (with_inner (sh_base sh) s) ((int_ops sh ++ rest) ++ [op])) ->
  (forall f, future = Some f -> nf_state f = NotPolled) ->
  issued [x] = [op] -> sent [x] = [] -> created [x] = [] -> notified_futs [x] = [] -> count_label n x = n' -> spec_label m x = m' ->
  let '(sh', pc', ls) := await_notification (sh_with_inner sh s) ts op future ret in
  poll_post n m sh i AtBody rest rfuts (sh', pc', x :: ls).
Proof.
  intros [Hs Hf Hp Hl Hc Hr Hn] Hm Hs' Hnew I1 I2 I3 I4 Hcn Hsp.
  assert (Hfl : sys_inv cfg n' m' (mkSys (with_inner (sh_base sh) s) (op :: int_ops sh ++ rest))).
  { eapply sys_inv_perm; [|exact Hs']. rewrite <- Permutation_cons_append. done. }
  destruct future as [f|]; cbn [await_notification share].
  - specialize (Hnew f eq_refl). destruct f as [k v c st]. cbn in Hnew. subst st.
    assert (L : issued [x; LFuture (length (sh_futures sh))] = [op] /\ sent [x; LFuture (length (sh_futures sh))] = [] /\
      created [x; LFuture (length (sh_futures sh))] = [length (sh_futures sh)] /\ notified_futs [x; LFuture (length (sh_futures sh))] = []).
    { unfold issued, sent, created, notified_futs in *. cbn in *. destruct x as [| ? [] | | |]; done. }
    destruct L as (L1 & L2 & L3 & L4). cbn [sh_futures sh_with_inner sh_with_base]. split.
    + cbn [foldl]. rewrite Hcn, Hsp. split; [exact Hfl|by apply owned_share| |exact Hl|done|done|done].
      cbn. unfold holds_both. cbn. eauto.
    + split; [done|by left| | |]; cbn [sh_futures sh_with_futures sh_with_inner sh_with_base].
      * rewrite L1, L2, app_nil_r. cbn. by rewrite <- Permutation_cons_append.
      * rewrite L3, length_app, Nat.add_comm, Nat.add_sub. cbn. split; [done|lia].
      * intros l Hb. rewrite L4, app_nil_r. by apply begun_share.
  - split.
    + cbn [foldl]. rewrite Hcn, Hsp. split; [exact Hfl|exact Hf| |exact Hl|done|done|done].
      cbn. unfold holds_op. cbn. eauto.
    + split; [done|by left| | |]; cbn [sh_futures sh_with_inner sh_with_base].
      * rewrite I1, I2, app_nil_r. cbn. by rewrite <- Permutation_cons_append.
      * by rewrite I3, Nat.sub_diag.
      * intros l Hb. by rewrite I4, app_nil_r.
Qed.

Lemma new_future_insert s key hash v ts now s' op future f :
  async_do_insert_with_hash cfg s key hash v ts now = Ok (s', op, future) -> future = Some f -> nf_state f = NotPolled.
Proof.
  unfold async_do_insert_with_hash, async_do_post_update_steps. intros E ->. destruct (cache s !! key).
  - res_inv. destruct a1 as [[? ?] ?]. res_inv. destruct a as [? ?]. cbn in *. res_inv. case_match; [|done].
    by match goal with H : Some _ = Some f |- _ => injection H as <- end.
  - res_inv. destruct a as [[? ?] ?]. by res_inv.
Qed.

Lemma new_future_invalidate s key now s' kv op future f :
  async_do_invalidate_with_hash cfg s key now = Ok (s', Some (kv, op, future)) -> future = Some f -> nf_state f = NotPolled.
Proof.
  unfold async_do_invalidate_with_hash, async_notify_invalidate. intros E ->.
  destruct (remove_entry s key) as [[s1 [kv1|]]|]; [|done|done]. cbn [mbind res_bind] in E.
  destruct (get_info (mem s1) (info (kv_entry kv1))) as [ei|]; [|done]. cbn [mbind res_bind] in E.
  destruct (incr_entry_gen ei) as [ei2 g]. destruct (is_removal_notifier_enabled _); [|done].
  destruct (get_info _ (info (kv_entry kv1))) as [ei3|]; [|done]. cbn [mbind res_bind] in E. by injection E as _ _ _ <-.
Qed.

Lemma insert_ok n m sh i key v inp rest rfuts :
  local n m sh i AtBody rest rfuts -> instant_ok (pi_now inp) ->
  returns (poll_insert cfg sh key v inp) (poll_post n m sh i AtBody rest rfuts).
Proof.
  intros L Hts. unfold poll_insert. pose proof (lo_sys _ _ _ _ _ _ _ L) as S. cbn [pc_ops pc_guard app] in S.
  destruct (insert_sys cfg Huser n m _ key v (pi_now inp) (pi_notify_now inp) S Hts) as (s' & op & E & Hm & S').
  cbn [base in_flight] in *. rewrite insert_sync in E. change (inner (sh_base sh)) with (sh_inner sh) in E.
  destruct (async_do_insert_with_hash cfg (sh_inner sh) key (hasher cfg key) v (pi_now inp) (pi_notify_now inp)) as [[[s1 op1] fut]|] eqn:E1; [|done].
  cbn [mbind res_bind] in *. injection E as E ->.
  pose proof (await_notification_ok n (n + 1) m (<[key := (v, pi_now inp)]> m) sh i s1 (pi_now inp) op fut None rest rfuts
    (LInserted key v (pi_now inp) op) L) as HA.
  destruct (await_notification (sh_with_inner sh s1) (pi_now inp) op fut None) as [[sh2 pc2] ls2]. apply returns_ok, HA; try done.
  - subst s'. rewrite (notify_now_undo s1 fut). exact Hm.
  - rewrite (notify_now_undo s1 fut). subst s'. by apply (notifier_sys cfg (n + 1) _ (with_inner (sh_base sh) _)).
  - intros f. by apply (new_future_insert _ _ _ _ _ _ _ _ _ f E1).
Qed.

Lemma invalidate_ok n m sh i key need_value inp rest rfuts :
  local n m sh i AtBody rest rfuts ->
  returns (poll_invalidate cfg sh key need_value inp) (poll_post n m sh i AtBody rest rfuts).
Proof.
  intros L. unfold poll_invalidate. pose proof (lo_sys _ _ _ _ _ _ _ L) as S. cbn [pc_ops pc_guard app] in S.
  destruct (invalidate_sys cfg n m _ key (pi_notify_now inp) S) as (s' & o & E & Hm & S').
  cbn [base in_flight] in *. rewrite invalidate_sync in E. change (inner (sh_base sh)) with (sh_inner sh) in E.
  destruct (async_do_invalidate_with_hash cfg (sh_inner sh) key (pi_notify_now inp)) as [[s1 [[[kv op] fut]|]]|] eqn:E1; [| |done];
    cbn [mbind res_bind] in *; injection E as E <-.
  - pose proof (await_notification_ok n n m (delete key m) sh i s1 (pi_now inp) op fut (if need_value then Some (value (kv_entry kv)) else None) rest rfuts
      (LInvalidated key (Some op)) L) as HA.
    destruct (await_notification (sh_with_inner sh s1) (pi_now inp) op fut (if need_value then Some (value (kv_entry kv)) else None)) as [[sh2 pc2] ls2].
    apply returns_ok, HA; try done.
    + subst s'. rewrite (notify_now_undo s1 fut). exact Hm.
    + rewrite (notify_now_undo s1 fut). subst s'. by apply (notifier_sys cfg n _ (with_inner (sh_base sh) _)).
    + intros f. by apply (new_future_invalidate _ _ _ _ _ _ _ f E1).
  - subst s'. rewrite app_nil_r in S'. apply returns_ok. split.
    + destruct L as [Hs Hf Hp Hl Hc Hr Hn]. by split.
    + split; [done|by left|done|by cbn; rewrite Nat.sub_diag|]. intros l Hb. by rewrite app_nil_r.
Qed.

(** ** Lookups *)

(** The lookup of a [get] answers with the last value written, or not at all. *)
Definition get_answer pc : option (Entry K V) :=
  match pc with AtRecordRead _ _ ent | TaskDone _ ent => ent | _ => None end.

Lemma get_ok n m sh i key ignore_if need_key record_read inp rest rfuts :
  local n m sh i AtBody rest rfuts -> instant_ok (pi_now inp) ->
  returns (poll_get cfg sh key ignore_if need_key record_read inp)
    (fun r => poll_post n m sh i AtBody rest rfuts (silent r) /\ answer_ok cfg m (sh_inner sh) key (pi_now inp) (get_answer (snd r))).
Proof.
  intros L Hnow. unfold poll_get. pose proof (lo_sys _ _ _ _ _ _ _ L) as S.
  destruct (find_valid_ok cfg (sh_inner sh) key ignore_if (pi_now inp) (si_cache S)) as (o & Eo & _). rewrite Eo. cbn [mbind res_bind].
  destruct o as [ve|].
  - destruct (touch_sys cfg Huser n m _ key ignore_if (pi_now inp) ve S Hnow Eo) as (s1 & now1 & x1 & E1 & S1 & Hwf & Hm & Hans).
    change (inner (base _)) with (sh_inner sh) in E1. rewrite E1. cbn [mbind res_bind]. apply returns_ok. split.
    + unfold silent. cbn [fst snd]. apply local_inner; try done; by destruct record_read.
    + cbn [snd]. destruct record_read; apply Hans.
  - apply returns_ok. split; [|by destruct record_read]. unfold silent. cbn [fst snd].
    apply local_goto; try done; by destruct record_read.
Qed.

(** ** Maintenance runs *)

Lemma after_run_ok mm (back : RunBack K V) now : instant_ok now ->
  pc_ops (after_run back) = pc_ops (InRun now back) /\ pc_futs (after_run back) = pc_futs (InRun now back) /\
  is_running (after_run back) = false /\ (pc_ok mm (after_run back) <-> pc_ok mm (InRun now back)).
Proof. intros Hn. destruct back; cbn; naive_solver. Qed.

Lemma begin_run_ok n m sh i hk pc now back rest rfuts :
  local n m sh i pc rest rfuts -> hk_wf hk -> lock_holder sh = None ->
  pc_ops (InRun now back) = pc_ops pc -> pc_futs (InRun now back) = pc_futs pc -> pc_ok (sh_mem sh) (InRun now back) ->
  poll_post n m sh i pc rest rfuts (begin_run sh i hk, InRun now back, []).
Proof.
  intros [Hs Hf Hp Hl Hc Hr Hn] Hhk Hfree Ho Hfu Hok. unfold begin_run.
  destruct (match current_task sh with Some _ => _ | None => _ end) as [[[t r] bs] starts] eqn:Et.
  assert (Hst : 0 <= r /\ starts = complete_count sh + 1).
  { unfold pending_run in Hn. destruct (current_task sh) as [[[t1 r1] bs1]|]; injection Et as <- <- <- <-.
    - split; [by eapply Hr|lia].
    - split; [apply Hhk|lia]. }
  split; [|apply moved_silent; [done|by right; left|by rewrite Ho|done]]. cbn [foldl]. split; cbn [sh_base sh_futures lock_holder current_task start_count complete_count].
  - by rewrite Ho.
  - by rewrite Hfu.
  - done.
  - done.
  - eauto.
  - intros t1 r1 n1 [= <- <- <-]. apply Hst.
  - apply Hst.
Qed.

Lemma try_begin_ok n m sh i due pc now back rest rfuts :
  local n m sh i pc rest rfuts -> is_running pc = false -> (forall hk, hk_wf hk -> exists d, due hk = Ok d) ->
  pc_ops (InRun now back) = pc_ops pc -> pc_futs (InRun now back) = pc_futs pc -> pc_ok (sh_mem sh) (InRun now back) ->
  returns (try_begin_run sh i due now back) (fun r => poll_post n m sh i pc rest rfuts (silent r)).
Proof.
  intros L Hrun Hdue Ho Hfu Hok. destruct (si_hk (lo_sys _ _ _ _ _ _ _ L)) as (hk & Hhk & Hwf & _). cbn [base] in Hhk.
  unfold try_begin_run. rewrite Hhk. destruct (Hdue hk Hwf) as [d ->]. cbn [mbind res_bind].
  destruct (after_run_ok (sh_mem sh) back now (proj1 Hok)) as (A1 & A2 & A3 & A4).
  assert (Hgo : poll_post n m sh i pc rest rfuts (sh, after_run back, [])).
  { apply local_goto; [done|by rewrite A1|by rewrite A2|by apply A4|by rewrite Hrun]. }
  destruct (lock_holder sh) as [j|] eqn:Hlock; apply returns_ok; [done|]. destruct d; [|done]. by apply begin_run_ok.
Qed.

Lemma should_writes_ok hk n now : hk_wf hk -> exists d, should_apply_writes hk n now = Ok d.
Proof. intros Hwf. unfold should_apply_writes. destruct (more_to_evict hk); [eauto|]. rewrite (should_apply_ok _ _ _ _ Hwf). eauto. Qed.
Lemma should_reads_ok hk n now : hk_wf hk -> exists d, should_apply_reads hk n now = Ok d.
Proof. intros Hwf. unfold should_apply_reads. destruct (more_to_evict hk); [eauto|]. rewrite (should_apply_ok _ _ _ _ Hwf). eauto. Qed.

Lemma complete_run_spec n m sh i now back inp c rest rfuts :
  local n m sh i (InRun now back) rest rfuts -> n <= MAX_WRITES -> pi_ready inp = true ->
  exists sh', poll cfg sh i c (InRun now back) inp = Ok (sh', after_run back, []) /\
    poll_post n m sh i (InRun now back) rest rfuts (sh', after_run back, []) /\ maintained cfg (sh_inner sh) (sh_inner sh') /\
    interrupted_op_ch sh' = interrupted_op_ch sh /\ lock_holder sh' = None /\ current_task sh' = None.
Proof.
  intros L Hn Hready. cbn [poll]. rewrite Hready.
  pose proof L as [Hs Hf [Hnow Hok] Hl Hc Hr Hcnt]. destruct (si_hk Hs) as (hk & Hhk & Hwf & Ha). cbn [base] in Hhk.
  rewrite Hhk. cbn [mbind res_bind expect_some]. unfold complete_run.
  destruct (Hc ltac:(rewrite (proj1 Hl eq_refl); eauto)) as [[[t r] bs] Hcur]. rewrite Hcur. cbn [mbind res_bind expect_some].
  pose proof (flight_ready cfg n m _ Hs Hn) as [Hrd _]. cbn [base] in Hrd.
  destruct (run_safe (InnerSyncSafe := inner_sync_safe cfg Hsafe) (pi_readings inp, pi_started inp) (sh_inner sh) t r bs Hrd (Hr _ _ _ Hcur))
    as (s' & more & -> & Hrd' & HM). cbn [mbind res_bind].
  destruct (set_instant_ok (run_after hk) _ (sync_after_ok now Hnow)) as [-> _]. cbn [mbind res_bind]. eexists. split; [reflexivity|].
  set (hk' := set_more_entries_to_evict _ more).
  assert (Hb' : base_ok cfg (mkBaseCache s' (Some hk'))).
  { split; [done|]. exists hk'. split; [done|]. split; [|done]. split; [by apply sync_after_ok|apply Hwf]. }
  destruct (after_run_ok (mem s') back now Hnow) as (A1 & A2 & A3 & A4).
  pose proof (maintained_sys cfg n m _ (mkBaseCache s' (Some hk')) Hs Hb' (or_intror HM)) as Hs'. cbn [in_flight] in Hs'.
  assert (Hmem : mem_le (sh_mem sh) (mem s')) by apply HM.
  split; [|by split]. split.
  - cbn [foldl]. split; cbn [sh_base sh_futures lock_holder current_task start_count complete_count]; try done.
    + by rewrite A1.
    + by rewrite A2.
    + apply A4. split; [done|]. destruct back; try done. by eapply read_wf_le.
    + by rewrite A3.
    + unfold pending_run in *. rewrite Hcur in Hcnt. cbn. lia.
  - apply moved_silent; [done| |by rewrite A1|done]. right; right. split; [by apply Hl|done].
Qed.

Lemma complete_run_ok n m sh i now back inp c rest rfuts :
  local n m sh i (InRun now back) rest rfuts -> n <= MAX_WRITES ->
  returns (poll cfg sh i c (InRun now back) inp) (poll_post n m sh i (InRun now back) rest rfuts).
Proof.
  intros L Hn. destruct (pi_ready inp) eqn:Hready.
  - destruct (complete_run_spec n m sh i now back inp c rest rfuts L Hn Hready) as (sh' & E & Hpost & _). by exists (sh', after_run back, []).
  - cbn [poll]. rewrite Hready. apply returns_ok, local_goto; try done. apply L.
Qed.

(** ** Sending *)

Lemma try_send_ok n m sh i a g spins rest rfuts :
  local n m sh i (AtTrySend a g spins) rest rfuts ->
  returns (poll_try_send cfg sh a g spins) (poll_post n m sh i (AtTrySend a g spins) rest rfuts).
Proof.
  intros L. pose proof L as [Hs Hf [Hg [op Hop]] Hl Hc Hr Hcnt]. unfold poll_try_send. rewrite Hop. cbn [mbind res_bind expect_some]. cbv zeta.
  destruct (Z.ltb_spec (Z.of_nat (length (write_op_ch (sh_inner sh)))) (channel_capacity cfg WRITE_LOG_CH_SIZE)) as [Hlt|]; apply returns_ok.
  - unfold pc_ops, pc_futs in Hs, Hf. cbn [pc_guard] in Hs, Hf. rewrite Hop in Hs. rewrite Hg in Hf.
    pose proof (sent_sys cfg n m _ 0 op Hs eq_refl Hlt) as Hs'. set (pc' := match a with ToRetry => AtRetry | ToCaller v => TaskDone v None end).
    assert (Hpc : pc_guard pc' = None /\ is_running pc' = false /\ forall mm, pc_ok mm pc') by (by destruct a).
    destruct Hpc as (P1 & P2 & P3). split.
    + cbn [foldl count_label spec_label]. split; try done.
      * unfold pc_ops. rewrite P1. exact Hs'.
      * unfold pc_futs. by rewrite P1.
      * by rewrite P2.
    + split; [done|by left| |by cbn; rewrite Nat.sub_diag|].
      * unfold pc_ops. rewrite P1. cbn [pc_guard]. rewrite Hop. cbn. rewrite app_nil_r. by rewrite Permutation_cons_append.
      * intros l Hb. by rewrite app_nil_r.
  - apply local_goto; try done; by case_bool_decide.
Qed.

(** Only the event changes. *)
Lemma local_event n m sh i pc pc' e rest rfuts :
  local n m sh i pc rest rfuts -> pc_ops pc' = pc_ops pc -> pc_futs pc' = pc_futs pc ->
  pc_ok (sh_mem sh) pc' -> is_running pc' = is_running pc ->
  poll_post n m sh i pc rest rfuts (sh_with_event sh e, pc', []).
Proof.
  intros L Ho Hf Hpc Hr. split; [|by apply moved_silent; [done|left|rewrite Ho|]]. destruct L. cbn [foldl].
  split; rewrite ?Ho, ?Hf, ?Hr; done.
Qed.

Definition input_ok (inp : PollInput) : Prop := instant_ok (pi_now inp).

Lemma start_pc_ok n m sh i c inp rest rfuts :
  local n m sh i AtStart rest rfuts -> returns (poll cfg sh i c AtStart inp) (poll_post n m sh i AtStart rest rfuts).
Proof. intros L. apply returns_ok. apply local_goto; try done; by destruct c; cbn; unfold poll_start; repeat case_match. Qed.

(** ** Every poll *)

Lemma poll_ok n m sh i c pc inp rest rfuts :
  local n m sh i pc rest rfuts -> n <= MAX_WRITES -> input_ok inp ->
  returns (poll cfg sh i c pc inp) (poll_post n m sh i pc rest rfuts).
Proof.
  intros L Hn Hin. destruct pc as [| |g| |g ret|a g spins|a g spins|a g|a g|op now ent|op ent| |now back|v ent|].
  - by apply start_pc_ok.
  - by apply retry_ok.
  - cbn [poll]. apply (await_ok n m sh i (AtRetryNotify g) _ g (pi_ready inp)); try done. apply (lo_pc _ _ _ _ _ _ _ L).
  - destruct c as [key v|key nv|key ig nk rr|]; cbn [poll].
    + by apply insert_ok.
    + by apply invalidate_ok.
    + eapply returns_bind; [by apply get_ok|]. intros r [Hr _]. by apply returns_ok.
    + by apply returns_ok, local_goto.
  - cbn [poll]. apply (await_ok n m sh i (AtNotify g ret) _ g (pi_ready inp)); try done. apply (lo_pc _ _ _ _ _ _ _ L).
  - cbn [poll]. eapply returns_bind; [|by intros r Hr; apply returns_ok, Hr]. apply try_begin_ok; try done.
    + intros hk Hwf. by apply should_writes_ok.
    + split; [done|apply (lo_pc _ _ _ _ _ _ _ L)].
  - by apply try_send_ok.
  - cbn [poll]. apply returns_ok, local_event; try done. apply (lo_pc _ _ _ _ _ _ _ L).
  - cbn [poll]. pose proof (lo_pc _ _ _ _ _ _ _ L) as Hpc. apply returns_ok. destruct (ev_notified _ _); [by apply local_event|by apply local_goto].
  - cbn [poll]. eapply returns_bind; [|by intros r Hr; apply returns_ok, Hr]. apply try_begin_ok; try done.
    + intros hk Hwf. by apply should_reads_ok.
    + split; [done|apply (lo_pc _ _ _ _ _ _ _ L)].
  - cbn [poll]. unfold poll_read_send. cbv zeta. apply returns_ok. destruct (Z.ltb_spec (Z.of_nat (length (read_op_ch (sh_inner sh)))) (channel_capacity cfg READ_LOG_CH_SIZE)).
    + apply local_inner; try done. by apply (read_sent_sys cfg n m _ op (lo_sys _ _ _ _ _ _ _ L)); [apply (lo_pc _ _ _ _ _ _ _ L)|].
    + by apply local_goto.
  - cbn [poll]. destruct (si_hk (lo_sys _ _ _ _ _ _ _ L)) as (hk & Hhk & Hwf & _). cbn [base] in Hhk. unfold poll_run_lock, silent. rewrite Hhk.
    destruct (lock_holder sh) eqn:Hlock; apply returns_ok; [by apply local_goto|by apply begin_run_ok].
  - by apply complete_run_ok.
  - by apply returns_ok, local_goto.
  - by apply returns_ok, local_goto.
Qed.

(** ** Dropping a task *)

Lemma drop_guard_ops (g : CancelGuard K V) : holds_op g \/ holds_both g ->
  iop_op <$> drop_cancel_guard g = option_list (cg_op g) /\ drop_cancel_guard g ≫= iop_futs = option_list (cg_future g).
Proof. intros [[Hf [op Ho]]|[[f Hf] [op Ho]]]; unfold drop_cancel_guard; by rewrite Hf, Ho. Qed.

Lemma pc_guard_holds mm pc g : pc_ok mm pc -> pc_guard pc = Some g -> holds_op g \/ holds_both g.
Proof. destruct pc; cbn; try done; try (intros Hok [= <-]; auto). destruct back; cbn; try done. intros [_ Hok] [= <-]. auto. Qed.

(** The guard's content moves to the channel. *)
Lemma drop_interrupts n m sh i pc rest rfuts :
  local n m sh i pc rest rfuts -> is_running pc = false ->
  poll_post n m sh i pc rest rfuts
    (match pc_guard pc with Some g => sh_with_interrupted sh (interrupted_op_ch sh ++ drop_cancel_guard g) | None => sh end, TaskDropped, []).
Proof.
  intros L Hrun. destruct (pc_guard pc) as [g|] eqn:Hg.
  - destruct L as [Hs Hf Hp Hl Hc Hr Hcnt]. destruct (drop_guard_ops g (pc_guard_holds _ _ _ Hp Hg)) as [D1 D2].
    assert (Ho : int_ops (sh_with_interrupted sh (interrupted_op_ch sh ++ drop_cancel_guard g)) ≡ₚ pc_ops pc ++ int_ops sh).
    { unfold int_ops, pc_ops. cbn [interrupted_op_ch sh_with_interrupted]. rewrite fmap_app, D1, Hg. by rewrite Permutation_app_comm. }
    assert (Hu : int_futs (sh_with_interrupted sh (interrupted_op_ch sh ++ drop_cancel_guard g)) ≡ₚ pc_futs pc ++ int_futs sh).
    { unfold int_futs, pc_futs. cbn [interrupted_op_ch sh_with_interrupted]. rewrite bind_app, D2, Hg. by rewrite Permutation_app_comm. }
    split.
    + cbn [foldl]. split; try done.
      * eapply sys_inv_perm; [|exact Hs]. cbn. by rewrite Ho, <- app_assoc.
      * eapply owned_perm; [|exact Hf]. cbn. by rewrite Hu, <- app_assoc.
      * cbn. by rewrite <- Hrun.
    + apply moved_silent; [done|by left|by cbn; rewrite Ho|done].
  - apply local_goto; try done; unfold pc_ops, pc_futs; by rewrite ?Hg.
Qed.

Lemma drop_ok n m sh i pc rest rfuts :
  local n m sh i pc rest rfuts ->
  let '(sh', pc') := drop_task sh i pc in poll_post n m sh i pc rest rfuts (sh', pc', []).
Proof.
  intros L. destruct (is_running pc) eqn:Hrun.
  - destruct pc as [| | | | | | | | | | | |now back| |]; try done. destruct L as [Hs Hf Hp Hl Hc Hr Hcnt].
    destruct (after_run_ok (sh_mem sh) back now (proj1 Hp)) as (A1 & A2 & A3 & A4).
    assert (L0 : local n m (sh_with_lock sh None) i (after_run back) rest rfuts).
    { split; cbn [sh_base sh_futures lock_holder current_task sh_with_lock]; try done.
      - by rewrite A1.
      - by rewrite A2.
      - by apply A4.
      - by rewrite A3. }
    assert (Hg : pc_guard (after_run back) = pc_guard (InRun now back)) by (by destruct back).
    destruct (drop_interrupts n m _ i _ rest rfuts L0 A3) as [L1 M1]. rewrite Hg in L1, M1.
    cbn [drop_task]. destruct (pc_guard (InRun now back)).
    all: split; [exact L1|]; apply moved_silent; [apply M1|by right; right; split; [apply Hl|]| |done].
    all: pose proof (mv_ops _ _ _ _ _ _ M1) as Hops; cbn in Hops; rewrite !app_nil_r, A1 in Hops; exact Hops.
  - pose proof (drop_interrupts n m sh i pc rest rfuts L Hrun) as HD. destruct pc; try done; cbn [drop_task].
    + destruct HD as [[Hs Hf Hp Hl Hc Hr Hcnt] M1]. split; [by split|]. destruct M1. by split.
    + by apply local_goto.
Qed.
End local.

(** ** All the tasks *)

Lemma bind_update {A B} (h : A -> list B) (l : list A) i x : l !! i = Some x ->
  exists rest, (l ≫= h) ≡ₚ h x ++ rest /\ forall y, (<[i := y]> l ≫= h) ≡ₚ h y ++ rest.
Proof.
  intros Hi. exists ((take i l ≫= h) ++ (drop (S i) l ≫= h)). assert (Hlt : (i < length l)%nat) by by eapply lookup_lt_Some.
  assert (Hgen : forall y, (<[i := y]> l ≫= h) ≡ₚ h y ++ ((take i l ≫= h) ++ (drop (S i) l ≫= h))).
  { intros y. rewrite insert_take_drop by done. rewrite bind_app. cbn [mbind list_bind]. solve_Permutation. }
  split; [|done]. rewrite <- (list_insert_id l i x Hi) at 1. apply Hgen.
Qed.

Section global.
Context {K V Ev : Type} `{Countable K} `{ReadyEvent Ev}.
Variable cfg : Config K V.
Context (Huser : user_ok cfg) (Hsafe : sketch_safe cfg).
Implicit Types (f : FSys K V Ev) (ls : list (Label K V)) (m : gmap K (V * Instant)).

(** The writes made and not yet sent. *)
Definition held f : list (WriteOp K V) := int_ops (shared f) ++ (tasks f ≫= fun t => pc_ops (tk_pc t)).
(** The notifications asked for and not yet completed. *)
Definition held_futs f : list nat := int_futs (shared f) ++ (tasks f ≫= fun t => pc_futs (tk_pc t)).

Record f_inv n m f : Prop := {
  fi_sys : sys_inv cfg n m (mkSys (sh_base (shared f)) (held f));
  fi_futs : owned (sh_futures (shared f)) (held_futs f);
  fi_pcs : forall i t, tasks f !! i = Some t -> pc_ok (sh_mem (shared f)) (tk_pc t);
  fi_locks : forall i t, tasks f !! i = Some t -> is_running (tk_pc t) = true <-> lock_holder (shared f) = Some i;
  fi_holder : forall i, lock_holder (shared f) = Some i -> is_Some (tasks f !! i);
  fi_current : is_Some (lock_holder (shared f)) -> is_Some (current_task (shared f));
  fi_repeats : forall t r k, current_task (shared f) = Some (t, r, k) -> 0 <= r;
  fi_counts : start_count (shared f) = complete_count (shared f) + pending_run (shared f)
}.

Lemma pc_ok_le (mm mm' : Mem K) (pc : TaskPc K V) : mem_le mm mm' -> pc_ok mm pc -> pc_ok mm' pc.
Proof.
  intros L. destruct pc; cbn; try done; try by apply read_wf_le. intros [Hn Hb]. split; [done|]. destruct back; try done. by eapply read_wf_le.
Qed.

(** The view of one task, and back. *)
Lemma focus n m f i t : f_inv n m f -> tasks f !! i = Some t ->
  exists rest rfuts, local cfg n m (shared f) i (tk_pc t) rest rfuts /\
    held f ≡ₚ pc_ops (tk_pc t) ++ int_ops (shared f) ++ rest /\
    forall n' m' sh' pc' ls, local cfg n' m' sh' i pc' rest rfuts -> moved (shared f) i (tk_pc t) sh' pc' ls ->
      f_inv n' m' (mkFSys sh' (<[i := mkTask (tk_call t) pc']> (tasks f))) /\
      held (mkFSys sh' (<[i := mkTask (tk_call t) pc']> (tasks f))) ≡ₚ pc_ops pc' ++ int_ops sh' ++ rest.
Proof.
  intros [Hs Hf Hp Hl Hh Hc Hr Hcnt] Hi.
  destruct (bind_update (fun t => pc_ops (tk_pc t)) _ _ _ Hi) as (rest & R1 & R2).
  destruct (bind_update (fun t => pc_futs (tk_pc t)) _ _ _ Hi) as (rfuts & F1 & F2). exists rest, rfuts.
  assert (Hheld : held f ≡ₚ pc_ops (tk_pc t) ++ int_ops (shared f) ++ rest) by (unfold held; rewrite R1; solve_Permutation).
  assert (Hheldf : held_futs f ≡ₚ pc_futs (tk_pc t) ++ int_futs (shared f) ++ rfuts) by (unfold held_futs; rewrite F1; solve_Permutation).
  split; [split; try done; [by eapply sys_inv_perm|by eapply owned_perm|by eapply Hp|by apply Hl]|]. split; [done|].
  intros n' m' sh' pc' ls [Hs' Hf' Hp' Hl' Hc' Hr' Hcnt'] M.
  assert (Hheld' : held (mkFSys sh' (<[i := mkTask (tk_call t) pc']> (tasks f))) ≡ₚ pc_ops pc' ++ int_ops sh' ++ rest).
  { unfold held. cbn [shared tasks]. rewrite R2. cbn [tk_pc]. solve_Permutation. }
  split; [|done]. split; cbn [shared tasks]; try done.
  - by eapply sys_inv_perm; [symmetry; exact Hheld'|].
  - eapply owned_perm; [|exact Hf']. unfold held_futs. cbn [shared tasks]. rewrite F2. cbn [tk_pc]. solve_Permutation.
  - intros j t' [[-> ->]|[Hne Hj]]%insert_cases; [done|]. eapply pc_ok_le; [apply M|by eapply Hp].
  - intros j t' [[-> ->]|[Hne Hj]]%insert_cases; [done|]. rewrite (Hl j t' Hj).
    destruct (mv_lock _ _ _ _ _ _ M) as [->|[[-> ->]|[-> ->]]]; [done|naive_solver..].
  - intros j Hj. apply lookup_lt_is_Some. rewrite length_insert. apply lookup_lt_is_Some.
    destruct (mv_lock _ _ _ _ _ _ M) as [E|[[_ E]|[_ E]]]; rewrite E in Hj; [by apply Hh|injection Hj as <-; eauto|done].
Qed.

(** *** The events *)

Lemma poll_step_ok n m f i inp :
  f_inv n m f -> n <= MAX_WRITES -> input_ok inp ->
  returns (poll_step cfg f i inp) (fun '(f', ls) => f_inv (foldl count_label n ls) (foldl spec_label m ls) f' /\
    held f ++ issued ls ≡ₚ held f' ++ sent ls /\
    created ls = seq (length (sh_futures (shared f))) (length (sh_futures (shared f')) - length (sh_futures (shared f))) /\
    (length (sh_futures (shared f)) <= length (sh_futures (shared f')))%nat /\
    forall l, begun (sh_futures (shared f)) l -> begun (sh_futures (shared f')) (l ++ notified_futs ls)).
Proof.
  intros I Hn Hin. unfold poll_step. destruct (tasks f !! i) as [t|] eqn:Hi.
  2: { apply returns_ok. split; [done|]. split; [done|]. rewrite Nat.sub_diag. do 2 (split; [done|]). intros l. by rewrite app_nil_r. }
  destruct (focus n m f i t I Hi) as (rest & rfuts & L & Hh & Hback).
  eapply returns_bind; [by apply (poll_ok cfg Huser Hsafe n m (shared f) i (tk_call t) (tk_pc t) inp rest rfuts)|].
  intros [[sh' pc'] ls] [L' M]. apply returns_ok. destruct (Hback _ _ _ _ _ L' M) as [I' Hh']. split; [done|].
  split; [|split; [apply M|split; apply M]]. rewrite Hh, Hh'. pose proof (mv_ops _ _ _ _ _ _ M) as Hops. revert Hops. generalize (pc_ops (tk_pc t)) (pc_ops pc').
  intros l1 l2 Hops. rewrite <- !app_assoc. rewrite (Permutation_app_comm rest), (Permutation_app_comm rest).
  rewrite (app_assoc (int_ops _)), (app_assoc l1), (app_assoc (int_ops sh')), (app_assoc l2). by apply Permutation_app.
Qed.

Lemma drop_step_ok n m f i : f_inv n m f ->
  f_inv n m (drop_step f i) /\ held f ≡ₚ held (drop_step f i) /\ sh_futures (shared (drop_step f i)) = sh_futures (shared f).
Proof.
  intros I. unfold drop_step. destruct (tasks f !! i) as [t|] eqn:Hi; [|done].
  destruct (focus n m f i t I Hi) as (rest & rfuts & L & Hh & Hback). pose proof (drop_ok cfg n m (shared f) i (tk_pc t) rest rfuts L) as HD.
  assert (Hfu : sh_futures (fst (drop_task (shared f) i (tk_pc t))) = sh_futures (shared f)).
  { unfold drop_task. by destruct (pc_guard (tk_pc t)), (tk_pc t). }
  destruct (drop_task (shared f) i (tk_pc t)) as [sh' pc']. destruct HD as [L' M]. destruct (Hback _ _ _ _ _ L' M) as [I' Hh'].
  split; [done|]. split; [|done]. rewrite Hh, Hh'. pose proof (mv_ops _ _ _ _ _ _ M) as Hops. cbn in Hops. rewrite !app_nil_r in Hops.
  by rewrite !app_assoc, Hops.
Qed.

Lemma spawn_ok n m f c : f_inv n m f -> f_inv n m (spawn f c) /\ held (spawn f c) = held f.
Proof.
  intros [Hs Hf Hp Hl Hh Hc Hr Hcnt].
  assert (Hheld : held (spawn f c) = held f) by (unfold held; cbn; by rewrite bind_app, app_nil_r).
  assert (Hheldf : held_futs (spawn f c) = held_futs f) by (unfold held_futs; cbn; by rewrite bind_app, app_nil_r).
  split; [|done]. split; cbn [spawn shared tasks]; try done.
  - by rewrite Hheld.
  - by rewrite Hheldf.
  - intros i t [Hi|[_ Hi]]%lookup_app_Some; [by eapply Hp|]. by apply list_lookup_singleton_Some in Hi as [_ <-].
  - intros i t [Hi|[Hle Hi]]%lookup_app_Some; [by apply Hl|]. apply list_lookup_singleton_Some in Hi as [Hz <-]. split; [done|].
    intros Hj. destruct (Hh i Hj) as [x Hx]. apply lookup_lt_Some in Hx. lia.
  - intros i Hj. destruct (Hh i Hj) as [x Hx]. exists x. by apply lookup_app_l_Some.
Qed.

(** A change of the inner cache by an operation that is not asynchronous. *)
Lemma inner_ok n m f s : f_inv n m f -> mem_le (sh_mem (shared f)) (mem s) ->
  sys_inv cfg n m (mkSys (with_inner (sh_base (shared f)) s) (held f)) ->
  f_inv n m (mkFSys (sh_with_inner (shared f) s) (tasks f)).
Proof.
  intros [Hs Hf Hp Hl Hh Hc Hr Hcnt] Hm Hs'. split; cbn [shared tasks]; try done.
  intros i t Hi. eapply pc_ok_le; [exact Hm|by eapply Hp].
Qed.

Lemma invalidate_all_step_ok n m f now : f_inv n m f -> instant_ok now ->
  returns (invalidate_all_step f now) (fun f' => f_inv n m f' /\ held f' = held f /\ sh_futures (shared f') = sh_futures (shared f)).
Proof.
  intros I Hnow. destruct (exec_invalidate_all cfg n m _ now (fi_sys _ _ _ I) Hnow) as (sys' & o & E & S').
  cbn [exec base in_flight] in E. unfold invalidate_all_step. change (inner (sh_base (shared f))) with (sh_inner (shared f)) in E.
  destruct (invalidate_all (sh_inner (shared f)) now) as [s|] eqn:Es; [|done]. cbn [mbind res_bind] in E. injection E as <- <-.
  apply returns_ok. split; [|done]. apply inner_ok; [done| |done]. unfold invalidate_all in Es. res_inv. done.
Qed.

(** A fresh name for the predicate is found in the tries the code makes. *)
Definition uuid_ok f (uuid : nat -> string) : Prop :=
  forall p, invalidator (sh_inner (shared f)) = Some p -> exists k, (k < MAX_RETRY)%nat /\ predicates p !! uuid k = None.

Lemma invalidate_if_step_ok n m f uuid p now : f_inv n m f -> uuid_ok f uuid ->
  returns (invalidate_if_step f uuid p now) (fun f' => f_inv n m f' /\ held f' = held f /\ sh_futures (shared f') = sh_futures (shared f)).
Proof.
  intros I Hid. destruct (exec_invalidate_if cfg n m _ uuid p now (fi_sys _ _ _ I) Hid) as (sys' & o & E & S').
  cbn [exec base in_flight] in E. unfold invalidate_if_step. change (inner (sh_base (shared f))) with (sh_inner (shared f)) in E.
  destruct (invalidate_entries_if uuid (sh_inner (shared f)) p now) as [[s r]|] eqn:Es; [|done]. cbn [mbind res_bind] in E. injection E as <- <-.
  apply returns_ok. split; [|done]. apply inner_ok; [done| |done]. unfold invalidate_entries_if in Es.
  destruct (invalidator (sh_inner (shared f))); [|by injection Es as <- <-]. destruct (register_predicate _ _ _ _) as [[? ?]|]; [|done].
  by injection Es as <- <-.
Qed.

(** *** Reachable states *)

Inductive freach (b0 : BaseCache K V) : Z -> gmap K (V * Instant) -> list (Label K V) -> FSys K V Ev -> Prop :=
| fr_start : freach b0 0 ∅ [] (fsys_start b0)
| fr_spawn n m ls f c : freach b0 n m ls f -> freach b0 n m ls (spawn f c)
| fr_poll n m ls f i inp f' ls' :
    freach b0 n m ls f -> input_ok inp -> poll_step cfg f i inp = Ok (f', ls') ->
    freach b0 (foldl count_label n ls') (foldl spec_label m ls') (ls ++ ls') f'
| fr_drop n m ls f i : freach b0 n m ls f -> freach b0 n m ls (drop_step f i)
| fr_invalidate_all n m ls f now f' :
    freach b0 n m ls f -> instant_ok now -> invalidate_all_step f now = Ok f' -> freach b0 n m ls f'
| fr_invalidate_if n m ls f uuid p now f' :
    freach b0 n m ls f -> uuid_ok f uuid -> invalidate_if_step f uuid p now = Ok f' -> freach b0 n m ls f'.

(** The books of an execution. *)
Record books (ls : list (Label K V)) f : Prop := {
  bk_ops : issued ls ≡ₚ sent ls ++ held f;
  bk_created : created ls = seq 0 (length (sh_futures (shared f)));
  bk_begun : begun (sh_futures (shared f)) (notified_futs ls)
}.

Lemma count_labels_ge n ls : n <= foldl count_label n ls.
Proof. revert n. induction ls as [|x ls IH]; intros n; [done|]. cbn. etransitivity; [|apply IH]. destruct x; cbn; lia. Qed.

Lemma fsys_start_ok b0 : sys_inv cfg 0 ∅ (mkSys b0 []) -> f_inv 0 ∅ (fsys_start b0) /\ books [] (fsys_start b0).
Proof.
  intros S. split.
  - split; cbn; try done; split; try apply NoDup_nil_2; intros i; (split; [by intros ?%elem_of_nil|by intros (? & ? & ?)]).
  - split; cbn; try done. split; [apply NoDup_nil_2|]. intros i. split; [by intros ?%elem_of_nil|by intros (? & ? & ?)].
Qed.

Lemma freach_inv b0 n m ls f : sys_inv cfg 0 ∅ (mkSys b0 []) -> freach b0 n m ls f -> n <= MAX_WRITES -> f_inv n m f /\ books ls f.
Proof.
  intros S HR. induction HR as [|n m ls f c HR IH|n m ls f i inp f' ls' HR IH Hin E|n m ls f i HR IH|n m ls f now f' HR IH Hnow E|n m ls f uuid p now f' HR IH Hid E];
    intros Hn.
  - by apply fsys_start_ok.
  - destruct (IH Hn) as [I [B1 B2 B3]]. destruct (spawn_ok n m f c I) as [I' Hh]. split; [done|]. split; [by rewrite Hh|done|done].
  - pose proof (count_labels_ge n ls'). destruct (IH ltac:(lia)) as [I [B1 B2 B3]].
    destruct (poll_step_ok n m f i inp I ltac:(lia) Hin) as ([f2 ls2] & E2 & I' & Ho & Hc & Hle & Hb). rewrite E in E2. injection E2 as <- <-.
    split; [done|]. split.
    + assert (Happ : issued (ls ++ ls') = issued ls ++ issued ls' /\ sent (ls ++ ls') = sent ls ++ sent ls') by (split; apply bind_app).
      destruct Happ as [-> ->]. rewrite B1, <- !app_assoc, Ho. solve_Permutation.
    + unfold created in *. rewrite bind_app, B2, Hc, <- seq_app. f_equal. lia.
    + unfold notified_futs in *. rewrite bind_app. by apply Hb.
  - destruct (IH Hn) as [I [B1 B2 B3]]. destruct (drop_step_ok n m f i I) as (I' & Hh & Hfu). split; [done|]. split; rewrite ?Hfu; [by rewrite <- Hh|done|done].
  - destruct (IH Hn) as [I [B1 B2 B3]]. destruct (invalidate_all_step_ok n m f now I Hnow) as (f2 & E2 & I' & Hh & Hfu).
    rewrite E in E2. injection E2 as <-. split; [done|]. split; rewrite ?Hfu; [by rewrite Hh|done|done].
  - destruct (IH Hn) as [I [B1 B2 B3]]. destruct (invalidate_if_step_ok n m f uuid p now I Hid) as (f2 & E2 & I' & Hh & Hfu).
    rewrite E in E2. injection E2 as <-. split; [done|]. split; rewrite ?Hfu; [by rewrite Hh|done|done].
Qed.
End global.
