(* ===== verification/FutureCache.v ===== *)
(** What the asynchronous cache guarantees to its users, whatever tasks are dropped:
    no poll faults and no lookup answers with a stale value, no write and no
    notification is lost or doubled, one maintenance run goes on at a time, and the
    operations that were interrupted are taken up by the next one.  One flaw: a
    writer can miss the event it waits for. *)
From Stdlib Require Import String.
From S2P Require Import Prelude Common FrequencySketch Deque Time Housekeeper EntryInfo Concurrent Deques.
From S2P Require Import TimerWheel Policy Invalidator Inner BaseCache InnerInv InnerRemove Admission Scan Maintenance.
From S2P Require Import Operations System Guarantees FutureOps FutureInv.

(** ** Interrupted operations are taken up again *)

Section retry.
Context {K V Ev : Type} `{Countable K} `{ReadyEvent Ev}.
Variable cfg : Config K V.
Context (Huser : user_ok cfg) (Hsafe : sketch_safe cfg) (Hcap : max_capacity cfg <> Some 0).
Implicit Types (sh : Shared K V Ev) (g : CancelGuard K V) (m : gmap K (V * Instant)) (inps : nat -> PollInput).

(** The clock is proper, and what the task awaits is ready when it is polled. *)
Definition prompt inps : Prop := forall k, input_ok (inps k) /\ pi_ready (inps k) = true.

Lemma prompt_later inps k : prompt inps -> prompt (fun j => inps (k + j)%nat).
Proof. intros Hp j. apply Hp. Qed.

Lemma solo_app k1 k2 sh i c pc inps sh1 pc1 ls1 sh2 pc2 ls2 :
  solo cfg k1 sh i c pc inps = Ok (sh1, pc1, ls1) ->
  solo cfg k2 sh1 i c pc1 (fun j => inps (k1 + j)%nat) = Ok (sh2, pc2, ls2) ->
  solo cfg (k1 + k2) sh i c pc inps = Ok (sh2, pc2, ls1 ++ ls2).
Proof.
  revert sh pc ls1 inps. induction k1 as [|k1 IH]; intros sh pc ls1 inps E1 E2; cbn in *; [by injection E1 as <- <- <-|].
  destruct (poll cfg sh i c pc (inps 0%nat)) as [[[sh' pc'] l]|]; [|done]. cbn [mbind res_bind] in *.
  destruct (solo cfg k1 sh' i c pc' (fun j => inps (S j))) as [[[sh'' pc''] l']|] eqn:E; [|done]. cbn [mbind res_bind] in *.
  injection E1 as -> -> <-. rewrite (IH _ _ _ (fun j => inps (S j)) E E2). cbn. by rewrite app_assoc.
Qed.

Lemma solo_one sh i c pc inps r : poll cfg sh i c pc (inps 0%nat) = Ok r -> solo cfg 1 sh i c pc inps = Ok r.
Proof. intros E. cbn. rewrite E. destruct r as [[? ?] ?]. cbn. by rewrite app_nil_r. Qed.

Definition has_room sh : Prop := Z.of_nat (length (write_op_ch (sh_inner sh))) < WRITE_LOG_FLUSH_POINT.

(** With the lock free, an attempt to send finds room: either there was, or the
    attempt runs the maintenance, which empties the log. *)
Lemma attempt_room n m sh i c a g spins rest rfuts inps :
  local cfg n m sh i (AtAttempt a g spins) rest rfuts -> n <= MAX_WRITES -> lock_holder sh = None -> prompt inps ->
  exists k sh', (k <= 2)%nat /\ solo cfg k sh i c (AtAttempt a g spins) inps = Ok (sh', AtTrySend a g spins, []) /\
    local cfg n m sh' i (AtTrySend a g spins) rest rfuts /\ has_room sh' /\ lock_holder sh' = None /\
    interrupted_op_ch sh' = interrupted_op_ch sh.
Proof.
  intros L Hn Hfree Hp. destruct (Hp 0%nat) as [Hin0 _]. destruct (Hp 1%nat) as [_ Hrdy1].
  destruct (si_hk (lo_sys _ _ _ _ _ _ _ _ L)) as (hk & Hhk & Hwf & Ha). cbn [base] in Hhk.
  set (len := Z.of_nat (length (write_op_ch (sh_inner sh)))).
  assert (Hdue : exists due, should_apply_writes hk len (cg_ts g) = Ok due /\ (due = false -> len < WRITE_LOG_FLUSH_POINT)).
  { unfold should_apply_writes. destruct (more_to_evict hk); [by exists true|]. rewrite (should_apply_ok _ _ _ _ Hwf), Ha.
    eexists. split; [reflexivity|]. cbn [andb]. intros [Hl _]%orb_false_iff. by apply Z.leb_gt in Hl. }
  destruct Hdue as (due & Hd & Hroom).
  assert (E0 : poll cfg sh i c (AtAttempt a g spins) (inps 0%nat) =
    Ok (if due then (begin_run sh i hk, InRun (pi_now (inps 0%nat)) (BackToSend a g spins), []) else (sh, AtTrySend a g spins, []))).
  { cbn [poll]. unfold try_begin_run. rewrite Hhk. fold len. rewrite Hd, Hfree. cbn. by destruct due. }
  pose proof (lo_pc _ _ _ _ _ _ _ _ L) as Hpc. destruct due.
  - assert (Hpost : poll_post cfg n m sh i (AtAttempt a g spins) rest rfuts (begin_run sh i hk, InRun (pi_now (inps 0%nat)) (BackToSend a g spins), [])).
    { by apply begin_run_ok. }
    destruct Hpost as [L1 _]. cbn [foldl] in L1.
    destruct (complete_run_spec cfg Hsafe n m _ i _ _ (inps 1%nat) c rest rfuts L1 Hn Hrdy1) as (sh2 & E2 & [L2 _] & HM & Hi & Hl & _).
    exists 2%nat, sh2. split; [done|]. split; [|].
    { eapply (solo_app 1 1 _ _ _ _ _ _ _ [] _ _ []); [by apply solo_one|]. apply solo_one. exact E2. }
    split; [exact L2|]. split; [|split; [done|]].
    + unfold has_room. by rewrite (proj2 (ma_drained _ _ _ HM Hcap)).
    + rewrite Hi. unfold begin_run. by destruct (current_task sh).
  - exists 1%nat, sh. split; [lia|]. split; [by apply solo_one|].
    assert (Hpost : poll_post cfg n m sh i (AtAttempt a g spins) rest rfuts (sh, AtTrySend a g spins, [])) by by apply local_goto.
    split; [apply Hpost|]. split; [by apply Hroom|]. done.
Qed.

Lemma room_capacity sh : has_room sh -> (Z.of_nat (length (write_op_ch (sh_inner sh))) <? channel_capacity cfg WRITE_LOG_CH_SIZE) = true.
Proof.
  intros Hr. apply Z.ltb_lt. unfold channel_capacity, is_map_disabled. rewrite bool_decide_eq_false_2 by done.
  unfold has_room, WRITE_LOG_CH_SIZE, WRITE_LOG_FLUSH_POINT, DEFAULT_MAX_LOG_SYNC_REPEATS in *. lia.
Qed.

(** An interrupted write is sent. *)
Lemma resend n m sh i c g op rest rfuts inps :
  local cfg n m sh i (AtAttempt ToRetry g 0) rest rfuts -> n <= MAX_WRITES -> lock_holder sh = None -> prompt inps -> cg_op g = Some op ->
  exists k sh', (k <= 3)%nat /\ solo cfg k sh i c (AtAttempt ToRetry g 0) inps = Ok (sh', AtRetry, [LSent op]) /\
    local cfg n m sh' i AtRetry rest rfuts /\ lock_holder sh' = None /\ interrupted_op_ch sh' = interrupted_op_ch sh.
Proof.
  intros L Hn Hfree Hp Hop. destruct (attempt_room n m sh i c ToRetry g 0 rest rfuts inps L Hn Hfree Hp) as (k & sh1 & Hk & E1 & L1 & Hroom & Hl1 & Hi1).
  destruct (try_send_ok cfg n m sh1 i ToRetry g 0 rest rfuts L1) as ([[sh2 pc2] ls2] & E2 & Hpost).
  pose proof E2 as E2'. unfold poll_try_send in E2'. rewrite Hop in E2'. cbn [mbind res_bind expect_some] in E2'. cbv zeta in E2'.
  rewrite (room_capacity _ Hroom) in E2'. injection E2' as <- <- <-. destruct Hpost as [L2 _]. cbn [foldl count_label spec_label] in L2.
  eexists (k + 1)%nat, _. split; [lia|]. split; [eapply (solo_app k 1 _ _ _ _ _ _ _ [] _ _ _ E1), solo_one; exact E2|].
  split; [exact L2|]. by split.
Qed.

(** One interrupted operation is completed: its notification, then its write. *)
Lemma retry_one n m sh i c o l rest rfuts inps :
  local cfg n m sh i AtRetry rest rfuts -> n <= MAX_WRITES -> lock_holder sh = None -> prompt inps -> interrupted_op_ch sh = o :: l ->
  exists k sh' ls, (k <= 5)%nat /\ solo cfg k sh i c AtRetry inps = Ok (sh', AtRetry, ls) /\ sent ls = [iop_op o] /\
    local cfg n m sh' i AtRetry rest rfuts /\ lock_holder sh' = None /\ interrupted_op_ch sh' = l.
Proof.
  intros L Hn Hfree Hp Ho.
  destruct (retry_ok cfg n m sh i c rest rfuts (inps 0%nat) L) as ([[sh1 pc1] ls1] & E1 & Hpost1). pose proof E1 as E1'. cbn [poll] in E1'. unfold poll_retry, silent in E1'. rewrite Ho in E1'.
  destruct o as [ts fid op|ts op]; injection E1' as <- <- <-; destruct Hpost1 as [L1 _]; cbn [foldl] in L1.
  - set (g := set_future_and_op (new_cancel_guard ts) fid op) in *. set (sh1 := sh_with_interrupted sh l) in *.
    assert (Hawait : exists sh2 ls2, poll cfg sh1 i c (AtRetryNotify g) (inps 1%nat) = Ok (sh2, AtAttempt ToRetry (unset_future g) 0, ls2) /\
      sent ls2 = [] /\ local cfg n m sh2 i (AtAttempt ToRetry (unset_future g) 0) rest rfuts /\ lock_holder sh2 = None /\ interrupted_op_ch sh2 = l).
    { destruct (poll_ok cfg Huser Hsafe n m sh1 i c (AtRetryNotify g) (inps 1%nat) rest rfuts L1 Hn (proj1 (Hp 1%nat))) as ([[sh2 pc2] ls2] & E2 & Hpost).
      pose proof E2 as E2'. cbn [poll cg_future set_future_and_op g expect_some mbind res_bind] in E2'.
      destruct (owner_not_completed sh1 g fid _ _ eq_refl (lo_futs _ _ _ _ _ _ _ _ L1)) as (f & Hf & _).
      destruct (poll_shared_ok sh1 fid f (pi_ready (inps 1%nat)) Hf) as (nt & f' & Es & _ & Hrd). rewrite Es in E2'.
      rewrite (bool_decide_eq_true_2 _ (Hrd (proj2 (Hp 1%nat)))) in E2'. cbn [mbind res_bind] in E2'. injection E2' as <- <- <-.
      destruct Hpost as [L2 _]. eexists _, _. split; [exact E2|]. split; [by destruct (bool_decide _)|]. split; [|done].
      clear -L2. destruct (bool_decide (nf_state f = NotPolled)); exact L2. }
    destruct Hawait as (sh2 & ls2 & E2 & S2 & L2 & Hl2 & Hi2).
    destruct (resend n m sh2 i c (unset_future g) op rest rfuts (fun j => inps (2 + j)%nat) L2 Hn Hl2 (prompt_later inps 2 Hp) eq_refl)
      as (k & sh3 & Hk & E3 & L3 & Hl3 & Hi3).
    exists (1 + (1 + k))%nat, sh3, ([] ++ ls2 ++ [LSent op]). split; [lia|]. split.
    { eapply solo_app; [by apply solo_one|]. eapply solo_app; [by apply solo_one|]. exact E3. }
    split; [unfold sent in *; cbn [app]; by rewrite bind_app, S2|]. split; [done|]. by rewrite Hi3.
  - set (sh1 := sh_with_interrupted sh l) in *.
    destruct (resend n m sh1 i c _ op rest rfuts (fun j => inps (1 + j)%nat) L1 Hn Hfree (prompt_later inps 1 Hp) eq_refl)
      as (k & sh3 & Hk & E3 & L3 & Hl3 & Hi3).
    exists (1 + k)%nat, sh3, ([] ++ [LSent op]). split; [lia|]. split; [eapply solo_app; [by apply solo_one|exact E3]|].
    split; [done|]. split; [done|]. by rewrite Hi3.
Qed.

Lemma retry_all i c rest rfuts : forall l n m sh inps,
  local cfg n m sh i AtRetry rest rfuts -> n <= MAX_WRITES -> lock_holder sh = None -> prompt inps -> interrupted_op_ch sh = l ->
  exists k sh' ls, (k <= 5 * length l + 1)%nat /\ solo cfg k sh i c AtRetry inps = Ok (sh', AtBody, ls) /\ sent ls = iop_op <$> l /\
    interrupted_op_ch sh' = [].
Proof.
  induction l as [|o l IH]; intros n m sh inps L Hn Hfree Hp Hl.
  - exists 1%nat, sh, []. split; [done|]. split; [|done]. apply solo_one. cbn [poll]. unfold poll_retry. by rewrite Hl.
  - destruct (retry_one n m sh i c o l rest rfuts inps L Hn Hfree Hp Hl) as (k1 & sh1 & ls1 & Hk1 & E1 & S1 & L1 & Hl1 & Hi1).
    destruct (IH n m sh1 (fun j => inps (k1 + j)%nat) L1 Hn Hl1 (prompt_later inps k1 Hp) Hi1) as (k2 & sh2 & ls2 & Hk2 & E2 & S2 & Hi2).
    exists (k1 + k2)%nat, sh2, (ls1 ++ ls2). split; [cbn [length]; lia|]. split; [by eapply solo_app|]. split; [|done].
    unfold sent in *. by rewrite bind_app, S1, S2.
Qed.
End retry.

(** ** The calls of the listener *)

Section calls.
Context {K V Ev : Type} `{Countable K} `{ReadyEvent Ev}.
Variable cfg : Config K V.
Implicit Types (s : Inner K V) (sh : Shared K V Ev) (f : FSys K V Ev).

(** The calls the listener has received, whether it still receives them, and the
    calls that a list of notifications stands for. *)
Definition listener_calls sh : list (K * V * RemovalCause) :=
  match removal_notifier (sh_inner sh) with Some n => nt_calls n | None => [] end.
Definition listener_on sh : bool := match removal_notifier (sh_inner sh) with Some n => nt_is_enabled n | None => false end.
Definition calls_for sh (fids : list nat) : list (K * V * RemovalCause) :=
  omap (fun fid => (fun x => (nf_key x, nf_value x, nf_cause x)) <$> sh_futures sh !! fid) fids.

(** The updates of the table leave the notifier alone. *)
Lemma insert_notifier s key hash v ts now s' op future :
  async_do_insert_with_hash cfg s key hash v ts now = Ok (s', op, future) -> removal_notifier s' = removal_notifier s.
Proof.
  unfold async_do_insert_with_hash, async_do_post_update_steps, do_post_insert_steps. destruct (cache s !! key) as [old|].
  - intros (? & _ & E)%bind_Ok. apply bind_Ok in E as (? & _ & E). apply bind_Ok in E as ([[m ve] gen] & _ & E).
    apply bind_Ok in E as ([s1 fut] & E1 & E). injection E as <- _ _. apply bind_Ok in E1 as (m1 & _ & E1). by injection E1 as <- _.
  - intros ([[m ve] gen] & _ & E)%bind_Ok. apply bind_Ok in E as (s1 & E1 & E). injection E as <- _ _.
    destruct (expiry (expiration_policy cfg)); [|by injection E1 as <-]. apply bind_Ok in E1 as (m1 & _ & E1). by injection E1 as <-.
Qed.
Lemma remove_notifier s key s' o : remove_entry s key = Ok (s', o) -> removal_notifier s' = removal_notifier s.
Proof.
  unfold remove_entry, cht_remove_if_and_retire. intros ([s1 o1] & E & E')%bind_Ok. injection E' as <- _.
  destruct (cache s !! key) as [ve|]; [|by injection E as <- _]. apply bind_Ok in E as (ei & _ & E).
  apply bind_Ok in E as (ei1 & _ & E). by injection E as <- _.
Qed.
Lemma invalidate_notifier s key now s' o :
  async_do_invalidate_with_hash cfg s key now = Ok (s', o) -> removal_notifier s' = removal_notifier s.
Proof.
  unfold async_do_invalidate_with_hash. intros ([s1 removed] & E & E')%bind_Ok. apply remove_notifier in E. rewrite <- E.
  destruct removed as [kv|]; [|by injection E' as <- _]. apply bind_Ok in E' as (ei & _ & E').
  destruct (incr_entry_gen ei) as [ei' gen]. apply bind_Ok in E' as (fut & _ & E'). by injection E' as <- _.
Qed.
Lemma touch_notifier s ve now s' now' b : touch_entry cfg s ve now = Ok (s', now', b) -> removal_notifier s' = removal_notifier s.
Proof.
  unfold touch_entry. intros (ei & _ & E)%bind_Ok. apply bind_Ok in E as ([[m t] x] & _ & E).
  apply bind_Ok in E as (m1 & _ & E). by injection E as <- _ _.
Qed.

(** A poll of a notification calls the listener when it is the first one, and the
    listener is still enabled; no later poll does. *)
Lemma poll_shared_calls sh fid ready sh' done ls :
  poll_shared sh fid ready = Ok (sh', done, ls) ->
  listener_calls sh' = listener_calls sh ++ if listener_on sh then calls_for sh (notified_futs ls) else [].
Proof.
  unfold poll_shared. intros (x & Ex & E)%bind_Ok. unfold expect_some in Ex.
  destruct (sh_futures sh !! fid) as [y|] eqn:Hf; [|done]. injection Ex as ->.
  unfold listener_calls, listener_on. destruct (removal_notifier (sh_inner sh)) as [nt|]; [|by injection E as <- _ _].
  destruct (poll_notify nt x ready) as [n1 f1] eqn:Ep. injection E as <- _ <-. cbn [removal_notifier sh_inner sh_with_futures sh_with_inner sh_with_base sh_base inner with_inner with_notifier].
  unfold poll_notify in Ep. destruct (nf_state x); [rewrite bool_decide_eq_true_2 by done|rewrite bool_decide_eq_false_2 by done..].
  - destruct (nt_is_enabled nt); cbn [negb] in Ep; [|injection Ep as <- _; by rewrite app_nil_r].
    assert (Hc : calls_for sh (notified_futs [@LNotified K V fid]) = [(nf_key x, nf_value x, nf_cause x)]) by (unfold calls_for; cbn [notified_futs mbind list_bind omap list_omap app]; by rewrite Hf).
    rewrite Hc. unfold nf_finish in Ep. repeat case_match; by injection Ep as <- _.
  - replace (if nt_is_enabled nt then _ else []) with (@nil (K * V * RemovalCause)) by (by destruct (nt_is_enabled nt)).
    rewrite app_nil_r. unfold nf_finish in Ep. repeat case_match; by injection Ep as <- _.
  - injection Ep as <- _. destruct (nt_is_enabled nt); by rewrite app_nil_r.
Qed.

(** A poll outside a maintenance run calls the listener for the notifications it
    polls for the first time, and for nothing else. *)
Lemma poll_calls sh i c pc inp sh' pc' ls :
  is_running pc = false -> poll cfg sh i c pc inp = Ok (sh', pc', ls) ->
  listener_calls sh' = listener_calls sh ++ if listener_on sh then calls_for sh (notified_futs ls) else [].
Proof.
  intros Hrun E.
  assert (Hsame : removal_notifier (sh_inner sh') = removal_notifier (sh_inner sh) -> notified_futs ls = [] ->
    listener_calls sh' = listener_calls sh ++ if listener_on sh then calls_for sh (notified_futs ls) else []).
  { intros Hn ->. unfold listener_calls. rewrite Hn. destruct (listener_on sh); by rewrite app_nil_r. }
  assert (Htry : forall due now back r, try_begin_run sh i due now back = Ok r -> removal_notifier (sh_inner (fst r)) = removal_notifier (sh_inner sh)).
  { intros due now back r. unfold try_begin_run. destruct (housekeeper _) as [hk|]; [|by intros [= <-]].
    intros (d & _ & Er)%bind_Ok. destruct (lock_holder sh); [by injection Er as <-|]. destruct d; injection Er as <-; [|done].
    unfold begin_run. by destruct (current_task sh) as [[[? ?] ?]|]. }
  destruct pc; cbn [poll] in E; try done; try (injection E as <- <- <-; by apply Hsame).
  - injection E as <- <- <-. apply Hsame; [|done]. unfold poll_retry. by destruct (interrupted_op_ch sh) as [|[? ? ?|? ?] ?].
  - apply bind_Ok in E as (fid & _ & E). apply bind_Ok in E as ([[sh1 rdy] ls1] & E1 & E). injection E as <- _ <-. by eapply poll_shared_calls.
  - destruct c as [key v|key nv|key ig nk rr|].
    + unfold poll_insert in E. apply bind_Ok in E as ([[s1 op] fut] & E1 & E). apply insert_notifier in E1.
      destruct fut; cbn in E; injection E as <- <- <-; by apply Hsame.
    + unfold poll_invalidate in E. apply bind_Ok in E as ([s1 removed] & E1 & E). apply invalidate_notifier in E1.
      destruct removed as [[[kv op] fut]|]; [|injection E as <- <- <-; by apply Hsame].
      destruct fut; cbn in E; injection E as <- <- <-; by apply Hsame.
    + apply bind_Ok in E as (r & E1 & E). injection E as <- <- <-. apply Hsame; [|done]. unfold poll_get in E1.
      apply bind_Ok in E1 as ([ve|] & _ & E1); [|by injection E1 as <-].
      apply bind_Ok in E1 as ([[s1 t] x] & E2 & E1). injection E1 as <-. by eapply touch_notifier.
    + injection E as <- <- <-. by apply Hsame.
  - apply bind_Ok in E as (fid & _ & E). apply bind_Ok in E as ([[sh1 rdy] ls1] & E1 & E). injection E as <- _ <-. by eapply poll_shared_calls.
  - apply bind_Ok in E as (r & E1 & E). injection E as <- <- <-. apply Hsame; [by eapply Htry|done].
  - unfold poll_try_send in E. apply bind_Ok in E as (op & _ & E). cbv zeta in E. destruct (_ <? _); injection E as <- <- <-; by apply Hsame.
  - destruct (ev_notified i _); injection E as <- <- <-; by apply Hsame.
  - apply bind_Ok in E as (r & E1 & E). injection E as <- <- <-. apply Hsame; [by eapply Htry|done].
  - injection E as <- <- <-. apply Hsame; [|done]. unfold poll_read_send. by destruct (_ <? _).
  - injection E as <- <- <-. apply Hsame; [|done]. unfold poll_run_lock. destruct (housekeeper _) as [hk|]; [|done].
    destruct (lock_holder sh); [done|]. unfold begin_run. by destruct (current_task sh) as [[[? ?] ?]|].
Qed.

Lemma drop_calls f i : listener_calls (shared (drop_step f i)) = listener_calls (shared f).
Proof.
  unfold drop_step. destruct (tasks f !! i) as [t|]; [|done]. unfold drop_task, listener_calls. by destruct (tk_pc t) as [| | | | | | | | | | | |? []| |].
Qed.
End calls.

(** ** Guarantees *)

Section guarantees.
Context {K V Ev : Type} `{Countable K} `{ReadyEvent Ev}.
Variable cfg : Config K V.
Context (Huser : user_ok cfg) (Hsafe : sketch_safe cfg).
Variables (listener : option (K -> V -> RemovalCause -> bool)) (config : HousekeeperConfig) (inv_on : bool)
  (t0 : Instant) (b0 : BaseCache K V).
Context (Ht0 : instant_ok t0) (Hrep : 0 <= cfg_max_log_sync_repeats config)
  (Hnew : new_base_cache listener config inv_on t0 = Ok b0).
Notation freached := (freach cfg b0).
Implicit Types (n : Z) (m : gmap K (V * Instant)) (f : FSys K V Ev) (ls : list (Label K V)).

Lemma freached_inv n m ls f : freached n m ls f -> n <= MAX_WRITES -> f_inv cfg n m f /\ books ls f.
Proof.
  intros HR Hn. eapply freach_inv; [exact Huser|exact Hsafe| |exact HR|exact Hn].
  destruct (start_inv cfg listener config inv_on t0 Ht0 Hrep) as (b & E & S). congruence.
Qed.


(** C14. Cancellation loses no write and records none twice: the writes made to the
    table are, one for one, those sent to the log and those still held by a task or
    by the channel of interrupted operations.  For every [sketch_safe] configuration
    (any, in a build without overflow checks). *)
Theorem no_write_lost n m ls f :
  freached n m ls f -> n <= MAX_WRITES ->
  issued ls ≡ₚ sent ls ++ (iop_op <$> interrupted_op_ch (shared f)) ++ (tasks f ≫= fun t => pc_ops (tk_pc t)) /\
  forall i, (iop_op <$> interrupted_op_ch (shared (drop_step f i))) ++ (tasks (drop_step f i) ≫= fun t => pc_ops (tk_pc t)) ≡ₚ
    (iop_op <$> interrupted_op_ch (shared f)) ++ (tasks f ≫= fun t => pc_ops (tk_pc t)).
Proof.
  intros HR Hn. destruct (freached_inv n m ls f HR Hn) as [I [B _ _]]. split; [exact B|].
  intros i. symmetry. apply (drop_step_ok cfg n m f i I).
Qed.

(** C15. Cancellation loses no notification and makes none twice: each notification
    is begun at most once, and a notification that has not completed is held by
    exactly one task or interrupted operation, which will go on with it.  The listener
    is called for the notifications that begin and for nothing else: a poll outside a
    maintenance run adds to the calls it has received one for each notification this
    poll begins (none if a panic has disabled the listener), and the drop of a task
    adds none.  For every [sketch_safe] configuration. *)
Theorem notified_once n m ls f :
  freached n m ls f -> n <= MAX_WRITES ->
  (created ls = seq 0 (length (sh_futures (shared f))) /\ NoDup (notified_futs ls) /\ NoDup (held_futs f) /\
   forall fid x, sh_futures (shared f) !! fid = Some x ->
     (fid ∈ notified_futs ls <-> nf_state x <> NotPolled) /\ (fid ∈ held_futs f <-> nf_state x <> Completed)) /\
  (forall i t inp f' ls', tasks f !! i = Some t -> is_running (tk_pc t) = false -> poll_step cfg f i inp = Ok (f', ls') ->
     listener_calls (shared f') = listener_calls (shared f) ++
       if listener_on (shared f) then calls_for (shared f) (notified_futs ls') else []) /\
  forall i, listener_calls (shared (drop_step f i)) = listener_calls (shared f).
Proof.
  intros HR Hn. destruct (freached_inv n m ls f HR Hn) as [I [_ B2 [B3 B4]]]. destruct (fi_futs _ _ _ _ I) as [F1 F2]. split; [|split].
  - do 3 (split; [done|]). intros fid x Hx. rewrite B4, F2. split; split.
    + by intros (y & Hy & Hs); simplify_eq.
    + intros Hs. by exists x.
    + by intros (y & Hy & Hs); simplify_eq.
    + intros Hs. by exists x.
  - intros i t inp f' ls' Hi Hrun E. unfold poll_step in E. rewrite Hi in E.
    apply bind_Ok in E as ([[sh' pc'] l] & E & E'). injection E' as <- <-. by eapply poll_calls.
  - apply drop_calls.
Qed.

(** One maintenance run goes on at a time: a task in a run holds the lock, runs
    are completed as often as they are started, except for one that is going on or
    suspended, and dropping the task that runs it frees the lock and suspends the
    run, which the next one to take the lock resumes instead of starting another. *)
Theorem single_run n m ls f :
  freached n m ls f -> n <= MAX_WRITES ->
  start_count (shared f) = complete_count (shared f) + (if current_task (shared f) then 1 else 0) /\
  (forall i j ti tj, tasks f !! i = Some ti -> tasks f !! j = Some tj -> is_running (tk_pc ti) = true -> is_running (tk_pc tj) = true -> i = j) /\
  forall i t hk j, tasks f !! i = Some t -> is_running (tk_pc t) = true ->
    let f' := drop_step f i in
    lock_holder (shared f') = None /\ is_Some (current_task (shared f')) /\ current_task (shared f') = current_task (shared f) /\
    current_task (begin_run (shared f') j hk) = current_task (shared f) /\ start_count (begin_run (shared f') j hk) = start_count (shared f).
Proof.
  intros HR Hn. destruct (freached_inv n m ls f HR Hn) as [I _]. split; [apply I|]. split.
  - intros i j ti tj Hi Hj Ri Rj. apply (fi_locks _ _ _ _ I _ _ Hi) in Ri. apply (fi_locks _ _ _ _ I _ _ Hj) in Rj. congruence.
  - intros i t hk j Hi Ri f'. pose proof (proj1 (fi_locks _ _ _ _ I _ _ Hi) Ri) as Hlock.
    destruct (fi_current _ _ _ _ I) as [task Hcur]; [by rewrite Hlock|].
    assert (Hsh : lock_holder (shared f') = None /\ current_task (shared f') = current_task (shared f) /\ start_count (shared f') = start_count (shared f)).
    { unfold f', drop_step. rewrite Hi. destruct (tk_pc t) as [| | | | | | | | | | | |now back| |]; try done. unfold drop_task. by destruct (pc_guard _). }
    destruct Hsh as (-> & S2 & S3). rewrite S2, Hcur. do 3 (split; [by eauto|]). unfold begin_run. rewrite S2, Hcur, S3. done.
Qed.

(** C17. The next operation takes up what was interrupted: a task that begins an
    operation, with the run lock free and nothing that stays pending, completes the
    interrupted notifications, sends the interrupted writes to the log in their
    order, and goes on with its own work within five polls for each.  For a capacity
    other than zero and a [sketch_safe] configuration (any, in a build without overflow
    checks). *)
Theorem retry_drains n m ls f i c inps :
  freached n m ls f -> n <= MAX_WRITES -> max_capacity cfg <> Some 0 -> lock_holder (shared f) = None -> prompt inps ->
  tasks f !! i = Some (mkTask c AtRetry) ->
  exists k sh' ls', (k <= 5 * length (interrupted_op_ch (shared f)) + 1)%nat /\
    solo cfg k (shared f) i c AtRetry inps = Ok (sh', AtBody, ls') /\
    sent ls' = iop_op <$> interrupted_op_ch (shared f) /\ interrupted_op_ch sh' = [].
Proof.
  intros HR Hn Hcap Hfree Hp Hi. destruct (freached_inv n m ls f HR Hn) as [I _].
  destruct (focus cfg n m f i _ I Hi) as (rest & rfuts & L & _ & _). by eapply retry_all.
Qed.

(** C37. A writer can miss the event it waits for.  After five failed attempts on a
    full log [schedule_write_op] listens for the event without looking at the log
    again: if the maintenance run that held the lock completes in between, it
    notifies nobody, and the writer sleeps with the log empty, the lock free and no
    run under way, until some other operation runs the maintenance. *)
Theorem writer_misses_event n m ls f w j cw cj a g now back inp `{!ReadyEventLaws Ev} :
  freached n m ls f -> n <= MAX_WRITES -> max_capacity cfg <> Some 0 -> input_ok inp -> pi_ready inp = true ->
  tasks f !! w = Some (mkTask cw (AtTrySend a g 4)) -> tasks f !! j = Some (mkTask cj (InRun now back)) ->
  Z.of_nat (length (write_op_ch (sh_inner (shared f)))) = WRITE_LOG_CH_SIZE ->
  exists f1 f2 f3, poll_step cfg f w inp = Ok (f1, []) /\ poll_step cfg f1 j inp = Ok (f2, []) /\ poll_step cfg f2 w inp = Ok (f3, []) /\
    write_op_ch (sh_inner (shared f3)) = [] /\ lock_holder (shared f3) = None /\ current_task (shared f3) = None /\
    tasks f3 !! w = Some (mkTask cw (Listening a g)) /\ forall inp', poll_step cfg f3 w inp' = Ok (f3, []).
Proof.
  intros HR Hn Hcap Hin Hrdy Hw Hj Hfull. destruct (freached_inv n m ls f HR Hn) as [I _].
  assert (Hne : w <> j) by (intros ->; congruence).
  assert (Hlw : (w < length (tasks f))%nat) by by eapply lookup_lt_Some.
  assert (Hlj : (j < length (tasks f))%nat) by by eapply lookup_lt_Some.
  set (f1 := mkFSys (shared f) (<[w := mkTask cw (AtListen a g)]> (tasks f))).
  assert (E1 : poll_step cfg f w inp = Ok (f1, [])).
  { unfold poll_step. rewrite Hw. cbn [poll tk_call tk_pc]. unfold poll_try_send.
    destruct (proj2 (fi_pcs _ _ _ _ I _ _ Hw)) as [op ->]. cbn [mbind res_bind expect_some]. cbv zeta.
    unfold channel_capacity, is_map_disabled. rewrite (bool_decide_eq_false_2 _ Hcap), Hfull, Z.ltb_irrefl. done. }
  destruct (poll_step_ok cfg Huser Hsafe n m f w inp I Hn Hin) as (x1 & Ex1 & I1). rewrite E1 in Ex1. injection Ex1 as <-. destruct I1 as [I1 _]. cbn [foldl] in I1.
  assert (Hj1 : tasks f1 !! j = Some (mkTask cj (InRun now back))) by (cbn; by rewrite list_lookup_insert_ne).
  destruct (focus cfg n m f1 j _ I1 Hj1) as (rest & rfuts & L & _ & _).
  destruct (complete_run_spec cfg Hsafe n m (shared f1) j now back inp cj rest rfuts L Hn Hrdy) as (sh2 & E2 & _ & HM & _ & Hl2 & Hc2).
  set (f2 := mkFSys sh2 (<[j := mkTask cj (after_run back)]> (tasks f1))).
  set (f3 := mkFSys (sh_with_event sh2 (ev_listen w (write_op_ch_ready_event sh2))) (<[w := mkTask cw (Listening a g)]> (tasks f2))).
  assert (Hw2 : tasks f2 !! w = Some (mkTask cw (AtListen a g))) by (cbn; rewrite list_lookup_insert_ne by done; by apply list_lookup_insert_eq).
  exists f1, f2, f3. split; [done|]. split; [unfold poll_step; rewrite Hj1; cbn [tk_call tk_pc]; by rewrite E2|].
  split; [unfold poll_step; by rewrite Hw2|]. split; [exact (proj2 (ma_drained _ _ _ HM Hcap))|]. do 2 (split; [done|]).
  assert (Hw3 : tasks f3 !! w = Some (mkTask cw (Listening a g))) by (apply list_lookup_insert_eq; by eapply lookup_lt_Some).
  split; [done|]. intros inp'. unfold poll_step. rewrite Hw3. cbn [poll tk_call tk_pc f3 shared write_op_ch_ready_event sh_with_event].
  rewrite (proj2 (listen_fresh w (write_op_ch_ready_event sh2))). cbn [mbind res_bind]. by rewrite list_insert_id.
Qed.
End guarantees.

(** ** The statements at work *)
Module Witnesses.
Import Guarantees.Sample.

(** An event as a map from its listeners to whether they are notified. *)
#[export] Instance map_event : ReadyEvent (gmap nat bool) := {
  ev_default := ∅;
  ev_listen i e := <[i := false]> e;
  ev_notify_all e := (fun _ => true) <$> e;
  ev_discard i e := delete i e;
  ev_listening i e := bool_decide (is_Some (e !! i));
  ev_notified i e := default false (e !! i)
}.
#[export] Instance map_event_laws : ReadyEventLaws (gmap nat bool).
Proof.
  split; cbn; intros.
  - done.
  - rewrite lookup_insert_eq. done.
  - by rewrite lookup_insert_ne.
  - apply bool_decide_eq_true_1 in H as [x Hx]. by rewrite lookup_fmap, Hx.
  - apply bool_decide_eq_false_1 in H. rewrite lookup_fmap. destruct (e !! i) eqn:E; [by destruct H; eauto|done].
  - by rewrite lookup_delete_eq.
  - by rewrite lookup_delete_ne.
Qed.

Notation sys := (FSys Z Z (gmap nat bool)).
Inductive act := Spawn (c : AsyncCall Z Z) | Poll (i : nat) (t : Instant) (ready : bool) | Drop (i : nat).
Definition input (t : Instant) (ready : bool) : PollInput := mkPollInput t t ready (fun _ => mkReadings t t t t) t.
Fixpoint play (f : sys) (l : list act) : res (sys * list (Label Z Z)) :=
  match l with
  | [] => Ok (f, [])
  | Spawn c :: l => play (spawn f c) l
  | Poll i t ready :: l =>
      '(f, ls) ← poll_step config f i (input t ready); '(f, ls') ← play f l; Ok (f, ls ++ ls')
  | Drop i :: l => play (drop_step f i) l
  end.
Definition act_ok (a : act) : bool := match a with Poll _ t _ => (0 <=? t) && (t <=? MAX_NANOS) | _ => true end.

Lemma play_reach b0 : forall l n m ls f f' ls', freach config b0 n m ls f -> forallb act_ok l = true -> play f l = Ok (f', ls') ->
  freach config b0 (foldl count_label n ls') (foldl spec_label m ls') (ls ++ ls') f'.
Proof.
  induction l as [|[c|i t ready|i] l IH]; cbn; intros n m ls f f' ls' HR Hok E.
  - injection E as <- <-. by rewrite app_nil_r.
  - eapply IH; [|done|exact E]. by constructor.
  - apply andb_prop in Hok as [Ht Hok]. destruct (poll_step config f i (input t ready)) as [[f1 l1]|] eqn:E1; [|done]. cbn in E.
    destruct (play f1 l) as [[f2 l2]|] eqn:E2; [|done]. cbn in E. injection E as <- <-. rewrite !foldl_app, app_assoc.
    eapply IH; [|done|exact E2]. eapply fr_poll; [exact HR| |exact E1]. by apply ok_at.
  - eapply IH; [|done|exact E]. by constructor.
Qed.

Definition played (b : BaseCache Z Z) (l : list act) : sys := match play (fsys_start b) l with Ok (f, _) => f | Fail _ => fsys_start b end.
Definition labels (b : BaseCache Z Z) (l : list act) : list (Label Z Z) := match play (fsys_start b) l with Ok (_, ls) => ls | Fail _ => [] end.
Lemma played_reach b l : forallb act_ok l = true -> (if play (fsys_start b) l then true else false) = true ->
  freach config b (foldl count_label 0 (labels b l)) (foldl spec_label ∅ (labels b l)) (labels b l) (played b l).
Proof.
  intros Hok. unfold played, labels. destruct (play (fsys_start b) l) as [[f ls]|] eqn:E; [|done]. intros _.
  exact (play_reach b l 0 ∅ [] (fsys_start b) f ls (fr_start _ _) Hok E).
Qed.

(** A value is inserted and replaced; the second task is dropped while the listener
    is being told of the first value, and a lookup begins. *)
Definition interrupted_story : list act :=
  [Spawn (AInsert 1 10); Poll 0 5 true; Poll 0 5 true; Poll 0 5 true; Poll 0 5 true; Poll 0 5 true;
   Spawn (AInsert 1 11); Poll 1 6 true; Poll 1 6 true; Poll 1 6 true; Poll 1 6 false; Drop 1;
   Spawn (AGet 1 None true true); Poll 2 7 true].
Definition stopped : sys := played start interrupted_story.
Definition stopped_labels : list (Label Z Z) := labels start interrupted_story.
Definition stopped_spec : gmap Z (Z * Instant) := foldl spec_label ∅ stopped_labels.
Lemma stopped_reach : freach config start 2 stopped_spec stopped_labels stopped.
Proof. apply (played_reach start interrupted_story); vm_compute; reflexivity. Qed.
Lemma async_few : 2 <= MAX_WRITES.
Proof. done. Qed.

(** The interrupted notification and write wait in the channel. *)
Example stopped_holds : length (interrupted_op_ch (shared stopped)) = 1%nat /\ held_futs stopped = [0%nat] /\ notified_futs stopped_labels = [0%nat].
Proof. vm_compute. done. Qed.

(** The lookup takes both up, and is about to read the table. *)
Definition resumed_story : list act := interrupted_story ++ repeat (Poll 2 8 true) 5.
Definition resumed : sys := played start resumed_story.
Lemma resumed_reach : freach config start 2 stopped_spec (labels start resumed_story) resumed.
Proof. apply (played_reach start resumed_story); vm_compute; reflexivity. Qed.
Example resumed_clean : interrupted_op_ch (shared resumed) = [] /\ held_futs resumed = [] /\ notified_futs (labels start resumed_story) = [0%nat] /\
  length (sent (labels start resumed_story)) = 2%nat.
Proof. vm_compute. done. Qed.

Definition hk_config : HousekeeperConfig := mkHousekeeperConfig (from_millis 100) 4 1.
Lemma async_rep_ok : 0 <= cfg_max_log_sync_repeats hk_config.
Proof. done. Qed.
Lemma async_t0_ok : instant_ok 0.
Proof. by apply ok_at. Qed.
Lemma input_at t ready : (0 <=? t) && (t <=? MAX_NANOS) = true -> input_ok (input t ready).
Proof. apply ok_at. Qed.


Lemma no_write_lost_witness : length (issued stopped_labels) = 2%nat /\
  issued stopped_labels ≡ₚ sent stopped_labels ++ (iop_op <$> interrupted_op_ch (shared stopped)) ++ (tasks stopped ≫= fun t => pc_ops (tk_pc t)).
Proof.
  split; [vm_compute; reflexivity|].
  exact (proj1 (no_write_lost config user safe quiet_listener hk_config true 0 start async_t0_ok async_rep_ok start_ok 2 stopped_spec _ stopped stopped_reach async_few)).
Defined.

(** The interrupted notification is polled again by the task that takes it up: the
    listener, called once before, is not called again. *)
Definition retrying_story : list act := interrupted_story ++ [Poll 2 8 true].
Definition retrying : sys := played start retrying_story.
Lemma retrying_reach : freach config start 2 stopped_spec (labels start retrying_story) retrying.
Proof. apply (played_reach start retrying_story); vm_compute; reflexivity. Qed.
Lemma notified_once_witness : NoDup (notified_futs (labels start retrying_story)) /\ 0%nat ∈ held_futs retrying /\
  exists f' ls', poll_step config retrying 2 (input 8 true) = Ok (f', ls') /\ held_futs f' = [] /\
    listener_calls (shared f') = [(1, 10, CauseReplaced)].
Proof.
  destruct (notified_once config user safe quiet_listener hk_config true 0 start async_t0_ok async_rep_ok start_ok 2 stopped_spec _ retrying retrying_reach async_few)
    as ((_ & Hn & _ & Hf) & Hc & _). split; [exact Hn|].
  split; [apply (proj2 (Hf 0%nat (mkNotifyFuture 1 10 CauseReplaced Suspended) ltac:(vm_compute; reflexivity))); discriminate|].
  destruct (poll_step config retrying 2 (input 8 true)) as [[f' ls']|e] eqn:E; [|vm_compute in E; discriminate E].
  exists f', ls'. split; [reflexivity|]. split.
  - transitivity (match poll_step config retrying 2 (input 8 true) with Ok (f', _) => held_futs f' | Fail _ => [] end); [by rewrite E|vm_compute; reflexivity].
  - rewrite (Hc 2%nat (nth 2 (tasks retrying) (mkTask ARunPendingTasks AtStart)) (input 8 true) f' ls' ltac:(vm_compute; reflexivity)
      ltac:(vm_compute; reflexivity) E).
    replace ls' with (match poll_step config retrying 2 (input 8 true) with Ok (_, l) => l | Fail _ => [] end) by (by rewrite E).
    vm_compute. reflexivity.
Defined.

(** A task in the middle of a run, and a full log behind it. *)
Definition runner : list act := Spawn ARunPendingTasks :: repeat (Poll 0 1 false) 5.
Definition in_run : sys := played plain runner.
Lemma in_run_reach : freach config plain 0 ∅ (labels plain runner) in_run.
Proof. apply (played_reach plain runner); vm_compute; reflexivity. Qed.
Lemma single_run_witness : lock_holder (shared (drop_step in_run 0)) = None /\ start_count (begin_run (shared (drop_step in_run 0)) 1 (mkHousekeeper 5 None None 4 1 true)) = 1.
Proof.
  destruct (single_run config user safe None hk_config false 0 plain async_t0_ok async_rep_ok plain_ok 0 ∅ _ in_run in_run_reach) as (Hc & _ & Hd); [done|].
  destruct (Hd 0%nat (mkTask ARunPendingTasks (InRun 1 BackToCaller)) (mkHousekeeper 5 None None 4 1 true) 1%nat) as (H1 & _ & _ & _ & H2); [vm_compute; reflexivity|done|].
  split; [exact H1|]. rewrite H2. vm_compute. reflexivity.
Defined.

Lemma retry_drains_witness : exists k sh' ls', (k <= 6)%nat /\
  solo config k (shared stopped) 2 (AGet 1 None true true) AtRetry (fun _ => input 8 true) = Ok (sh', AtBody, ls') /\ interrupted_op_ch sh' = [].
Proof.
  destruct (retry_drains config user safe quiet_listener hk_config true 0 start async_t0_ok async_rep_ok start_ok 2 stopped_spec _ stopped 2 (AGet 1 None true true) (fun _ => input 8 true)
    stopped_reach async_few) as (k & sh' & ls' & Hk & E & _ & Hi); [done|vm_compute; reflexivity|intros k; split; [by apply input_at|done]|vm_compute; reflexivity|].
  exists k, sh', ls'. exact (conj Hk (conj E Hi)).
Defined.

(** The log is filled by 384 insertions while the first task is in its run; one more
    writer makes its five attempts. *)
Definition filling : list act :=
  concat (map (fun i => Spawn (AInsert 1 (Z.of_nat i)) :: repeat (Poll (S i) 2 true) 5) (seq 0 384)).
Definition full_story : list act := runner ++ filling ++ Spawn (AInsert 2 20) :: repeat (Poll 385 2 true) 12.
Definition full : sys := played plain full_story.
Lemma full_reach : freach config plain 385 (foldl spec_label ∅ (labels plain full_story)) (labels plain full_story) full.
Proof. apply (played_reach plain full_story); vm_compute; reflexivity. Qed.
Definition full_guard : CancelGuard Z Z :=
  match tasks full !! 385%nat with Some (mkTask _ (AtTrySend _ g _)) => g | _ => new_cancel_guard 0 end.
Lemma writer_misses_event_witness : exists f1 f2 f3, poll_step config full 385 (input 3 true) = Ok (f1, []) /\
  poll_step config f1 0 (input 3 true) = Ok (f2, []) /\ poll_step config f2 385 (input 3 true) = Ok (f3, []) /\
  write_op_ch (sh_inner (shared f3)) = [] /\ forall inp', poll_step config f3 385 inp' = Ok (f3, []).
Proof.
  destruct (writer_misses_event config user safe None hk_config false 0 plain async_t0_ok async_rep_ok plain_ok 385 _ _ full 385 0 (AInsert 2 20) ARunPendingTasks
    (ToCaller None) full_guard 1 BackToCaller (input 3 true) full_reach) as (f1 & f2 & f3 & E1 & E2 & E3 & Hw & _ & _ & _ & Hs);
    [done|done|by apply input_at|done|vm_compute; reflexivity..|].
  exists f1, f2, f3. exact (conj E1 (conj E2 (conj E3 (conj Hw Hs)))).
Defined.
End Witnesses.
