(* ===== verification/FutureAlone.v ===== *)
(** An asynchronous operation that is polled alone and never dropped does what the
    synchronous one does: the two sources, one with awaits and a retry loop and one
    without, compute the same cache. *)
From Stdlib Require Import String.
From S2P Require Import Prelude Common FrequencySketch Deque Time Housekeeper EntryInfo Concurrent Deques.
From S2P Require Import TimerWheel Policy Invalidator Inner BaseCache InnerInv InnerRemove Admission Scan Maintenance.
From S2P Require Import Operations System Guarantees FutureOps FutureInv FutureCache.

Section alone.
Context {K V Ev : Type} `{Countable K} `{ReadyEvent Ev}.
Variable cfg : Config K V.
Context (Huser : user_ok cfg) (Hsafe : sketch_safe cfg) (Hcap : max_capacity cfg <> Some 0).
Variable inp : PollInput.
Context (Hin : input_ok inp) (Hready : pi_ready inp = true).
Implicit Types (sh : Shared K V Ev) (g : CancelGuard K V) (m : gmap K (V * Instant)) (b : BaseCache K V).

(** Every poll sees the same clock, and what it awaits is ready. *)
Notation always := (fun _ : nat => inp).
(** What the synchronous operation sees. *)
Definition sync_env : HkEnv := mkHkEnv false (pi_now inp) (pi_readings inp) (pi_started inp).

Lemma always_prompt : prompt always.
Proof. by intros k. Qed.

(** No run is going on or suspended, and nothing was interrupted. *)
Record idle_shared sh : Prop := {
  is_unlocked : lock_holder sh = None;
  is_no_run : current_task sh = None;
  is_no_interrupted : interrupted_op_ch sh = []
}.

(** The operation goes from [pc] to [pc'], and takes [sh] to [sh']. *)
Definition goes (i : nat) c sh pc sh' pc' : Prop := exists k ls, solo cfg k sh i c pc always = Ok (sh', pc', ls).

Lemma goes_trans i c sh pc sh1 pc1 sh2 pc2 : goes i c sh pc sh1 pc1 -> goes i c sh1 pc1 sh2 pc2 -> goes i c sh pc sh2 pc2.
Proof. intros (k1 & l1 & E1) (k2 & l2 & E2). exists (k1 + k2)%nat, (l1 ++ l2). by eapply solo_app. Qed.
Lemma goes_one i c sh pc sh' pc' ls : poll cfg sh i c pc inp = Ok (sh', pc', ls) -> goes i c sh pc sh' pc'.
Proof. intros E. exists 1%nat, ls. by apply (solo_one cfg _ _ _ _ always). Qed.

(** A maintenance run of the asynchronous housekeeper and one of the synchronous. *)
Lemma run_alone n m sh i c hk pc back rest rfuts :
  local cfg n m sh i pc rest rfuts -> n <= MAX_WRITES -> idle_shared sh -> housekeeper (sh_base sh) = Some hk -> hk_wf hk ->
  pc_ops (InRun (pi_now inp) back) = pc_ops pc -> pc_futs (InRun (pi_now inp) back) = pc_futs pc -> pc_ok (sh_mem sh) (InRun (pi_now inp) back) ->
  exists sh', goes i c (begin_run sh i hk) (InRun (pi_now inp) back) sh' (after_run back) /\ idle_shared sh' /\
    local cfg n m sh' i (after_run back) rest rfuts /\
    hk_do_run_pending_tasks (H := inner_sync cfg) hk (pi_now inp) (pi_readings inp, pi_started inp) (sh_inner sh) =
      Ok (default hk (housekeeper (sh_base sh')), sh_inner sh') /\ is_Some (housekeeper (sh_base sh')) /\ maintained cfg (sh_inner sh) (sh_inner sh') /\
    sh_futures sh' = sh_futures sh.
Proof.
  intros L Hn [Hfree Hnone Hint] Hhk Hwf Ho Hf Hok.
  assert (L1 : local cfg n m (begin_run sh i hk) i (InRun (pi_now inp) back) rest rfuts).
  { by destruct (begin_run_ok cfg n m sh i hk pc (pi_now inp) back rest rfuts L Hwf Hfree Ho Hf Hok) as [L1 _]. }
  destruct (complete_run_spec cfg Hsafe n m _ i _ _ inp c rest rfuts L1 Hn Hready) as (sh2 & E2 & [L2 M2] & HM & Hi & Hl & Hc).
  cbn [foldl] in L2. exists sh2. split; [by eapply goes_one|]. unfold begin_run in *. rewrite Hnone in *.
  cbn [sh_inner sh_base interrupted_op_ch] in *. split; [by split; [| |rewrite Hi]|]. split; [done|].
  cbn [poll] in E2. rewrite Hready in E2. cbn [sh_base] in E2. rewrite Hhk in E2. cbn [expect_some mbind res_bind] in E2.
  unfold complete_run in E2. cbn [current_task expect_some mbind res_bind] in E2. unfold sh_inner in *. cbn [sh_base] in *.
  unfold hk_do_run_pending_tasks. destruct (set_instant (run_after hk) (sync_after (pi_now inp))) as [after|]; cbn [mbind res_bind] in *.
  2: { by destruct (inner_run_pending_tasks _ _ _ _ _) as [[? ?]|]. }
  cbn [maintenance_task_timeout max_log_sync_repeats eviction_batch_size set_run_after].
  destruct (inner_run_pending_tasks _ _ _ _ _) as [[s more]|]; [|done]. cbn [mbind res_bind] in *. injection E2 as <-. cbn. split; [done|]. by split; [eauto|].
Qed.

(** An attempt to send, against [apply_reads_writes_if_needed]. *)
Lemma attempt_alone n m sh i c a g spins rest rfuts :
  local cfg n m sh i (AtAttempt a g spins) rest rfuts -> n <= MAX_WRITES -> idle_shared sh ->
  exists sh', goes i c sh (AtAttempt a g spins) sh' (AtTrySend a g spins) /\ idle_shared sh' /\
    local cfg n m sh' i (AtTrySend a g spins) rest rfuts /\ has_room sh' /\
    apply_reads_writes_if_needed cfg (sh_base sh) (cg_ts g) sync_env = Ok (sh_base sh').
Proof.
  intros L Hn Hidle. destruct (si_hk (lo_sys _ _ _ _ _ _ _ _ L)) as (hk & Hhk & Hwf & Ha). cbn [base] in Hhk.
  set (len := Z.of_nat (length (write_op_ch (sh_inner sh)))).
  assert (Hdue : exists due, should_apply_writes hk len (cg_ts g) = Ok due /\ (due = false -> len < WRITE_LOG_FLUSH_POINT)).
  { unfold should_apply_writes. destruct (more_to_evict hk); [by exists true|]. rewrite (should_apply_ok _ _ _ _ Hwf), Ha.
    eexists. split; [reflexivity|]. cbn [andb]. intros [Hl _]%orb_false_iff. by apply Z.leb_gt in Hl. }
  destruct Hdue as (due & Hd & Hroom).
  assert (E0 : poll cfg sh i c (AtAttempt a g spins) inp =
    Ok (if due then (begin_run sh i hk, InRun (pi_now inp) (BackToSend a g spins), []) else (sh, AtTrySend a g spins, []))).
  { cbn [poll]. unfold try_begin_run. rewrite Hhk. fold len. rewrite Hd, (is_unlocked _ Hidle). cbn. by destruct due. }
  pose proof (lo_pc _ _ _ _ _ _ _ _ L) as Hpc. unfold apply_reads_writes_if_needed. rewrite Hhk.
  change (Z.of_nat (length (write_op_ch (inner (sh_base sh))))) with len. rewrite Hd. cbn [mbind res_bind]. destruct due.
  - destruct (run_alone n m sh i c hk _ (BackToSend a g spins) rest rfuts L Hn Hidle Hhk Hwf eq_refl eq_refl (conj Hin Hpc))
      as (sh' & Hgo & Hidle' & L' & E & [hk' Hhk'] & HM & _).
    exists sh'. split; [eapply goes_trans; [by eapply goes_one|exact Hgo]|]. split; [done|]. split; [exact L'|]. split.
    { unfold has_room. by rewrite (proj2 (ma_drained _ _ _ HM Hcap)). }
    unfold try_run_pending_tasks. cbn [sync_env hk_locked hk_now hk_readings hk_started].
    change (inner (sh_base sh)) with (sh_inner sh). rewrite E, Hhk'. cbn. rewrite <- Hhk'. unfold sh_inner. by destruct (sh_base sh').
  - exists sh. split; [by eapply goes_one|]. split; [done|]. split; [|by split; [apply Hroom|]].
    apply (local_goto cfg n m sh i (AtAttempt a g spins) (AtTrySend a g spins) rest rfuts); done.
Qed.

(** The scheduling of a write, against [schedule_write_op]. *)
Lemma schedule_alone n m sh i c v g op rest rfuts :
  local cfg n m sh i (AtAttempt (ToCaller v) g 0) rest rfuts -> n <= MAX_WRITES -> idle_shared sh -> cg_op g = Some op ->
  exists sh', goes i c sh (AtAttempt (ToCaller v) g 0) sh' (TaskDone v None) /\ idle_shared sh' /\
    schedule_write_op cfg (sh_base sh) op (cg_ts g) [sync_env] = Ok (sh_base sh').
Proof.
  intros L Hn Hidle Hop. destruct (attempt_alone n m sh i c _ g 0 rest rfuts L Hn Hidle) as (sh1 & Hgo & Hidle1 & L1 & Hroom & E1).
  eexists. split; [eapply goes_trans; [exact Hgo|]|]; [eapply goes_one; cbn [poll]; unfold poll_try_send; rewrite Hop; cbn [expect_some mbind res_bind]; cbv zeta;
    rewrite (room_capacity cfg Hcap _ Hroom); reflexivity|]. split; [by destruct Hidle1|].
  cbn [schedule_write_op]. rewrite E1. cbn [mbind res_bind]. change (inner (sh_base sh1)) with (sh_inner sh1).
  by rewrite (room_capacity cfg Hcap _ Hroom).
Qed.

(** The await of a notification, against the call of the listener. *)
Lemma await_alone n m sh i c ts op future ret rest rfuts s1 sh2 pc2 ls2 :
  await_notification (sh_with_inner sh s1) ts op future ret = (sh2, pc2, ls2) -> local cfg n m sh2 i pc2 rest rfuts -> n <= MAX_WRITES ->
  idle_shared sh -> (forall f, future = Some f -> nf_state f = NotPolled) ->
  exists n' m' sh3 g, goes i c sh2 pc2 sh3 (AtAttempt (ToCaller ret) g 0) /\ local cfg n' m' sh3 i (AtAttempt (ToCaller ret) g 0) rest rfuts /\ n' <= MAX_WRITES /\
    idle_shared sh3 /\ cg_op g = Some op /\ cg_ts g = ts /\ sh_base sh3 = with_inner (sh_base sh) (from_option (notify_now s1) s1 future).
Proof.
  intros E L Hn Hidle Hnew. destruct future as [f|]; cbn [await_notification share] in E; injection E as <- <- <-.
  2: { exists n, m. eexists _, _. split; [exists 0%nat, []; reflexivity|]. split; [exact L|]. split; [done|]. split; [by destruct Hidle|done]. }
  set (fid := length (sh_futures (sh_with_inner sh s1))) in *. set (g := set_future_and_op (new_cancel_guard ts) fid op) in *.
  set (sh2 := sh_with_futures _ _) in *. specialize (Hnew f eq_refl).
  assert (Hf : sh_futures sh2 !! fid = Some f) by (by apply list_lookup_middle).
  destruct (poll_ok cfg Huser Hsafe n m sh2 i c (AtNotify g ret) inp rest rfuts L Hn Hin) as ([[sh3 pc3] ls3] & E3 & [L3 _]).
  assert (Hn3 : foldl count_label n ls3 = n).
  { cbn [poll cg_future g set_future_and_op expect_some mbind res_bind] in E3. unfold poll_shared in E3. rewrite Hf in E3. cbn [expect_some mbind res_bind] in E3.
    destruct (match removal_notifier _ with Some _ => _ | None => _ end) as [nt f']. cbn [mbind res_bind] in E3. injection E3 as _ _ <-. by rewrite Hnew. }
  pose proof E3 as E3'. cbn [poll cg_future g set_future_and_op expect_some mbind res_bind] in E3'. unfold poll_shared in E3'. rewrite Hf in E3'.
  cbn [expect_some mbind res_bind] in E3'. change (sh_inner sh2) with s1 in E3'. cbv zeta in E3'.
  assert (Hbase : exists nt f', match removal_notifier s1 with Some n0 => let '(n1, f'0) := poll_notify n0 f (pi_ready inp) in (Some n1, f'0) | None => (None, nf_with f Completed) end = (nt, f') /\
    nf_state f' = Completed /\ with_notifier s1 nt = notify_now s1 f).
  { unfold notify_now. destruct (removal_notifier s1) as [n0|] eqn:Hrn.
    - rewrite Hready. destruct (poll_notify n0 f true) as [n1 f1] eqn:Ep. exists (Some n1), f1. split; [done|]. split; [|done].
      unfold poll_notify in Ep. rewrite Hnew in Ep. by destruct (negb (nt_is_enabled n0)); injection Ep as <- <-.
    - exists None, (nf_with f Completed). split; [done|]. split; [done|]. destruct s1. cbn in Hrn. by subst. }
  destruct Hbase as (nt & f' & Em & Hc & Hs). rewrite Em in E3'. cbn [mbind res_bind] in E3'. rewrite (bool_decide_eq_true_2 _ Hc) in E3'.
  injection E3' as <- <- _. eexists _, _, _, _. split; [by eapply goes_one|]. split; [exact L3|]. split; [by rewrite Hn3|].
  split; [by destruct Hidle|]. split; [done|]. split; [done|]. cbn. by rewrite Hs.
Qed.

Lemma not_disabled : is_map_disabled cfg = false.
Proof. by apply bool_decide_eq_false_2. Qed.

(** The retry finds nothing to do. *)
Lemma retry_alone i c sh : idle_shared sh -> goes i c sh AtRetry sh AtBody.
Proof. intros [_ _ Hi]. eapply goes_one. cbn [poll]. unfold poll_retry. by rewrite Hi. Qed.

Lemma insert_alone n m sh i key v rest rfuts :
  local cfg n m sh i AtStart rest rfuts -> n + 1 <= MAX_WRITES -> idle_shared sh ->
  exists sh', goes i (AInsert key v) sh AtStart sh' (TaskDone None None) /\ idle_shared sh' /\
    insert_with_hash cfg (sh_base sh) key (hasher cfg key) v (pi_now inp) (pi_notify_now inp) [sync_env] = Ok (sh_base sh').
Proof.
  intros L Hn Hidle. assert (Lb : local cfg n m sh i AtBody rest rfuts).
  { by destruct (local_goto cfg n m sh i AtStart AtBody rest rfuts L eq_refl eq_refl I eq_refl) as [Lb _]. }
  destruct (insert_sys cfg Huser n m _ key v (pi_now inp) (pi_notify_now inp) (lo_sys _ _ _ _ _ _ _ _ Lb) Hin) as (s' & op & Es & _ & _).
  cbn [base in_flight] in Es. pose proof Es as Ea. rewrite insert_sync in Ea. change (inner (sh_base sh)) with (sh_inner sh) in Ea.
  destruct (async_do_insert_with_hash cfg (sh_inner sh) key (hasher cfg key) v (pi_now inp) (pi_notify_now inp)) as [[[s1 op1] fut]|] eqn:E1; [|done].
  cbn [mbind res_bind] in Ea. injection Ea as Ea ->.
  destruct (insert_ok cfg Huser n m sh i key v inp rest rfuts Lb Hin) as ([[sh2 pc2] ls2] & E2 & [L2 _]).
  pose proof E2 as E2'. unfold poll_insert in E2'. rewrite E1 in E2'. cbn [mbind res_bind] in E2'.
  destruct (await_notification (sh_with_inner sh s1) (pi_now inp) op fut None) as [[sh2' pc2'] ls2'] eqn:Ew. injection E2' as -> -> <-.
  assert (Hn2 : foldl count_label n (LInserted key v (pi_now inp) op :: ls2') = n + 1).
  { unfold await_notification, share in Ew. by destruct fut; injection Ew as _ _ <-. }
  rewrite Hn2 in L2.
  destruct (await_alone _ _ sh i (AInsert key v) _ op fut None rest rfuts s1 sh2 pc2 ls2' Ew L2 Hn Hidle) as (n' & m' & sh3 & g & Hgo & L3 & Hn3 & Hidle3 & Hop & Hts & Hb).
  { intros f. by apply (new_future_insert cfg _ _ _ _ _ _ _ _ _ f E1). }
  destruct (schedule_alone n' m' sh3 i (AInsert key v) None g op rest rfuts L3 Hn3 Hidle3 Hop) as (sh4 & Hgo4 & Hidle4 & E4).
  exists sh4. split; [|split; [done|]].
  - eapply goes_trans; [eapply goes_one; cbn [poll]; unfold poll_start; rewrite not_disabled; reflexivity|].
    eapply goes_trans; [by apply retry_alone|]. eapply goes_trans; [by eapply goes_one|]. by eapply goes_trans.
  - unfold insert_with_hash. rewrite not_disabled, Es. cbn [mbind res_bind]. rewrite <- Hts, <- E4, Hb, Ea. done.
Qed.

Lemma invalidate_alone n m sh i key need_value rest rfuts :
  local cfg n m sh i AtStart rest rfuts -> n <= MAX_WRITES -> idle_shared sh ->
  exists sh' v, goes i (AInvalidate key need_value) sh AtStart sh' (TaskDone v None) /\ idle_shared sh' /\
    invalidate_with_hash cfg (sh_base sh) key need_value (pi_now inp) (pi_notify_now inp) [sync_env] = Ok (sh_base sh', v).
Proof.
  intros L Hn Hidle. assert (Lb : local cfg n m sh i AtBody rest rfuts).
  { by destruct (local_goto cfg n m sh i AtStart AtBody rest rfuts L eq_refl eq_refl I eq_refl) as [Lb _]. }
  destruct (invalidate_sys cfg n m _ key (pi_notify_now inp) (lo_sys _ _ _ _ _ _ _ _ Lb)) as (s' & o & Es & _ & _).
  cbn [base in_flight] in Es. pose proof Es as Ea. rewrite invalidate_sync in Ea. change (inner (sh_base sh)) with (sh_inner sh) in Ea.
  assert (Hstart : goes i (AInvalidate key need_value) sh AtStart sh AtBody).
  { eapply goes_trans; [by eapply goes_one|by apply retry_alone]. }
  destruct (invalidate_ok cfg n m sh i key need_value inp rest rfuts Lb) as ([[sh2 pc2] ls2] & E2 & [L2 _]).
  pose proof E2 as E2'. unfold poll_invalidate in E2'. unfold invalidate_with_hash. rewrite Es. cbn [mbind res_bind].
  destruct (async_do_invalidate_with_hash cfg (sh_inner sh) key (pi_notify_now inp)) as [[s1 [[[kv op] fut]|]]|] eqn:E1; [| |done];
    cbn [mbind res_bind] in Ea, E2'; injection Ea as Ea <-.
  - set (ret := if need_value then Some (value (kv_entry kv)) else None) in *.
    destruct (await_notification (sh_with_inner sh s1) (pi_now inp) op fut ret) as [[sh2' pc2'] ls2'] eqn:Ew. injection E2' as -> -> <-.
    assert (Hn2 : foldl count_label n (LInvalidated key (Some op) :: ls2') = n).
    { unfold await_notification, share in Ew. by destruct fut; injection Ew as _ _ <-. }
    rewrite Hn2 in L2.
    destruct (await_alone _ _ sh i (AInvalidate key need_value) _ op fut ret rest rfuts s1 sh2 pc2 ls2' Ew L2 Hn Hidle) as (n' & m' & sh3 & g & Hgo & L3 & Hn3 & Hidle3 & Hop & Hts & Hb).
    { intros f. by apply (new_future_invalidate cfg _ _ _ _ _ _ _ f E1). }
    destruct (schedule_alone n' m' sh3 i (AInvalidate key need_value) ret g op rest rfuts L3 Hn3 Hidle3 Hop) as (sh4 & Hgo4 & Hidle4 & E4).
    exists sh4, ret. split; [|split; [done|]].
    + eapply goes_trans; [exact Hstart|]. eapply goes_trans; [by eapply goes_one|]. by eapply goes_trans.
    + rewrite <- Ea, <- Hb, <- Hts, E4. done.
  - injection E2' as <- <- <-. eexists _, None. split; [eapply goes_trans; [exact Hstart|by eapply goes_one]|]. split; [by destruct Hidle|]. by subst.
Qed.

(** The recording of a read, against [record_read_op]. *)
Lemma record_alone n m sh i c op now ent rest rfuts :
  local cfg n m sh i (AtRecordRead op now ent) rest rfuts -> n <= MAX_WRITES -> idle_shared sh ->
  exists sh', goes i c sh (AtRecordRead op now ent) sh' (TaskDone None ent) /\ idle_shared sh' /\
    record_read_op cfg (sh_base sh) op now sync_env = Ok (sh_base sh').
Proof.
  intros L Hn Hidle. destruct (si_hk (lo_sys _ _ _ _ _ _ _ _ L)) as (hk & Hhk & Hwf & Ha). cbn [base] in Hhk.
  set (len := Z.of_nat (length (read_op_ch (sh_inner sh)))). destruct (should_reads_ok hk len now Hwf) as [due Hd].
  assert (E0 : poll cfg sh i c (AtRecordRead op now ent) inp =
    Ok (if due then (begin_run sh i hk, InRun (pi_now inp) (BackToRead op ent), []) else (sh, AtReadSend op ent, []))).
  { cbn [poll]. unfold try_begin_run. rewrite Hhk. fold len. rewrite Hd, (is_unlocked _ Hidle). cbn. by destruct due. }
  pose proof (lo_pc _ _ _ _ _ _ _ _ L) as Hpc.
  assert (Hrun : exists sh1, goes i c sh (AtRecordRead op now ent) sh1 (AtReadSend op ent) /\ idle_shared sh1 /\
    apply_reads_if_needed cfg (sh_base sh) now sync_env = Ok (sh_base sh1)).
  { unfold apply_reads_if_needed. rewrite Hhk. change (Z.of_nat (length (read_op_ch (inner (sh_base sh))))) with len. rewrite Hd. cbn [mbind res_bind]. destruct due.
    - destruct (run_alone n m sh i c hk _ (BackToRead op ent) rest rfuts L Hn Hidle Hhk Hwf eq_refl eq_refl (conj Hin Hpc))
        as (sh1 & Hgo & Hidle1 & _ & E & [hk' Hhk'] & _ & _).
      exists sh1. split; [eapply goes_trans; [by eapply goes_one|exact Hgo]|]. split; [done|].
      unfold try_run_pending_tasks. cbn [sync_env hk_locked hk_now hk_readings hk_started].
      change (inner (sh_base sh)) with (sh_inner sh). rewrite E, Hhk'. cbn. rewrite <- Hhk'. unfold sh_inner. by destruct (sh_base sh1).
    - exists sh. split; [by eapply goes_one|]. done. }
  destruct Hrun as (sh1 & Hgo & Hidle1 & E1). eexists. split; [eapply goes_trans; [exact Hgo|by eapply goes_one]|]. split.
  { unfold poll_read_send. destruct Hidle1. by destruct (_ <? _). }
  unfold record_read_op. rewrite E1. cbn [mbind res_bind]. unfold poll_read_send. cbv zeta. change (inner (sh_base sh1)) with (sh_inner sh1).
  by destruct (_ <? _).
Qed.

Lemma get_alone n m sh i key ignore_if need_key record_read rest rfuts :
  local cfg n m sh i AtStart rest rfuts -> n <= MAX_WRITES -> idle_shared sh ->
  exists sh' ent, goes i (AGet key ignore_if need_key record_read) sh AtStart sh' (TaskDone None ent) /\ idle_shared sh' /\
    do_get_with_hash cfg (sh_base sh) key (hasher cfg key) (if record_read then Some sync_env else None) ignore_if need_key (pi_now inp) =
      Ok (sh_base sh', ent).
Proof.
  intros L Hn Hidle. assert (Lb : local cfg n m sh i AtBody rest rfuts).
  { by destruct (local_goto cfg n m sh i AtStart AtBody rest rfuts L eq_refl eq_refl I eq_refl) as [Lb _]. }
  set (c := AGet key ignore_if need_key record_read).
  assert (Hstart : goes i c sh AtStart sh AtBody).
  { destruct record_read.
    - eapply goes_trans; [eapply goes_one; cbn [poll]; unfold poll_start; rewrite not_disabled; reflexivity|by apply retry_alone].
    - eapply goes_one. cbn [poll]. unfold poll_start. by rewrite not_disabled. }
  destruct (get_ok cfg Huser n m sh i key ignore_if need_key record_read inp rest rfuts Lb Hin) as ([sh1 pc1] & E1 & [L1 _] & _).
  cbn [silent fst snd foldl] in L1.
  assert (Hbody : goes i c sh AtBody sh1 pc1) by (eapply goes_one; cbn [poll c]; rewrite E1; reflexivity).
  unfold do_get_with_hash. rewrite not_disabled. unfold poll_get in E1. change (inner (sh_base sh)) with (sh_inner sh).
  destruct (find_valid cfg (sh_inner sh) key ignore_if (pi_now inp)) as [[ve|]|]; [| |done]; cbn [mbind res_bind] in *.
  - destruct (touch_entry cfg (sh_inner sh) ve (pi_now inp)) as [[[s now] modified]|]; [|done]. cbn [mbind res_bind] in *. injection E1 as <- <-.
    set (ent := mkEntry _ _ _ _) in *. destruct record_read.
    + destruct (record_alone n m _ i c _ now (Some ent) rest rfuts L1 Hn) as (sh2 & Hgo2 & Hidle2 & E2); [by destruct Hidle|].
      exists sh2, (Some ent). split; [eapply goes_trans; [exact Hstart|by eapply goes_trans]|]. split; [done|].
      cbn [sh_with_inner sh_with_base sh_base] in E2. rewrite E2. done.
    + eexists _, (Some ent). split; [by eapply goes_trans|]. split; [by destruct Hidle|]. done.
  - injection E1 as <- <-. destruct record_read.
    + destruct (record_alone n m sh i c _ (pi_now inp) None rest rfuts L1 Hn Hidle) as (sh2 & Hgo2 & Hidle2 & E2).
      exists sh2, None. split; [eapply goes_trans; [exact Hstart|by eapply goes_trans]|]. split; [done|]. by rewrite E2.
    + exists sh, None. split; [by eapply goes_trans|]. by split.
Qed.

Lemma run_tasks_alone n m sh i rest rfuts :
  local cfg n m sh i AtStart rest rfuts -> n <= MAX_WRITES -> idle_shared sh ->
  exists sh', goes i ARunPendingTasks sh AtStart sh' (TaskDone None None) /\ idle_shared sh' /\
    run_pending_tasks cfg (sh_base sh) sync_env = Ok (sh_base sh').
Proof.
  intros L Hn Hidle. destruct (si_hk (lo_sys _ _ _ _ _ _ _ _ L)) as (hk & Hhk & Hwf & Ha). cbn [base] in Hhk.
  destruct (run_alone n m sh i ARunPendingTasks hk AtStart BackToCaller rest rfuts L Hn Hidle Hhk Hwf eq_refl eq_refl (conj Hin Logic.I))
    as (sh1 & Hgo & Hidle1 & _ & E & [hk' Hhk'] & _ & _).
  exists sh1. split; [|split; [done|]].
  - eapply goes_trans; [eapply goes_one; cbn [poll]; unfold poll_start; rewrite Hhk; reflexivity|].
    eapply goes_trans; [by apply retry_alone|]. eapply goes_trans; [by eapply goes_one|].
    eapply goes_trans; [eapply goes_one; cbn [poll]; unfold poll_run_lock; rewrite Hhk, (is_unlocked _ Hidle); reflexivity|]. exact Hgo.
  - unfold run_pending_tasks. rewrite Hhk. unfold hk_run_pending_tasks. cbn [sync_env hk_now hk_readings hk_started].
    change (inner (sh_base sh)) with (sh_inner sh). rewrite E, Hhk'. cbn. rewrite <- Hhk'. unfold sh_inner. by destruct (sh_base sh1).
Qed.
End alone.

(** The synchronous operation of a call. *)
Definition sync_call {K V} `{Countable K} (cfg : Config K V) (inp : PollInput) (b : BaseCache K V) (c : AsyncCall K V)
    : res (BaseCache K V * option V * option (Entry K V)) :=
  match c with
  | AInsert key v =>
      b ← insert_with_hash cfg b key (hasher cfg key) v (pi_now inp) (pi_notify_now inp) [sync_env inp]; Ok (b, None, None)
  | AInvalidate key need_value =>
      '(b, v) ← invalidate_with_hash cfg b key need_value (pi_now inp) (pi_notify_now inp) [sync_env inp]; Ok (b, v, None)
  | AGet key ignore_if need_key record_read =>
      '(b, ent) ← do_get_with_hash cfg b key (hasher cfg key) (if record_read then Some (sync_env inp) else None) ignore_if need_key (pi_now inp);
      Ok (b, None, ent)
  | ARunPendingTasks => b ← run_pending_tasks cfg b (sync_env inp); Ok (b, None, None)
  end.

(** Every call, against its synchronous operation. *)
Lemma call_alone {K V Ev : Type} `{Countable K} `{ReadyEvent Ev} (cfg : Config K V) (inp : PollInput) n m (sh : Shared K V Ev) i c rest rfuts :
  user_ok cfg -> sketch_safe cfg -> max_capacity cfg <> Some 0 -> input_ok inp -> pi_ready inp = true ->
  local cfg n m sh i AtStart rest rfuts -> n + 1 <= MAX_WRITES -> idle_shared sh ->
  exists sh' v ent, goes cfg inp i c sh AtStart sh' (TaskDone v ent) /\ idle_shared sh' /\ sync_call cfg inp (sh_base sh) c = Ok (sh_base sh', v, ent).
Proof.
  intros Huser Hsafe Hcap Hin Hrdy L Hn Hidle. destruct c as [key v|key need_value|key ig nk rr|]; cbn [sync_call].
  - destruct (insert_alone cfg Huser Hsafe Hcap inp Hin Hrdy n m sh i key v rest rfuts L Hn Hidle) as (sh' & G & I' & ->). by exists sh', None, None.
  - destruct (invalidate_alone cfg Huser Hsafe Hcap inp Hin Hrdy n m sh i key need_value rest rfuts L ltac:(lia) Hidle) as (sh' & v & G & I' & ->).
    by exists sh', v, None.
  - destruct (get_alone cfg Huser Hsafe Hcap inp Hin Hrdy n m sh i key ig nk rr rest rfuts L ltac:(lia) Hidle) as (sh' & ent & G & I' & ->).
    by exists sh', None, ent.
  - destruct (run_tasks_alone cfg Hsafe inp Hin Hrdy n m sh i rest rfuts L ltac:(lia) Hidle) as (sh' & G & I' & ->). by exists sh', None, None.
Qed.

Section guarantees.
Context {K V Ev : Type} `{Countable K} `{ReadyEvent Ev}.
Variable cfg : Config K V.
Context (Huser : user_ok cfg) (Hsafe : sketch_safe cfg).
Variables (listener : option (K -> V -> RemovalCause -> bool)) (config : HousekeeperConfig) (inv_on : bool)
  (t0 : Instant) (b0 : BaseCache K V).
Context (Ht0 : instant_ok t0) (Hrep : 0 <= cfg_max_log_sync_repeats config)
  (Hnew : new_base_cache listener config inv_on t0 = Ok b0).

(** C16. The asynchronous operations do what the synchronous ones do: in any
    reachable state in which no run is going on or suspended and no interrupted
    operation waits to be taken up ([idle_shared]), an operation that is polled alone,
    with nothing it awaits pending, ends, with the cache and the result of the
    synchronous operation.  For a capacity other than zero and a [sketch_safe]
    configuration (any, in a build without overflow checks). *)
Theorem async_alone_is_sync n m ls (f : FSys K V Ev) i c inp :
  freach cfg b0 n m ls f -> n + 1 <= MAX_WRITES -> max_capacity cfg <> Some 0 -> input_ok inp -> pi_ready inp = true ->
  tasks f !! i = Some (mkTask c AtStart) -> idle_shared (shared f) ->
  exists k sh' v ent ls', solo cfg k (shared f) i c AtStart (fun _ => inp) = Ok (sh', TaskDone v ent, ls') /\
    sync_call cfg inp (sh_base (shared f)) c = Ok (sh_base sh', v, ent).
Proof.
  intros HR Hn Hcap Hin Hrdy Hi Hidle.
  destruct (freached_inv cfg Huser Hsafe listener config inv_on t0 b0 Ht0 Hrep Hnew n m ls f HR ltac:(lia)) as [I _].
  destruct (focus cfg n m f i _ I Hi) as (rest & rfuts & L & _ & _). cbn [tk_pc] in L.
  destruct (call_alone cfg inp n m (shared f) i c rest rfuts Huser Hsafe Hcap Hin Hrdy L Hn Hidle) as (sh' & v & ent & (k & ls' & E) & _ & Es).
  by exists k, sh', v, ent, ls'.
Qed.
End guarantees.

Module Witnesses.
Import Guarantees.Sample FutureCache.Witnesses.

(** A value is inserted, and a second insertion under the same key begins. *)
Definition before : list act := [Spawn (AInsert 1 10)] ++ repeat (Poll 0 5 true) 5 ++ [Spawn (AInsert 1 11)].
Lemma before_reach : freach config start 1 (foldl spec_label ∅ (labels start before)) (labels start before) (played start before).
Proof. apply (played_reach start before); vm_compute; reflexivity. Qed.
Lemma async_alone_is_sync_witness : exists k sh' ls', solo config k (shared (played start before)) 1 (AInsert 1 11) AtStart (fun _ => input 6 true) = Ok (sh', TaskDone None None, ls') /\
  insert_with_hash config (sh_base (shared (played start before))) 1 1 11 6 6 [sync_env (input 6 true)] = Ok (sh_base sh').
Proof.
  destruct (async_alone_is_sync config user safe quiet_listener hk_config true 0 start async_t0_ok async_rep_ok start_ok 1 _ _ (played start before) 1 (AInsert 1 11) (input 6 true) before_reach)
    as (k & sh' & v & ent & ls' & E & Es); [done|done|by apply input_at|done|vm_compute; reflexivity|by split; vm_compute|].
  cbn [sync_call] in Es. apply bind_Ok in Es as (b & Eb & [= -> <- <-]). exists k, sh', ls'. exact (conj E Eb).
Defined.
End Witnesses.
