(* ===== verification/FutureApi.v ===== *)
(** The public calls of the asynchronous cache (src/future/cache.rs,
    src/future/entry_selector.rs, with [try_init_or_read], [try_compute] and
    [try_compute_if_nobody_else] of src/future/value_initializer.rs): what each call
    awaits, in which order, and where it holds a waiter.

    A call is a resumption.  It awaits an operation of [FutureOps], with what the
    operation returns; or the future of the user, given by its result as in
    [CacheApi]; or it accesses the waiter map.  The waiter it has inserted is held by
    a guard, which removes it when the call has a result, and also when the call is
    dropped.  How calls wait for each other's waiters is the matter of
    ValueInitializer: a call that finds a waiter is blocked here. *)
From S2P Require Import Prelude Common FrequencySketch Deque Time Housekeeper EntryInfo Concurrent Deques.
From S2P Require Import TimerWheel Policy Invalidator Inner BaseCache FutureOps ValueInitializer CacheApi EntrySelector.

(** The clock readings of a call: at its lookup, at the lookup under its waiter, at
    its write. *)
Inductive role := Lookup | Relookup | Write.

Inductive api (K V R : Type) :=
| PReturn (u : unwind R)
| PFault (e : fault)
| PBlocked
| PAwait (r : role) (c : AsyncCall K V) (k : option V -> option (Entry K V) -> api K V R)
| PUserFuture (k : api K V R)
| PWaiter (w_key : K * Z) (inserted existing : api K V R)
| PRelease (w_key : K * Z) (k : api K V R).
Arguments PReturn {K V R} _.
Arguments PFault {K V R} _.
Arguments PBlocked {K V R}.
Arguments PAwait {K V R} _ _ _.
Arguments PUserFuture {K V R} _.
Arguments PWaiter {K V R} _ _ _.
Arguments PRelease {K V R} _ _.

#[export] Instance api_ret K V : MRet (api K V) := fun R r => PReturn (Returned r).
(** A panic unwinds through the rest of the call. *)
#[export] Instance api_bind K V : MBind (api K V) := fun R S f =>
  fix bind p := match p with
  | PReturn (Returned r) => f r
  | PReturn Unwound => PReturn Unwound
  | PFault e => PFault e
  | PBlocked => PBlocked
  | PAwait r c k => PAwait r c (fun v ent => bind (k v ent))
  | PUserFuture k => PUserFuture (bind k)
  | PWaiter w inserted existing => PWaiter w (bind inserted) (bind existing)
  | PRelease w k => PRelease w (bind k)
  end.

Section calls.
Context {K V : Type} `{Countable K}.
Notation call := (api K V).

(** ** The operations of the base cache *)

Definition await_get (r : role) (key : K) (ignore_if : option (V -> bool)) (need_key record_read : bool) : call (option (Entry K V)) :=
  PAwait r (AGet key ignore_if need_key record_read) (fun _ ent => PReturn (Returned ent)).
Definition await_insert (key : K) (v : V) : call unit := PAwait Write (AInsert key v) (fun _ _ => PReturn (Returned tt)).
Definition await_invalidate (key : K) (need_value : bool) : call (option V) :=
  PAwait Write (AInvalidate key need_value) (fun v _ => PReturn (Returned v)).

(** ** The value initializer *)

Definition async_try_init_or_read {O E} (c_key : K) (type_id : Z) (ignore_if : option (V -> bool)) (init : option O)
    (post_init : O -> V + E) : call (InitResult V E) :=
  let w_key := (c_key, type_id) in
  PWaiter w_key
    (existing ← await_get Relookup c_key ignore_if false false;
     match existing with
     | Some ent => PRelease w_key (mret (ReadExisting (en_value ent)))
     | None =>
         PUserFuture
           match init with
           | Some value =>
               match post_init value with
               | inl value => _ ← await_insert c_key value; PRelease w_key (mret (Initialized value))
               | inr e => PRelease w_key (mret (InitErr e))
               end
           | None => PRelease w_key (PReturn Unwound)
           end
     end)
    PBlocked.

(** The part of [try_compute] and [try_compute_if_nobody_else] under the waiter. *)
Definition async_compute {O E} (c_key : K) (w_key : K * Z) (f : option (Entry K V) -> option O) (post_init : O -> Op V + E)
    (allow_nop : bool) : call (CompResult K V + E) :=
  maybe_entry ← await_get Lookup c_key None true true;
  let maybe_value := if allow_nop then option_map en_value maybe_entry else None in
  let entry_existed := bool_decide (is_Some maybe_entry) in
  PUserFuture
    match f maybe_entry with
    | None => PRelease w_key (PReturn Unwound)
    | Some output =>
        match post_init output with
        | inl Nop =>
            PRelease w_key (mret (inl match maybe_value with
                                      | Some value => Unchanged (mkEntry (Some c_key) value false false)
                                      | None => StillNone c_key
                                      end))
        | inl (Put value) =>
            _ ← await_insert c_key value;
            PRelease w_key (mret (inl (if entry_existed then ReplacedWith (mkEntry (Some c_key) value true true)
                                       else CompInserted (mkEntry (Some c_key) value true false))))
        | inl RemoveOp =>
            maybe_prev_v ← await_invalidate c_key true;
            PRelease w_key (mret (inl match maybe_prev_v with
                                      | Some prev_v => CompRemoved (mkEntry (Some c_key) prev_v false false)
                                      | None => StillNone c_key
                                      end))
        | inr e => PRelease w_key (mret (inr e))
        end
    end.
Definition async_try_compute {O E} (c_key : K) (f : option (Entry K V) -> option O) (post_init : O -> Op V + E) (allow_nop : bool)
    : call (CompResult K V + E) :=
  let w_key := (c_key, TYPE_COMPUTE_NONE) in
  PWaiter w_key (async_compute c_key w_key f post_init allow_nop) PBlocked.
(** A call that finds another one computing does not wait: it returns what is there. *)
Definition async_try_compute_if_nobody_else {O E} (c_key : K) (f : option (Entry K V) -> option O) (post_init : O -> Op V + E)
    (allow_nop : bool) : call (CompResult K V + E) :=
  let w_key := (c_key, TYPE_COMPUTE_NONE) in
  PWaiter w_key (async_compute c_key w_key f post_init allow_nop)
    (maybe_entry ← await_get Lookup c_key None true true;
     mret (inl match option_map en_value maybe_entry with
               | Some value => Unchanged (mkEntry (Some c_key) value false false)
               | None => StillNone c_key
               end)).

(** ** Initialising calls *)

Definition async_insert_with_hash_and_fun (key : K) (init : option V) (replace_if : option (V -> bool)) (need_key : bool) : call (Entry K V) :=
  r ← async_try_init_or_read (E := unit) key TYPE_UNIT replace_if init post_init_for_get_with;
  match r with
  | Initialized v => mret (mkEntry (key_if need_key key) v true false)
  | ReadExisting v => mret (mkEntry (key_if need_key key) v false false)
  | InitErr _ => PFault Unreachable
  end.
Definition async_get_or_insert_with_hash_and_fun (key : K) (init : option V) (replace_if : option (V -> bool)) (need_key : bool)
    : call (Entry K V) :=
  maybe_entry ← await_get Lookup key replace_if need_key true;
  match maybe_entry with
  | Some entry => mret entry
  | None => async_insert_with_hash_and_fun key init replace_if need_key
  end.
Definition async_get_or_insert_with_hash_by_ref_and_fun (key : K) (init : option V) (replace_if : option (V -> bool)) (need_key : bool)
    : call (Entry K V) :=
  maybe_entry ← await_get Lookup key replace_if need_key true;
  match maybe_entry with
  | Some entry => mret entry
  | None => async_insert_with_hash_and_fun key init replace_if need_key
  end.

Definition async_get_or_insert_with_hash (key : K) (init : option V) : call (Entry K V) :=
  maybe_entry ← await_get Lookup key None true true;
  match maybe_entry with
  | Some entry => mret entry
  | None =>
      match init with
      | Some value => _ ← await_insert key value; mret (mkEntry (Some key) value true false)
      | None => PReturn Unwound
      end
  end.
Definition async_get_or_insert_with_hash_by_ref (key : K) (init : option V) : call (Entry K V) :=
  maybe_entry ← await_get Lookup key None true true;
  match maybe_entry with
  | Some entry => mret entry
  | None =>
      match init with
      | Some value => _ ← await_insert key value; mret (mkEntry (Some key) value true false)
      | None => PReturn Unwound
      end
  end.

Definition async_optionally_insert_with_hash_and_fun (key : K) (init : option (option V)) (need_key : bool) : call (option (Entry K V)) :=
  r ← async_try_init_or_read key TYPE_OPTIONALLY_NONE None init (post_init_for_optionally_get_with tt);
  match r with
  | Initialized v => mret (Some (mkEntry (key_if need_key key) v true false))
  | ReadExisting v => mret (Some (mkEntry (key_if need_key key) v false false))
  | InitErr _ => mret None
  end.
Definition async_get_or_optionally_insert_with_hash_and_fun (key : K) (init : option (option V)) (need_key : bool)
    : call (option (Entry K V)) :=
  ent ← await_get Lookup key None need_key true;
  if bool_decide (is_Some ent) then mret ent else async_optionally_insert_with_hash_and_fun key init need_key.
Definition async_get_or_optionally_insert_with_hash_by_ref_and_fun (key : K) (init : option (option V)) (need_key : bool)
    : call (option (Entry K V)) :=
  ent ← await_get Lookup key None need_key true;
  if bool_decide (is_Some ent) then mret ent else async_optionally_insert_with_hash_and_fun key init need_key.

(** [ty] is the type identifier of the error type. *)
Definition async_try_insert_with_hash_and_fun {E} (ty : Z) (key : K) (init : option (V + E)) (need_key : bool) : call (Entry K V + E) :=
  r ← async_try_init_or_read key ty None init post_init_for_try_get_with;
  match r with
  | Initialized v => mret (inl (mkEntry (key_if need_key key) v true false))
  | ReadExisting v => mret (inl (mkEntry (key_if need_key key) v false false))
  | InitErr e => mret (inr e)
  end.
Definition async_get_or_try_insert_with_hash_and_fun {E} (ty : Z) (key : K) (init : option (V + E)) (need_key : bool) : call (Entry K V + E) :=
  o ← await_get Lookup key None need_key true;
  match o with
  | Some entry => mret (inl entry)
  | None => async_try_insert_with_hash_and_fun ty key init need_key
  end.
Definition async_get_or_try_insert_with_hash_by_ref_and_fun {E} (ty : Z) (key : K) (init : option (V + E)) (need_key : bool)
    : call (Entry K V + E) :=
  o ← await_get Lookup key None need_key true;
  match o with
  | Some entry => mret (inl entry)
  | None => async_try_insert_with_hash_and_fun ty key init need_key
  end.

Definition async_get_with (key : K) (init : option V) : call V :=
  e ← async_get_or_insert_with_hash_and_fun key init None false; mret (en_value e).
Definition async_get_with_by_ref (key : K) (init : option V) : call V :=
  e ← async_get_or_insert_with_hash_by_ref_and_fun key init None false; mret (en_value e).
Definition async_get_with_if (key : K) (init : option V) (replace_if : V -> bool) : call V :=
  e ← async_get_or_insert_with_hash_and_fun key init (Some replace_if) false; mret (en_value e).
Definition async_optionally_get_with (key : K) (init : option (option V)) : call (option V) :=
  o ← async_get_or_optionally_insert_with_hash_and_fun key init false; mret (option_map en_value o).
Definition async_optionally_get_with_by_ref (key : K) (init : option (option V)) : call (option V) :=
  o ← async_get_or_optionally_insert_with_hash_by_ref_and_fun key init false; mret (option_map en_value o).
Definition async_try_get_with {E} (ty : Z) (key : K) (init : option (V + E)) : call (V + E) :=
  r ← async_get_or_try_insert_with_hash_and_fun ty key init false; mret (map_ok en_value r).
Definition async_try_get_with_by_ref {E} (ty : Z) (key : K) (init : option (V + E)) : call (V + E) :=
  r ← async_get_or_try_insert_with_hash_by_ref_and_fun ty key init false; mret (map_ok en_value r).

(** ** Computing calls *)

Definition async_compute_with_hash_and_fun (key : K) (f : option (Entry K V) -> option (Op V)) : call (CompResult K V) :=
  r ← async_try_compute (E := unit) key f post_init_for_compute_with true;
  match r with inl result => mret result | inr _ => PFault Unreachable end.
Definition async_try_compute_with_hash_and_fun {E} (key : K) (f : option (Entry K V) -> option (Op V + E)) : call (CompResult K V + E) :=
  async_try_compute key f post_init_for_try_compute_with true.
Definition async_try_compute_if_nobody_else_with_hash_and_fun {E} (key : K) (f : option (Entry K V) -> option (Op V + E))
    : call (CompResult K V + E) :=
  async_try_compute_if_nobody_else key f post_init_for_try_compute_with true.
Definition async_upsert_with_hash_and_fun (key : K) (f : option (Entry K V) -> option V) : call (Entry K V) :=
  r ← async_try_compute (E := unit) key f post_init_for_upsert_with false;
  match r with
  | inl (CompInserted entry) | inl (ReplacedWith entry) => mret entry
  | _ => PFault Unreachable
  end.
End calls.

(** ** The entry selectors *)

Section selectors.
Context {K V : Type} `{Countable K}.
(** [V::default()] *)
Variable default : V.
Notation call := (api K V).
Implicit Types (key : K) (f : option (Entry K V) -> option (Op V)).

Definition async_and_compute_with key f : call (CompResult K V) := async_compute_with_hash_and_fun key f.
Definition async_and_try_compute_with {E} key (f : option (Entry K V) -> option (Op V + E)) : call (CompResult K V + E) :=
  async_try_compute_with_hash_and_fun key f.
Definition async_and_try_compute_if_nobody_else {E} key (f : option (Entry K V) -> option (Op V + E)) : call (CompResult K V + E) :=
  async_try_compute_if_nobody_else_with_hash_and_fun key f.
Definition async_and_upsert_with key (f : option (Entry K V) -> option V) : call (Entry K V) := async_upsert_with_hash_and_fun key f.
Definition async_or_default key : call (Entry K V) := async_get_or_insert_with_hash key (Some default).
Definition async_or_insert key (v : V) : call (Entry K V) := async_get_or_insert_with_hash key (Some v).
Definition async_or_insert_with key (init : option V) : call (Entry K V) := async_get_or_insert_with_hash_and_fun key init None true.
Definition async_or_insert_with_if key (init : option V) (replace_if : V -> bool) : call (Entry K V) :=
  async_get_or_insert_with_hash_and_fun key init (Some replace_if) true.
Definition async_or_optionally_insert_with key (init : option (option V)) : call (option (Entry K V)) :=
  async_get_or_optionally_insert_with_hash_and_fun key init true.
Definition async_or_try_insert_with {E} (ty : Z) key (init : option (V + E)) : call (Entry K V + E) :=
  async_get_or_try_insert_with_hash_and_fun ty key init true.

Definition async_ref_and_compute_with key f : call (CompResult K V) := async_compute_with_hash_and_fun key f.
Definition async_ref_and_try_compute_with {E} key (f : option (Entry K V) -> option (Op V + E)) : call (CompResult K V + E) :=
  async_try_compute_with_hash_and_fun key f.
Definition async_ref_and_try_compute_if_nobody_else {E} key (f : option (Entry K V) -> option (Op V + E)) : call (CompResult K V + E) :=
  async_try_compute_if_nobody_else_with_hash_and_fun key f.
Definition async_ref_and_upsert_with key (f : option (Entry K V) -> option V) : call (Entry K V) := async_upsert_with_hash_and_fun key f.
Definition async_ref_or_default key : call (Entry K V) := async_get_or_insert_with_hash_by_ref key (Some default).
Definition async_ref_or_insert key (v : V) : call (Entry K V) := async_get_or_insert_with_hash_by_ref key (Some v).
Definition async_ref_or_insert_with key (init : option V) : call (Entry K V) :=
  async_get_or_insert_with_hash_by_ref_and_fun key init None true.
Definition async_ref_or_insert_with_if key (init : option V) (replace_if : V -> bool) : call (Entry K V) :=
  async_get_or_insert_with_hash_by_ref_and_fun key init (Some replace_if) true.
Definition async_ref_or_optionally_insert_with key (init : option (option V)) : call (option (Entry K V)) :=
  async_get_or_optionally_insert_with_hash_by_ref_and_fun key init true.
Definition async_ref_or_try_insert_with {E} (ty : Z) key (init : option (V + E)) : call (Entry K V + E) :=
  async_get_or_try_insert_with_hash_by_ref_and_fun ty key init true.

(** ** What a task asks of the cache *)

(** The requests that await: those of [EntrySelector], and the computation that does
    not wait for others. *)
Inductive async_request (E : Type) :=
| RGet (key : K)
| RInsert (key : K) (v : V)
| RInvalidate (key : K)
| RRemove (key : K)
| RRunPendingTasks
| RGetWith (by_ref : bool) (key : K) (init : option V)
| RGetWithIf (key : K) (init : option V) (replace_if : V -> bool)
| ROptionallyGetWith (by_ref : bool) (key : K) (init : option (option V))
| RTryGetWith (by_ref : bool) (ty : Z) (key : K) (init : option (V + E))
| REntry (by_ref : bool) (key : K) (q : selection (K := K) (V := V) E)
| RTryComputeIfNobodyElse (by_ref : bool) (key : K) (f : option (Entry K V) -> option (Op V + E)).

Arguments RGet {E} _.
Arguments RInsert {E} _ _.
Arguments RInvalidate {E} _.
Arguments RRemove {E} _.
Arguments RRunPendingTasks {E}.
Arguments RGetWith {E} _ _ _.
Arguments RGetWithIf {E} _ _ _.
Arguments ROptionallyGetWith {E} _ _ _.
Arguments RTryGetWith {E} _ _ _ _.
Arguments REntry {E} _ _ _.
Arguments RTryComputeIfNobodyElse {E} _ _ _.

Definition reply_of {E R} (g : R -> reply (K := K) (V := V) E) (p : call R) : call (reply E) := r ← p; mret (g r).

Definition async_select {E} (by_ref : bool) key (q : selection (K := K) (V := V) E) : call (reply E) :=
  match q with
  | AndComputeWith f => reply_of AComp (if by_ref then async_ref_and_compute_with key f else async_and_compute_with key f)
  | AndTryComputeWith f => reply_of (sum_reply AComp) (if by_ref then async_ref_and_try_compute_with key f else async_and_try_compute_with key f)
  | AndUpsertWith f => reply_of some_entry (if by_ref then async_ref_and_upsert_with key f else async_and_upsert_with key f)
  | OrDefault => reply_of some_entry (if by_ref then async_ref_or_default key else async_or_default key)
  | OrInsert v => reply_of some_entry (if by_ref then async_ref_or_insert key v else async_or_insert key v)
  | OrInsertWith init => reply_of some_entry (if by_ref then async_ref_or_insert_with key init else async_or_insert_with key init)
  | OrInsertWithIf init p => reply_of some_entry (if by_ref then async_ref_or_insert_with_if key init p else async_or_insert_with_if key init p)
  | OrOptionallyInsertWith init =>
      reply_of AEntry (if by_ref then async_ref_or_optionally_insert_with key init else async_or_optionally_insert_with key init)
  | OrTryInsertWith ty init =>
      reply_of (sum_reply some_entry) (if by_ref then async_ref_or_try_insert_with ty key init else async_or_try_insert_with ty key init)
  end.

Definition async_serve {E} (q : async_request E) : call (reply (K := K) (V := V) E) :=
  match q with
  | RGet key => reply_of AValue (o ← await_get Lookup key None false true; mret (option_map en_value o))
  | RInsert key v => reply_of (fun _ => AUnit) (await_insert key v)
  | RInvalidate key => reply_of (fun _ => AUnit) (await_invalidate key false)
  | RRemove key => reply_of AValue (await_invalidate key true)
  | RRunPendingTasks => PAwait Lookup ARunPendingTasks (fun _ _ => mret AUnit)
  | RGetWith by_ref key init =>
      reply_of (fun v => AValue (Some v)) (if by_ref then async_get_with_by_ref key init else async_get_with key init)
  | RGetWithIf key init p => reply_of (fun v => AValue (Some v)) (async_get_with_if key init p)
  | ROptionallyGetWith by_ref key init =>
      reply_of AValue (if by_ref then async_optionally_get_with_by_ref key init else async_optionally_get_with key init)
  | RTryGetWith by_ref ty key init =>
      reply_of (sum_reply (fun v => AValue (Some v))) (if by_ref then async_try_get_with_by_ref ty key init else async_try_get_with ty key init)
  | REntry by_ref key q => async_select by_ref key q
  | RTryComputeIfNobodyElse by_ref key f =>
      reply_of (sum_reply AComp) (if by_ref then async_ref_and_try_compute_if_nobody_else key f else async_and_try_compute_if_nobody_else key f)
  end.

(** The synchronous request that does the same: a call that finds no other waits for
    none, and the asynchronous calls on borrowed keys are those on owned ones. *)
Definition sync_request {E} (q : async_request E) : request (K := K) (V := V) E :=
  match q with
  | RGet key => QGet key
  | RInsert key v => QInsert key v
  | RInvalidate key => QInvalidate key
  | RRemove key => QRemove key
  | RRunPendingTasks => QRunPendingTasks
  | RGetWith _ key init => QGetWith false key init
  | RGetWithIf key init p => QGetWithIf key init p
  | ROptionallyGetWith _ key init => QOptionallyGetWith false key init
  | RTryGetWith _ ty key init => QTryGetWith false ty key init
  | REntry _ key q => QEntry false key q
  | RTryComputeIfNobodyElse _ key f => QEntry false key (AndTryComputeWith f)
  end.
End selectors.
Arguments RGet {K V E} _.
Arguments RInsert {K V E} _ _.
Arguments RInvalidate {K V E} _.
Arguments RRemove {K V E} _.
Arguments RRunPendingTasks {K V E}.
Arguments RGetWith {K V E} _ _ _.
Arguments RGetWithIf {K V E} _ _ _.
Arguments ROptionallyGetWith {K V E} _ _ _.
Arguments RTryGetWith {K V E} _ _ _ _.
Arguments REntry {K V E} _ _ _.
Arguments RTryComputeIfNobodyElse {K V E} _ _ _.
