(* ===== verification/FutureClient.v ===== *)
(** The public asynchronous calls ([FutureApi]), driven to their end on the machine of
    [FutureOps]: a task that uses the cache alone gets from every call what the
    synchronous twin gives, so the replies are those the abstract cache allows. *)
From Stdlib Require Import String.
From S2P Require Import Prelude Common FrequencySketch Deque Time Housekeeper EntryInfo Concurrent Deques.
From S2P Require Import TimerWheel Policy Invalidator Inner BaseCache InnerInv InnerRemove Admission Scan Maintenance Operations System Guarantees.
From S2P Require Import ValueInitializer CacheApi EntrySelector Client FutureOps FutureInv FutureCache FutureAlone FutureApi.

(** ** A call with its operations run at once *)

Section sync.
Context {K V : Type} `{Countable K}.
Variable cfg : Config K V.
Variable inps : role -> PollInput.
Implicit Types (c : Cache K V).

(** What the synchronous twin of the call reads from outside. *)
Definition call_env : CallEnv :=
  mkCallEnv (pi_now (inps Lookup)) (sync_env (inps Lookup)) (pi_now (inps Relookup)) (pi_now (inps Write)) (pi_notify_now (inps Write))
    [sync_env (inps Write)].

Fixpoint run_call {R} (p : api K V R) c : res (Cache K V * unwind R) :=
  match p with
  | PReturn u => Ok (c, u)
  | PFault e => Fail e
  | PBlocked => Fail Diverged
  | PAwait r op k => '(b, v, ent) ← sync_call cfg (inps r) (c_base c) op; run_call (k v ent) (with_base c b)
  | PUserFuture k => run_call k c
  | PWaiter w_key inserted existing =>
      match try_insert_waiter c w_key with
      | Some c => run_call inserted c
      | None => run_call existing c
      end
  | PRelease w_key k => run_call k (remove_waiter c w_key)
  end.

Lemma run_bind {R S} (f : R -> api K V S) : forall (p : api K V R) c,
  run_call (p ≫= f) c = ('(c, u) ← run_call p c; match u with Returned r => run_call (f r) c | Unwound => Ok (c, Unwound) end).
Proof.
  fix IH 1. intros [[r|]|e| |r op k|k|w inserted existing|w k] c; [reflexivity..| | | |].
  - cbn. destruct (sync_call _ _ _ _) as [[[b v] ent]|]; [|done]. cbn. exact (IH (k v ent) _).
  - exact (IH k c).
  - cbn. destruct (try_insert_waiter c w); [exact (IH inserted _)|exact (IH existing _)].
  - exact (IH k _).
Qed.

Lemma run_get r key ig nk (record : bool) c :
  run_call (await_get r key ig nk record) c =
  ('(b, o) ← do_get_with_hash cfg (c_base c) key (hash_of cfg key) (if record then Some (sync_env (inps r)) else None) ig nk (pi_now (inps r));
   Ok (with_base c b, Returned o)).
Proof. cbn. change (hasher cfg key) with (hash_of cfg key). by destruct (do_get_with_hash _ _ _ _ _ _ _ _) as [[b o]|]. Qed.
Lemma run_insert key v c :
  run_call (await_insert key v) c = (c ← cache_insert_with_hash cfg c call_env key (hash_of cfg key) v; Ok (c, Returned tt)).
Proof. cbn. unfold cache_insert_with_hash. cbn. change (hasher cfg key) with (hash_of cfg key). by destruct (insert_with_hash _ _ _ _ _ _ _ _). Qed.
Lemma run_invalidate key nv c :
  run_call (await_invalidate key nv) c = ('(c, o) ← cache_invalidate_with_hash cfg c call_env key nv; Ok (c, Returned o)).
Proof. cbn. unfold cache_invalidate_with_hash. cbn. by destruct (invalidate_with_hash _ _ _ _ _ _ _) as [[b o]|]. Qed.

Lemma run_init {O E} key ty ig (init : option O) (post_init : O -> V + E) c :
  run_call (async_try_init_or_read key ty ig init post_init) c =
  try_init_or_read c (key, ty) (lookup_without_recording cfg call_env key (hash_of cfg key) ig) init
    (fun c v => cache_insert_with_hash cfg c call_env key (hash_of cfg key) v) post_init.
Proof.
  unfold async_try_init_or_read, try_init_or_read. cbn [run_call]. destruct (try_insert_waiter c (key, ty)) as [c1|]; [|done].
  rewrite run_bind, run_get. unfold lookup_without_recording, get_with_hash_without_recording. cbn [reget_now call_env].
  destruct (do_get_with_hash _ _ _ _ _ _ _ _) as [[b [e|]]|]; [done| |done]. cbn [mbind res_bind option_map run_call].
  destruct init as [o|]; [|done]. destruct (post_init o) as [v|e]; [|done]. rewrite run_bind, run_insert.
  by destruct (cache_insert_with_hash _ _ _ _ _ _).
Qed.

Lemma run_compute {O E} key (f : option (Entry K V) -> option O) (post_init : O -> Op V + E) nop c existing :
  run_call (PWaiter (key, TYPE_COMPUTE_NONE) (async_compute key (key, TYPE_COMPUTE_NONE) f post_init nop) existing) c =
  match try_insert_waiter c (key, TYPE_COMPUTE_NONE) with
  | Some _ => try_compute cfg c call_env key (hash_of cfg key) f post_init nop
  | None => run_call existing c
  end.
Proof.
  cbn [run_call]. unfold try_compute. destruct (try_insert_waiter c (key, TYPE_COMPUTE_NONE)) as [c1|]; [|done].
  unfold async_compute. rewrite run_bind, run_get. unfold get_with_hash_and_ignore_if. cbn [get_now get_env call_env].
  destruct (do_get_with_hash _ _ _ _ _ _ _ _) as [[b o]|]; [|done]. cbn [mbind res_bind run_call]. cbv zeta.
  destruct (f o) as [out|]; [|done]. destruct (post_init out) as [[|v|]|e]; [done| | |done].
  - rewrite run_bind, run_insert. by destruct (cache_insert_with_hash _ _ _ _ _ _).
  - rewrite run_bind, run_invalidate. by destruct (cache_invalidate_with_hash _ _ _ _ _) as [[c2 [v|]]|].
Qed.
Lemma run_try_compute {O E} key (f : option (Entry K V) -> option O) (post_init : O -> Op V + E) nop c :
  run_call (async_try_compute key f post_init nop) c = try_compute cfg c call_env key (hash_of cfg key) f post_init nop.
Proof. unfold async_try_compute. cbv zeta. rewrite run_compute. unfold try_compute. by destruct (try_insert_waiter c _). Qed.
Lemma run_if_nobody_else {O E} key (f : option (Entry K V) -> option O) (post_init : O -> Op V + E) nop c :
  (key, TYPE_COMPUTE_NONE) ∉ waiting c ->
  run_call (async_try_compute_if_nobody_else key f post_init nop) c = try_compute cfg c call_env key (hash_of cfg key) f post_init nop.
Proof.
  intros Hw. unfold async_try_compute_if_nobody_else. cbv zeta. rewrite run_compute. unfold try_insert_waiter.
  by rewrite (bool_decide_eq_false_2 _ Hw).
Qed.

(** ** Every request, against its synchronous twin *)

Definition flat {E} (u : unwind (reply (K := K) (V := V) E)) : reply E := match u with Returned a => a | Unwound => AUnwound end.

Lemma run_reply {E R} (g : R -> reply (K := K) (V := V) E) (p : api K V R) c :
  ('(c, u) ← run_call (reply_of g p) c; Ok (c, flat u)) = answer g (run_call p c).
Proof. unfold reply_of, answer. rewrite run_bind. by destruct (run_call p c) as [[c1 [r|]]|]. Qed.

(** The two lookups of [CacheApi]. *)
Lemma run_lookup key ig nk c : run_call (await_get Lookup key ig nk true) c =
  ('(b, o) ← get_with_hash_and_ignore_if cfg (c_base c) key (hash_of cfg key) ig nk (get_now call_env) (get_env call_env); Ok (with_base c b, Returned o)).
Proof. apply run_get. Qed.
Lemma run_lookup_all key nk c : run_call (await_get Lookup key None nk true) c =
  ('(c, o) ← cache_get_with_hash cfg c call_env key (hash_of cfg key) nk; Ok (c, Returned o)).
Proof. rewrite run_get. unfold cache_get_with_hash, get_with_hash. cbn. by destruct (do_get_with_hash _ _ _ _ _ _ _ _) as [[b o]|]. Qed.

Lemma run_get_or_insert_fun key init ig nk c :
  run_call (async_get_or_insert_with_hash_and_fun key init ig nk) c = get_or_insert_with_hash_and_fun cfg c call_env key (hash_of cfg key) init ig nk.
Proof.
  unfold async_get_or_insert_with_hash_and_fun, get_or_insert_with_hash_and_fun. rewrite run_bind, run_lookup.
  destruct (get_with_hash_and_ignore_if _ _ _ _ _ _ _ _) as [[b [e|]]|]; [done| |done]. cbn [mbind res_bind].
  unfold async_insert_with_hash_and_fun, insert_with_hash_and_fun. rewrite run_bind, run_init.
  destruct (try_init_or_read _ _ _ _ _ _) as [[c1 [[v|v|e]|]]|]; done.
Qed.
Lemma run_get_or_insert key init c :
  run_call (async_get_or_insert_with_hash key init) c = get_or_insert_with_hash cfg c call_env key (hash_of cfg key) init.
Proof.
  unfold async_get_or_insert_with_hash, get_or_insert_with_hash. rewrite run_bind, run_lookup_all.
  destruct (cache_get_with_hash _ _ _ _ _ _) as [[c1 [e|]]|]; [done| |done]. cbn [mbind res_bind]. destruct init as [v|]; [|done].
  rewrite run_bind, run_insert. by destruct (cache_insert_with_hash _ _ _ _ _ _).
Qed.
Lemma run_get_or_optionally key init nk c :
  run_call (async_get_or_optionally_insert_with_hash_and_fun key init nk) c =
  get_or_optionally_insert_with_hash_and_fun cfg c call_env key (hash_of cfg key) init nk.
Proof.
  unfold async_get_or_optionally_insert_with_hash_and_fun, get_or_optionally_insert_with_hash_and_fun. rewrite run_bind, run_lookup_all.
  destruct (cache_get_with_hash _ _ _ _ _ _) as [[c1 o]|]; [|done]. cbn [mbind res_bind]. case_bool_decide; [done|].
  unfold async_optionally_insert_with_hash_and_fun, optionally_insert_with_hash_and_fun. rewrite run_bind, run_init.
  destruct (try_init_or_read _ _ _ _ _ _) as [[c2 [[v|v|e]|]]|]; done.
Qed.
Lemma run_get_or_try {E} ty key (init : option (V + E)) nk c :
  run_call (async_get_or_try_insert_with_hash_and_fun ty key init nk) c =
  get_or_try_insert_with_hash_and_fun cfg ty c call_env key (hash_of cfg key) init nk.
Proof.
  unfold async_get_or_try_insert_with_hash_and_fun, get_or_try_insert_with_hash_and_fun. rewrite run_bind, run_lookup_all.
  destruct (cache_get_with_hash _ _ _ _ _ _) as [[c1 [e|]]|]; [done| |done]. cbn [mbind res_bind].
  unfold async_try_insert_with_hash_and_fun, try_insert_with_hash_and_fun. rewrite run_bind, run_init.
  destruct (try_init_or_read _ _ _ _ _ _) as [[c2 [[v|v|e]|]]|]; done.
Qed.

(** A call that ends by mapping its result. *)
Lemma run_map {R S} (g : R -> S) (p : api K V R) c :
  run_call (r ← p; mret (g r)) c = ('(c, u) ← run_call p c; Ok (c, map_unwind g u)).
Proof. rewrite run_bind. by destruct (run_call p c) as [[c1 [r|]]|]. Qed.

Lemma run_compute_with key f c :
  run_call (async_compute_with_hash_and_fun key f) c = compute_with_hash_and_fun cfg c call_env key (hash_of cfg key) f.
Proof.
  unfold async_compute_with_hash_and_fun, compute_with_hash_and_fun. rewrite run_bind, run_try_compute.
  by destruct (try_compute _ _ _ _ _ _ _ _) as [[c1 [[r|e]|]]|].
Qed.
Lemma run_upsert_with key f c :
  run_call (async_upsert_with_hash_and_fun key f) c = upsert_with_hash_and_fun cfg c call_env key (hash_of cfg key) f.
Proof.
  unfold async_upsert_with_hash_and_fun, upsert_with_hash_and_fun. rewrite run_bind, run_try_compute.
  by destruct (try_compute _ _ _ _ _ _ _ _) as [[c1 [[[]|e]|]]|].
Qed.

Lemma run_select {E} default by_ref key (q : selection (K := K) (V := V) E) c :
  ('(c, u) ← run_call (async_select default by_ref key q) c; Ok (c, flat u)) = select cfg default c call_env false key q.
Proof.
  destruct q; cbn [async_select select]; rewrite run_reply; f_equal; destruct by_ref;
    first [apply run_compute_with|apply run_try_compute|apply run_upsert_with|apply run_get_or_insert|apply run_get_or_insert_fun
          |apply run_get_or_optionally|apply run_get_or_try].
Qed.

Lemma run_serve {E} default (q : async_request E) c : waiting c = ∅ ->
  ('(c, u) ← run_call (async_serve default q) c; Ok (c, flat u)) = serve cfg default c call_env (sync_request q).
Proof.
  intros Hw. destruct q as [key|key v|key|key| |by_ref key init|key init p|by_ref key init|by_ref ty key init|by_ref key q|by_ref key f];
    cbn [async_serve serve sync_request]; try rewrite run_reply.
  - unfold get. rewrite run_map, run_lookup_all. by destruct (cache_get_with_hash _ _ _ _ _ _) as [[c1 o]|].
  - rewrite run_insert. unfold insert. by destruct (cache_insert_with_hash _ _ _ _ _ _).
  - rewrite run_invalidate. unfold invalidate. by destruct (cache_invalidate_with_hash _ _ _ _ _) as [[c1 o]|].
  - rewrite run_invalidate. unfold remove. by destruct (cache_invalidate_with_hash _ _ _ _ _) as [[c1 o]|].
  - cbn. by destruct (run_pending_tasks _ _ _).
  - f_equal. unfold get_with. rewrite <- run_get_or_insert_fun. destruct by_ref; apply run_map.
  - f_equal. unfold get_with_if. rewrite <- run_get_or_insert_fun. apply run_map.
  - f_equal. unfold optionally_get_with. rewrite <- run_get_or_optionally. destruct by_ref; apply run_map.
  - f_equal. unfold try_get_with. rewrite <- run_get_or_try. destruct by_ref; apply run_map.
  - apply run_select.
  - assert (Hk : (key, TYPE_COMPUTE_NONE) ∉ waiting c) by (rewrite Hw; set_solver).
    cbn [select]. f_equal. destruct by_ref; exact (run_if_nobody_else key f _ _ c Hk).
Qed.
End sync.

(** ** A call driven on the machine of the operations *)

Section driven.
Context {K V Ev : Type} `{Countable K} `{ReadyEvent Ev}.
Variable cfg : Config K V.
Implicit Types (f : FSys K V Ev) (w : gset (K * Z)).

(** What the call awaits is a task of its own, polled until it is done; [w] are the
    waiters in the map. *)
Inductive driven (inps : role -> PollInput) {R} : api K V R -> FSys K V Ev -> gset (K * Z) -> FSys K V Ev -> gset (K * Z) -> unwind R -> Prop :=
| dr_return u f w : driven inps (PReturn u) f w f w u
| dr_await r c k f w polls sh v ent ls f' w' u :
    solo cfg polls (shared f) (length (tasks f)) c AtStart (fun _ => inps r) = Ok (sh, TaskDone v ent, ls) ->
    driven inps (k v ent) (mkFSys sh (tasks f ++ [mkTask c (TaskDone v ent)])) w f' w' u ->
    driven inps (PAwait r c k) f w f' w' u
| dr_user k f w f' w' u : driven inps k f w f' w' u -> driven inps (PUserFuture k) f w f' w' u
| dr_inserted w_key p1 p2 f w f' w' u :
    w_key ∉ w -> driven inps p1 f ({[w_key]} ∪ w) f' w' u -> driven inps (PWaiter w_key p1 p2) f w f' w' u
| dr_existing w_key p1 p2 f w f' w' u :
    w_key ∈ w -> driven inps p2 f w f' w' u -> driven inps (PWaiter w_key p1 p2) f w f' w' u
| dr_release w_key k f w f' w' u : driven inps k f (w ∖ {[w_key]}) f' w' u -> driven inps (PRelease w_key k) f w f' w' u.

(** A task makes one request after the other, each with its clock readings. *)
Inductive driven_all {E} (default : V) : list ((role -> PollInput) * async_request (K := K) (V := V) E) ->
    FSys K V Ev -> gset (K * Z) -> list (reply (K := K) (V := V) E) -> FSys K V Ev -> gset (K * Z) -> Prop :=
| da_nil f w : driven_all default [] f w [] f w
| da_cons inps q qs f w f1 w1 u l f' w' :
    driven inps (async_serve default q) f w f1 w1 u -> driven_all default qs f1 w1 l f' w' ->
    driven_all default ((inps, q) :: qs) f w (flat u :: l) f' w'.

(** *** What a task writes *)

(** The insertion an operation has before it. *)
Definition ahead (pc : TaskPc K V) : Z :=
  match pc with
  | AtStart | AtRetry | AtRetryNotify _ | AtBody
  | AtAttempt ToRetry _ _ | AtTrySend ToRetry _ _ | AtListen ToRetry _ | Listening ToRetry _ | InRun _ (BackToSend ToRetry _ _) => 1
  | _ => 0
  end.
Lemma ahead_range pc : 0 <= ahead pc <= 1.
Proof. destruct pc as [| |g| |g ret|[]|[]|[]|[]| | | |now [[]| |]| |]; cbn; lia. Qed.

Lemma shared_counts n (sh : Shared K V Ev) fid ready r : poll_shared sh fid ready = Ok r -> foldl count_label n (snd r) = n.
Proof.
  unfold poll_shared. destruct (sh_futures sh !! fid) as [x|]; [|done]. cbn [expect_some mbind res_bind]. cbv zeta.
  destruct (match removal_notifier _ with Some _ => _ | None => _ end) as [nt f']. intros [= <-]. cbn. by destruct (bool_decide _).
Qed.
Lemma begin_counts (sh : Shared K V Ev) i due now back r :
  try_begin_run sh i due now back = Ok r -> ahead (snd r) = ahead (InRun now back).
Proof.
  unfold try_begin_run. assert (Hb : ahead (after_run back) = ahead (InRun now back)) by by destruct back.
  destruct (housekeeper _) as [hk|]; [|by intros [= <-]]. destruct (due hk) as [[]|]; [| |done]; cbn [mbind res_bind];
    destruct (lock_holder sh); by intros [= <-].
Qed.
Lemma await_counts n (sh : Shared K V Ev) ts op fut ret :
  let '(_, pc, ls) := await_notification sh ts op fut ret in foldl count_label n ls + ahead pc = n.
Proof. destruct fut; cbn; lia. Qed.

Lemma poll_counts n (sh : Shared K V Ev) i c pc inp sh' pc' ls :
  poll cfg sh i c pc inp = Ok (sh', pc', ls) -> foldl count_label n ls + ahead pc' <= n + ahead pc.
Proof.
  pose proof (ahead_range pc') as Hr. destruct pc as [| |g| |g ret|a g spins|a g spins|a g|a g|op now ent|op ent| |now back|v ent|]; cbn [poll].
  - intros [= _ _ <-]. cbn. lia.
  - intros [= _ _ <-]. cbn. lia.
  - destruct (expect_some _ _) as [fid|]; [|done]. cbn [mbind res_bind]. destruct (poll_shared _ _ _) as [[[sh1 rdy] l]|] eqn:E; [|done].
    cbn [mbind res_bind]. intros [= _ <- <-]. pose proof (shared_counts n _ _ _ _ E) as Hl. cbn [snd] in Hl. rewrite Hl. destruct rdy; cbn; lia.
  - destruct c as [key v|key nv|key ig nk rr|].
    + unfold poll_insert. destruct (async_do_insert_with_hash _ _ _ _ _ _ _) as [[[s op] fut]|]; [|done]. cbn [mbind res_bind].
      pose proof (await_counts (n + 1) (sh_with_inner sh s) (pi_now inp) op fut None) as Hl.
      destruct (await_notification _ _ _ _ _) as [[sh1 pc1] l]. intros [= _ <- <-]. cbn. lia.
    + unfold poll_invalidate. destruct (async_do_invalidate_with_hash _ _ _ _) as [[s [[[kv op] fut]|]]|]; [| |done]; cbn [mbind res_bind].
      * pose proof (await_counts n (sh_with_inner sh s) (pi_now inp) op fut (if nv then Some (value (kv_entry kv)) else None)) as Hl.
        destruct (await_notification _ _ _ _ _) as [[sh1 pc1] l]. intros [= _ <- <-]. cbn. lia.
      * intros [= _ <- <-]. cbn. lia.
    + destruct (poll_get _ _ _ _ _ _ _) as [[sh1 pc1]|]; [|done]. intros [= _ _ <-]. cbn. lia.
    + intros [= _ <- <-]. cbn. lia.
  - destruct (expect_some _ _) as [fid|]; [|done]. cbn [mbind res_bind]. destruct (poll_shared _ _ _) as [[[sh1 rdy] l]|] eqn:E; [|done].
    cbn [mbind res_bind]. intros [= _ <- <-]. pose proof (shared_counts n _ _ _ _ E) as Hl. cbn [snd] in Hl. rewrite Hl. by destruct rdy.
  - destruct (try_begin_run _ _ _ _ _) as [[sh1 pc1]|] eqn:E; [|done]. intros [= _ <- <-]. apply begin_counts in E. cbn in *. lia.
  - unfold poll_try_send. destruct (expect_some _ _) as [op|]; [|done]. cbn [mbind res_bind]. cbv zeta.
    destruct (_ <? _); intros [= _ <- <-]; destruct a; cbn; try case_bool_decide; cbn; lia.
  - intros [= _ <- <-]. done.
  - destruct (ev_notified _ _); intros [= _ <- <-]; done.
  - destruct (try_begin_run _ _ _ _ _) as [[sh1 pc1]|] eqn:E; [|done]. intros [= _ <- <-]. apply begin_counts in E. cbn in *. lia.
  - intros [= _ <- <-]. cbn. lia.
  - intros [= _ <- <-]. unfold poll_run_lock. cbn. destruct (housekeeper (sh_base sh)), (lock_holder sh); cbn; lia.
  - destruct (pi_ready inp); [|by intros [= _ <- <-]]. destruct (expect_some _ _) as [hk|]; [|done]. cbn [mbind res_bind].
    destruct (complete_run _ _ _ _ _); [|done]. intros [= _ <- <-]. by destruct back.
  - by intros [= _ <- <-].
  - by intros [= _ <- <-].
Qed.

Lemma solo_counts : forall k n (sh : Shared K V Ev) i c pc inps sh' pc' ls,
  solo cfg k sh i c pc inps = Ok (sh', pc', ls) -> foldl count_label n ls + ahead pc' <= n + ahead pc.
Proof.
  induction k as [|k IH]; intros n sh i c pc inps sh' pc' ls; cbn [solo]; [by intros [= _ <- <-]|].
  destruct (poll cfg sh i c pc _) as [[[sh1 pc1] l1]|] eqn:E1; [|done]. cbn [mbind res_bind].
  destruct (solo cfg k sh1 i c pc1 _) as [[[sh2 pc2] l2]|] eqn:E2; [|done]. cbn [mbind res_bind]. intros [= _ <- <-].
  apply (poll_counts n) in E1. apply (IH (foldl count_label n l1)) in E2. rewrite foldl_app. lia.
Qed.

(** Polling a task alone is a way to reach a state. *)
Lemma solo_reach b0 i c : forall k n m ls f pc inps sh' pc' ls',
  freach cfg b0 n m ls f -> (forall j, input_ok (inps j)) -> tasks f !! i = Some (mkTask c pc) ->
  solo cfg k (shared f) i c pc inps = Ok (sh', pc', ls') ->
  freach cfg b0 (foldl count_label n ls') (foldl spec_label m ls') (ls ++ ls') (mkFSys sh' (<[i := mkTask c pc']> (tasks f))).
Proof.
  induction k as [|k IH]; intros n m ls f pc inps sh' pc' ls' HR Hin Hi; cbn [solo].
  { intros [= <- <- <-]. rewrite app_nil_r, list_insert_id by done. by destruct f. }
  destruct (poll cfg (shared f) i c pc _) as [[[sh1 pc1] l1]|] eqn:E1; [|done]. cbn [mbind res_bind].
  destruct (solo cfg k sh1 i c pc1 _) as [[[sh2 pc2] l2]|] eqn:E2; [|done]. cbn [mbind res_bind]. intros [= <- <- <-].
  assert (Es : poll_step cfg f i (inps 0%nat) = Ok (mkFSys sh1 (<[i := mkTask c pc1]> (tasks f)), l1)).
  { unfold poll_step. rewrite Hi. cbn [tk_call tk_pc]. by rewrite E1. }
  pose proof (fr_poll _ _ _ _ _ _ _ _ _ _ HR (Hin 0%nat) Es) as HR1.
  eapply IH in HR1; [|intros j; exact (Hin (S j))|cbn [tasks]; apply list_lookup_insert_eq; by eapply lookup_lt_Some|exact E2].
  cbn [tasks] in HR1. by rewrite list_insert_insert_eq, <- !foldl_app, <- app_assoc in HR1.
Qed.
End driven.

Section alone.
Context {K V Ev : Type} `{Countable K} `{ReadyEvent Ev}.
Variable cfg : Config K V.
Context (Huser : user_ok cfg) (Hsafe : sketch_safe cfg) (Hcap : max_capacity cfg <> Some 0).
Variables (listener : option (K -> V -> RemovalCause -> bool)) (config : HousekeeperConfig) (inv_on : bool)
  (t0 : Instant) (b0 : BaseCache K V).
Context (Ht0 : instant_ok t0) (Hrep : 0 <= cfg_max_log_sync_repeats config)
  (Hnew : new_base_cache listener config inv_on t0 = Ok b0).
Notation freached := (freach cfg b0).
Implicit Types (f : FSys K V Ev) (c : Cache K V).

(** The call awaits at most [d] operations. *)
Fixpoint awaits {R} (d : nat) (p : api K V R) : Prop :=
  match p with
  | PReturn _ | PFault _ | PBlocked => True
  | PAwait _ _ k => match d with O => False | S d => forall v ent, awaits d (k v ent) end
  | PUserFuture k | PRelease _ k => awaits d k
  | PWaiter _ p1 p2 => awaits d p1 /\ awaits d p2
  end.

(** Clock readings are proper, and nothing the call awaits stays pending. *)
Definition inputs_ok (inps : role -> PollInput) : Prop := forall r, input_ok (inps r) /\ pi_ready (inps r) = true.

(** The machine between two awaits of a task that is alone. *)
Definition at_rest (n : Z) f c : Prop :=
  (exists m ls, freached n m ls f) /\ idle_shared (shared f) /\ sh_base (shared f) = c_base c.

Lemma await_driven inps r op n f c b v ent :
  inputs_ok inps -> at_rest n f c -> n + 1 <= MAX_WRITES -> sync_call cfg (inps r) (c_base c) op = Ok (b, v, ent) ->
  exists polls sh ls n', n' <= n + 1 /\
    solo cfg polls (shared f) (length (tasks f)) op AtStart (fun _ => inps r) = Ok (sh, TaskDone v ent, ls) /\
    at_rest n' (mkFSys sh (tasks f ++ [mkTask op (TaskDone v ent)])) (with_base c b).
Proof.
  intros Hin ((m & ls & HR) & Hidle & Hb) Hn Es. destruct (Hin r) as [Hi Hrdy].
  pose proof (fr_spawn _ _ _ _ _ _ op HR) as HR1. set (i := length (tasks f)).
  assert (Ht : tasks (spawn f op) !! i = Some (mkTask op AtStart)) by by apply list_lookup_middle.
  destruct (freached_inv cfg Huser Hsafe listener config inv_on t0 b0 Ht0 Hrep Hnew n m ls _ HR1 ltac:(lia)) as [I _].
  destruct (focus cfg n m _ i _ I Ht) as (rest & rfuts & L & _ & _). cbn [tk_pc spawn shared] in L.
  destruct (call_alone cfg (inps r) n m (shared f) i op rest rfuts Huser Hsafe Hcap Hi Hrdy L Hn Hidle) as (sh & v' & ent' & (k & ls' & E) & Hidle' & Es').
  rewrite Hb, Es in Es'. injection Es' as -> <- <-. exists k, sh, ls', (foldl count_label n ls'). split; [|split; [exact E|split; [|by split]]].
  - pose proof (solo_counts cfg k n _ _ _ _ _ _ _ _ E) as Hc. cbn in Hc. lia.
  - eapply solo_reach in HR1; [|by intros j; apply Hin|exact Ht|exact E]. cbn [spawn tasks] in HR1.
    unfold i in HR1. rewrite insert_app_r_alt, Nat.sub_diag in HR1 by lia. cbn in HR1. eauto.
Qed.

Lemma run_driven inps {R} : inputs_ok inps -> forall (p : api K V R) d n f c c' u,
  awaits d p -> at_rest n f c -> n + Z.of_nat d <= MAX_WRITES -> run_call cfg inps p c = Ok (c', u) ->
  exists n' f', n' <= n + Z.of_nat d /\ at_rest n' f' c' /\ driven cfg inps p f (waiting c) f' (waiting c') u.
Proof.
  intros Hin. induction p as [v|e| |r op k IH|k IH|w p1 IH1 p2 IH2|w k IH]; intros d n f c c' u Hd Hc Hn; cbn [run_call awaits] in *.
  - intros [= <- <-]. exists n, f. split; [lia|]. split; [done|constructor].
  - done.
  - done.
  - destruct d as [|d]; [done|]. destruct (sync_call cfg (inps r) (c_base c) op) as [[[b v] ent]|] eqn:Es; [|done]. cbn [mbind res_bind].
    destruct (await_driven inps r op n f c b v ent Hin Hc ltac:(lia) Es) as (polls & sh & ls & n1 & Hn1 & E1 & Hc1). intros E.
    destruct (IH v ent d n1 _ _ _ _ (Hd v ent) Hc1 ltac:(lia) E) as (n' & f' & Hn' & Hc' & Hdr).
    exists n', f'. split; [lia|]. split; [done|]. by econstructor.
  - intros E. destruct (IH d n f c c' u Hd Hc Hn E) as (n' & f' & Hn' & Hc' & Hdr). exists n', f'. do 2 (split; [done|]). by constructor.
  - destruct Hd as [Hd1 Hd2]. unfold try_insert_waiter. case_bool_decide as Hw; intros E.
    + destruct (IH2 d n f c c' u Hd2 Hc Hn E) as (n' & f' & Hn' & Hc' & Hdr). exists n', f'. do 2 (split; [done|]). by apply dr_existing.
    + destruct (IH1 d n f (mkCache (c_base c) ({[w]} ∪ waiting c)) c' u Hd1 Hc Hn E) as (n' & f' & Hn' & Hc' & Hdr). exists n', f'. do 2 (split; [done|]). by apply dr_inserted.
  - intros E. destruct (IH d n f (remove_waiter c w) c' u Hd Hc Hn E) as (n' & f' & Hn' & Hc' & Hdr). exists n', f'. do 2 (split; [done|]). by constructor.
Qed.

(** Every request awaits at most three operations: a lookup, a second lookup under the
    waiter, and a write. *)
Lemma serve_awaits {E} default (q : async_request (K := K) (V := V) E) : awaits 3 (async_serve default q).
Proof.
  destruct q as [| | | | |[]| |[]|[]|[] key []|[]]; cbn; repeat (split || intros || case_match || cbn); done.
Qed.

Lemma call_env_fine inps : inputs_ok inps -> call_env_ok (call_env inps).
Proof.
  intros Hin. split; try apply Hin; cbn; [by apply Forall_singleton, Hin|by constructor].
Qed.

Context {E : Type} (default : V).
Notation script := (list ((role -> PollInput) * async_request (K := K) (V := V) E)).
(** The requests of a synchronous client that sees the same clocks. *)
Definition twin (qs : script) : list (CallEnv * request (K := K) (V := V) E) := (fun q => (call_env (fst q), sync_request (snd q))) <$> qs.

Lemma script_driven : forall (qs : script) n n' m f c,
  client_inv cfg n m ∅ c -> n + Z.of_nat (length qs) <= MAX_WRITES -> at_rest n' f c -> n' + 3 * Z.of_nat (length qs) <= MAX_WRITES ->
  Forall (fun q => inputs_ok (fst q)) qs ->
  exists c' l f' m', serve_all cfg default c (twin qs) = Ok (c', l) /\ all_allowed cfg default m (twin qs) l m' /\
    driven_all cfg default qs f ∅ l f' ∅ /\ sh_base (shared f') = c_base c'.
Proof.
  induction qs as [|[inps q] qs IH]; intros n n' m f c I Hn Hc Hn' Hqs; cbn [twin serve_all length fmap list_fmap fst snd] in *.
  { exists c, [], f, m. do 2 (split; [done|]). split; [constructor|apply Hc]. }
  apply Forall_cons in Hqs as [Hq Hqs]. cbn [fst] in Hq.
  destruct (serve_returns cfg Huser Hsafe default n m (call_env inps) ltac:(lia) (call_env_fine inps Hq) c (sync_request q) I)
    as ([c1 a] & E1 & m1 & I1 & Ha). cbn [fst snd] in *.
  pose proof E1 as E2. rewrite <- run_serve in E2 by apply I.
  destruct (run_call cfg inps (async_serve default q) c) as [[c2 u]|] eqn:Er; [|done]. cbn [mbind res_bind] in E2. injection E2 as -> <-.
  destruct (run_driven inps Hq _ 3 n' f c c1 u (serve_awaits default q) Hc ltac:(lia) Er) as (n1 & f1 & Hn1 & Hc1 & Hd).
  rewrite (proj2 I), (proj2 I1) in Hd.
  destruct (IH (n + 1) n1 m1 f1 c1 I1 ltac:(lia) Hc1 ltac:(lia) Hqs) as (c' & l & f' & m' & E3 & Hl & Hd' & Hb).
  exists c', (flat u :: l), f', m'. rewrite E1. cbn [mbind res_bind]. unfold twin in E3. rewrite E3. split; [done|].
  split; [by exists m1|]. split; [by econstructor|done].
Qed.

End alone.

Module Witnesses.
Import Guarantees.Sample FutureCache.Witnesses.

Definition at_time (t : Instant) : role -> PollInput := fun _ => input t true.
(** A future that panics, an initialisation, an error, an upsert, a removal, a
    computation that would not wait. *)
Definition async_script : list ((role -> PollInput) * async_request (K := Z) (V := Z) string) :=
  [(at_time 1, RGetWith false 1 None); (at_time 2, RGetWith true 1 (Some 10)); (at_time 3, RTryGetWith false 7 2 (Some (inr "no"%string)));
   (at_time 4, REntry false 1 (AndUpsertWith (fun o => match o with Some e => Some (en_value e + 1) | None => Some 0 end)));
   (at_time 5, RInsert 3 30); (at_time 6, RRemove 3);
   (at_time 7, RTryComputeIfNobodyElse true 1 (fun o => Some (inl (match o with Some e => Put (en_value e * 2) | None => Nop end))))].
Definition async_replies : list (reply (K := Z) (V := Z) string) :=
  [AUnwound; AValue (Some 10); AError "no"%string; AEntry (Some (mkEntry (Some 1) 11 true true)); AUnit; AValue (Some 30);
   AComp (ReplacedWith (mkEntry (Some 1) 22 true true))].
Lemma async_script_ok : Forall (fun q => inputs_ok (fst q)) async_script.
Proof. repeat (apply Forall_cons; split); [by intros r; split; [apply input_at|]..|by apply Forall_nil]. Qed.
Lemma async_served : exists c, serve_all config 0 (mkCache start ∅) (twin async_script) = Ok (c, async_replies).
Proof. eexists. vm_compute. reflexivity. Qed.

End Witnesses.
