(* ===== verification/FutureBuilder.v ===== *)
(** The builder of the asynchronous cache (src/future/builder.rs), and what a cache
    that was built from any settings promises to the task that uses it.

    The listener of a builder returns a future; when that future is ready is an
    input of the polls ([FutureOps]), so that a listener is again given by whether
    it panics. *)
From Stdlib Require Import String.
From S2P Require Import Prelude Common FrequencySketch Deque Time Housekeeper EntryInfo Concurrent Deques.
From S2P Require Import TimerWheel Policy Invalidator Inner BaseCache InnerInv InnerRemove Admission Scan Maintenance Operations System Guarantees.
From S2P Require Import SegmentedCache CacheApi EntrySelector Client Builder FutureOps FutureInv FutureCache FutureAlone FutureApi FutureClient.

Record AsyncCacheBuilder (K V : Type) := mkAsyncBuilder {
  ab_name : option string;
  ab_max_capacity : option Z;
  ab_initial_capacity : option Z;
  ab_weigher : option (K -> V -> Z);
  ab_eviction_policy : EvictionPolicyConfig;
  ab_eviction_listener : option (K -> V -> RemovalCause -> bool);
  ab_expiration_policy : ExpirationPolicy K V;
  ab_housekeeper_config : HousekeeperConfig;
  ab_invalidator_enabled : bool;
  ab_clock : StdInstant
}.
Arguments mkAsyncBuilder {K V} _ _ _ _ _ _ _ _ _ _.
Arguments ab_name {K V} _.
Arguments ab_max_capacity {K V} _.
Arguments ab_initial_capacity {K V} _.
Arguments ab_weigher {K V} _.
Arguments ab_eviction_policy {K V} _.
Arguments ab_eviction_listener {K V} _.
Arguments ab_expiration_policy {K V} _.
Arguments ab_housekeeper_config {K V} _.
Arguments ab_invalidator_enabled {K V} _.
Arguments ab_clock {K V} _.

Section builder.
Context {K V : Type} `{Countable K}.
Implicit Types (bd : AsyncCacheBuilder K V).

Definition async_default_builder (clock : StdInstant) : AsyncCacheBuilder K V :=
  mkAsyncBuilder None None None None TinyLfu None default_expiration_policy default_housekeeper_config false clock.
Definition async_new_builder (clock : StdInstant) (max_capacity : Z) : AsyncCacheBuilder K V :=
  mkAsyncBuilder None (Some max_capacity) None None TinyLfu None default_expiration_policy default_housekeeper_config false clock.

(** ** The settings *)

(** [eviction_listener] wraps a listener in a future that is ready. *)
Inductive AsyncSetting :=
| ASName (name : string)
| ASMaxCapacity (max_capacity : Z)
| ASInitialCapacity (number_of_entries : Z)
| ASEvictionPolicy (policy : EvictionPolicyConfig)
| ASWeigher (weigher : K -> V -> Z)
| ASEvictionListener (listener : K -> V -> RemovalCause -> bool)
| ASAsyncEvictionListener (listener : K -> V -> RemovalCause -> bool)
| ASTimeToLive (duration : Duration)
| ASTimeToIdle (duration : Duration)
| ASExpireAfter (expiry : Expiry K V)
| ASSupportInvalidationClosures.

Definition async_eviction_listener bd (listener : K -> V -> RemovalCause -> bool) : AsyncCacheBuilder K V :=
  mkAsyncBuilder (ab_name bd) (ab_max_capacity bd) (ab_initial_capacity bd) (ab_weigher bd) (ab_eviction_policy bd) (Some listener)
    (ab_expiration_policy bd) (ab_housekeeper_config bd) (ab_invalidator_enabled bd) (ab_clock bd).
Definition async_apply_setting bd (x : AsyncSetting) : AsyncCacheBuilder K V :=
  let 'mkAsyncBuilder name max_cap init_cap weigher policy listener exp hk inv clock := bd in
  match x with
  | ASName n => mkAsyncBuilder (Some n) max_cap init_cap weigher policy listener exp hk inv clock
  | ASMaxCapacity n => mkAsyncBuilder name (Some n) init_cap weigher policy listener exp hk inv clock
  | ASInitialCapacity n => mkAsyncBuilder name max_cap (Some n) weigher policy listener exp hk inv clock
  | ASEvictionPolicy p => mkAsyncBuilder name max_cap init_cap weigher p listener exp hk inv clock
  | ASWeigher w => mkAsyncBuilder name max_cap init_cap (Some w) policy listener exp hk inv clock
  | ASEvictionListener l => async_eviction_listener bd (fun k v c => l k v c)
  | ASAsyncEvictionListener l => async_eviction_listener bd l
  | ASTimeToLive d => mkAsyncBuilder name max_cap init_cap weigher policy listener (set_time_to_live exp d) hk inv clock
  | ASTimeToIdle d => mkAsyncBuilder name max_cap init_cap weigher policy listener (set_time_to_idle exp d) hk inv clock
  | ASExpireAfter e => mkAsyncBuilder name max_cap init_cap weigher policy listener (set_expiry exp e) hk inv clock
  | ASSupportInvalidationClosures => mkAsyncBuilder name max_cap init_cap weigher policy listener exp hk true clock
  end.

(** ** Building *)

Definition async_builder_config bd (hasher : K -> Z) (checks : bool) : Config K V :=
  mkConfig (ab_max_capacity bd) (ab_weigher bd) (ab_eviction_policy bd) (ab_expiration_policy bd) hasher (ab_clock bd) checks.

(** [build] and [build_with_hasher] *)
Definition async_build_with_hasher bd (hasher : K -> Z) (checks : bool) (now : Instant) : res (Config K V * Cache K V) :=
  let exp := ab_expiration_policy bd in
  _ ← ensure_expirations_or_panic (time_to_live exp) (time_to_idle exp);
  c ← cache_with_everything (ab_eviction_listener bd) (ab_housekeeper_config bd) (ab_invalidator_enabled bd) now;
  Ok (async_builder_config bd hasher checks, c).

(** ** The twin of the synchronous builder *)

Definition sync_setting (x : AsyncSetting) : Setting (K := K) (V := V) :=
  match x with
  | ASName n => SName n
  | ASMaxCapacity n => SMaxCapacity n
  | ASInitialCapacity n => SInitialCapacity n
  | ASEvictionPolicy p => SEvictionPolicy p
  | ASWeigher w => SWeigher w
  | ASEvictionListener l | ASAsyncEvictionListener l => SEvictionListener l
  | ASTimeToLive d => STimeToLive d
  | ASTimeToIdle d => STimeToIdle d
  | ASExpireAfter e => SExpireAfter e
  | ASSupportInvalidationClosures => SSupportInvalidationClosures
  end.
Definition sync_builder bd : CacheBuilder K V :=
  mkCacheBuilder (ab_name bd) (ab_max_capacity bd) (ab_initial_capacity bd) None (ab_weigher bd) (ab_eviction_policy bd)
    (ab_eviction_listener bd) (ab_expiration_policy bd) (ab_housekeeper_config bd) (ab_invalidator_enabled bd) (ab_clock bd).

Lemma sync_apply bd x : sync_builder (async_apply_setting bd x) = apply_setting (sync_builder bd) (sync_setting x).
Proof. destruct bd. by destruct x. Qed.
Lemma sync_apply_all : forall l bd, sync_builder (foldl async_apply_setting bd l) = foldl apply_setting (sync_builder bd) (sync_setting <$> l).
Proof. induction l as [|x l IH]; intros bd; [done|]. cbn. by rewrite IH, sync_apply. Qed.

(** The two builders, given the same settings, build the same cache. *)
Theorem async_build_is_sync clock cap l hasher checks now :
  async_build_with_hasher (foldl async_apply_setting (async_new_builder clock cap) l) hasher checks now =
  build_with_hasher (foldl apply_setting (new_builder clock cap) (sync_setting <$> l)) hasher checks now.
Proof. change (new_builder clock cap) with (sync_builder (async_new_builder clock cap)). by rewrite <- sync_apply_all. Qed.

(** ** From the settings to the client *)

(** The user's functions return what their types say. *)
Definition setting_ok (x : AsyncSetting) : Prop :=
  match x with
  | ASWeigher w => forall k v, 0 <= w k v <= U32_MAX
  | ASExpireAfter ex =>
      (forall k v t d, expire_after_create_fn ex k v t = Some d -> 0 <= d) /\
      (forall k v t d0 t' d, expire_after_read_fn ex k v t d0 t' = Some d -> 0 <= d) /\
      (forall k v t d0 d, expire_after_update_fn ex k v t d0 = Some d -> 0 <= d)
  | _ => True
  end.

Lemma setting_keeps hasher checks bd x :
  setting_ok x -> user_ok (async_builder_config bd hasher checks) -> user_ok (async_builder_config (async_apply_setting bd x) hasher checks).
Proof.
  intros Hx [U1 U2 U3 U4]. destruct bd. destruct x; cbn in *; try (by split).
  - split; cbn; try done. by intros w k v [= <-].
  - destruct Hx as (H1 & H2 & H3). split; cbn; try done.
    + intros ex k v t d [= <-]. apply H1.
    + intros ex k v t d0 t' d [= <-]. apply H2.
    + intros ex k v t d0 d [= <-]. apply H3.
Qed.
Lemma settings_user hasher checks : forall l bd, Forall setting_ok l -> user_ok (async_builder_config bd hasher checks) ->
  user_ok (async_builder_config (foldl async_apply_setting bd l) hasher checks).
Proof.
  induction l as [|x l IH]; intros bd Hl U; [done|]. apply Forall_cons in Hl as [Hx Hl]. cbn [foldl]. apply IH; [done|]. by apply setting_keeps.
Qed.
Lemma settings_housekeeper : forall l bd, ab_housekeeper_config (foldl async_apply_setting bd l) = ab_housekeeper_config bd.
Proof. induction l as [|x l IH]; intros bd; [done|]. cbn [foldl]. rewrite IH. destruct bd. by destruct x. Qed.

(** A cache built from any settings serves the task that uses it: with functions of
    the user that return what their types say, expiration times the builder accepts,
    a capacity other than zero, a [sketch_safe] configuration and a clock as in [user_ok], the builder
    returns a cache, and every request of the task is answered as the abstract cache
    allows. *)
Theorem built_cache_serves `{ReadyEvent Ev} {E} clock cap l hasher checks now default (qs : list ((role -> PollInput) * async_request (K := K) (V := V) E)) :
  let bd := foldl async_apply_setting (async_new_builder clock cap) l in
  let cfg := async_builder_config bd hasher checks in
  Forall setting_ok l -> policy_too_long (cache_policy cfg) = false -> max_capacity cfg <> Some 0 -> sketch_safe cfg -> instant_ok now -> clock + U64_MAX <= STD_MAX ->
  Forall (fun q => inputs_ok (fst q)) qs -> 3 * Z.of_nat (length qs) <= MAX_WRITES ->
  exists c l f m, async_build_with_hasher bd hasher checks now = Ok (cfg, c) /\ waiting c = ∅ /\
    driven_all (Ev := Ev) cfg default qs (fsys_start (c_base c)) ∅ l f ∅ /\ all_allowed cfg default ∅ (twin qs) l m.
Proof.
  intros bd cfg Hl Hlong Hcap Hsafe Hnow Hclock Hqs Hn.
  assert (Huser : user_ok cfg) by (apply settings_user; [done|]; by split).
  assert (Hrep : 0 <= cfg_max_log_sync_repeats (ab_housekeeper_config bd)) by (unfold bd; by rewrite settings_housekeeper).
  destruct (start_client cfg (ab_eviction_listener bd) (ab_housekeeper_config bd) (ab_invalidator_enabled bd) now Hnow Hrep) as (c & Ec & I).
  unfold start, cache_with_everything in Ec. destruct (new_base_cache _ _ _ _) as [b|] eqn:Eb; [|done]. cbn [mbind res_bind] in Ec. injection Ec as <-.
  destruct (script_driven (Ev := Ev) cfg Huser Hsafe Hcap _ _ _ _ b Hnow Hrep Eb default qs 0 0 ∅ (fsys_start b) (mkCache b ∅) I ltac:(lia))
    as (c' & rs & f & m & E1 & Ha & Hd & Hb).
  - split; [exists ∅, []; constructor|]. by repeat split.
  - lia.
  - exact Hqs.
  - exists (mkCache b ∅), rs, f, m. split; [|by split]. unfold async_build_with_hasher. cbv zeta. rewrite ensure_expirations_spec.
    unfold policy_too_long, cache_policy in Hlong. cbn [p_time_to_live p_time_to_idle cfg expiration_policy async_builder_config] in Hlong.
    rewrite Hlong. cbn [mbind res_bind]. unfold cache_with_everything. by rewrite Eb.
Qed.
End builder.

Module Sample.
Import FutureCache.Witnesses FutureClient.Witnesses.
(** A TinyLFU cache with a weigher and a time to live, in a build without overflow checks, and the requests of [FutureClient]. *)
Example built_cache_serves_sample :
  let l := [ASEvictionPolicy TinyLfu; ASWeigher (fun _ _ => 2); ASMaxCapacity 10; ASTimeToLive 1000] in
  let bd := foldl async_apply_setting (async_new_builder (K := Z) (V := Z) 0 5) l in
  exists c l f m, async_build_with_hasher bd (fun k => k) false 3 = Ok (async_builder_config bd (fun k => k) false, c) /\
    driven_all (Ev := gmap nat bool) (async_builder_config bd (fun k => k) false) 0 async_script (fsys_start (c_base c)) ∅ l f ∅ /\
    all_allowed (async_builder_config bd (fun k => k) false) 0 ∅ (twin async_script) l m.
Proof.
  intros l bd.
  destruct (built_cache_serves (Ev := gmap nat bool) 0 5 l (fun k => k) false 3 0 async_script) as (c & rs & f & m & E & _ & Hd & Ha).
  - by repeat (apply Forall_cons; split).
  - reflexivity.
  - done.
  - by apply sketch_safe_unchecked.
  - done.
  - done.
  - exact async_script_ok.
  - done.
  - by exists c, rs, f, m.
Qed.
End Sample.
