(* ===== verification/FutureRun.v ===== *)
(** The maintenance run of the asynchronous cache ([do_run_pending_tasks] of
    src/future/base_cache.rs and the functions it awaits, with
    src/future/invalidator.rs) as a program that may be suspended.

    The run holds the locks of the queues and of the timer wheel, and its counters
    are its own; everything else it shares with the operations of other tasks, which
    go on while it is suspended.  A program is a resumption: it has returned, or its
    next step takes the cache as it finds it.  A step makes one access of the hash
    table, one poll of a notification or one move that concerns the locked parts
    only; other tasks may come in between any two steps, so in particular at every
    await.  The handlers that await nothing are those of [Inner].

    The order of the steps is the source's.  What differs from the synchronous run:
    the keys of the expired timers are collected before the first of them is
    removed; the predicates of a scan are taken when it starts, and the registry is
    read again when it ends. *)
From S2P Require Import Prelude Common FrequencySketch Deque Time Housekeeper EntryInfo Concurrent Deques.
From S2P Require Import TimerWheel Policy Invalidator Inner BaseCache FutureOps.

(** ** Programs *)

Inductive prog (S A : Type) : Type :=
| Ret (a : A)
| Act (f : S -> res (S * prog S A)).
Arguments Ret {S A} _.
Arguments Act {S A} _.

#[export] Instance prog_ret S : MRet (prog S) := fun A a => Ret a.
#[export] Instance prog_bind S : MBind (prog S) := fun A B k =>
  fix bind p := match p with
  | Ret a => k a
  | Act f => Act (fun x => '(x, p) ← f x; Ok (x, bind p))
  end.

(** A single step. *)
Definition step {S A} (f : S -> res (S * A)) : prog S A := Act (fun x => '(x, a) ← f x; Ok (x, Ret a)).

Fixpoint for_each {S A} (f : A -> prog S unit) (l : list A) : prog S unit :=
  match l with
  | [] => Ret tt
  | x :: l => _ ← f x; for_each f l
  end.

(** A [for] loop with [break]. *)
Fixpoint for_until {S B} (n : nat) (f : B -> prog S (bool * B)) (b : B) : prog S B :=
  match n with
  | O => Ret b
  | S n => '(stop, b) ← f b; if (stop : bool) then Ret b else for_until n f b
  end.

(** The program without interruption. *)
Fixpoint finish {S A} (p : prog S A) (x : S) : res (S * A) :=
  match p with
  | Ret a => Ok (x, a)
  | Act f => match f x with Ok (x, p) => finish p x | Fail e => Fail e end
  end.

Section run.
Context {K V : Type} `{Countable K}.
Variable cfg : Config K V.
Implicit Types (s : Inner K V) (es : EvictionState) (ve : ValueEntry V).

Notation M := (prog (Inner K V * EvictionState)).

(** ** Removals *)

(** [EvictionState::notify_entry_removal], and [Inner::notify_single_removal], under
    the check that there is a listener: its call, and then the await of its future. *)
Definition await_removal (key : K) ve (cause : RemovalCause) : M unit :=
  Act (fun '(s, es) =>
    match removal_notifier s with
    | Some n =>
        let '(n, f) := poll_notify n (mkNotifyFuture key (value ve) cause NotPolled) false in
        Ok (with_notifier s (Some n), es, step (fun '(s, es) => Ok (notify_now s f, es, tt)))
    | None => Ok (s, es, Ret tt)
    end).

(** The removed entry is reported, counted, and taken out of the locked parts. *)
Definition evict_removed (handle : Inner K V -> ValueEntry V -> EvictionCounters -> res (Inner K V * EvictionCounters))
    (key : K) ve (cause : RemovalCause) : M unit :=
  _ ← await_removal key ve cause;
  step (fun '(s, es) =>
    let es := with_counters es (incr_eviction_count (counters es)) in
    '(s, c) ← handle s ve (counters es);
    Ok (s, with_counters es c, tt)).

(** ** The logs *)

Fixpoint async_apply_reads (count : nat) : M unit :=
  match count with
  | O => Ret tt
  | S count =>
      Act (fun '(s, es) =>
        match read_op_ch s with
        | [] => Ok (s, es, Ret tt)
        | op :: ops => s ← apply_read cfg (with_reads s ops) op; Ok (s, es, async_apply_reads count)
        end)
  end.

(** One victim of an admitted candidate. *)
Definition async_remove_victim (vic : KeyHash K * option Instant) : M unit :=
  let '(vic_kh, vic_la) := vic in
  Act (fun '(s, es) =>
    '(s, removed) ← cht_remove_if_and_retire s (kh_key vic_kh) (fun _ ei => bool_decide (last_accessed ei = vic_la));
    match removed with
    | Some vic_entry => Ok (s, es, evict_removed (fun s ve c => handle_remove s ve None c) (kh_key vic_kh) vic_entry CauseSize)
    | None =>
        front ← peek_front (kheap (mem s)) (probation (deques s));
        match front with
        | Some n =>
            key ← khd_key (mem s) (element n);
            hash ← khd_hash (mem s) (element n);
            if bool_decide (key = kh_key vic_kh) && (hash =? kh_hash vic_kh) then
              '(h, d) ← move_front_to_back (kheap (mem s)) (probation (deques s));
              Ok (with_deques s (with_kheap (mem s) h) (set_probation (deques s) d), es, Ret tt)
            else Ok (s, es, Ret tt)
        | None => Ok (s, es, Ret tt)
        end
    end).

Definition set_policy_gen_of ve (gen : Z) : M unit :=
  step (fun '(s, es) => m ← ve_set_policy_gen (mem s) ve gen; Ok (with_mem s m, es, tt)).

(** The entry is put in the queues. *)
Definition admit_entry ve (new_weight gen : Z) : M unit :=
  step (fun '(s, es) =>
    '(s, c) ← handle_admit cfg s ve new_weight (counters es);
    m ← ve_set_policy_gen (mem s) ve gen;
    Ok (with_mem s m, with_counters es c, tt)).

(** The candidate is heavier than the cache. *)
Definition async_reject_too_heavy (kh : KeyHash K) ve (gen : Z) : M unit :=
  Act (fun '(s, es) =>
    '(s, removed) ← cht_remove_if_and_retire s (kh_key kh) (same_generation (info ve) gen);
    match removed with
    | Some entry =>
        Ok (s, es, _ ← await_removal (kh_key kh) entry CauseSize;
                   _ ← step (fun '(s, es) => Ok (s, with_counters es (incr_eviction_count (counters es)), tt));
                   set_policy_gen_of ve gen)
    | None => Ok (s, es, set_policy_gen_of ve gen)
    end).

(** The candidate lost against its victims. *)
Definition async_reject_candidate (kh : KeyHash K) ve (gen : Z) : M unit :=
  Act (fun '(s, es) =>
    '(s, removed) ← cht_remove_if_and_retire s (kh_key kh) (same_generation (info ve) gen);
    match removed with
    | Some entry =>
        m ← ve_set_policy_gen (mem s) entry gen;
        Ok (with_mem s m, es, _ ← await_removal (kh_key kh) entry CauseSize;
                              step (fun '(s, es) => Ok (s, with_counters es (incr_eviction_count (counters es)), tt)))
    | None => Ok (s, es, Ret tt)
    end).

(** [admit], whose reads of the table are one step here. *)
Definition select_victims (kh : KeyHash K) (new_weight : Z) : M (AdmissionResult K) :=
  step (fun '(s, es) =>
    '(s, admission) ← match eviction_policy cfg with
                      | TinyLfu =>
                          candidate ← add_frequency (new_size_freq new_weight) (frequency_sketch s) (kh_hash kh);
                          admit_candidate s candidate
                      | Lru => Ok (s, AdmitCandidate [])
                      end;
    Ok (s, es, admission)).

Definition async_handle_upsert (kh : KeyHash K) ve (gen old_weight new_weight : Z) : M unit :=
  Act (fun '(s, es) =>
    ei ← get_info (mem s) (info ve);
    if negb (is_alive ei) then Ok (s, es, set_policy_gen_of ve gen)
    else if is_admitted ei then
      c ← counters_saturating_sub (counters es) 0 old_weight;
      c ← counters_saturating_add c 0 new_weight;
      s ← update_timer_wheel s ve;
      '(m, ds) ← move_to_back_ao (mem s) (deques s) ve;
      '(m, ds) ← move_to_back_wo m ds ve;
      m ← ve_set_policy_gen m ve gen;
      Ok (with_deques s m ds, with_counters es c, Ret tt)
    else
      enough ← has_enough_capacity cfg new_weight (counters es);
      Ok (s, es,
          if (enough : bool) then admit_entry ve new_weight gen
          else if match max_capacity cfg with Some max => max <? new_weight | None => false end
          then async_reject_too_heavy kh ve gen
          else
            admission ← select_victims kh new_weight;
            match admission with
            | AdmitCandidate victim_keys => _ ← for_each async_remove_victim victim_keys; admit_entry ve new_weight gen
            | RejectCandidate => async_reject_candidate kh ve gen
            end)).

Fixpoint async_apply_writes (count : nat) : M unit :=
  match count with
  | O => Ret tt
  | S count =>
      Act (fun '(s, es) =>
        match write_op_ch s with
        | [] => Ok (s, es, Ret tt)
        | Upsert kh ve gen old_weight new_weight :: ops =>
            Ok (with_writes s ops, es, _ ← async_handle_upsert kh ve gen old_weight new_weight; async_apply_writes count)
        | Remove kv gen :: ops =>
            '(s, c) ← handle_remove (with_writes s ops) (kv_entry kv) (Some gen) (counters es);
            Ok (s, with_counters es c, async_apply_writes count)
        end)
  end.

(** ** Expiration with the timer wheel *)

(** [timer_wheel.advance(now).filter_map(..).collect()]: the keys of the expired
    timers, and whether their entries are dirty.  Each event is dropped at once. *)
Fixpoint expired_keys (fuel : nat) (m : Mem K) (tw : TimerWheel) (it : TimerEventsIter) (acc : list (K * bool))
    : res (Mem K * TimerWheel * TimerEventsIter * list (K * bool)) :=
  match fuel with
  | O => Fail Diverged
  | S fuel' =>
      '(m, tw, it, ev) ← timer_next fuel m tw it;
      match ev with
      | None => Ok (m, tw, it, acc)
      | Some (Expired node) =>
          n ← deref (theap m) node;
          e ← tn_entry_info (element n);
          ei ← get_info m e;
          h ← drop_node (theap m) node;
          expired_keys fuel' (with_theap m h) tw it (acc ++ [(kh_key (key_hash ei), is_dirty ei)])
      | Some _ => expired_keys fuel' m tw it acc
      end
  end.

Definition expire_key (now : Instant) (kd : K * bool) : M unit :=
  let '(key, dirty) := kd in
  if (dirty : bool) then Ret tt
  else
    Act (fun '(s, es) =>
      '(s, removed) ← cht_remove_if_and_retire s key (fun _ vei => is_expired_by_per_entry_ttl vei now);
      Ok (s, es, match removed with
                 | Some entry => evict_removed (fun s ve c => handle_remove_without_timer_wheel s ve None c) key entry CauseExpired
                 | None => Ret tt
                 end)).

(** With the caller's check that the wheel is enabled. *)
Definition async_evict_expired_entries_using_timers (now : Instant) : M unit :=
  Act (fun '(s, es) =>
    if is_enabled (timer_wheel s) then
      let '(tw, it) := advance (timer_wheel s) now in
      '(m, tw, it, keys) ← expired_keys (wheel_fuel (mem s)) (mem s) tw it [];
      Ok (with_wheel s m (drop_iter tw it), es, for_each (expire_key now) keys)
    else Ok (s, es, Ret tt)).

(** ** Expiration and eviction from the queues *)

Definition async_skip_updated_entry_ao (r : CacheRegion) (key : K) : M unit :=
  step (fun '(s, es) => s ← skip_updated_entry_ao r s key; Ok (s, es, tt)).
Definition async_skip_updated_entry_wo (key : K) : M unit :=
  step (fun '(s, es) => s ← skip_updated_entry_wo s key; Ok (s, es, tt)).

(** The removal of an entry found at the front of an access-order queue; returns its
    weight. *)
Definition async_evict_from_ao (r : CacheRegion) (key : K) (cause : RemovalCause)
    (condition : ValueEntry V -> EntryInfo K -> bool) : M (option Z) :=
  Act (fun '(s, es) =>
    '(s, removed) ← cht_remove_if_and_retire s key condition;
    Ok (s, es, match removed with
               | Some entry =>
                   _ ← await_removal key entry cause;
                   step (fun '(s, es) =>
                     let es := with_counters es (incr_eviction_count (counters es)) in
                     ei ← get_info (mem s) (info entry);
                     '(s, c) ← handle_remove_with_deques r s entry (counters es);
                     Ok (s, with_counters es c, Some (policy_weight ei)))
               | None => _ ← async_skip_updated_entry_ao r key; Ret None
               end)).

Definition async_remove_expired_ao_step (r : CacheRegion) (tti : option Duration) (va : option Instant) (now : Instant)
    (more : bool) : M (bool * bool) :=
  Act (fun '(s, es) =>
    ao ← select_ao (deques s) r;
    front ← peek_front (kheap (mem s)) ao;
    match front with
    | None => Ok (s, es, Ret (true, false))
    | Some n =>
        ei ← get_info (mem s) (khd_entry_info (element n));
        let key := kh_key (key_hash ei) in
        Ok (s, es, match is_dirty ei, last_accessed ei with
                   | false, Some ts =>
                       match is_entry_expired_ao_or_invalid tti va ts now with
                       | (false, false) => Ret (true, false)
                       | (expired, _) =>
                           removed ← async_evict_from_ao r key (if expired then CauseExpired else CauseExplicit)
                                       (fun _ vei => is_expired_entry_ao tti va vei now);
                           Ret (false, match removed with Some _ => more | None => false end)
                       end
                   | _, _ => _ ← async_skip_updated_entry_ao r key; Ret (false, false)
                   end)
    end).

Definition set_more (more : bool) : M unit :=
  step (fun '(s, es) => Ok (s, if more then with_more es true else es, tt)).

Definition async_remove_expired_ao (r : CacheRegion) (batch_size : nat) (now : Instant) : M unit :=
  Act (fun '(s, es) =>
    let tti := time_to_idle (expiration_policy cfg) in
    let va := get_valid_after s in
    _ ← select_ao (deques s) r;
    Ok (s, es, more ← for_until batch_size (async_remove_expired_ao_step r tti va now) true; set_more more)).

Definition async_remove_expired_wo_step (ttl : option Duration) (va : option Instant) (now : Instant) (more : bool)
    : M (bool * bool) :=
  Act (fun '(s, es) =>
    front ← peek_front (kheap (mem s)) (write_order (deques s));
    match front with
    | None => Ok (s, es, Ret (true, false))
    | Some n =>
        ei ← get_info (mem s) (khd_entry_info (element n));
        let key := kh_key (key_hash ei) in
        Ok (s, es, match is_dirty ei, last_modified ei with
                   | false, Some ts =>
                       match is_entry_expired_wo_or_invalid ttl va ts now with
                       | (false, false) => Ret (true, false)
                       | (expired, _) =>
                           Act (fun '(s, es) =>
                             '(s, removed) ← cht_remove_if_and_retire s key (fun _ vei => is_expired_entry_wo ttl va vei now);
                             Ok (s, es, match removed with
                                        | Some entry =>
                                            _ ← evict_removed (fun s ve c => handle_remove s ve None c) key entry
                                                  (if expired then CauseExpired else CauseExplicit);
                                            Ret (false, more)
                                        | None => _ ← async_skip_updated_entry_wo key; Ret (false, false)
                                        end))
                       end
                   | _, _ => _ ← async_skip_updated_entry_wo key; Ret (false, false)
                   end)
    end).

Definition async_remove_expired_wo (batch_size : nat) (now : Instant) : M unit :=
  Act (fun '(s, es) =>
    let ttl := time_to_live (expiration_policy cfg) in
    let va := get_valid_after s in
    Ok (s, es, more ← for_until batch_size (async_remove_expired_wo_step ttl va now) true; set_more more)).

Definition async_evict_expired_entries_using_deqs (batch_size : nat) (now : Instant) : M unit :=
  _ ← Act (fun '(s, es) => Ok (s, es, if is_write_order_queue_enabled cfg s then async_remove_expired_wo batch_size now else Ret tt));
  Act (fun '(s, es) =>
    Ok (s, es,
        if bool_decide (is_Some (time_to_idle (expiration_policy cfg))) || has_valid_after s then
          _ ← async_remove_expired_ao Window batch_size now;
          _ ← async_remove_expired_ao MainProbation batch_size now;
          async_remove_expired_ao MainProtected batch_size now
        else Ret tt)).

Definition async_evict_lru_step (weights_to_evict : Z) (a : bool * Z) : M (bool * (bool * Z)) :=
  let '(more, evicted) := a in
  Act (fun '(s, es) =>
    if weights_to_evict <=? evicted then Ok (s, es, Ret (true, (false, evicted)))
    else
      ao ← select_ao (deques s) MainProbation;
      front ← peek_front (kheap (mem s)) ao;
      match front with
      | None => Ok (s, es, Ret (true, (false, evicted)))
      | Some n =>
          ei ← get_info (mem s) (khd_entry_info (element n));
          let key := kh_key (key_hash ei) in
          Ok (s, es, match is_dirty ei, last_accessed ei with
                     | false, Some ts =>
                         removed ← async_evict_from_ao MainProbation key CauseSize
                                     (fun _ vei => match last_accessed vei with Some la => la =? ts | None => false end);
                         Ret (false, match removed with
                                     | Some weight => (more, saturating_add 64 evicted weight)
                                     | None => (false, evicted)
                                     end)
                     | _, _ => _ ← async_skip_updated_entry_ao MainProbation key; Ret (false, (false, evicted))
                     end)
      end).

Definition async_evict_lru_entries (batch_size : nat) (weights_to_evict : Z) : M unit :=
  '(more, _) ← for_until batch_size (async_evict_lru_step weights_to_evict) (true, 0); set_more more.

(** ** Predicates *)

(** [Invalidator::invalidate] *)
Definition async_invalidate_one (key : K) (ts : Instant) : M (option (ValueEntry V)) :=
  Act (fun '(s, es) =>
    '(s, removed) ← cht_remove_if_and_retire s key
       (fun _ vei => match last_modified vei with Some lm => lm =? ts | None => false end);
    Ok (s, es, match removed with
               | Some entry => _ ← await_removal key entry CauseExplicit; Ret (Some entry)
               | None => Ret None
               end)).

Fixpoint scan_candidates (ps : list (Predicate K V)) (invalidated : list (KvEntry K V)) (candidates : list (KeyDateLite K))
    : M (list (KvEntry K V)) :=
  match candidates with
  | [] => Ret invalidated
  | kd :: candidates =>
      Act (fun '(s, es) =>
        b ← predicate_applies ps s (kdl_key kd) (kdl_timestamp kd);
        Ok (s, es, if (b : bool) then
                     removed ← async_invalidate_one (kdl_key kd) (kdl_timestamp kd);
                     scan_candidates ps (match removed with
                                         | Some entry => invalidated ++ [mkKvEntry (kdl_key kd) entry]
                                         | None => invalidated
                                         end) candidates
                   else scan_candidates ps invalidated candidates))
  end.

(** The predicates of the scan: those of the scan before, if it was cut short. *)
Definition scanned_predicates (inv : Invalidator K V) : list (Predicate K V) :=
  match scan_context inv with [] => pred_values inv | _ :: _ => scan_context inv end.
Definition with_scan_context (inv : Invalidator K V) (ps : list (Predicate K V)) : Invalidator K V :=
  mkInvalidator (predicates inv) (inv_is_empty inv) ps.

(** The result tells whether no predicate is left. *)
Definition async_scan_and_invalidate (candidates : list (KeyDateLite K)) (is_truncated : bool)
    : M (list (KvEntry K V) * bool) :=
  Act (fun '(s, es) =>
    inv ← expect_some UnwrapNone (invalidator s);
    let ps := scanned_predicates inv in
    Ok (with_invalidator s (Some (with_scan_context inv ps)), es,
        invalidated ← scan_candidates ps [] candidates;
        step (fun '(s, es) =>
          inv ← expect_some UnwrapNone (invalidator s);
          inv ← remove_finished_predicates (with_scan_context inv ps) is_truncated (kdl_timestamp <$> last candidates);
          Ok (with_invalidator s (Some inv), es, (invalidated, map_is_empty (predicates inv)))))).

Definition async_invalidate_entries (batch_size : nat) (now : Instant) : M unit :=
  Act (fun '(s, es) =>
    inv ← expect_some UnwrapNone (invalidator s);
    if len (write_order (deques s)) =? 0 then
      Ok (with_invalidator s (Some (remove_predicates_registered_before inv now)), es, Ret tt)
    else
      '(deq, candidates) ← collect_candidates cfg (S (Z.to_nat (len (write_order (deques s))))) batch_size s
                             (write_order (deques s)) [];
      '(deq, o) ← iter_next (kheap (mem s)) deq;
      let has_next := bool_decide (is_Some o) in
      let s := with_deques s (mem s) (set_write_order (deques s) deq) in
      Ok (s, es,
          if (length candidates =? 0)%nat then Ret tt
          else
            '(invalidated, is_done) ← async_scan_and_invalidate candidates ((length candidates =? batch_size)%nat && has_next);
            _ ← for_each (fun kv => step (fun '(s, es) =>
                  '(s, c) ← handle_remove s (kv_entry kv) None (counters es); Ok (s, with_counters es c, tt))) invalidated;
            step (fun '(s, es) =>
              inv ← expect_some UnwrapNone (invalidator s);
              let s := if (is_done : bool)
                       then with_deques s (mem s) (set_write_order (deques s) (reset_cursor (write_order (deques s))))
                       else s in
              Ok (s, if inv_is_empty inv then es else with_more es true, tt)))).

(** ** The rounds *)

Definition async_process_logs : M unit :=
  _ ← Act (fun '(s, es) => Ok (s, es, async_apply_reads (length (read_op_ch s))));
  _ ← Act (fun '(s, es) => Ok (s, es, async_apply_writes (length (write_op_ch s))));
  step (fun '(s, es) =>
    Ok (if bool_decide (eviction_policy cfg = TinyLfu) && should_enable_frequency_sketch cfg s (counters es)
        then enable_frequency_sketch cfg s (counters es) else s, es, tt)).

Definition async_evict_round (batch_size : nat) (t : Readings) : M unit :=
  _ ← async_evict_expired_entries_using_timers (at_timers t);
  _ ← Act (fun '(s, es) => Ok (s, es, if has_expiry cfg || has_valid_after s
                                      then async_evict_expired_entries_using_deqs batch_size (at_deqs t) else Ret tt));
  _ ← Act (fun '(s, es) => Ok (s, es, match invalidator s with
                                      | Some inv => if inv_is_empty inv then Ret tt else async_invalidate_entries batch_size (at_invalidation t)
                                      | None => Ret tt
                                      end));
  Act (fun '(s, es) =>
    let w := weights_to_evict cfg (counters es) in
    Ok (s, es, if 0 <? w then async_evict_lru_entries batch_size w else Ret tt)).

(** ** The run *)

(** What a run was started with. *)
Record RunArgs := mkRunArgs {
  ra_readings : nat -> Readings;
  ra_timeout : option (Duration * Instant);
  ra_repeats : Z;
  ra_batch_size : nat;
  ra_entry_count : Z;
  ra_weighted_size : Z
}.

(** A suspended run: the eviction state, what is left of the part of the round it is
    in (the logs, or the evictions), and the variables of the loop. *)
Record Run := mkRun {
  run_state : EvictionState;
  run_prog : M unit;
  run_evicting : bool;
  run_round : nat;
  run_calls : Z;
  run_last_eviction_count : Z
}.

Definition start_evicting (a : RunArgs) es (round : nat) (calls : Z) : Run :=
  let es := with_more es false in
  mkRun es (async_evict_round (ra_batch_size a) (ra_readings a round)) true round calls (ec_eviction_count (counters es)).
Definition start_round (a : RunArgs) es (round : nat) (calls : Z) (should_process_logs : bool) : Run :=
  if should_process_logs then mkRun es async_process_logs false round calls 0 else start_evicting a es round calls.

(** [do_run_pending_tasks] up to its loop. *)
Definition run_args (rd : nat -> Readings) (started : Instant) s (timeout : option Duration) (max_log_sync_repeats : Z)
    (batch_size : nat) : RunArgs :=
  mkRunArgs rd ((fun t => (t, started)) <$> timeout) max_log_sync_repeats batch_size (entry_count s) (weighted_size s).
Definition start_run (a : RunArgs) : Run :=
  start_round a (new_eviction_state (ra_entry_count a) (ra_weighted_size a)) 0 0 true.

(** The end of a round: another one, or the end of the run. *)
Definition end_round (a : RunArgs) (t : Run) s : res (Inner K V * (Run + bool)) :=
  let es := run_state t in
  let should_process_logs :=
    (run_calls t <=? ra_repeats a) &&
    ((READ_LOG_FLUSH_POINT <=? Z.of_nat (length (read_op_ch s))) ||
     (WRITE_LOG_FLUSH_POINT <=? Z.of_nat (length (write_op_ch s)))) in
  diff ← checked_sub (ec_eviction_count (counters es)) (run_last_eviction_count t);
  let should_evict_more_entries := more_entries_to_evict es && (0 <? diff) in
  if (negb should_process_logs && negb should_evict_more_entries) ||
     match ra_timeout a with
     | Some (d, started) => d <=? saturating_duration_since (at_end (ra_readings a (run_round t))) started
     | None => false
     end
  then
    _ ← assert_that (entry_count s =? ra_entry_count a);
    _ ← assert_that (weighted_size s =? ra_weighted_size a);
    Ok (with_counts s (ec_entry_count (counters es)) (ec_weighted_size (counters es)), inr (more_entries_to_evict es))
  else Ok (s, inl (start_round a es (S (run_round t)) (run_calls t) should_process_logs)).

(** One step of the run. *)
Definition run_step (a : RunArgs) (t : Run) s : res (Inner K V * (Run + bool)) :=
  match run_prog t with
  | Act f =>
      '(s, es, p) ← f (s, run_state t);
      Ok (s, inl (mkRun es p (run_evicting t) (run_round t) (run_calls t) (run_last_eviction_count t)))
  | Ret _ =>
      if run_evicting t then end_round a t s
      else
        calls ← checked_add 32 (run_calls t) 1;
        Ok (s, inl (start_evicting a (run_state t) (run_round t) calls))
  end.

(** The rest of the run without interruption. *)
Fixpoint finish_run (fuel : nat) (a : RunArgs) (t : Run) s : res (Inner K V * bool) :=
  match fuel with
  | O => Fail Diverged
  | S fuel =>
      '(s, r) ← run_step a t s;
      match r with inl t => finish_run fuel a t s | inr more => Ok (s, more) end
  end.
End run.
Arguments Run K V {_ _}.
