(* ===== verification/FutureRunInv.v ===== *)
(** The suspended maintenance run ([FutureRun]) under interference.

    A small logic of programs: [triple P p Q] says that [p], started where the memory
    satisfies [P], takes no faulting step, keeps the engine's invariant at each one,
    and ends where [Q] holds, whatever other tasks do to the cache between the
    steps, as long as they keep the invariant, forget no entry and admit none.  The
    writes that a run has taken from the log and not applied yet are its reserve:
    the counters have room for them. *)
From S2P Require Import Prelude Common FrequencySketch Deque Time Housekeeper EntryInfo Concurrent Deques.
From S2P Require Import TimerWheel Policy Invalidator Inner BaseCache InnerInv InnerRemove Admission Eviction Scan Maintenance.
From S2P Require Import FutureOps FutureRun.

Section logic.
Context {K V : Type} `{Countable K}.
Variable cfg : Config K V.
(** Whether the cache has an invalidator. *)
Variable inv_on : bool.
Implicit Types (s : Inner K V) (es : EvictionState) (ve : ValueEntry V) (m : Mem K) (r : list (WriteOp K V)) (op : WriteOp K V).
Notation M := (prog (Inner K V * EvictionState)).

(** What other tasks may do to the entries. *)
Definition env_le m m' : Prop := mem_le m m' /\ unadmitted m m'.

#[export] Instance env_le_refl : Reflexive env_le.
Proof. intros m. by split. Qed.
#[export] Instance env_le_trans : Transitive env_le.
Proof. intros m1 m2 m3 [L1 U1] [L2 U2]. split; [by transitivity m2|by transitivity m2]. Qed.

Record run_ok s es r : Prop := {
  ro_good : good cfg [] s (counters es);
  ro_evictions : ec_eviction_count (counters es) <= U64_MAX;
  ro_enabled : is_Some (invalidator s) <-> inv_on = true;
  ro_reserve : forall op, op ∈ r -> write_wf (mem s) op;
  ro_entries : ec_entry_count (counters es) + log_entries (write_op_ch s) + log_entries r <= U64_MAX;
  ro_weight : ec_weighted_size (counters es) + log_weight (write_op_ch s) + log_weight r <= U64_MAX
}.

(** What a step of the run guarantees. *)
Record step_ok s es r s' es' r' : Prop := {
  so_good : good cfg [] s' (counters es');
  so_mem : mem_le (mem s) (mem s');
  so_view : same_view (mem s) (mem s');
  so_cache : cache s' ⊆ cache s;
  so_counts : entry_count s' = entry_count s /\ weighted_size s' = weighted_size s;
  so_valid : valid_after s' = valid_after s;
  so_enabled : is_Some (invalidator s') <-> is_Some (invalidator s);
  so_logs : (length (read_op_ch s') <= length (read_op_ch s))%nat /\ (length (write_op_ch s') <= length (write_op_ch s))%nat;
  so_reserve : forall op, op ∈ r' -> write_wf (mem s') op;
  so_entries : ec_entry_count (counters es') + log_entries (write_op_ch s') + log_entries r' <=
               ec_entry_count (counters es) + log_entries (write_op_ch s) + log_entries r;
  so_weight : ec_weighted_size (counters es') + log_weight (write_op_ch s') + log_weight r' <=
              ec_weighted_size (counters es) + log_weight (write_op_ch s) + log_weight r;
  so_evictions : ec_eviction_count (counters es) <= ec_eviction_count (counters es') <= U64_MAX
}.

(** The program [p] with the reserve [r], last seen with the memory [m]. *)
Fixpoint safe {A} (Q : A -> list (WriteOp K V) -> Mem K -> Prop) (p : M A) r m : Prop :=
  match p with
  | Ret a => Q a r m
  | Act f => forall s es, env_le m (mem s) -> run_ok s es r ->
      match f (s, es) with
      | Ok (s', es', p') => exists r', step_ok s es r s' es' r' /\ safe Q p' r' (mem s')
      | Fail _ => False
      end
  end.

Lemma safe_act {A} (Q : A -> list (WriteOp K V) -> Mem K -> Prop) f r m :
  (forall s es, env_le m (mem s) -> run_ok s es r -> exists s' es' p' r', f (s, es) = Ok (s', es', p') /\
     step_ok s es r s' es' r' /\ safe Q p' r' (mem s')) ->
  safe Q (Act f) r m.
Proof. intros Hf s es Hm Hr. destruct (Hf s es Hm Hr) as (s' & es' & p' & r' & -> & Hs & Hp). eauto. Qed.

Lemma safe_bind {A B} (Q1 : A -> list (WriteOp K V) -> Mem K -> Prop) (Q2 : B -> list (WriteOp K V) -> Mem K -> Prop) (p : M A) (k : A -> M B) : forall r m,
  safe Q1 p r m -> (forall a r' m', Q1 a r' m' -> safe Q2 (k a) r' m') -> safe Q2 (p ≫= k) r m.
Proof.
  revert p. fix IH 1. intros [a|f] r m Hp Hk; [by apply Hk|].
  intros s es Hm Hr. specialize (Hp s es Hm Hr). cbn in Hp |- *.
  destruct (f (s, es)) as [[[s' es'] p']|]; [|done]. cbn. destruct Hp as (r' & Hs & Hp). exists r'. split; [done|].
  by apply (IH p').
Qed.

Lemma safe_mono {A} (Q1 Q2 : A -> list (WriteOp K V) -> Mem K -> Prop) (p : M A) : forall r m,
  (forall a r' m', Q1 a r' m' -> Q2 a r' m') -> safe Q1 p r m -> safe Q2 p r m.
Proof.
  revert p. fix IH 1. intros [a|f] r m HQ Hp; [by apply HQ|].
  intros s es Hm Hr. specialize (Hp s es Hm Hr). cbn in Hp |- *. destruct (f (s, es)) as [[[s' es'] p']|]; [|done].
  destruct Hp as (r' & Hs & Hp). exists r'. split; [done|]. by apply (IH p').
Qed.

(** ** Triples *)

Definition triple {A} (P : Mem K -> Prop) (p : M A) (Q : A -> Mem K -> Prop) : Prop :=
  forall r m, P m -> safe (fun a r' m' => r' = r /\ env_le m m' /\ Q a m') p r m.

(** Programs that need no assumption and admit nothing. *)
Definition quietly {A} (p : M A) : Prop := triple (fun _ => True) p (fun _ _ => True).

Definition stable (P : Mem K -> Prop) : Prop := forall m m', env_le m m' -> P m -> P m'.

Lemma triple_ret {A} (P : Mem K -> Prop) (Q : A -> Mem K -> Prop) a : (forall m, P m -> Q a m) -> triple P (Ret a) Q.
Proof. intros HQ r m HP. cbn. split; [done|]. split; [done|auto]. Qed.

Lemma triple_act {A} (P : Mem K -> Prop) (Q : A -> Mem K -> Prop) f : stable P ->
  (forall s es r, P (mem s) -> run_ok s es r -> exists s' es' p' R, f (s, es) = Ok (s', es', p') /\
     step_ok s es r s' es' r /\ unadmitted (mem s) (mem s') /\ R (mem s') /\ triple R p' Q) ->
  triple P (Act f) Q.
Proof.
  intros HP Hf r m Hm. apply safe_act. intros s es Hle Hr.
  destruct (Hf s es r (HP _ _ Hle Hm) Hr) as (s' & es' & p' & R & E & Hs & Hu & HR & Hp).
  exists s', es', p', r. do 2 (split; [done|]). eapply safe_mono; [|apply Hp, HR].
  intros a r' m' (-> & Hle' & HQ). split; [done|]. split; [|done]. transitivity (mem s); [done|]. transitivity (mem s'); [|done].
  split; [apply Hs|done].
Qed.

Lemma triple_step {A} (P : Mem K -> Prop) (Q : A -> Mem K -> Prop) f : stable P ->
  (forall s es r, P (mem s) -> run_ok s es r -> exists s' es' a, f (s, es) = Ok (s', es', a) /\
     step_ok s es r s' es' r /\ unadmitted (mem s) (mem s') /\ Q a (mem s')) ->
  triple P (step f) Q.
Proof.
  intros HP Hf. apply triple_act; [done|]. intros s es r Hm Hr. destruct (Hf s es r Hm Hr) as (s' & es' & a & -> & Hs & Hu & HQ).
  exists s', es', (Ret a), (Q a). do 4 (split; [done|]). by apply triple_ret.
Qed.

Lemma triple_bind {A B} P (Q1 : A -> Mem K -> Prop) (Q2 : B -> Mem K -> Prop) (p : M A) (k : A -> M B) :
  triple P p Q1 -> (forall a, triple (Q1 a) (k a) Q2) -> triple P (p ≫= k) Q2.
Proof.
  intros Hp Hk r m Hm. eapply safe_bind; [by apply Hp|]. intros a r' m' (-> & Hle & HQ). eapply safe_mono; [|by apply Hk].
  intros b r2 m2 (-> & Hle2 & HQ2). split; [done|]. split; [by transitivity m'|done].
Qed.

(** What a program does not touch stays true. *)
Lemma triple_frame {A} (F P : Mem K -> Prop) (p : M A) Q :
  stable F -> triple P p Q -> triple (fun m => F m /\ P m) p (fun a m => F m /\ Q a m).
Proof.
  intros HF Hp r m [Hm HP]. eapply safe_mono; [|by apply Hp]. intros a r' m' (-> & Hle & HQ). split; [done|]. split; [done|].
  split; [by eapply HF|done].
Qed.

Lemma triple_conseq {A} (P P' : Mem K -> Prop) (p : M A) (Q Q' : A -> Mem K -> Prop) :
  (forall m, P' m -> P m) -> (forall a m, Q a m -> Q' a m) -> triple P p Q -> triple P' p Q'.
Proof. intros HP HQ Hp r m Hm. eapply safe_mono; [|by apply Hp, HP]. intros a r' m' (? & ? & ?). auto. Qed.

Lemma quietly_bind {A B} (p : M A) (k : A -> M B) : quietly p -> (forall a, quietly (k a)) -> quietly (p ≫= k).
Proof. intros Hp Hk. by eapply triple_bind. Qed.
Lemma quietly_ret {A} (a : A) : quietly (Ret a).
Proof. by apply triple_ret. Qed.
Lemma quietly_from {A} (P : Mem K -> Prop) (p : M A) Q : (forall m, P m) -> triple P p Q -> quietly p.
Proof. intros HP. by apply triple_conseq. Qed.
Lemma triple_quiet {A} (P : Mem K -> Prop) (p : M A) : quietly p -> triple P p (fun _ _ => True).
Proof. by apply triple_conseq. Qed.

Lemma quietly_for_each {A} (f : A -> M unit) l : (forall x, quietly (f x)) -> quietly (for_each f l).
Proof. intros Hf. induction l as [|x l IH]; [apply quietly_ret|]. by apply quietly_bind. Qed.
Lemma quietly_for_until {B} n (f : B -> M (bool * B)) b : (forall b, quietly (f b)) -> quietly (for_until n f b).
Proof.
  intros Hf. revert b. induction n as [|n IH]; intros b; [apply quietly_ret|]. apply quietly_bind; [done|].
  intros [[] b']; [apply quietly_ret|apply IH].
Qed.

Lemma stable_true : stable (fun _ => True).
Proof. done. Qed.

(** An entry the run has taken out of the table. *)
Definition retired_ent ve m : Prop := ent_wf m ve /\ exists ei, infos m !! info ve = Some ei /\ is_retired ei = true.
Lemma stable_retired ve : stable (retired_ent ve).
Proof.
  intros m m' [L _] [Hve (ei & He & Hr)]. split; [by eapply ent_wf_le|]. destruct (L _ _ He) as (ei' & He' & _ & Hr'). eauto.
Qed.
Lemma stable_ent ve : stable (fun m => ent_wf m ve).
Proof. intros m m' [L _] Hve. by eapply ent_wf_le. Qed.
Lemma stable_retired_in (l : list (KvEntry K V)) : stable (fun m => retired_in m l).
Proof. intros m m' [L _]. by apply retired_in_le. Qed.

(** ** Steps from the engine's lemmas *)

Lemma reserve_le (m m' : Mem K) r : mem_le m m' -> (forall op, op ∈ r -> write_wf m op) -> forall op, op ∈ r -> write_wf m' op.
Proof. intros L Hr op Hop. eapply write_wf_le; [exact L|auto]. Qed.

Lemma evolves_step s es r s' es' :
  run_ok s es r -> good cfg [] s' (counters es') -> evolves 0 0 s (counters es) s' (counters es') ->
  step_ok s es r s' es' r /\ unadmitted (mem s) (mem s').
Proof.
  intros [G Hv Hio Hr He Hw] G' Ev. split; [|by apply (ev_unadmitted Ev)]. split; try apply Ev; try done.
  - rewrite (ev_reads Ev), (ev_writes Ev). done.
  - eapply reserve_le; [apply Ev|done].
  - rewrite (ev_writes Ev). pose proof (ev_ec Ev). lia.
  - rewrite (ev_writes Ev). pose proof (ev_ws Ev). lia.
Qed.

(** Only the eviction state changes. *)
Lemma same_step s es r es' : run_ok s es r ->
  ec_entry_count (counters es') = ec_entry_count (counters es) -> ec_weighted_size (counters es') = ec_weighted_size (counters es) ->
  ec_eviction_count (counters es) <= ec_eviction_count (counters es') <= U64_MAX -> step_ok s es r s es' r.
Proof.
  intros [G Hv Hio Hr He Hw] E1 E2 E3. split; try done; rewrite ?E1, ?E2; try lia. by eapply good_counters.
Qed.
Lemma stay_step s es r : run_ok s es r -> step_ok s es r s es r.
Proof. intros Hr. apply same_step; try done. by split; [|apply Hr]. Qed.
Lemma incr_range es : ec_eviction_count (counters es) <= U64_MAX ->
  ec_eviction_count (counters es) <= ec_eviction_count (incr_eviction_count (counters es)) <= U64_MAX.
Proof. intros Hv. cbn. unfold saturating_add, U64_MAX in *. lia. Qed.

(** A step that decides what to do next. *)
Lemma quietly_choose {A} (f : Inner K V -> EvictionState -> M A) : (forall s es, quietly (f s es)) ->
  quietly (Act (fun '(s, es) => Ok (s, es, f s es))).
Proof.
  intros Hf. apply triple_act; [done|]. intros s es r _ Hr. exists s, es, (f s es), (fun _ => True). split; [done|].
  split; [by apply stay_step|]. split; [done|]. split; [done|apply Hf].
Qed.

(** A handler that only evolves the state. *)
Lemma quietly_evolve (f : Inner K V -> EvictionState -> res (Inner K V * EvictionState)) :
  (forall s es, good cfg [] s (counters es) -> runs_es cfg 0 0 s es (f s es)) ->
  quietly (step (fun '(s, es) => '(s, es) ← f s es; Ok (s, es, tt))).
Proof.
  intros Hf. apply triple_step; [done|]. intros s es r _ Hr. destruct (Hf s es (ro_good _ _ _ Hr)) as (s' & es' & -> & G & Ev).
  exists s', es', tt. split; [done|]. destruct (evolves_step s es r s' es' Hr G Ev). done.
Qed.

(** *** The removal of an entry *)

Lemma step_run_ok s es r s' es' r' : run_ok s es r -> step_ok s es r s' es' r' -> run_ok s' es' r'.
Proof.
  intros [G Hv Hio Hr He Hw] [G' _ _ _ _ _ Hen _ Hr' He' Hw' Hv']. split; try done; try lia. by rewrite Hen.
Qed.

Lemma step_ok_trans s es r s1 es1 r1 s2 es2 r2 : step_ok s es r s1 es1 r1 -> step_ok s1 es1 r1 s2 es2 r2 -> step_ok s es r s2 es2 r2.
Proof.
  intros [G1 M1 X1 C1 [N1 W1] V1 I1 [L1 L1'] R1 E1 F1 T1] [G2 M2 X2 C2 [N2 W2] V2 I2 [L2 L2'] R2 E2 F2 T2].
  split; try done; try lia; try (by etransitivity).
Qed.

(** An entry is taken out of the table and retired, or nothing happens. *)
Lemma removal_step s es r (key : K) cond : run_ok s es r ->
  cht_remove_if_and_retire s key cond = Ok (s, None) \/
  exists ve s', cht_remove_if_and_retire s key cond = Ok (s', Some ve) /\ step_ok s es r s' es r /\ unadmitted (mem s) (mem s') /\
    retired_ent ve (mem s').
Proof.
  intros Hr. destruct (ro_good _ _ _ Hr) as (Hws & P & Q & B & I).
  destruct (cht_remove_step cfg s P Q B [] _ key cond I) as [->|
    (ve & ei & ei' & s' & Hc & He & _ & -> & Es & I' & Hve & He' & Hre & _ & _ & _ & L & U & X)]; [by left|].
  right. exists ve, s'. split; [done|]. split; [|split; [done|]; split; [done|eauto]].
  destruct Hr as [G Hv Hio Hr Hen Hwe]. split; try done; try (rewrite Es; done).
  - split; [done|eauto].
  - rewrite Es. apply delete_subseteq.
  - by eapply reserve_le.
Qed.

Lemma remove_act {A} (key : K) cond (P : Mem K -> Prop) (k : option (ValueEntry V) -> M A) (Q : A -> Mem K -> Prop) : stable P ->
  triple P (k None) Q ->
  (forall ve, triple (fun m => P m /\ retired_ent ve m) (k (Some ve)) Q) ->
  triple P (Act (fun '(s, es) => '(s, removed) ← cht_remove_if_and_retire s key cond; Ok (s, es, k removed))) Q.
Proof.
  intros HP Hnone Hsome. apply triple_act; [done|]. intros s es r Hm Hr.
  destruct (removal_step s es r key cond Hr) as [->|(ve & s' & -> & Hs & Hu & Hve)]; cbn [mbind res_bind].
  - exists s, es, (k None), P. split; [done|]. split; [by apply stay_step|]. done.
  - exists s', es, (k (Some ve)), (fun m => P m /\ retired_ent ve m). do 3 (split; [done|]). split; [|apply Hsome].
    split; [|done]. apply (HP (mem s)); [split; [apply Hs|done]|done].
Qed.

(** The removal of an entry the run makes nothing else of. *)
Lemma remove_quiet {A} (key : K) cond (k : option (ValueEntry V) -> M A) :
  quietly (k None) -> (forall ve, triple (retired_ent ve) (k (Some ve)) (fun _ _ => True)) ->
  quietly (Act (fun '(s, es) => '(s, removed) ← cht_remove_if_and_retire s key cond; Ok (s, es, k removed))).
Proof.
  intros Hn Hs. apply remove_act; [done|done|]. intros ve. eapply triple_conseq; [| |apply Hs]; [by intros m [_ ?]|done].
Qed.

Lemma quietly_notifier (f : Inner K V -> option (RemovalNotifier K V)) s es r :
  run_ok s es r -> step_ok s es r (with_notifier s (f s)) es r.
Proof.
  intros [G Hv Hio Hr He Hw]. split; try done. destruct G as (Hws & P & Q & B & I). split; [done|]. exists P, Q, B. by apply inv_notifier.
Qed.

Lemma await_quiet (key : K) ve cause : quietly (await_removal key ve cause).
Proof.
  apply triple_act; [done|]. intros s es r _ Hr. destruct (removal_notifier s) as [n|] eqn:En.
  - destruct (poll_notify n _ false) as [n' f] eqn:Ep. eexists _, es, _, (fun _ => True). split; [reflexivity|].
    split; [by apply (quietly_notifier (fun _ => Some n'))|]. do 2 (split; [done|]).
    apply triple_step; [done|]. intros s1 es1 r1 _ Hr1. eexists _, es1, tt. split; [reflexivity|]. unfold notify_now.
    destruct (removal_notifier s1) as [n1|] eqn:E1; [|split; [by apply stay_step|done]].
    split; [by apply (quietly_notifier (fun _ => Some (fst (poll_notify n1 f true))))|done].
  - exists s, es, (Ret tt), (fun _ => True). split; [done|]. split; [by apply stay_step|]. do 2 (split; [done|]). apply quietly_ret.
Qed.

Lemma await_keeps (F : Mem K -> Prop) (key : K) ve cause : stable F -> triple F (await_removal key ve cause) (fun _ => F).
Proof.
  intros HF. eapply triple_conseq; [| |apply (triple_frame F (fun _ => True)); [done|apply await_quiet]]; [done|]. by intros a m [? _].
Qed.

Lemma evict_removed_quiet handle (key : K) ve cause :
  (forall s c, good cfg [] s c -> retired_ent ve (mem s) -> runs cfg 0 0 [] s c (handle s ve c)) ->
  triple (retired_ent ve) (evict_removed handle key ve cause) (fun _ _ => True).
Proof.
  intros Hh. eapply triple_bind; [apply await_keeps, stable_retired|]. intros []. apply triple_step; [apply stable_retired|].
  intros s es r Hve Hr. cbn [counters with_counters].
  pose proof (incr_range es (ro_evictions _ _ _ Hr)) as Hi.
  destruct (Hh s (incr_eviction_count (counters es)) (good_incr cfg [] s _ (ro_good _ _ _ Hr)) Hve) as (s' & c' & -> & G & Ev).
  cbn [mbind res_bind]. eexists _, _, tt. split; [reflexivity|].
  assert (Hr' : run_ok s (with_counters es (incr_eviction_count (counters es))) r).
  { destruct Hr as [G0 Hv Hio Hr He Hw]. split; try done. apply Hi. }
  destruct (evolves_step s _ r s' (with_counters es c') Hr' G Ev) as [[] Hu]. split; [|done]. split; try done.
  cbn in so_evictions0 |- *. cbn in Hi. lia.
Qed.

Lemma handle_remove_quiet ve s c : good cfg [] s c -> retired_ent ve (mem s) -> runs cfg 0 0 [] s c (handle_remove s ve None c).
Proof. intros G [Hve (ei & He & Hr)]. by eapply handle_remove_spec. Qed.
Lemma handle_remove_timer_quiet ve s c : good cfg [] s c -> retired_ent ve (mem s) ->
  runs cfg 0 0 [] s c (handle_remove_without_timer_wheel s ve None c).
Proof.
  intros G [Hve (ei & He & Hr)]. destruct (handle_remove_without_timer_wheel_spec cfg [] s c ve None ei G Hve He Hr) as (s' & c' & E & G' & Ev & _); [done|].
  by exists s', c'.
Qed.

(** ** The programs of the run *)

Lemma reads_quiet n : quietly (async_apply_reads cfg n).
Proof.
  induction n as [|n IH]; [apply quietly_ret|]. apply triple_act; [done|]. intros s es r _ Hr.
  destruct (read_op_ch s) as [|op ops] eqn:Hops.
  { exists s, es, (Ret tt), (fun _ => True). split; [done|]. split; [by apply stay_step|]. do 2 (split; [done|]). apply quietly_ret. }
  destruct (ro_good _ _ _ Hr) as (Hws & P & Q & B & I). pose proof (i_reads I) as Hwf. rewrite Hops in Hwf.
  assert (G1 : good cfg [] (with_reads s ops) (counters es)).
  { split; [done|]. exists P, Q, B. apply inv_reads; [done|]. intros o Ho. apply Hwf. by right. }
  assert (H1 : step_ok s es r (with_reads s ops) es r).
  { destruct Hr as [_ Hv Hio Hr He Hw]. split; try done. rewrite Hops. cbn. lia. }
  pose proof (step_run_ok _ _ _ _ _ _ Hr H1) as Hr1.
  destruct (apply_read_spec cfg (with_reads s ops) (counters es) op G1) as (s' & -> & G2 & Ev); [apply Hwf; left|]. cbn [mbind res_bind].
  destruct (evolves_step _ _ _ _ es Hr1 G2 Ev) as [H2 Hu].
  exists s', es, (async_apply_reads cfg n), (fun _ => True). split; [done|]. split; [by eapply step_ok_trans|]. done.
Qed.

Lemma victim_quiet vic : quietly (async_remove_victim (K := K) (V := V) vic).
Proof.
  destruct vic as [kh la]. apply triple_act; [done|]. intros s es r _ Hr.
  destruct (removal_step s es r (kh_key kh) (fun _ ei => bool_decide (last_accessed ei = la)) Hr) as [->|(ve & s' & -> & Hs & Hu & Hve)]; cbn [mbind res_bind].
  - pose proof (stay_step _ _ _ Hr) as Hst. destruct (ro_good _ _ _ Hr) as (Hws & P & Q & B & I).
    destruct (probation_front cfg _ _ _ _ _ _ I) as [(_ & -> & _)|(n & ei & h & d & -> & He & Em & [P' I'] & Ev)]; cbn [mbind res_bind].
    { exists s, es, (Ret tt), (fun _ => True). do 4 (split; [done|]). apply quietly_ret. }
    unfold khd_key, khd_hash. rewrite (get_info_ok _ _ _ He). cbn [mbind res_bind]. rewrite Em. cbn [mbind res_bind]. destruct (_ && _).
    + destruct (evolves_step s es r _ es Hr (conj Hws (ex_intro _ P' (ex_intro _ Q (ex_intro _ B I')))) (Ev _)) as [Hs Hu].
      eexists _, es, (Ret tt), (fun _ => True). split; [reflexivity|]. do 3 (split; [done|]). apply quietly_ret.
    + exists s, es, (Ret tt), (fun _ => True). do 4 (split; [done|]). apply quietly_ret.
  - eexists s', es, _, (retired_ent ve). split; [reflexivity|]. do 3 (split; [done|]). apply evict_removed_quiet, handle_remove_quiet.
Qed.

Lemma expire_quiet now kd : quietly (expire_key (K := K) (V := V) now kd).
Proof.
  destruct kd as [key []]; [apply quietly_ret|]. apply remove_quiet; [apply quietly_ret|]. intros ve.
  apply evict_removed_quiet, handle_remove_timer_quiet.
Qed.

Lemma skip_ao_quiet key : quietly (async_skip_updated_entry_ao (K := K) (V := V) MainProbation key).
Proof.
  apply triple_step; [done|]. intros s es r _ Hr.
  destruct (skip_updated_entry_ao_spec cfg s (counters es) key (ro_good _ _ _ Hr)) as (s' & -> & G & Ev). cbn [mbind res_bind].
  exists s', es, tt. split; [done|]. by destruct (evolves_step s es r s' es Hr G Ev).
Qed.
Lemma skip_wo_quiet key : quietly (async_skip_updated_entry_wo (K := K) (V := V) key).
Proof.
  apply triple_step; [done|]. intros s es r _ Hr.
  destruct (skip_updated_entry_wo_spec cfg s (counters es) key (ro_good _ _ _ Hr)) as (s' & -> & G & Ev). cbn [mbind res_bind].
  exists s', es, tt. split; [done|]. by destruct (evolves_step s es r s' es Hr G Ev).
Qed.

Lemma set_more_quiet b : quietly (set_more (K := K) (V := V) b).
Proof.
  apply triple_step; [done|]. intros s es r _ Hr. eexists s, _, tt. split; [reflexivity|]. split; [|done].
  pose proof (ro_evictions _ _ _ Hr). by apply same_step; destruct b.
Qed.

Lemma evict_from_ao_quiet key cause cond : quietly (async_evict_from_ao (K := K) (V := V) MainProbation key cause cond).
Proof.
  apply remove_quiet.
  - apply quietly_bind; [apply skip_ao_quiet|]. intros _. apply quietly_ret.
  - intros ve. eapply triple_bind; [apply await_keeps, stable_retired|]. intros []. apply triple_step; [apply stable_retired|].
    intros s es r [Hve (ei & He & Hre)] Hr. cbn [counters with_counters]. rewrite (get_info_ok _ _ _ He). cbn [mbind res_bind].
    set (es1 := with_counters es (incr_eviction_count (counters es))).
    assert (H1 : step_ok s es r s es1 r) by (apply same_step; try done; by apply incr_range, Hr).
    pose proof (step_run_ok _ _ _ _ _ _ Hr H1) as Hr1.
    destruct (handle_remove_with_deques_spec cfg s (counters es1) ve ei (ro_good _ _ _ Hr1) Hve He Hre) as (s' & c' & E & G & Ev).
    cbn [counters es1 with_counters] in E. rewrite E. cbn [mbind res_bind]. eexists _, _, _. split; [reflexivity|].
    destruct (evolves_step s es1 r s' (with_counters es1 c') Hr1 G Ev) as [H2 Hu]. split; [exact (step_ok_trans _ _ _ _ _ _ _ _ _ H1 H2)|done].
Qed.

(** *** Expiration and eviction *)

Lemma expired_ao_step_quiet tti va now more : quietly (async_remove_expired_ao_step (K := K) (V := V) MainProbation tti va now more).
Proof.
  apply triple_act; [done|]. intros s es r _ Hr. pose proof (stay_step _ _ _ Hr) as Hst. cbn [select_ao mbind res_bind].
  destruct (ro_good _ _ _ Hr) as (Hws & P & Q & B & I).
  destruct (probation_front cfg _ _ _ _ _ _ I) as [(_ & -> & _)|(n & ei & h & d & -> & He & _)]; cbn [mbind res_bind].
  { exists s, es, (Ret (true, false)), (fun _ => True). do 4 (split; [done|]). apply quietly_ret. }
  rewrite (get_info_ok _ _ _ He). cbn [mbind res_bind]. eexists s, es, _, (fun _ => True). split; [reflexivity|]. do 3 (split; [done|]).
  assert (Hskip : quietly (_ ← async_skip_updated_entry_ao (K := K) (V := V) MainProbation (kh_key (key_hash ei)); Ret (false, false))).
  { apply quietly_bind; [apply skip_ao_quiet|]. intros _. apply quietly_ret. }
  destruct (is_dirty ei); [done|]. destruct (last_accessed ei) as [ts|]; [|done].
  destruct (is_entry_expired_ao_or_invalid tti va ts now) as [[] []]; [..|apply quietly_ret].
  all: apply quietly_bind; [apply evict_from_ao_quiet|]; intros o; apply quietly_ret.
Qed.

(** The queues that are never used. *)
Lemma unused_ao s es (g : CacheRegion) r : run_ok s es r -> g = Window \/ g = MainProtected ->
  exists d, select_ao (deques s) g = Ok d /\ peek_front (kheap (mem s)) d = Ok None.
Proof.
  intros Hr Hw. destruct (ro_good _ _ _ Hr) as (_ & P & Q & B & I). pose proof (i_deqs I) as D. unfold peek_front.
  destruct Hw as [-> | ->]; cbn; eexists; (split; [reflexivity|]); [by rewrite (di_window _ _ _ _ D)|by rewrite (di_protected _ _ _ _ D)].
Qed.

Lemma expired_ao_quiet (g : CacheRegion) n now : g <> Other -> quietly (async_remove_expired_ao cfg g n now).
Proof.
  intros Hg. apply triple_act; [done|]. intros s es r _ Hr.
  assert (Hsel : exists d, select_ao (deques s) g = Ok d) by (destruct g; cbn; eauto; done).
  destruct Hsel as [d ->]. cbn [mbind res_bind]. eexists s, es, _, (fun _ => True). split; [reflexivity|]. split; [by apply stay_step|].
  do 2 (split; [done|]). apply quietly_bind; [|apply set_more_quiet]. apply quietly_for_until.
  generalize (get_valid_after s). intros va more. clear s es r d Hr.
  assert (Hunused : g = Window \/ g = MainProtected \/ g = MainProbation) by (destruct g; auto; done).
  destruct Hunused as [Hw|[Hw| ->]]; [| |apply expired_ao_step_quiet].
  all: apply triple_act; [done|]; intros s1 es1 r1 _ Hr1; destruct (unused_ao s1 es1 g r1 Hr1) as (d1 & E1 & E2); [by auto|].
  all: rewrite E1; cbn [mbind res_bind]; rewrite E2; cbn [mbind res_bind].
  all: eexists s1, es1, _, (fun _ => True); split; [reflexivity|]; split; [by apply stay_step|]; do 2 (split; [done|]); apply quietly_ret.
Qed.

Lemma expired_wo_step_quiet ttl va now more : quietly (async_remove_expired_wo_step (K := K) (V := V) ttl va now more).
Proof.
  apply triple_act; [done|]. intros s es r _ Hr. pose proof (stay_step _ _ _ Hr) as Hst.
  destruct (ro_good _ _ _ Hr) as (Hws & P & Q & B & I).
  destruct (write_order_front cfg _ _ _ _ _ _ I) as (_ & _ & _ & _ & [->|(n & ei & -> & He)]); cbn [mbind res_bind].
  { exists s, es, (Ret (true, false)), (fun _ => True). do 4 (split; [done|]). apply quietly_ret. }
  rewrite (get_info_ok _ _ _ He). cbn [mbind res_bind]. eexists s, es, _, (fun _ => True). split; [reflexivity|]. do 3 (split; [done|]).
  assert (Hskip : quietly (_ ← async_skip_updated_entry_wo (K := K) (V := V) (kh_key (key_hash ei)); Ret (false, false))).
  { apply quietly_bind; [apply skip_wo_quiet|]. intros _. apply quietly_ret. }
  destruct (is_dirty ei); [done|]. destruct (last_modified ei) as [ts|]; [|done].
  destruct (is_entry_expired_wo_or_invalid ttl va ts now) as [[] []]; [..|apply quietly_ret].
  all: apply remove_quiet; [done|]; intros ve; eapply triple_bind; [apply evict_removed_quiet, handle_remove_quiet|]; intros a; apply quietly_ret.
Qed.

Lemma expired_wo_quiet n now : quietly (async_remove_expired_wo cfg n now).
Proof.
  apply quietly_choose. intros s es. apply quietly_bind; [|apply set_more_quiet]. apply quietly_for_until. intros b. apply expired_wo_step_quiet.
Qed.

Lemma deqs_quiet n now : quietly (async_evict_expired_entries_using_deqs cfg n now).
Proof.
  apply quietly_bind.
  - apply quietly_choose. intros s es. destruct (is_write_order_queue_enabled cfg s); [apply expired_wo_quiet|apply quietly_ret].
  - intros _. apply quietly_choose. intros s es. destruct (_ || _); [|apply quietly_ret].
    apply quietly_bind; [by apply expired_ao_quiet|]. intros _. apply quietly_bind; [by apply expired_ao_quiet|]. intros _. by apply expired_ao_quiet.
Qed.

Lemma lru_quiet n w : quietly (async_evict_lru_entries (K := K) (V := V) n w).
Proof.
  apply quietly_bind; [|intros [b ?]; apply set_more_quiet]. apply quietly_for_until. intros [more ev]. apply triple_act; [done|]. intros s es r _ Hr.
  pose proof (stay_step _ _ _ Hr) as Hst.
  assert (Hstop : forall x : bool * (bool * Z), exists s' es' p' R, Ok (s, es, Ret (S := Inner K V * EvictionState) x) = Ok (s', es', p') /\ step_ok s es r s' es' r /\
    unadmitted (mem s) (mem s') /\ R (mem s') /\ triple R p' (fun _ _ => True)).
  { intros x. exists s, es, (Ret x), (fun _ => True). do 4 (split; [done|]). apply quietly_ret. }
  destruct (w <=? ev); [apply Hstop|]. cbn [select_ao mbind res_bind].
  destruct (ro_good _ _ _ Hr) as (Hws & P & Q & B & I).
  destruct (probation_front cfg _ _ _ _ _ _ I) as [(_ & -> & _)|(nd & ei & h & d & -> & He & _)]; cbn [mbind res_bind]; [apply Hstop|].
  rewrite (get_info_ok _ _ _ He). cbn [mbind res_bind]. eexists s, es, _, (fun _ => True). split; [reflexivity|]. do 3 (split; [done|]).
  destruct (is_dirty ei), (last_accessed ei) as [ts|]; apply quietly_bind; try apply skip_ao_quiet; try apply evict_from_ao_quiet; intros o; apply quietly_ret.
Qed.

(** *** Timers *)

Lemma expired_keys_spec N fuel : forall m tw B it acc,
  wheel_inv m tw B [] -> shape tw -> infos_cover m -> iter_ok it ->
  Z.of_nat (size (cells (theap m))) <= N -> measure N (theap m) B it < Z.of_nat fuel ->
  exists m' tw' it' B' keys, expired_keys fuel m tw it acc = Ok (m', tw', it', keys) /\
    wheel_inv m' tw' B' [] /\ wheel_frame m m' /\ is_done it' = true.
Proof.
  induction fuel as [|fuel IH]; intros m tw B it acc I Hs Hc Hok HN Hf.
  { pose proof (measure_nonneg N m tw B [] it I Hok HN). lia. }
  destruct (timer_next_spec N (S fuel) m tw B it I Hs Hc Hok HN Hf)
    as (m1 & tw1 & it1 & ev & B1 & O & E & I1 & F & C & S1 & Ev & Sz & Ct & Pt & M).
  pose proof (infos_cover_frame _ _ F Hc) as Hc1.
  unfold expired_keys; fold (expired_keys (K := K)). rewrite E. cbn [mbind res_bind]. destruct ev as [[p| |]|]; cbn in Ev.
  - destruct Ev as (-> & Hok1 & Hexp). specialize (M ltac:(done)).
    destruct (expired_drop _ _ _ _ _ I1 Hexp) as (n & e & h & Hn & He & Hd & I2 & (ei & t & Hei & _) & Hsz & Hat).
    rewrite (deref_ok _ _ _ Hn). cbn [mbind res_bind]. rewrite He. cbn [mbind res_bind]. rewrite (get_info_ok _ _ _ Hei). cbn [mbind res_bind].
    rewrite Hd. cbn [mbind res_bind].
    assert (Hm : measure N h B1 it1 = measure N (theap m1) B1 it1).
    { apply measure_ext. intros q Hq. apply Hat. intros ->. destruct (wi_owned _ _ _ _ I1 p) as [Hx _]; [left|]. by apply (Hx (level it1) (cur_index it1)). }
    destruct (IH (with_theap m1 h) tw1 B1 it1 (acc ++ [(kh_key (key_hash ei), is_dirty ei)]) I2 S1 Hc1 Hok1)
      as (m2 & tw2 & it2 & B2 & keys & E2 & I3 & F2 & D2); [cbn; lia|cbn; lia|].
    exists m2, tw2, it2, B2, keys. split; [done|]. split; [done|]. split; [|done].
    transitivity m1; [done|]. transitivity (with_theap m1 h); [by split|done].
  - destruct Ev as (-> & Hok1). specialize (M ltac:(done)). destruct (IH m1 tw1 B1 it1 acc I1 S1 Hc1 Hok1) as (m2 & tw2 & it2 & B2 & keys & E2 & I3 & F2 & D2); [lia|lia|].
    exists m2, tw2, it2, B2, keys. split; [done|]. split; [done|]. split; [by transitivity m1|done].
  - destruct Ev as (-> & Hok1). specialize (M ltac:(done)). destruct (IH m1 tw1 B1 it1 acc I1 S1 Hc1 Hok1) as (m2 & tw2 & it2 & B2 & keys & E2 & I3 & F2 & D2); [lia|lia|].
    exists m2, tw2, it2, B2, keys. split; [done|]. split; [done|]. split; [by transitivity m1|done].
  - destruct Ev as (-> & Hd). by exists m1, tw1, it1, B1, acc.
Qed.

Lemma timers_quiet now : quietly (async_evict_expired_entries_using_timers (K := K) (V := V) now).
Proof.
  apply triple_act; [done|]. intros s es r _ Hr. destruct (is_enabled (timer_wheel s)) eqn:Hen.
  2: { eexists s, es, _, (fun _ => True). split; [reflexivity|]. split; [by apply stay_step|]. do 2 (split; [done|]). apply quietly_ret. }
  destruct (ro_good _ _ _ Hr) as (Hws & P & Q & B & I). pose proof (i_wheel I) as W.
  assert (Hs : shape (timer_wheel s)) by (by apply (is_enabled_shape _ _ _ (wi_buckets _ _ _ _ W))).
  unfold advance. set (tw := set_current (timer_wheel s) now).
  destruct (expired_keys_spec (Z.of_nat (size (cells (theap (mem s))))) (wheel_fuel (mem s)) (mem s) tw B (new_iter (current (timer_wheel s)) now) [])
    as (m' & tw' & it' & B' & keys & -> & W' & F & D); try done.
  { by apply (wheel_inv_clock _ (timer_wheel s)). }
  { by eapply inv_cover. }
  { apply initial_measure. }
  cbn [mbind res_bind]. unfold drop_iter. rewrite D. destruct (inv_wheel_step cfg s P Q B [] _ m' tw' B' [] I F W') as [I' Ev].
  destruct (evolves_step s es r (with_wheel s m' tw') es Hr (conj Hws (ex_intro _ P (ex_intro _ Q (ex_intro _ B' I')))) (Ev _)) as [Hst Hu].
  eexists _, es, _, (fun _ => True). split; [reflexivity|]. do 3 (split; [done|]). apply quietly_for_each. intros kd. apply expire_quiet.
Qed.

(** *** Predicates *)

Definition removed_ent (o : option (ValueEntry V)) m : Prop := match o with Some ve => retired_ent ve m | None => True end.

Lemma invalidate_one_triple key ts : triple (fun _ => True) (async_invalidate_one (K := K) (V := V) key ts) removed_ent.
Proof.
  apply remove_act; [done|by apply triple_ret|]. intros ve. eapply triple_bind.
  - eapply triple_conseq; [| |apply (await_keeps (retired_ent ve)), stable_retired]; [by intros m [_ ?]|done].
  - intros a. by apply triple_ret.
Qed.

Lemma scan_triple ps : forall l dead, triple (fun m => retired_in m dead) (scan_candidates (K := K) (V := V) ps dead l) (fun dead' m => retired_in m dead').
Proof.
  induction l as [|kd l IH]; intros dead; [by apply triple_ret|]. apply triple_act; [apply stable_retired_in|]. intros s es r Hd Hr.
  assert (Hb : exists b, predicate_applies ps s (kdl_key kd) (kdl_timestamp kd) = Ok b).
  { unfold predicate_applies, cht_get. destruct (cache s !! kdl_key kd) as [ve|] eqn:Hc; [|eauto].
    destruct (ro_good _ _ _ Hr) as (_ & P & Q & B & I). destruct (i_cache I _ _ Hc) as (_ & ei & He & _).
    rewrite (get_info_ok _ _ _ He). cbn. destruct (last_modified ei); eauto. }
  destruct Hb as [b ->]. cbn [mbind res_bind]. eexists s, es, _, (fun m => retired_in m dead). split; [reflexivity|].
  split; [by apply stay_step|]. do 2 (split; [done|]). destruct b; [|apply IH].
  eapply triple_bind.
  - eapply triple_conseq; [|intros a m HQ; exact HQ|apply (triple_frame (fun m => retired_in m dead) (fun _ => True)); [apply stable_retired_in|apply invalidate_one_triple]]; done.
  - intros [ve|]; (eapply triple_conseq; [|intros a m HQ; exact HQ|apply IH]); intros m [Hdead Hve]; [|done].
    intros kv [Hkv|Hkv%list_elem_of_singleton]%elem_of_app; [by apply Hdead|]. by subst kv.
Qed.

Lemma invalidator_step s es r i0 i : run_ok s es r -> invalidator s = Some i0 -> inv_wf i ->
  step_ok s es r (with_invalidator s (Some i)) es r.
Proof.
  intros Hr Hi Hwf. destruct (ro_good _ _ _ Hr) as (Hws & P & Q & B & I).
  refine (proj1 (evolves_step s es r _ es Hr _ _)); [|by eapply evolves_invalidator]. split; [done|]. exists P, Q, B. by eapply inv_invalidator.
Qed.

Lemma have_invalidator s es r : run_ok s es r -> inv_on = true -> exists i, invalidator s = Some i /\ inv_wf i.
Proof.
  intros Hr Hon. destruct (proj2 (ro_enabled _ _ _ Hr) Hon) as [i Hi]. exists i. split; [done|].
  destruct (ro_good _ _ _ Hr) as (_ & P & Q & B & I). by apply (i_pred I).
Qed.

Lemma scan_and_invalidate_triple l b : inv_on = true -> l <> [] ->
  triple (fun _ => True) (async_scan_and_invalidate (K := K) (V := V) l b) (fun x m => retired_in m x.1).
Proof.
  intros Hon Hl. apply triple_act; [done|]. intros s es r _ Hr. destruct (have_invalidator s es r Hr Hon) as (i & Hi & Hwf). rewrite Hi.
  cbn [expect_some mbind res_bind]. eexists _, es, _, (fun m => retired_in m []). split; [reflexivity|].
  split; [by eapply invalidator_step|]. split; [done|]. split; [by intros kv ?%elem_of_nil|].
  eapply triple_bind; [exact (scan_triple (scanned_predicates i) l [])|]. intros dead. apply triple_step; [apply stable_retired_in|]. intros s1 es1 r1 Hd Hr1.
  destruct (have_invalidator s1 es1 r1 Hr1 Hon) as (i1 & Hi1 & Hwf1). rewrite Hi1. cbn [expect_some mbind res_bind].
  destruct (remove_finished_ok (with_scan_context i1 (scanned_predicates i)) b l Hl) as (i2 & -> & Hwf2); [done|]. cbn [mbind res_bind].
  eexists _, es1, _. split; [reflexivity|]. split; [by eapply invalidator_step|]. done.
Qed.

Lemma handle_dead_quiet (dead : list (KvEntry K V)) : triple (fun m => retired_in m dead)
  (for_each (fun kv => step (fun '(s, es) => '(s, c) ← handle_remove s (kv_entry kv) None (counters es); Ok (s, with_counters es c, tt))) dead)
  (fun _ _ => True).
Proof.
  induction dead as [|kv dead IH]; [apply triple_quiet, quietly_ret|]. cbn [for_each].
  apply (triple_bind _ (fun _ m => retired_in m dead)); [|intros a; exact IH].
  apply triple_step; [apply stable_retired_in|]. intros s es r Hd Hr. destruct (Hd kv) as [Hve Hre]; [left|].
  destruct (handle_remove_quiet (kv_entry kv) s (counters es) (ro_good _ _ _ Hr) (conj Hve Hre)) as (s' & c' & -> & G & Ev). cbn [mbind res_bind].
  eexists _, _, _. split; [reflexivity|]. destruct (evolves_step s es r s' (with_counters es c') Hr G Ev) as [Hs Hu]. split; [done|]. split; [done|].
  eapply retired_in_le; [apply Hs|]. intros x Hx. apply Hd. by right.
Qed.

Lemma invalidate_quiet n now : inv_on = true -> quietly (async_invalidate_entries cfg n now).
Proof.
  intros Hon. apply triple_act; [done|]. intros s es r _ Hr. destruct (have_invalidator s es r Hr Hon) as (i & Hi & Hwf). rewrite Hi.
  cbn [expect_some mbind res_bind]. destruct (len (write_order (deques s)) =? 0).
  { eexists _, es, _, (fun _ => True). split; [reflexivity|]. split; [eapply invalidator_step; [done|done|by apply remove_ids_wf]|].
    do 2 (split; [done|]). apply quietly_ret. }
  destruct (ro_good _ _ _ Hr) as (Hws & P & Q & B & I). pose proof (di_wo _ _ _ _ (i_deqs I)) as R.
  destruct (collect_candidates_spec cfg s P Q B [] _ n I (S (Z.to_nat (len (write_order (deques s))))) _ [] R) as (cur & l & -> & Hcur & _).
  { rewrite (repr_len _ _ _ R), Nat2Z.id. pose proof (to_read_bound Q (cursor (write_order (deques s)))). lia. }
  cbn [mbind res_bind]. pose proof (with_cursor_repr _ _ _ _ R Hcur) as R1.
  destruct (iter_next_spec _ _ _ R1) as (o & -> & _ & Hcur2). cbn [mbind res_bind].
  change (with_cursor (with_cursor ?d _) ?c) with (with_cursor d c).
  pose proof (inv_cursor cfg _ _ _ _ _ _ _ I Hcur2) as I1.
  destruct (evolves_step s es r _ es Hr (conj Hws (ex_intro _ P (ex_intro _ Q (ex_intro _ B I1)))) (evolves_deques s _ _)) as [Hs Hu].
  eexists _, es, _, (fun _ => True). split; [reflexivity|]. do 3 (split; [done|]).
  destruct (length l =? 0)%nat eqn:Hl; [apply quietly_ret|].
  eapply triple_bind; [apply scan_and_invalidate_triple; [done|by intros ->]|]. intros [dead fin]. cbn [fst].
  eapply triple_bind; [apply handle_dead_quiet|]. intros []. apply triple_step; [done|]. clear - Hon. intros s es r _ Hr.
  destruct (have_invalidator s es r Hr Hon) as (i & Hi & _). rewrite Hi. cbn [expect_some mbind res_bind]. eexists _, _, tt. split; [reflexivity|].
  destruct (ro_good _ _ _ Hr) as (Hws & P & Q & B & I).
  set (s1 := if fin then _ else _). set (es1 := if inv_is_empty i then es else with_more es true).
  assert (H1 : step_ok s es r s1 es r).
  { unfold s1. destruct fin; [|by apply stay_step]. refine (proj1 (evolves_step s es r _ es Hr _ (evolves_deques s _ _))).
    split; [done|]. exists P, Q, B. by apply (inv_cursor cfg s P Q B [] _ None I). }
  assert (Hm : mem s1 = mem s) by (unfold s1; by destruct fin). split; [|by rewrite Hm].
  eapply step_ok_trans; [exact H1|]. apply same_step; [by eapply step_run_ok| | |]; unfold es1; destruct (inv_is_empty i); try done;
    (split; [done|apply Hr]).
Qed.

(** *** Applying a write *)

Lemma set_gen_triple ve gen : 0 <= gen <= U16_MAX -> triple (fun m => ent_wf m ve) (set_policy_gen_of (K := K) ve gen) (fun _ _ => True).
Proof.
  intros Hg. apply triple_step; [apply stable_ent|]. intros s es r Hve Hr. destruct (ro_good _ _ _ Hr) as (Hws & P & Q & B & I).
  destruct (set_policy_gen_step cfg _ _ _ _ _ _ _ _ I Hve Hg) as (m' & -> & I' & Ev). cbn [mbind res_bind]. eexists _, es, tt. split; [reflexivity|].
  destruct (evolves_step s es r _ es Hr (conj Hws (ex_intro _ P (ex_intro _ Q (ex_intro _ B I')))) (Ev _)). done.
Qed.

Lemma count_eviction_quiet : quietly (step (fun '(s, es) => Ok (s, with_counters es (incr_eviction_count (counters es)), tt)) : M unit).
Proof.
  apply triple_step; [done|]. intros s es r _ Hr. eexists s, _, tt. split; [reflexivity|]. split; [|done].
  apply same_step; try done. by apply incr_range, Hr.
Qed.

Lemma too_heavy_triple kh ve gen : 0 <= gen <= U16_MAX -> triple (fun m => ent_wf m ve) (async_reject_too_heavy kh ve gen) (fun _ _ => True).
Proof.
  intros Hg. apply triple_act; [apply stable_ent|]. intros s es r Hve Hr.
  destruct (removal_step s es r (kh_key kh) (same_generation (info ve) gen) Hr) as [->|(x & s' & -> & Hs & Hu & Hx)]; cbn [mbind res_bind].
  - eexists s, es, _, (fun m => ent_wf m ve). split; [reflexivity|]. split; [by apply stay_step|]. do 2 (split; [done|]). by apply set_gen_triple.
  - eexists s', es, _, (fun m => ent_wf m ve). split; [reflexivity|]. do 2 (split; [done|]). split; [by eapply ent_wf_le; [apply Hs|]|].
    eapply triple_bind; [apply await_keeps, stable_ent|]. intros a.
    eapply (triple_bind _ (fun _ m => ent_wf m ve)); [|intros b; by apply set_gen_triple].
    eapply triple_conseq; [| |apply (triple_frame (fun m => ent_wf m ve) (fun _ => True)); [apply stable_ent|apply count_eviction_quiet]]; [done|].
    by intros b m [? _].
Qed.

Lemma reject_quiet kh ve gen : 0 <= gen <= U16_MAX -> quietly (async_reject_candidate (K := K) kh ve gen).
Proof.
  intros Hg. apply triple_act; [done|]. intros s es r _ Hr.
  destruct (removal_step s es r (kh_key kh) (same_generation (info ve) gen) Hr) as [->|(x & s' & -> & Hs & Hu & Hx)]; cbn [mbind res_bind].
  - eexists s, es, _, (fun _ => True). split; [reflexivity|]. split; [by apply stay_step|]. do 2 (split; [done|]). apply quietly_ret.
  - pose proof (step_run_ok _ _ _ _ _ _ Hr Hs) as Hr'. destruct (ro_good _ _ _ Hr') as (Hws & P & Q & B & I).
    destruct (set_policy_gen_step cfg _ _ _ _ _ _ _ _ I (proj1 Hx) Hg) as (m' & -> & I' & Ev). cbn [mbind res_bind].
    destruct (evolves_step s' es r _ es Hr' (conj Hws (ex_intro _ P (ex_intro _ Q (ex_intro _ B I')))) (Ev _)) as [H2 Hu2].
    eexists _, es, _, (fun _ => True). split; [reflexivity|]. split; [by eapply step_ok_trans|]. split; [by transitivity (mem s')|]. split; [done|].
    apply quietly_bind; [apply await_quiet|]. intros _. apply count_eviction_quiet.
Qed.

Lemma select_quiet kh nw : 0 <= nw <= U32_MAX -> quietly (select_victims cfg kh nw).
Proof.
  intros Hw. apply triple_step; [done|]. intros s es r _ Hr.
  destruct (choose_victims cfg s es kh nw (ro_good _ _ _ Hr) Hw) as (s' & a & -> & G & Ev). cbn [mbind res_bind].
  exists s', es, a. split; [done|]. by destruct (evolves_step s es r s' es Hr G Ev).
Qed.

(** An entry that is not in the queues: only the run could put it there. *)
Definition outside ve m : Prop := ent_wf m ve /\ exists ei, infos m !! info ve = Some ei /\ is_admitted ei = false.
Lemma stable_outside ve : stable (outside ve).
Proof. intros m m' [L U] [Hve (ei & He & Ha)]. split; [by eapply ent_wf_le|]. destruct (U _ _ He Ha) as (ei' & ? & ?). eauto. Qed.

(** The write that leaves the reserve is accounted for. *)
Lemma consume_step dn dw s es op r s' es' :
  run_ok s es (op :: r) -> good cfg [] s' (counters es') -> evolves dn dw s (counters es) s' (counters es') ->
  dn <= op_entries op -> dw <= op_weight op -> step_ok s es (op :: r) s' es' r.
Proof.
  intros [G Hv Hio Hr He Hw] G' Ev Hdn Hdw. cbn [log_entries log_weight foldr] in *. fold (log_entries r) (log_weight r) in *.
  split; try apply Ev; try done; cbn [log_entries log_weight foldr]; fold (log_entries r) (log_weight r).
  - rewrite (ev_reads Ev), (ev_writes Ev). done.
  - eapply reserve_le; [apply Ev|]. intros o Ho. apply Hr. by right.
  - rewrite (ev_writes Ev). pose proof (ev_ec Ev). lia.
  - rewrite (ev_writes Ev). pose proof (ev_ws Ev). lia.
Qed.

Lemma drop_reserve s es op r : run_ok s es (op :: r) -> step_ok s es (op :: r) s es r /\ run_ok s es r.
Proof.
  intros Hr. destruct (op_bounds (mem s) op) as [Hb1 Hb2]; [apply (ro_reserve _ _ _ Hr); left|].
  assert (Hs : step_ok s es (op :: r) s es r) by (apply (consume_step 0 0); try done; [apply Hr|apply evolves_refl]).
  split; [done|]. by eapply step_run_ok.
Qed.

Lemma safe_drop {A} (Q : A -> list (WriteOp K V) -> Mem K -> Prop) f op r m : safe Q (Act f) r m -> safe Q (Act f) (op :: r) m.
Proof.
  intros Hp s es Hle Hr. destruct (drop_reserve _ _ _ _ Hr) as [H1 H2]. specialize (Hp s es Hle H2). cbn in Hp |- *.
  destruct (f (s, es)) as [[[s' es'] p']|]; [|done]. destruct Hp as (r' & Hs & Hp). exists r'. split; [by eapply step_ok_trans|done].
Qed.

Definition applied r : unit -> list (WriteOp K V) -> Mem K -> Prop := fun _ r' _ => r' = r.

Lemma triple_applied P (p : M unit) Q r m : triple P p Q -> P m -> safe (applied r) p r m.
Proof. intros Hp HP. eapply safe_mono; [|by apply Hp]. by intros a r' m' (-> & _). Qed.

Lemma admit_safe kh ve gen ow nw r m :
  outside ve m -> write_wf m (Upsert kh ve gen ow nw) -> safe (applied r) (admit_entry cfg ve nw gen) (Upsert kh ve gen ow nw :: r) m.
Proof.
  intros Ho (_ & (Hg & _ & Hnw) & _). apply safe_act. intros s es Hle Hr. destruct (stable_outside ve _ _ Hle Ho) as [Hve (ei & He & Ha)].
  pose proof (ro_entries _ _ _ Hr) as Hec. cbn [log_entries foldr op_entries] in Hec.
  assert (Hl : 0 <= log_entries (write_op_ch s) /\ 0 <= log_entries r).
  { destruct (ro_good _ _ _ Hr) as (_ & P & Q & B & I). split; eapply log_bounds; [apply (i_writes I)|]. intros o Hop. apply (ro_reserve _ _ _ Hr). by right. }
  fold (log_entries r) in Hec.
  destruct (admit_and_ack cfg s es ve gen nw ei (ro_good _ _ _ Hr) Hve He Ha Hg) as (s' & es' & E & G & Ev); [lia|lia|].
  destruct (handle_admit cfg s ve nw (counters es)) as [[s1 c1]|]; [|done]. cbn [mbind res_bind] in *.
  destruct (ve_set_policy_gen (mem s1) ve gen) as [m1|]; [|done]. cbn [mbind res_bind] in *. injection E as -> ->.
  eexists _, _, _, r. split; [reflexivity|]. split; [|done]. by apply (consume_step 1 nw).
Qed.

Lemma upsert_safe kh ve gen ow nw r m :
  write_wf m (Upsert kh ve gen ow nw) -> safe (applied r) (async_handle_upsert cfg kh ve gen ow nw) (Upsert kh ve gen ow nw :: r) m.
Proof.
  intros Hwf. pose proof Hwf as (Hve0 & (Hg & How & Hnw) & _). set (op := Upsert kh ve gen ow nw) in *. apply safe_act. intros s es Hle Hr.
  pose proof (stable_ent ve _ _ Hle Hve0) as Hve. pose proof (write_wf_le _ _ _ (proj1 Hle) Hwf) as Hwf'.
  pose proof (ro_good _ _ _ Hr) as G. destruct (ent_info _ _ Hve) as (ei & He & Eg). rewrite Eg. cbn [mbind res_bind].
  destruct (drop_reserve _ _ _ _ Hr) as [Hdrop Hr0].
  assert (Hstay : step_ok s es (op :: r) s es (op :: r)) by by apply stay_step.
  destruct (negb (is_alive ei)).
  { eexists s, es, _, r. split; [reflexivity|]. split; [done|]. by eapply triple_applied; [by apply set_gen_triple|]. }
  assert (Hroom : ec_entry_count (counters es) <= U64_MAX /\ ec_weighted_size (counters es) + nw <= U64_MAX).
  { destruct (ro_good _ _ _ Hr) as (_ & P & Q & B & I). pose proof (ro_entries _ _ _ Hr). pose proof (ro_weight _ _ _ Hr).
    destruct (log_bounds (mem s) (write_op_ch s) (i_writes I)). destruct (log_bounds (mem s) r); [intros o Hop; apply (ro_reserve _ _ _ Hr); by right|].
    cbn [log_entries log_weight foldr op_entries op_weight op] in *. fold (log_entries r) (log_weight r) in *. lia. }
  destruct (is_admitted ei) eqn:Ha.
  { pose proof (good_count cfg _ _ _ G). unfold counters_saturating_sub, counters_saturating_add. rewrite checked_sub_ok by done. cbn [mbind res_bind].
    rewrite checked_add_ok by (cbn; unfold U64_MAX in *; lia). cbn [mbind res_bind ec_weighted_size ec_eviction_count ec_entry_count].
    replace (ec_entry_count (counters es) - 0 + 0) with (ec_entry_count (counters es)) by lia. fold (updated_counters (counters es) ow nw).
    destruct (update_admitted cfg s es ve gen ow nw G Hve Hg) as (s' & es' & E & G' & Ev); [lia|lia|].
    destruct (update_timer_wheel s ve) as [s1|]; [|done]. cbn [mbind res_bind] in *.
    destruct (move_to_back_ao (mem s1) (deques s1) ve) as [[m1 d1]|]; [|done]. cbn [mbind res_bind] in *.
    destruct (move_to_back_wo m1 d1 ve) as [[m2 d2]|]; [|done]. cbn [mbind res_bind] in *.
    destruct (ve_set_policy_gen m2 ve gen) as [m3|]; [|done]. cbn [mbind res_bind] in *. injection E as -> ->.
    eexists _, _, _, r. split; [reflexivity|]. split; [|done]. by apply (consume_step 0 nw). }
  assert (Hout : outside ve (mem s)) by (split; [done|eauto]).
  assert (Henough : exists b, has_enough_capacity cfg nw (counters es) = Ok b).
  { unfold has_enough_capacity. destruct (max_capacity cfg); [|eauto]. rewrite checked_add_ok by apply Hroom. cbn. eauto. }
  destruct Henough as [b ->]. cbn [mbind res_bind]. eexists s, es, _, (op :: r). split; [reflexivity|]. split; [done|].
  destruct b; [by apply admit_safe|]. destruct (match max_capacity cfg with Some max => max <? nw | None => false end).
  { apply safe_drop. by eapply triple_applied; [by apply too_heavy_triple|]. }
  eapply safe_bind; [by apply (select_quiet kh nw Hnw)|]. intros [keys|] r' m' (-> & Hle' & _).
  - eapply safe_bind; [by apply (quietly_for_each async_remove_victim keys victim_quiet)|]. intros [] r2 m2 (-> & Hle2 & _).
    assert (Hle3 : env_le (mem s) m2) by (by transitivity m'). apply admit_safe; [by eapply stable_outside|]. by eapply write_wf_le; [apply Hle3|].
  - apply safe_drop. by eapply triple_applied; [by apply reject_quiet|].
Qed.

Lemma writes_safe n : forall r m, safe (applied r) (async_apply_writes cfg n) r m.
Proof.
  induction n as [|n IH]; intros r m; [done|]. apply safe_act. intros s es Hle Hr. pose proof (ro_good _ _ _ Hr) as (Hws & P & Q & B & I).
  destruct (write_op_ch s) as [|op ops] eqn:Hops.
  { exists s, es, (Ret tt), r. split; [done|]. split; [by apply stay_step|done]. }
  pose proof (i_writes I) as Hwf. rewrite Hops in Hwf.
  assert (H1 : step_ok s es r (with_writes s ops) es (op :: r)).
  { destruct Hr as [_ Hv Hio Hr He Hw]. split; try done.
    - split; [done|]. exists P, Q, B. apply inv_writes; [done|]. intros o Ho. apply Hwf. by right.
    - rewrite Hops. cbn. lia.
    - intros o [->|Ho]%elem_of_cons; [apply Hwf; left|by apply Hr].
    - rewrite Hops. unfold log_entries. cbn. lia.
    - rewrite Hops. unfold log_weight. cbn. lia. }
  pose proof (step_run_ok _ _ _ _ _ _ Hr H1) as Hr1. destruct op as [kh ve gen ow nw|kv gen].
  - eexists _, es, _, (Upsert kh ve gen ow nw :: r). split; [reflexivity|]. split; [done|]. eapply safe_bind.
    + apply upsert_safe. apply Hwf. left.
    + intros [] r' m' ->. apply IH.
  - destruct (Hwf (Remove kv gen) ltac:(left)) as (Hve & Hg & Hre). destruct (ent_info _ _ Hve) as (ei & He & _).
    destruct (drop_reserve _ _ _ _ Hr1) as [H2 Hr2].
    destruct (handle_remove_spec cfg (with_writes s ops) (counters es) (kv_entry kv) (Some gen) ei (ro_good _ _ _ Hr1) Hve He (Hre _ He))
      as (s' & c' & -> & G' & Ev); [by intros g [= <-]|]. cbn [mbind res_bind].
    destruct (evolves_step _ es r s' (with_counters es c') Hr2 G' Ev) as [H3 _].
    eexists _, _, _, r. split; [reflexivity|]. split; [|apply IH]. eapply step_ok_trans; [exact H1|]. by eapply step_ok_trans.
Qed.

Context (Hsafe : sketch_safe cfg).

Lemma logs_safe r m : safe (applied r) (async_process_logs cfg) r m.
Proof.
  eapply safe_bind; [by apply (quietly_choose (fun s _ => async_apply_reads cfg (length (read_op_ch s)))); [intros s es; apply reads_quiet|]|].
  intros [] r1 m1 (-> & _). eapply safe_bind.
  - apply safe_act. intros s es Hle Hr. eexists s, es, _, r. split; [reflexivity|]. split; [by apply stay_step|apply writes_safe].
  - intros [] r2 m2 ->. apply safe_act. intros s es Hle Hr. eexists _, es, _, r. split; [reflexivity|]. split; [|done].
    destruct (_ && _) eqn:Hb; [|by apply stay_step]. apply andb_true_iff in Hb as [Hp Hen]. apply bool_decide_eq_true in Hp.
    destruct (ro_good _ _ _ Hr) as (Hws & P & Q & B & I). destruct (enable_sketch_step cfg Hsafe _ _ _ _ _ _ _ I Hp Hen) as [I' Ev].
    refine (proj1 (evolves_step s es r _ es Hr _ (Ev _))). split; [done|eauto].
Qed.

Lemma round_quiet n t : quietly (async_evict_round cfg n t).
Proof.
  apply quietly_bind; [apply timers_quiet|]. intros _. apply quietly_bind.
  { apply quietly_choose. intros s es. destruct (_ || _); [apply deqs_quiet|apply quietly_ret]. }
  intros _. apply quietly_bind; [|intros _; apply quietly_choose; intros s es; destruct (0 <? _); [apply lru_quiet|apply quietly_ret]].
  apply triple_act; [done|]. intros s es r _ Hr. eexists s, es, _, (fun _ => True). split; [reflexivity|]. split; [by apply stay_step|].
  do 2 (split; [done|]). destruct (invalidator s) as [i|] eqn:Hi; [|apply quietly_ret]. destruct (inv_is_empty i); [apply quietly_ret|].
  apply invalidate_quiet, (ro_enabled _ _ _ Hr). by rewrite Hi.
Qed.
End logic.
