(* ===== verification/FutureRunSys.v ===== *)
(** The cache with a maintenance run that is suspended at its await points
    ([FutureRun]) while other tasks use the cache.

    The operations are the events of [System] that do not run the maintenance
    themselves, because the suspended run holds the lock; between two of them the
    run may take any number of steps.  The counters of the cache are out of date
    during a run, which keeps its own: the invariant is that of [System] for the
    cache with the run's counters in place of its own, and with the writes the run
    has taken from the log and not applied yet among the writes in flight. *)
From S2P Require Import Prelude Common FrequencySketch Deque Time Housekeeper EntryInfo Concurrent Deques.
From S2P Require Import TimerWheel Policy Invalidator Inner BaseCache InnerInv InnerRemove Admission Eviction Scan Maintenance Operations System Guarantees.
From S2P Require Import FutureOps FutureRun FutureRunInv.

Section machine.
Context {K V : Type} `{Countable K}.
Variable cfg : Config K V.
Implicit Types (s : Inner K V) (b : BaseCache K V) (e : event (K := K) (V := V)) (sys : Sys (K := K) (V := V)).

(** [rs_run] is [Housekeeper::current_task]. *)
Record RSys := mkRSys { rs_sys : Sys (K := K) (V := V); rs_run : option (RunArgs * Run K V) }.

(** [now] is the clock when the task that polls the run took the lock: a run that
    was cancelled is resumed by another task, with its own reading. *)
Inductive revent :=
| RClient (e : event (K := K) (V := V))
| RStart (now started : Instant) (rd : nat -> Readings)
| RStep (now : Instant).

(** The events that find the run lock taken. *)
Definition passive e : bool :=
  match e with
  | ESend _ _ env => hk_locked env
  | EGet _ _ _ _ (Some env) => hk_locked env
  | ERun _ => false
  | _ => true
  end.

(** The end of a run, in [Housekeeper::do_run_pending_tasks]. *)
Definition end_run b (s : Inner K V) (now : Instant) (more : bool) : res (BaseCache K V) :=
  hk ← expect_some UnwrapNone (housekeeper b);
  after ← set_instant (run_after hk) (sync_after now);
  Ok (mkBaseCache s (Some (set_more_entries_to_evict (set_run_after hk after) more))).

Definition rexec (rs : RSys) (ev : revent) : res (RSys * option (Entry K V)) :=
  let sys := rs_sys rs in
  let b := base sys in
  match ev with
  | RClient e => '(sys, o) ← exec cfg sys e; Ok (mkRSys sys (rs_run rs), o)
  | RStart now started rd =>
      match housekeeper b, rs_run rs with
      | Some hk, None =>
          if bool_decide (max_capacity cfg = Some 0)
          then b ← end_run b (inner b) now false; Ok (mkRSys (mkSys b (in_flight sys)) None, None)
          else
            let a := run_args rd started (inner b) (maintenance_task_timeout hk) (max_log_sync_repeats hk)
                       (Z.to_nat (eviction_batch_size hk)) in
            Ok (mkRSys sys (Some (a, start_run cfg a)), None)
      | _, _ => Ok (rs, None)
      end
  | RStep now =>
      match rs_run rs with
      | None => Ok (rs, None)
      | Some (a, t) =>
          '(s, r) ← run_step cfg a t (inner b);
          match r with
          | inl t => Ok (mkRSys (mkSys (with_inner b s) (in_flight sys)) (Some (a, t)), None)
          | inr more => b ← end_run b s now more; Ok (mkRSys (mkSys b (in_flight sys)) None, None)
          end
      end
  end.

Definition revent_ok (rs : RSys) (ev : revent) : Prop :=
  match ev with
  | RClient e => passive e = true /\ event_ok (rs_sys rs) e
  | RStart now _ _ | RStep now => instant_ok now
  end.
Definition rwrites_of (ev : revent) : Z := match ev with RClient e => writes_of e | _ => 0 end.
Definition rspec_step (m : gmap K (V * Instant)) (ev : revent) : gmap K (V * Instant) :=
  match ev with RClient e => spec_step cfg m e | _ => m end.

Inductive rreach b0 : Z -> gmap K (V * Instant) -> RSys -> Prop :=
| rr_start : rreach b0 0 ∅ (mkRSys (mkSys b0 []) None)
| rr_step n m rs ev rs' o :
    rreach b0 n m rs -> revent_ok rs ev -> rexec rs ev = Ok (rs', o) ->
    rreach b0 (n + rwrites_of ev) (rspec_step m ev) rs'.
End machine.
Arguments mkRSys {K V _ _} _ _.
Arguments rs_sys {K V _ _} _.
Arguments rs_run {K V _ _} _.

(** ** The counters do not matter to the operations *)

Section recount.
Context {K V : Type} `{Countable K}.
Variable cfg : Config K V.
Variable (ec ws : Z).
Implicit Types (s : Inner K V) (b : BaseCache K V) (r fl : list (WriteOp K V)) (e : event (K := K) (V := V)).

Definition recount s : Inner K V := with_counts s ec ws.
Definition recount_base b : BaseCache K V := with_inner b (recount (inner b)).

Lemma recount_insert s key hash v ts now :
  do_insert_with_hash cfg (recount s) key hash v ts now = ('(s, op) ← do_insert_with_hash cfg s key hash v ts now; Ok (recount s, op)).
Proof.
  unfold do_insert_with_hash. cbn -[weigh new_value_entry new_value_entry_from new_old_entry_info get_info].
  destruct (_ !! key) as [old|].
  - destruct (get_info _ (info old)) as [ei|]; [|done]. cbn [mbind res_bind].
    destruct (new_old_entry_info _ old) as [oi|]; [|done]. cbn [mbind res_bind].
    destruct (new_value_entry_from _ v ts _ old) as [[[m ve] gen]|]; [|done]. cbn [mbind res_bind].
    unfold do_post_update_steps, post_update_expiration. cbn [mem with_cache with_mem recount with_counts].
    destruct (match expiry _ with Some _ => _ | None => _ end) as [m'|]; [|done]. cbn.
    unfold notify_upsert, notify_single_removal, is_removal_notifier_enabled. cbn. by destruct (removal_notifier s).
  - destruct (new_value_entry _ key hash v ts _) as [[[m ve] gen]|]; [|done]. cbn [mbind res_bind].
    unfold do_post_insert_steps. cbn [mem with_cache with_mem recount with_counts]. destruct (expiry _); [|done]. by destruct (expire_after_create _ _ _ _ _ _).
Qed.

Lemma recount_invalidate s key now :
  do_invalidate_with_hash cfg (recount s) key now = ('(s, o) ← do_invalidate_with_hash cfg s key now; Ok (recount s, o)).
Proof.
  unfold do_invalidate_with_hash, remove_entry, cht_remove_if_and_retire. cbn -[get_info retire].
  destruct (_ !! key) as [ve|]; [|done]. destruct (get_info _ (info ve)) as [ei|]; [|done]. cbn -[get_info retire].
  destruct (retire ei) as [ei'|]; [|done]. cbn -[get_info]. destruct (get_info _ (info ve)) as [ei2|]; [|done]. cbn -[get_info].
  destruct (incr_entry_gen ei2) as [ei3 g]. unfold is_removal_notifier_enabled. cbn -[get_info].
  destruct (removal_notifier s) as [nt|] eqn:En; [|done]. cbn -[get_info].
  unfold notify_invalidate, notify_single_removal. cbn -[get_info]. rewrite En. by destruct (get_info _ (info ve)).
Qed.

Lemma recount_find s key ignore_if now : find_valid cfg (recount s) key ignore_if now = find_valid cfg s key ignore_if now.
Proof. by destruct s. Qed.
Lemma recount_touch s ve now : touch_entry cfg (recount s) ve now = ('(s, t, x) ← touch_entry cfg s ve now; Ok (recount s, t, x)).
Proof.
  unfold touch_entry. cbn [recount with_counts mem]. destruct (get_info _ _); [|done]. cbn [mbind res_bind].
  destruct (match expiry _ with Some _ => _ | None => _ end) as [[[m t] x]|]; [|done]. cbn [mbind res_bind].
  by destruct (ve_set_last_accessed _ _ _).
Qed.

(** Whoever finds the lock taken runs nothing. *)
Lemma recount_locked b now env : hk_locked env = true ->
  (forall b', apply_reads_if_needed cfg b now env = Ok b' -> b' = b) /\
  (forall b', apply_reads_writes_if_needed cfg b now env = Ok b' -> b' = b) /\
  apply_reads_if_needed cfg (recount_base b) now env = (b ← apply_reads_if_needed cfg b now env; Ok (recount_base b)) /\
  apply_reads_writes_if_needed cfg (recount_base b) now env = (b ← apply_reads_writes_if_needed cfg b now env; Ok (recount_base b)).
Proof.
  intros Hl. unfold apply_reads_if_needed, apply_reads_writes_if_needed, try_run_pending_tasks. rewrite Hl.
  destruct b as [s [hk|]]; cbn; [|by split; [intros b' [= <-]|split; [intros b' [= <-]|]]].
  destruct (should_apply_reads _ _ _) as [[]|], (should_apply_writes _ _ _) as [[]|]; cbn;
    (split; [intros b' E; by simplify_eq|split; [intros b' E; by simplify_eq|done]]).
Qed.

Lemma recount_read b op now env : hk_locked env = true ->
  record_read_op cfg (recount_base b) op now env = (b ← record_read_op cfg b op now env; Ok (recount_base b)).
Proof.
  intros Hl. destruct (recount_locked b now env Hl) as (_ & _ & Er & _). unfold record_read_op. rewrite Er.
  destruct (apply_reads_if_needed cfg b now env) as [b'|]; [|done]. cbn. by case_match.
Qed.

(** The system a run works on: its counters, and the writes it holds. *)
Definition virtual r (sys : Sys (K := K) (V := V)) : Sys := mkSys (recount_base (base sys)) (r ++ in_flight sys).
Definition shift r e : event := match e with ESend i now env => ESend (length r + i) now env | _ => e end.

Lemma virtual_exec r sys e : passive e = true ->
  exec cfg (virtual r sys) (shift r e) = ('(sys, o) ← exec cfg sys e; Ok (virtual r sys, o)).
Proof.
  intros Hp. destruct sys as [b fl]. destruct e as [key v ts now|key now|i now env|key ig nk now rec|now|uuid f now|env];
    cbn [exec shift virtual base in_flight recount_base inner with_inner] in *.
  - destruct (is_map_disabled cfg); [done|]. rewrite recount_insert. destruct (do_insert_with_hash _ _ _ _ _ _ _) as [[s op]|]; [|done].
    cbn. by rewrite <- app_assoc.
  - rewrite recount_invalidate. destruct (do_invalidate_with_hash _ _ _ _) as [[s o]|]; [|done]. cbn. by rewrite <- app_assoc.
  - destruct (recount_locked b now env Hp) as (_ & _ & _ & Er). unfold send_attempt. cbn [in_flight base virtual].
    rewrite lookup_app_r, Nat.add_sub_swap, Nat.sub_diag by lia. cbn [Nat.add]. destruct (fl !! i) as [op|]; [|done].
    rewrite Er.
    destruct (apply_reads_writes_if_needed cfg b now env) as [b'|]; [|done]. cbn. case_match; [|done]. cbn.
    unfold virtual. cbn. do 3 f_equal. clear. by induction r; cbn; f_equal.
  - unfold do_get_with_hash. cbn [inner with_inner]. destruct (is_map_disabled cfg); [done|].
    change (inner (recount_base b)) with (recount (inner b)). rewrite recount_find.
    destruct (find_valid cfg (inner b) key ig now) as [[ve|]|]; [| |done]; cbn [mbind res_bind].
    + rewrite recount_touch. destruct (touch_entry cfg (inner b) ve now) as [[[s t] x]|]; [|done]. cbn [mbind res_bind].
      destruct rec as [env|]; [|done]. change (with_inner (recount_base b) (recount s)) with (recount_base (with_inner b s)).
      rewrite recount_read by done. by destruct (record_read_op _ _ _ _ _).
    + destruct rec as [env|]; [|done].
      rewrite recount_read by done. by destruct (record_read_op _ _ _ _ _).
  - unfold invalidate_all. cbn [recount with_counts valid_after]. by destruct (set_instant _ _).
  - unfold invalidate_entries_if. cbn [recount with_counts invalidator]. destruct (invalidator (inner b)); [|by destruct b].
    by destruct (register_predicate _ _ _ _) as [[]|].
  - done.
Qed.
End recount.

(** ** The invariant *)

Section safety.
Context {K V : Type} `{Countable K}.
Variable cfg : Config K V.
Context (Huser : user_ok cfg) (Hsafe : sketch_safe cfg).
Variable inv_on : bool.
Implicit Types (s : Inner K V) (b : BaseCache K V) (es : EvictionState) (r : list (WriteOp K V)) (e : event (K := K) (V := V))
  (sys : Sys (K := K) (V := V)) (m : gmap K (V * Instant)) (rs : RSys (K := K) (V := V)).

(** What an operation leaves alone, as the run sees it. *)
Record spared b b' : Prop := {
  sp_mem : env_le (mem (inner b)) (mem (inner b'));
  sp_enabled : is_Some (invalidator (inner b')) <-> is_Some (invalidator (inner b));
  sp_counts : entry_count (inner b') = entry_count (inner b) /\ weighted_size (inner b') = weighted_size (inner b);
  sp_hk : housekeeper b' = housekeeper b
}.

Lemma spared_refl b : spared b b.
Proof. by split. Qed.
Lemma spared_trans b b1 b2 : spared b b1 -> spared b1 b2 -> spared b b2.
Proof. intros [M1 I1 [C1 D1] H1] [M2 I2 [C2 D2] H2]. split; [by etransitivity|by rewrite I2|split; congruence|congruence]. Qed.
Lemma spared_step b s' : op_step cfg (inner b) s' -> invalidator s' = invalidator (inner b) -> spared b (with_inner b s').
Proof. intros Hop Hi. split; cbn; [split; apply Hop|by rewrite Hi|apply Hop|done]. Qed.

Lemma spared_read b (op : ReadOp V) now env b' : hk_locked env = true -> record_read_op cfg b op now env = Ok b' -> spared b b'.
Proof.
  intros Hl. unfold record_read_op. destruct (apply_reads_if_needed cfg b now env) as [b1|] eqn:E; [|done].
  rewrite (proj1 (recount_locked cfg 0 0 b now env Hl) _ E). cbn. intros [= <-]. by case_match.
Qed.

Lemma spared_exec n m sys e sys' o :
  sys_inv cfg n m sys -> event_ok sys e -> passive e = true -> exec cfg sys e = Ok (sys', o) -> spared (base sys) (base sys').
Proof.
  intros S He Hp. destruct e as [key v ts now|key now|i now env|key ig nk now rec|now|uuid f now|env]; cbn [exec passive event_ok] in *.
  - destruct (is_map_disabled cfg); [intros [= <- <-]; apply spared_refl|].
    destruct (do_insert_ok cfg Huser (inner (base sys)) key (hasher cfg key) v ts now (si_cache S) He)
      as (s' & op & -> & Hop & _ & _ & _ & _ & Hi & _). cbn. intros [= <- <-]. by apply spared_step.
  - destruct (do_invalidate_ok cfg (inner (base sys)) key now (si_cache S)) as (s' & x & -> & Hop & _ & _ & Hi & _). cbn.
    intros [= <- <-]. by apply spared_step.
  - unfold send_attempt. destruct (in_flight sys !! i); [|intros [= <- <-]; apply spared_refl].
    destruct (apply_reads_writes_if_needed cfg (base sys) now env) as [b1|] eqn:E; [|done].
    rewrite (proj1 (proj2 (recount_locked cfg 0 0 (base sys) now env Hp)) _ E). cbn. case_match; intros [= <- <-]; by split.
  - destruct He as [Hnow _]. unfold do_get_with_hash. destruct (is_map_disabled cfg); [intros [= <- <-]; apply spared_refl|].
    destruct (find_valid_ok cfg (inner (base sys)) key ig now (si_cache S)) as (x & -> & Hx). cbn [mbind res_bind].
    assert (Hrec : forall b1 (op : ReadOp V) t b2, match rec with Some env => record_read_op cfg b1 op t env | None => Ok b1 end = Ok b2 -> spared b1 b2).
    { intros b1 op t b2. destruct rec as [env|]; [by apply spared_read|]. intros [= <-]. apply spared_refl. }
    clear Hp.
    destruct x as [ve|].
    + destruct Hx as [Hc _]. destruct (si_cache S) as (_ & P & Q & B & I).
      destruct (touch_entry_ok cfg Huser (inner (base sys)) ve now (si_cache S) (cache_ent cfg _ _ _ _ _ _ _ _ I Hc) Hnow)
        as (s1 & t1 & x1 & -> & Hop & _ & _ & _ & _ & Hi & _). cbn [mbind res_bind].
      destruct (match rec with Some _ => _ | None => _ end) as [b2|] eqn:E; [|done]. cbn. intros [= <- <-].
      eapply spared_trans; [by apply spared_step|by eapply Hrec].
    + destruct (match rec with Some _ => _ | None => _ end) as [b2|] eqn:E; [|done]. cbn. intros [= <- <-]. by eapply Hrec.
  - unfold invalidate_all. destruct (set_instant _ _); [|done]. cbn. intros [= <- <-]. by split.
  - unfold invalidate_entries_if. destruct (invalidator (inner (base sys))) eqn:Ei; [|cbn; intros [= <- <-]; by split; cbn; rewrite ?Ei].
    destruct (register_predicate _ _ _ _) as [[i' id]|]; [|done]. cbn. intros [= <- <-]. split; cbn; rewrite ?Ei; done.
  - done.
Qed.

(** A suspended run, with the writes it holds and the memory it last saw. *)
Record run_inv n m sys (a : RunArgs) (t : Run K V) r (mm : Mem K) : Prop := {
  ri_sys : sys_inv cfg n m (virtual (ec_entry_count (counters (run_state t))) (ec_weighted_size (counters (run_state t))) r sys);
  ri_safe : safe cfg inv_on (applied []) (run_prog t) r mm;
  ri_mem : env_le mm (mem (inner (base sys)));
  ri_counts : entry_count (inner (base sys)) = ra_entry_count a /\ weighted_size (inner (base sys)) = ra_weighted_size a;
  ri_evictions : 0 <= run_last_eviction_count t /\ run_last_eviction_count t <= ec_eviction_count (counters (run_state t)) <= U64_MAX;
  ri_calls : 0 <= run_calls t <= ra_repeats a + (if run_evicting t then 1 else 0);
  ri_repeats : ra_repeats a < U32_MAX
}.

Definition rinv n m rs : Prop :=
  (is_Some (invalidator (inner (base (rs_sys rs)))) <-> inv_on = true) /\
  (forall hk, housekeeper (base (rs_sys rs)) = Some hk -> max_log_sync_repeats hk < U32_MAX) /\
  match rs_run rs with
  | None => sys_inv cfg n m (rs_sys rs)
  | Some (a, t) => exists r mm, run_inv n m (rs_sys rs) a t r mm
  end.

(** The counters of a run are its cache's. *)
Lemma virtual_good n m sys es r : sys_inv cfg n m (virtual (ec_entry_count (counters es)) (ec_weighted_size (counters es)) r sys) ->
  good cfg [] (inner (base sys)) (counters es).
Proof. intros S. destruct (si_cache S) as (Hw & P & Q & B & I). split; [done|]. exists P, Q, B. by destruct I. Qed.

Lemma virtual_run_ok n m sys es r :
  sys_inv cfg n m (virtual (ec_entry_count (counters es)) (ec_weighted_size (counters es)) r sys) -> n <= MAX_WRITES ->
  (is_Some (invalidator (inner (base sys))) <-> inv_on = true) -> ec_eviction_count (counters es) <= U64_MAX ->
  run_ok cfg inv_on (inner (base sys)) es r.
Proof.
  intros S Hn Hi He. destruct (si_bounds S) as [B1 B2]. cbn [virtual in_flight base] in B1, B2.
  destruct (log_app r (in_flight sys)) as [A1 A2]. rewrite A1 in B1. rewrite A2 in B2.
  destruct (log_bounds (mem (inner (base sys))) (in_flight sys)) as [L1 L2].
  { intros op Hop. apply (si_flight S). apply elem_of_app. by right. }
  unfold entry_bound, weight_bound in B1, B2.
  cbn [recount_base with_inner inner recount with_counts entry_count weighted_size write_op_ch] in B1, B2.
  unfold MAX_WRITES, U32_MAX, U64_MAX in *. split; try done.
  - by eapply virtual_good.
  - intros op Hop. apply (si_flight S). apply elem_of_app. by left.
  - unfold U64_MAX. lia.
  - unfold U64_MAX. lia.
Qed.

(** A step of the run. *)
Lemma step_virtual n m sys es r s' es' r' :
  sys_inv cfg n m (virtual (ec_entry_count (counters es)) (ec_weighted_size (counters es)) r sys) ->
  step_ok cfg (inner (base sys)) es r s' es' r' ->
  sys_inv cfg n m (virtual (ec_entry_count (counters es')) (ec_weighted_size (counters es')) r' (mkSys (with_inner (base sys) s') (in_flight sys))).
Proof.
  intros [I Hhk Hf [Hb1 Hb2] Hr Hw Hs] [(Hw' & P & Q & B & I') M' X' C' _ _ _ [L1 L2] R' E' W' _].
  cbn [virtual base in_flight recount_base inner with_inner housekeeper] in *.
  destruct (log_app r (in_flight sys)) as [A1 A2], (log_app r' (in_flight sys)) as [A3 A4].
  split; cbn [virtual base in_flight recount_base inner with_inner housekeeper]; try done.
  - split; [done|]. exists P, Q, B. by apply inv_with_counts.
  - intros op [Hop|Hop]%elem_of_app; [by apply R'|]. eapply write_wf_le; [exact M'|]. apply Hf, elem_of_app. by right.
  - unfold bounded_by, entry_bound, weight_bound in *.
    cbn [recount with_counts entry_count weighted_size write_op_ch] in *. rewrite A3, A4. rewrite A1 in Hb1. rewrite A2 in Hb2. lia.
  - cbn in *. lia.
  - cbn in *. lia.
  - eapply (never_lies_view cfg m (recount _ _ _)); [exact C'|by apply same_view_modified|exact Hs].
Qed.

(** The end of a run leaves the cache as [System] knows it. *)
Lemma end_virtual n m sys es now more :
  sys_inv cfg n m (virtual (ec_entry_count (counters es)) (ec_weighted_size (counters es)) [] sys) -> instant_ok now ->
  exists b', end_run (base sys) (with_counts (inner (base sys)) (ec_entry_count (counters es)) (ec_weighted_size (counters es))) now more = Ok b' /\
    sys_inv cfg n m (mkSys b' (in_flight sys)) /\ invalidator (inner b') = invalidator (inner (base sys)) /\
    forall hk', housekeeper b' = Some hk' -> exists hk, housekeeper (base sys) = Some hk /\ max_log_sync_repeats hk' = max_log_sync_repeats hk.
Proof.
  intros [I (hk & Hhk & [Ha Hre] & Hau) Hf Hb Hr Hw Hs] Hnow. cbn in Hhk. unfold end_run. rewrite Hhk. cbn [mbind res_bind expect_some].
  destruct (set_instant_ok (run_after hk) _ (sync_after_ok now Hnow)) as [-> _]. cbn [mbind res_bind]. eexists. split; [reflexivity|].
  split; [|split; [done|]; intros hk' [= <-]; eauto]. split; try done. eexists. split; [reflexivity|]. split; [|done].
  split; [by apply sync_after_ok|done].
Qed.

(** ** Every event keeps the invariant *)

Ltac run_split := split; cbn [run_state run_prog run_evicting run_calls run_last_eviction_count counters with_more inner base with_inner in_flight];
  try done; try lia.

Lemma run_step_inv n m sys a t r mm :
  run_inv n m sys a t r mm -> n <= MAX_WRITES -> (is_Some (invalidator (inner (base sys))) <-> inv_on = true) ->
  exists s' x, run_step cfg a t (inner (base sys)) = Ok (s', x) /\ (is_Some (invalidator s') <-> inv_on = true) /\
    match x with
    | inl t' => exists r' mm', run_inv n m (mkSys (with_inner (base sys) s') (in_flight sys)) a t' r' mm'
    | inr more => exists es, s' = with_counts (inner (base sys)) (ec_entry_count (counters es)) (ec_weighted_size (counters es)) /\
        sys_inv cfg n m (virtual (ec_entry_count (counters es)) (ec_weighted_size (counters es)) [] sys)
    end.
Proof.
  intros [S Hp Hm [Hc1 Hc2] [Hev0 Hev] Hca Hre] Hn Hi. set (s := inner (base sys)) in *. destruct t as [es p ev rd calls last].
  cbn [run_state run_prog run_evicting run_calls run_last_eviction_count] in *.
  pose proof (virtual_run_ok n m sys es r S Hn Hi (proj2 Hev)) as Hro. unfold run_step. cbn [run_prog run_state run_evicting run_round run_calls run_last_eviction_count].
  assert (Hsame : mkSys (with_inner (base sys) s) (in_flight sys) = sys) by (by destruct sys as [[] ?]).
  destruct p as [[]|f].
  - cbn in Hp. unfold applied in Hp. subst r. destruct ev.
    + unfold end_round. cbn [run_state run_calls run_last_eviction_count run_round]. rewrite checked_sub_ok by lia. cbn [mbind res_bind]. cbv zeta.
      destruct (orb _ _) eqn:Hend.
      * rewrite Hc1, Hc2, !Z.eqb_refl. cbn [mbind res_bind assert_that]. eexists _, _. split; [reflexivity|]. split; [done|]. by exists es.
      * eexists s, _. split; [reflexivity|]. split; [done|].
        rewrite Hsame. exists [], (mem s).
        destruct (andb (calls <=? _) _) eqn:Hsl; unfold start_round, start_evicting.
        -- apply andb_true_iff in Hsl as [Hle%Z.leb_le _]. run_split.
           by apply logs_safe.
        -- run_split. eapply triple_applied; [by apply round_quiet|done].
    + rewrite checked_add_ok by (unfold U32_MAX in *; lia). cbn [mbind res_bind]. eexists s, _. split; [reflexivity|]. split; [done|].
      rewrite Hsame. exists [], (mem s). unfold start_evicting. run_split. eapply triple_applied; [by apply round_quiet|done].
  - specialize (Hp s es Hm Hro). destruct (f (s, es)) as [[[s' es'] p']|] eqn:Ef; [|done]. destruct Hp as (r' & Hs & Hp').
    cbn [mbind res_bind]. eexists s', _. split; [reflexivity|]. split; [by rewrite (so_enabled _ _ _ _ _ _ _ Hs)|].
    exists r', (mem s'). run_split.
    + by eapply step_virtual.
    + destruct (so_counts _ _ _ _ _ _ _ Hs) as [-> ->]. done.
    + pose proof (so_evictions _ _ _ _ _ _ _ Hs). lia.
Qed.

(** What a lookup answers. *)
Definition lookup_ok m sys (ev : revent (K := K) (V := V)) (o : option (Entry K V)) : Prop :=
  match ev with RClient (EGet key _ _ now _) => answer_ok cfg m (inner (base sys)) key now o | _ => True end.

Lemma exec_answer n m sys e :
  sys_inv cfg n m sys -> event_ok sys e -> n + writes_of e <= MAX_WRITES ->
  exists sys' o, exec cfg sys e = Ok (sys', o) /\ sys_inv cfg (n + writes_of e) (spec_step cfg m e) sys' /\ lookup_ok m sys (RClient e) o.
Proof.
  intros S He Hn. destruct (exec_step cfg Huser Hsafe n m sys e S He Hn) as (sys' & o & E & S'). exists sys', o.
  do 2 (split; [done|]). destruct e as [| | |key ig nk now rec| | |]; try done. destruct He as [Hnow Henv]. cbn [writes_of] in Hn.
  destruct (exec_get cfg Huser Hsafe n m sys key ig nk now rec S ltac:(lia) Hnow Henv) as (sys2 & o2 & E2 & _ & Ha).
  rewrite E in E2. by injection E2 as <- <-.
Qed.

(** The operations do not touch the counters. *)
Lemma exec_counts sys e sys' o : passive e = true -> exec cfg sys e = Ok (sys', o) ->
  entry_count (inner (base sys')) = entry_count (inner (base sys)) /\ weighted_size (inner (base sys')) = weighted_size (inner (base sys)).
Proof.
  intros Hp E. pose proof (virtual_exec cfg (entry_count (inner (base sys))) (weighted_size (inner (base sys))) [] sys e Hp) as HV.
  rewrite E in HV. cbn [mbind res_bind] in HV.
  assert (Hs : virtual (entry_count (inner (base sys))) (weighted_size (inner (base sys))) [] sys = sys) by by destruct sys as [[[] ?] ?].
  assert (He : shift [] e = e) by by destruct e. rewrite Hs, He, E in HV. injection HV as HV. rewrite HV. done.
Qed.

Lemma client_keeps n m rs e :
  rinv n m rs -> passive e = true -> event_ok (rs_sys rs) e -> n + writes_of e <= MAX_WRITES ->
  exists rs' o, rexec cfg rs (RClient e) = Ok (rs', o) /\ rinv (n + writes_of e) (spec_step cfg m e) rs' /\ lookup_ok m (rs_sys rs) (RClient e) o.
Proof.
  intros (Hi & Hhk & HR) Hp He Hn. destruct rs as [sys [[a t]|]]; cbn [rexec rs_sys rs_run] in *.
  - destruct HR as (r & mm & [S Hs Hm [Hc1 Hc2] Hev Hca Hre]).
    set (ec := ec_entry_count _) in *. set (ws := ec_weighted_size _) in *.
    assert (He' : event_ok (virtual ec ws r sys) (shift r e)) by by destruct e.
    assert (Hp' : passive (shift r e) = true) by by destruct e.
    assert (Hw : writes_of (shift r e) = writes_of e /\ spec_step cfg m (shift r e) = spec_step cfg m e) by by destruct e.
    destruct Hw as [Hw Hsp]. destruct (exec_answer _ _ _ _ S He') as (vsys & o & E & S' & Ha); [by rewrite Hw|].
    pose proof (spared_exec _ _ _ _ _ _ S He' Hp' E) as HD. rewrite virtual_exec in E by done.
    destruct (exec cfg sys e) as [[sys' o']|] eqn:Ereal; [|done]. cbn [mbind res_bind] in E. injection E as <- <-.
    destruct HD as [HM HI [HC1 HC2] HH]. cbn in HM, HI, HH. rewrite Hw, Hsp in S'. cbn [mbind res_bind].
    eexists _, _. split; [reflexivity|]. split; [|by destruct e].
    split; [cbn [rs_sys]; by rewrite HI|]. cbn [rs_sys rs_run]. split; [by rewrite HH|]. exists r, mm. split; try done; [by etransitivity|].
    by destruct (exec_counts _ _ _ _ Hp Ereal) as [-> ->].
  - destruct (exec_answer n m sys e HR He Hn) as (sys' & o & E & S' & Ha). rewrite E. cbn [mbind res_bind].
    pose proof (spared_exec _ _ _ _ _ _ HR He Hp E) as [_ HI _ HH]. eexists _, _. split; [reflexivity|]. split; [|done].
    split; [cbn [rs_sys]; by rewrite HI|]. cbn [rs_sys rs_run]. split; [by rewrite HH|done].
Qed.

Lemma start_keeps n m rs now started rd :
  rinv n m rs -> instant_ok now ->
  exists rs', rexec cfg rs (RStart now started rd) = Ok (rs', None) /\ rinv n m rs'.
Proof.
  intros (Hi & Hhk & HR) Hnow. destruct rs as [sys [[a t]|]]; cbn [rexec rs_sys rs_run] in *.
  { eexists. split; [by destruct (housekeeper (base sys))|done]. }
  destruct (si_hk HR) as (hk & Ehk & [Ha Hr] & Hau). rewrite Ehk. case_bool_decide as Hcap.
  - assert (Hv : sys_inv cfg n m (virtual (entry_count (inner (base sys))) (weighted_size (inner (base sys))) [] sys))
      by (by destruct sys as [[[] ?] ?]).
    destruct (end_virtual n m sys (new_eviction_state (entry_count (inner (base sys))) (weighted_size (inner (base sys)))) now false Hv Hnow)
      as (b' & E & S' & Hi' & Hh').
    assert (Hs : with_counts (inner (base sys)) (entry_count (inner (base sys))) (weighted_size (inner (base sys))) = inner (base sys)) by (by destruct (inner (base sys))).
    cbn in E. rewrite Hs in E. rewrite E. cbn [mbind res_bind]. eexists. split; [reflexivity|]. split; [cbn [rs_sys base]; by rewrite Hi'|].
    split; [|done]. cbn [rs_sys base]. intros hk' Ehk'. destruct (Hh' hk' Ehk') as (h & Eh & ->). by apply Hhk.
  - eexists. split; [reflexivity|]. split; [done|]. split; [done|]. cbn [rs_run rs_sys]. exists [], (mem (inner (base sys))).
    unfold start_run, start_round. run_split; [by destruct sys as [[[] ?] ?]|by apply logs_safe|cbn; lia|by apply Hhk].
Qed.

Lemma step_keeps n m rs now : rinv n m rs -> n <= MAX_WRITES -> instant_ok now ->
  exists rs', rexec cfg rs (RStep now) = Ok (rs', None) /\ rinv n m rs'.
Proof.
  intros (Hi & Hhk & HR) Hn Hnow. destruct rs as [sys [[a t]|]]; cbn [rexec rs_sys rs_run] in *; [|by eexists].
  destruct HR as (r & mm & R). destruct (run_step_inv n m sys a t r mm R Hn Hi) as (s' & x & -> & Hi' & Hx). cbn [mbind res_bind].
  destruct x as [t'|more].
  - by eexists.
  - destruct Hx as (es & -> & S). destruct (end_virtual n m sys es now more S Hnow) as (b' & -> & S' & Ei & Hh').
    cbn [mbind res_bind]. eexists. split; [reflexivity|]. split; [cbn [rs_sys base]; by rewrite Ei|].
    split; [|done]. cbn [rs_sys base]. intros hk' Ehk'. destruct (Hh' hk' Ehk') as (h & Eh & ->). by apply Hhk.
Qed.

Lemma rexec_keeps n m rs ev :
  rinv n m rs -> revent_ok rs ev -> n + rwrites_of ev <= MAX_WRITES ->
  exists rs' o, rexec cfg rs ev = Ok (rs', o) /\ rinv (n + rwrites_of ev) (rspec_step cfg m ev) rs' /\ lookup_ok m (rs_sys rs) ev o.
Proof.
  intros I Hok Hn. destruct ev as [e|now started rd|now]; cbn [revent_ok rwrites_of rspec_step] in *.
  - destruct Hok. by apply client_keeps.
  - rewrite Z.add_0_r. destruct (start_keeps n m rs now started rd I Hok) as (rs' & E & I'). by exists rs', None.
  - rewrite Z.add_0_r in *. destruct (step_keeps n m rs now I Hn Hok) as (rs' & E & I'). by exists rs', None.
Qed.

Lemma rreach_inv b0 n m rs : rinv 0 ∅ (mkRSys (mkSys b0 []) None) -> rreach cfg b0 n m rs -> n <= MAX_WRITES -> rinv n m rs.
Proof.
  intros H0. induction 1 as [|n m rs ev rs' o HR IH Hok E]; [done|]. intros Hn.
  assert (Hw : 0 <= rwrites_of ev) by (destruct ev as [e| |]; [destruct e|..]; cbn; lia).
  destruct (rexec_keeps n m rs ev (IH ltac:(lia)) Hok Hn) as (rs2 & o2 & E2 & I2 & _). rewrite E in E2. by injection E2 as <- <-.
Qed.
End safety.

(** ** What holds while a run is under way *)

Section guarantees.
Context {K V : Type} `{Countable K}.
Variable cfg : Config K V.
Context (Huser : user_ok cfg) (Hsafe : sketch_safe cfg).
Variables (listener : option (K -> V -> RemovalCause -> bool)) (config : HousekeeperConfig) (inv_on : bool)
  (t0 : Instant) (b0 : BaseCache K V).
Context (Ht0 : instant_ok t0) (Hrep : 0 <= cfg_max_log_sync_repeats config < U32_MAX)
  (Hnew : new_base_cache listener config inv_on t0 = Ok b0).
Implicit Types (n : Z) (m : gmap K (V * Instant)) (rs : RSys (K := K) (V := V)).

Lemma rreached_inv n m rs : rreach cfg b0 n m rs -> n <= MAX_WRITES -> rinv cfg inv_on n m rs.
Proof.
  apply rreach_inv; [done|done|]. destruct (start_inv cfg listener config inv_on t0 Ht0 (proj1 Hrep)) as (b & E & S).
  assert (b = b0) as -> by congruence. unfold new_base_cache, new_housekeeper in Hnew.
  destruct (if bool_decide (is_Some listener) then _ else _) as [more timeout]. destruct (new_atomic_instant _) as [after|]; [|done].
  cbn in Hnew. injection Hnew as Hb.
  split; [|split; [|done]]; cbn [rs_sys base].
  - rewrite <- Hb. cbn. destruct inv_on; split; intros; (done || eauto).
  - rewrite <- Hb. cbn. intros hk [= <-]. apply Hrep.
Qed.

(** C19. A maintenance run that is suspended at its await points tolerates whatever the
    other tasks do meanwhile: in every interleaving of its steps with insertions,
    removals, lookups, the sending of writes and invalidations, no operation and no
    step of the run faults, and a lookup in the middle of a run answers with a value
    only if it is the last one written under the key and not expired or
    invalidated.  For every [sketch_safe] configuration (any, in a build without
    overflow checks) and fewer than [2^32 - 1] configured repeats of a run. *)
Theorem interleaved_safe n m rs ev :
  rreach cfg b0 n m rs -> revent_ok rs ev -> n + rwrites_of ev <= MAX_WRITES ->
  exists rs' o, rexec cfg rs ev = Ok (rs', o) /\ lookup_ok cfg m (rs_sys rs) ev o.
Proof.
  intros HR Hok Hn. assert (Hw : 0 <= rwrites_of ev) by (destruct ev as [e| |]; [destruct e|..]; cbn; lia).
  destruct (rexec_keeps cfg Huser Hsafe inv_on n m rs ev (rreached_inv n m rs HR ltac:(lia)) Hok Hn) as (rs' & o & E & _ & Ha). eauto.
Qed.

(** The counters are exact at every await point: those of the run while one is
    under way, those of the cache between two runs, are the number of entries in
    the queues. *)
Theorem interleaved_counters n m rs :
  rreach cfg b0 n m rs -> n <= MAX_WRITES ->
  let s := inner (base (rs_sys rs)) in
  match rs_run rs with
  | Some (_, t) => ec_entry_count (counters (run_state t)) = Z.of_nat (size (admitted_entries s)) /\
                      0 <= ec_weighted_size (counters (run_state t)) <= n * U32_MAX
  | None => entry_count s = Z.of_nat (size (admitted_entries s)) /\ 0 <= weighted_size s <= n * U32_MAX
  end.
Proof.
  intros HR Hn. destruct (rreached_inv n m rs HR Hn) as (_ & _ & I). cbv zeta. destruct (rs_run rs) as [[a t]|].
  - destruct I as (r & mm & R). pose proof (ri_sys _ _ _ _ _ _ _ _ _ R) as S. destruct (virtual_good _ _ _ _ _ _ S) as (Hw & P & Q & B & I).
    split; [by eapply admitted_size|]. split; [done|]. pose proof (si_bounds S) as [_ Hb]. destruct (log_bounds _ _ (si_flight S)) as [_ L1].
    destruct (log_bounds _ _ (i_writes I)) as [_ L2]. unfold weight_bound in Hb.
    cbn [virtual base recount_base with_inner inner recount with_counts weighted_size write_op_ch] in *. lia.
  - destruct (si_cache I) as (Hw & P & Q & B & J). split; [by eapply admitted_size|]. split; [done|].
    pose proof (si_bounds I) as [_ Hb]. destruct (log_bounds _ _ (si_flight I)) as [_ L1].
    destruct (log_bounds _ _ (i_writes J)) as [_ L2]. unfold weight_bound in Hb. lia.
Qed.
End guarantees.

(** ** The statements at work *)
Module RunWitnesses.
Import Guarantees.Sample.
Notation rsys := (RSys (K := Z) (V := Z)).

Definition busy (t : Instant) : HkEnv := mkHkEnv true t (fun _ => mkReadings t t t t) t.
Definition put_now (k v t : Z) : list (revent (K := Z) (V := Z)) := [RClient (EInsert k v t t); RClient (ESend 0 t (busy t))].
Definition look_now (k t : Z) : revent (K := Z) (V := Z) := RClient (EGet k None true t (Some (busy t))).
Definition begin (t : Z) : revent (K := Z) (V := Z) := RStart t t (fun _ => mkReadings t t t t).

Fixpoint rplay (rs : rsys) (l : list (revent (K := Z) (V := Z))) : res (rsys * list (option (Entry Z Z))) :=
  match l with
  | [] => Ok (rs, [])
  | ev :: l => '(rs, o) ← rexec config rs ev; '(rs, os) ← rplay rs l; Ok (rs, o :: os)
  end.
Definition checked_ev (ev : revent (K := Z) (V := Z)) : bool :=
  let ok t := (0 <=? t) && (t <=? MAX_NANOS) in
  match ev with
  | RClient (EInsert _ _ t _) => ok t
  | RClient (ESend _ _ env) => hk_locked env && ok (hk_now env)
  | RClient (EGet _ _ _ t (Some env)) => hk_locked env && ok t && ok (hk_now env)
  | RStart t _ _ | RStep t => ok t
  | _ => false
  end.
Lemma checked_ev_ok rs ev : checked_ev ev = true -> revent_ok rs ev.
Proof.
  destruct ev as [e|t st rd|t]; [|by intros Hok; apply ok_at..].
  destruct e as [k v t now|key now|i now env|key ig nk now [env|]|now|uuid f now|env]; cbn [checked_ev revent_ok passive event_ok]; try done.
  - intros Hok. split; [done|by apply ok_at].
  - intros [Hl Hok]%andb_prop. split; [done|by apply ok_at].
  - intros [[Hl Hok]%andb_prop Hok2]%andb_prop. split; [done|]. split; [by apply ok_at|]. intros e [= <-]. by apply ok_at.
Qed.

Lemma rplay_reach b0 : forall l n m rs rs' os, rreach config b0 n m rs -> forallb checked_ev l = true -> rplay rs l = Ok (rs', os) ->
  rreach config b0 (foldl (fun n ev => n + rwrites_of ev) n l) (foldl (rspec_step config) m l) rs'.
Proof.
  induction l as [|ev l IH]; cbn; intros n m rs rs' os HR Hok E; [by injection E as <- <-|]. apply andb_prop in Hok as [He Hok].
  destruct (rexec config rs ev) as [[rs1 o]|] eqn:E1; [|done]. cbn in E. destruct (rplay rs1 l) as [[rs2 os2]|] eqn:E2; [|done].
  cbn in E. injection E as <- <-. eapply IH; [|done|exact E2]. eapply rr_step; [exact HR|by apply checked_ev_ok|exact E1].
Qed.
Definition rplayed (b : BaseCache Z Z) l : rsys := match rplay (mkRSys (mkSys b []) None) l with Ok (rs, _) => rs | Fail _ => mkRSys (mkSys b []) None end.
Lemma rplayed_reach b l : forallb checked_ev l = true -> (if rplay (mkRSys (mkSys b []) None) l then true else false) = true ->
  rreach config b (foldl (fun n ev => n + rwrites_of ev) 0 l) (foldl (rspec_step config) ∅ l) (rplayed b l).
Proof.
  intros Hok. unfold rplayed. destruct (rplay (mkRSys (mkSys b []) None) l) as [[rs os]|] eqn:E; [|done]. intros _.
  exact (rplay_reach b l 0 ∅ _ rs os (rr_start config b) Hok E).
Qed.

(** Six writes are in the log when the run starts; in the middle of it a value is
    replaced and a lookup comes. *)
Definition before : list (revent (K := Z) (V := Z)) := concat (map (fun k => put_now k (10 * k) 5) [1; 2; 3; 4; 5; 6]).
Definition midway : list (revent (K := Z) (V := Z)) := before ++ begin 6 :: repeat (RStep 6) 9 ++ put_now 1 11 7.
Definition mid : rsys := rplayed start midway.
Definition mid_spec : gmap Z (Z * Instant) := foldl (rspec_step config) ∅ midway.
Lemma mid_reach : rreach config start 7 mid_spec mid.
Proof. apply (rplayed_reach start midway); vm_compute; reflexivity. Qed.
(** The run is under way: it has admitted some of the writes and holds the others. *)
Example mid_running : match rs_run mid with Some (_, t) => ec_entry_count (counters (run_state t)) | None => -1 end = 2 /\
  length (write_op_ch (inner (base (rs_sys mid)))) = 4%nat.
Proof. vm_compute. done. Qed.

Definition few_repeats : HousekeeperConfig := mkHousekeeperConfig (from_millis 100) 4 1.
Lemma few_repeats_ok : 0 <= cfg_max_log_sync_repeats few_repeats < U32_MAX.
Proof. done. Qed.

Lemma interleaved_safe_witness : exists rs' o, rexec config mid (look_now 1 8) = Ok (rs', o) /\
  option_map en_value o = Some 11 /\ answer_ok config mid_spec (inner (base (rs_sys mid))) 1 8 o.
Proof.
  destruct (interleaved_safe config user safe quiet_listener few_repeats true 0 start ltac:(by apply ok_at) few_repeats_ok start_ok 7 mid_spec mid (look_now 1 8)
    mid_reach) as (rs' & o & E & Ha); [by apply checked_ev_ok|done|]. exists rs', o. split; [exact E|]. split; [|exact Ha].
  assert (Hv : match rexec config mid (look_now 1 8) with Ok (_, o) => option_map en_value o | Fail _ => None end = Some 11) by (vm_compute; reflexivity).
  rewrite E in Hv. exact Hv.
Defined.

Lemma interleaved_counters_witness : match rs_run mid with
  | Some (_, t) => ec_entry_count (counters (run_state t)) = Z.of_nat (size (admitted_entries (inner (base (rs_sys mid)))))
  | None => False
  end.
Proof.
  pose proof (interleaved_counters config user safe quiet_listener few_repeats true 0 start ltac:(by apply ok_at) few_repeats_ok start_ok 7 mid_spec mid mid_reach) as Hc.
  assert (Hr : (if rs_run mid then true else false) = true) by (vm_compute; reflexivity).
  destruct (rs_run mid) as [[a t]|]; [apply Hc; done|discriminate Hr].
Defined.

(** Left alone, the run ends with the cache at its capacity. *)
Example run_ends : let rs := rplayed start (midway ++ repeat (RStep 8) 80) in
  (if rs_run rs then false else true) = true /\ entry_count (inner (base (rs_sys rs))) = 4 /\ size (cache (inner (base (rs_sys rs)))) = 4%nat.
Proof. vm_compute. done. Qed.
End RunWitnesses.
