(* ===== verification/FutureRunEnds.v ===== *)
(** A suspended maintenance run that is resumed and left alone ends.

    A program is a well-founded tree, so each part of a round ends; what has to be
    shown is that there are finitely many rounds.  A round that is followed by
    another one has applied the logs, which is counted, or has evicted something.  An
    eviction removes an entry from the table before it counts it: a [thrifty]
    program counts no more evictions than it removes entries, so the table is
    smaller after such a round. *)
From S2P Require Import Prelude Common FrequencySketch Deque Time Housekeeper EntryInfo Concurrent Deques.
From S2P Require Import TimerWheel Policy Invalidator Inner BaseCache InnerInv InnerRemove Admission Eviction Scan Maintenance Operations System Guarantees.
From S2P Require Import FutureOps FutureRun FutureRunInv FutureRunSys.

(** ** Evictions and removals *)

Section thrift.
Context {K V : Type} `{Countable K}.
Variable cfg : Config K V.
Implicit Types (s : Inner K V) (es : EvictionState) (ve : ValueEntry V).
Notation M := (prog (Inner K V * EvictionState)).

Definition potential s es : Z := Z.of_nat (size (cache s)) + ec_eviction_count (counters es).

(** The program counts at most [d] evictions more than it removes entries. *)
Fixpoint thrifty {A} (d : Z) (p : M A) : Prop :=
  match p with
  | Ret _ => 0 <= d
  | Act f => forall s es, match f (s, es) with
                          | Ok (s', es', p') => exists d', potential s' es' + d' <= potential s es + d /\ thrifty d' p'
                          | Fail _ => True
                          end
  end.

Lemma thrifty_weaken {A} (p : M A) : forall d d', d <= d' -> thrifty d p -> thrifty d' p.
Proof.
  destruct p as [a|f]; cbn; intros d d' Hd Hp; [lia|]. intros s es. specialize (Hp s es).
  destruct (f (s, es)) as [[[s' es'] p']|]; [|done]. destruct Hp as (x & Hx & Hp). exists x. split; [lia|done].
Qed.

Lemma thrifty_bind {A B} (k : A -> M B) d2 : (forall a, thrifty d2 (k a)) ->
  forall (p : M A) d1, thrifty d1 p -> thrifty (d1 + d2) (p ≫= k).
Proof.
  intros Hk. fix IH 1. intros [a|f] d1 Hp.
  - eapply thrifty_weaken; [|apply Hk]. cbn in Hp. lia.
  - intros s es. specialize (Hp s es). destruct (f (s, es)) as [[[s' es'] p']|]; [|done]. cbn.
    destruct Hp as (x & Hx & Hp). exists (x + d2). split; [lia|]. by apply (IH p').
Qed.
Lemma thrifty_seq {A B} (p : M A) (k : A -> M B) d : thrifty d p -> (forall a, thrifty 0 (k a)) -> thrifty d (p ≫= k).
Proof. intros Hp Hk. rewrite <- (Z.add_0_r d). by apply thrifty_bind. Qed.

Lemma thrifty_act {A} d (f : Inner K V * EvictionState -> res (Inner K V * EvictionState * M A)) :
  (forall s es s' es' p', f (s, es) = Ok (s', es', p') -> exists d', potential s' es' + d' <= potential s es + d /\ thrifty d' p') ->
  thrifty d (Act f).
Proof. intros Hf s es. destruct (f (s, es)) as [[[s' es'] p']|] eqn:E; [by apply Hf|done]. Qed.

(** A step that leaves the table and the evictions alone. *)
Lemma thrifty_same {A} (f : Inner K V * EvictionState -> res (Inner K V * EvictionState * M A)) :
  (forall s es s' es' p', f (s, es) = Ok (s', es', p') ->
     cache s' = cache s /\ ec_eviction_count (counters es') = ec_eviction_count (counters es) /\ thrifty 0 p') ->
  thrifty 0 (Act f).
Proof.
  intros Hf. apply thrifty_act. intros s es s' es' p' E. destruct (Hf _ _ _ _ _ E) as (Hc & He & Hp). exists 0.
  split; [|done]. unfold potential. rewrite Hc, He. lia.
Qed.
Lemma thrifty_choose {A} (f : Inner K V -> EvictionState -> M A) : (forall s es, thrifty 0 (f s es)) ->
  thrifty 0 (Act (fun '(s, es) => Ok (s, es, f s es))).
Proof. intros Hf. apply thrifty_same. intros s es s' es' p' [= <- <- <-]. auto. Qed.
Lemma thrifty_step_same {A} (f : Inner K V * EvictionState -> res (Inner K V * EvictionState * A)) :
  (forall s es s' es' a, f (s, es) = Ok (s', es', a) ->
     cache s' = cache s /\ ec_eviction_count (counters es') = ec_eviction_count (counters es)) -> thrifty 0 (step f).
Proof.
  intros Hf. apply thrifty_same. intros s es s' es' p' E. destruct (f (s, es)) as [[[s1 es1] a]|] eqn:E1; [|done].
  cbn in E. injection E as <- <- <-. destruct (Hf _ _ _ _ _ E1). done.
Qed.

Lemma thrifty_each {A} (f : A -> M unit) l : (forall x, thrifty 0 (f x)) -> thrifty 0 (for_each f l).
Proof. intros Hf. induction l as [|x l IH]; [done|]. by apply thrifty_seq. Qed.
Lemma thrifty_until {B} n (f : B -> M (bool * B)) : (forall b, thrifty 0 (f b)) -> forall b, thrifty 0 (for_until n f b).
Proof. intros Hf. induction n as [|n IH]; intros b; [done|]. apply thrifty_seq; [done|]. intros [[] b']; [done|apply IH]. Qed.

Lemma ok3 {A B C} (a a' : A) (b b' : B) (c c' : C) : Ok (a, b, c) = Ok (a', b', c') -> a = a' /\ b = b' /\ c = c'.
Proof. by intros [= <- <- <-]. Qed.

(** ** The handlers of a round *)

Lemma deschedule_cache s ve s' : take_and_deschedule s ve = Ok s' -> cache s' = cache s.
Proof. unfold take_and_deschedule. intros E. res_inv. repeat (case_match || res_inv); by simplify_eq. Qed.
Lemma sub_evictions c n w c' : counters_saturating_sub c n w = Ok c' -> ec_eviction_count c' = ec_eviction_count c.
Proof. unfold counters_saturating_sub. intros E. by res_inv. Qed.

Definition tidy s c s' c' : Prop := cache s' = cache s /\ ec_eviction_count c' = ec_eviction_count c.

Lemma remove_without_tidy s ve gen c s' c' : handle_remove_without_timer_wheel s ve gen c = Ok (s', c') -> tidy s c s' c'.
Proof.
  unfold handle_remove_without_timer_wheel. intros (ei & _ & E)%bind_Ok. apply bind_Ok in E as (_ & _ & E).
  apply bind_Ok in E as ([s1 c1] & E1 & E). assert (T1 : tidy s c s1 c1).
  { destruct (is_admitted ei).
    - apply bind_Ok in E1 as (m & _ & E1). apply bind_Ok in E1 as (c2 & Hc%sub_evictions & E1). apply bind_Ok in E1 as ([m2 ds] & _ & E1).
      apply bind_Ok in E1 as ([m3 d] & _ & [= <- <-]). done.
    - by apply bind_Ok in E1 as (m & _ & [= <- <-]). }
  destruct gen; [|by injection E as <- <-]. by apply bind_Ok in E as (m & _ & [= <- <-]).
Qed.
Lemma remove_tidy s ve gen c s' c' : handle_remove s ve gen c = Ok (s', c') -> tidy s c s' c'.
Proof.
  unfold handle_remove. intros (s1 & E1%deschedule_cache & E)%bind_Ok. apply remove_without_tidy in E as [H1 H2].
  split; [congruence|done].
Qed.
Lemma remove_with_tidy r s ve c s' c' : handle_remove_with_deques r s ve c = Ok (s', c') -> tidy s c s' c'.
Proof.
  unfold handle_remove_with_deques. intros (ei & _ & E)%bind_Ok. apply bind_Ok in E as (_ & _ & E).
  apply bind_Ok in E as (s1 & Hc%deschedule_cache & E). destruct (is_admitted ei).
  - apply bind_Ok in E as (m & _ & E). apply bind_Ok in E as (c2 & Hc2%sub_evictions & E). apply bind_Ok in E as (ao & _ & E).
    apply bind_Ok in E as ([m2 ao2] & _ & E). apply bind_Ok in E as ([m3 wo] & _ & [= <- <-]). by split; [cbn|].
  - apply bind_Ok in E as (m & _ & [= <- <-]). by split; [cbn|].
Qed.
Lemma skip_ao_cache r s key s' : skip_updated_entry_ao r s key = Ok s' -> cache s' = cache s.
Proof.
  unfold skip_updated_entry_ao. intros (ao & _ & E)%bind_Ok. destruct (cht_get s key).
  - apply bind_Ok in E as ([m ao2] & _ & E). apply bind_Ok in E as (ei & _ & E). by apply bind_Ok in E as ([m2 wo] & _ & [= <-]).
  - by apply bind_Ok in E as ([h ao2] & _ & [= <-]).
Qed.
Lemma skip_wo_cache s key s' : skip_updated_entry_wo s key = Ok s' -> cache s' = cache s.
Proof.
  unfold skip_updated_entry_wo. destruct (cht_get s key).
  - intros ([m ds] & _ & E)%bind_Ok. by apply bind_Ok in E as ([m2 wo] & _ & [= <-]).
  - by intros ([h wo] & _ & [= <-])%bind_Ok.
Qed.

(** An entry is removed, and one eviction may be counted for it. *)
Lemma cht_remove_size s (key : K) cond s' o : cht_remove_if_and_retire s key cond = Ok (s', o) ->
  Z.of_nat (size (cache s')) + (if o then 1 else 0) = Z.of_nat (size (cache s)).
Proof.
  unfold cht_remove_if_and_retire. destruct (cache s !! key) as [ve|] eqn:Hc; [|intros [= <- <-]; lia].
  intros (ei & _ & E)%bind_Ok. destruct (cond ve ei); [|injection E as <- <-; lia]. apply bind_Ok in E as (ei' & _ & [= <- <-]). cbn.
  rewrite map_size_delete, Hc. assert (size (cache s) <> 0%nat) by (rewrite map_size_ne_0_lookup; eauto). lia.
Qed.
Lemma thrifty_remove {A} (key : K) cond (k : option (ValueEntry V) -> M A) :
  (forall ve, thrifty 1 (k (Some ve))) -> thrifty 0 (k None) ->
  thrifty 0 (Act (fun '(s, es) => '(s, removed) ← cht_remove_if_and_retire s key cond; Ok (s, es, k removed))).
Proof.
  intros Hs Hn. apply thrifty_act. intros s es s' es' p' E. apply bind_Ok in E as ([s1 o] & E1%cht_remove_size & [= <- <- <-]).
  exists (if o then 1 else 0). split; [unfold potential; lia|]. destruct o; [apply Hs|done].
Qed.

Lemma await_thrifty (key : K) ve cause : thrifty 0 (await_removal key ve cause).
Proof.
  apply thrifty_same. intros s es s' es' p' E. destruct (removal_notifier s) as [n|]; [|by injection E as <- <- <-].
  destruct (poll_notify _ _ _) as [n' f]. injection E as <- <- <-. do 2 (split; [done|]). apply thrifty_step_same.
  intros s1 es1 s2 es2 a [= <- <- _]. split; [|done]. unfold notify_now. by destruct (removal_notifier s1).
Qed.

(** The eviction is counted, and the entry leaves the queues. *)
Lemma thrifty_count {A} (f : Inner K V * EvictionState -> res (Inner K V * EvictionState * A)) :
  (forall s es s' es' a, f (s, es) = Ok (s', es', a) -> tidy s (incr_eviction_count (counters es)) s' (counters es')) -> thrifty 1 (step f).
Proof.
  intros Hf. apply thrifty_act. intros s es s' es' p' E. apply bind_Ok in E as ([[s1 es1] a] & E & [= <- <- <-]).
  destruct (Hf _ _ _ _ _ E) as [Hc He]. exists 0. split; [|done]. unfold potential. rewrite Hc, He. cbn. unfold saturating_add. lia.
Qed.

Lemma evict_removed_thrifty handle (key : K) ve cause :
  (forall s ve c s' c', handle s ve c = Ok (s', c') -> tidy s c s' c') -> thrifty 1 (evict_removed handle key ve cause).
Proof.
  intros Hh. change 1 with (0 + 1). apply thrifty_bind; [|apply await_thrifty]. intros _. apply thrifty_count.
  intros s es s' es' a E. cbv zeta in E. apply bind_Ok in E as ([s2 c] & E & [= <- <- _]). by apply Hh in E.
Qed.

(** ** The evictions *)

Lemma expire_key_thrifty now kd : thrifty 0 (expire_key now kd).
Proof.
  destruct kd as [key []]; [done|]. cbn [expire_key].
  apply (thrifty_remove key _ (fun removed => match removed with Some entry => _ | None => _ end)); [|done].
  intros ve. apply evict_removed_thrifty. intros s ve0 c s' c'. apply remove_without_tidy.
Qed.
Lemma timers_thrifty now : thrifty 0 (async_evict_expired_entries_using_timers now).
Proof.
  apply thrifty_same. intros s es s' es' p' E. destruct (is_enabled (timer_wheel s)); [|by injection E as <- <- <-].
  destruct (advance (timer_wheel s) now) as [tw it]. apply bind_Ok in E as ([[[m tw'] it'] keys] & _ & [= <- <- <-]).
  do 2 (split; [done|]). apply thrifty_each. apply expire_key_thrifty.
Qed.

Lemma skip_ao_thrifty r key : thrifty 0 (async_skip_updated_entry_ao r key).
Proof. apply thrifty_step_same. intros s es s' es' a E. by apply bind_Ok in E as (s1 & ?%skip_ao_cache & [= <- <- _]). Qed.
Lemma skip_wo_thrifty key : thrifty 0 (async_skip_updated_entry_wo key).
Proof. apply thrifty_step_same. intros s es s' es' a E. by apply bind_Ok in E as (s1 & ?%skip_wo_cache & [= <- <- _]). Qed.
Lemma set_more_thrifty more : thrifty 0 (set_more (K := K) (V := V) more).
Proof. apply thrifty_step_same. intros s es s' es' a [= <- <- _]. by destruct more. Qed.

Lemma evict_from_ao_thrifty r key cause cond : thrifty 0 (async_evict_from_ao r key cause cond).
Proof.
  apply (thrifty_remove key cond (fun removed => match removed with Some entry => _ | None => _ end)).
  - intros ve. change 1 with (0 + 1). apply thrifty_bind; [|apply await_thrifty]. intros _. apply thrifty_count.
    intros s es s' es' a E. cbv zeta in E. apply bind_Ok in E as (ei & _ & E). apply bind_Ok in E as ([s2 c] & E & [= <- <- _]).
    by apply remove_with_tidy in E.
  - apply thrifty_seq; [apply skip_ao_thrifty|done].
Qed.

Lemma expired_ao_step_thrifty r tti va now more : thrifty 0 (async_remove_expired_ao_step r tti va now more).
Proof.
  apply thrifty_same. intros s es s' es' p' E. apply bind_Ok in E as (ao & _ & E). apply bind_Ok in E as (front & _ & E).
  destruct front as [n|]; [|by injection E as <- <- <-]. apply bind_Ok in E as (ei & _ & (<- & <- & <-)%ok3). do 2 (split; [done|]).
  destruct (is_dirty ei), (last_accessed ei) as [ts|]; try (apply thrifty_seq; [apply skip_ao_thrifty|done]).
  destruct (is_entry_expired_ao_or_invalid tti va ts now) as [[] []]; [..|done]; (apply thrifty_seq; [apply evict_from_ao_thrifty|done]).
Qed.
Lemma expired_ao_thrifty r n now : thrifty 0 (async_remove_expired_ao cfg r n now).
Proof.
  apply thrifty_same. intros s es s' es' p' E. cbv zeta in E. apply bind_Ok in E as (ao & _ & [= <- <- <-]). do 2 (split; [done|]).
  apply thrifty_seq; [apply thrifty_until, expired_ao_step_thrifty|apply set_more_thrifty].
Qed.

Lemma expired_wo_step_thrifty ttl va now more : thrifty 0 (async_remove_expired_wo_step ttl va now more).
Proof.
  apply thrifty_same. intros s es s' es' p' E. apply bind_Ok in E as (front & _ & E).
  destruct front as [n|]; [|by injection E as <- <- <-]. apply bind_Ok in E as (ei & _ & (<- & <- & <-)%ok3). do 2 (split; [done|]).
  destruct (is_dirty ei), (last_modified ei) as [ts|]; try (apply thrifty_seq; [apply skip_wo_thrifty|done]).
  destruct (is_entry_expired_wo_or_invalid ttl va ts now) as [[] []]; [..|done];
    (apply (thrifty_remove _ _ (fun removed => match removed with Some entry => _ | None => _ end));
     [intros ve; apply thrifty_seq; [apply evict_removed_thrifty; intros ?????; apply remove_tidy|done]
     |apply thrifty_seq; [apply skip_wo_thrifty|done]]).
Qed.
Lemma expired_wo_thrifty n now : thrifty 0 (async_remove_expired_wo cfg n now).
Proof.
  apply thrifty_choose. intros s es. apply thrifty_seq; [apply thrifty_until, expired_wo_step_thrifty|apply set_more_thrifty].
Qed.
Lemma deqs_thrifty n now : thrifty 0 (async_evict_expired_entries_using_deqs cfg n now).
Proof.
  apply thrifty_seq; [|intros _]; apply thrifty_choose; intros s es; (destruct (_ : bool); [|done]).
  - apply expired_wo_thrifty.
  - apply thrifty_seq; [apply expired_ao_thrifty|intros _]. apply thrifty_seq; [|intros _]; apply expired_ao_thrifty.
Qed.

Lemma lru_thrifty n w : thrifty 0 (async_evict_lru_entries (K := K) (V := V) n w).
Proof.
  apply thrifty_seq; [|intros [more e]; apply set_more_thrifty]. apply thrifty_until. intros [more evicted].
  apply thrifty_same. intros s es s' es' p' E. destruct (w <=? evicted); [by injection E as <- <- <-|].
  apply bind_Ok in E as (ao & _ & E). apply bind_Ok in E as (front & _ & E).
  destruct front as [nd|]; [|by injection E as <- <- <-]. apply bind_Ok in E as (ei & _ & (<- & <- & <-)%ok3). do 2 (split; [done|]).
  destruct (is_dirty ei), (last_accessed ei); (apply thrifty_seq; [apply skip_ao_thrifty || apply evict_from_ao_thrifty|done]).
Qed.

Lemma scan_thrifty ps cs : forall acc, thrifty 0 (scan_candidates (K := K) (V := V) ps acc cs).
Proof.
  induction cs as [|kd cs IH]; intros acc; [done|]. apply thrifty_same. intros s es s' es' p' E.
  apply bind_Ok in E as (b & _ & (<- & <- & <-)%ok3). do 2 (split; [done|]). destruct b; [|apply IH].
  apply thrifty_seq; [|intros a; apply IH].
  apply (thrifty_remove _ _ (fun removed => match removed with Some entry => _ | None => _ end)); [|done].
  intros ve. apply (thrifty_weaken _ 0); [lia|]. apply thrifty_seq; [apply await_thrifty|done].
Qed.
Lemma invalidate_thrifty n now : thrifty 0 (async_invalidate_entries cfg n now).
Proof.
  apply thrifty_same. intros s es s' es' p' E. apply bind_Ok in E as (inv & _ & E). destruct (len _ =? 0); [by injection E as <- <- <-|].
  apply bind_Ok in E as ([deq cs] & _ & E). apply bind_Ok in E as ([deq' o] & _ & E). cbv zeta in E. apply ok3 in E as (<- & <- & <-).
  do 2 (split; [done|]). destruct (length cs =? 0)%nat; [done|]. apply thrifty_seq; [|intros [invalidated is_done]; apply thrifty_seq; [|intros _]].
  - apply thrifty_same. intros s1 es1 s2 es2 p2 E. apply bind_Ok in E as (i1 & _ & E). cbv zeta in E. apply ok3 in E as (<- & <- & <-).
    do 2 (split; [done|]). apply thrifty_seq; [apply scan_thrifty|]. intros l. apply thrifty_step_same. intros s3 es3 s4 es4 a E.
    apply bind_Ok in E as (i2 & _ & E). by apply bind_Ok in E as (i3 & _ & [= <- <- _]).
  - apply thrifty_each. intros kv. apply thrifty_step_same. intros s1 es1 s2 es2 a E.
    by apply bind_Ok in E as ([s3 c] & ?%remove_tidy & [= <- <- _]).
  - apply thrifty_step_same. intros s1 es1 s2 es2 a E. apply bind_Ok in E as (i1 & _ & E). cbv zeta in E. injection E as <- <- _.
    by destruct is_done, (inv_is_empty i1).
Qed.

Lemma round_thrifty n t : thrifty 0 (async_evict_round cfg n t).
Proof.
  apply thrifty_seq; [apply timers_thrifty|intros _].
  apply thrifty_seq; [apply thrifty_choose; intros s es; destruct (_ || _); [apply deqs_thrifty|done]|intros _].
  apply thrifty_seq; [apply thrifty_choose; intros s es; destruct (invalidator s) as [i|]; [|done]; destruct (inv_is_empty i); [done|apply invalidate_thrifty]|intros _].
  apply thrifty_choose. intros s es. destruct (0 <? _); [apply lru_thrifty|done].
Qed.
End thrift.

(** ** Resuming a run *)

Section ends.
Context {K V : Type} `{Countable K}.
Variable cfg : Config K V.
Context (Huser : user_ok cfg) (Hsafe : sketch_safe cfg).
Variables (inv_on : bool) (n : Z) (m : gmap K (V * Instant)) (now : Instant).
Context (Hn : n <= MAX_WRITES) (Hnow : instant_ok now).
Implicit Types (s : Inner K V) (es : EvictionState) (sys : Sys (K := K) (V := V)) (rs : RSys (K := K) (V := V)) (a : RunArgs).
Notation M := (prog (Inner K V * EvictionState)).
Notation rinv := (rinv cfg inv_on n m).

(** The run is polled until it has ended. *)
Fixpoint resume (fuel : nat) rs : res RSys :=
  match rs_run rs, fuel with
  | None, _ => Ok rs
  | Some _, O => Fail Diverged
  | Some _, S fuel => '(rs, _) ← rexec cfg rs (RStep now); resume fuel rs
  end.

Definition rs_cache rs : gmap K (ValueEntry V) := cache (inner (base (rs_sys rs))).
Definition ends rs : Prop :=
  exists fuel rs', resume fuel rs = Ok rs' /\ rs_run rs' = None /\ rinv rs' /\ rs_cache rs' ⊆ rs_cache rs /\ in_flight (rs_sys rs') = in_flight (rs_sys rs).

Lemma ends_step rs rs1 x : rs_run rs = Some x -> rexec cfg rs (RStep now) = Ok (rs1, None) ->
  rs_cache rs1 ⊆ rs_cache rs -> in_flight (rs_sys rs1) = in_flight (rs_sys rs) -> ends rs1 -> ends rs.
Proof.
  intros Hr E Hc Hf (fuel & rs' & E' & Hn' & I & Hc' & Hf'). exists (S fuel), rs'. cbn [resume]. rewrite Hr, E. cbn [mbind res_bind].
  split; [done|]. split; [done|]. split; [done|]. split; [by transitivity (rs_cache rs1)|congruence].
Qed.
Lemma ends_now rs : rs_run rs = None -> rinv rs -> ends rs.
Proof. intros Hr I. exists 0%nat, rs. cbn [resume]. by rewrite Hr. Qed.

Lemma same_sys sys : mkSys (with_inner (base sys) (inner (base sys))) (in_flight sys) = sys.
Proof. by destruct sys as [[] ?]. Qed.

(** A part of a round is finite: its program gets smaller at each step. *)
Lemma part_ends a ev rd calls last (I : M unit -> Inner K V -> EvictionState -> Prop) :
  (forall f s es s' es' p', I (Act f) s es -> f (s, es) = Ok (s', es', p') -> I p' s' es') ->
  forall (p : M unit) sys es,
    rinv (mkRSys sys (Some (a, mkRun es p ev rd calls last))) -> I p (inner (base sys)) es ->
    (forall sys' es', rinv (mkRSys sys' (Some (a, mkRun es' (Ret tt) ev rd calls last))) -> I (Ret tt) (inner (base sys')) es' ->
       ends (mkRSys sys' (Some (a, mkRun es' (Ret tt) ev rd calls last)))) ->
    ends (mkRSys sys (Some (a, mkRun es p ev rd calls last))).
Proof.
  intros HI. fix IH 1. intros [[]|f] sys es R Hp Hk; [by apply Hk|].
  pose proof R as (Hi & _ & r & mm & [S Hs Hm _ Hev _ _]). cbn [run_state run_prog rs_sys] in *.
  specialize (Hs (inner (base sys)) es Hm (virtual_run_ok cfg inv_on n m sys es r S Hn Hi (proj2 (proj2 Hev)))).
  destruct (step_keeps cfg Hsafe inv_on n m _ now R Hn Hnow) as (rs1 & E1 & R1).
  pose proof E1 as E2. cbn [rexec rs_run rs_sys] in E2. unfold run_step in E2. cbn [run_prog run_state run_evicting run_round run_calls run_last_eviction_count] in E2.
  destruct (f (inner (base sys), es)) as [[[s' es'] p']|] eqn:Ef; [|done]. cbn [mbind res_bind] in E2. injection E2 as <-.
  destruct Hs as (r' & Hs & _). eapply ends_step; [done|exact E1|exact (so_cache _ _ _ _ _ _ _ Hs)|done|].
  apply (IH p'); [exact R1|by eapply HI|exact Hk].
Qed.

(** The end of a round. *)
Lemma round_ends a sys es rd calls last :
  rinv (mkRSys sys (Some (a, mkRun es (Ret tt) true rd calls last))) ->
  (calls <= ra_repeats a -> rinv (mkRSys sys (Some (a, mkRun es (async_process_logs cfg) false (S rd) calls 0))) ->
   ends (mkRSys sys (Some (a, mkRun es (async_process_logs cfg) false (S rd) calls 0)))) ->
  (last < ec_eviction_count (counters es) -> rinv (mkRSys sys (Some (a, start_evicting cfg a es (S rd) calls))) ->
   ends (mkRSys sys (Some (a, start_evicting cfg a es (S rd) calls)))) ->
  ends (mkRSys sys (Some (a, mkRun es (Ret tt) true rd calls last))).
Proof.
  intros R Hlogs Hevict. destruct (step_keeps cfg Hsafe inv_on n m _ now R Hn Hnow) as (rs1 & E1 & R1).
  pose proof E1 as E2. cbn [rexec rs_run rs_sys] in E2. unfold run_step, end_round in E2.
  cbn [run_prog run_state run_evicting run_round run_calls run_last_eviction_count] in E2. cbv zeta in E2.
  apply bind_Ok in E2 as ([s' x] & E & E2). apply bind_Ok in E as (diff & Ed & E).
  assert (Hdiff : diff = ec_eviction_count (counters es) - last).
  { unfold checked_sub in Ed. destruct (last <=? _); [|done]. by injection Ed as <-. }
  destruct (orb _ _) eqn:Hstop.
  - apply bind_Ok in E as (_ & _ & E). apply bind_Ok in E as (_ & _ & [= <- <-]). apply bind_Ok in E2 as (b' & Eb & [= <-]).
    apply bind_Ok in Eb as (hk & _ & Eb). apply bind_Ok in Eb as (after & _ & [= <-]).
    by eapply ends_step; [|exact E1|..|apply ends_now].
  - apply orb_false_iff in Hstop as [Hstop _]. injection E as <- <-. rewrite same_sys in E2. injection E2 as <-.
    eapply ends_step; [done|exact E1|done|done|]. unfold start_round in *.
    destruct (andb (calls <=? _) _) eqn:Hl.
    + apply andb_true_iff in Hl as [Hl%Z.leb_le _]. by apply Hlogs.
    + cbn [negb andb] in Hstop. apply negb_false_iff, andb_true_iff in Hstop as [_ Hd%Z.ltb_lt]. apply Hevict; [lia|done].
Qed.

(** The logs have been applied: the evictions follow. *)
Lemma logs_end a sys es rd calls last :
  rinv (mkRSys sys (Some (a, mkRun es (Ret tt) false rd calls last))) ->
  (rinv (mkRSys sys (Some (a, start_evicting cfg a es rd (calls + 1)))) -> ends (mkRSys sys (Some (a, start_evicting cfg a es rd (calls + 1))))) ->
  ends (mkRSys sys (Some (a, mkRun es (Ret tt) false rd calls last))).
Proof.
  intros R Hk. destruct (step_keeps cfg Hsafe inv_on n m _ now R Hn Hnow) as (rs1 & E1 & R1).
  pose proof E1 as E2. cbn [rexec rs_run rs_sys] in E2. unfold run_step in E2.
  cbn [run_prog run_state run_evicting run_round run_calls run_last_eviction_count] in E2.
  apply bind_Ok in E2 as ([s' x] & E & E2). apply bind_Ok in E as (c & Ec & [= <- <-]). rewrite same_sys in E2. injection E2 as <-.
  assert (c = calls + 1) as -> by (unfold checked_add in Ec; destruct (_ <=? _); [by injection Ec as <-|done]).
  eapply ends_step; [done|exact E1|done|done|]. by apply Hk.
Qed.

(** The rounds: each one but the last applies the logs, at most [max_log_sync_repeats]
    times, or leaves a smaller table. *)
Lemma rounds_end a c : forall N sys es rd calls,
  Z.to_nat (ra_repeats a + 1 - calls) = c -> (size (cache (inner (base sys))) <= N)%nat ->
  rinv (mkRSys sys (Some (a, start_evicting cfg a es rd calls))) -> ends (mkRSys sys (Some (a, start_evicting cfg a es rd calls))).
Proof.
  revert c. induction c as [c IHc] using lt_wf_ind. intros N.
  induction N as [N IHN] using lt_wf_ind. intros sys es rd calls Hc HN R.
  set (bound := potential (inner (base sys)) (with_more es false)).
  apply (part_ends a true rd calls _ (fun p s es' => exists d, thrifty d p /\ potential s es' + d <= bound)).
  - intros f s es1 s' es' p' (d & Ht & Hd) Ef. specialize (Ht s es1). rewrite Ef in Ht. destruct Ht as (d' & Hd' & Ht). exists d'. split; [done|lia].
  - done.
  - exists 0. split; [apply round_thrifty|unfold bound; lia].
  - intros sys' es' R' (d & Hd & Hb). cbn in Hd. apply round_ends; [done|..].
    + intros Hle Rl. apply (part_ends a false (S rd) calls 0 (fun _ _ _ => True)); [done|done|done|].
      intros sys2 es2 R2 _. apply logs_end; [done|]. intros R3. eapply (IHc _ _ _ sys2 es2); [reflexivity|reflexivity|exact R3].
      Unshelve. lia.
    + intros Hlt Re. eapply (IHN _ _ sys' es'); [exact Hc|reflexivity|exact Re].
      Unshelve. unfold bound, potential in Hb. cbn in Hb, Hlt. lia.
Qed.

(** From the middle of a run. *)
Lemma resumed_run_ends rs : rinv rs -> ends rs.
Proof.
  intros R. destruct rs as [sys [[a [es p ev rd calls last]]|]]; [|by apply ends_now].
  apply (part_ends a ev rd calls last (fun _ _ _ => True)); [done|done|done|]. intros sys1 es1 R1 _.
  assert (Hstart : forall sys es rd calls, rinv (mkRSys sys (Some (a, start_evicting cfg a es rd calls))) -> ends (mkRSys sys (Some (a, start_evicting cfg a es rd calls)))).
  { intros. by eapply rounds_end. }
  destruct ev; [|by apply logs_end; auto]. apply round_ends; [done| |auto]. intros _ Rl.
  apply (part_ends a false (S rd) calls 0 (fun _ _ _ => True)); [done|done|done|]. intros sys2 es2 R2 _. apply logs_end; auto.
Qed.
End ends.

Section guarantees.
Context {K V : Type} `{Countable K}.
Variable cfg : Config K V.
Context (Huser : user_ok cfg) (Hsafe : sketch_safe cfg).
Variables (listener : option (K -> V -> RemovalCause -> bool)) (config : HousekeeperConfig) (inv_on : bool)
  (t0 : Instant) (b0 : BaseCache K V).
Context (Ht0 : instant_ok t0) (Hrep : 0 <= cfg_max_log_sync_repeats config < U32_MAX)
  (Hnew : new_base_cache listener config inv_on t0 = Ok b0).

(** C21. A suspended maintenance run that is resumed ends: from every state that a run
    and other tasks can reach together, wherever the run was suspended, finitely many
    polls complete it without a fault.  It only removes entries, leaves the writes in
    flight alone, and stores an entry count that is exact.  For every [sketch_safe]
    configuration (any, in a build without overflow checks) and fewer than [2^32 - 1]
    configured repeats of a run. *)
Theorem suspended_run_ends n m rs now :
  rreach cfg b0 n m rs -> n <= MAX_WRITES -> instant_ok now ->
  exists fuel rs', resume cfg now fuel rs = Ok rs' /\ rs_run rs' = None /\ rs_cache rs' ⊆ rs_cache rs /\
    in_flight (rs_sys rs') = in_flight (rs_sys rs) /\
    let s' := inner (base (rs_sys rs')) in entry_count s' = Z.of_nat (size (admitted_entries s')).
Proof.
  intros HR Hn Hnow. pose proof (rreached_inv cfg Huser Hsafe listener config inv_on t0 b0 Ht0 Hrep Hnew n m rs HR Hn) as R.
  destruct (resumed_run_ends cfg Hsafe inv_on n m now Hn Hnow rs R) as (fuel & rs' & E & Hend & R' & Hc & Hf). exists fuel, rs'.
  do 4 (split; [done|]). destruct R' as (_ & _ & S'). rewrite Hend in S'. destruct (si_cache S') as (_ & P & Q & B & J).
  by eapply admitted_size.
Qed.
End guarantees.

Module EndWitnesses.
Import Guarantees.Sample FutureRunSys.RunWitnesses.

Lemma suspended_run_ends_witness : (if rs_run mid then true else false) = true /\
  exists fuel rs', resume config 9 fuel mid = Ok rs' /\ rs_run rs' = None /\ rs_cache rs' ⊆ rs_cache mid.
Proof.
  split; [vm_compute; reflexivity|].
  destruct (suspended_run_ends config user safe quiet_listener few_repeats true 0 start ltac:(by apply ok_at) few_repeats_ok start_ok 7 mid_spec mid 9 mid_reach)
    as (fuel & rs' & E & Hend & Hc & _); [done|by apply ok_at|]. exists fuel, rs'. exact (conj E (conj Hend Hc)).
Defined.
End EndWitnesses.
